(* ===== verification/_CoqProject ===== *)
-Q . S2P
Prelude.v
Utils.v
Blocks.v
Iterhash.v
Crypto.v
Ecdsa.v
Sha256.v
Ripemd160.v
Ripemd320.v
Ripemd128.v
Ripemd.v
Hashes.v
Base58.v
Script.v
Serializer.v
Transaction.v
Block.v
Pow.v
Work.v
Wallet.v
Chain.v
Validation.v
Ledger.v
World.v
Storage.v
Socket.v
Message.v
Node.v
Protocol.v
Daemon.v
Wire.v
Threads.v
Frame.v
Mutex.v
DaemonSafety.v
Durability.v
ThreadSafety.v
Atomicity.v
Sync.v
Payment.v
Main.v
