(* ===== verification/Prelude.v ===== *)
(** * Siliqua: a verification development

    Siliqua (src/Siliqua) is a small Bitcoin-like blockchain node in C++: one program
    that mines blocks, keeps a chain, a wallet and a mempool in files, and exchanges
    blocks and transactions with peers over TCP.  This library is a shallow embedding of
    all of the program's own code, and of the hash functions it links, with the
    theorems that say what the code guarantees (and, in a few places, what it does not).
    Paths below are relative to src/Siliqua/include unless they say otherwise.

    ** The parts, bottom up

    - [Prelude.v]: integers at their width ([u32], [i64], ... with the predicates [in_u32],
      ...), the type [result] of what a C++ call can do, loops, little- and big-endian
      values, the hint database [siliqua].
    - [Crypto.v]: the interfaces.  [HashFns]/[HashLaws] is what the ledger uses of the hash
      functions; [Secp256k1]/[Secp256k1Laws] is what the code uses of libsecp256k1, whose
      source is not in the repository: its calls are parameters, and the laws state what
      secp256k1.h documents.  [toy_hashes] and [toy_secp] are small instances for witnesses.
    - [Blocks.v], [Sha256.v]: picosha2.h.  [picosha2.*] follows the code (64-bit words masked
      to 32 bits, buffers and length counters); [fips180.*] is the standard, written from
      its text.
    - [Iterhash.v], [Ripemd160.v], [Ripemd320.v], [Ripemd128.v], [Ripemd.v]: cryptopp/iterhash.h
      and iterhash.cpp, and cryptopp/ripemd.cpp.  The class template is a module over a
      record [StaticTransform] (what it takes from its template argument), proved once for
      every transform that satisfies [TransformLaws] to be the Merkle-Damgard iteration
      [merkle_damgard.digest] of a compression function.  The four transforms are the
      source's unrolled lists of sub-rounds, run by an interpreter of the macro; they are
      proved to be the tabulated rounds of the publications ([ripemd160_spec], ...).
    - [Hashes.v]: the wrappers of crypto/ecdsa.h; [siliqua_hashes] is the resulting instance
      of [HashFns].
    - [Utils.v], [Base58.v], [Ecdsa.v], [Script.v]: utils.h, wallet/base58.h, crypto/ecdsa.cpp
      with crypto/secp256k1context.h and wallet/signing.h, wallet/script.h.
    - [Serializer.v], [Transaction.v], [Block.v]: core/.  A reader takes a buffer and a cursor
      and throws when the buffer is short.  [Codec]/[CodecLaws] is the contract between
      nested formats: reading succeeds exactly on what writing produces.
    - [Pow.v]: consensus/pow.h, with the doubles of the retarget and of the chain work in
      the Standard Library's IEEE-754 specification.  [Work.v]: chain works are compared by
      value, and adding never makes one smaller, rounding included.
    - [Wallet.v]: wallet/wallet.h.
    - [Chain.v], [Validation.v], [Ledger.v]: the consensus half of network/node.h.  [Chain.v]
      has the code.  [Validation.v] has the declarative rules: [unspent] (an output of the
      chain that nothing spends), [pays] (a transaction against unspent outputs), [extends]
      and [valid_chain], which specify [build_utxo_set], [validate_and_get_fee],
      [try_extend_chain] and [validate_full_chain]; in them the required difficulty is the
      code's [get_next_work_required], and running a script is the code's [evaluate], which
      have theorems of their own.  [Ledger.v] has what a tip hash commits to and two
      attacks.
    - [World.v], [Storage.v], [Socket.v], [Message.v]: effects.  A [world] holds the files, the
      open descriptors, and, as data, everything the environment will decide: the outcome of
      each socket call, how streams are cut into chunks, when a send fails, whether a peer
      closes its end or stays silent ([idle]: then [recv] blocks), whether the consoles can
      be written, the clock, the random bytes.  [io] is a state and error monad over it.  A
      [send] on a broken connection raises SIGPIPE, since the code neither ignores it nor
      passes MSG_NOSIGNAL: the process ends in the call ([kill_process], [killed]).  On top: storage/storage.h,
      network/socket.h, network/message.h and network/peer.h ([with_peer] is the scope of a
      [Peer]: its destructor closes the socket however the scope is left).
    - [Node.v], [Protocol.v]: the other half of network/node.h, and its theorems.
    - [Daemon.v], [Threads.v], [Mutex.v]: network/daemon.h, at three levels.  [Daemon.v] has the node and
      its critical sections: all access to the shared chain happens under one mutex, so the
      abstract process [step] is the sections in any order, with any values from outside.
      [Threads.v] has the code of the threads as interaction trees (loops are infinite
      trees) whose events are a call outside the mutex, a critical section, or a new thread;
      [turn] is the process: a pool of threads, one of which takes the next event.  An
      exception that leaves a thread ends the process, and so does a signal; a thread whose
      call blocks takes no more turns.  [Mutex.v] has the mutex itself: a
      section is the sequence of its calls ([code]), a thread may hold [mutex_], and in
      [fine_turn] one thread makes one call, so that the others go on with what they do
      outside the mutex while a section is under way.  There a section truncates the file
      it saves and then writes it byte by byte, so that every partial file is a state of
      the process; the process has the section's new chain from the end of the section, a
      difference that nothing under the mutex can observe.
    - [DaemonSafety.v], [Durability.v]: the abstract process, by induction on its runs.
      [Wire.v]: what is received is bytes.  [ThreadSafety.v]: the threads refine the
      abstract process, by a coinductive predicate on trees; types and restarts of real
      runs.  [Frame.v]: a call on the disk and a call on the network commute.
      [Atomicity.v]: by that, sections are atomic; and what a crash leaves, at any call
      and any byte of a write.  [Sync.v]: two
      processes that talk, and a peer that ends one.  [Payment.v]: a payment from the
      wallet through the wire, the mempool and a mined block to its recipient, and the
      payments that the fee check wrongly accepts.
    - [Main.v]: src/Siliqua.cpp: argument checks, dispatch, exit statuses.  [main] ends with a
      status, or in [Node::Run] with a node: from there the process is that of [Threads.v].

    ** What the theorems show

    - Equivalence with a reference: the hash functions; the proof-of-work test as a
      comparison of numbers; [validate_full_chain] and [valid_chain]; the UTXO set rebuilt
      from a chain and the one validation maintains.
    - Round trips: hexadecimal, Base58 and addresses, every record of the byte formats,
      messages on a stream, files, and the chain and wallet of a daemon stopped between
      sections and restarted.
    - Types: in every state of a running daemon the chain and the mempool file are well
      formed, whatever bytes its peers send.
    - Functional behaviour: the script engine on P2PKH scripts, payments, chain extension
      and fork choice with every reason for refusal, difficulty, rewards, the command line.
    - Safety: conservation of value, the commitment of the Merkle root and of the tip hash
      (unless two of the messages hashed for the given blocks collide), no leaked
      descriptor, what each command can change on disk, the invariant of the daemon from its
      constructor on, the work of its chain, which never decreases, the bound on its
      mempool; a daemon killed at any moment leaves a chain file that a new one resumes
      from, except in the window in which a section has truncated the file and not yet
      written it: then the chain is lost ([crash_recovers], [crash_loses]).
    - Refinement: the threads implement the abstract daemon, and the process with its mutex
      reaches exactly what runs by whole sections reach; the checks [run_connector]
      repeats inline implement [try_extend_chain] and [try_reorg].
    - Termination and liveness: mining finds a solution if there is one; serving a peer that
      closes its connection ends, if not by SIGPIPE;
      a mined block extends the chain; a daemon that polls one with more work comes to have
      its tip; a payment sent to a daemon that mines comes to be its recipient's.
    - Errors: [main] lets no exception out but that of a failed write to a console; and the
      defects the model exposes, each as a
      theorem about the code as it is: a one-byte script that opens every P2PKH output,
      a retarget after which mining cannot succeed, blocks that double-spend or create
      money, payments that count an input twice or have a negative output, a repeated last transaction that keeps the Merkle root, a message that ends
      the daemon.

    ** Conventions, bounds and fuel

    - [result]: [Ok], [Throw] (an exception derived from std::exception), [Ub] (undefined
      behaviour: signed overflow, [back()] of an empty vector, ...), [Diverge] (out of fuel, or
      a call that does not return: it blocks, or a signal has ended the process).  A [catch]
      handles [Throw] only.
    - Fuel: [mine_block] takes the number of attempts, and 2^64 are enough whenever a
      solution exists ([mine_block_exhaustive]); the scaling loop of the retarget has 128
      rounds, enough for every finite double; the script loop has the program's length, the
      send and receive loops the length of the data, [BuildMerkleRoot] the number of
      transactions, each proved enough; the loop that serves a peer ends within one
      round more than the bytes the peer sends ([serve_loop_terminates]).  The loops of the
      daemon's threads have no fuel: they are infinite trees, run by [turn].
    - [std::unordered_map] is a [gmap]; where the code iterates it, the order is a parameter
      ([UtxoOrder]) that the theorems quantify over.
    - [Wallet]'s and [Secp256k1Context]'s random bytes come from the world and may fail.

    ** Not modelled, and why

    - Logging (logger.h, spdlog), and what is written to standard error: no function reads
      them back.  Standard output is modelled, and that writing to either console may throw;
      the logger does not throw.
    - Failure of memory allocation ([reserve] with a hostile count may throw
      std::bad_alloc), errors of a write after the file was opened, and files that change
      while the program reads them.
    - The Windows and BSD branches (on POSIX, WinsockGuard does nothing); big-endian machines.
    - Real time: [sleep_for] and the timing and fairness of threads (a turn may come at any
      moment, and a theorem that a state is reached says that some turns reach it); the
      process after undefined behaviour (no turn leaves such a state).  A [send] that blocks
      because the peer does not read is a thread that takes no more turns.  A system call is
      one step; in the commands, and outside [Mutex.v], so is the writing of a file, whose
      partial states nothing else in the process can see.
    - The rest of Crypto++ (never called; [CreateUpdateSpace] neither) and libsecp256k1 (no
      source). *)

From stdpp Require Export base tactics list gmap strings.
From Stdlib Require Export ZArith Lia.
From Stdlib Require Ascii.

#[export] Set Default Goal Selector "!".
#[global] Open Scope Z_scope.

(** ** Machine integers

    An unsigned w-bit integer is a [Z] in [0, 2^w); a conversion or an
    arithmetic result is reduced explicitly by one of the functions below. *)

Definition u8 (x : Z) : Z := x mod 2 ^ 8.
Definition u16 (x : Z) : Z := x mod 2 ^ 16.
Definition u32 (x : Z) : Z := x mod 2 ^ 32.
Definition u64 (x : Z) : Z := x mod 2 ^ 64.
Definition i32 (x : Z) : Z := (x + 2 ^ 31) mod 2 ^ 32 - 2 ^ 31.
Definition i64 (x : Z) : Z := (x + 2 ^ 63) mod 2 ^ 64 - 2 ^ 63.

Definition in_u8 (x : Z) : Prop := 0 <= x < 2 ^ 8.
Definition in_u32 (x : Z) : Prop := 0 <= x < 2 ^ 32.
Definition in_u64 (x : Z) : Prop := 0 <= x < 2 ^ 64.
Definition in_i32 (x : Z) : Prop := - 2 ^ 31 <= x < 2 ^ 31.
Definition in_i64 (x : Z) : Prop := - 2 ^ 63 <= x < 2 ^ 63.

#[export] Instance in_u8_dec x : Decision (in_u8 x).
Proof. unfold in_u8. apply _. Defined.
#[export] Instance in_u32_dec x : Decision (in_u32 x).
Proof. unfold in_u32. apply _. Defined.
#[export] Instance in_u64_dec x : Decision (in_u64 x).
Proof. unfold in_u64. apply _. Defined.
#[export] Instance in_i32_dec x : Decision (in_i32 x).
Proof. unfold in_i32. apply _. Defined.
#[export] Instance in_i64_dec x : Decision (in_i64 x).
Proof. unfold in_i64. apply _. Defined.

(** Bytes and byte strings ([std::vector<uint8_t>], [std::array<uint8_t, N>]
    and [std::string]): lists of byte values.  *)
Abbreviation bytes := (list Z).
Abbreviation bytes_ok := (Forall in_u8).

(** The size of a container, as the [size_t] the code compares. *)
Definition size_of {A} (l : list A) : Z := Z.of_nat (List.length l).

(** A string literal of the source, as the list of its character codes. *)
Fixpoint str (s : string) : bytes :=
  match s with
  | EmptyString => []
  | String c s' => Z.of_N (Ascii.N_of_ascii c) :: str s'
  end.

(** ** Results

    What a C++ call can do: return a value, throw an exception derived from
    [std::exception], reach undefined behaviour (a signed overflow, a division by
    zero, an out-of-range [operator[]]), or not return ([Diverge]: within the fuel its
    model was given, where each loop with fuel has a theorem that says when this cannot
    happen; or because the call blocks, or a signal ends the process inside it).  Only exceptions are caught by a
    [catch (const std::exception&)]. *)

Inductive exn := out_of_range | invalid_argument | length_error | runtime_error | system_error.

Inductive result (A : Type) :=
| Ok (a : A)
| Throw (e : exn)
| Ub
| Diverge.
Arguments Ok {A} a.
Arguments Throw {A} e.
Arguments Ub {A}.
Arguments Diverge {A}.

#[export] Instance exn_eq_dec : EqDecision exn.
Proof. solve_decision. Defined.
#[export] Instance result_eq_dec A `{EqDecision A} : EqDecision (result A).
Proof. solve_decision. Defined.

#[export] Instance result_ret : MRet result := fun _ a => Ok a.
#[export] Instance result_bind : MBind result := fun _ _ f m =>
  match m with Ok a => f a | Throw e => Throw e | Ub => Ub | Diverge => Diverge end.

Definition is_ok {A} (r : result A) : bool :=
  match r with Ok _ => true | _ => false end.

(** Signed 64-bit addition: overflow is undefined behaviour. *)
Definition add_i64 (a b : Z) : result Z :=
  if decide (in_i64 (a + b)) then Ok (a + b) else Ub.

(** Subtraction and comparison helpers used by several components. *)
Definition sub_i64 (a b : Z) : result Z :=
  if decide (in_i64 (a - b)) then Ok (a - b) else Ub.

(** Loops over a range: [for (i = 0; i < n; ++i) s = f(i, s)]. *)
Definition for_range {S} (n : nat) (f : nat -> S -> S) (s : S) : S :=
  fold_left (fun s i => f i s) (seq 0 n) s.

(** A loop whose body may throw, over the elements of a container. *)
Fixpoint for_each {A S} (f : S -> A -> result S) (s : S) (l : list A) : result S :=
  match l with
  | [] => Ok s
  | a :: l' => s' ← f s a; for_each f s' l'
  end.

(** ** Generic lemmas *)

Create HintDb siliqua.
Create Rewrite HintDb siliqua.

Section ResultLemmas.
Context {A B : Type}.

Lemma bind_Ok_inv (m : result A) (k : A -> result B) b :
  m ≫= k = Ok b -> exists a, m = Ok a /\ k a = Ok b.
Proof. destruct m; simpl; intros H; [eauto | discriminate..]. Qed.

Lemma bind_Ok (m : result A) (k : A -> result B) a :
  m = Ok a -> m ≫= k = k a.
Proof. by intros ->. Qed.

Lemma bind_assoc {C} (m : result A) (k : A -> result B) (k' : B -> result C) :
  (m ≫= k) ≫= k' = m ≫= (fun a => k a ≫= k').
Proof. by destruct m. Qed.

Lemma for_each_app (f : B -> A -> result B) s l l' :
  for_each f s (l ++ l') = (s' ← for_each f s l; for_each f s' l').
Proof.
  revert s; induction l as [|a l IH]; intros s; simpl; [done|].
  destruct (f s a); simpl; [apply IH | done..].
Qed.

Lemma for_each_inv (I : B -> Prop) (f : B -> A -> result B) s l s' :
  (forall s a s', a ∈ l -> I s -> f s a = Ok s' -> I s') ->
  I s -> for_each f s l = Ok s' -> I s'.
Proof.
  revert s; induction l as [|a l IH]; intros s Hf HI H; simpl in H.
  - by injection H as <-.
  - destruct (f s a) as [s1| | |] eqn:E; simpl in H; try discriminate.
    eapply IH, H.
    + intros ??? Hin. apply Hf. by apply list_elem_of_further.
    + eapply Hf, E; [apply list_elem_of_here | done].
Qed.
End ResultLemmas.

Lemma add_i64_Ok a b c : add_i64 a b = Ok c -> c = a + b /\ in_i64 c.
Proof. unfold add_i64. case_decide; [by intros [= <-] | discriminate]. Qed.
Lemma add_i64_in a b : in_i64 (a + b) -> add_i64 a b = Ok (a + b).
Proof. unfold add_i64. by intros; rewrite decide_True. Qed.
Lemma sub_i64_Ok a b c : sub_i64 a b = Ok c -> c = a - b /\ in_i64 c.
Proof. unfold sub_i64. case_decide; [by intros [= <-] | discriminate]. Qed.
Lemma sub_i64_in a b : in_i64 (a - b) -> sub_i64 a b = Ok (a - b).
Proof. unfold sub_i64. by intros; rewrite decide_True. Qed.

(** Splitting a monadic computation known to return a value. *)
Ltac inv_bind H :=
  let a := fresh "a" in let Ha := fresh "Ha" in
  apply bind_Ok_inv in H; destruct H as (a & Ha & H).
Ltac inv_ok :=
  repeat match goal with
  | H : mret _ = Ok _ |- _ => unfold mret, result_ret in H
  | H : Ok _ = Ok _ |- _ => injection H as H; simplify_eq
  | H : Throw _ = Ok _ |- _ => discriminate H
  | H : Ub = Ok _ |- _ => discriminate H
  | H : Diverge = Ok _ |- _ => discriminate H
  | H : (_ ≫= _) = Ok _ |- _ => inv_bind H
  | H : add_i64 _ _ = Ok _ |- _ => apply add_i64_Ok in H as [-> ?]
  | H : sub_i64 _ _ = Ok _ |- _ => apply sub_i64_Ok in H as [-> ?]
  | H : (let '(_, _) := ?p in _) = Ok _ |- _ => destruct p eqn:?
  end.

(** *** Ranges of the conversions *)

Lemma u8_range x : in_u8 (u8 x).
Proof. unfold in_u8, u8. apply Z.mod_pos_bound. lia. Qed.
Lemma u32_range x : in_u32 (u32 x).
Proof. unfold in_u32, u32. apply Z.mod_pos_bound. lia. Qed.
Lemma u64_range x : in_u64 (u64 x).
Proof. unfold in_u64, u64. apply Z.mod_pos_bound. lia. Qed.
Lemma i32_range x : in_i32 (i32 x).
Proof. unfold in_i32, i32. pose proof (Z.mod_pos_bound (x + 2^31) (2^32)). lia. Qed.
Lemma i64_range x : in_i64 (i64 x).
Proof. unfold in_i64, i64. pose proof (Z.mod_pos_bound (x + 2^63) (2^64)). lia. Qed.
Lemma u8_id x : in_u8 x -> u8 x = x.
Proof. apply Z.mod_small. Qed.
Lemma u32_id x : in_u32 x -> u32 x = x.
Proof. apply Z.mod_small. Qed.
Lemma u64_id x : in_u64 x -> u64 x = x.
Proof. apply Z.mod_small. Qed.
Lemma i32_u32 x : in_i32 x -> i32 (u32 x) = x.
Proof.
  unfold in_i32, i32, u32. intros H.
  rewrite Z.add_mod_idemp_l by lia. rewrite Z.mod_small; lia.
Qed.
Lemma i64_u64 x : in_i64 x -> i64 (u64 x) = x.
Proof.
  unfold in_i64, i64, u64. intros H.
  rewrite Z.add_mod_idemp_l by lia. rewrite Z.mod_small; lia.
Qed.
Lemma u32_i32 x : in_u32 x -> u32 (i32 x) = x.
Proof.
  unfold in_u32, i32, u32. intros H.
  rewrite <- Zminus_mod_idemp_l, Z.mod_mod, Zminus_mod_idemp_l by lia.
  rewrite Z.mod_small; lia.
Qed.
Lemma u64_i64 x : in_u64 x -> u64 (i64 x) = x.
Proof.
  unfold in_u64, i64, u64. intros H.
  rewrite <- Zminus_mod_idemp_l, Z.mod_mod, Zminus_mod_idemp_l by lia.
  rewrite Z.mod_small; lia.
Qed.
#[export] Hint Resolve u8_range u32_range u64_range i32_range i64_range : siliqua.

Lemma size_of_app {A} (l l' : list A) : size_of (l ++ l') = size_of l + size_of l'.
Proof. unfold size_of. rewrite length_app. lia. Qed.
Lemma size_of_nonneg {A} (l : list A) : 0 <= size_of l.
Proof. unfold size_of. lia. Qed.
Lemma size_of_cons {A} (a : A) l : size_of (a :: l) = 1 + size_of l.
Proof. unfold size_of. simpl List.length. lia. Qed.
#[export] Hint Rewrite @size_of_app @size_of_cons : siliqua.
#[export] Hint Resolve size_of_nonneg : siliqua.

(** *** Slices *)

(** [slice l off n]: the elements [l[off], ..., l[off + n - 1]]. *)
Definition slice {A} (l : list A) (off n : nat) : list A := take n (drop off l).

Lemma slice_app {A} (pre l post : list A) :
  slice (pre ++ l ++ post) (length pre) (length l) = l.
Proof. unfold slice. by rewrite drop_app_length, take_app_length. Qed.

Lemma length_slice {A} (l : list A) off n :
  (off + n <= length l)%nat -> length (slice l off n) = n.
Proof. unfold slice. rewrite length_take, length_drop. lia. Qed.

Lemma slice_split {A} (l : list A) off n m :
  slice l off (n + m) = slice l off n ++ slice l (off + n) m.
Proof. unfold slice. by rewrite <- take_take_drop, drop_drop. Qed.

Lemma slice_Forall {A} (P : A -> Prop) l off n : Forall P l -> Forall P (slice l off n).
Proof. intros. unfold slice. by apply Forall_take, Forall_drop. Qed.

(** Induction two elements at a time. *)
Lemma list_ind2 {A} (P : list A -> Prop) :
  P [] -> (forall a, P [a]) -> (forall a b l, P l -> P (a :: b :: l)) -> forall l, P l.
Proof.
  intros H0 H1 H2 l. enough (P l /\ forall a, P (a :: l)) as [? _] by done.
  induction l as [|b l [IH1 IH2]]; eauto.
Qed.

(** *** Bits *)

Lemma lor_shiftl_add a b k :
  0 <= k -> 0 <= a < 2 ^ k -> Z.lor a (Z.shiftl b k) = a + b * 2 ^ k.
Proof.
  intros Hk Ha.
  assert (Z.land a (Z.shiftl b k) = 0) as Hd.
  { apply Z.bits_inj'. intros n Hn. rewrite Z.land_spec, Z.bits_0.
    destruct (decide (n < k)).
    - rewrite Z.shiftl_spec_low by lia. apply andb_false_r.
    - rewrite <- (Z.mod_small a (2 ^ k)) by lia.
      rewrite Z.mod_pow2_bits_high by lia. done. }
  rewrite <- Z.lxor_lor by done. rewrite <- Z.add_nocarry_lxor by done.
  by rewrite Z.shiftl_mul_pow2.
Qed.

Lemma land_255 x : Z.land x 0xff = x mod 2 ^ 8.
Proof. change 0xff with (Z.ones 8). by apply Z.land_ones. Qed.
Lemma land_u32 x : Z.land x 0xffffffff = x mod 2 ^ 32.
Proof. change 0xffffffff with (Z.ones 32). by apply Z.land_ones. Qed.

(** *** Little-endian byte strings *)

Fixpoint le_bytes (n : nat) (v : Z) : bytes :=
  match n with
  | O => []
  | S n => v mod 2 ^ 8 :: le_bytes n (v / 2 ^ 8)
  end.
Fixpoint le_value (bs : bytes) : Z :=
  match bs with
  | [] => 0
  | b :: bs => b + 2 ^ 8 * le_value bs
  end.

Lemma length_le_bytes n v : length (le_bytes n v) = n.
Proof. revert v; induction n; intros; simpl; auto. Qed.
Lemma le_bytes_ok n v : bytes_ok (le_bytes n v).
Proof. revert v; induction n; intros; constructor; [apply u8_range | auto]. Qed.

Lemma le_value_bytes n v : le_value (le_bytes n v) = v mod 2 ^ (8 * Z.of_nat n).
Proof.
  revert v; induction n as [|n IH]; intros v; simpl le_value.
  - by rewrite Z.mod_1_r.
  - rewrite IH. rewrite Nat2Z.inj_succ, Z.mul_succ_r, Z.add_comm, Z.pow_add_r by lia.
    rewrite (Z.mul_comm (2 ^ (8 * Z.of_nat n))), Z.rem_mul_r by lia. lia.
Qed.

Lemma le_value_range bs : bytes_ok bs -> 0 <= le_value bs < 2 ^ (8 * Z.of_nat (length bs)).
Proof.
  induction 1 as [|b bs Hb Hbs IH]; simpl le_value; [simpl; lia|].
  simpl length. rewrite Nat2Z.inj_succ, Z.mul_succ_r, Z.add_comm, Z.pow_add_r by lia.
  unfold in_u8 in Hb. lia.
Qed.

Lemma le_bytes_value bs : bytes_ok bs -> le_bytes (length bs) (le_value bs) = bs.
Proof.
  induction 1 as [|b bs Hb Hbs IH]; simpl; [done|]. unfold in_u8 in Hb.
  rewrite (Z.add_comm b), Z.mul_comm.
  rewrite Z.div_add_l, (Z.div_small b), Z.add_0_r by lia.
  rewrite (Z.add_comm (_ * _)), Z.mod_add, (Z.mod_small b) by lia.
  by rewrite IH.
Qed.

#[export] Hint Resolve le_bytes_ok : siliqua.
#[export] Hint Rewrite length_le_bytes : siliqua.

(** *** Big-endian byte strings *)

Definition be_value (bs : bytes) : Z := fold_left (fun acc b => acc * 256 + b) bs 0.

Lemma be_value_acc bs acc :
  fold_left (fun acc b => acc * 256 + b) bs acc
  = acc * 256 ^ Z.of_nat (length bs) + be_value bs.
Proof.
  unfold be_value. revert acc; induction bs as [|b bs IH]; intros acc; simpl fold_left.
  - simpl. lia.
  - rewrite (IH (acc * 256 + b)), (IH (0 * 256 + b)). simpl length.
    rewrite Nat2Z.inj_succ, Z.pow_succ_r by lia. ring.
Qed.

Lemma be_value_cons b bs :
  be_value (b :: bs) = b * 256 ^ Z.of_nat (length bs) + be_value bs.
Proof. unfold be_value at 1. simpl. rewrite be_value_acc. lia. Qed.

Lemma be_value_app a b :
  be_value (a ++ b) = be_value a * 256 ^ Z.of_nat (length b) + be_value b.
Proof.
  unfold be_value at 1. rewrite fold_left_app. change (fold_left _ a 0) with (be_value a).
  apply be_value_acc.
Qed.

Lemma be_value_range bs : bytes_ok bs -> 0 <= be_value bs < 256 ^ Z.of_nat (length bs).
Proof.
  induction 1 as [|b bs Hb _ IH]; [unfold be_value; simpl; lia|]. rewrite be_value_cons. simpl length.
  rewrite Nat2Z.inj_succ, Z.pow_succ_r by lia. unfold in_u8 in Hb. nia.
Qed.

Lemma be_value_inj a b :
  length a = length b -> bytes_ok a -> bytes_ok b -> be_value a = be_value b -> a = b.
Proof.
  revert b; induction a as [|x a IH]; intros [|y b]; try done.
  rewrite !Forall_cons, !be_value_cons. intros [= Hl] [Hx Ha] [Hy Hb] He.
  pose proof (be_value_range a Ha). pose proof (be_value_range b Hb).
  rewrite Hl in *. set (P := 256 ^ Z.of_nat (length b)) in *.
  assert (x = y) as -> by nia. f_equal. apply IH; auto. lia.
Qed.

(** *** 32-bit words: every operation is the operation modulo 2^32 *)

Lemma u32_land x : u32 x = Z.land x (2 ^ 32 - 1).
Proof. symmetry. apply (land_u32 x). Qed.
Lemma u32_u64 x : u32 (u64 x) = u32 x.
Proof. unfold u32, u64. apply Z.mod_mod_divide. by exists (2 ^ 32). Qed.

Lemma u32_lxor x y : u32 (Z.lxor x y) = Z.lxor (u32 x) (u32 y).
Proof.
  rewrite !u32_land. apply Z.bits_inj'. intros n _.
  rewrite !Z.land_spec, !Z.lxor_spec, !Z.land_spec. by destruct (Z.testbit (2 ^ 32 - 1) n), (Z.testbit x n), (Z.testbit y n).
Qed.
Lemma u32_lor x y : u32 (Z.lor x y) = Z.lor (u32 x) (u32 y).
Proof. rewrite !u32_land. apply Z.land_lor_distr_l. Qed.
Lemma u32_land_r x y : u32 (Z.land x y) = Z.land x (u32 y).
Proof. rewrite !u32_land. by rewrite Z.land_assoc. Qed.

Lemma in_u32_iff x : in_u32 x <-> u32 x = x.
Proof. split; [apply u32_id | intros <-; apply u32_range]. Qed.
Lemma in_u32_lxor x y : in_u32 x -> in_u32 y -> in_u32 (Z.lxor x y).
Proof. rewrite !in_u32_iff, u32_lxor. congruence. Qed.
Lemma in_u32_land x y : in_u32 y -> in_u32 (Z.land x y).
Proof. rewrite !in_u32_iff, u32_land_r. congruence. Qed.
Lemma in_u32_lor x y : in_u32 x -> in_u32 y -> in_u32 (Z.lor x y).
Proof. rewrite !in_u32_iff, u32_lor. congruence. Qed.
Lemma in_u32_shiftr x n : 0 <= n -> in_u32 x -> in_u32 (Z.shiftr x n).
Proof.
  unfold in_u32. intros Hn Hx. rewrite Z.shiftr_div_pow2 by done.
  assert (0 < 2 ^ n) by lia. split; [apply Z.div_pos; lia|].
  apply Z.div_lt_upper_bound; nia.
Qed.

Lemma u32_add_l a b : u32 (u32 a + b) = u32 (a + b).
Proof. unfold u32. apply Z.add_mod_idemp_l. lia. Qed.
Lemma u32_add_r a b : u32 (a + u32 b) = u32 (a + b).
Proof. unfold u32. apply Z.add_mod_idemp_r. lia. Qed.
Lemma u32_add_u64_l a b : u32 (u64 a + b) = u32 (a + b).
Proof. by rewrite <- u32_add_l, u32_u64, u32_add_l. Qed.
Lemma u32_add_u64_r a b : u32 (a + u64 b) = u32 (a + b).
Proof. by rewrite <- u32_add_r, u32_u64, u32_add_r. Qed.
