(* ===== verification/Utils.v ===== *)
(** utils.h: hexadecimal text. *)
From S2P Require Import Prelude.

(** A lower-case hexadecimal digit, as [std::hex] prints it. *)
Definition hex_digit (v : Z) : Z := if decide (v < 10) then 48 + v else 87 + v.

(** [stream << std::setw(2) << static_cast<int>(b)] with fill '0': a byte has at
    most two digits, and a one-digit number is padded on the left. *)
Definition put_hex_byte (b : Z) : bytes :=
  if decide (b < 16) then [48; hex_digit b] else [hex_digit (b / 16); hex_digit (b mod 16)].

Definition bytes_to_hex (byte_data : bytes) : bytes :=
  fold_left (fun stream b => stream ++ put_hex_byte b) byte_data [].

Definition hexCharToByte (c : Z) : result Z :=
  if decide (48 <= c <= 57) then Ok (u8 (c - 48))
  else if decide (97 <= c <= 102) then Ok (u8 (c - 97 + 10))
  else if decide (65 <= c <= 70) then Ok (u8 (c - 65 + 10))
  else Throw invalid_argument.

Definition hexToArray32 (hex : bytes) : result bytes :=
  if decide (size_of hex <> 64) then Throw length_error
  else
    for_each (fun bs i =>
      high ← hexCharToByte (hex !!! (i * 2)%nat);
      low ← hexCharToByte (hex !!! (i * 2 + 1)%nat);
      Ok (bs ++ [u8 (Z.lor (Z.shiftl high 4) low)])) [] (seq 0 32).

(** ** Lemmas *)

Lemma fold_append {A} (f : A -> bytes) l acc :
  fold_left (fun s b => s ++ f b) l acc = acc ++ concat (f <$> l).
Proof.
  revert acc; induction l as [|x l IH]; intros acc; simpl; [by rewrite app_nil_r|].
  by rewrite IH, <- app_assoc.
Qed.

Lemma bytes_to_hex_concat bs : bytes_to_hex bs = concat (put_hex_byte <$> bs).
Proof. apply (fold_append put_hex_byte bs []). Qed.

Lemma put_hex_byte_length b : length (put_hex_byte b) = 2%nat.
Proof. unfold put_hex_byte. by case_decide. Qed.

Lemma bytes_to_hex_length bs : length (bytes_to_hex bs) = (2 * length bs)%nat.
Proof.
  rewrite bytes_to_hex_concat. induction bs as [|b bs IH]; csimpl; [done|].
  rewrite length_app, put_hex_byte_length, IH. simpl. lia.
Qed.

Lemma hexCharToByte_digit v : 0 <= v < 16 -> hexCharToByte (hex_digit v) = Ok v.
Proof.
  intros Hv. unfold hex_digit, hexCharToByte, u8.
  repeat case_decide; try lia; f_equal; rewrite Z.mod_small; lia.
Qed.

(** The byte read back from the two characters printed for it. *)
Lemma hex_byte_back b :
  in_u8 b ->
  exists h l, put_hex_byte b = [h; l] /\
    (high ← hexCharToByte h; low ← hexCharToByte l;
     Ok (u8 (Z.lor (Z.shiftl high 4) low))) = Ok b.
Proof.
  unfold in_u8. intros Hb.
  assert (put_hex_byte b = [hex_digit (b / 16); hex_digit (b mod 16)]) as ->.
  { unfold put_hex_byte. case_decide; [|done]. by rewrite Z.div_small, Z.mod_small by lia. }
  pose proof (Z.div_mod b 16 ltac:(lia)). pose proof (Z.mod_pos_bound b 16 ltac:(lia)).
  exists (hex_digit (b / 16)), (hex_digit (b mod 16)). split; [done|].
  rewrite !hexCharToByte_digit by lia. simpl. f_equal.
  rewrite Z.lor_comm, lor_shiftl_add by lia. unfold u8. rewrite Z.mod_small; lia.
Qed.

Lemma concat_hex_lookup bs i b :
  bs !! i = Some b ->
  bytes_to_hex bs !!! (i * 2)%nat = put_hex_byte b !!! 0%nat /\
  bytes_to_hex bs !!! (i * 2 + 1)%nat = put_hex_byte b !!! 1%nat.
Proof.
  rewrite bytes_to_hex_concat. revert i; induction bs as [|c bs IH]; intros i; [done|].
  assert (forall k, (concat (put_hex_byte <$> c :: bs)) !!! S (S k)
                    = concat (put_hex_byte <$> bs) !!! k) as Hshift.
  { intros k. simpl. rewrite lookup_total_app_r; rewrite put_hex_byte_length; [|lia].
    f_equal. lia. }
  destruct i as [|i]; intros H.
  - injection H as ->. simpl.
    rewrite !lookup_total_app_l by (rewrite put_hex_byte_length; lia). done.
  - simpl in H. destruct (IH i H) as [H1 H2]. rewrite Nat.mul_succ_l.
    replace (i * 2 + 2)%nat with (S (S (i * 2))) by lia.
    replace (S (S (i * 2)) + 1)%nat with (S (S (i * 2 + 1))) by lia.
    by rewrite !Hshift, H1, H2.
Qed.

Lemma hexToArray32_loop bs n acc :
  bytes_ok bs -> (length acc + n = length bs)%nat -> acc = take (length acc) bs ->
  for_each (fun out i =>
      high ← hexCharToByte (bytes_to_hex bs !!! (i * 2)%nat);
      low ← hexCharToByte (bytes_to_hex bs !!! (i * 2 + 1)%nat);
      Ok (out ++ [u8 (Z.lor (Z.shiftl high 4) low)])) acc (seq (length acc) n) = Ok bs.
Proof.
  intros Hb. revert acc. induction n as [|n IH]; intros acc Hn Ha; cbn [seq for_each].
  - rewrite Ha, take_ge by lia. done.
  - destruct (lookup_lt_is_Some_2 bs (length acc)) as [b Eb]; [lia|].
    destruct (concat_hex_lookup bs _ b Eb) as [-> ->].
    destruct (hex_byte_back b) as (h & l & -> & Hh).
    { by apply (proj1 (Forall_lookup _ _) Hb (length acc)). }
    change ([h; l] !!! 0%nat) with h. change ([h; l] !!! 1%nat) with l.
    destruct (hexCharToByte h) as [high| | |], (hexCharToByte l) as [low| | |]; try done.
    cbn [mbind result_bind] in *. injection Hh as ->.
    replace (S (length acc)) with (length (acc ++ [b])) by (rewrite length_app; simpl; lia).
    apply IH; rewrite length_app; simpl; [lia|].
    rewrite Nat.add_1_r, (take_S_r _ _ b Eb). by rewrite <- Ha.
Qed.

(** [hexToArray32] reads back what [bytes_to_hex] prints for 32 bytes, and
    rejects any string whose length is not 64; [bytes_to_hex] prints two characters
    per byte. *)
Theorem hex_roundtrip :
  (forall bs, length bs = 32%nat -> bytes_ok bs -> hexToArray32 (bytes_to_hex bs) = Ok bs) /\
  (forall hex, length hex <> 64%nat -> hexToArray32 hex = Throw length_error) /\
  (forall bs, length (bytes_to_hex bs) = (2 * length bs)%nat).
Proof.
  split_and!.
  - intros bs Hl Hb. unfold hexToArray32, size_of. rewrite bytes_to_hex_length, Hl.
    rewrite decide_False by lia. by apply (hexToArray32_loop bs 32 []).
  - intros hex Hl. unfold hexToArray32, size_of. by rewrite decide_True by lia.
  - exact bytes_to_hex_length.
Qed.
