(* ===== verification/Blocks.v ===== *)
(** Cutting a message into 64-byte blocks and padding it, as both hash functions
    of the program do. *)
From S2P Require Import Prelude.

(** The whole blocks of a message, and the bytes after the last one. *)
Definition blocks (M : bytes) : list bytes :=
  (fun i => slice M (64 * i) 64) <$> seq 0 (length M / 64).
Definition tail (M : bytes) : bytes := drop (64 * (length M / 64)) M.

Lemma blocks_short M : (length M < 64)%nat -> blocks M = [] /\ tail M = M.
Proof. intros H. unfold blocks, tail. by rewrite Nat.div_small. Qed.

Lemma div64_step n : (64 <= n)%nat -> (n / 64 = S ((n - 64) / 64))%nat.
Proof.
  intros H. replace n with (n - 64 + 1 * 64)%nat at 1 by lia.
  rewrite Nat.div_add by lia. lia.
Qed.

Lemma blocks_long M :
  (64 <= length M)%nat ->
  blocks M = take 64 M :: blocks (drop 64 M) /\ tail M = tail (drop 64 M).
Proof.
  intros H. unfold blocks, tail. rewrite length_drop, div64_step by done. split.
  - rewrite <- cons_seq. cbn [fmap list_fmap]. f_equal.
    rewrite <- fmap_S_seq, <- list_fmap_compose. apply list_fmap_ext. intros _ i _.
    cbn. unfold slice. rewrite drop_drop. do 2 f_equal. lia.
  - rewrite drop_drop. f_equal. lia.
Qed.

Lemma blocks_ind (P : bytes -> Prop) :
  (forall M, (length M < 64)%nat -> P M) ->
  (forall M, (64 <= length M)%nat -> P (drop 64 M) -> P M) -> forall M, P M.
Proof.
  intros H1 H2 M. remember (length M) as n eqn:E. revert M E.
  induction (lt_wf n) as [n _ IH]. intros M ->.
  destruct (decide (length M < 64)%nat); [auto|]. apply H2; [lia|].
  eapply IH; [|reflexivity]. rewrite length_drop. lia.
Qed.

Lemma tail_length M : (length (tail M) = length M mod 64)%nat.
Proof.
  unfold tail. rewrite length_drop. pose proof (Nat.div_mod (length M) 64 ltac:(lia)). lia.
Qed.

Lemma blocks_app M N : blocks (M ++ N) = blocks M ++ blocks (tail M ++ N)
  /\ tail (M ++ N) = tail (tail M ++ N).
Proof.
  induction M as [M H|M H [IH1 IH2]] using blocks_ind.
  - by destruct (blocks_short M H) as [-> ->].
  - destruct (blocks_long M H) as [-> ->].
    destruct (blocks_long (M ++ N)) as [-> ->]; [rewrite length_app; lia|].
    rewrite take_app_le, drop_app_le, IH1, IH2 by done. done.
Qed.

Lemma blocks_one M : length M = 64%nat -> blocks M = [M].
Proof.
  intros H. destruct (blocks_long M) as [-> _]; [lia|].
  rewrite drop_ge, take_ge by lia. done.
Qed.

Lemma blocks_lengths M : bytes_ok M -> Forall (fun b => bytes_ok b /\ length b = 64%nat) (blocks M).
Proof.
  induction M as [M H|M H IH] using blocks_ind; intros Hok.
  - destruct (blocks_short M H) as [-> _]. constructor.
  - destruct (blocks_long M H) as [-> _]. constructor; [|by apply IH, Forall_drop].
    split; [by apply Forall_take | rewrite length_take; lia].
Qed.

(** ** Fixed-width words *)

Definition be_bytes (n : nat) (v : Z) : bytes := rev (le_bytes n v).

Lemma le_bytes_mod n v : le_bytes n (v mod 2 ^ (8 * Z.of_nat n)) = le_bytes n v.
Proof.
  rewrite <- le_value_bytes. pose proof (le_bytes_value (le_bytes n v) (le_bytes_ok n v)) as H.
  by rewrite length_le_bytes in H.
Qed.

Lemma length_be_bytes n v : length (be_bytes n v) = n.
Proof. unfold be_bytes. by rewrite length_rev, length_le_bytes. Qed.
Lemma be_bytes_ok n v : bytes_ok (be_bytes n v).
Proof. apply Forall_rev, le_bytes_ok. Qed.

(** Integer cube roots by bisection: both standards define their constants by roots. *)
Fixpoint cube_root (bits : nat) (r n : Z) : Z :=
  match bits with
  | O => r
  | S k => let r' := r + 2 ^ Z.of_nat k in cube_root k (if r' ^ 3 <=? n then r' else r) n
  end.

(** The number of zero bytes after the end marker: up to byte 56 of this block, or
    of the next one when the marker and the length do not fit. *)
Lemma zeros_count M :
  Z.to_nat ((55 - size_of M) mod 64)
  = if (55 <? length (tail M))%nat then (119 - length (tail M))%nat else (55 - length (tail M))%nat.
Proof.
  rewrite tail_length. unfold size_of.
  set (r := (length M mod 64)%nat). assert (r < 64)%nat as Hr by (apply Nat.mod_upper_bound; lia).
  assert (exists q, length M = 64 * q + r)%nat as [q Hq].
  { exists (length M / 64)%nat. apply Nat.div_mod. lia. }
  rewrite Hq. destruct (Nat.ltb_spec 55 r).
  - replace (55 - Z.of_nat (64 * q + r)) with ((119 - Z.of_nat r) + (- Z.of_nat q - 1) * 64) by lia.
    rewrite Z.mod_add, Z.mod_small by lia. lia.
  - replace (55 - Z.of_nat (64 * q + r)) with ((55 - Z.of_nat r) + (- Z.of_nat q) * 64) by lia.
    rewrite Z.mod_add, Z.mod_small by lia. lia.
Qed.

Lemma take_prefix {A} n (l l' : list A) : length l = n -> take n (l ++ l') = l.
Proof. intros <-. apply take_app_length. Qed.
Lemma drop_prefix {A} n (l l' : list A) : length l = n -> drop n (l ++ l') = l'.
Proof. intros <-. apply drop_app_length. Qed.

