(* ===== verification/Iterhash.v ===== *)
(** cryptopp/iterhash.h and iterhash.cpp: the iterated hash that Crypto++ puts around a
    compression function.  The class template takes the compression function from a
    class [T_Transform] with a static [InitState] and [Transform]; here it is a record,
    and everything below is proved for every such record. *)
From S2P Require Import Prelude.
From S2P Require Import Blocks.

(** What [IteratedHashWithStaticTransform<word32, LittleEndian, 64, size, T>] takes from
    [T]: the initial state, the compression function, and the digest's size in bytes. *)
Record StaticTransform := mkStaticTransform {
  InitState : list Z;
  Transform : list Z -> list Z -> list Z;
  DIGESTSIZE : nat;
}.

Module iterhash.

(** [std::memcpy(data + num, input, length)]. *)
Definition memcpy (data : bytes) (num : nat) (input : bytes) : bytes :=
  take num data ++ input ++ drop (num + length input) data.

(** On a little-endian machine the words of a block are its bytes as they lie. *)
Definition words (blk : bytes) : list Z :=
  (fun i => le_value (slice blk (4 * i) 4)) <$> seq 0 16.

Record hash := mkHash {
  m_countLo : Z;
  m_countHi : Z;
  m_data : bytes;
  m_state : list Z;
}.

Section Hash.
Context (T : StaticTransform).

Definition HashBlock (state : list Z) (blk : bytes) : list Z := Transform T state (words blk).

(** The constructor; the data buffer holds [data], whatever was there. *)
Definition construct (data : bytes) : hash := mkHash 0 0 data (InitState T).
Definition Restart (h : hash) : hash := mkHash 0 0 (m_data h) (InitState T).

(** The block loop of [Update]: from an aligned input the blocks are hashed in
    place, otherwise each is copied to the data buffer first. *)
Fixpoint update_blocks (fuel : nat) (aligned : bool) (data : bytes) (state : list Z)
    (input : bytes) : bytes * list Z * bytes :=
  match fuel with
  | O => (data, state, input)
  | S fuel =>
      if (64 <=? length input)%nat then
        let blk := take 64 input in
        update_blocks fuel aligned (if aligned then data else memcpy data 0 blk)
          (HashBlock state blk) (drop 64 input)
      else (data, state, input)
  end.

(** [Update(input, length)], with the exception of an input too long to count. *)
Definition Update (aligned : bool) (h : hash) (input : bytes) : result hash :=
  let len := size_of input in
  if decide (len = 0) then Ok h
  else
    let oldCountLo := m_countLo h in
    let oldCountHi := m_countHi h in
    let countLo := u32 (oldCountLo + u32 len) in
    let countHi := if countLo <? oldCountLo then u32 (oldCountHi + 1) else oldCountHi in
    let countHi := u32 (countHi + u32 (Z.shiftr len 32)) in
    if decide (countHi < oldCountHi \/ Z.shiftr len 64 <> 0) then Throw runtime_error
    else
      let num := Z.to_nat (Z.land oldCountLo 63) in
      if decide (num <> 0%nat) then
        if (64 <=? num + length input)%nat then
          let data := memcpy (m_data h) num (take (64 - num) input) in
          let state := HashBlock (m_state h) data in
          let input := drop (64 - num) input in
          let '(data, state, input) := update_blocks (S (length input)) aligned data state input in
          Ok (mkHash countLo countHi (memcpy data 0 input) state)
        else Ok (mkHash countLo countHi (memcpy (m_data h) num input) (m_state h))
      else
        let '(data, state, input) :=
          update_blocks (S (length input)) aligned (m_data h) (m_state h) input in
        Ok (mkHash countLo countHi (memcpy data 0 input) state).

(** [PadLastBlock(lastBlockSize, 0x80)]. *)
Definition PadLastBlock (h : hash) (lastBlockSize : nat) : bytes * list Z :=
  let num := Z.to_nat (Z.land (m_countLo h) 63) in
  let data := <[num := 0x80]> (m_data h) in
  let num := S num in
  if (num <=? lastBlockSize)%nat then
    (memcpy data num (replicate (lastBlockSize - num) 0), m_state h)
  else
    let data := memcpy data num (replicate (64 - num) 0) in
    (memcpy data 0 (replicate lastBlockSize 0), HashBlock (m_state h) data).

Definition GetBitCountLo (h : hash) : Z := u32 (Z.shiftl (m_countLo h) 3).
Definition GetBitCountHi (h : hash) : Z :=
  u32 (Z.shiftr (m_countLo h) (32 - 3) + u32 (Z.shiftl (m_countHi h) 3)).

(** [TruncatedFinal]: the digest, and the hasher restarted. *)
Definition TruncatedFinal (h : hash) (size : nat) : result (bytes * hash) :=
  if (DIGESTSIZE T <? size)%nat then Throw invalid_argument
  else
    let '(data, state) := PadLastBlock h (64 - 2 * 4) in
    let data := memcpy data (4 * 14) (le_bytes 4 (GetBitCountLo h)) in
    let data := memcpy data (4 * 15) (le_bytes 4 (GetBitCountHi h)) in
    let state := HashBlock state data in
    Ok (take size (concat (le_bytes 4 <$> state)),
        Restart (mkHash (m_countLo h) (m_countHi h) data state)).

(** [CalculateDigest]: [Update], then [Final], which is [TruncatedFinal] of the whole
    digest. *)
Definition CalculateDigest (aligned : bool) (h : hash) (input : bytes) : result (bytes * hash) :=
  h ← Update aligned h input;
  TruncatedFinal h (DIGESTSIZE T).

End Hash.
End iterhash.

(** ** The specification: Merkle-Damgard with the padding of MD4 *)

Module merkle_damgard.

Definition block_words (blk : bytes) : list Z :=
  (fun i => le_value (slice blk (4 * i) 4)) <$> seq 0 16.
Definition pad (M : bytes) : bytes :=
  M ++ [0x80] ++ replicate (Z.to_nat ((55 - size_of M) mod 64)) 0 ++ le_bytes 8 (8 * size_of M).
Definition digest (H0 : list Z) (compress : list Z -> list Z -> list Z) (M : bytes) : bytes :=
  concat (le_bytes 4 <$> fold_left (fun h b => compress h (block_words b)) (blocks (pad M)) H0).

End merkle_damgard.

Import iterhash.

(** ** Lemmas *)

Lemma memcpy_prefix p rest input :
  memcpy (p ++ rest) (length p) input = p ++ input ++ drop (length input) rest.
Proof.
  unfold memcpy. rewrite take_app_length. do 2 f_equal.
  rewrite drop_app_ge by lia. f_equal. lia.
Qed.
Lemma memcpy_start data input : memcpy data 0 input = input ++ drop (length input) data.
Proof. apply (memcpy_prefix []). Qed.

Lemma memcpy_length data num input :
  (num + length input <= length data)%nat -> length (memcpy data num input) = length data.
Proof. intros H. unfold memcpy. rewrite !length_app, length_take, length_drop. lia. Qed.

Lemma le_bytes_app n m v : le_bytes (n + m) v = le_bytes n v ++ le_bytes m (v / 2 ^ (8 * Z.of_nat n)).
Proof.
  revert v. induction n as [|n IH]; intros v; [by rewrite Z.div_1_r|].
  cbn [Nat.add le_bytes app]. rewrite IH. do 2 f_equal.
  rewrite Z.div_div by lia. f_equal. rewrite <- Z.pow_add_r by lia. apply (f_equal (fun k => v / 2 ^ k)). lia.
Qed.

(** The two 32-bit words that end the padded message are the 64-bit count of bits. *)
Lemma bit_count n :
  0 <= n < 2 ^ 64 ->
  le_bytes 4 (u32 (Z.shiftl (u32 n) 3))
  ++ le_bytes 4 (u32 (Z.shiftr (u32 n) 29 + u32 (Z.shiftl (Z.shiftr n 32) 3)))
  = le_bytes 8 (8 * n).
Proof.
  intros Hn. rewrite (le_bytes_app 4 4). change (8 * Z.of_nat 4) with 32.
  assert (forall a b, u32 a = u32 b -> le_bytes 4 (u32 a) = le_bytes 4 b) as Hm.
  { intros a b E. rewrite E. apply (le_bytes_mod 4). }
  f_equal; apply Hm.
  - rewrite Z.shiftl_mul_pow2 by lia. unfold u32. rewrite Zmult_mod_idemp_l. f_equal. lia.
  - rewrite u32_add_r. f_equal. rewrite Z.shiftl_mul_pow2, !Z.shiftr_div_pow2 by lia. unfold u32.
    change (2 ^ 32) with (8 * 2 ^ 29) at 3. rewrite Z.div_mul_cancel_l by lia.
    pose proof (Z.div_mod n (2 ^ 32) ltac:(lia)) as E.
    set (q := n / 2 ^ 32) in *. set (r := n mod 2 ^ 32) in *.
    rewrite E. change (2 ^ 32) with (8 * 2 ^ 29).
    replace (8 * 2 ^ 29 * q + r) with (r + (8 * q) * 2 ^ 29) by lia.
    rewrite Z.div_add by lia. change (2 ^ 3) with 8. lia.
Qed.

Lemma insert_prefix (p rest : bytes) x :
  (0 < length rest)%nat -> <[length p := x]> (p ++ rest) = (p ++ [x]) ++ drop 1 rest.
Proof.
  intros H. destruct rest as [|y rest]; [simpl in H; lia|].
  replace (length p) with (length p + 0)%nat by lia. rewrite insert_app_r. by rewrite <- app_assoc.
Qed.

(** The two length words fill the block that follows the 56 padded bytes. *)
Lemma write_counts (p q : bytes) lo hi :
  length p = 56%nat -> length q = 8%nat ->
  memcpy (memcpy (p ++ q) (4 * 14) (le_bytes 4 lo)) (4 * 15) (le_bytes 4 hi)
  = p ++ le_bytes 4 lo ++ le_bytes 4 hi.
Proof.
  intros Hp Hq. change (4 * 14)%nat with 56%nat. change (4 * 15)%nat with 60%nat.
  rewrite <- Hp at 1. rewrite memcpy_prefix, app_assoc.
  assert (length (p ++ le_bytes 4 lo) = 60%nat) as H60 by (rewrite length_app, length_le_bytes; lia).
  rewrite <- H60 at 1. rewrite memcpy_prefix, length_le_bytes, drop_drop, drop_ge by (simpl; lia).
  by rewrite app_nil_r, <- app_assoc.
Qed.

Lemma concat_le_words_length ws : length (concat (le_bytes 4 <$> ws)) = (4 * length ws)%nat.
Proof.
  induction ws as [|w ws IH]; [done|]. rewrite fmap_cons. cbn [concat length].
  rewrite length_app, length_le_bytes, IH. lia.
Qed.

Lemma count_tail M : Z.to_nat (Z.land (u32 (size_of M)) 63) = length (tail M).
Proof.
  rewrite tail_length. change 63 with (Z.ones 6). rewrite Z.land_ones by lia. unfold u32, size_of.
  rewrite Z.mod_mod_divide by (by exists (2 ^ 26)). change (2 ^ 6) with (Z.of_nat 64).
  by rewrite <- Nat2Z.inj_mod, Nat2Z.id.
Qed.

(** The counter after [len] more bytes, as long as 64 bits are enough. *)
Lemma count_step n len :
  0 <= n -> 0 <= len -> n + len < 2 ^ 64 ->
  let lo := u32 (u32 n + u32 len) in
  let hi := u32 ((if lo <? u32 n then u32 (Z.shiftr n 32 + 1) else Z.shiftr n 32) + u32 (Z.shiftr len 32)) in
  lo = u32 (n + len) /\ hi = Z.shiftr (n + len) 32 /\ Z.shiftr n 32 <= hi.
Proof.
  intros Hn Hl Hs. cbv zeta. rewrite !Z.shiftr_div_pow2 by lia.
  assert (u32 (u32 n + u32 len) = u32 (n + len)) as E by (unfold u32; by rewrite <- Zplus_mod).
  rewrite E. unfold u32.
  pose proof (Z.div_mod n (2 ^ 32) ltac:(lia)) as E1. pose proof (Z.mod_pos_bound n (2 ^ 32) ltac:(lia)).
  pose proof (Z.div_mod len (2 ^ 32) ltac:(lia)) as E2. pose proof (Z.mod_pos_bound len (2 ^ 32) ltac:(lia)).
  pose proof (Z.div_mod (n + len) (2 ^ 32) ltac:(lia)) as E3.
  pose proof (Z.mod_pos_bound (n + len) (2 ^ 32) ltac:(lia)).
  set (qn := n / 2 ^ 32) in *. set (ql := len / 2 ^ 32) in *. set (q := (n + len) / 2 ^ 32) in *.
  set (rn := n mod 2 ^ 32) in *. set (rl := len mod 2 ^ 32) in *. set (r := (n + len) mod 2 ^ 32) in *.
  change (2 ^ 64) with (2 ^ 32 * 2 ^ 32) in Hs.
  split; [done|]. destruct (Z.ltb_spec r rn) as [Hc|Hc].
  - assert (q = qn + ql + 1) as Eq by lia.
    rewrite !(Z.mod_small (_ + 1)), (Z.mod_small ql), Z.mod_small by lia. lia.
  - assert (q = qn + ql) as Eq by lia. rewrite (Z.mod_small ql), Z.mod_small by lia. lia.
Qed.

Section HashFacts.
Context (T : StaticTransform).

Lemma update_blocks_eq fuel aligned data st input :
  (length input < 64 * fuel)%nat -> length data = 64%nat ->
  exists data', update_blocks T fuel aligned data st input
    = (data', fold_left (HashBlock T) (blocks input) st, tail input) /\ length data' = 64%nat.
Proof.
  revert data st input. induction fuel as [|fuel IH]; intros data st input Hf Hd; [lia|].
  cbn [update_blocks]. destruct (Nat.leb_spec 64 (length input)) as [Hl|Hl].
  - destruct (blocks_long input Hl) as [-> ->]. cbn [fold_left].
    apply IH; [rewrite length_drop; lia|]. destruct aligned; [done|].
    rewrite memcpy_length; [done|]. rewrite length_take. lia.
  - destruct (blocks_short input Hl) as [-> ->]. by exists data.
Qed.

(** The state of a hasher that has been given the message [M]. *)
Record absorbed (h : hash) (M : bytes) : Prop := {
  ab_size : size_of M < 2 ^ 64;
  ab_lo : m_countLo h = u32 (size_of M);
  ab_hi : m_countHi h = Z.shiftr (size_of M) 32;
  ab_state : m_state h = fold_left (HashBlock T) (blocks M) (InitState T);
  ab_data : exists rest, m_data h = tail M ++ rest /\ length (tail M ++ rest) = 64%nat;
}.

Lemma construct_absorbed data : length data = 64%nat -> absorbed (construct T data) [].
Proof. intros Hd. split; [done | done | done | done |]. by exists data. Qed.

Lemma tail_lt M : (length (tail M) < 64)%nat.
Proof. rewrite tail_length. apply Nat.mod_upper_bound. lia. Qed.

(** The buffer after the bytes [t] were written at its start. *)
Lemma refilled (data t : bytes) :
  length data = 64%nat -> (length t < 64)%nat ->
  exists rest, memcpy data 0 t = t ++ rest /\ length (t ++ rest) = 64%nat.
Proof.
  intros Hd Ht. exists (drop (length t) data). split; [apply memcpy_start|].
  rewrite length_app, length_drop. lia.
Qed.

(** [Update] continues the message, in pieces of any size. *)
Lemma Update_absorbs aligned h M N :
  absorbed h M -> size_of (M ++ N) < 2 ^ 64 ->
  exists h', Update T aligned h N = Ok h' /\ absorbed h' (M ++ N).
Proof.
  intros [Hs Hlo Hhi Hst (rest & Hd & HL)] Hsz. unfold Update. cbv zeta.
  destruct (decide (size_of N = 0)) as [Hz|Hz].
  { assert (N = []) as -> by (destruct N; [done | unfold size_of in Hz; simpl in Hz; lia]).
    exists h. rewrite app_nil_r. split; [done|]. split; try done. by exists rest. }
  rewrite Hlo, Hhi. rewrite size_of_app in Hsz.
  pose proof (size_of_nonneg M). pose proof (size_of_nonneg N).
  destruct (count_step (size_of M) (size_of N)) as (-> & -> & Hle); [lia..|].
  rewrite decide_False.
  2: { rewrite (Z.shiftr_div_pow2 (size_of N) 64), (Z.div_small (size_of N)) by lia. lia. }
  rewrite count_tail. pose proof (tail_lt M) as Ht. rewrite Hd, Hst.
  rewrite <- size_of_app in Hsz |- *. set (len := length (tail M)) in *.
  destruct (blocks_app M N) as [Eb Et].
  case_decide as Hnum.
  - destruct (Nat.leb_spec 64 (len + length N)) as [Hfull|Hpart].
    + assert (length (take (64 - len) N) = 64 - len)%nat as Hl1 by (rewrite length_take; lia).
      rewrite (memcpy_prefix (tail M)), Hl1. rewrite length_app in HL.
      rewrite (drop_ge rest), app_nil_r by lia.
      assert (length (tail M ++ take (64 - len) N) = 64%nat) as H64 by (rewrite length_app, Hl1; lia).
      destruct (update_blocks_eq (S (length (drop (64 - len) N))) aligned (tail M ++ take (64 - len) N)
        (HashBlock T (fold_left (HashBlock T) (blocks M) (InitState T)) (tail M ++ take (64 - len) N))
        (drop (64 - len) N)) as (data' & -> & Hd'); [lia | done |].
      destruct (blocks_long (tail M ++ N)) as [Eb' Et']; [rewrite length_app; lia|].
      assert (take 64 (tail M ++ N) = tail M ++ take (64 - len) N) as Et64.
      { by rewrite take_app_ge by lia. }
      assert (drop 64 (tail M ++ N) = drop (64 - len) N) as Ed64 by (by rewrite drop_app_ge by lia).
      rewrite Et64, Ed64 in Eb'. rewrite Ed64 in Et'.
      eexists. split; [done|]. split; cbn [m_countLo m_countHi m_data m_state]; try done.
      * by rewrite Eb, fold_left_app, Eb'.
      * rewrite Et, Et'. apply refilled; [done | apply tail_lt].
    + rewrite (memcpy_prefix (tail M)). rewrite length_app in HL.
      destruct (blocks_short (tail M ++ N)) as [Eb' Et']; [rewrite length_app; lia|].
      eexists. split; [done|]. split; cbn [m_countLo m_countHi m_data m_state]; try done.
      * by rewrite Eb, fold_left_app, Eb'.
      * rewrite Et, Et'. exists (drop (length N) rest). rewrite <- app_assoc. split; [done|].
        rewrite !length_app, length_drop. lia.
  - assert (tail M = []) as E0 by (apply length_zero_iff_nil; fold len; lia).
    destruct (update_blocks_eq (S (length N)) aligned (tail M ++ rest)
      (fold_left (HashBlock T) (blocks M) (InitState T)) N) as (data' & -> & Hd'); [lia | done |].
    rewrite E0, app_nil_l in Eb, Et.
    eexists. split; [done|]. split; cbn [m_countLo m_countHi m_data m_state]; try done.
    + by rewrite Eb, fold_left_app.
    + rewrite Et. apply refilled; [done | apply tail_lt].
Qed.

(** The block or blocks that [TruncatedFinal] adds, and the state it leaves. *)
Lemma TruncatedFinal_eq h M size :
  absorbed h M -> (size <= DIGESTSIZE T)%nat ->
  exists h', TruncatedFinal T h size
    = Ok (take size (concat (le_bytes 4 <$>
            fold_left (HashBlock T) (blocks (merkle_damgard.pad M)) (InitState T))), h')
    /\ absorbed h' [].
Proof.
  intros [HM Hlo Hhi Hst (rest & Hd & HL)] Hsize. pose proof (size_of_nonneg M) as H0.
  pose proof (tail_lt M) as Ht. unfold TruncatedFinal.
  destruct (Nat.ltb_spec (DIGESTSIZE T) size) as [?|_]; [lia|].
  unfold PadLastBlock, GetBitCountLo, GetBitCountHi. rewrite Hlo, Hhi, Hd, Hst.
  change (64 - 2 * 4)%nat with 56%nat. change (32 - 3) with 29. rewrite count_tail.
  unfold merkle_damgard.pad.
  destruct (blocks_app M ([0x80] ++ replicate (Z.to_nat ((55 - size_of M) mod 64)) 0
    ++ le_bytes 8 (8 * size_of M))) as [-> _].
  rewrite fold_left_app, zeros_count, <- (bit_count (size_of M)) by lia.
  set (lo := u32 (Z.shiftl _ 3)). set (hi := u32 (_ + u32 _)).
  set (st := fold_left (HashBlock T) (blocks M) (InitState T)). set (t := tail M) in *.
  rewrite length_app in HL. rewrite insert_prefix by lia.
  set (rest1 := drop 1 rest). assert (length rest1 = 63 - length t)%nat as Hr1
    by (unfold rest1; rewrite length_drop; lia).
  assert (S (length t) = length (t ++ [0x80%Z])) as E by (rewrite length_app; simpl; lia).
  assert (forall p data s, length p = 56%nat -> data = p ++ le_bytes 4 lo ++ le_bytes 4 hi ->
    absorbed (Restart T (mkHash (u32 (size_of M)) (Z.shiftr (size_of M) 32) data s)) []) as Hnew.
  { intros p data s Hp ->. apply (construct_absorbed (p ++ _)). by rewrite !length_app, !length_le_bytes, Hp. }
  destruct (Nat.leb_spec (S (length t)) 56) as [H|H]; destruct (Nat.ltb_spec 55 (length t)); try lia.
  - rewrite E, memcpy_prefix, length_replicate. rewrite app_assoc.
    set (z := replicate _ 0).
    assert (length ((t ++ [0x80]) ++ z) = 56%nat) as Hz.
    { unfold z. rewrite length_app, length_replicate. lia. }
    rewrite write_counts; [|done | rewrite length_drop, Hr1; lia].
    eexists. split; [|by eapply Hnew].
    assert (z = replicate (55 - length t) 0) as -> by (unfold z; f_equal; lia).
    rewrite (app_assoc t), (app_assoc (t ++ _)), blocks_one; [done|].
    rewrite (length_app (_ ++ _)), Hz, !length_app, !length_le_bytes. done.
  - rewrite E, memcpy_prefix, length_replicate.
    set (z := replicate _ 0). rewrite (drop_ge rest1), app_nil_r by lia.
    rewrite memcpy_start, length_replicate.
    assert (length ((t ++ [0x80]) ++ z) = 64%nat) as Hz.
    { unfold z. rewrite length_app, length_replicate. lia. }
    rewrite write_counts; [|by rewrite length_replicate | rewrite length_drop, Hz; done].
    eexists. split; [|by eapply Hnew; [apply length_replicate|]].
    assert (replicate (119 - length t) 0 = z ++ replicate 56 0) as ->.
    { unfold z. rewrite <- replicate_add. f_equal. lia. }
    rewrite <- (app_assoc z), (app_assoc t), (app_assoc (t ++ _)).
    destruct (blocks_long (((t ++ [0x80]) ++ z) ++ replicate 56 0 ++ le_bytes 4 lo ++ le_bytes 4 hi))
      as [-> _]; [rewrite length_app, Hz; lia|].
    rewrite take_prefix, drop_prefix by done. rewrite blocks_one; [done|].
    rewrite !length_app, length_replicate, !length_le_bytes. done.
Qed.
End HashFacts.

(** ** The contract of a compression function

    [T] computes the compression function [compress] on states of [n] words. *)
Class TransformLaws (T : StaticTransform) (n : nat) (compress : list Z -> list Z -> list Z) : Prop := {
  init_ok : length (InitState T) = n /\ Forall in_u32 (InitState T);
  compress_ok h X : length h = n -> Forall in_u32 h ->
    length (compress h X) = n /\ Forall in_u32 (compress h X);
  transform_eq h X : length h = n -> Forall in_u32 h -> Transform T h X = compress h X;
  digest_size : DIGESTSIZE T = (4 * n)%nat;
}.

Section Digest.
Context `{TransformLaws T n compress}.

Lemma fold_HashBlock bs h :
  length h = n -> Forall in_u32 h ->
  fold_left (HashBlock T) bs h
  = fold_left (fun h b => compress h (merkle_damgard.block_words b)) bs h
  /\ length (fold_left (HashBlock T) bs h) = n.
Proof.
  revert h. induction bs as [|b bs IH]; intros h Hl Hw; [done|]. cbn [fold_left].
  assert (HashBlock T h b = compress h (merkle_damgard.block_words b)) as -> by (by apply transform_eq).
  destruct (compress_ok h (merkle_damgard.block_words b) Hl Hw). by apply IH.
Qed.

Lemma digest_length M : length (merkle_damgard.digest (InitState T) compress M) = DIGESTSIZE T.
Proof.
  unfold merkle_damgard.digest. destruct init_ok as [Hl Hw].
  destruct (fold_HashBlock (blocks (merkle_damgard.pad M)) (InitState T) Hl Hw) as [<- Hn].
  by rewrite concat_le_words_length, Hn, digest_size.
Qed.
Lemma digest_bytes M : bytes_ok (merkle_damgard.digest (InitState T) compress M).
Proof. apply Forall_concat, Forall_fmap, Forall_true. intros x. apply le_bytes_ok. Qed.

(** However the message was cut into calls of [Update], [TruncatedFinal] gives a prefix
    of its digest and a hasher ready for the next message. *)
Lemma final_digest h M size :
  absorbed T h M -> (size <= DIGESTSIZE T)%nat ->
  exists h', TruncatedFinal T h size = Ok (take size (merkle_damgard.digest (InitState T) compress M), h')
    /\ absorbed T h' [].
Proof.
  intros Ha Hs. destruct (TruncatedFinal_eq T h M size Ha Hs) as (h' & -> & Ha'). exists h'.
  destruct init_ok as [Hl Hw]. unfold merkle_damgard.digest.
  by destruct (fold_HashBlock (blocks (merkle_damgard.pad M)) (InitState T) Hl Hw) as [<- _].
Qed.

(** One [CalculateDigest] on a hasher that is new or was restarted. *)
Lemma calculate_digest aligned h M :
  absorbed T h [] -> size_of M < 2 ^ 64 ->
  exists h', CalculateDigest T aligned h M
    = Ok (merkle_damgard.digest (InitState T) compress M, h') /\ absorbed T h' [].
Proof.
  intros Ha HM. unfold CalculateDigest.
  destruct (Update_absorbs T aligned h [] M Ha HM) as (h1 & -> & Ha1). cbn [mbind result_bind].
  destruct (final_digest h1 M (DIGESTSIZE T) Ha1 (le_n _)) as (h2 & -> & Ha2).
  exists h2. split; [|done]. by rewrite take_ge by (rewrite digest_length; lia).
Qed.

(** A message given in pieces. *)
Lemma chunks_absorbed aligned h M chunks :
  absorbed T h M -> size_of (M ++ concat chunks) < 2 ^ 64 ->
  exists h', for_each (Update T aligned) h chunks = Ok h' /\ absorbed T h' (M ++ concat chunks).
Proof.
  revert h M. induction chunks as [|c chunks IH]; intros h M Ha Hs.
  - exists h. cbn [concat for_each]. by rewrite app_nil_r.
  - cbn [concat for_each] in *. rewrite app_assoc in Hs |- *.
    pose proof (size_of_nonneg (concat chunks)). pose proof Hs as Hs'. rewrite size_of_app in Hs'.
    destruct (Update_absorbs T aligned h M c Ha) as (h1 & -> & Ha1); [lia|]. cbn [mbind result_bind].
    by apply IH.
Qed.

Lemma chunks_digest aligned buffer chunks size :
  length buffer = 64%nat -> size_of (concat chunks) < 2 ^ 64 ->
  exists h,
    for_each (Update T aligned) (construct T buffer) chunks = Ok h /\
    if (size <=? 4 * n)%nat then
      exists h', TruncatedFinal T h size
        = Ok (take size (merkle_damgard.digest (InitState T) compress (concat chunks)), h') /\
        absorbed T h' []
    else TruncatedFinal T h size = Throw invalid_argument.
Proof.
  intros Hb Hs. destruct (chunks_absorbed aligned (construct T buffer) [] chunks) as (h & E & Ha);
    [by apply construct_absorbed | done |].
  exists h. split; [done|]. destruct (Nat.leb_spec size (4 * n)).
  - apply final_digest; [done|]. by rewrite digest_size.
  - unfold TruncatedFinal. destruct (Nat.ltb_spec (DIGESTSIZE T) size) as [|Hle]; [done|].
    rewrite digest_size in Hle. lia.
Qed.
End Digest.
