(* ===== verification/Crypto.v ===== *)
(** The interfaces of the cryptographic primitives.

    [HashFns]/[HashLaws] is what the rest of the program uses of the two hash
    functions: SHA-256 (include/picosha2.h, modelled in Sha256.v) and RIPEMD-160
    (include/cryptopp/ripemd.cpp, modelled in Ripemd160.v); both files discharge
    the laws.  [Secp256k1] holds the calls into libsecp256k1, of which the
    repository only has the headers; [Secp256k1Laws] states what those headers
    document. *)
From S2P Require Import Prelude.

(** ** Hash functions *)

Class HashFns := {
  sha256 : bytes -> bytes;
  ripemd160 : bytes -> bytes;
}.

Class HashLaws `{HashFns} : Prop := {
  sha256_length : forall m, length (sha256 m) = 32%nat;
  sha256_ok : forall m, bytes_ok (sha256 m);
  ripemd160_length : forall m, length (ripemd160 m) = 20%nat;
  ripemd160_ok : forall m, bytes_ok (ripemd160 m);
}.

(** [crypto::hash_double_sha256]: SHA-256 of the SHA-256. *)
Definition hash_double_sha256 `{HashFns} (input : bytes) : bytes :=
  let first := sha256 input in
  sha256 first.

Lemma hash_double_sha256_length `{HashLaws} m : length (hash_double_sha256 m) = 32%nat.
Proof. apply sha256_length. Qed.
Lemma hash_double_sha256_ok `{HashLaws} m : bytes_ok (hash_double_sha256 m).
Proof. apply sha256_ok. Qed.

#[export] Hint Resolve sha256_length sha256_ok ripemd160_length ripemd160_ok
  hash_double_sha256_length hash_double_sha256_ok : siliqua.

(** ** libsecp256k1

    The calls the program makes; the library's opaque types are parameters.  A
    call that returns 0 is [None] or [false]. *)

Class Secp256k1 := {
  secp256k1_pubkey : Type;
  secp256k1_ecdsa_signature : Type;
  secp256k1_ec_seckey_verify : bytes -> bool;
  secp256k1_ec_pubkey_create : bytes -> option secp256k1_pubkey;
  secp256k1_ec_pubkey_serialize : secp256k1_pubkey -> bytes;  (* SECP256K1_EC_COMPRESSED *)
  secp256k1_ec_pubkey_parse : bytes -> option secp256k1_pubkey;
  secp256k1_ecdsa_sign : bytes -> bytes -> option secp256k1_ecdsa_signature;
  secp256k1_ecdsa_signature_serialize_compact : secp256k1_ecdsa_signature -> bytes;
  secp256k1_ecdsa_signature_parse_compact : bytes -> option secp256k1_ecdsa_signature;
  secp256k1_ecdsa_verify : secp256k1_ecdsa_signature -> bytes -> secp256k1_pubkey -> bool;
}.

(** What include/secp256k1.h documents of them. *)
Class Secp256k1Laws `{Secp256k1} : Prop := {
  (* "1: secret was valid, public key stores. 0: secret was invalid" *)
  pubkey_create_valid : forall k,
    secp256k1_ec_seckey_verify k = true <-> is_Some (secp256k1_ec_pubkey_create k);
  (* a compressed key has 33 bytes, and parsing it gives the key back *)
  pubkey_serialize_length : forall k p, secp256k1_ec_pubkey_create k = Some p ->
    length (secp256k1_ec_pubkey_serialize p) = 33%nat;
  pubkey_serialize_ok : forall k p, secp256k1_ec_pubkey_create k = Some p ->
    bytes_ok (secp256k1_ec_pubkey_serialize p);
  pubkey_parse_serialize : forall k p, secp256k1_ec_pubkey_create k = Some p ->
    secp256k1_ec_pubkey_parse (secp256k1_ec_pubkey_serialize p) = Some p;
  (* signing a 32-byte hash with a valid key and the default nonce function succeeds *)
  ecdsa_sign_valid : forall k m, length m = 32%nat -> bytes_ok m ->
    secp256k1_ec_seckey_verify k = true -> is_Some (secp256k1_ecdsa_sign m k);
  (* the compact form has 64 bytes, and parsing it gives the signature back *)
  signature_serialize_length : forall k m s, secp256k1_ecdsa_sign m k = Some s ->
    length (secp256k1_ecdsa_signature_serialize_compact s) = 64%nat;
  signature_serialize_ok : forall k m s, secp256k1_ecdsa_sign m k = Some s ->
    bytes_ok (secp256k1_ecdsa_signature_serialize_compact s);
  signature_parse_serialize : forall k m s, secp256k1_ecdsa_sign m k = Some s ->
    secp256k1_ecdsa_signature_parse_compact (secp256k1_ecdsa_signature_serialize_compact s) = Some s;
  (* a created signature is in lower-S form, which verification accepts *)
  ecdsa_verify_sign : forall k p m s, secp256k1_ec_pubkey_create k = Some p ->
    secp256k1_ecdsa_sign m k = Some s -> secp256k1_ecdsa_verify s m p = true;
}.

(** A toy instance that shows the laws can hold: the public key is the secret key
    and a signature is the message followed by the key. *)
Definition toy_valid (k : bytes) : bool := bool_decide (length k = 32%nat /\ bytes_ok k).
Definition toy_secp : Secp256k1 := {|
  secp256k1_pubkey := bytes;
  secp256k1_ecdsa_signature := bytes;
  secp256k1_ec_seckey_verify := toy_valid;
  secp256k1_ec_pubkey_create := fun k => if toy_valid k then Some k else None;
  secp256k1_ec_pubkey_serialize := fun p => 2 :: p;
  secp256k1_ec_pubkey_parse := fun b => match b with 2 :: p => Some p | _ => None end;
  secp256k1_ecdsa_sign := fun m k => if toy_valid k && toy_valid m then Some (m ++ k) else None;
  secp256k1_ecdsa_signature_serialize_compact := fun s => s;
  secp256k1_ecdsa_signature_parse_compact := fun s => Some s;
  secp256k1_ecdsa_verify := fun s m p => bool_decide (s = m ++ p);
|}.

Lemma toy_secp_laws : @Secp256k1Laws toy_secp.
Proof.
  assert (forall k p, (if toy_valid k then Some k else None) = Some p ->
            p = k /\ length k = 32%nat /\ bytes_ok k) as Hk.
  { intros k p. destruct (toy_valid k) eqn:E; [|done]. intros [= <-].
    by apply bool_decide_eq_true in E as [? ?]. }
  assert (forall k m s, (if toy_valid k && toy_valid m then Some (m ++ k) else None) = Some s ->
            s = m ++ k /\ length s = 64%nat /\ bytes_ok s) as Hs.
  { intros k m s. destruct (toy_valid k) eqn:E1, (toy_valid m) eqn:E2; try done. intros [= <-].
    apply bool_decide_eq_true in E1 as [L1 O1], E2 as [L2 O2].
    split_and!; [done | rewrite length_app; lia | by apply Forall_app]. }
  split; cbn.
  - intros k. destruct (toy_valid k); split; [eauto | done | done | by intros []].
  - intros k p E. apply Hk in E as (-> & L & _). by rewrite L.
  - intros k p E. apply Hk in E as (-> & _ & O). by constructor.
  - intros k p E. done.
  - intros k m L O ->. unfold toy_valid at 1. rewrite bool_decide_true by done. cbn. eauto.
  - intros k m s E. by apply Hs in E as (_ & L & _).
  - intros k m s E. by apply Hs in E as (_ & _ & O).
  - intros k m s E. done.
  - intros k p m s Ep Es. apply Hk in Ep as (-> & _). apply Hs in Es as (-> & _).
    by apply bool_decide_eq_true.
Qed.

(** A toy instance of the hash functions, for witnesses that evaluate whole chains: eight
    (five) words of a 32-bit multiplicative generator seeded by a multiplicative hash. *)
Definition toy_mix (acc b : Z) : Z := u32 (Z.lxor acc b * 0x9E3779B1 + 0x7F4A7C15).
Definition toy_seed (m : bytes) : Z := fold_left toy_mix m 0x1000193.
Fixpoint toy_words (n : nat) (acc : Z) : bytes :=
  match n with O => [] | S n => let acc := toy_mix acc 0x55 in rev (le_bytes 4 acc) ++ toy_words n acc end.
Definition toy_hashes : HashFns :=
  {| sha256 := fun m => toy_words 8 (toy_seed m); ripemd160 := fun m => toy_words 5 (toy_seed m) |}.

Lemma toy_words_ok n acc : length (toy_words n acc) = (4 * n)%nat /\ bytes_ok (toy_words n acc).
Proof.
  revert acc. induction n as [|n IH]; intros acc; cbn [toy_words]; [by split|].
  destruct (IH (toy_mix acc 0x55)) as [Hl Hok]. split.
  - rewrite length_app, length_rev, length_le_bytes, Hl. lia.
  - apply Forall_app. split; [apply Forall_rev, le_bytes_ok | done].
Qed.
Lemma toy_hash_laws : @HashLaws toy_hashes.
Proof.
  split; intros m; (exact (proj1 (toy_words_ok 8 _)) || exact (proj2 (toy_words_ok 8 _))
    || exact (proj1 (toy_words_ok 5 _)) || exact (proj2 (toy_words_ok 5 _))).
Qed.
