(* ===== verification/Ecdsa.v ===== *)
(** crypto/ecdsa.cpp, crypto/secp256k1context.h and wallet/signing.h: keys,
    addresses and signatures over the interfaces of Crypto.v. *)
From S2P Require Import Prelude.
From S2P Require Import Utils.
From S2P Require Import Crypto.

(** [fill_random] of utils.h, from the value [getrandom] returns. *)
Definition fill_random (res size : Z) : bool :=
  if decide (res < 0 \/ u64 res <> size) then false else true.

Section Ecdsa.
Context `{HashFns, Secp256k1}.

(** The constructor of [Secp256k1Context]: [created] and [randomize] are what the
    library returns, [rnd] the result and the bytes of [getrandom]. *)
Definition Secp256k1Context_make (created : bool) (rnd : Z * bytes) (randomize : bytes -> bool)
    : result unit :=
  if negb created then Throw runtime_error
  else if negb (fill_random (fst rnd) 32) then Throw runtime_error
  else if negb (randomize (snd rnd)) then Throw runtime_error
  else Ok tt.

Record keys := mkKeys {
  keypair : list bytes;
  seckey : bytes;
  pubkey : secp256k1_pubkey;
  compressed_pubkey : bytes;
}.

(** [generate_keypair]: the filled out-parameters, or [None] for [EXIT_FAILURE]. *)
Definition generate_keypair (rnd : Z * bytes) : option keys :=
  let seckey := snd rnd in
  if negb (fill_random (fst rnd) 32) then None
  else if negb (secp256k1_ec_seckey_verify seckey) then None
  else
    match secp256k1_ec_pubkey_create seckey with
    | None => None
    | Some pubkey =>
        let compressed := secp256k1_ec_pubkey_serialize pubkey in
        if decide (size_of compressed <> 33) then None
        else Some (mkKeys [str "0x" ++ bytes_to_hex seckey; str "0x" ++ bytes_to_hex compressed]
                          seckey pubkey compressed)
    end.

(** [create_address_from_pubkey]: the address and its hexadecimal text. *)
Definition create_address_from_pubkey (compressed_pubkey : bytes) : option (bytes * bytes) :=
  let hash := sha256 compressed_pubkey in
  let ripemd160_hash := ripemd160 hash in
  if decide (size_of (bytes_to_hex ripemd160_hash) / 2 <> 20) then None
  else Some (ripemd160_hash, str "0x" ++ bytes_to_hex ripemd160_hash).

(** [generate_sign]: the compact signature, its text and the signed hash. *)
Definition generate_sign (input seckey : bytes) : option (bytes * bytes * bytes) :=
  let input_hash := sha256 input in
  match secp256k1_ecdsa_sign input_hash seckey with
  | None => None
  | Some sig =>
      let serialized := secp256k1_ecdsa_signature_serialize_compact sig in
      Some (serialized, str "0x" ++ bytes_to_hex serialized, input_hash)
  end.

(** [verify_sign]: [true] for [EXIT_SUCCESS]. *)
Definition verify_sign (serialized_signature compressed_pubkey input_hash : bytes) : bool :=
  match secp256k1_ecdsa_signature_parse_compact serialized_signature with
  | None => false
  | Some sig =>
      match secp256k1_ec_pubkey_parse compressed_pubkey with
      | None => false
      | Some pubkey => secp256k1_ecdsa_verify sig input_hash pubkey
      end
  end.

(** ** wallet/signing.h *)

Definition SIGNATURE_SIZE : nat := 64.
Definition PUBKEY_SIZE : nat := 33.

Definition sighash_to_message_hash (sighash : bytes) : bytes :=
  let sighash_hex := bytes_to_hex sighash in
  sha256 sighash_hex.

Definition sign_raw (seckey sighash : bytes) : result bytes :=
  let message_hex := bytes_to_hex sighash in
  match generate_sign message_hex seckey with
  | None => Throw runtime_error
  | Some (serialized_sig, _, _) => Ok serialized_sig
  end.

Definition verify_raw_signature (sig_bytes pubkey_bytes sighash : bytes) : bool :=
  if decide (length sig_bytes <> SIGNATURE_SIZE \/ length pubkey_bytes <> PUBKEY_SIZE) then false
  else
    let message_hash := sighash_to_message_hash sighash in
    verify_sign sig_bytes pubkey_bytes message_hash.

End Ecdsa.

(** ** Lemmas *)

Section EcdsaFacts.
Context `{HashLaws, Secp256k1Laws}.

Lemma fill_random_32 : fill_random 32 32 = true.
Proof. done. Qed.

Lemma create_address_Some pk :
  create_address_from_pubkey pk
  = Some (ripemd160 (sha256 pk), str "0x" ++ bytes_to_hex (ripemd160 (sha256 pk))).
Proof.
  unfold create_address_from_pubkey. rewrite decide_False; [done|].
  unfold size_of. rewrite bytes_to_hex_length, ripemd160_length. intros Hn. by apply Hn.
Qed.

(** Signing with a valid key succeeds, and the signature is the one that
    [verify_raw_signature] accepts for the key's serialization. *)
Lemma sign_raw_valid k p sighash :
  secp256k1_ec_pubkey_create k = Some p ->
  exists s, sign_raw k sighash = Ok s /\ length s = SIGNATURE_SIZE /\ bytes_ok s /\
    verify_raw_signature s (secp256k1_ec_pubkey_serialize p) sighash = true.
Proof.
  intros Hp. assert (secp256k1_ec_seckey_verify k = true) as Hv by (apply pubkey_create_valid; eauto).
  destruct (ecdsa_sign_valid k (sha256 (bytes_to_hex sighash))) as [s Hs];
    [apply sha256_length | apply sha256_ok | done |].
  exists (secp256k1_ecdsa_signature_serialize_compact s).
  unfold sign_raw, generate_sign. rewrite Hs.
  pose proof (signature_serialize_length _ _ _ Hs) as Hl.
  split_and!; [done | done | by eapply signature_serialize_ok |].
  unfold verify_raw_signature. rewrite Hl, (pubkey_serialize_length k p Hp).
  rewrite decide_False by (unfold SIGNATURE_SIZE, PUBKEY_SIZE; lia).
  unfold verify_sign, sighash_to_message_hash.
  rewrite (signature_parse_serialize _ _ _ Hs), (pubkey_parse_serialize _ _ Hp).
  by apply (ecdsa_verify_sign k).
Qed.

End EcdsaFacts.
