(* ===== verification/Sha256.v ===== *)
(** SHA-256 as picosha2.h computes it. *)
From S2P Require Import Prelude.
From S2P Require Import Utils.
From S2P Require Import Blocks.
From S2P Require Import Crypto.

Module picosha2.

(** [word_t] is [unsigned long]: 64 bits on the LP64 targets of the build. *)
Definition mask_8bit (x : Z) : Z := Z.land x 0xff.
Definition mask_32bit (x : Z) : Z := Z.land x 0xffffffff.
Definition w64_not (x : Z) : Z := u64 (Z.lnot x).
Definition w64_shl (x n : Z) : Z := u64 (Z.shiftl x n).

Definition add_constant : list Z := Eval cbv in concat
  [
   [0x428a2f98; 0x71374491; 0xb5c0fbcf; 0xe9b5dba5; 0x3956c25b; 0x59f111f1; 0x923f82a4; 0xab1c5ed5];
   [0xd807aa98; 0x12835b01; 0x243185be; 0x550c7dc3; 0x72be5d74; 0x80deb1fe; 0x9bdc06a7; 0xc19bf174];
   [0xe49b69c1; 0xefbe4786; 0x0fc19dc6; 0x240ca1cc; 0x2de92c6f; 0x4a7484aa; 0x5cb0a9dc; 0x76f988da];
   [0x983e5152; 0xa831c66d; 0xb00327c8; 0xbf597fc7; 0xc6e00bf3; 0xd5a79147; 0x06ca6351; 0x14292967];
   [0x27b70a85; 0x2e1b2138; 0x4d2c6dfc; 0x53380d13; 0x650a7354; 0x766a0abb; 0x81c2c92e; 0x92722c85];
   [0xa2bfe8a1; 0xa81a664b; 0xc24b8b70; 0xc76c51a3; 0xd192e819; 0xd6990624; 0xf40e3585; 0x106aa070];
   [0x19a4c116; 0x1e376c08; 0x2748774c; 0x34b0bcb5; 0x391c0cb3; 0x4ed8aa4a; 0x5b9cca4f; 0x682e6ff3];
   [0x748f82ee; 0x78a5636f; 0x84c87814; 0x8cc70208; 0x90befffa; 0xa4506ceb; 0xbef9a3f7; 0xc67178f2]
  ].

Definition initial_message_digest : list Z :=
  [0x6a09e667; 0xbb67ae85; 0x3c6ef372; 0xa54ff53a;
   0x510e527f; 0x9b05688c; 0x1f83d9ab; 0x5be0cd19].

Definition ch (x y z : Z) : Z := Z.lxor (Z.land x y) (Z.land (w64_not x) z).
Definition maj (x y z : Z) : Z :=
  Z.lxor (Z.lxor (Z.land x y) (Z.land x z)) (Z.land y z).
Definition rotr (x n : Z) : Z :=
  mask_32bit (Z.lor (Z.shiftr x n) (w64_shl x (32 - n))).
Definition bsig0 (x : Z) : Z := Z.lxor (Z.lxor (rotr x 2) (rotr x 13)) (rotr x 22).
Definition bsig1 (x : Z) : Z := Z.lxor (Z.lxor (rotr x 6) (rotr x 11)) (rotr x 25).
Definition shr (x n : Z) : Z := Z.shiftr x n.
Definition ssig0 (x : Z) : Z := Z.lxor (Z.lxor (rotr x 7) (rotr x 18)) (shr x 3).
Definition ssig1 (x : Z) : Z := Z.lxor (Z.lxor (rotr x 17) (rotr x 19)) (shr x 10).

(** [hash256_block]: the message schedule and the 64 rounds. *)
Definition load_word (blk : bytes) (i : nat) : Z :=
  Z.lor (Z.lor (Z.lor (Z.shiftl (mask_8bit (blk !!! (i * 4)%nat)) 24)
                      (Z.shiftl (mask_8bit (blk !!! (i * 4 + 1)%nat)) 16))
               (Z.shiftl (mask_8bit (blk !!! (i * 4 + 2)%nat)) 8))
        (mask_8bit (blk !!! (i * 4 + 3)%nat)).

Definition extend_word (w : list Z) (i : nat) : Z :=
  mask_32bit (u64 (ssig1 (w !!! (i - 2)%nat) + w !!! (i - 7)%nat
                   + ssig0 (w !!! (i - 15)%nat) + w !!! (i - 16)%nat)).

Definition schedule (blk : bytes) : list Z :=
  let w := replicate 64 0 in
  let w := for_range 16 (fun i w => <[i := load_word blk i]> w) w in
  for_range 48 (fun k w => <[(16 + k)%nat := extend_word w (16 + k)]> w) w.

Record regs := Regs { ra : Z; rb : Z; rc : Z; rd : Z; re : Z; rf : Z; rg : Z; rh : Z }.

Definition round (w : list Z) (s : regs) (i : nat) : regs :=
  let temp1 := u64 (rh s + bsig1 (re s) + ch (re s) (rf s) (rg s)
                    + add_constant !!! i + w !!! i) in
  let temp2 := u64 (bsig0 (ra s) + maj (ra s) (rb s) (rc s)) in
  Regs (mask_32bit (u64 (temp1 + temp2))) (ra s) (rb s) (rc s)
       (mask_32bit (u64 (rd s + temp1))) (re s) (rf s) (rg s).

Definition regs_of (md : list Z) : regs :=
  Regs (md !!! 0%nat) (md !!! 1%nat) (md !!! 2%nat) (md !!! 3%nat)
       (md !!! 4%nat) (md !!! 5%nat) (md !!! 6%nat) (md !!! 7%nat).
Definition regs_list (s : regs) : list Z :=
  [ra s; rb s; rc s; rd s; re s; rf s; rg s; rh s].

Definition hash256_block (md : list Z) (blk : bytes) : list Z :=
  let w := schedule blk in
  let s := fold_left (round w) (seq 0 64) (regs_of md) in
  zip_with (fun m x => mask_32bit (u64 (m + x))) md (regs_list s).

(** ** The streaming hasher *)

(** [hash256_one_by_one]. *)
Record hasher := Hasher {
  buffer_ : bytes;
  data_length_digits_ : list Z;  (* 64-bit length in four 16-bit digits, low first *)
  h_ : list Z;
}.

Definition init : hasher := Hasher [] (replicate 4 0) initial_message_digest.

(** The carry loop of [add_to_data_length], from the digit it has reached. *)
Fixpoint propagate (carry : Z) (digits : list Z) : list Z :=
  match digits with
  | [] => []
  | d :: rest =>
      let d := u64 (d + carry) in
      if 65536 <=? d then Z.land d 65535 :: propagate (Z.shiftr d 16) rest else d :: rest
  end.
Definition add_to_data_length (n : Z) (digits : list Z) : list Z :=
  propagate 0 (<[0%nat := u64 (digits !!! 0%nat + n)]> digits).

(** The loop of [process]: the whole blocks from offset [i] on. *)
Fixpoint process_blocks (fuel : nat) (buffer : bytes) (h : list Z) (i : nat) : list Z * nat :=
  match fuel with
  | O => (h, i)
  | S fuel =>
      if (i + 64 <=? length buffer)%nat
      then process_blocks fuel buffer (hash256_block h (slice buffer i 64)) (i + 64)
      else (h, i)
  end.

Definition process (s : hasher) (data : bytes) : hasher :=
  let digits := add_to_data_length (u64 (size_of data)) (data_length_digits_ s) in
  let buffer := buffer_ s ++ data in
  let '(h, i) := process_blocks (S (length buffer)) buffer (h_ s) 0 in
  Hasher (drop i buffer) digits h.

(** The multiplication by eight of [write_data_bit_length], digit by digit. *)
Fixpoint shift_digits (carry : Z) (digits : list Z) : list Z :=
  match digits with
  | [] => []
  | d :: rest =>
      Z.land (Z.lor (w64_shl d 3) carry) 65535
      :: shift_digits (Z.land (Z.shiftr d (16 - 3)) 65535) rest
  end.
Definition write_data_bit_length (digits : list Z) : bytes :=
  let bits := shift_digits 0 digits in
  concat ((fun i => [u8 (Z.shiftr (bits !!! i) 8); u8 (bits !!! i)]) <$> [3; 2; 1; 0]%nat).

(** [finish]: the caller's buffer has fewer than 64 bytes, so [remains] is the length. *)
Definition finish (s : hasher) : hasher :=
  let remains := if (64 <=? length (buffer_ s))%nat then 63%nat else length (buffer_ s) in
  let temp := take 64 (buffer_ s ++ replicate 64 0) in
  let temp := <[remains := 0x80]> temp in
  let '(h, temp) :=
    if (55 <? remains)%nat then
      let temp := take (remains + 1) temp ++ replicate (64 - (remains + 1)) 0 in
      let h := hash256_block (h_ s) temp in
      (h, replicate 60 0 ++ drop 60 temp)
    else (h_ s, take (remains + 1) temp ++ replicate (60 - (remains + 1)) 0 ++ drop 60 temp) in
  let temp := take 56 temp ++ write_data_bit_length (data_length_digits_ s) in
  Hasher (buffer_ s) (data_length_digits_ s) (hash256_block h temp).

(** [get_hash_bytes] into a destination of [n] bytes. *)
Definition get_hash_bytes (s : hasher) (n : nat) : bytes :=
  take n (concat ((fun x => (fun i => mask_8bit (u8 (Z.shiftr x (24 - 8 * i)))) <$> [0; 1; 2; 3])
                  <$> h_ s)).

(** [hash256] over a whole container (the random-access [hash256_impl]). *)
Definition hash256 (src : bytes) (n : nat) : bytes :=
  get_hash_bytes (finish (process init src)) n.

(** The input-iterator [hash256_impl] feeds the hasher [buffer_size] bytes at a time. *)
Fixpoint process_chunks (fuel : nat) (buffer_size : nat) (s : hasher) (src : bytes) : hasher :=
  match fuel, src with
  | S fuel, _ :: _ =>
      process_chunks fuel buffer_size (process s (take buffer_size src)) (drop buffer_size src)
  | _, _ => s
  end.
Definition hash256_input (buffer_size : nat) (src : bytes) (n : nat) : bytes :=
  get_hash_bytes (finish (process_chunks (length src) buffer_size init src)) n.

(** [output_hex]/[bytes_to_hex_string]: two lower-case digits per byte. *)
Definition bytes_to_hex_string (bs : bytes) : bytes := bytes_to_hex bs.
Definition hash256_hex_string (src : bytes) : bytes := bytes_to_hex_string (hash256 src 32).

End picosha2.

(** ** The standard

    FIPS 180-4, sections 4.1.2, 4.2.2, 5 and 6.2, written on 32-bit words and
    independently of the code: the constants are computed from the square and
    cube roots of the primes, padding is a function of the whole message, and the
    working variables are rotated as a list. *)
Module fips180.

Definition ROTR (n x : Z) : Z := Z.lor (Z.shiftr x n) (u32 (Z.shiftl x (32 - n))).
Definition Ch (x y z : Z) : Z := Z.lxor (Z.land x y) (Z.land (2 ^ 32 - 1 - x) z).
Definition Maj (x y z : Z) : Z := Z.lxor (Z.lxor (Z.land x y) (Z.land x z)) (Z.land y z).
Definition Sigma0 (x : Z) : Z := Z.lxor (Z.lxor (ROTR 2 x) (ROTR 13 x)) (ROTR 22 x).
Definition Sigma1 (x : Z) : Z := Z.lxor (Z.lxor (ROTR 6 x) (ROTR 11 x)) (ROTR 25 x).
Definition sigma0 (x : Z) : Z := Z.lxor (Z.lxor (ROTR 7 x) (ROTR 18 x)) (Z.shiftr x 3).
Definition sigma1 (x : Z) : Z := Z.lxor (Z.lxor (ROTR 17 x) (ROTR 19 x)) (Z.shiftr x 10).

(** The first primes. *)
Definition is_prime (n : nat) : bool :=
  (2 <=? n)%nat && forallb (fun d => negb (Nat.eqb (n mod d) 0)) (seq 2 (n - 2)).
Definition primes (bound : nat) : list Z := Z.of_nat <$> filter is_prime (seq 0 bound).

(** The first 32 bits of the fractional parts of the roots. *)
Definition K_of (p : Z) : Z := u32 (cube_root 40 0 (p * 2 ^ 96)).
Definition H_of (p : Z) : Z := u32 (Z.sqrt (p * 2 ^ 64)).
Definition K : list Z := Eval vm_compute in K_of <$> primes 312.
Definition H0 : list Z := Eval vm_compute in H_of <$> primes 20.

(** The message schedule: 16 words of the block, then 48 computed ones. *)
Definition next_W (W : list Z) : Z :=
  let t := length W in
  u32 (sigma1 (W !!! (t - 2)%nat) + W !!! (t - 7)%nat
       + sigma0 (W !!! (t - 15)%nat) + W !!! (t - 16)%nat).
Definition W_upto (k : nat) (block : bytes) : list Z :=
  Nat.iter k (fun W => W ++ [next_W W]) ((fun t => be_value (slice block (4 * t) 4)) <$> seq 0 16).
Definition W (block : bytes) : list Z := W_upto 48 block.

(** One round on the list of the working variables a, ..., h. *)
Definition step (v : list Z) (kw : Z) : list Z :=
  match v with
  | [a; b; c; d; e; f; g; h] =>
      let T1 := h + Sigma1 e + Ch e f g + kw in
      let T2 := Sigma0 a + Maj a b c in
      [u32 (T1 + T2); a; b; c; u32 (d + T1); e; f; g]
  | _ => v
  end.
Definition compress (H : list Z) (block : bytes) : list Z :=
  zip_with (fun x y => u32 (x + y)) H
    (fold_left step (zip_with Z.add K (W block)) H).

(** Padding, parsing, and the whole function. *)
Definition pad (M : bytes) : bytes :=
  M ++ [0x80] ++ replicate (Z.to_nat ((55 - size_of M) mod 64)) 0 ++ be_bytes 8 (8 * size_of M).
Definition SHA256 (M : bytes) : bytes :=
  concat (be_bytes 4 <$> fold_left compress (blocks (pad M)) H0).

End fips180.

Import picosha2 fips180.

(** ** Words *)

Lemma mask_32bit_u32 x : mask_32bit x = u32 x.
Proof. apply land_u32. Qed.
Lemma mask_8bit_u8 x : mask_8bit x = u8 x.
Proof. apply land_255. Qed.
Lemma rotr_ROTR x n : 0 <= n -> in_u32 x -> rotr x n = ROTR n x.
Proof.
  intros Hn Hx. unfold rotr, ROTR, w64_shl. rewrite mask_32bit_u32, u32_lor, u32_u64.
  by rewrite u32_id by (by apply in_u32_shiftr).
Qed.
Lemma ROTR_range x n : 0 <= n -> in_u32 x -> in_u32 (ROTR n x).
Proof. intros. apply in_u32_lor; [by apply in_u32_shiftr | apply u32_range]. Qed.

Lemma ch_Ch x y z : in_u32 x -> in_u32 z -> ch x y z = Ch x y z.
Proof.
  intros Hx Hz. unfold ch, Ch, w64_not. f_equal.
  rewrite <- (u32_id z Hz) at 1. rewrite (u32_land z), (Z.land_comm z), Z.land_assoc, <- u32_land.
  rewrite u32_u64. f_equal. unfold u32, in_u32 in *.
  replace (Z.lnot x) with ((2 ^ 32 - 1 - x) + (-1) * 2 ^ 32) by (unfold Z.lnot; lia).
  rewrite Z.mod_add, Z.mod_small; lia.
Qed.
Lemma maj_Maj x y z : maj x y z = Maj x y z.
Proof. done. Qed.

Lemma sigmas x : in_u32 x ->
  bsig0 x = Sigma0 x /\ bsig1 x = Sigma1 x /\ ssig0 x = sigma0 x /\ ssig1 x = sigma1 x.
Proof.
  intros Hx. unfold bsig0, bsig1, ssig0, ssig1, shr, Sigma0, Sigma1, sigma0, sigma1.
  by rewrite !rotr_ROTR by done.
Qed.

(** The constants are the roots of the primes. *)
Lemma constants : K = add_constant /\ H0 = initial_message_digest.
Proof. done. Qed.

(** ** One block *)

Lemma load_word_be blk i :
  (i < 16)%nat -> bytes_ok blk -> length blk = 64%nat ->
  load_word blk i = be_value (slice blk (4 * i) 4).
Proof.
  intros Hi Hok Hl. unfold slice.
  assert (exists b0 b1 b2 b3, take 4 (drop (4 * i) blk) = [b0; b1; b2; b3]) as (b0 & b1 & b2 & b3 & E).
  { pose proof (length_slice blk (4 * i) 4 ltac:(lia)) as H4. unfold slice in H4.
    destruct (take 4 _) as [|? [|? [|? [|? [|]]]]]; try discriminate. eauto. }
  assert (Forall in_u8 [b0; b1; b2; b3]) as Hb by (rewrite <- E; by apply Forall_take, Forall_drop).
  assert (forall k, (k < 4)%nat -> blk !!! (i * 4 + k)%nat = [b0; b1; b2; b3] !!! k) as Hk.
  { intros k Hk. rewrite <- E. rewrite !list_lookup_total_alt.
    rewrite lookup_take_lt, lookup_drop by lia. by rewrite (Nat.mul_comm 4). }
  unfold load_word. rewrite E. rewrite <- (Nat.add_0_r (i * 4)) at 1.
  rewrite !Hk by lia. simpl. rewrite !mask_8bit_u8.
  rewrite !Forall_cons in Hb. destruct Hb as (H0' & H1' & H2' & H3' & _).
  rewrite !u8_id by done. unfold be_value, in_u8 in *. simpl.
  rewrite <- !Z.lor_assoc.
  rewrite (Z.lor_comm (Z.shiftl b0 24)), (Z.lor_comm (Z.shiftl b1 16)), (Z.lor_comm (Z.shiftl b2 8)).
  rewrite (lor_shiftl_add b3 b2 8) by lia.
  rewrite (lor_shiftl_add _ b1 16) by lia.
  rewrite (lor_shiftl_add _ b0 24) by lia. lia.
Qed.

Definition words_ok (w : list Z) : Prop := Forall in_u32 w.
Lemma words_ok_lookup w i : words_ok w -> in_u32 (w !!! i).
Proof.
  intros Hw. rewrite list_lookup_total_alt. destruct (w !! i) eqn:E; [|done].
  by eapply (Forall_lookup_1 _ _ _ _ Hw).
Qed.

Lemma be_value_word blk off : bytes_ok blk -> in_u32 (be_value (slice blk off 4)).
Proof.
  intros Hb. pose proof (be_value_range (slice blk off 4) (slice_Forall _ _ _ _ Hb)) as Hr.
  assert (length (slice blk off 4) <= 4)%nat as Hl by (unfold slice; rewrite length_take; lia).
  unfold in_u32. split; [lia|]. eapply Z.lt_le_trans; [apply Hr|].
  change (2 ^ 32) with (256 ^ 4). apply Z.pow_le_mono_r; lia.
Qed.

Lemma W_upto_length k blk : length (W_upto k blk) = (16 + k)%nat.
Proof. induction k as [|k IH]; [done|]. simpl. rewrite length_app. simpl in *. lia. Qed.
Lemma W_upto_ok k blk : bytes_ok blk -> words_ok (W_upto k blk).
Proof.
  intros Hb. induction k as [|k IH].
  - apply Forall_fmap, Forall_true. intros t. by apply be_value_word.
  - simpl. apply Forall_app. split; [done|]. repeat constructor; apply u32_range.
Qed.

(** The array the code fills in place is the standard's list and zeros after it. *)
Lemma fill_words blk k :
  (k <= 16)%nat -> bytes_ok blk -> length blk = 64%nat ->
  for_range k (fun i w => <[i := load_word blk i]> w) (replicate 64 0)
  = ((fun t => be_value (slice blk (4 * t) 4)) <$> seq 0 k) ++ replicate (64 - k) 0.
Proof.
  intros Hk Hb Hl. induction k as [|k IH]; [done|].
  unfold for_range in *. rewrite seq_S, fold_left_app, IH by lia. simpl.
  rewrite fmap_app, <- app_assoc. rewrite insert_app_r_alt by (rewrite length_fmap, length_seq; lia).
  rewrite length_fmap, length_seq, Nat.sub_diag. f_equal.
  replace (64 - k)%nat with (S (64 - S k)) by lia. simpl. rewrite load_word_be by (done || lia). done.
Qed.

Lemma lookup_total_app_l {A} `{!Inhabited A} (l l' : list A) i :
  (i < length l)%nat -> (l ++ l') !!! i = l !!! i.
Proof. intros Hi. rewrite !list_lookup_total_alt. by rewrite lookup_app_l. Qed.

Lemma extend_words blk k :
  (k <= 48)%nat -> bytes_ok blk -> length blk = 64%nat ->
  for_range k (fun k w => <[(16 + k)%nat := extend_word w (16 + k)]> w)
    (W_upto 0 blk ++ replicate 48 0) = W_upto k blk ++ replicate (48 - k) 0.
Proof.
  intros Hk Hb Hl. induction k as [|k IH]; [done|].
  unfold for_range in *. rewrite seq_S, fold_left_app, IH by lia. cbn [fold_left].
  change (0 + k)%nat with k.
  rewrite insert_app_r_alt by (rewrite W_upto_length; lia).
  rewrite W_upto_length, Nat.sub_diag.
  change (W_upto (S k) blk) with (W_upto k blk ++ [next_W (W_upto k blk)]).
  rewrite <- app_assoc. f_equal. replace (48 - k)%nat with (S (48 - S k)) by lia.
  cbn [replicate]. change (<[0%nat:=?x]> (0 :: ?l)) with (x :: l). cbn [app]. f_equal.
  unfold extend_word, next_W. rewrite mask_32bit_u32, u32_u64, W_upto_length.
  rewrite !lookup_total_app_l by (rewrite W_upto_length; lia).
  pose proof (W_upto_ok k blk Hb) as Hw.
  destruct (sigmas _ (words_ok_lookup _ (16 + k - 2) Hw)) as (_ & _ & _ & ->).
  destruct (sigmas _ (words_ok_lookup _ (16 + k - 15) Hw)) as (_ & _ & -> & _). done.
Qed.

Lemma schedule_W blk : bytes_ok blk -> length blk = 64%nat -> schedule blk = W blk.
Proof.
  intros Hb Hl. unfold schedule. rewrite fill_words by (done || lia).
  change (_ <$> seq 0 16) with (W_upto 0 blk). change (64 - 16)%nat with 48%nat.
  etransitivity; [exact (extend_words blk 48 (le_n 48) Hb Hl)|]. change (replicate (48 - 48) 0) with (@nil Z). unfold W. apply app_nil_r.
Qed.

Definition regs_ok (s : regs) : Prop := words_ok (regs_list s).

Lemma round_step w s i :
  regs_ok s -> regs_list (round w s i) = step (regs_list s) (add_constant !!! i + w !!! i).
Proof.
  destruct s as [a b c d e f g h]. unfold regs_ok, words_ok, regs_list. cbn [ra rb rc rd re rf rg rh].
  rewrite !Forall_cons. intros (Ha & Hb & Hc & Hd & He & Hf & Hg & Hh & _).
  unfold round, step. cbn [ra rb rc rd re rf rg rh].
  destruct (sigmas a Ha) as (-> & _). destruct (sigmas e He) as (_ & -> & _).
  rewrite ch_Ch by done. rewrite !mask_32bit_u32, !u32_u64.
  rewrite !u32_add_u64_l, !u32_add_u64_r. change maj with Maj.
  by rewrite !Z.add_assoc.
Qed.
Lemma round_ok w s i : regs_ok s -> regs_ok (round w s i).
Proof.
  unfold regs_ok, words_ok, regs_list, round. cbn [ra rb rc rd re rf rg rh].
  rewrite !Forall_cons, !mask_32bit_u32. intuition auto with siliqua.
Qed.

Lemma rounds_steps w s n :
  (n <= 64)%nat -> length w = 64%nat -> regs_ok s ->
  let s' := fold_left (round w) (seq 0 n) s in
  regs_ok s' /\
  regs_list s' = fold_left step (take n (zip_with Z.add add_constant w)) (regs_list s).
Proof.
  intros Hn Hw Hs. induction n as [|n IH]; [done|].
  destruct IH as [IH1 IH2]; [lia|]. cbv zeta. rewrite seq_S, fold_left_app. cbn [fold_left Nat.add].
  split; [by apply round_ok|]. rewrite round_step, IH2 by done.
  rewrite (take_S_r _ _ (add_constant !!! n + w !!! n)); [by rewrite fold_left_app|].
  destruct (lookup_lt_is_Some_2 w n ltac:(lia)) as [x Hx].
  destruct (lookup_lt_is_Some_2 add_constant n ltac:(change (length add_constant) with 64%nat; lia)) as [y Hy].
  rewrite lookup_zip_with, Hx, Hy. cbn [mbind option_bind]. by rewrite !list_lookup_total_alt, Hx, Hy.
Qed.

(** A digest: eight 32-bit words. *)
Definition digest_ok (md : list Z) : Prop := length md = 8%nat /\ words_ok md.

Lemma regs_of_list md : length md = 8%nat -> regs_list (regs_of md) = md.
Proof. by destruct md as [|? [|? [|? [|? [|? [|? [|? [|? [|]]]]]]]]]. Qed.

Lemma hash256_block_compress md blk :
  digest_ok md -> bytes_ok blk -> length blk = 64%nat ->
  hash256_block md blk = compress md blk.
Proof.
  intros [Hl Hw] Hb Hlb. unfold hash256_block, compress. rewrite schedule_W by done.
  destruct (rounds_steps (W blk) (regs_of md) 64) as [_ E]; [lia | apply (W_upto_length 48) | |].
  { unfold regs_ok. by rewrite regs_of_list. }
  rewrite E, regs_of_list by done. rewrite take_ge.
  2: { rewrite length_zip_with. change (length add_constant) with 64%nat. lia. }
  apply zip_with_ext; [|done|done]. intros. by rewrite mask_32bit_u32, u32_u64.
Qed.

(** ** Whole blocks *)

Lemma process_blocks_eq fuel buf h i :
  (length buf - i < 64 * fuel)%nat ->
  process_blocks fuel buf h i
  = (fold_left hash256_block (blocks (drop i buf)) h, (i + 64 * ((length buf - i) / 64))%nat).
Proof.
  revert h i. induction fuel as [|fuel IH]; intros h i H; [lia|].
  cbn [process_blocks]. destruct (Nat.leb_spec (i + 64) (length buf)) as [Hl|Hl].
  - rewrite IH by lia. destruct (blocks_long (drop i buf)) as [-> _]; [rewrite length_drop; lia|].
    cbn [fold_left]. rewrite drop_drop. f_equal.
    rewrite (div64_step (length buf - i)) by lia.
    replace (length buf - (i + 64))%nat with (length buf - i - 64)%nat by lia. lia.
  - destruct (blocks_short (drop i buf)) as [-> _]; [rewrite length_drop; lia|].
    rewrite Nat.div_small by lia. cbn. f_equal. lia.
Qed.

(** ** The length counter *)

Fixpoint le_digits (n : nat) (v : Z) : list Z :=
  match n with O => [] | S n => v mod 2 ^ 16 :: le_digits n (v / 2 ^ 16) end.
Fixpoint digits_value (ds : list Z) : Z :=
  match ds with [] => 0 | d :: ds => d + 2 ^ 16 * digits_value ds end.
Definition digits_ok (ds : list Z) : Prop := Forall (fun d => 0 <= d < 2 ^ 16) ds.

Lemma pow_digits n : 2 ^ (16 * Z.of_nat (S n)) = 2 ^ 16 * 2 ^ (16 * Z.of_nat n).
Proof. rewrite <- Z.pow_add_r by lia. f_equal. lia. Qed.

Lemma le_digits_eq ds v k :
  digits_ok ds -> v = digits_value ds + k * 2 ^ (16 * Z.of_nat (length ds)) ->
  le_digits (length ds) v = ds.
Proof.
  intros Hd. revert v k. induction Hd as [|d ds Hd _ IH]; intros v k; [done|].
  cbn [length digits_value le_digits]. rewrite pow_digits. intros ->.
  set (X := digits_value ds + k * 2 ^ (16 * Z.of_nat (length ds))).
  replace (d + 2 ^ 16 * digits_value ds + k * (2 ^ 16 * 2 ^ (16 * Z.of_nat (length ds))))
    with (d + X * 2 ^ 16) by (unfold X; lia).
  rewrite Z.mod_add, Z.div_add, Z.mod_small, Z.div_small by lia. f_equal.
  apply (IH _ k). unfold X. lia.
Qed.

Lemma le_digits_ok n v : digits_ok (le_digits n v).
Proof. revert v. induction n; constructor; [apply Z.mod_pos_bound; lia | apply IHn]. Qed.
Lemma length_le_digits n v : length (le_digits n v) = n.
Proof. revert v. induction n; intros; simpl; auto. Qed.

Lemma le_digits_value n v :
  exists k, digits_value (le_digits n v) = v + k * 2 ^ (16 * Z.of_nat n).
Proof.
  revert v. induction n as [|n IH]; intros v.
  - exists (- v). cbn. lia.
  - destruct (IH (v / 2 ^ 16)) as [k E]. exists k. cbn [le_digits digits_value].
    rewrite E, pow_digits. pose proof (Z.div_mod v (2 ^ 16) ltac:(lia)). lia.
Qed.

Lemma propagate_cons c d rest :
  propagate c (d :: rest)
  = if 65536 <=? u64 (d + c)
    then Z.land (u64 (d + c)) 65535 :: propagate (Z.shiftr (u64 (d + c)) 16) rest
    else u64 (d + c) :: rest.
Proof. done. Qed.

Lemma propagate_eq d rest c :
  0 <= d -> 0 <= c -> d + c < 2 ^ 64 -> digits_ok rest ->
  exists k, digits_ok (propagate c (d :: rest)) /\
    length (propagate c (d :: rest)) = S (length rest) /\
    digits_value (propagate c (d :: rest))
    = digits_value (d :: rest) + c + k * 2 ^ (16 * Z.of_nat (S (length rest))).
Proof.
  revert d c. induction rest as [|d' rest IH]; intros d c Hd Hc Hdc Hr;
    rewrite propagate_cons; rewrite u64_id by (unfold in_u64; lia);
    destruct (Z.leb_spec 65536 (d + c)) as [Hl|Hl].
  - change 65535 with (Z.ones 16). rewrite Z.land_ones by lia.
    exists (- ((d + c) / 2 ^ 16)). cbn [propagate length digits_value]. split_and!; [|done|].
    + repeat constructor; apply Z.mod_pos_bound; lia.
    + pose proof (Z.div_mod (d + c) (2 ^ 16) ltac:(lia)). cbn [Z.of_nat]. lia.
  - exists 0. split_and!; [constructor; [lia | done] | done | cbn; lia].
  - change 65535 with (Z.ones 16). rewrite Z.land_ones, Z.shiftr_div_pow2 by lia.
    apply Forall_cons in Hr as [Hd' Hr].
    assert (0 <= (d + c) / 2 ^ 16 < 2 ^ 48) as Hq.
    { split; [apply Z.div_pos; lia | apply Z.div_lt_upper_bound; lia]. }
    destruct (IH d' ((d + c) / 2 ^ 16)) as (k & H1 & H2 & H3); [lia.. | done |].
    exists k. split_and!.
    + constructor; [apply Z.mod_pos_bound; lia | done].
    + cbn [length]. by rewrite H2.
    + cbn [digits_value length] in *. rewrite H3, (pow_digits (S _)).
      pose proof (Z.div_mod (d + c) (2 ^ 16) ltac:(lia)). lia.
  - exists 0. split_and!; [constructor; [lia | done] | done | cbn [digits_value]; lia].
Qed.

Lemma add_to_data_length_eq n v :
  add_to_data_length (u64 n) (le_digits 4 v) = le_digits 4 (v + n).
Proof.
  remember (le_digits 4 (v + n)) as R eqn:ER.
  unfold add_to_data_length. cbn [le_digits].
  set (rest := [(v / 2 ^ 16) mod 2 ^ 16; _; _]).
  change ((v mod 2 ^ 16 :: rest) !!! 0%nat) with (v mod 2 ^ 16).
  change (<[0%nat:=?x]> (_ :: ?l)) with (x :: l).
  set (d := u64 (v mod 2 ^ 16 + u64 n)).
  assert (in_u64 d) as Hx by apply u64_range. unfold in_u64 in Hx.
  assert (digits_ok rest) as Hr by (apply (le_digits_ok 3 (v / 2 ^ 16))).
  destruct (propagate_eq d rest 0) as (k & H1 & H2 & H3);
    [lia | lia | lia | done |].
  subst R. symmetry. change 4%nat with (S (length rest)) at 1. rewrite <- H2.
  destruct (le_digits_value 4 v) as [k4 E4].
  assert (exists j, d = v mod 2 ^ 16 + n + j * 2 ^ 64) as [j Hj].
  { unfold d, u64. cbn. rewrite Zplus_mod_idemp_r.
    exists (- ((v mod 2 ^ 16 + n) / 2 ^ 64)).
    pose proof (Z.div_mod (v mod 2 ^ 16 + n) (2 ^ 64) ltac:(lia)). cbn in *. lia. }
  apply (le_digits_eq _ _ (- k - j - k4)); [done|].
  rewrite H2, H3.
  change (2 ^ (16 * Z.of_nat 4)) with (2 ^ 64) in *.
  change (2 ^ (16 * Z.of_nat (S (length rest)))) with (2 ^ 64) in *.
  assert (digits_value (le_digits 4 v) = v mod 2 ^ 16 + 2 ^ 16 * digits_value rest) as E by done.
  rewrite E in E4. change (digits_value (d :: rest)) with (d + 2 ^ 16 * digits_value rest). lia.
Qed.

(** ** The hasher's state *)

(** The state after the whole input [M], however it was cut into calls. *)
Definition absorbed (M : bytes) : hasher :=
  Hasher (tail M) (le_digits 4 (size_of M))
         (fold_left hash256_block (blocks M) initial_message_digest).

Lemma absorbed_nil : absorbed [] = init.
Proof. done. Qed.

Lemma process_absorbed M data : process (absorbed M) data = absorbed (M ++ data).
Proof.
  unfold process, absorbed. cbn [buffer_ data_length_digits_ h_].
  rewrite process_blocks_eq by lia. rewrite add_to_data_length_eq, size_of_app.
  destruct (blocks_app M data) as [-> ->]. rewrite fold_left_app.
  rewrite drop_0, Nat.add_0_l, Nat.sub_0_r. done.
Qed.

Lemma process_all M parts : fold_left process parts (absorbed M) = absorbed (M ++ concat parts).
Proof.
  revert M. induction parts as [|p parts IH]; intros M; simpl; [by rewrite app_nil_r|].
  by rewrite process_absorbed, IH, app_assoc.
Qed.

Lemma process_chunks_absorbed fuel n M src :
  (0 < n)%nat -> (length src <= fuel)%nat ->
  process_chunks fuel n (absorbed M) src = absorbed (M ++ src).
Proof.
  intros Hn. revert M src. induction fuel as [|fuel IH]; intros M [|b src] H;
    cbn [process_chunks length] in *; rewrite ?app_nil_r; [done | lia | done|].
  rewrite process_absorbed, IH.
  - by rewrite <- app_assoc, take_drop.
  - rewrite length_drop. cbn [length]. lia.
Qed.

(** *** Padding *)

Lemma shift_digits_value c ds :
  0 <= c < 8 -> digits_ok ds ->
  digits_ok (shift_digits c ds) /\ length (shift_digits c ds) = length ds /\
  exists k, digits_value (shift_digits c ds)
            = 8 * digits_value ds + c + k * 2 ^ (16 * Z.of_nat (length ds)).
Proof.
  intros Hc Hd. revert c Hc. induction Hd as [|d ds Hd Hds IH]; intros c Hc.
  { cbn. split_and!; [constructor | done | exists (- c); lia]. }
  cbn [shift_digits]. change (16 - 3) with 13.
  assert (Z.land (Z.shiftr d 13) 65535 = d / 2 ^ 13) as ->.
  { change 65535 with (Z.ones 16). rewrite Z.land_ones, Z.shiftr_div_pow2 by lia.
    apply Z.mod_small. split; [apply Z.div_pos; lia | apply Z.div_lt_upper_bound; lia]. }
  assert (Z.land (Z.lor (w64_shl d 3) c) 65535 = (8 * d + c) mod 2 ^ 16) as ->.
  { change 65535 with (Z.ones 16). rewrite Z.land_ones by lia. f_equal.
    unfold w64_shl. rewrite u64_id.
    2: { unfold in_u64. rewrite Z.shiftl_mul_pow2 by lia. lia. }
    rewrite Z.lor_comm, lor_shiftl_add by lia. lia. }
  destruct (IH (d / 2 ^ 13)) as (H1 & H2 & k & H3).
  { split; [apply Z.div_pos; lia | apply Z.div_lt_upper_bound; lia]. }
  split_and!.
  - constructor; [apply Z.mod_pos_bound; lia | done].
  - cbn [length]. by rewrite H2.
  - exists k. cbn [digits_value length]. rewrite H3, pow_digits.
    assert ((8 * d + c) / 2 ^ 16 = d / 2 ^ 13) as E.
    { change (2 ^ 16) with (8 * 2 ^ 13). rewrite <- Z.div_div by lia.
      rewrite Z.add_comm, Z.mul_comm, Z.div_add, (Z.div_small c) by lia. done. }
    pose proof (Z.div_mod (8 * d + c) (2 ^ 16) ltac:(lia)) as Hm. rewrite E in Hm. lia.
Qed.

Lemma write_data_bit_length_be v : write_data_bit_length (le_digits 4 v) = be_bytes 8 (8 * v).
Proof.
  unfold write_data_bit_length, be_bytes.
  destruct (shift_digits_value 0 (le_digits 4 v)) as (H1 & H2 & k & H3); [lia | apply le_digits_ok|].
  destruct (le_digits_value 4 v) as [k' Hk]. rewrite length_le_digits in *. rewrite Hk in H3.
  destruct (shift_digits 0 _) as [|x0 [|x1 [|x2 [|x3 [|]]]]]; try discriminate. clear H2 Hk.
  unfold digits_ok in H1. rewrite !Forall_cons in H1. destruct H1 as (B0 & B1 & B2 & B3 & _).
  cbn [fmap list_fmap concat app]. cbn. unfold u8. rewrite !Z.shiftr_div_pow2 by lia.
  set (l := [x0 mod 2 ^ 8; (x0 / 2 ^ 8) mod 2 ^ 8; x1 mod 2 ^ 8; (x1 / 2 ^ 8) mod 2 ^ 8;
             x2 mod 2 ^ 8; (x2 / 2 ^ 8) mod 2 ^ 8; x3 mod 2 ^ 8; (x3 / 2 ^ 8) mod 2 ^ 8]).
  change (rev l = rev (le_bytes 8 (8 * v))). f_equal.
  assert (bytes_ok l) as Hl by (repeat constructor; apply u8_range).
  rewrite <- (le_bytes_value l Hl). change (length l) with 8%nat.
  rewrite <- (le_bytes_mod 8 (le_value l)), <- (le_bytes_mod 8 (8 * v)). f_equal.
  change (2 ^ (8 * Z.of_nat 8)) with (2 ^ 64). change (2 ^ (16 * Z.of_nat 4)) with (2 ^ 64) in H3.
  assert (forall x, 0 <= x < 2 ^ 16 -> x mod 2 ^ 8 + 2 ^ 8 * ((x / 2 ^ 8) mod 2 ^ 8) = x) as Hx.
  { intros x Hx. rewrite (Z.mod_small (x / 2 ^ 8)).
    - pose proof (Z.div_mod x (2 ^ 8)). lia.
    - split; [apply Z.div_pos; lia | apply Z.div_lt_upper_bound; lia]. }
  apply Hx in B0, B1, B2, B3. cbn [digits_value] in H3. unfold l. cbn [le_value].
  replace (_ + _) with (8 * v + (8 * k' + k) * 2 ^ 64) by lia.
  apply Z.mod_add. lia.
Qed.

Lemma pad_blocks M :
  blocks (pad M) = blocks M ++ blocks (tail M ++ [0x80] ++
    replicate (Z.to_nat ((55 - size_of M) mod 64)) 0 ++ be_bytes 8 (8 * size_of M)).
Proof. apply blocks_app. Qed.

(** The block [finish] starts from: the pending bytes, the marker and zeros. *)
Lemma finish_temp (buf : bytes) :
  (length buf < 64)%nat ->
  <[length buf := 0x80]> (take 64 (buf ++ replicate 64 0))
  = (buf ++ [0x80]) ++ replicate (63 - length buf) 0.
Proof.
  intros H. rewrite take_app_ge, take_replicate by lia.
  replace (64 - length buf)%nat with (S (63 - length buf)) by lia.
  rewrite Nat.min_l by lia. replace (length buf) with (length buf + 0)%nat at 1 by lia.
  rewrite insert_app_r. rewrite <- app_assoc. f_equal.
Qed.

Lemma finish_absorbed M :
  h_ (finish (absorbed M)) = fold_left hash256_block (blocks (pad M)) initial_message_digest.
Proof.
  rewrite pad_blocks, fold_left_app, zeros_count.
  unfold finish. cbn [absorbed h_ buffer_ data_length_digits_].
  assert (length (tail M) < 64)%nat as Hl by (rewrite tail_length; apply Nat.mod_upper_bound; lia).
  rewrite write_data_bit_length_be. set (bl := be_bytes 8 _).
  assert (length bl = 8%nat) as Hbl by apply length_be_bytes.
  set (t := tail M) in *. set (h := fold_left _ (blocks M) _).
  destruct (Nat.leb_spec 64 (length t)); [lia|]. rewrite finish_temp by done.
  assert (length (t ++ [0x80%Z]) = length t + 1)%nat as Ht by (rewrite length_app; simpl; lia).
  rewrite !(take_prefix (length t + 1)) by done.
  destruct (Nat.ltb_spec 55 (length t)) as [Hr|Hr]; cbn [h_].
  - set (d4 := drop 60 _).
    rewrite (take_app_le (replicate 60 0)), take_replicate by (rewrite length_replicate; lia).
    change (60 `min` 56)%nat with 56%nat. change (56 `min` 60)%nat with 56%nat.
    replace (119 - length t)%nat with ((64 - (length t + 1)) + 56)%nat by lia.
    rewrite replicate_add, <- !app_assoc.
    set (z := replicate (64 - _) 0).
    replace (t ++ [0x80] ++ z ++ replicate 56 0 ++ bl)
      with ((t ++ [0x80] ++ z) ++ replicate 56 0 ++ bl) by (by rewrite <- !app_assoc).
    set (t1 := t ++ [0x80] ++ z).
    assert (length t1 = 64%nat) as H1.
    { unfold t1, z. rewrite app_assoc, length_app, length_replicate. lia. }
    destruct (blocks_long (t1 ++ replicate 56 0 ++ bl)) as [-> _]; [rewrite length_app; lia|].
    rewrite take_prefix, drop_prefix by done.
    rewrite blocks_one by (rewrite length_app, length_replicate; lia). done.
  - set (z := replicate (60 - _) 0).
    assert (z = replicate (55 - length t) 0 ++ replicate 4 0) as ->.
    { unfold z. rewrite <- replicate_add. f_equal. lia. }
    set (d4 := drop 60 _).
    rewrite <- !app_assoc, (app_assoc t), (app_assoc (t ++ _)).
    rewrite take_prefix by (rewrite length_app, length_replicate; lia).
    rewrite blocks_one; [by rewrite <- !app_assoc|].
    rewrite !length_app, length_replicate. simpl. lia.
Qed.

(** *** Digests *)

Lemma Forall_zip_with_all {A B C} (P : C -> Prop) (f : A -> B -> C) l k :
  (forall x y, P (f x y)) -> Forall P (zip_with f l k).
Proof. intros H. revert k. induction l; intros [|]; constructor; auto. Qed.

Lemma hash256_block_length md blk : length md = 8%nat -> length (hash256_block md blk) = 8%nat.
Proof. intros H. unfold hash256_block. rewrite length_zip_with, H. done. Qed.

Lemma hash256_block_ok md blk : length md = 8%nat -> digest_ok (hash256_block md blk).
Proof.
  intros H. split; [by apply hash256_block_length|].
  apply Forall_zip_with_all. intros. rewrite mask_32bit_u32. apply u32_range.
Qed.

Lemma fold_blocks_compress bs md :
  digest_ok md -> Forall (fun b => bytes_ok b /\ length b = 64%nat) bs ->
  fold_left hash256_block bs md = fold_left compress bs md
  /\ digest_ok (fold_left hash256_block bs md).
Proof.
  intros Hd Hb. revert md Hd. induction Hb as [|b bs [Hb Hl] _ IH]; intros md Hd; [done|].
  cbn [fold_left]. rewrite <- hash256_block_compress by done.
  apply IH, hash256_block_ok, Hd.
Qed.

Lemma fold_blocks_length bs md :
  length md = 8%nat -> length (fold_left hash256_block bs md) = 8%nat.
Proof.
  revert md. induction bs as [|b bs IH]; intros md H; [done|]. cbn [fold_left].
  by apply IH, hash256_block_length.
Qed.

(** [get_hash_bytes] writes the digest's words big-endian. *)
Lemma word_bytes x :
  ((fun i => mask_8bit (u8 (Z.shiftr x (24 - 8 * i)))) <$> [0; 1; 2; 3]) = be_bytes 4 x.
Proof.
  unfold be_bytes. cbn [fmap list_fmap le_bytes rev app].
  rewrite !mask_8bit_u8, !(u8_id (u8 _)) by apply u8_range. unfold u8.
  change (24 - 8 * 0) with 24. change (24 - 8 * 1) with 16.
  change (24 - 8 * 2) with 8. change (24 - 8 * 3) with 0.
  rewrite !Z.shiftr_div_pow2 by lia. rewrite !Z.div_div by lia. rewrite Z.div_1_r. done.
Qed.

Lemma get_hash_bytes_be s n : get_hash_bytes s n = take n (concat (be_bytes 4 <$> h_ s)).
Proof.
  unfold get_hash_bytes. do 2 f_equal. apply list_fmap_ext. intros _ x _. apply word_bytes.
Qed.

Lemma concat_words_length ws : length (concat (be_bytes 4 <$> ws)) = (4 * length ws)%nat.
Proof.
  induction ws as [|w ws IH]; [done|]. rewrite fmap_cons. cbn [concat length].
  rewrite length_app, length_be_bytes, IH. lia.
Qed.

Lemma hash256_digest M :
  hash256 M 32 = concat (be_bytes 4 <$>
    fold_left hash256_block (blocks (pad M)) initial_message_digest).
Proof.
  unfold hash256. rewrite get_hash_bytes_be, <- absorbed_nil, process_absorbed, finish_absorbed.
  apply take_ge. rewrite concat_words_length, fold_blocks_length by done. lia.
Qed.

Lemma hash256_length M : length (hash256 M 32) = 32%nat.
Proof. by rewrite hash256_digest, concat_words_length, fold_blocks_length. Qed.
Lemma hash256_ok M : bytes_ok (hash256 M 32).
Proof.
  rewrite hash256_digest. apply Forall_concat, Forall_fmap, Forall_true.
  intros x. apply be_bytes_ok.
Qed.

(** ** Theorems *)

(** C16.  On every byte string, the bytes [hash256] writes are the SHA-256 of
    FIPS 180-4: the masked 64-bit arithmetic, the in-place schedule, the 16-bit
    length digits and the two padding branches together compute the standard. *)
Theorem hash256_correct M : bytes_ok M -> hash256 M 32 = SHA256 M.
Proof.
  intros Hok. rewrite hash256_digest. unfold SHA256.
  destruct constants as [_ ->].
  destruct (fold_blocks_compress (blocks (pad M)) initial_message_digest) as [-> _]; [| |done].
  - split; [done|]. by repeat constructor.
  - apply blocks_lengths. unfold pad. rewrite !Forall_app. split_and!; [done | by repeat constructor | | apply be_bytes_ok].
    by apply Forall_replicate.
Qed.

Lemma hash256_correct_witness :
  bytes_ok (str "abc") /\ hash256 (str "abc") 32 = SHA256 (str "abc").
Proof.
  assert (bytes_ok (str "abc")) as H by (by repeat constructor).
  exact (conj H (hash256_correct (str "abc") H)).
Defined.

(** The digest depends only on the concatenation of the input, not
    on how it was cut: any sequence of [process] calls, and the buffered
    input-iterator loop with any positive buffer size, give [hash256] of the whole. *)
Theorem hash256_streaming parts n size :
  get_hash_bytes (finish (fold_left process parts init)) n = hash256 (concat parts) n
  /\ ((0 < size)%nat -> hash256_input size (concat parts) n = hash256 (concat parts) n).
Proof.
  unfold hash256, hash256_input. rewrite <- absorbed_nil. split.
  - by rewrite process_all, process_absorbed.
  - intros Hs. by rewrite process_chunks_absorbed, process_absorbed by done.
Qed.

Lemma hash256_streaming_witness :
  (0 < 2)%nat /\ hash256_input 2 (concat [str "ab"; str "c"]) 32 = hash256 (str "abc") 32.
Proof.
  assert (0 < 2)%nat as H by lia.
  exact (conj H (proj2 (hash256_streaming [str "ab"; str "c"] 32 2) H)).
Defined.
