(* ===== verification/Ripemd160.v ===== *)
(** RIPEMD-160 as Crypto++ computes it: the transform of cryptopp/ripemd.cpp, plugged
    into the iterated hash of Iterhash.v. *)
From S2P Require Import Prelude.
From S2P Require Import Blocks.
From S2P Require Import Iterhash.

Module ripemd.

(** ** The transform *)

(** The ten working variables are [unsigned long] (64 bits); the digest and the
    message words are [word32]. *)
Inductive var := a1 | b1 | c1 | d1 | e1 | a2 | b2 | c2 | d2 | e2.
Definition var_index (v : var) : nat :=
  match v with
  | a1 => 0 | b1 => 1 | c1 => 2 | d1 => 3 | e1 => 4
  | a2 => 5 | b2 => 6 | c2 => 7 | d2 => 8 | e2 => 9
  end.
Inductive fn := F | G | H | I | J.

Definition wnot (x : Z) : Z := u64 (Z.lnot x).
Definition apply_fn (f : fn) (x y z : Z) : Z :=
  match f with
  | F => Z.lxor (Z.lxor x y) z
  | G => Z.lxor z (Z.land x (Z.lxor y z))
  | H => Z.lxor z (Z.lor x (wnot y))
  | I => Z.lxor y (Z.land z (Z.lxor x y))
  | J => Z.lxor x (Z.lor y (wnot z))
  end.

Definition k0 := 0.
Definition k1 := 0x5a827999.
Definition k2 := 0x6ed9eba1.
Definition k3 := 0x8f1bbcdc.
Definition k4 := 0xa953fd4e.
Definition k5 := 0x50a28be6.
Definition k6 := 0x5c4dd124.
Definition k7 := 0x6d703ef3.
Definition k8 := 0x7a6d76e9.
Definition k9 := 0.

(** One use of the macro [Subround(f, a, b, c, d, e, X[x], s, k)]. *)
Inductive subround := Subround (f : fn) (a b c d e : var) (x : nat) (s k : Z).

(** [rotlVariable] and [rotlConstant] on a [word32]. *)
Definition rotl (x s : Z) : Z := Z.lor (u32 (Z.shiftl x s)) (Z.shiftr x (32 - s)).

Abbreviation env := (list Z).
Definition get (v : var) (r : env) : Z := r !!! var_index v.
Definition set (v : var) (x : Z) (r : env) : env := <[var_index v := x]> r.

Definition run_subround (X : list Z) (r : env) (i : subround) : env :=
  let '(Subround f a b c d e x s k) := i in
  let r := set a (u64 (get a r + u64 (u64 (apply_fn f (get b r) (get c r) (get d r) + X !!! x) + k))) r in
  let r := set a (u64 (rotl (u32 (get a r)) s + get e r)) r in
  set c (rotl (u32 (get c r)) 10) r.

(** [RIPEMD160::InitState]. *)
Definition InitState : list Z := [0x67452301; 0xefcdab89; 0x98badcfe; 0x10325476; 0xc3d2e1f0].

(** The body of [RIPEMD160::Transform], one line per line of the source. *)
Definition left_rounds : list subround :=
  [
   Subround F a1 b1 c1 d1 e1 0 11 k0;
   Subround F e1 a1 b1 c1 d1 1 14 k0;
   Subround F d1 e1 a1 b1 c1 2 15 k0;
   Subround F c1 d1 e1 a1 b1 3 12 k0;
   Subround F b1 c1 d1 e1 a1 4 5 k0;
   Subround F a1 b1 c1 d1 e1 5 8 k0;
   Subround F e1 a1 b1 c1 d1 6 7 k0;
   Subround F d1 e1 a1 b1 c1 7 9 k0;
   Subround F c1 d1 e1 a1 b1 8 11 k0;
   Subround F b1 c1 d1 e1 a1 9 13 k0;
   Subround F a1 b1 c1 d1 e1 10 14 k0;
   Subround F e1 a1 b1 c1 d1 11 15 k0;
   Subround F d1 e1 a1 b1 c1 12 6 k0;
   Subround F c1 d1 e1 a1 b1 13 7 k0;
   Subround F b1 c1 d1 e1 a1 14 9 k0;
   Subround F a1 b1 c1 d1 e1 15 8 k0;
   Subround G e1 a1 b1 c1 d1 7 7 k1;
   Subround G d1 e1 a1 b1 c1 4 6 k1;
   Subround G c1 d1 e1 a1 b1 13 8 k1;
   Subround G b1 c1 d1 e1 a1 1 13 k1;
   Subround G a1 b1 c1 d1 e1 10 11 k1;
   Subround G e1 a1 b1 c1 d1 6 9 k1;
   Subround G d1 e1 a1 b1 c1 15 7 k1;
   Subround G c1 d1 e1 a1 b1 3 15 k1;
   Subround G b1 c1 d1 e1 a1 12 7 k1;
   Subround G a1 b1 c1 d1 e1 0 12 k1;
   Subround G e1 a1 b1 c1 d1 9 15 k1;
   Subround G d1 e1 a1 b1 c1 5 9 k1;
   Subround G c1 d1 e1 a1 b1 2 11 k1;
   Subround G b1 c1 d1 e1 a1 14 7 k1;
   Subround G a1 b1 c1 d1 e1 11 13 k1;
   Subround G e1 a1 b1 c1 d1 8 12 k1;
   Subround H d1 e1 a1 b1 c1 3 11 k2;
   Subround H c1 d1 e1 a1 b1 10 13 k2;
   Subround H b1 c1 d1 e1 a1 14 6 k2;
   Subround H a1 b1 c1 d1 e1 4 7 k2;
   Subround H e1 a1 b1 c1 d1 9 14 k2;
   Subround H d1 e1 a1 b1 c1 15 9 k2;
   Subround H c1 d1 e1 a1 b1 8 13 k2;
   Subround H b1 c1 d1 e1 a1 1 15 k2;
   Subround H a1 b1 c1 d1 e1 2 14 k2;
   Subround H e1 a1 b1 c1 d1 7 8 k2;
   Subround H d1 e1 a1 b1 c1 0 13 k2;
   Subround H c1 d1 e1 a1 b1 6 6 k2;
   Subround H b1 c1 d1 e1 a1 13 5 k2;
   Subround H a1 b1 c1 d1 e1 11 12 k2;
   Subround H e1 a1 b1 c1 d1 5 7 k2;
   Subround H d1 e1 a1 b1 c1 12 5 k2;
   Subround I c1 d1 e1 a1 b1 1 11 k3;
   Subround I b1 c1 d1 e1 a1 9 12 k3;
   Subround I a1 b1 c1 d1 e1 11 14 k3;
   Subround I e1 a1 b1 c1 d1 10 15 k3;
   Subround I d1 e1 a1 b1 c1 0 14 k3;
   Subround I c1 d1 e1 a1 b1 8 15 k3;
   Subround I b1 c1 d1 e1 a1 12 9 k3;
   Subround I a1 b1 c1 d1 e1 4 8 k3;
   Subround I e1 a1 b1 c1 d1 13 9 k3;
   Subround I d1 e1 a1 b1 c1 3 14 k3;
   Subround I c1 d1 e1 a1 b1 7 5 k3;
   Subround I b1 c1 d1 e1 a1 15 6 k3;
   Subround I a1 b1 c1 d1 e1 14 8 k3;
   Subround I e1 a1 b1 c1 d1 5 6 k3;
   Subround I d1 e1 a1 b1 c1 6 5 k3;
   Subround I c1 d1 e1 a1 b1 2 12 k3;
   Subround J b1 c1 d1 e1 a1 4 9 k4;
   Subround J a1 b1 c1 d1 e1 0 15 k4;
   Subround J e1 a1 b1 c1 d1 5 5 k4;
   Subround J d1 e1 a1 b1 c1 9 11 k4;
   Subround J c1 d1 e1 a1 b1 7 6 k4;
   Subround J b1 c1 d1 e1 a1 12 8 k4;
   Subround J a1 b1 c1 d1 e1 2 13 k4;
   Subround J e1 a1 b1 c1 d1 10 12 k4;
   Subround J d1 e1 a1 b1 c1 14 5 k4;
   Subround J c1 d1 e1 a1 b1 1 12 k4;
   Subround J b1 c1 d1 e1 a1 3 13 k4;
   Subround J a1 b1 c1 d1 e1 8 14 k4;
   Subround J e1 a1 b1 c1 d1 11 11 k4;
   Subround J d1 e1 a1 b1 c1 6 8 k4;
   Subround J c1 d1 e1 a1 b1 15 5 k4;
   Subround J b1 c1 d1 e1 a1 13 6 k4
  ].

Definition right_rounds : list subround :=
  [
   Subround J a2 b2 c2 d2 e2 5 8 k5;
   Subround J e2 a2 b2 c2 d2 14 9 k5;
   Subround J d2 e2 a2 b2 c2 7 9 k5;
   Subround J c2 d2 e2 a2 b2 0 11 k5;
   Subround J b2 c2 d2 e2 a2 9 13 k5;
   Subround J a2 b2 c2 d2 e2 2 15 k5;
   Subround J e2 a2 b2 c2 d2 11 15 k5;
   Subround J d2 e2 a2 b2 c2 4 5 k5;
   Subround J c2 d2 e2 a2 b2 13 7 k5;
   Subround J b2 c2 d2 e2 a2 6 7 k5;
   Subround J a2 b2 c2 d2 e2 15 8 k5;
   Subround J e2 a2 b2 c2 d2 8 11 k5;
   Subround J d2 e2 a2 b2 c2 1 14 k5;
   Subround J c2 d2 e2 a2 b2 10 14 k5;
   Subround J b2 c2 d2 e2 a2 3 12 k5;
   Subround J a2 b2 c2 d2 e2 12 6 k5;
   Subround I e2 a2 b2 c2 d2 6 9 k6;
   Subround I d2 e2 a2 b2 c2 11 13 k6;
   Subround I c2 d2 e2 a2 b2 3 15 k6;
   Subround I b2 c2 d2 e2 a2 7 7 k6;
   Subround I a2 b2 c2 d2 e2 0 12 k6;
   Subround I e2 a2 b2 c2 d2 13 8 k6;
   Subround I d2 e2 a2 b2 c2 5 9 k6;
   Subround I c2 d2 e2 a2 b2 10 11 k6;
   Subround I b2 c2 d2 e2 a2 14 7 k6;
   Subround I a2 b2 c2 d2 e2 15 7 k6;
   Subround I e2 a2 b2 c2 d2 8 12 k6;
   Subround I d2 e2 a2 b2 c2 12 7 k6;
   Subround I c2 d2 e2 a2 b2 4 6 k6;
   Subround I b2 c2 d2 e2 a2 9 15 k6;
   Subround I a2 b2 c2 d2 e2 1 13 k6;
   Subround I e2 a2 b2 c2 d2 2 11 k6;
   Subround H d2 e2 a2 b2 c2 15 9 k7;
   Subround H c2 d2 e2 a2 b2 5 7 k7;
   Subround H b2 c2 d2 e2 a2 1 15 k7;
   Subround H a2 b2 c2 d2 e2 3 11 k7;
   Subround H e2 a2 b2 c2 d2 7 8 k7;
   Subround H d2 e2 a2 b2 c2 14 6 k7;
   Subround H c2 d2 e2 a2 b2 6 6 k7;
   Subround H b2 c2 d2 e2 a2 9 14 k7;
   Subround H a2 b2 c2 d2 e2 11 12 k7;
   Subround H e2 a2 b2 c2 d2 8 13 k7;
   Subround H d2 e2 a2 b2 c2 12 5 k7;
   Subround H c2 d2 e2 a2 b2 2 14 k7;
   Subround H b2 c2 d2 e2 a2 10 13 k7;
   Subround H a2 b2 c2 d2 e2 0 13 k7;
   Subround H e2 a2 b2 c2 d2 4 7 k7;
   Subround H d2 e2 a2 b2 c2 13 5 k7;
   Subround G c2 d2 e2 a2 b2 8 15 k8;
   Subround G b2 c2 d2 e2 a2 6 5 k8;
   Subround G a2 b2 c2 d2 e2 4 8 k8;
   Subround G e2 a2 b2 c2 d2 1 11 k8;
   Subround G d2 e2 a2 b2 c2 3 14 k8;
   Subround G c2 d2 e2 a2 b2 11 14 k8;
   Subround G b2 c2 d2 e2 a2 15 6 k8;
   Subround G a2 b2 c2 d2 e2 0 14 k8;
   Subround G e2 a2 b2 c2 d2 5 6 k8;
   Subround G d2 e2 a2 b2 c2 12 9 k8;
   Subround G c2 d2 e2 a2 b2 2 12 k8;
   Subround G b2 c2 d2 e2 a2 13 9 k8;
   Subround G a2 b2 c2 d2 e2 9 12 k8;
   Subround G e2 a2 b2 c2 d2 7 5 k8;
   Subround G d2 e2 a2 b2 c2 10 15 k8;
   Subround G c2 d2 e2 a2 b2 14 8 k8;
   Subround F b2 c2 d2 e2 a2 12 8 k9;
   Subround F a2 b2 c2 d2 e2 15 5 k9;
   Subround F e2 a2 b2 c2 d2 10 12 k9;
   Subround F d2 e2 a2 b2 c2 4 9 k9;
   Subround F c2 d2 e2 a2 b2 1 12 k9;
   Subround F b2 c2 d2 e2 a2 5 5 k9;
   Subround F a2 b2 c2 d2 e2 8 14 k9;
   Subround F e2 a2 b2 c2 d2 7 6 k9;
   Subround F d2 e2 a2 b2 c2 6 8 k9;
   Subround F c2 d2 e2 a2 b2 2 13 k9;
   Subround F b2 c2 d2 e2 a2 13 6 k9;
   Subround F a2 b2 c2 d2 e2 14 5 k9;
   Subround F e2 a2 b2 c2 d2 0 15 k9;
   Subround F d2 e2 a2 b2 c2 3 13 k9;
   Subround F c2 d2 e2 a2 b2 9 11 k9;
   Subround F b2 c2 d2 e2 a2 11 11 k9
  ].

Definition run_rounds (X : list Z) (rounds : list subround) (r : env) : env :=
  fold_left (run_subround X) rounds r.

(** The sums that end [Transform]; [digest[0]] is written last, from [c1]. *)
Definition combine (digest : list Z) (r : env) : list Z :=
  let r := set c1 (u64 (digest !!! 1%nat + get c1 r + get d2 r)) r in
  let digest := <[1%nat := u32 (u64 (digest !!! 2%nat + get d1 r + get e2 r))]> digest in
  let digest := <[2%nat := u32 (u64 (digest !!! 3%nat + get e1 r + get a2 r))]> digest in
  let digest := <[3%nat := u32 (u64 (digest !!! 4%nat + get a1 r + get b2 r))]> digest in
  let digest := <[4%nat := u32 (u64 (digest !!! 0%nat + get b1 r + get c2 r))]> digest in
  <[0%nat := u32 (get c1 r)]> digest.

Definition Transform (digest X : list Z) : list Z :=
  let r := digest ++ digest in
  let r := run_rounds X left_rounds r in
  let r := run_rounds X right_rounds r in
  combine digest r.
Definition RIPEMD160 : StaticTransform := mkStaticTransform InitState Transform 20.

End ripemd.

(** ** The specification

    Dobbertin, Bosselaers and Preneel's description: five rounds of sixteen steps
    in two lines, the message order given by the permutations rho and pi, the
    shifts by a table indexed by round and message word, the constants by square
    and cube roots. *)
Module ripemd160_spec.

Definition rol (s x : Z) : Z := (x * 2 ^ s) mod 2 ^ 32 + x / 2 ^ (32 - s).
Definition not32 (x : Z) : Z := u32 (Z.lnot x).
Definition f (j : nat) (x y z : Z) : Z :=
  match j with
  | 0%nat => Z.lxor x (Z.lxor y z)
  | 1%nat => Z.lor (Z.land x y) (Z.land (not32 x) z)
  | 2%nat => Z.lxor (Z.lor x (not32 y)) z
  | 3%nat => Z.lor (Z.land x z) (Z.land y (not32 z))
  | _ => Z.lxor x (Z.lor y (not32 z))
  end.

Definition rho : list nat := [7; 4; 13; 1; 10; 6; 15; 3; 12; 0; 9; 5; 2; 14; 11; 8]%nat.
Definition pi (i : nat) : nat := ((9 * i + 5) mod 16)%nat.
Definition index (right : bool) (i : nat) : nat :=
  Nat.iter (i / 16)%nat (fun k => rho !!! k)
    (if right then pi (i mod 16) else (i mod 16)%nat).

Definition shifts : list (list Z) :=
  [[11; 14; 15; 12; 5; 8; 7; 9; 11; 13; 14; 15; 6; 7; 9; 8];
   [12; 13; 11; 15; 6; 9; 9; 7; 12; 15; 11; 13; 7; 8; 7; 7];
   [13; 15; 14; 11; 7; 7; 6; 8; 13; 14; 13; 12; 5; 5; 6; 9];
   [14; 11; 12; 14; 8; 6; 5; 5; 15; 12; 15; 14; 9; 9; 8; 6];
   [15; 12; 13; 13; 9; 5; 8; 6; 14; 11; 12; 11; 8; 6; 5; 5]].

Definition small_primes : list Z := [2; 3; 5; 7].
Definition K : list Z := Eval vm_compute in 0 :: ((fun p => Z.sqrt (p * 2 ^ 60)) <$> small_primes).
Definition K' : list Z :=
  Eval vm_compute in ((fun p => cube_root 40 0 (p * 2 ^ 90)) <$> small_primes) ++ [0].

(** A line's parameters at step [i]. *)
Definition round_fn (right : bool) (i : nat) : nat := if right then (4 - i / 16)%nat else (i / 16)%nat.
Definition shift (right : bool) (i : nat) : Z := (shifts !!! (i / 16)%nat) !!! index right i.
Definition const (right : bool) (i : nat) : Z := (if right then K' else K) !!! (i / 16)%nat.


(** One step: (A, B, C, D, E) becomes (E, T, B, rol 10 C, D). *)
Definition line_state : Type := Z * Z * Z * Z * Z.
Definition step (right : bool) (X : list Z) (v : line_state) (i : nat) : line_state :=
  let '(A, B, C, D, E) := v in
  let T := u32 (rol (shift right i)
                  (u32 (A + f (round_fn right i) B C D + X !!! index right i + const right i)) + E) in
  (E, T, B, rol 10 C, D).
Definition line (right : bool) (X : list Z) (v : line_state) : line_state :=
  fold_left (step right X) (seq 0 80) v.

Definition compress (h X : list Z) : list Z :=
  match h with
  | [h0; h1; h2; h3; h4] =>
      let '(A, B, C, D, E) := line false X (h0, h1, h2, h3, h4) in
      let '(A', B', C', D', E') := line true X (h0, h1, h2, h3, h4) in
      [u32 (h1 + C + D'); u32 (h2 + D + E'); u32 (h3 + E + A'); u32 (h4 + A + B');
       u32 (h0 + B + C')]
  | _ => h
  end.

Definition H0 : list Z := [0x67452301; 0xefcdab89; 0x98badcfe; 0x10325476; 0xc3d2e1f0].
Definition RIPEMD160 : bytes -> bytes := merkle_damgard.digest H0 compress.

End ripemd160_spec.

Import ripemd.
Module spec := ripemd160_spec.

(** ** The round functions and the rotation, modulo 2^32 *)

Lemma u32_testbit x n : 0 <= n -> Z.testbit (u32 x) n = (n <? 32) && Z.testbit x n.
Proof.
  intros Hn. unfold u32. destruct (Z.ltb_spec n 32).
  - by rewrite Z.mod_pow2_bits_low by lia.
  - by rewrite Z.mod_pow2_bits_high by lia.
Qed.

Ltac by_bits :=
  apply Z.bits_inj'; intros n Hn;
  repeat first
    [ rewrite u32_testbit by done | rewrite Z.lxor_spec | rewrite Z.lor_spec
    | rewrite Z.land_spec | rewrite Z.lnot_spec by done ];
  repeat match goal with |- context [Z.testbit ?x n] => destruct (Z.testbit x n) end;
  by destruct (n <? 32).

Lemma u32_wnot x : u32 (wnot x) = u32 (Z.lnot x).
Proof. apply u32_u64. Qed.

(** The index of a round function of the code in the specification. *)
Definition fn_index (g : fn) : nat :=
  match g with F => 0 | G => 1 | H => 2 | I => 3 | J => 4 end.

Lemma apply_fn_spec g x y z :
  u32 (apply_fn g x y z) = spec.f (fn_index g) (u32 x) (u32 y) (u32 z).
Proof.
  destruct g; cbn [apply_fn fn_index spec.f]; unfold spec.not32;
    rewrite ?u32_lxor, ?u32_lor, ?u32_land_r, ?u32_lxor, ?u32_lor, ?u32_wnot; by_bits.
Qed.

Lemma rotl_rol x s : 0 < s < 32 -> in_u32 x -> rotl x s = spec.rol s x.
Proof.
  intros Hs Hx. unfold rotl, spec.rol, in_u32 in *.
  rewrite Z.shiftl_mul_pow2, Z.shiftr_div_pow2 by lia. rewrite Z.lor_comm.
  assert (2 ^ 32 = 2 ^ (32 - s) * 2 ^ s) as E by (rewrite <- Z.pow_add_r by lia; f_equal; lia).
  assert (u32 (x * 2 ^ s) = Z.shiftl (x mod 2 ^ (32 - s)) s) as Hu.
  { unfold u32. rewrite E, Z.mul_mod_distr_r, Z.shiftl_mul_pow2 by lia. done. }
  rewrite Hu, lor_shiftl_add; [unfold u32 in Hu; rewrite Hu, Z.shiftl_mul_pow2 by lia; lia | lia|].
  split; [apply Z.div_pos; lia|]. apply Z.div_lt_upper_bound; lia.
Qed.

Lemma rol_range s x : 0 < s < 32 -> in_u32 x -> in_u32 (spec.rol s x).
Proof.
  intros Hs Hx. rewrite <- rotl_rol by done. unfold rotl.
  apply in_u32_lor; [apply u32_range | apply in_u32_shiftr; [lia | done]].
Qed.

(** ** The transcribed rounds are the tabulated ones *)

Definition line_base (right : bool) : nat := if right then 5 else 0.
Definition vars : list var := [a1; b1; c1; d1; e1; a2; b2; c2; d2; e2].
#[local] Instance var_inhabited : Inhabited var := populate a1.
#[local] Instance fn_inhabited : Inhabited fn := populate F.

(** The variable that plays role [k] (0 for a, ..., 4 for e) at step [i]. *)
Definition role (right : bool) (i k : nat) : nat := (line_base right + (k + 4 * (i mod 5)) mod 5)%nat.
Definition tabulated (right : bool) (i : nat) : subround :=
  let v k := vars !!! role right i k in
  Subround ([F; G; H; I; J] !!! spec.round_fn right i) (v 0%nat) (v 1%nat) (v 2%nat) (v 3%nat) (v 4%nat)
    (spec.index right i) (spec.shift right i) (spec.const right i).

Lemma rounds_tabulated :
  left_rounds = tabulated false <$> seq 0 80 /\ right_rounds = tabulated true <$> seq 0 80.
Proof. split; vm_compute; reflexivity. Qed.

Lemma tables_ok right i :
  (i < 80)%nat -> 0 < spec.shift right i < 32 /\
  fn_index ([F; G; H; I; J] !!! spec.round_fn right i) = spec.round_fn right i.
Proof.
  intros Hi.
  assert (forallb (fun i => bool_decide (0 < spec.shift right i < 32) &&
    Nat.eqb (fn_index ([F; G; H; I; J] !!! spec.round_fn right i)) (spec.round_fn right i))
    (seq 0 80) = true) as Hall by (destruct right; vm_compute; reflexivity).
  rewrite forallb_forall in Hall. specialize (Hall i). rewrite andb_true_iff in Hall.
  destruct Hall as [H1 H2]; [apply in_seq; lia|].
  by apply bool_decide_eq_true in H1; apply Nat.eqb_eq in H2.
Qed.

(** ** One line *)

(** At step [i] the roles hold the specification's variables modulo 2^32. *)
Definition holds (right : bool) (i : nat) (r : env) (v : spec.line_state) : Prop :=
  let '(A, B, C, D, E) := v in
  u32 (r !!! role right i 0) = A /\ u32 (r !!! role right i 1) = B /\
  u32 (r !!! role right i 2) = C /\ u32 (r !!! role right i 3) = D /\
  u32 (r !!! role right i 4) = E.

Lemma var_index_vars k : (k < 10)%nat -> var_index (vars !!! k) = k.
Proof. intros Hk. do 10 (destruct k as [|k]; [done|]). lia. Qed.

Lemma role_lt right i k : (role right i k < 10)%nat.
Proof.
  unfold role. pose proof (Nat.mod_upper_bound (k + 4 * (i mod 5)) 5).
  destruct right; simpl line_base; lia.
Qed.

Lemma role_next right i k : role right (S i) (S k) = role right i k.
Proof.
  unfold role. f_equal.
  rewrite <- Nat.Div0.add_mod_idemp_r, <- (Nat.Div0.add_mod_idemp_r k).
  rewrite !Nat.Div0.mul_mod_idemp_r, !Nat.Div0.add_mod_idemp_r.
  replace (S k + 4 * S i)%nat with (k + 4 * i + 1 * 5)%nat by lia. apply Nat.Div0.mod_add.
Qed.
Lemma role_first right i : role right (S i) 0 = role right i 4.
Proof.
  rewrite <- (role_next right (S i)). unfold role. f_equal.
  rewrite <- (Nat.Div0.add_mod_idemp_r 1), <- (Nat.Div0.add_mod_idemp_r 4).
  rewrite !Nat.Div0.mul_mod_idemp_r, !Nat.Div0.add_mod_idemp_r.
  replace (1 + 4 * S (S i))%nat with (4 + 4 * i + 1 * 5)%nat by lia. apply Nat.Div0.mod_add.
Qed.

Lemma role_inj right i j k : (j < 5)%nat -> (k < 5)%nat -> role right i j = role right i k -> j = k.
Proof.
  unfold role. intros Hj Hk E. apply Nat.add_cancel_l in E.
  assert (i mod 5 < 5)%nat as Hp by (by apply Nat.mod_upper_bound).
  set (p := (i mod 5)%nat) in *. clearbody p.
  do 5 (destruct p as [|p]; [do 5 (destruct j as [|j]; [do 5 (destruct k as [|k]; [done|]); lia|]); lia|]). lia.
Qed.

Lemma get_role right i k (r : env) :
  (k < 5)%nat -> get (vars !!! role right i k) r = r !!! role right i k.
Proof. intros _. unfold get. by rewrite var_index_vars by apply role_lt. Qed.
Lemma set_role right i k x (r : env) : set (vars !!! role right i k) x r = <[role right i k := x]> r.
Proof. unfold set. by rewrite var_index_vars by apply role_lt. Qed.

(** The result of the transcribed macro, with the two assignments to [a] merged. *)
Definition macro_a (right : bool) (i : nat) (X r : list Z) : Z :=
  let g := [F; G; H; I; J] !!! spec.round_fn right i in
  let a := u64 (r !!! role right i 0
    + u64 (u64 (apply_fn g (r !!! role right i 1) (r !!! role right i 2) (r !!! role right i 3)
                + X !!! spec.index right i) + spec.const right i)) in
  u64 (rotl (u32 a) (spec.shift right i) + r !!! role right i 4).

Lemma run_tabulated right i X (r : env) :
  length r = 10%nat ->
  run_subround X r (tabulated right i)
  = <[role right i 2 := rotl (u32 (r !!! role right i 2)) 10]>
      (<[role right i 0 := macro_a right i X r]> r).
Proof.
  intros Hr. unfold tabulated, run_subround. cbv zeta.
  rewrite !set_role, !get_role by lia.
  assert (forall k, (role right i k < length r)%nat) as Hlt by (intros; rewrite Hr; apply role_lt).
  assert (role right i 0 <> role right i 4 /\ role right i 0 <> role right i 2) as [H4 H2].
  { split; intros E; apply role_inj in E; lia. }
  rewrite list_insert_insert_eq. rewrite !list_lookup_total_insert_eq by apply Hlt.
  rewrite !list_lookup_total_insert_ne by done. done.
Qed.

Lemma macro_a_spec right i X r A B C D E :
  (i < 80)%nat -> holds right i r (A, B, C, D, E) ->
  u32 (macro_a right i X r)
  = u32 (spec.rol (spec.shift right i)
           (u32 (A + spec.f (spec.round_fn right i) B C D + X !!! spec.index right i
                 + spec.const right i)) + E).
Proof.
  intros Hi (HA & HB & HC & HD & HE). destruct (tables_ok right i Hi) as [Hs Hf].
  unfold macro_a. cbv zeta. rewrite u32_u64, <- u32_add_r, HE.
  rewrite rotl_rol by (apply u32_range || done). rewrite u32_u64, u32_add_u64_r, Z.add_assoc.
  apply (f_equal (fun v => u32 (spec.rol (spec.shift right i) v + E))). 
  set (g := apply_fn _ _ _ _). set (x := X !!! _). set (k := spec.const right i).
  rewrite <- HA, <- HB, <- HC, <- HD, <- Hf, <- apply_fn_spec. fold g.
  set (a := r !!! role right i 0).
  replace (a + u64 (g + x) + k) with (a + k + u64 (g + x)) by lia. rewrite u32_add_u64_r.
  replace (u32 a + u32 g + x + k) with (u32 a + (u32 g + (x + k))) by lia. rewrite u32_add_l.
  replace (a + (u32 g + (x + k))) with (u32 g + (a + x + k)) by lia. rewrite u32_add_l.
  apply (f_equal u32). lia.
Qed.

Lemma run_tabulated_length right i X r :
  length r = 10%nat -> length (run_subround X r (tabulated right i)) = 10%nat.
Proof. intros Hr. rewrite run_tabulated by done. by rewrite !length_insert. Qed.

Lemma holds_step right i X r v :
  (i < 80)%nat -> length r = 10%nat -> holds right i r v ->
  holds right (S i) (run_subround X r (tabulated right i)) (spec.step right X v i).
Proof.
  intros Hi Hr Hh. destruct v as [[[[A B] C] D] E].
  pose proof (macro_a_spec right i X r A B C D E Hi Hh) as Hm.
  destruct Hh as (HA & HB & HC & HD & HE).
  assert (forall k, (role right i k < length r)%nat) as Hlt by (intros; rewrite Hr; apply role_lt).
  assert (forall j k, (j < 5)%nat -> (k < 5)%nat -> j <> k -> role right i j <> role right i k) as Hne
    by (intros j k Hj Hk Hjk E'; by apply Hjk, (role_inj right i)).
  rewrite run_tabulated by done. unfold spec.step, holds.
  rewrite role_first, !role_next.
  rewrite (list_lookup_total_insert_eq _ (role right i 2)) by (rewrite length_insert; apply Hlt).
  rewrite !(list_lookup_total_insert_ne _ (role right i 2)) by (apply Hne; lia).
  rewrite (list_lookup_total_insert_eq _ (role right i 0)) by apply Hlt.
  rewrite !(list_lookup_total_insert_ne _ (role right i 0)) by (apply Hne; lia).
  split_and!; [done | done | done | | done].
  rewrite HC, rotl_rol by (done || (rewrite <- HC; apply u32_range)).
  apply u32_id, rol_range; [done|]. rewrite <- HC. apply u32_range.
Qed.

(** A line does not touch the other line's variables. *)
Lemma run_other right i X r n :
  length r = 10%nat -> (forall k, (k < 5)%nat -> n <> role right i k) ->
  run_subround X r (tabulated right i) !!! n = r !!! n.
Proof.
  intros Hr Hn. rewrite run_tabulated by done.
  rewrite !list_lookup_total_insert_ne; [done | |];
    apply not_eq_sym, Hn; lia.
Qed.

(** A run of steps of one line, from step [i] to step [i + m]: it computes the line and
    does not touch the other line's variables. *)
Lemma line_holds_from right X r v i m :
  (i + m <= 80)%nat -> length r = 10%nat -> holds right i r v ->
  let r' := fold_left (run_subround X) (tabulated right <$> seq i m) r in
  length r' = 10%nat /\ holds right (i + m) r' (fold_left (spec.step right X) (seq i m) v) /\
  (forall k, (k < 5)%nat -> r' !!! (line_base (negb right) + k)%nat = r !!! (line_base (negb right) + k)%nat).
Proof.
  intros Hn Hr Hh. induction m as [|m IH]; [by rewrite Nat.add_0_r|].
  destruct IH as (IH1 & IH2 & IH3); [lia|]. cbv zeta.
  rewrite seq_S, fmap_app, !fold_left_app, Nat.add_succ_r. cbn [fmap list_fmap fold_left]. cbv zeta in *.
  split_and!; [by apply run_tabulated_length | apply holds_step; [lia | done..] |].
  intros k Hk. rewrite run_other; [by apply IH3 | done|].
  intros j _. unfold role. pose proof (Nat.mod_upper_bound (j + 4 * ((i + m) mod 5)) 5 ltac:(lia)).
  destruct right; cbn [line_base negb]; lia.
Qed.

Definition run_line (right : bool) (X r : list Z) : env :=
  fold_left (run_subround X) (tabulated right <$> seq 0 80) r.
Lemma run_left X r : run_rounds X left_rounds r = run_line false X r.
Proof. unfold run_rounds, run_line. by rewrite (proj1 rounds_tabulated). Qed.
Lemma run_right X r : run_rounds X right_rounds r = run_line true X r.
Proof. unfold run_rounds, run_line. by rewrite (proj2 rounds_tabulated). Qed.
Lemma line_holds_all right X r v :
  length r = 10%nat -> holds right 0 r v ->
  length (run_line right X r) = 10%nat /\
  holds right 80 (run_line right X r) (spec.line right X v) /\
  (forall k, (k < 5)%nat ->
     run_line right X r !!! (line_base (negb right) + k)%nat = r !!! (line_base (negb right) + k)%nat).
Proof. intros Hr Hh. exact (line_holds_from right X r v 0 80 (le_n 80) Hr Hh). Qed.

Lemma holds_start right h0 h1 h2 h3 h4 r :
  Forall in_u32 [h0; h1; h2; h3; h4] ->
  (forall k, (k < 5)%nat -> r !!! (line_base right + k)%nat = [h0; h1; h2; h3; h4] !!! k) ->
  holds right 0 r (h0, h1, h2, h3, h4).
Proof.
  rewrite !Forall_cons. intros (W0 & W1 & W2 & W3 & W4 & _) Hr. unfold holds, role.
  change ((0 + 4 * (0 mod 5)) mod 5)%nat with 0%nat.
  change ((1 + 4 * (0 mod 5)) mod 5)%nat with 1%nat.
  change ((2 + 4 * (0 mod 5)) mod 5)%nat with 2%nat.
  change ((3 + 4 * (0 mod 5)) mod 5)%nat with 3%nat.
  change ((4 + 4 * (0 mod 5)) mod 5)%nat with 4%nat.
  rewrite !Hr by lia.
  split_and!; by apply u32_id.
Qed.

Lemma u32_add3 a b c : u32 (a + u32 b + u32 c) = u32 (a + b + c).
Proof.
  rewrite u32_add_r, <- Z.add_assoc, (Z.add_comm (u32 b)), Z.add_assoc, u32_add_r.
  f_equal. lia.
Qed.

(** [Transform] is the specification's compression function. *)
Lemma Transform_compress h X :
  length h = 5%nat -> Forall in_u32 h -> Transform h X = spec.compress h X.
Proof.
  intros Hl Hw. destruct h as [|h0 [|h1 [|h2 [|h3 [|h4 [|]]]]]]; try discriminate.
  unfold Transform, spec.compress. rewrite run_left, run_right.
  destruct (line_holds_all false X ([h0; h1; h2; h3; h4] ++ [h0; h1; h2; h3; h4]) (h0, h1, h2, h3, h4))
    as (L1 & HL & K1); [done | apply holds_start; [done|] |].
  { intros k Hk. do 5 (destruct k as [|k]; [done|]). lia. }
  set (r1 := run_line false X _) in *.
  destruct (line_holds_all true X r1 (h0, h1, h2, h3, h4))
    as (L2 & HR & K2); [done | apply holds_start; [done|] |].
  { intros k Hk. etransitivity; [exact (K1 k Hk)|]. do 5 (destruct k as [|k]; [done|]). lia. }
  set (r2 := run_line true X r1) in *. clearbody r1 r2.
  destruct (spec.line false X _) as [[[[A B] C] D] E].
  destruct (spec.line true X _) as [[[[A' B'] C'] D'] E'].
  destruct HL as (<- & <- & <- & <- & <-). destruct HR as (<- & <- & <- & <- & <-).
  pose proof (fun k Hk => eq_sym (K2 k Hk)) as K2'. simpl line_base in K2'.
  destruct r2 as [|x0 [|x1 [|x2 [|x3 [|x4 [|y0 [|y1 [|y2 [|y3 [|y4 [|]]]]]]]]]]]; try discriminate.
  pose proof (K2' 0%nat ltac:(lia)) as E0. pose proof (K2' 1%nat ltac:(lia)) as E1.
  pose proof (K2' 2%nat ltac:(lia)) as E2. pose proof (K2' 3%nat ltac:(lia)) as E3.
  pose proof (K2' 4%nat ltac:(lia)) as E4. simpl in E0, E1, E2, E3, E4.
  change (role false 80 0) with 0%nat. change (role false 80 1) with 1%nat.
  change (role false 80 2) with 2%nat. change (role false 80 3) with 3%nat.
  change (role false 80 4) with 4%nat. change (role true 80 0) with 5%nat.
  change (role true 80 1) with 6%nat. change (role true 80 2) with 7%nat.
  change (role true 80 3) with 8%nat. change (role true 80 4) with 9%nat.
  rewrite <- E0, <- E1, <- E2, <- E3, <- E4. unfold combine, set, get.
  cbn [var_index insert list_insert list_lookup_total lookup_total].
  by rewrite !u32_u64, !u32_add3.
Qed.

(** ** The digest *)

#[export] Instance ripemd160_laws : TransformLaws RIPEMD160 5 spec.compress.
Proof.
  split.
  - split; [done|]. by repeat constructor.
  - intros h X Hl _. destruct h as [|h0 [|h1 [|h2 [|h3 [|h4 [|]]]]]]; try discriminate.
    unfold spec.compress. destruct (spec.line false X _) as [[[[A B] C] D] E].
    destruct (spec.line true X _) as [[[[A' B'] C'] D'] E'].
    split; [done|]. repeat constructor; apply u32_range.
  - apply Transform_compress.
  - done.
Qed.

Lemma RIPEMD160_length M : length (spec.RIPEMD160 M) = 20%nat.
Proof. apply (digest_length (T := RIPEMD160)). Qed.
Lemma RIPEMD160_ok M : bytes_ok (spec.RIPEMD160 M).
Proof. apply (digest_bytes (T := RIPEMD160)). Qed.
