(* ===== verification/Ripemd320.v ===== *)
(** RIPEMD-320 of cryptopp/ripemd.cpp: the two lines of RIPEMD-160 with a variable
    exchanged between them after each round, and a digest of both lines. *)
From S2P Require Import Prelude.
From S2P Require Import Blocks.
From S2P Require Import Iterhash.
From S2P Require Import Ripemd160.

Module ripemd320.
Import ripemd.

Definition InitState : list Z :=
  [0x67452301; 0xefcdab89; 0x98badcfe; 0x10325476; 0xc3d2e1f0;
   0x76543210; 0xfedcba98; 0x89abcdef; 0x01234567; 0x3c2d1e0f].

(** The body of [RIPEMD320::Transform], one line per line of the source. *)
Definition round1 : list subround :=
  [
   Subround F a1 b1 c1 d1 e1 0 11 k0;
   Subround F e1 a1 b1 c1 d1 1 14 k0;
   Subround F d1 e1 a1 b1 c1 2 15 k0;
   Subround F c1 d1 e1 a1 b1 3 12 k0;
   Subround F b1 c1 d1 e1 a1 4 5 k0;
   Subround F a1 b1 c1 d1 e1 5 8 k0;
   Subround F e1 a1 b1 c1 d1 6 7 k0;
   Subround F d1 e1 a1 b1 c1 7 9 k0;
   Subround F c1 d1 e1 a1 b1 8 11 k0;
   Subround F b1 c1 d1 e1 a1 9 13 k0;
   Subround F a1 b1 c1 d1 e1 10 14 k0;
   Subround F e1 a1 b1 c1 d1 11 15 k0;
   Subround F d1 e1 a1 b1 c1 12 6 k0;
   Subround F c1 d1 e1 a1 b1 13 7 k0;
   Subround F b1 c1 d1 e1 a1 14 9 k0;
   Subround F a1 b1 c1 d1 e1 15 8 k0;
   Subround J a2 b2 c2 d2 e2 5 8 k5;
   Subround J e2 a2 b2 c2 d2 14 9 k5;
   Subround J d2 e2 a2 b2 c2 7 9 k5;
   Subround J c2 d2 e2 a2 b2 0 11 k5;
   Subround J b2 c2 d2 e2 a2 9 13 k5;
   Subround J a2 b2 c2 d2 e2 2 15 k5;
   Subround J e2 a2 b2 c2 d2 11 15 k5;
   Subround J d2 e2 a2 b2 c2 4 5 k5;
   Subround J c2 d2 e2 a2 b2 13 7 k5;
   Subround J b2 c2 d2 e2 a2 6 7 k5;
   Subround J a2 b2 c2 d2 e2 15 8 k5;
   Subround J e2 a2 b2 c2 d2 8 11 k5;
   Subround J d2 e2 a2 b2 c2 1 14 k5;
   Subround J c2 d2 e2 a2 b2 10 14 k5;
   Subround J b2 c2 d2 e2 a2 3 12 k5;
   Subround J a2 b2 c2 d2 e2 12 6 k5
  ].
Definition round2 : list subround :=
  [
   Subround G e1 a1 b1 c1 d1 7 7 k1;
   Subround G d1 e1 a1 b1 c1 4 6 k1;
   Subround G c1 d1 e1 a1 b1 13 8 k1;
   Subround G b1 c1 d1 e1 a1 1 13 k1;
   Subround G a1 b1 c1 d1 e1 10 11 k1;
   Subround G e1 a1 b1 c1 d1 6 9 k1;
   Subround G d1 e1 a1 b1 c1 15 7 k1;
   Subround G c1 d1 e1 a1 b1 3 15 k1;
   Subround G b1 c1 d1 e1 a1 12 7 k1;
   Subround G a1 b1 c1 d1 e1 0 12 k1;
   Subround G e1 a1 b1 c1 d1 9 15 k1;
   Subround G d1 e1 a1 b1 c1 5 9 k1;
   Subround G c1 d1 e1 a1 b1 2 11 k1;
   Subround G b1 c1 d1 e1 a1 14 7 k1;
   Subround G a1 b1 c1 d1 e1 11 13 k1;
   Subround G e1 a1 b1 c1 d1 8 12 k1;
   Subround I e2 a2 b2 c2 d2 6 9 k6;
   Subround I d2 e2 a2 b2 c2 11 13 k6;
   Subround I c2 d2 e2 a2 b2 3 15 k6;
   Subround I b2 c2 d2 e2 a2 7 7 k6;
   Subround I a2 b2 c2 d2 e2 0 12 k6;
   Subround I e2 a2 b2 c2 d2 13 8 k6;
   Subround I d2 e2 a2 b2 c2 5 9 k6;
   Subround I c2 d2 e2 a2 b2 10 11 k6;
   Subround I b2 c2 d2 e2 a2 14 7 k6;
   Subround I a2 b2 c2 d2 e2 15 7 k6;
   Subround I e2 a2 b2 c2 d2 8 12 k6;
   Subround I d2 e2 a2 b2 c2 12 7 k6;
   Subround I c2 d2 e2 a2 b2 4 6 k6;
   Subround I b2 c2 d2 e2 a2 9 15 k6;
   Subround I a2 b2 c2 d2 e2 1 13 k6;
   Subround I e2 a2 b2 c2 d2 2 11 k6
  ].
Definition round3 : list subround :=
  [
   Subround H d1 e1 a1 b1 c1 3 11 k2;
   Subround H c1 d1 e1 a1 b1 10 13 k2;
   Subround H b1 c1 d1 e1 a1 14 6 k2;
   Subround H a1 b1 c1 d1 e1 4 7 k2;
   Subround H e1 a1 b1 c1 d1 9 14 k2;
   Subround H d1 e1 a1 b1 c1 15 9 k2;
   Subround H c1 d1 e1 a1 b1 8 13 k2;
   Subround H b1 c1 d1 e1 a1 1 15 k2;
   Subround H a1 b1 c1 d1 e1 2 14 k2;
   Subround H e1 a1 b1 c1 d1 7 8 k2;
   Subround H d1 e1 a1 b1 c1 0 13 k2;
   Subround H c1 d1 e1 a1 b1 6 6 k2;
   Subround H b1 c1 d1 e1 a1 13 5 k2;
   Subround H a1 b1 c1 d1 e1 11 12 k2;
   Subround H e1 a1 b1 c1 d1 5 7 k2;
   Subround H d1 e1 a1 b1 c1 12 5 k2;
   Subround H d2 e2 a2 b2 c2 15 9 k7;
   Subround H c2 d2 e2 a2 b2 5 7 k7;
   Subround H b2 c2 d2 e2 a2 1 15 k7;
   Subround H a2 b2 c2 d2 e2 3 11 k7;
   Subround H e2 a2 b2 c2 d2 7 8 k7;
   Subround H d2 e2 a2 b2 c2 14 6 k7;
   Subround H c2 d2 e2 a2 b2 6 6 k7;
   Subround H b2 c2 d2 e2 a2 9 14 k7;
   Subround H a2 b2 c2 d2 e2 11 12 k7;
   Subround H e2 a2 b2 c2 d2 8 13 k7;
   Subround H d2 e2 a2 b2 c2 12 5 k7;
   Subround H c2 d2 e2 a2 b2 2 14 k7;
   Subround H b2 c2 d2 e2 a2 10 13 k7;
   Subround H a2 b2 c2 d2 e2 0 13 k7;
   Subround H e2 a2 b2 c2 d2 4 7 k7;
   Subround H d2 e2 a2 b2 c2 13 5 k7
  ].
Definition round4 : list subround :=
  [
   Subround I c1 d1 e1 a1 b1 1 11 k3;
   Subround I b1 c1 d1 e1 a1 9 12 k3;
   Subround I a1 b1 c1 d1 e1 11 14 k3;
   Subround I e1 a1 b1 c1 d1 10 15 k3;
   Subround I d1 e1 a1 b1 c1 0 14 k3;
   Subround I c1 d1 e1 a1 b1 8 15 k3;
   Subround I b1 c1 d1 e1 a1 12 9 k3;
   Subround I a1 b1 c1 d1 e1 4 8 k3;
   Subround I e1 a1 b1 c1 d1 13 9 k3;
   Subround I d1 e1 a1 b1 c1 3 14 k3;
   Subround I c1 d1 e1 a1 b1 7 5 k3;
   Subround I b1 c1 d1 e1 a1 15 6 k3;
   Subround I a1 b1 c1 d1 e1 14 8 k3;
   Subround I e1 a1 b1 c1 d1 5 6 k3;
   Subround I d1 e1 a1 b1 c1 6 5 k3;
   Subround I c1 d1 e1 a1 b1 2 12 k3;
   Subround G c2 d2 e2 a2 b2 8 15 k8;
   Subround G b2 c2 d2 e2 a2 6 5 k8;
   Subround G a2 b2 c2 d2 e2 4 8 k8;
   Subround G e2 a2 b2 c2 d2 1 11 k8;
   Subround G d2 e2 a2 b2 c2 3 14 k8;
   Subround G c2 d2 e2 a2 b2 11 14 k8;
   Subround G b2 c2 d2 e2 a2 15 6 k8;
   Subround G a2 b2 c2 d2 e2 0 14 k8;
   Subround G e2 a2 b2 c2 d2 5 6 k8;
   Subround G d2 e2 a2 b2 c2 12 9 k8;
   Subround G c2 d2 e2 a2 b2 2 12 k8;
   Subround G b2 c2 d2 e2 a2 13 9 k8;
   Subround G a2 b2 c2 d2 e2 9 12 k8;
   Subround G e2 a2 b2 c2 d2 7 5 k8;
   Subround G d2 e2 a2 b2 c2 10 15 k8;
   Subround G c2 d2 e2 a2 b2 14 8 k8
  ].
Definition round5 : list subround :=
  [
   Subround J b1 c1 d1 e1 a1 4 9 k4;
   Subround J a1 b1 c1 d1 e1 0 15 k4;
   Subround J e1 a1 b1 c1 d1 5 5 k4;
   Subround J d1 e1 a1 b1 c1 9 11 k4;
   Subround J c1 d1 e1 a1 b1 7 6 k4;
   Subround J b1 c1 d1 e1 a1 12 8 k4;
   Subround J a1 b1 c1 d1 e1 2 13 k4;
   Subround J e1 a1 b1 c1 d1 10 12 k4;
   Subround J d1 e1 a1 b1 c1 14 5 k4;
   Subround J c1 d1 e1 a1 b1 1 12 k4;
   Subround J b1 c1 d1 e1 a1 3 13 k4;
   Subround J a1 b1 c1 d1 e1 8 14 k4;
   Subround J e1 a1 b1 c1 d1 11 11 k4;
   Subround J d1 e1 a1 b1 c1 6 8 k4;
   Subround J c1 d1 e1 a1 b1 15 5 k4;
   Subround J b1 c1 d1 e1 a1 13 6 k4;
   Subround F b2 c2 d2 e2 a2 12 8 k9;
   Subround F a2 b2 c2 d2 e2 15 5 k9;
   Subround F e2 a2 b2 c2 d2 10 12 k9;
   Subround F d2 e2 a2 b2 c2 4 9 k9;
   Subround F c2 d2 e2 a2 b2 1 12 k9;
   Subround F b2 c2 d2 e2 a2 5 5 k9;
   Subround F a2 b2 c2 d2 e2 8 14 k9;
   Subround F e2 a2 b2 c2 d2 7 6 k9;
   Subround F d2 e2 a2 b2 c2 6 8 k9;
   Subround F c2 d2 e2 a2 b2 2 13 k9;
   Subround F b2 c2 d2 e2 a2 13 6 k9;
   Subround F a2 b2 c2 d2 e2 14 5 k9;
   Subround F e2 a2 b2 c2 d2 0 15 k9;
   Subround F d2 e2 a2 b2 c2 3 13 k9;
   Subround F c2 d2 e2 a2 b2 9 11 k9;
   Subround F b2 c2 d2 e2 a2 11 11 k9
  ].

(** [t = x; x = y; y = t;] *)
Definition swap (x y : var) (r : env) : env :=
  let t := get x r in
  let r := set x (get y r) r in
  set y t r.

(** The working variables start as the digest, and are added to it in the end. *)
Definition Transform (digest X : list Z) : list Z :=
  let r := digest in
  let r := swap a1 a2 (run_rounds X round1 r) in
  let r := swap b1 b2 (run_rounds X round2 r) in
  let r := swap c1 c2 (run_rounds X round3 r) in
  let r := swap d1 d2 (run_rounds X round4 r) in
  let r := swap e1 e2 (run_rounds X round5 r) in
  zip_with (fun d v => u32 (u64 (d + v))) digest r.
Definition RIPEMD320 : StaticTransform := mkStaticTransform InitState Transform 40.

End ripemd320.

(** ** The specification: the steps of RIPEMD-160, with [B], [D], [A], [C] and [E]
    exchanged between the lines after rounds 1 to 5. *)
Module ripemd320_spec.
Import ripemd160_spec.

Definition exchange (k : nat) (p : line_state * line_state) : line_state * line_state :=
  let '((A, B, C, D, E), (A', B', C', D', E')) := p in
  match k with
  | 0%nat => ((A', B, C, D, E), (A, B', C', D', E'))
  | 1%nat => ((A, B', C, D, E), (A', B, C', D', E'))
  | 2%nat => ((A, B, C', D, E), (A', B', C, D', E'))
  | 3%nat => ((A, B, C, D', E), (A', B', C', D, E'))
  | _ => ((A, B, C, D, E'), (A', B', C', D', E))
  end.
Definition exchanged : list nat := [1; 3; 0; 2; 4]%nat.

Definition round (X : list Z) (p : line_state * line_state) (j : nat) : line_state * line_state :=
  exchange (exchanged !!! j)
    (fold_left (step false X) (seq (16 * j) 16) (fst p),
     fold_left (step true X) (seq (16 * j) 16) (snd p)).

Definition add (h : list Z) (p : line_state * line_state) : list Z :=
  let '((A, B, C, D, E), (A', B', C', D', E')) := p in
  zip_with (fun x y => u32 (x + y)) h [A; B; C; D; E; A'; B'; C'; D'; E'].
Definition compress (h X : list Z) : list Z :=
  match h with
  | [h0; h1; h2; h3; h4; h5; h6; h7; h8; h9] =>
      add h (fold_left (round X) (seq 0 5) ((h0, h1, h2, h3, h4), (h5, h6, h7, h8, h9)))
  | _ => h
  end.

Definition H0 : list Z :=
  [0x67452301; 0xefcdab89; 0x98badcfe; 0x10325476; 0xc3d2e1f0;
   0x76543210; 0xfedcba98; 0x89abcdef; 0x01234567; 0x3c2d1e0f].
Definition RIPEMD320 : bytes -> bytes := merkle_damgard.digest H0 compress.

End ripemd320_spec.

Import ripemd.
Module spec320 := ripemd320_spec.

(** ** The transcribed rounds *)

Definition rounds (j : nat) : list subround :=
  [ripemd320.round1; ripemd320.round2; ripemd320.round3; ripemd320.round4; ripemd320.round5] !!! j.

Lemma rounds_tabulated320 j :
  (j < 5)%nat ->
  rounds j = (tabulated false <$> seq (16 * j) 16) ++ (tabulated true <$> seq (16 * j) 16).
Proof. intros Hj. do 5 (destruct j as [|j]; [vm_compute; reflexivity|]). lia. Qed.

(** Both lines hold the specification's variables before step [i]. *)
Definition both (i : nat) (r : env) (p : spec.line_state * spec.line_state) : Prop :=
  length r = 10%nat /\ holds false i r (fst p) /\ holds true i r (snd p).

Lemma role_base right i k : exists m, (m < 5)%nat /\ role right i k = (line_base right + m)%nat.
Proof. exists ((k + 4 * (i mod 5)) mod 5)%nat. split; [by apply Nat.mod_upper_bound | done]. Qed.

Lemma holds_same right i r r' v :
  (forall k, (k < 5)%nat -> r' !!! (line_base right + k)%nat = r !!! (line_base right + k)%nat) ->
  holds right i r v -> holds right i r' v.
Proof.
  intros Hk. destruct v as [[[[A B] C] D] E]. unfold holds.
  assert (forall k, r' !!! role right i k = r !!! role right i k) as Hr.
  { intros k. destruct (role_base right i k) as (m & Hm & ->). by apply Hk. }
  by rewrite !Hr.
Qed.

Lemma both_rounds X r p j :
  (j < 5)%nat -> both (16 * j) r p ->
  both (16 * S j) (run_rounds X (rounds j) r)
    (fold_left (spec.step false X) (seq (16 * j) 16) (fst p),
     fold_left (spec.step true X) (seq (16 * j) 16) (snd p)).
Proof.
  intros Hj (Hl & HL & HR). rewrite rounds_tabulated320 by done.
  unfold run_rounds. rewrite fold_left_app.
  destruct (line_holds_from false X r (fst p) (16 * j) 16) as (L1 & HL1 & K1); [lia | done | done|].
  set (r1 := fold_left (run_subround X) (tabulated false <$> _) r) in *.
  apply (holds_same true _ _ r1) in HR; [|exact K1].
  destruct (line_holds_from true X r1 (snd p) (16 * j) 16) as (L2 & HR2 & K2); [lia | done | done|].
  replace (16 * S j)%nat with (16 * j + 16)%nat by lia. split; [done|]. split; [|done].
  eapply holds_same; [|exact HL1]. exact K2.
Qed.

(** The variables with index [m] play the same role in both lines. *)
Lemma both_swap i r p x y m k :
  var_index x = m -> var_index y = (5 + m)%nat -> (k < 5)%nat -> role false i k = m ->
  both i r p -> both i (ripemd320.swap x y r) (spec320.exchange k p).
Proof.
  intros Hx Hy Hk Hm (Hl & HL & HR).
  assert (forall j, role true i j = 5 + role false i j)%nat as Ht by (intros j; unfold role; simpl; lia).
  assert (forall j, (role false i j < 5)%nat) as Hlt by (intros j; by apply Nat.mod_upper_bound).
  assert (forall j, (j < 5)%nat -> j <> k -> role false i j <> m) as Hne.
  { intros j Hj Hjk E. apply Hjk. apply (role_inj false i); [done | done | by rewrite Hm]. }
  set (r' := ripemd320.swap x y r).
  assert (length r' = 10%nat) as Hl'.
  { unfold r', ripemd320.swap, set. by rewrite !length_insert. }
  assert (m < 5)%nat as Hm5 by (rewrite <- Hm; apply Hlt).
  assert (forall q, q <> m -> q <> (5 + m)%nat -> r' !!! q = r !!! q) as Hq.
  { intros q Hq1 Hq2. unfold r', ripemd320.swap, set. rewrite Hx, Hy.
    by rewrite !list_lookup_total_insert_ne by done. }
  assert (r' !!! m = r !!! (5 + m)%nat) as E1.
  { unfold r', ripemd320.swap, set, get. rewrite Hx, Hy.
    rewrite list_lookup_total_insert_ne by lia. by rewrite list_lookup_total_insert_eq by lia. }
  assert (r' !!! (5 + m)%nat = r !!! m) as E2.
  { unfold r', ripemd320.swap, set, get. rewrite Hx, Hy.
    by rewrite list_lookup_total_insert_eq by (rewrite length_insert; lia). }
  assert (forall j, (j < 5)%nat -> j <> k -> r' !!! role false i j = r !!! role false i j /\
            r' !!! role true i j = r !!! role true i j) as Hj.
  { intros j Hj5 Hjk. pose proof (Hne j Hj5 Hjk). pose proof (Hlt j). rewrite Ht.
    split; apply Hq; lia. }
  assert (r' !!! role false i k = r !!! role true i k) as F1 by (by rewrite Ht, Hm).
  assert (r' !!! role true i k = r !!! role false i k) as F2 by (by rewrite Ht, Hm).
  destruct p as [[[[[A B] C] D] E] [[[[A' B'] C'] D'] E']]. cbn [fst snd] in HL, HR.
  unfold holds in HL, HR. split; [done|].
  destruct HL as (HA & HB & HC & HD & HE), HR as (HA' & HB' & HC' & HD' & HE').
  do 5 (destruct k as [|k];
    [unfold spec320.exchange, fst, snd, holds;
     repeat match goal with |- context [r' !!! role _ i ?j] =>
       first [rewrite F1 | rewrite F2 | rewrite (proj1 (Hj j ltac:(lia) ltac:(lia)))
             | rewrite (proj2 (Hj j ltac:(lia) ltac:(lia)))] end; split_and!; done|]).
  lia.
Qed.

Lemma both_round X r p j x y m :
  (j < 5)%nat -> var_index x = m -> var_index y = (5 + m)%nat ->
  role false (16 * S j) (spec320.exchanged !!! j) = m ->
  both (16 * j) r p ->
  both (16 * S j) (ripemd320.swap x y (run_rounds X (rounds j) r)) (spec320.round X p j).
Proof.
  intros Hj Hx Hy Hm Hb. unfold spec320.round. eapply both_swap; [done | done | | done|].
  - do 5 (destruct j as [|j]; [vm_compute; lia|]). lia.
  - by apply both_rounds.
Qed.

Lemma Transform320_compress h X :
  length h = 10%nat -> Forall in_u32 h -> ripemd320.Transform h X = spec320.compress h X.
Proof.
  intros Hl Hw.
  destruct h as [|h0 [|h1 [|h2 [|h3 [|h4 [|h5 [|h6 [|h7 [|h8 [|h9 [|]]]]]]]]]]]; try discriminate.
  set (h := [h0; h1; h2; h3; h4; h5; h6; h7; h8; h9]).
  assert (both (16 * 0) h ((h0, h1, h2, h3, h4), (h5, h6, h7, h8, h9))) as B0.
  { repeat (apply Forall_cons in Hw as [? Hw]).
    split; [done|]. split; split_and!; apply u32_id; done. }
  unfold ripemd320.Transform.
  change (spec320.compress h X) with (spec320.add h (fold_left (spec320.round X) (seq 0 5)
    ((h0, h1, h2, h3, h4), (h5, h6, h7, h8, h9)))).
  apply (both_round X _ _ 0 a1 a2 0) in B0; [|lia | done..].
  apply (both_round X _ _ 1 b1 b2 1) in B0; [|lia | done..].
  apply (both_round X _ _ 2 c1 c2 2) in B0; [|lia | done..].
  apply (both_round X _ _ 3 d1 d2 3) in B0; [|lia | done..].
  apply (both_round X _ _ 4 e1 e2 4) in B0; [|lia | done..].
  change (rounds 0) with ripemd320.round1 in B0. change (rounds 1) with ripemd320.round2 in B0.
  change (rounds 2) with ripemd320.round3 in B0. change (rounds 3) with ripemd320.round4 in B0.
  change (rounds 4) with ripemd320.round5 in B0. cbv zeta.
  set (r := ripemd320.swap e1 e2 _) in *. 
  cbn [fold_left seq]. set (q := spec320.round X _ 4) in *. clearbody r q.
  destruct q as [[[[[A B] C] D] E] [[[[A' B'] C'] D'] E']]. destruct B0 as (Lr & HL & HR).
  cbn [fst snd] in HL, HR. unfold holds in HL, HR.
  destruct HL as (<- & <- & <- & <- & <-), HR as (<- & <- & <- & <- & <-).
  destruct r as [|x0 [|x1 [|x2 [|x3 [|x4 [|y0 [|y1 [|y2 [|y3 [|y4 [|]]]]]]]]]]]; try discriminate.
  change (role false (16 * 5) 0) with 0%nat. change (role false (16 * 5) 1) with 1%nat.
  change (role false (16 * 5) 2) with 2%nat. change (role false (16 * 5) 3) with 3%nat.
  change (role false (16 * 5) 4) with 4%nat. change (role true (16 * 5) 0) with 5%nat.
  change (role true (16 * 5) 1) with 6%nat. change (role true (16 * 5) 2) with 7%nat.
  change (role true (16 * 5) 3) with 8%nat. change (role true (16 * 5) 4) with 9%nat.
  unfold h, spec320.add. cbn [zip_with list_lookup_total lookup_total]. by rewrite !u32_u64, !u32_add_r.
Qed.

#[export] Instance ripemd320_laws : TransformLaws ripemd320.RIPEMD320 10 spec320.compress.
Proof.
  split.
  - split; [done|]. by repeat constructor.
  - intros h X Hl _.
    destruct h as [|h0 [|h1 [|h2 [|h3 [|h4 [|h5 [|h6 [|h7 [|h8 [|h9 [|]]]]]]]]]]]; try discriminate.
    unfold spec320.compress. destruct (fold_left _ _ _) as [[[[[A B] C] D] E] [[[[A' B'] C'] D'] E']].
    unfold spec320.add. split; [done|]. repeat constructor; apply u32_range.
  - apply Transform320_compress.
  - done.
Qed.
