(* ===== verification/Ripemd128.v ===== *)
(** RIPEMD-128 and RIPEMD-256 of cryptopp/ripemd.cpp: four rounds on eight variables,
    with a macro of two lines; RIPEMD-256 exchanges a variable between the lines after
    each round, as RIPEMD-320 does. *)
From S2P Require Import Prelude.
From S2P Require Import Blocks.
From S2P Require Import Iterhash.
From S2P Require Import Ripemd160.

Module ripemd128.
Import ripemd.

Inductive var := a1 | b1 | c1 | d1 | a2 | b2 | c2 | d2.
Definition var_index (v : var) : nat :=
  match v with
  | a1 => 0 | b1 => 1 | c1 => 2 | d1 => 3
  | a2 => 4 | b2 => 5 | c2 => 6 | d2 => 7
  end.

(** One use of the macro [Subround(f, a, b, c, d, X[x], s, k)]. *)
Inductive subround := Subround (f : fn) (a b c d : var) (x : nat) (s k : Z).

Definition get (v : var) (r : env) : Z := r !!! var_index v.
Definition set (v : var) (x : Z) (r : env) : env := <[var_index v := x]> r.

Definition run_subround (X : list Z) (r : env) (i : subround) : env :=
  let '(Subround f a b c d x s k) := i in
  let r := set a (u64 (get a r + u64 (u64 (apply_fn f (get b r) (get c r) (get d r) + X !!! x) + k))) r in
  set a (rotl (u32 (get a r)) s) r.
Definition run_rounds (X : list Z) (rounds : list subround) (r : env) : env :=
  fold_left (run_subround X) rounds r.

Definition InitState : list Z := [0x67452301; 0xefcdab89; 0x98badcfe; 0x10325476].

(** The body of [RIPEMD128::Transform], one line per line of the source. *)
Definition left_rounds : list subround :=
  [
   Subround F a1 b1 c1 d1 0 11 k0;
   Subround F d1 a1 b1 c1 1 14 k0;
   Subround F c1 d1 a1 b1 2 15 k0;
   Subround F b1 c1 d1 a1 3 12 k0;
   Subround F a1 b1 c1 d1 4 5 k0;
   Subround F d1 a1 b1 c1 5 8 k0;
   Subround F c1 d1 a1 b1 6 7 k0;
   Subround F b1 c1 d1 a1 7 9 k0;
   Subround F a1 b1 c1 d1 8 11 k0;
   Subround F d1 a1 b1 c1 9 13 k0;
   Subround F c1 d1 a1 b1 10 14 k0;
   Subround F b1 c1 d1 a1 11 15 k0;
   Subround F a1 b1 c1 d1 12 6 k0;
   Subround F d1 a1 b1 c1 13 7 k0;
   Subround F c1 d1 a1 b1 14 9 k0;
   Subround F b1 c1 d1 a1 15 8 k0;
   Subround G a1 b1 c1 d1 7 7 k1;
   Subround G d1 a1 b1 c1 4 6 k1;
   Subround G c1 d1 a1 b1 13 8 k1;
   Subround G b1 c1 d1 a1 1 13 k1;
   Subround G a1 b1 c1 d1 10 11 k1;
   Subround G d1 a1 b1 c1 6 9 k1;
   Subround G c1 d1 a1 b1 15 7 k1;
   Subround G b1 c1 d1 a1 3 15 k1;
   Subround G a1 b1 c1 d1 12 7 k1;
   Subround G d1 a1 b1 c1 0 12 k1;
   Subround G c1 d1 a1 b1 9 15 k1;
   Subround G b1 c1 d1 a1 5 9 k1;
   Subround G a1 b1 c1 d1 2 11 k1;
   Subround G d1 a1 b1 c1 14 7 k1;
   Subround G c1 d1 a1 b1 11 13 k1;
   Subround G b1 c1 d1 a1 8 12 k1;
   Subround H a1 b1 c1 d1 3 11 k2;
   Subround H d1 a1 b1 c1 10 13 k2;
   Subround H c1 d1 a1 b1 14 6 k2;
   Subround H b1 c1 d1 a1 4 7 k2;
   Subround H a1 b1 c1 d1 9 14 k2;
   Subround H d1 a1 b1 c1 15 9 k2;
   Subround H c1 d1 a1 b1 8 13 k2;
   Subround H b1 c1 d1 a1 1 15 k2;
   Subround H a1 b1 c1 d1 2 14 k2;
   Subround H d1 a1 b1 c1 7 8 k2;
   Subround H c1 d1 a1 b1 0 13 k2;
   Subround H b1 c1 d1 a1 6 6 k2;
   Subround H a1 b1 c1 d1 13 5 k2;
   Subround H d1 a1 b1 c1 11 12 k2;
   Subround H c1 d1 a1 b1 5 7 k2;
   Subround H b1 c1 d1 a1 12 5 k2;
   Subround I a1 b1 c1 d1 1 11 k3;
   Subround I d1 a1 b1 c1 9 12 k3;
   Subround I c1 d1 a1 b1 11 14 k3;
   Subround I b1 c1 d1 a1 10 15 k3;
   Subround I a1 b1 c1 d1 0 14 k3;
   Subround I d1 a1 b1 c1 8 15 k3;
   Subround I c1 d1 a1 b1 12 9 k3;
   Subround I b1 c1 d1 a1 4 8 k3;
   Subround I a1 b1 c1 d1 13 9 k3;
   Subround I d1 a1 b1 c1 3 14 k3;
   Subround I c1 d1 a1 b1 7 5 k3;
   Subround I b1 c1 d1 a1 15 6 k3;
   Subround I a1 b1 c1 d1 14 8 k3;
   Subround I d1 a1 b1 c1 5 6 k3;
   Subround I c1 d1 a1 b1 6 5 k3;
   Subround I b1 c1 d1 a1 2 12 k3
  ].

Definition right_rounds : list subround :=
  [
   Subround I a2 b2 c2 d2 5 8 k5;
   Subround I d2 a2 b2 c2 14 9 k5;
   Subround I c2 d2 a2 b2 7 9 k5;
   Subround I b2 c2 d2 a2 0 11 k5;
   Subround I a2 b2 c2 d2 9 13 k5;
   Subround I d2 a2 b2 c2 2 15 k5;
   Subround I c2 d2 a2 b2 11 15 k5;
   Subround I b2 c2 d2 a2 4 5 k5;
   Subround I a2 b2 c2 d2 13 7 k5;
   Subround I d2 a2 b2 c2 6 7 k5;
   Subround I c2 d2 a2 b2 15 8 k5;
   Subround I b2 c2 d2 a2 8 11 k5;
   Subround I a2 b2 c2 d2 1 14 k5;
   Subround I d2 a2 b2 c2 10 14 k5;
   Subround I c2 d2 a2 b2 3 12 k5;
   Subround I b2 c2 d2 a2 12 6 k5;
   Subround H a2 b2 c2 d2 6 9 k6;
   Subround H d2 a2 b2 c2 11 13 k6;
   Subround H c2 d2 a2 b2 3 15 k6;
   Subround H b2 c2 d2 a2 7 7 k6;
   Subround H a2 b2 c2 d2 0 12 k6;
   Subround H d2 a2 b2 c2 13 8 k6;
   Subround H c2 d2 a2 b2 5 9 k6;
   Subround H b2 c2 d2 a2 10 11 k6;
   Subround H a2 b2 c2 d2 14 7 k6;
   Subround H d2 a2 b2 c2 15 7 k6;
   Subround H c2 d2 a2 b2 8 12 k6;
   Subround H b2 c2 d2 a2 12 7 k6;
   Subround H a2 b2 c2 d2 4 6 k6;
   Subround H d2 a2 b2 c2 9 15 k6;
   Subround H c2 d2 a2 b2 1 13 k6;
   Subround H b2 c2 d2 a2 2 11 k6;
   Subround G a2 b2 c2 d2 15 9 k7;
   Subround G d2 a2 b2 c2 5 7 k7;
   Subround G c2 d2 a2 b2 1 15 k7;
   Subround G b2 c2 d2 a2 3 11 k7;
   Subround G a2 b2 c2 d2 7 8 k7;
   Subround G d2 a2 b2 c2 14 6 k7;
   Subround G c2 d2 a2 b2 6 6 k7;
   Subround G b2 c2 d2 a2 9 14 k7;
   Subround G a2 b2 c2 d2 11 12 k7;
   Subround G d2 a2 b2 c2 8 13 k7;
   Subround G c2 d2 a2 b2 12 5 k7;
   Subround G b2 c2 d2 a2 2 14 k7;
   Subround G a2 b2 c2 d2 10 13 k7;
   Subround G d2 a2 b2 c2 0 13 k7;
   Subround G c2 d2 a2 b2 4 7 k7;
   Subround G b2 c2 d2 a2 13 5 k7;
   Subround F a2 b2 c2 d2 8 15 k9;
   Subround F d2 a2 b2 c2 6 5 k9;
   Subround F c2 d2 a2 b2 4 8 k9;
   Subround F b2 c2 d2 a2 1 11 k9;
   Subround F a2 b2 c2 d2 3 14 k9;
   Subround F d2 a2 b2 c2 11 14 k9;
   Subround F c2 d2 a2 b2 15 6 k9;
   Subround F b2 c2 d2 a2 0 14 k9;
   Subround F a2 b2 c2 d2 5 6 k9;
   Subround F d2 a2 b2 c2 12 9 k9;
   Subround F c2 d2 a2 b2 2 12 k9;
   Subround F b2 c2 d2 a2 13 9 k9;
   Subround F a2 b2 c2 d2 9 12 k9;
   Subround F d2 a2 b2 c2 7 5 k9;
   Subround F c2 d2 a2 b2 10 15 k9;
   Subround F b2 c2 d2 a2 14 8 k9
  ].

(** The sums that end [Transform]; [digest[0]] is written last, from [c1]. *)
Definition combine (digest : list Z) (r : env) : list Z :=
  let r := set c1 (u64 (digest !!! 1%nat + get c1 r + get d2 r)) r in
  let digest := <[1%nat := u32 (u64 (digest !!! 2%nat + get d1 r + get a2 r))]> digest in
  let digest := <[2%nat := u32 (u64 (digest !!! 3%nat + get a1 r + get b2 r))]> digest in
  let digest := <[3%nat := u32 (u64 (digest !!! 0%nat + get b1 r + get c2 r))]> digest in
  <[0%nat := u32 (get c1 r)]> digest.

Definition Transform (digest X : list Z) : list Z :=
  let r := digest ++ digest in
  let r := run_rounds X left_rounds r in
  let r := run_rounds X right_rounds r in
  combine digest r.
Definition RIPEMD128 : StaticTransform := mkStaticTransform InitState Transform 16.

End ripemd128.

Module ripemd256.
Import ripemd.
Import ripemd128.

Definition InitState : list Z :=
  [0x67452301; 0xefcdab89; 0x98badcfe; 0x10325476; 0x76543210; 0xfedcba98; 0x89abcdef; 0x01234567].

(** The body of [RIPEMD256::Transform], one line per line of the source. *)
Definition round1 : list subround :=
  [
   Subround F a1 b1 c1 d1 0 11 k0;
   Subround F d1 a1 b1 c1 1 14 k0;
   Subround F c1 d1 a1 b1 2 15 k0;
   Subround F b1 c1 d1 a1 3 12 k0;
   Subround F a1 b1 c1 d1 4 5 k0;
   Subround F d1 a1 b1 c1 5 8 k0;
   Subround F c1 d1 a1 b1 6 7 k0;
   Subround F b1 c1 d1 a1 7 9 k0;
   Subround F a1 b1 c1 d1 8 11 k0;
   Subround F d1 a1 b1 c1 9 13 k0;
   Subround F c1 d1 a1 b1 10 14 k0;
   Subround F b1 c1 d1 a1 11 15 k0;
   Subround F a1 b1 c1 d1 12 6 k0;
   Subround F d1 a1 b1 c1 13 7 k0;
   Subround F c1 d1 a1 b1 14 9 k0;
   Subround F b1 c1 d1 a1 15 8 k0;
   Subround I a2 b2 c2 d2 5 8 k5;
   Subround I d2 a2 b2 c2 14 9 k5;
   Subround I c2 d2 a2 b2 7 9 k5;
   Subround I b2 c2 d2 a2 0 11 k5;
   Subround I a2 b2 c2 d2 9 13 k5;
   Subround I d2 a2 b2 c2 2 15 k5;
   Subround I c2 d2 a2 b2 11 15 k5;
   Subround I b2 c2 d2 a2 4 5 k5;
   Subround I a2 b2 c2 d2 13 7 k5;
   Subround I d2 a2 b2 c2 6 7 k5;
   Subround I c2 d2 a2 b2 15 8 k5;
   Subround I b2 c2 d2 a2 8 11 k5;
   Subround I a2 b2 c2 d2 1 14 k5;
   Subround I d2 a2 b2 c2 10 14 k5;
   Subround I c2 d2 a2 b2 3 12 k5;
   Subround I b2 c2 d2 a2 12 6 k5
  ].
Definition round2 : list subround :=
  [
   Subround G a1 b1 c1 d1 7 7 k1;
   Subround G d1 a1 b1 c1 4 6 k1;
   Subround G c1 d1 a1 b1 13 8 k1;
   Subround G b1 c1 d1 a1 1 13 k1;
   Subround G a1 b1 c1 d1 10 11 k1;
   Subround G d1 a1 b1 c1 6 9 k1;
   Subround G c1 d1 a1 b1 15 7 k1;
   Subround G b1 c1 d1 a1 3 15 k1;
   Subround G a1 b1 c1 d1 12 7 k1;
   Subround G d1 a1 b1 c1 0 12 k1;
   Subround G c1 d1 a1 b1 9 15 k1;
   Subround G b1 c1 d1 a1 5 9 k1;
   Subround G a1 b1 c1 d1 2 11 k1;
   Subround G d1 a1 b1 c1 14 7 k1;
   Subround G c1 d1 a1 b1 11 13 k1;
   Subround G b1 c1 d1 a1 8 12 k1;
   Subround H a2 b2 c2 d2 6 9 k6;
   Subround H d2 a2 b2 c2 11 13 k6;
   Subround H c2 d2 a2 b2 3 15 k6;
   Subround H b2 c2 d2 a2 7 7 k6;
   Subround H a2 b2 c2 d2 0 12 k6;
   Subround H d2 a2 b2 c2 13 8 k6;
   Subround H c2 d2 a2 b2 5 9 k6;
   Subround H b2 c2 d2 a2 10 11 k6;
   Subround H a2 b2 c2 d2 14 7 k6;
   Subround H d2 a2 b2 c2 15 7 k6;
   Subround H c2 d2 a2 b2 8 12 k6;
   Subround H b2 c2 d2 a2 12 7 k6;
   Subround H a2 b2 c2 d2 4 6 k6;
   Subround H d2 a2 b2 c2 9 15 k6;
   Subround H c2 d2 a2 b2 1 13 k6;
   Subround H b2 c2 d2 a2 2 11 k6
  ].
Definition round3 : list subround :=
  [
   Subround H a1 b1 c1 d1 3 11 k2;
   Subround H d1 a1 b1 c1 10 13 k2;
   Subround H c1 d1 a1 b1 14 6 k2;
   Subround H b1 c1 d1 a1 4 7 k2;
   Subround H a1 b1 c1 d1 9 14 k2;
   Subround H d1 a1 b1 c1 15 9 k2;
   Subround H c1 d1 a1 b1 8 13 k2;
   Subround H b1 c1 d1 a1 1 15 k2;
   Subround H a1 b1 c1 d1 2 14 k2;
   Subround H d1 a1 b1 c1 7 8 k2;
   Subround H c1 d1 a1 b1 0 13 k2;
   Subround H b1 c1 d1 a1 6 6 k2;
   Subround H a1 b1 c1 d1 13 5 k2;
   Subround H d1 a1 b1 c1 11 12 k2;
   Subround H c1 d1 a1 b1 5 7 k2;
   Subround H b1 c1 d1 a1 12 5 k2;
   Subround G a2 b2 c2 d2 15 9 k7;
   Subround G d2 a2 b2 c2 5 7 k7;
   Subround G c2 d2 a2 b2 1 15 k7;
   Subround G b2 c2 d2 a2 3 11 k7;
   Subround G a2 b2 c2 d2 7 8 k7;
   Subround G d2 a2 b2 c2 14 6 k7;
   Subround G c2 d2 a2 b2 6 6 k7;
   Subround G b2 c2 d2 a2 9 14 k7;
   Subround G a2 b2 c2 d2 11 12 k7;
   Subround G d2 a2 b2 c2 8 13 k7;
   Subround G c2 d2 a2 b2 12 5 k7;
   Subround G b2 c2 d2 a2 2 14 k7;
   Subround G a2 b2 c2 d2 10 13 k7;
   Subround G d2 a2 b2 c2 0 13 k7;
   Subround G c2 d2 a2 b2 4 7 k7;
   Subround G b2 c2 d2 a2 13 5 k7
  ].
Definition round4 : list subround :=
  [
   Subround I a1 b1 c1 d1 1 11 k3;
   Subround I d1 a1 b1 c1 9 12 k3;
   Subround I c1 d1 a1 b1 11 14 k3;
   Subround I b1 c1 d1 a1 10 15 k3;
   Subround I a1 b1 c1 d1 0 14 k3;
   Subround I d1 a1 b1 c1 8 15 k3;
   Subround I c1 d1 a1 b1 12 9 k3;
   Subround I b1 c1 d1 a1 4 8 k3;
   Subround I a1 b1 c1 d1 13 9 k3;
   Subround I d1 a1 b1 c1 3 14 k3;
   Subround I c1 d1 a1 b1 7 5 k3;
   Subround I b1 c1 d1 a1 15 6 k3;
   Subround I a1 b1 c1 d1 14 8 k3;
   Subround I d1 a1 b1 c1 5 6 k3;
   Subround I c1 d1 a1 b1 6 5 k3;
   Subround I b1 c1 d1 a1 2 12 k3;
   Subround F a2 b2 c2 d2 8 15 k9;
   Subround F d2 a2 b2 c2 6 5 k9;
   Subround F c2 d2 a2 b2 4 8 k9;
   Subround F b2 c2 d2 a2 1 11 k9;
   Subround F a2 b2 c2 d2 3 14 k9;
   Subround F d2 a2 b2 c2 11 14 k9;
   Subround F c2 d2 a2 b2 15 6 k9;
   Subround F b2 c2 d2 a2 0 14 k9;
   Subround F a2 b2 c2 d2 5 6 k9;
   Subround F d2 a2 b2 c2 12 9 k9;
   Subround F c2 d2 a2 b2 2 12 k9;
   Subround F b2 c2 d2 a2 13 9 k9;
   Subround F a2 b2 c2 d2 9 12 k9;
   Subround F d2 a2 b2 c2 7 5 k9;
   Subround F c2 d2 a2 b2 10 15 k9;
   Subround F b2 c2 d2 a2 14 8 k9
  ].

(** [t = x; x = y; y = t;] *)
Definition swap (x y : var) (r : env) : env :=
  let t := get x r in
  let r := set x (get y r) r in
  set y t r.

Definition Transform (digest X : list Z) : list Z :=
  let r := digest in
  let r := swap a1 a2 (run_rounds X round1 r) in
  let r := swap b1 b2 (run_rounds X round2 r) in
  let r := swap c1 c2 (run_rounds X round3 r) in
  let r := swap d1 d2 (run_rounds X round4 r) in
  zip_with (fun d v => u32 (u64 (d + v))) digest r.
Definition RIPEMD256 : StaticTransform := mkStaticTransform InitState Transform 32.

End ripemd256.

(** ** The specifications: the tables of RIPEMD-160, without its fifth round *)
Module ripemd128_spec.
Import ripemd160_spec.

Definition round_fn (right : bool) (i : nat) : nat := if right then (3 - i / 16)%nat else (i / 16)%nat.
Definition const (right : bool) (i : nat) : Z :=
  (if right then take 3 K' ++ [0] else take 4 K) !!! (i / 16)%nat.

(** One step: (A, B, C, D) becomes (D, T, B, C). *)
Definition line_state : Type := Z * Z * Z * Z.
Definition step (right : bool) (X : list Z) (v : line_state) (i : nat) : line_state :=
  let '(A, B, C, D) := v in
  let T := rol (shift right i)
             (u32 (A + f (round_fn right i) B C D + X !!! index right i + const right i)) in
  (D, T, B, C).
Definition line (right : bool) (X : list Z) (v : line_state) : line_state :=
  fold_left (step right X) (seq 0 64) v.

Definition compress (h X : list Z) : list Z :=
  match h with
  | [h0; h1; h2; h3] =>
      let '(A, B, C, D) := line false X (h0, h1, h2, h3) in
      let '(A', B', C', D') := line true X (h0, h1, h2, h3) in
      [u32 (h1 + C + D'); u32 (h2 + D + A'); u32 (h3 + A + B'); u32 (h0 + B + C')]
  | _ => h
  end.

Definition H0 : list Z := [0x67452301; 0xefcdab89; 0x98badcfe; 0x10325476].
Definition RIPEMD128 : bytes -> bytes := merkle_damgard.digest H0 compress.

End ripemd128_spec.

(** [A], [B], [C] and [D] are exchanged between the lines after rounds 1 to 4. *)
Module ripemd256_spec.
Import ripemd128_spec.

Definition exchange (k : nat) (p : line_state * line_state) : line_state * line_state :=
  let '((A, B, C, D), (A', B', C', D')) := p in
  match k with
  | 0%nat => ((A', B, C, D), (A, B', C', D'))
  | 1%nat => ((A, B', C, D), (A', B, C', D'))
  | 2%nat => ((A, B, C', D), (A', B', C, D'))
  | _ => ((A, B, C, D'), (A', B', C', D))
  end.

Definition round (X : list Z) (p : line_state * line_state) (j : nat) : line_state * line_state :=
  exchange j
    (fold_left (step false X) (seq (16 * j) 16) (fst p),
     fold_left (step true X) (seq (16 * j) 16) (snd p)).

Definition add (h : list Z) (p : line_state * line_state) : list Z :=
  let '((A, B, C, D), (A', B', C', D')) := p in
  zip_with (fun x y => u32 (x + y)) h [A; B; C; D; A'; B'; C'; D'].
Definition compress (h X : list Z) : list Z :=
  match h with
  | [h0; h1; h2; h3; h4; h5; h6; h7] =>
      add h (fold_left (round X) (seq 0 4) ((h0, h1, h2, h3), (h4, h5, h6, h7)))
  | _ => h
  end.

Definition H0 : list Z :=
  [0x67452301; 0xefcdab89; 0x98badcfe; 0x10325476; 0x76543210; 0xfedcba98; 0x89abcdef; 0x01234567].
Definition RIPEMD256 : bytes -> bytes := merkle_damgard.digest H0 compress.

End ripemd256_spec.

Import ripemd.
Import ripemd128.
Module spec128 := ripemd128_spec.
Module spec256 := ripemd256_spec.

(** ** One line *)

Definition base4 (right : bool) : nat := if right then 4 else 0.
Definition vars4 : list var := [a1; b1; c1; d1; a2; b2; c2; d2].
#[local] Instance var4_inhabited : Inhabited var := populate a1.
#[local] Instance fn_inhabited : Inhabited fn := populate F.

(** The variable that plays role [k] (0 for a, ..., 3 for d) at step [i]. *)
Definition role4 (right : bool) (i k : nat) : nat := (base4 right + (k + 3 * (i mod 4)) mod 4)%nat.
Definition tabulated4 (right : bool) (i : nat) : subround :=
  let v k := vars4 !!! role4 right i k in
  Subround ([F; G; H; I] !!! spec128.round_fn right i) (v 0%nat) (v 1%nat) (v 2%nat) (v 3%nat)
    (ripemd160_spec.index right i) (ripemd160_spec.shift right i) (spec128.const right i).

Lemma rounds_tabulated128 :
  left_rounds = tabulated4 false <$> seq 0 64 /\ right_rounds = tabulated4 true <$> seq 0 64.
Proof. split; vm_compute; reflexivity. Qed.

Lemma tables4_ok right i :
  (i < 64)%nat -> 0 < ripemd160_spec.shift right i < 32 /\
  fn_index ([F; G; H; I] !!! spec128.round_fn right i) = spec128.round_fn right i.
Proof.
  intros Hi. split; [apply tables_ok; lia|]. unfold spec128.round_fn.
  assert (i / 16 < 4)%nat as Hq by (apply Nat.Div0.div_lt_upper_bound; lia).
  set (q := (i / 16)%nat) in *. clearbody q.
  destruct right; do 4 (destruct q as [|q]; [reflexivity|]); lia.
Qed.

(** At step [i] the roles hold the specification's variables modulo 2^32. *)
Definition holds4 (right : bool) (i : nat) (r : env) (v : spec128.line_state) : Prop :=
  let '(A, B, C, D) := v in
  u32 (r !!! role4 right i 0) = A /\ u32 (r !!! role4 right i 1) = B /\
  u32 (r !!! role4 right i 2) = C /\ u32 (r !!! role4 right i 3) = D.

Lemma var_index_vars4 k : (k < 8)%nat -> var_index (vars4 !!! k) = k.
Proof. intros Hk. do 8 (destruct k as [|k]; [done|]). lia. Qed.

Lemma role4_split right i k : exists m, (m < 4)%nat /\ role4 right i k = (base4 right + m)%nat.
Proof. exists ((k + 3 * (i mod 4)) mod 4)%nat. split; [by apply Nat.mod_upper_bound | done]. Qed.
Lemma role4_lt right i k : (role4 right i k < 8)%nat.
Proof. destruct (role4_split right i k) as (m & Hm & ->). destruct right; simpl; lia. Qed.

Lemma role4_next right i k : role4 right (S i) (S k) = role4 right i k.
Proof.
  unfold role4. f_equal.
  rewrite <- Nat.Div0.add_mod_idemp_r, <- (Nat.Div0.add_mod_idemp_r k).
  rewrite !Nat.Div0.mul_mod_idemp_r, !Nat.Div0.add_mod_idemp_r.
  replace (S k + 3 * S i)%nat with (k + 3 * i + 1 * 4)%nat by lia. apply Nat.Div0.mod_add.
Qed.
Lemma role4_first right i : role4 right (S i) 0 = role4 right i 3.
Proof.
  unfold role4. f_equal.
  rewrite <- (Nat.Div0.add_mod_idemp_r 0), <- (Nat.Div0.add_mod_idemp_r 3).
  rewrite !Nat.Div0.mul_mod_idemp_r, !Nat.Div0.add_mod_idemp_r. f_equal. lia.
Qed.
Lemma role4_inj right i j k : (j < 4)%nat -> (k < 4)%nat -> role4 right i j = role4 right i k -> j = k.
Proof.
  unfold role4. intros Hj Hk E. apply Nat.add_cancel_l in E.
  assert (i mod 4 < 4)%nat as Hp by (by apply Nat.mod_upper_bound).
  set (p := (i mod 4)%nat) in *. clearbody p.
  do 4 (destruct p as [|p]; [do 4 (destruct j as [|j]; [do 4 (destruct k as [|k]; [done|]); lia|]); lia|]). lia.
Qed.

(** The result of the transcribed macro. *)
Definition macro4 (right : bool) (i : nat) (X r : list Z) : Z :=
  let g := [F; G; H; I] !!! spec128.round_fn right i in
  rotl (u32 (u64 (r !!! role4 right i 0
    + u64 (u64 (apply_fn g (r !!! role4 right i 1) (r !!! role4 right i 2) (r !!! role4 right i 3)
                + X !!! ripemd160_spec.index right i) + spec128.const right i))))
    (ripemd160_spec.shift right i).

Lemma run_tabulated4 right i X (r : env) :
  length r = 8%nat ->
  run_subround X r (tabulated4 right i) = <[role4 right i 0 := macro4 right i X r]> r.
Proof.
  intros Hr. unfold tabulated4, run_subround, get, set. cbv zeta.
  rewrite !var_index_vars4 by apply role4_lt. rewrite list_insert_insert_eq.
  by rewrite list_lookup_total_insert_eq by (rewrite Hr; apply role4_lt).
Qed.

Lemma macro4_spec right i X r A B C D :
  (i < 64)%nat -> holds4 right i r (A, B, C, D) ->
  macro4 right i X r
  = ripemd160_spec.rol (ripemd160_spec.shift right i)
      (u32 (A + ripemd160_spec.f (spec128.round_fn right i) B C D
            + X !!! ripemd160_spec.index right i + spec128.const right i))
  /\ in_u32 (macro4 right i X r).
Proof.
  intros Hi (HA & HB & HC & HD). destruct (tables4_ok right i Hi) as [Hs Hf].
  unfold macro4. cbv zeta. rewrite rotl_rol by (apply u32_range || done).
  split; [|apply rol_range; [done | apply u32_range]].
  rewrite u32_u64, u32_add_u64_r, Z.add_assoc.
  apply (f_equal (ripemd160_spec.rol (ripemd160_spec.shift right i))).
  set (g := apply_fn _ _ _ _). set (x := X !!! _). set (k := spec128.const right i).
  rewrite <- HA, <- HB, <- HC, <- HD, <- Hf, <- apply_fn_spec. fold g.
  set (a := r !!! role4 right i 0).
  replace (a + u64 (g + x) + k) with (a + k + u64 (g + x)) by lia. rewrite u32_add_u64_r.
  replace (u32 a + u32 g + x + k) with (u32 a + (u32 g + (x + k))) by lia. rewrite u32_add_l.
  replace (a + (u32 g + (x + k))) with (u32 g + (a + x + k)) by lia. rewrite u32_add_l.
  apply (f_equal u32). lia.
Qed.

Lemma holds4_step right i X r v :
  (i < 64)%nat -> length r = 8%nat -> holds4 right i r v ->
  holds4 right (S i) (run_subround X r (tabulated4 right i)) (spec128.step right X v i).
Proof.
  intros Hi Hr Hh. destruct v as [[[A B] C] D].
  destruct (macro4_spec right i X r A B C D Hi Hh) as [Hm Hu].
  destruct Hh as (HA & HB & HC & HD). rewrite run_tabulated4 by done.
  assert (forall k, (k < 4)%nat -> k <> 0%nat -> role4 right i 0 <> role4 right i k) as Hne
    by (intros k Hk Hk0 E; apply Hk0; by apply (role4_inj right i) in E; [|lia|]).
  unfold spec128.step, holds4. rewrite role4_first, !role4_next.
  rewrite (list_lookup_total_insert_eq _ (role4 right i 0)) by (rewrite Hr; apply role4_lt).
  rewrite !(list_lookup_total_insert_ne _ (role4 right i 0)) by (apply Hne; lia).
  rewrite <- Hm. split_and!; [done | by apply u32_id | done | done].
Qed.

Lemma line4_holds_from right X r v i m :
  (i + m <= 64)%nat -> length r = 8%nat -> holds4 right i r v ->
  let r' := fold_left (run_subround X) (tabulated4 right <$> seq i m) r in
  length r' = 8%nat /\ holds4 right (i + m) r' (fold_left (spec128.step right X) (seq i m) v) /\
  (forall k, (k < 4)%nat -> r' !!! (base4 (negb right) + k)%nat = r !!! (base4 (negb right) + k)%nat).
Proof.
  intros Hn Hr Hh. induction m as [|m IH]; [by rewrite Nat.add_0_r|].
  destruct IH as (IH1 & IH2 & IH3); [lia|]. cbv zeta.
  rewrite seq_S, fmap_app, !fold_left_app, Nat.add_succ_r. cbn [fmap list_fmap fold_left]. cbv zeta in *.
  split_and!; [by rewrite run_tabulated4, length_insert | apply holds4_step; [lia | done..] |].
  intros k Hk. rewrite run_tabulated4, list_lookup_total_insert_ne; [by apply IH3 | | done].
  destruct (role4_split right (i + m) 0) as (q & Hq & ->). destruct right; cbn [base4 negb]; lia.
Qed.

(** Both lines hold the specification's variables before step [i] and [j]. *)
Definition both4 (i j : nat) (r : env) (p : spec128.line_state * spec128.line_state) : Prop :=
  length r = 8%nat /\ holds4 false i r (fst p) /\ holds4 true j r (snd p).

Lemma holds4_same right i r r' v :
  (forall k, (k < 4)%nat -> r' !!! (base4 right + k)%nat = r !!! (base4 right + k)%nat) ->
  holds4 right i r v -> holds4 right i r' v.
Proof.
  intros Hk. destruct v as [[[A B] C] D]. unfold holds4.
  assert (forall k, r' !!! role4 right i k = r !!! role4 right i k) as Hr.
  { intros k. destruct (role4_split right i k) as (m & Hm & ->). by apply Hk. }
  by rewrite !Hr.
Qed.

Lemma both4_left X r p i j m :
  (i + m <= 64)%nat -> both4 i j r p ->
  both4 (i + m) j (run_rounds X (tabulated4 false <$> seq i m) r)
    (fold_left (spec128.step false X) (seq i m) (fst p), snd p).
Proof.
  intros Hm (Hl & HL & HR). destruct (line4_holds_from false X r (fst p) i m) as (L1 & HL1 & K1); [done..|].
  split; [done|]. split; [done|]. eapply holds4_same; [exact K1 | done].
Qed.
Lemma both4_right X r p i j m :
  (j + m <= 64)%nat -> both4 i j r p ->
  both4 i (j + m) (run_rounds X (tabulated4 true <$> seq j m) r)
    (fst p, fold_left (spec128.step true X) (seq j m) (snd p)).
Proof.
  intros Hm (Hl & HL & HR). destruct (line4_holds_from true X r (snd p) j m) as (L1 & HL1 & K1); [done..|].
  split; [done|]. split; [|done]. eapply holds4_same; [exact K1 | done].
Qed.

(** ** RIPEMD-128 *)

Lemma lines128 X r v :
  both4 0 0 r (v, v) ->
  both4 64 64 (run_rounds X right_rounds (run_rounds X left_rounds r))
    (spec128.line false X v, spec128.line true X v).
Proof.
  intros B0. rewrite (proj1 rounds_tabulated128), (proj2 rounds_tabulated128).
  apply (both4_left X _ _ 0 0 64) in B0; [|lia]. by apply (both4_right X _ _ (0 + 64) 0 64) in B0; [|lia].
Qed.

Lemma Transform128_compress h X :
  length h = 4%nat -> Forall in_u32 h -> ripemd128.Transform h X = spec128.compress h X.
Proof.
  intros Hl Hw. destruct h as [|h0 [|h1 [|h2 [|h3 [|]]]]]; try discriminate.
  set (v := (h0, h1, h2, h3) : spec128.line_state).
  assert (both4 0 0 ([h0; h1; h2; h3] ++ [h0; h1; h2; h3]) (v, v)) as B0.
  { repeat (apply Forall_cons in Hw as [? Hw]).
    split; [done|]. split; split_and!; apply u32_id; done. }
  apply (lines128 X) in B0. unfold ripemd128.Transform, spec128.compress. fold v.
  set (r := run_rounds X right_rounds _) in *.
  destruct (spec128.line false X v) as [[[A B] C] D], (spec128.line true X v) as [[[A' B'] C'] D'].
  clearbody r. destruct B0 as (Lr & HL & HR). cbn [fst snd] in HL, HR. unfold holds4 in HL, HR.
  change (role4 false 64 0) with 0%nat in HL. change (role4 false 64 1) with 1%nat in HL.
  change (role4 false 64 2) with 2%nat in HL. change (role4 false 64 3) with 3%nat in HL.
  change (role4 true 64 0) with 4%nat in HR. change (role4 true 64 1) with 5%nat in HR.
  change (role4 true 64 2) with 6%nat in HR. change (role4 true 64 3) with 7%nat in HR.
  destruct HL as (<- & <- & <- & <-), HR as (<- & <- & <- & <-).
  destruct r as [|x0 [|x1 [|x2 [|x3 [|y0 [|y1 [|y2 [|y3 [|]]]]]]]]]; try discriminate.
  unfold combine, get, set.
  cbn [var_index insert list_insert list_lookup_total lookup_total].
  by rewrite !u32_u64, !u32_add3.
Qed.

#[export] Instance ripemd128_laws : TransformLaws ripemd128.RIPEMD128 4 spec128.compress.
Proof.
  split.
  - split; [done|]. by repeat constructor.
  - intros h X Hl _. destruct h as [|h0 [|h1 [|h2 [|h3 [|]]]]]; try discriminate.
    unfold spec128.compress. destruct (spec128.line false X _) as [[[A B] C] D].
    destruct (spec128.line true X _) as [[[A' B'] C'] D'].
    split; [done|]. repeat constructor; apply u32_range.
  - apply Transform128_compress.
  - done.
Qed.

(** ** RIPEMD-256 *)

Definition rounds256 (j : nat) : list subround :=
  [ripemd256.round1; ripemd256.round2; ripemd256.round3; ripemd256.round4] !!! j.

Lemma rounds_tabulated256 j :
  (j < 4)%nat ->
  rounds256 j = (tabulated4 false <$> seq (16 * j) 16) ++ (tabulated4 true <$> seq (16 * j) 16).
Proof. intros Hj. do 4 (destruct j as [|j]; [vm_compute; reflexivity|]). lia. Qed.

Lemma run_rounds_app X l l' r : run_rounds X (l ++ l') r = run_rounds X l' (run_rounds X l r).
Proof. apply fold_left_app. Qed.

Lemma both4_swap i r p x y m k :
  var_index x = m -> var_index y = (4 + m)%nat -> (k < 4)%nat -> role4 false i k = m ->
  both4 i i r p -> both4 i i (ripemd256.swap x y r) (spec256.exchange k p).
Proof.
  intros Hx Hy Hk Hm (Hl & HL & HR).
  assert (forall j, role4 true i j = 4 + role4 false i j)%nat as Ht by (intros j; unfold role4; simpl; lia).
  assert (forall j, (role4 false i j < 4)%nat) as Hlt by (intros j; by apply Nat.mod_upper_bound).
  set (r' := ripemd256.swap x y r).
  assert (m < 4)%nat as Hm4 by (rewrite <- Hm; apply Hlt).
  assert (r' = <[(4 + m)%nat := r !!! m]> (<[m := r !!! (4 + m)%nat]> r)) as Er.
  { unfold r', ripemd256.swap, set, get. by rewrite Hx, Hy. }
  assert (forall j, (j < 4)%nat -> j <> k -> r' !!! role4 false i j = r !!! role4 false i j /\
            r' !!! role4 true i j = r !!! role4 true i j) as Hj.
  { intros j Hj4 Hjk. assert (role4 false i j <> m) as Hne.
    { intros E. apply Hjk, (role4_inj false i); [done | done | by rewrite Hm]. }
    pose proof (Hlt j). rewrite Ht, Er. split; rewrite !list_lookup_total_insert_ne by lia; done. }
  assert (r' !!! role4 false i k = r !!! role4 true i k) as F1.
  { rewrite Ht, Hm, Er, list_lookup_total_insert_ne by lia. by rewrite list_lookup_total_insert_eq by lia. }
  assert (r' !!! role4 true i k = r !!! role4 false i k) as F2.
  { rewrite Ht, Hm, Er. by rewrite list_lookup_total_insert_eq by (rewrite length_insert; lia). }
  destruct p as [[[[A B] C] D] [[[A' B'] C'] D']]. cbn [fst snd] in HL, HR. unfold holds4 in HL, HR.
  split; [by rewrite Er, !length_insert|].
  destruct HL as (HA & HB & HC & HD), HR as (HA' & HB' & HC' & HD').
  do 4 (destruct k as [|k];
    [unfold spec256.exchange, fst, snd, holds4;
     repeat match goal with |- context [r' !!! role4 _ i ?j] =>
       first [rewrite F1 | rewrite F2 | rewrite (proj1 (Hj j ltac:(lia) ltac:(lia)))
             | rewrite (proj2 (Hj j ltac:(lia) ltac:(lia)))] end; split_and!; done|]).
  lia.
Qed.

Lemma both4_round X r p j x y m :
  (j < 4)%nat -> var_index x = m -> var_index y = (4 + m)%nat -> role4 false (16 * S j) j = m ->
  both4 (16 * j) (16 * j) r p ->
  both4 (16 * S j) (16 * S j) (ripemd256.swap x y (run_rounds X (rounds256 j) r)) (spec256.round X p j).
Proof.
  intros Hj Hx Hy Hm Hb. unfold spec256.round. eapply both4_swap; [done | done | lia | done|].
  rewrite rounds_tabulated256 by done.
  apply (both4_left X _ _ _ _ 16) in Hb; [|lia]. apply (both4_right X _ _ _ _ 16) in Hb; [|lia].
  replace (16 * S j)%nat with (16 * j + 16)%nat by lia.
  cbn [fst snd] in Hb. by rewrite run_rounds_app.
Qed.

Lemma Transform256_compress h X :
  length h = 8%nat -> Forall in_u32 h -> ripemd256.Transform h X = spec256.compress h X.
Proof.
  intros Hl Hw. destruct h as [|h0 [|h1 [|h2 [|h3 [|h4 [|h5 [|h6 [|h7 [|]]]]]]]]]; try discriminate.
  set (h := [h0; h1; h2; h3; h4; h5; h6; h7]).
  assert (both4 (16 * 0) (16 * 0) h ((h0, h1, h2, h3), (h4, h5, h6, h7))) as B0.
  { repeat (apply Forall_cons in Hw as [? Hw]).
    split; [done|]. split; split_and!; apply u32_id; done. }
  unfold ripemd256.Transform.
  change (spec256.compress h X) with (spec256.add h (fold_left (spec256.round X) (seq 0 4)
    ((h0, h1, h2, h3), (h4, h5, h6, h7)))).
  apply (both4_round X _ _ 0 a1 a2 0) in B0; [|lia | done..].
  apply (both4_round X _ _ 1 b1 b2 1) in B0; [|lia | done..].
  apply (both4_round X _ _ 2 c1 c2 2) in B0; [|lia | done..].
  apply (both4_round X _ _ 3 d1 d2 3) in B0; [|lia | done..].
  change (rounds256 0) with ripemd256.round1 in B0. change (rounds256 1) with ripemd256.round2 in B0.
  change (rounds256 2) with ripemd256.round3 in B0. change (rounds256 3) with ripemd256.round4 in B0.
  cbv zeta. set (r := ripemd256.swap d1 d2 _) in *.
  cbn [fold_left seq]. set (q := spec256.round X _ 3) in *. clearbody r q.
  destruct q as [[[[A B] C] D] [[[A' B'] C'] D']]. destruct B0 as (Lr & HL & HR).
  cbn [fst snd] in HL, HR. unfold holds4 in HL, HR.
  change (role4 false (16 * 4) 0) with 0%nat in HL. change (role4 false (16 * 4) 1) with 1%nat in HL.
  change (role4 false (16 * 4) 2) with 2%nat in HL. change (role4 false (16 * 4) 3) with 3%nat in HL.
  change (role4 true (16 * 4) 0) with 4%nat in HR. change (role4 true (16 * 4) 1) with 5%nat in HR.
  change (role4 true (16 * 4) 2) with 6%nat in HR. change (role4 true (16 * 4) 3) with 7%nat in HR.
  destruct HL as (<- & <- & <- & <-), HR as (<- & <- & <- & <-).
  destruct r as [|x0 [|x1 [|x2 [|x3 [|y0 [|y1 [|y2 [|y3 [|]]]]]]]]]; try discriminate.
  unfold h, spec256.add. cbn [zip_with list_lookup_total lookup_total]. by rewrite !u32_u64, !u32_add_r.
Qed.

#[export] Instance ripemd256_laws : TransformLaws ripemd256.RIPEMD256 8 spec256.compress.
Proof.
  split.
  - split; [done|]. by repeat constructor.
  - intros h X Hl _. destruct h as [|h0 [|h1 [|h2 [|h3 [|h4 [|h5 [|h6 [|h7 [|]]]]]]]]]; try discriminate.
    unfold spec256.compress. destruct (fold_left _ _ _) as [[[[A B] C] D] [[[A' B'] C'] D']].
    unfold spec256.add. split; [done|]. repeat constructor; apply u32_range.
  - apply Transform256_compress.
  - done.
Qed.
