(* ===== verification/Ripemd.v ===== *)
(** The four hashers of cryptopp/ripemd.h together. *)
From S2P Require Import Prelude.
From S2P Require Import Blocks.
From S2P Require Import Iterhash.
From S2P Require Import Ripemd160.
From S2P Require Import Ripemd320.
From S2P Require Import Ripemd128.

(** ** Theorem *)

(** C17.  Crypto++'s RIPEMD hashers compute the published functions: however a message of
    fewer than 2^64 bytes is cut into calls of [Update], from buffers aligned or not,
    [TruncatedFinal] gives the asked prefix of RIPEMD-160 (-320, -128, -256) of the whole
    message, refuses more bytes than the digest has, and leaves a hasher that is ready
    for the next message.  The transcribed lines of the transforms, on 64-bit variables,
    are the tabulated rounds of the publications on 32-bit words. *)
Theorem ripemd_digests T H0 compress n chunks aligned buffer size :
  (T, n, H0, compress) ∈
    [(ripemd.RIPEMD160, 5%nat, ripemd160_spec.H0, ripemd160_spec.compress);
     (ripemd320.RIPEMD320, 10%nat, ripemd320_spec.H0, ripemd320_spec.compress);
     (ripemd128.RIPEMD128, 4%nat, ripemd128_spec.H0, ripemd128_spec.compress);
     (ripemd256.RIPEMD256, 8%nat, ripemd256_spec.H0, ripemd256_spec.compress)] ->
  length buffer = 64%nat -> size_of (concat chunks) < 2 ^ 64 ->
  exists h,
    for_each (iterhash.Update T aligned) (iterhash.construct T buffer) chunks = Ok h /\
    if (size <=? 4 * n)%nat then
      exists h', iterhash.TruncatedFinal T h size
        = Ok (take size (merkle_damgard.digest H0 compress (concat chunks)), h') /\
        absorbed T h' []
    else iterhash.TruncatedFinal T h size = Throw invalid_argument.
Proof.
  rewrite !elem_of_cons, elem_of_nil.
  intros [[= -> -> -> ->]|[[= -> -> -> ->]|[[= -> -> -> ->]|[[= -> -> -> ->]|[]]]]].
  - exact (chunks_digest (T := ripemd.RIPEMD160) aligned buffer chunks size).
  - exact (chunks_digest (T := ripemd320.RIPEMD320) aligned buffer chunks size).
  - exact (chunks_digest (T := ripemd128.RIPEMD128) aligned buffer chunks size).
  - exact (chunks_digest (T := ripemd256.RIPEMD256) aligned buffer chunks size).
Qed.

Lemma ripemd_digests_witness :
  exists h,
    for_each (iterhash.Update ripemd.RIPEMD160 true) (iterhash.construct ripemd.RIPEMD160 (replicate 64 7))
      [str "a"; str "bc"] = Ok h /\
    exists h', iterhash.TruncatedFinal ripemd.RIPEMD160 h 20
      = Ok (take 20 (ripemd160_spec.RIPEMD160 (str "abc")), h') /\
      absorbed ripemd.RIPEMD160 h' [].
Proof.
  refine (ripemd_digests ripemd.RIPEMD160 ripemd160_spec.H0 ripemd160_spec.compress 5
            [str "a"; str "bc"] true (replicate 64 7) 20 _ _ _).
  - apply list_elem_of_here.
  - reflexivity.
  - vm_compute. reflexivity.
Defined.

(** The specifications against published test vectors, for the empty message. *)
Example ripemd_vectors :
  le_value (rev (ripemd160_spec.RIPEMD160 [])) = 0x9c1185a5c5e9fc54612808977ee8f548b2258d31 /\
  le_value (rev (ripemd320_spec.RIPEMD320 []))
    = 0x22d65d5661536cdc75c1fdf5c6de7b41b9f27325ebc61e8557177d705a0ec880151c3a32a00899b8 /\
  le_value (rev (ripemd128_spec.RIPEMD128 [])) = 0xcdf26213a150dc3ecb610f18f6b38b46 /\
  le_value (rev (ripemd256_spec.RIPEMD256 []))
    = 0x02ba4c4e5f8ecd1877fc52d64d30e37a2d9774fb1e5d026380ae0168e3c5522d.
Proof. split_and!; vm_compute; reflexivity. Qed.
