(* ===== verification/Hashes.v ===== *)
(** crypto/ecdsa.h: the hash functions of namespace [crypto], built from picosha2
    and Crypto++, and the instance of the interface of Crypto.v they give. *)
From S2P Require Import Prelude.
From S2P Require Import Crypto.
From S2P Require Import Sha256.
From S2P Require Import Iterhash.
From S2P Require Import Ripemd160.

Module crypto.

(** The binary overloads of [hash_sha256] differ in their container types only. *)
Definition hash_sha256 (input : bytes) : bytes := picosha2.hash256 input 32.
(** The [std::string&] overloads replace the string by the digest's hex text. *)
Definition hash_sha256_string (input : bytes) : bytes := picosha2.hash256_hex_string input.
Definition hash_double_sha256_string (input : bytes) : bytes :=
  hash_sha256_string (hash_sha256_string input).

(** A new hasher, whose uninitialised data buffer holds [buffer]. *)
Definition hash_ripemd160 (aligned : bool) (buffer input : bytes) : result bytes :=
  '(ripemd160_hash, _) ← iterhash.CalculateDigest ripemd.RIPEMD160 aligned
                           (iterhash.construct ripemd.RIPEMD160 buffer) input;
  Ok ripemd160_hash.

End crypto.

(** The instance: SHA-256 as the code computes it, and the function that
    [hash_ripemd160] returns ([hash_ripemd160_total]). *)
#[export] Instance siliqua_hashes : HashFns :=
  { sha256 := crypto.hash_sha256; ripemd160 := ripemd160_spec.RIPEMD160 }.

#[export] Instance siliqua_hash_laws : HashLaws.
Proof.
  split; intros m.
  - apply hash256_length.
  - apply hash256_ok.
  - apply RIPEMD160_length.
  - apply RIPEMD160_ok.
Qed.

(** [hash_ripemd160] returns RIPEMD-160 of its input, whatever its buffer held. *)
Lemma hash_ripemd160_total aligned buffer input :
  length buffer = 64%nat -> size_of input < 2 ^ 64 ->
  crypto.hash_ripemd160 aligned buffer input = Ok (ripemd160 input).
Proof.
  intros Hb Hi. unfold crypto.hash_ripemd160.
  destruct (calculate_digest (T := ripemd.RIPEMD160) aligned
              (iterhash.construct ripemd.RIPEMD160 buffer) input) as (h & -> & _); [|done..].
  by apply construct_absorbed.
Qed.
