(* ===== verification/Base58.v ===== *)
(** wallet/base58.h: Base58 and Base58Check address encoding. *)
From S2P Require Import Prelude Crypto.

(** ** The conversion loop shared by [base58_encode] and [base58_decode]

    For each digit from the back, while the carry is not zero or the digit index [j]
    is below [length]: the carry grows by [mul] times the digit, the digit becomes
    the carry modulo [base], and the carry is divided by [base].  The digits are
    listed from the back; the loop leaves the digits, the carry and [j]. *)
Fixpoint carry_loop (mul base : Z) (length j : nat) (carry : Z) (rdigits : list Z)
    : list Z * Z * nat :=
  match rdigits with
  | [] => ([], carry, j)
  | d :: rest =>
      if decide (carry <> 0 \/ (j < length)%nat) then
        let carry := carry + mul * d in
        let '(rest', carry', j') := carry_loop mul base length (S j) (carry / base) rest in
        (u8 (carry mod base) :: rest', carry', j')
      else (rdigits, carry, j)
  end.

(** One input symbol: the digit vector and the number of digits in use. *)
Definition convert_symbol (mul base : Z) (st : list Z * nat) (symbol : Z) : list Z * nat :=
  let '(digits, length) := st in
  let '(rdigits, _, j) := carry_loop mul base length 0 symbol (rev digits) in
  (rev rdigits, j).

(** [while (i < v.size() && v[i] == x) i++]. *)
Fixpoint count_leading (x : Z) (v : bytes) : nat :=
  match v with
  | y :: v' => if decide (y = x) then S (count_leading x v') else O
  | [] => O
  end.

(** [while (it != end && *it == 0) ++it], returning what is left. *)
Fixpoint skip_zeros (v : list Z) : list Z :=
  match v with
  | 0 :: v' => skip_zeros v'
  | _ => v
  end.

(** The significant digits: [digits.begin() + (digits.size() - length)] onwards,
    without leading zeros. *)
Definition significant (digits : list Z) (len : nat) : list Z :=
  skip_zeros (drop (length digits - len) digits).

Definition BASE58_ALPHABET : bytes :=
  str "123456789ABCDEFGHJKLMNPQRSTUVWXYZabcdefghijkmnopqrstuvwxyz".
Definition ADDRESS_VERSION_BYTE : Z := 0x1E.
Definition ADDRESS_SIZE : nat := 20.

Definition base58_encode (input : bytes) : bytes :=
  let leading_zeros := count_leading 0 input in
  let digits := replicate ((length input - leading_zeros) * 138 / 100 + 1) 0 in
  let '(digits, length) :=
    fold_left (convert_symbol 256 58) (drop leading_zeros input) (digits, O) in
  replicate leading_zeros 49 ++ ((fun d => BASE58_ALPHABET !!! Z.to_nat d) <$> significant digits length).

(** [std::strchr(BASE58_ALPHABET, c) - BASE58_ALPHABET]; the terminating NUL, which
    strchr also finds, is refused by the caller's own test. *)
Fixpoint strchr_index (s : bytes) (c : Z) : option Z :=
  match s with
  | [] => None
  | x :: s' => if decide (x = c) then Some 0 else Z.succ <$> strchr_index s' c
  end.

Definition base58_decode (s : bytes) : result bytes :=
  let leading_ones := count_leading 49 s in
  let digits := replicate ((length s - leading_ones) * 733 / 1000 + 1) 0 in
  '(digits, length) ←
    for_each (fun st c =>
      match strchr_index BASE58_ALPHABET c with
      | None => Throw invalid_argument
      | Some pos => Ok (convert_symbol 58 256 st pos)
      end) (digits, O) (drop leading_ones s);
  Ok (replicate leading_ones 0 ++ significant digits length).

(** ** Addresses *)

Section Address.
Context `{HashFns}.

Definition encode_address (address : bytes) : bytes :=
  let payload := [ADDRESS_VERSION_BYTE] ++ address in
  let checksum := hash_double_sha256 payload in
  let payload := payload ++ take 4 checksum in
  base58_encode payload.

Definition decode_address (text : bytes) : result bytes :=
  decoded ← base58_decode text;
  if decide (length decoded <> 1 + ADDRESS_SIZE + 4)%nat then Throw invalid_argument
  else if decide (decoded !!! 0%nat <> ADDRESS_VERSION_BYTE) then Throw invalid_argument
  else
    let payload := take (length decoded - 4) decoded in
    let checksum := hash_double_sha256 payload in
    if decide (drop (length decoded - 4) decoded <> take 4 checksum) then Throw invalid_argument
    else Ok (slice decoded 1 ADDRESS_SIZE).

End Address.

(** ** Positional values *)

(** Little-endian value of a digit list. *)
Fixpoint lv (base : Z) (ds : list Z) : Z :=
  match ds with
  | [] => 0
  | d :: ds => d + base * lv base ds
  end.
Definition digits_ok (base : Z) (ds : list Z) : Prop := Forall (fun d => 0 <= d < base) ds.
(** Big-endian value. *)
Definition bv (base : Z) (ds : list Z) : Z := lv base (rev ds).

Section Values.
Context (base : Z) (Hbase : 1 < base).

Lemma lv_app a b : lv base (a ++ b) = lv base a + base ^ Z.of_nat (length a) * lv base b.
Proof.
  induction a as [|x a IH]; simpl lv; simpl app; [rewrite Z.pow_0_r; lia|].
  simpl lv. rewrite IH. simpl length. rewrite Nat2Z.inj_succ, Z.pow_succ_r by lia. ring.
Qed.

Lemma lv_range ds : digits_ok base ds -> 0 <= lv base ds < base ^ Z.of_nat (length ds).
Proof.
  induction 1 as [|d ds Hd _ IH]; simpl lv; [simpl; lia|].
  simpl length. rewrite Nat2Z.inj_succ, Z.pow_succ_r by lia. nia.
Qed.

Lemma lv_zeros ds : Forall (eq 0) ds -> lv base ds = 0.
Proof. induction 1 as [|d ds <- _ IH]; simpl; [done|]. rewrite IH. lia. Qed.

Lemma lv_inj a b :
  length a = length b -> digits_ok base a -> digits_ok base b -> lv base a = lv base b -> a = b.
Proof.
  intros Hl Ha. revert b Hl. induction Ha as [|x a Hx Ha IH]; intros [|y b]; try done.
  intros [= Hl] [Hy Hb]%Forall_cons. simpl. intros He.
  pose proof (lv_range a Ha). pose proof (lv_range b Hb).
  assert (lv base a = lv base b) as E by nia. f_equal; [nia | by apply IH].
Qed.

Lemma bv_snoc ds d : bv base (ds ++ [d]) = bv base ds * base + d.
Proof. unfold bv. rewrite rev_app_distr. simpl. lia. Qed.

Lemma bv_cons d ds : bv base (d :: ds) = d * base ^ Z.of_nat (length ds) + bv base ds.
Proof. unfold bv. simpl. rewrite lv_app, length_rev. simpl. lia. Qed.

Lemma bv_range ds : digits_ok base ds -> 0 <= bv base ds < base ^ Z.of_nat (length ds).
Proof. intros H. unfold bv. rewrite <- length_rev. by apply lv_range, Forall_rev. Qed.

(** Digit lists without a leading zero are determined by their value. *)
Definition no_leading_zero (ds : list Z) : Prop :=
  match ds with d :: _ => d <> 0 | [] => True end.

Lemma bv_length_lower ds :
  digits_ok base ds -> no_leading_zero ds -> ds <> [] ->
  base ^ (Z.of_nat (length ds) - 1) <= bv base ds.
Proof.
  destruct ds as [|d ds]; [done|]. intros [Hd Hds]%Forall_cons Hn _. simpl in Hn.
  rewrite bv_cons. pose proof (bv_range ds Hds). simpl length.
  replace (Z.of_nat (S (length ds)) - 1) with (Z.of_nat (length ds)) by lia.
  assert (0 < base ^ Z.of_nat (length ds)) by (apply Z.pow_pos_nonneg; lia). nia.
Qed.

Lemma bv_length_le a b :
  digits_ok base a -> digits_ok base b -> no_leading_zero a ->
  bv base a <= bv base b -> (length a <= length b)%nat.
Proof.
  intros Ha Hb Hn He. destruct (decide (a = [])) as [->|Hne]; [simpl; lia|].
  pose proof (bv_length_lower a Ha Hn Hne). pose proof (bv_range b Hb).
  destruct (decide (length a <= length b)%nat) as [|Hlt]; [done|].
  assert (base ^ Z.of_nat (length b) <= base ^ (Z.of_nat (length a) - 1)).
  { apply Z.pow_le_mono_r; lia. }
  lia.
Qed.

Lemma bv_inj_canonical a b :
  digits_ok base a -> digits_ok base b -> no_leading_zero a -> no_leading_zero b ->
  bv base a = bv base b -> a = b.
Proof.
  intros Ha Hb Hna Hnb He.
  pose proof (bv_length_le a b Ha Hb Hna ltac:(lia)).
  pose proof (bv_length_le b a Hb Ha Hnb ltac:(lia)).
  rewrite <- (rev_involutive a), <- (rev_involutive b). f_equal.
  apply lv_inj; [rewrite !length_rev; lia | by apply Forall_rev.. | exact He].
Qed.

Lemma skip_zeros_no_leading ds : no_leading_zero (skip_zeros ds).
Proof. induction ds as [|[|p|p] ds IH]; simpl; done. Qed.

Lemma skip_zeros_bv ds : bv base (skip_zeros ds) = bv base ds.
Proof.
  induction ds as [|[|p|p] ds IH]; simpl skip_zeros; try done.
  rewrite IH, bv_cons. lia.
Qed.

Lemma skip_zeros_id ds : no_leading_zero ds -> skip_zeros ds = ds.
Proof. destruct ds as [|[|p|p] ds]; simpl; done. Qed.

Lemma skip_zeros_ok ds : digits_ok base ds -> digits_ok base (skip_zeros ds).
Proof. induction 1 as [|[|p|p] ds Hd Hds IH]; simpl; auto; by constructor. Qed.

End Values.

(** ** The conversion loop computes mul * value + symbol *)

Section Convert.
Context (mul base : Z) (Hmul : 1 < mul) (Hbase : 1 < base <= 256).

Lemma carry_loop_spec len j carry rd rd' c' j' :
  digits_ok base rd -> 0 <= carry -> Forall (eq 0) (drop (len - j) rd) ->
  carry_loop mul base len j carry rd = (rd', c', j') ->
  length rd' = length rd /\ digits_ok base rd' /\ 0 <= c' /\
  lv base rd' + c' * base ^ Z.of_nat (length rd) = mul * lv base rd + carry /\
  (j <= j')%nat /\ (j' - j <= length rd)%nat /\ Forall (eq 0) (drop (j' - j) rd').
Proof.
  revert j carry rd' c' j'. induction rd as [|d rd IH]; intros j carry rd' c' j' Hok Hc Hz; simpl.
  - intros [= <- <- <-]. simpl. rewrite drop_nil. repeat split; try done; try lia.
  - apply Forall_cons in Hok as [Hd Hrd]. case_decide as Hgo.
    + destruct (carry_loop mul base len (S j) ((carry + mul * d) / base) rd)
        as [[rest c] k] eqn:E. intros [= <- <- <-].
      assert (0 <= carry + mul * d) by nia.
      apply IH in E as (Hl & Hok & Hc' & Hv & Hj & Hk & Hz'); try done.
      2: { apply Z.div_pos; lia. }
      2: { destruct (len - j)%nat as [|n] eqn:En.
           - replace (len - S j)%nat with 0%nat by lia.
             simpl in Hz. by apply Forall_cons in Hz as [_ Hz].
           - replace (len - S j)%nat with n by lia. done. }
      pose proof (Z.mod_pos_bound (carry + mul * d) base ltac:(lia)).
      assert (u8 ((carry + mul * d) mod base) = (carry + mul * d) mod base) as Hu.
      { apply Z.mod_small. lia. }
      pose proof (Z.div_mod (carry + mul * d) base ltac:(lia)).
      simpl length. rewrite Hu. split; [lia|]. split; [by constructor|]. split; [done|].
      split; [|split; [lia|split; [lia|]]].
      * simpl lv. rewrite Nat2Z.inj_succ, Z.pow_succ_r by lia. nia.
      * replace (k - j)%nat with (S (k - S j)) by lia. done.
    + intros [= <- <- <-]. assert (carry = 0) as -> by lia.
      replace (len - j)%nat with 0%nat in Hz by lia.
      rewrite drop_0 in Hz. simpl lv. pose proof (lv_zeros base (d :: rd) Hz) as H0.
      simpl in H0. rewrite Nat.sub_diag, drop_0.
      split; [done|]. split; [by constructor|]. split; [lia|]. split; [nia|].
      split; [lia|]. split; [lia | done].
Qed.

(** The digit vector stands for [v]: enough digits, zeros above the length used. *)
Definition represents (st : list Z * nat) (cap : nat) (v : Z) : Prop :=
  let '(digits, len) := st in
  length digits = cap /\ digits_ok base digits /\ bv base digits = v /\
  (len <= cap)%nat /\ Forall (eq 0) (drop len (rev digits)).

Lemma convert_symbol_spec st cap v symbol :
  represents st cap v -> 0 <= symbol -> mul * v + symbol < base ^ Z.of_nat cap ->
  represents (convert_symbol mul base st symbol) cap (mul * v + symbol).
Proof.
  destruct st as [digits len]. intros (Hl & Hok & Hv & Hle & Hz) Hs Hcap. unfold convert_symbol.
  destruct (carry_loop mul base len 0 symbol (rev digits)) as [[rd c] j] eqn:E.
  apply carry_loop_spec in E as (Hl' & Hok' & Hc & Hval & _ & Hj & Hz'); try done.
  2: { by apply Forall_rev. }
  2: { by rewrite Nat.sub_0_r. }
  rewrite length_rev, Hl, Nat.sub_0_r in *. fold (bv base digits) in Hval. rewrite Hv in Hval.
  pose proof (lv_range base ltac:(lia) rd Hok').
  assert (0 < base ^ Z.of_nat cap) by (apply Z.pow_pos_nonneg; lia).
  assert (c = 0) as -> by nia.
  unfold represents, bv. rewrite rev_involutive, length_rev. repeat split; try done.
  - by apply Forall_rev.
  - lia.
Qed.

Lemma represents_0 cap : represents (replicate cap 0, 0%nat) cap 0.
Proof.
  unfold represents. rewrite length_replicate. split; [done|].
  assert (forall n, rev (replicate n 0) = replicate n 0) as Hrev.
  { induction n as [|n IH]; [done|]. simpl. rewrite IH. by rewrite <- replicate_cons_app. }
  split; [apply Forall_replicate; lia|]. unfold bv. rewrite Hrev.
  split; [|split; [lia|]]; [apply lv_zeros|]; try apply Forall_drop; by apply Forall_replicate.
Qed.

(** The digits read off at the end. *)
Lemma significant_spec digits len cap v :
  represents (digits, len) cap v -> significant digits len = skip_zeros digits.
Proof.
  intros (Hl & Hok & Hv & Hle & Hz). unfold significant.
  rewrite <- (take_drop (length digits - len) digits) at 3.
  assert (Forall (eq 0) (take (length digits - len) digits)) as Ht.
  { rewrite skipn_rev in Hz. apply Forall_rev in Hz. by rewrite rev_involutive in Hz. }
  induction Ht as [|x l <- _ IH]; simpl; [done | exact IH].
Qed.

Lemma convert_all st cap v symbols :
  represents st cap v -> digits_ok mul symbols ->
  v * mul ^ Z.of_nat (length symbols) + bv mul symbols < base ^ Z.of_nat cap -> 0 <= v ->
  represents (fold_left (convert_symbol mul base) symbols st) cap
             (v * mul ^ Z.of_nat (length symbols) + bv mul symbols).
Proof.
  revert st v. induction symbols as [|s symbols IH]; intros st v Hst Hok Hcap Hv.
  - simpl. unfold bv in *. simpl in *. by rewrite Z.mul_1_r, Z.add_0_r.
  - apply Forall_cons in Hok as [Hs Hok]. rewrite bv_cons in *. simpl length in *.
    rewrite Nat2Z.inj_succ, Z.pow_succ_r in * by lia.
    pose proof (bv_range mul Hmul symbols Hok).
    assert (0 < mul ^ Z.of_nat (length symbols)) by (apply Z.pow_pos_nonneg; lia).
    simpl fold_left. replace (v * _ + _) with
      ((mul * v + s) * mul ^ Z.of_nat (length symbols) + bv mul symbols) in * by ring.
    apply IH; [|done|done|nia]. apply convert_symbol_spec; [done | lia|].
    eapply Z.le_lt_trans; [|exact Hcap]. nia.
Qed.

End Convert.

(** ** Capacity: the digit vectors are long enough *)

(** A growth bound that gains nothing over a period [p] follows from its first [p]
    instances. *)
Lemma capacity_periodic (a b : Z) (p q num den : nat) :
  0 < a -> 0 < b -> (0 < p)%nat -> (q * den <= p * num)%nat -> (0 < den)%nat ->
  a ^ Z.of_nat p <= b ^ Z.of_nat q ->
  Forall (fun n => a ^ Z.of_nat n <= b ^ Z.of_nat (n * num / den + 1)) (seq 0 p) ->
  forall n, a ^ Z.of_nat n <= b ^ Z.of_nat (n * num / den + 1).
Proof.
  intros Ha Hb Hp Hpq Hden Hstep Hbase n. induction n as [n IH] using lt_wf_ind.
  destruct (decide (n < p)%nat) as [Hlt|Hge].
  { rewrite Forall_forall in Hbase. apply Hbase, elem_of_seq. lia. }
  specialize (IH (n - p)%nat ltac:(lia)).
  assert ((n - p) * num / den + q <= n * num / den)%nat as Hdiv.
  { rewrite <- Nat.div_add by lia. apply Nat.Div0.div_le_mono. nia. }
  apply Z.le_trans with (b ^ (Z.of_nat q + Z.of_nat ((n - p) * num / den + 1))).
  - replace (Z.of_nat n) with (Z.of_nat p + Z.of_nat (n - p)) by lia.
    rewrite !Z.pow_add_r by lia.
    apply Z.mul_le_mono_nonneg; try done; apply Z.pow_nonneg; lia.
  - apply Z.pow_le_mono_r; lia.
Qed.

(** log 256 / log 58 < 1.38. *)
Lemma encode_capacity n : 256 ^ Z.of_nat n <= 58 ^ Z.of_nat (n * 138 / 100 + 1).
Proof.
  apply (capacity_periodic 256 58 50 69 138 100);
    [lia..|apply Z.leb_le; vm_compute; reflexivity|].
  apply Forall_forall. intros k Hk. apply Z.leb_le.
  assert (forallb (fun n => 256 ^ Z.of_nat n <=? 58 ^ Z.of_nat (n * 138 / 100 + 1)) (seq 0 50)
            = true) as H by (vm_compute; reflexivity).
  rewrite forallb_forall in H. apply H. by apply list_elem_of_In.
Qed.

(** log 58 / log 256 < 0.733. *)
Lemma decode_capacity n : 58 ^ Z.of_nat n <= 256 ^ Z.of_nat (n * 733 / 1000 + 1).
Proof.
  apply (capacity_periodic 58 256 71 52 733 1000);
    [lia..|apply Z.leb_le; vm_compute; reflexivity|].
  apply Forall_forall. intros k Hk. apply Z.leb_le.
  assert (forallb (fun n => 58 ^ Z.of_nat n <=? 256 ^ Z.of_nat (n * 733 / 1000 + 1))
              (seq 0 71) = true) as H by (vm_compute; reflexivity).
  rewrite forallb_forall in H. apply H. by apply list_elem_of_In.
Qed.

(** ** The alphabet *)

Definition chars (ds : list Z) : bytes := (fun d => BASE58_ALPHABET !!! Z.to_nat d) <$> ds.

Lemma strchr_index_Some s c i :
  strchr_index s c = Some i -> 0 <= i < size_of s /\ s !!! Z.to_nat i = c.
Proof.
  revert i. induction s as [|x s IH]; intros i; simpl; [done|].
  rewrite size_of_cons. pose proof (size_of_nonneg s). case_decide as Hx.
  - intros [= <-]. split; [lia | done].
  - destruct (strchr_index s c) as [k|]; simpl; [|done]. intros [= <-].
    destruct (IH k eq_refl) as [Hk Hc]. split; [lia|].
    rewrite Z2Nat.inj_succ by lia. done.
Qed.

Lemma strchr_index_None s c : strchr_index s c = None <-> c ∉ s.
Proof.
  induction s as [|x s IH]; simpl.
  - split; [intros _; apply not_elem_of_nil | done].
  - rewrite not_elem_of_cons. case_decide as Hx.
    + split; [done|]. intros [? _]. congruence.
    + destruct (strchr_index s c) as [k|]; simpl.
      * split; [done|]. intros [_ H]. apply IH in H. done.
      * split; [|done]. intros _. split; [congruence | by apply IH].
Qed.

Lemma alphabet_index d : 0 <= d < 58 -> strchr_index BASE58_ALPHABET (BASE58_ALPHABET !!! Z.to_nat d) = Some d.
Proof.
  intros Hd.
  assert (forallb (fun n => bool_decide (strchr_index BASE58_ALPHABET (BASE58_ALPHABET !!! n)
            = Some (Z.of_nat n))) (seq 0 58) = true) as H by (vm_compute; reflexivity).
  rewrite forallb_forall in H. specialize (H (Z.to_nat d)).
  rewrite <- list_elem_of_In, elem_of_seq, bool_decide_eq_true, Z2Nat.id in H by lia.
  apply H. lia.
Qed.

Lemma alphabet_0 d : 0 <= d < 58 -> BASE58_ALPHABET !!! Z.to_nat d = 49 <-> d = 0.
Proof.
  intros Hd. split; [|by intros ->]. intros H.
  pose proof (alphabet_index d Hd) as H1. rewrite H in H1. vm_compute in H1. congruence.
Qed.

(** ** Leading symbols *)

Lemma count_leading_split x v :
  v = replicate (count_leading x v) x ++ drop (count_leading x v) v.
Proof.
  induction v as [|y v IH]; simpl; [done|]. case_decide as H; simpl; [|done].
  subst. by f_equal.
Qed.

Lemma count_leading_replicate x k v :
  match v with y :: _ => y <> x | [] => True end ->
  count_leading x (replicate k x ++ v) = k.
Proof.
  intros Hv. induction k as [|k IH]; simpl.
  - destruct v as [|y v]; simpl; [done|]. by rewrite decide_False.
  - by rewrite decide_True, IH.
Qed.

Lemma drop_count_leading_head x v :
  match drop (count_leading x v) v with y :: _ => y <> x | [] => True end.
Proof. induction v as [|y v IH]; simpl; [done|]. by case_decide. Qed.

Lemma drop_count_leading_0 v : no_leading_zero (drop (count_leading 0 v) v).
Proof. apply (drop_count_leading_head 0). Qed.

(** ** The two directions *)

Lemma convert_symbols mul base (n : nat) symbols num den :
  1 < mul -> 1 < base <= 256 -> digits_ok mul symbols ->
  mul ^ Z.of_nat (length symbols) <= base ^ Z.of_nat (length symbols * num / den + 1) ->
  exists digits len,
    fold_left (convert_symbol mul base) symbols
      (replicate (length symbols * num / den + 1) 0, 0%nat) = (digits, len) /\
    digits_ok base (significant digits len) /\ no_leading_zero (significant digits len) /\
    bv base (significant digits len) = bv mul symbols.
Proof.
  intros Hm Hb Hok Hcap. set (cap := (length symbols * num / den + 1)%nat) in *.
  destruct (fold_left _ _ _) as [digits len] eqn:E. exists digits, len. split; [done|].
  assert (represents base (digits, len) cap (bv mul symbols)) as Hr.
  { rewrite <- E. rewrite <- (Z.add_0_l (bv mul symbols)).
    rewrite <- (Z.mul_0_l (mul ^ Z.of_nat (length symbols))).
    pose proof (bv_range mul Hm symbols Hok).
    apply convert_all; try done; [apply represents_0; lia | lia]. }
  rewrite (significant_spec base digits len cap _ Hr). destruct Hr as (_ & Hd & Hv & _).
  split; [by apply skip_zeros_ok|]. split; [apply skip_zeros_no_leading|].
  rewrite skip_zeros_bv. done.
Qed.

Lemma base58_encode_spec x :
  bytes_ok x ->
  exists ds, base58_encode x = replicate (count_leading 0 x) 49 ++ chars ds /\
    digits_ok 58 ds /\ no_leading_zero ds /\
    bv 58 ds = bv 256 (drop (count_leading 0 x) x).
Proof.
  intros Hx. unfold base58_encode. rewrite <- length_drop.
  set (rest := drop (count_leading 0 x) x).
  assert (digits_ok 256 rest) as Hr by (by apply Forall_drop).
  destruct (convert_symbols 256 58 0 rest 138 100) as (ds & len & -> & H1 & H2 & H3);
    [lia | lia | done | apply encode_capacity|].
  exists (significant ds len). done.
Qed.

Lemma for_each_chars st ds :
  digits_ok 58 ds ->
  for_each (fun st c => match strchr_index BASE58_ALPHABET c with
                        | None => Throw invalid_argument
                        | Some pos => Ok (convert_symbol 58 256 st pos)
                        end) st (chars ds)
  = Ok (fold_left (convert_symbol 58 256) ds st).
Proof.
  intros H. revert st. induction H as [|d ds Hd _ IH]; intros st; [done|].
  cbn [chars fmap list_fmap for_each fold_left]. rewrite alphabet_index by done. apply IH.
Qed.

Lemma base58_decode_spec s ds :
  digits_ok 58 ds -> drop (count_leading 49 s) s = chars ds ->
  exists bs, base58_decode s = Ok (replicate (count_leading 49 s) 0 ++ bs) /\
    digits_ok 256 bs /\ no_leading_zero bs /\ bv 256 bs = bv 58 ds.
Proof.
  intros Hd Hs. unfold base58_decode. rewrite <- length_drop, Hs.
  assert (length (chars ds) = length ds) as -> by apply length_fmap.
  rewrite for_each_chars by done.
  destruct (convert_symbols 58 256 0 ds 733 1000) as (bs & len & -> & H1 & H2 & H3);
    [lia | lia | done | apply decode_capacity|].
  exists (significant bs len). done.
Qed.

(** The characters of a string that decodes are digits. *)
Lemma valid_chars (l : bytes) :
  Forall (fun c => c ∈ BASE58_ALPHABET) l -> exists ds, digits_ok 58 ds /\ l = chars ds.
Proof.
  induction 1 as [|c l Hc _ (ds & Hd & ->)]; [exists []; split; [constructor | done]|].
  destruct (strchr_index BASE58_ALPHABET c) as [d|] eqn:E;
    [|by apply strchr_index_None in E].
  apply strchr_index_Some in E as [Hr Hc']. exists (d :: ds). split.
  - constructor; [exact Hr | done].
  - unfold chars. by rewrite fmap_cons, Hc'.
Qed.

Lemma for_each_invalid st l :
  ~ Forall (fun c => c ∈ BASE58_ALPHABET) l ->
  for_each (fun st c => match strchr_index BASE58_ALPHABET c with
                        | None => Throw invalid_argument
                        | Some pos => Ok (convert_symbol 58 256 st pos)
                        end) st l = Throw invalid_argument.
Proof.
  revert st. induction l as [|c l IH]; intros st Hn; [destruct Hn; constructor|].
  cbn [for_each]. destruct (strchr_index BASE58_ALPHABET c) as [d|] eqn:E; [|reflexivity].
  cbn [mbind result_bind].
  apply IH. intros Hl. apply Hn. constructor; [|done].
  apply strchr_index_Some in E as [Hr <-]. apply list_elem_of_lookup_total_2.
  unfold size_of in Hr. lia.
Qed.

Lemma leading_ones_valid s :
  Forall (fun c => c ∈ BASE58_ALPHABET) s <->
  Forall (fun c => c ∈ BASE58_ALPHABET) (drop (count_leading 49 s) s).
Proof.
  split; [apply Forall_drop|]. intros H. rewrite (count_leading_split 49 s).
  apply Forall_app. split; [|done]. apply Forall_replicate.
  vm_compute. apply list_elem_of_here.
Qed.

(** [base58_decode] on valid text is the inverse of [base58_encode]. *)
Lemma decode_encode x : bytes_ok x -> base58_decode (base58_encode x) = Ok x.
Proof.
  intros Hx. destruct (base58_encode_spec x Hx) as (ds & -> & Hd & Hn & Hv).
  set (lz := count_leading 0 x) in *.
  assert (match chars ds with y :: _ => y <> 49 | [] => True end) as Hhead.
  { destruct Hd as [|d ds Hd _]; simpl; [done|]. simpl in Hn. by rewrite alphabet_0. }
  assert (count_leading 49 (replicate lz 49 ++ chars ds) = lz) as Hc
    by (by apply count_leading_replicate).
  destruct (base58_decode_spec (replicate lz 49 ++ chars ds) ds Hd) as (bs & -> & Hb & Hnb & Hvb).
  { rewrite Hc. by rewrite drop_app_length' by (by rewrite length_replicate). }
  rewrite Hc. f_equal. rewrite (count_leading_split 0 x). fold lz. f_equal.
  apply (bv_inj_canonical 256);
    [lia | done | by apply Forall_drop | done | apply drop_count_leading_0 | congruence].
Qed.

Lemma decode_Ok_inv s b :
  base58_decode s = Ok b -> bytes_ok b /\ base58_encode b = s.
Proof.
  intros H. destruct (decide (Forall (fun c => c ∈ BASE58_ALPHABET)
                       (drop (count_leading 49 s) s))) as [Hv|Hn].
  2: { unfold base58_decode in H. rewrite for_each_invalid in H by done. discriminate. }
  destruct (valid_chars _ Hv) as (ds & Hd & Hs).
  destruct (base58_decode_spec s ds Hd Hs) as (bs & E & Hb & Hnb & Hvb).
  rewrite E in H. injection H as <-. set (lo := count_leading 49 s) in *.
  assert (bytes_ok (replicate lo 0 ++ bs)) as Hok.
  { apply Forall_app. split; [by apply Forall_replicate | exact Hb]. }
  split; [done|].
  destruct (base58_encode_spec _ Hok) as (ds' & -> & Hd' & Hn' & Hv').
  rewrite count_leading_replicate in * by (destruct bs; done).
  rewrite drop_app_length' in Hv' by (by rewrite length_replicate).
  assert (ds' = ds) as ->.
  { apply (bv_inj_canonical 58); [lia | done | done | done | | congruence].
    pose proof (drop_count_leading_head 49 s) as Hh. fold lo in Hh. rewrite Hs in Hh.
    destruct Hd as [|d ds Hd _]; simpl in *; [done|]. by rewrite alphabet_0 in Hh. }
  rewrite <- Hs. symmetry. apply count_leading_split.
Qed.

(** Decoding returns or throws. *)
Lemma base58_decode_cases s :
  (base58_decode s = Throw invalid_argument <-> ~ Forall (fun c => c ∈ BASE58_ALPHABET) s) /\
  (base58_decode s = Throw invalid_argument \/ exists b, base58_decode s = Ok b).
Proof.
  rewrite leading_ones_valid.
  destruct (decide (Forall (fun c => c ∈ BASE58_ALPHABET) (drop (count_leading 49 s) s)))
    as [Hv|Hn].
  - destruct (valid_chars _ Hv) as (ds & Hd & Hs).
    destruct (base58_decode_spec s ds Hd Hs) as (bs & -> & _).
    split; [split; [discriminate | intros Hn; by destruct Hn] | eauto].
  - assert (base58_decode s = Throw invalid_argument) as ->.
    { unfold base58_decode. by rewrite for_each_invalid. }
    split; [split; [intros _; exact Hn | done] | by left].
Qed.

Lemma decode_address_defined `{HashFns} text : decode_address text <> Ub /\ decode_address text <> Diverge.
Proof.
  unfold decode_address. destruct (base58_decode_cases text) as [_ [E | [b E]]]; rewrite E;
    cbn [mbind result_bind]; [done|]. repeat case_match; done.
Qed.

(** ** Theorems *)

(** C18.  Base58 is a bijection between byte strings and the strings over the
    alphabet: decoding succeeds with [b] exactly on the text that encoding [b]
    gives, whatever the number of leading zeros, and the fixed-size digit vectors
    never drop a carry. *)
Theorem base58_roundtrip s b :
  base58_decode s = Ok b <-> bytes_ok b /\ s = base58_encode b.
Proof.
  split.
  - intros H. destruct (decode_Ok_inv s b H). done.
  - intros [Hb ->]. by apply decode_encode.
Qed.

(** Decoding throws [invalid_argument] exactly when the text has a
    character outside the alphabet, and has no other failure. *)
Theorem base58_decode_error s :
  (base58_decode s = Throw invalid_argument <-> ~ Forall (fun c => c ∈ BASE58_ALPHABET) s) /\
  (base58_decode s = Throw invalid_argument \/ exists b, base58_decode s = Ok b).
Proof. apply base58_decode_cases. Qed.

Section AddressTheorems.
Context `{HashLaws}.

Lemma address_payload_ok a :
  bytes_ok a ->
  bytes_ok ([ADDRESS_VERSION_BYTE] ++ a ++ take 4 (hash_double_sha256 ([ADDRESS_VERSION_BYTE] ++ a))).
Proof.
  intros Ha. rewrite !Forall_app. split; [by repeat constructor|]. split; [done|].
  apply Forall_take, hash_double_sha256_ok.
Qed.

(** C19.  Address text and 20-byte addresses correspond exactly: an address
    decodes from the text [encode_address] prints, and [decode_address] accepts no
    other text, so a mistyped address is refused unless it is another address's
    own encoding. *)
Theorem address_roundtrip text a :
  decode_address text = Ok a <->
  length a = ADDRESS_SIZE /\ bytes_ok a /\ text = encode_address a.
Proof.
  pose proof (fun m => hash_double_sha256_length m) as Hlen. split.
  - unfold decode_address. intros Hd. inv_ok. rename a0 into d.
    destruct (decode_Ok_inv _ _ Ha) as [Hok <-].
    case_decide as H1; [discriminate|]. case_decide as H2; [discriminate|].
    case_decide as H3; [discriminate|]. injection Hd as <-.
    unfold ADDRESS_SIZE in *.
    split; [apply length_slice; lia|]. split; [by apply slice_Forall|].
    unfold encode_address. f_equal.
    destruct d as [|v d]; [done|]. simpl in H2. subst v.
    rewrite H1 in *. change (1 + 20 + 4 - 4)%nat with 21%nat in *.
    unfold slice. rewrite skipn_cons, drop_0. simpl in H1. injection H1 as H1.
    rewrite <- (take_drop 21 (_ :: d)) at 1. rewrite H3. done.
  - intros (Hl & Hok & ->). unfold decode_address, encode_address. rewrite <- app_assoc.
    rewrite decode_encode by (by apply address_payload_ok). cbn [mbind result_bind].
    set (sum := take 4 _). assert (length sum = 4%nat) as Hs.
    { unfold sum. rewrite length_take, Hlen. done. }
    unfold ADDRESS_SIZE in *.
    assert (length ([ADDRESS_VERSION_BYTE] ++ a ++ sum) = 25%nat) as HL
      by (rewrite !length_app, Hl, Hs; done).
    rewrite decide_False, decide_False by (rewrite ?HL; intros Hn; by apply Hn).
    rewrite HL. change (25 - 4)%nat with 21%nat.
    assert (length ([ADDRESS_VERSION_BYTE] ++ a) = 21%nat) as HL2 by (simpl; lia).
    rewrite app_assoc, take_app_length', drop_app_length' by done.
    rewrite decide_False by (intros Hn; by apply Hn).
    f_equal. unfold slice. rewrite <- app_assoc.
    change (drop 1 ([ADDRESS_VERSION_BYTE] ++ a ++ sum)) with (a ++ sum).
    by rewrite take_app_length'.
Qed.

End AddressTheorems.

Lemma address_roundtrip_witness :
  @decode_address toy_hashes (@encode_address toy_hashes (replicate 20 9)) = Ok (replicate 20 9).
Proof.
  refine (proj2 (@address_roundtrip toy_hashes toy_hash_laws _ (replicate 20 9)) _).
  split; [reflexivity|]. split; [|reflexivity].
  apply (bool_decide_unpack _). vm_compute. reflexivity.
Defined.
