(* ===== verification/Script.v ===== *)
(** wallet/script.h: the P2PKH script engine. *)
From S2P Require Import Prelude.
From S2P Require Import Crypto.
From S2P Require Import Ecdsa.
From S2P Require Import Base58.
From S2P Require Import Ripemd160.
From S2P Require Import Hashes.

Definition OP_DUP : Z := 0x76.
Definition OP_HASH160 : Z := 0xa9.
Definition OP_EQUALVERIFY : Z := 0x88.
Definition OP_CHECKSIG : Z := 0xac.

Definition build_p2pkh_script_pubkey (address : bytes) : bytes :=
  let s := [] in
  let s := s ++ [OP_DUP] in
  let s := s ++ [OP_HASH160] in
  let s := s ++ [u8 (size_of address)] in
  let s := s ++ address in
  let s := s ++ [OP_EQUALVERIFY] in
  s ++ [OP_CHECKSIG].

Definition build_script_sig (signature pubkey : bytes) : bytes :=
  let s := [] in
  let s := s ++ [u8 (size_of signature)] in
  let s := s ++ signature in
  let s := s ++ [u8 (size_of pubkey)] in
  s ++ pubkey.

(** The address of a script of exactly the P2PKH form ([None] when it returns false). *)
Definition extract_p2pkh_address (script_pubkey : bytes) : option bytes :=
  if decide (length script_pubkey <> 3 + ADDRESS_SIZE + 2)%nat then None
  else if decide (script_pubkey !!! 0%nat <> OP_DUP \/ script_pubkey !!! 1%nat <> OP_HASH160
                  \/ script_pubkey !!! 2%nat <> Z.of_nat ADDRESS_SIZE) then None
  else if decide (script_pubkey !!! (3 + ADDRESS_SIZE)%nat <> OP_EQUALVERIFY
                  \/ script_pubkey !!! (4 + ADDRESS_SIZE)%nat <> OP_CHECKSIG) then None
  else Some (slice script_pubkey 3 ADDRESS_SIZE).

Section Evaluate.
Context `{HashFns, Secp256k1}.

(** The stack, top first. *)
Abbreviation stack := (list bytes).

(** The body of the loop for an opcode that is not a push; [None] is [return false]. *)
Definition run_op (op : Z) (st : stack) (sighash : bytes) : option stack :=
  if decide (op = OP_DUP) then
    match st with [] => None | top :: _ => Some (top :: st) end
  else if decide (op = OP_HASH160) then
    match st with [] => None | top :: rest => Some (ripemd160 (sha256 top) :: rest) end
  else if decide (op = OP_EQUALVERIFY) then
    match st with
    | a :: b :: rest => if decide (a <> b) then None else Some rest
    | _ => None
    end
  else if decide (op = OP_CHECKSIG) then
    match st with
    | pubkey_bytes :: sig_bytes :: rest =>
        let ok := verify_raw_signature sig_bytes pubkey_bytes sighash in
        Some ((if ok then [1] else []) :: rest)
    | _ => None
    end
  else None.

(** The loop of [evaluate]: the final stack, or [None] when it returned false. *)
Fixpoint run (fuel : nat) (program : bytes) (i : nat) (st : stack) (sighash : bytes)
    : result (option stack) :=
  if (i <? length program)%nat then
    match fuel with
    | O => Diverge
    | S fuel =>
        let op := program !!! i in
        let i := S i in
        if decide (1 <= op <= 75) then
          let n := Z.to_nat op in
          if (length program <? i + n)%nat then Ok None
          else run fuel program (i + n) (slice program i n :: st) sighash
        else
          match run_op op st sighash with
          | None => Ok None
          | Some st => run fuel program i st sighash
          end
    end
  else Ok (Some st).

(** The test on the final stack. *)
Definition truthy (st : stack) : bool :=
  match st with
  | [] => false
  | top :: _ => match last top with None => false | Some b => bool_decide (b <> 0) end
  end.

Definition evaluate (script_sig script_pubkey sighash : bytes) : result bool :=
  let program := script_sig ++ script_pubkey in
  r ← run (length program) program 0 [] sighash;
  Ok (match r with None => false | Some st => truthy st end).

End Evaluate.

(** ** Lemmas *)

Lemma last_app_cons {A} (l : list A) x : last (l ++ [x]) = Some x.
Proof. apply last_snoc. Qed.

Lemma build_p2pkh_eq a :
  build_p2pkh_script_pubkey a
  = [OP_DUP; OP_HASH160; u8 (size_of a)] ++ a ++ [OP_EQUALVERIFY; OP_CHECKSIG].
Proof. unfold build_p2pkh_script_pubkey. cbn. by rewrite <- app_assoc. Qed.
Lemma build_p2pkh_length a : length (build_p2pkh_script_pubkey a) = (length a + 5)%nat.
Proof. rewrite build_p2pkh_eq, !length_app. simpl. lia. Qed.
Lemma build_script_sig_eq s pk :
  build_script_sig s pk = u8 (size_of s) :: s ++ u8 (size_of pk) :: pk.
Proof. unfold build_script_sig. cbn. by rewrite <- app_assoc. Qed.

Lemma build_p2pkh_ok a : bytes_ok a -> bytes_ok (build_p2pkh_script_pubkey a).
Proof.
  intros Ha. rewrite build_p2pkh_eq, !Forall_app.
  split_and!; [repeat constructor; (done || apply u8_range) | done | by repeat constructor].
Qed.
Lemma build_script_sig_ok s pk : bytes_ok s -> bytes_ok pk -> bytes_ok (build_script_sig s pk).
Proof.
  intros Hs Hp. rewrite build_script_sig_eq. constructor; [apply u8_range|].
  apply Forall_app. split; [done|]. constructor; [apply u8_range | done].
Qed.

(** [extract_p2pkh_address] recognises exactly the scripts the builder makes. *)
Lemma extract_build a : length a = ADDRESS_SIZE -> extract_p2pkh_address (build_p2pkh_script_pubkey a) = Some a.
Proof.
  intros Hl. unfold extract_p2pkh_address. rewrite build_p2pkh_length, Hl.
  rewrite decide_False by (intros Hn; by apply Hn). rewrite build_p2pkh_eq.
  rewrite decide_False.
  2: { intros [E|[E|E]]; apply E; try done. cbn. unfold size_of. by rewrite Hl. }
  unfold ADDRESS_SIZE in *.
  rewrite decide_False.
  2: { rewrite app_assoc.
       assert (length ([OP_DUP; OP_HASH160; u8 (size_of a)] ++ a) = 23%nat) as H23 by (simpl; lia).
       rewrite !list_lookup_total_alt, !lookup_app_r, H23 by (rewrite H23; lia).
       intros [E|E]; by apply E. }
  f_equal. change 3%nat with (length [OP_DUP; OP_HASH160; u8 (size_of a)]).
  rewrite <- Hl at 1. apply slice_app.
Qed.

Lemma extract_Some spk a :
  extract_p2pkh_address spk = Some a ->
  spk = build_p2pkh_script_pubkey a /\ length a = ADDRESS_SIZE.
Proof.
  unfold extract_p2pkh_address, ADDRESS_SIZE. case_decide as H1; [done|].
  case_decide as H2; [done|]. case_decide as H3; [done|]. intros [= <-].
  assert (length spk = 25%nat) as Hl by lia.
  assert (length (slice spk 3 20) = 20%nat) as Hs by (apply length_slice; lia).
  split; [|done].
  do 25 (destruct spk as [|? spk]; [discriminate|]). destruct spk; [|discriminate].
  apply Decidable.not_or in H2 as [E0 H2], H3 as [E3 E4]. apply Decidable.not_or in H2 as [E1 E2].
  cbn in E0, E1, E2, E3, E4. apply dec_stable in E0, E1, E2, E3, E4. subst. done.
Qed.

Section EvaluateFacts.
Context `{HashFns, Secp256k1}.

(** Each iteration consumes a byte of the program, so its length is fuel enough. *)
Lemma run_total fuel program i st sighash :
  (length program - i <= fuel)%nat -> exists r, run fuel program i st sighash = Ok r.
Proof.
  revert i st. induction fuel as [|fuel IH]; intros i st Hf; cbn [run];
    (destruct (Nat.ltb_spec i (length program)); [|by eexists]); [lia|].
  case_decide.
  - destruct (_ <? _)%nat; [by eexists | apply IH; lia].
  - destruct (run_op _ _ _); [apply IH; lia | by eexists].
Qed.

Lemma run_push fuel pre op data post st sighash :
  1 <= op <= 75 -> length data = Z.to_nat op ->
  run (S fuel) (pre ++ op :: data ++ post) (length pre) st sighash
  = run fuel (pre ++ op :: data ++ post) (length pre + S (length data)) (data :: st) sighash.
Proof.
  intros Hop Hl. cbn [run].
  rewrite (proj2 (Nat.ltb_lt _ _)) by (rewrite length_app; simpl; lia).
  rewrite list_lookup_total_middle by done. rewrite decide_True by done.
  rewrite (proj2 (Nat.ltb_ge _ _)) by (rewrite length_app; simpl; rewrite length_app; lia).
  rewrite Hl. replace (length pre + S (Z.to_nat op))%nat with (S (length pre) + Z.to_nat op)%nat by lia.
  do 2 f_equal. rewrite <- Hl.
  replace (pre ++ op :: data ++ post) with ((pre ++ [op]) ++ data ++ post) by (by rewrite <- app_assoc).
  replace (S (length pre)) with (length (pre ++ [op])) by (rewrite length_app; simpl; lia).
  by rewrite slice_app.
Qed.

Lemma run_code fuel pre op post st sighash :
  75 < op ->
  run (S fuel) (pre ++ op :: post) (length pre) st sighash
  = match run_op op st sighash with
    | None => Ok None
    | Some st => run fuel (pre ++ op :: post) (length pre + 1) st sighash
    end.
Proof.
  intros Hop. cbn [run].
  rewrite (proj2 (Nat.ltb_lt _ _)) by (rewrite length_app; simpl; lia).
  rewrite list_lookup_total_middle by done. rewrite decide_False by lia.
  by rewrite Nat.add_1_r.
Qed.

Lemma run_end fuel program i st sighash :
  (length program <= i)%nat -> run fuel program i st sighash = Ok (Some st).
Proof.
  intros Hi. destruct fuel; cbn [run]; by rewrite (proj2 (Nat.ltb_ge _ _)).
Qed.

(** A script signature that pushes all of the locking script makes it data. *)
Lemma evaluate_swallow spk b sighash :
  (length spk < 75)%nat -> b <> 0 -> evaluate [Z.of_nat (length spk) + 1] (spk ++ [b]) sighash = Ok true.
Proof.
  intros Hl Hb. unfold evaluate.
  pose proof (run_push (length spk + 1) [] (Z.of_nat (length spk) + 1) (spk ++ [b]) [] [] sighash
                ltac:(lia)) as E.
  rewrite app_nil_r in E. rewrite length_app in E. cbn [length app] in *.
  replace (S (length (spk ++ [b]))) with (S (length spk + 1)) by (rewrite length_app; simpl; lia).
  rewrite E by (simpl; lia). rewrite run_end by (simpl; rewrite length_app; simpl; lia).
  cbn [mbind result_bind truthy]. rewrite last_snoc. by rewrite bool_decide_true.
Qed.

End EvaluateFacts.

Section EvaluateTheorems.
Context `{HashFns, Secp256k1}.

Lemma run_code' fuel program pre op post i st sighash :
  program = pre ++ op :: post -> i = length pre -> 75 < op ->
  run (S fuel) program i st sighash
  = match run_op op st sighash with
    | None => Ok None
    | Some st => run fuel program (i + 1) st sighash
    end.
Proof. intros -> -> Hop. by apply run_code. Qed.
Lemma run_push' fuel program pre op data post i st sighash :
  program = pre ++ op :: data ++ post -> i = length pre -> 1 <= op <= 75 ->
  length data = Z.to_nat op ->
  run (S fuel) program i st sighash = run fuel program (i + S (length data)) (data :: st) sighash.
Proof. intros -> -> Hop Hd. by apply run_push. Qed.

(** The run of the locking script on the two pushed items. *)
Lemma run_p2pkh fuel program pre a pk sig i sighash :
  program = pre ++ build_p2pkh_script_pubkey a -> i = length pre ->
  (5 <= fuel)%nat -> length a = ADDRESS_SIZE ->
  run fuel program i [pk; sig] sighash
  = if decide (ripemd160 (sha256 pk) = a)
    then Ok (Some [if verify_raw_signature sig pk sighash then [1] else []])
    else Ok None.
Proof.
  intros Hp Hi Hf Hl. do 5 (destruct fuel as [|fuel]; [lia|]).
  rewrite build_p2pkh_eq in Hp. unfold ADDRESS_SIZE in Hl.
  assert (u8 (size_of a) = 20) as Hu by (unfold size_of; by rewrite Hl). rewrite Hu in Hp.
  cbn [app] in Hp.
  assert (length program = length pre + 25)%nat as HL
    by (rewrite Hp, !length_app; simpl; rewrite length_app; simpl; lia).
  rewrite (run_code' _ _ pre OP_DUP (OP_HASH160 :: 20 :: a ++ [OP_EQUALVERIFY; OP_CHECKSIG])) by done.
  change (run_op OP_DUP ?st ?h) with (Some (pk :: st)). cbv beta iota.
  rewrite (run_code' _ _ (pre ++ [OP_DUP]) OP_HASH160 (20 :: a ++ [OP_EQUALVERIFY; OP_CHECKSIG]));
    [|by rewrite Hp, <- app_assoc | rewrite length_app; simpl; lia | done].
  change (run_op OP_HASH160 (pk :: ?st) ?h) with (Some (ripemd160 (sha256 pk) :: st)). cbv beta iota.
  rewrite (run_push' _ _ (pre ++ [OP_DUP; OP_HASH160]) 20 a [OP_EQUALVERIFY; OP_CHECKSIG]);
    [|by rewrite Hp, <- app_assoc | rewrite length_app; simpl; lia | lia | by rewrite Hl].
  rewrite (run_code' _ _ (pre ++ [OP_DUP; OP_HASH160; 20] ++ a) OP_EQUALVERIFY [OP_CHECKSIG]);
    [|by rewrite Hp, <- !app_assoc | rewrite !length_app; simpl; lia | done].
  change (run_op OP_EQUALVERIFY [?x; ?y; ?z; ?w] ?h)
    with (if decide (x <> y) then None else Some [z; w]).
  destruct (decide (ripemd160 (sha256 pk) = a)) as [Ha|Ha].
  2: { rewrite decide_True by (by apply not_eq_sym). done. }
  rewrite decide_False by (intros Hn; by apply Hn). cbv beta iota.
  rewrite (run_code' _ _ (pre ++ [OP_DUP; OP_HASH160; 20] ++ a ++ [OP_EQUALVERIFY]) OP_CHECKSIG []);
    [|by rewrite Hp, <- !app_assoc | rewrite !length_app; simpl; lia | done].
  change (run_op OP_CHECKSIG [?x; ?y] ?h)
    with (Some [if verify_raw_signature y x h then [1] else []]). cbv beta iota.
  rewrite run_end; [done | lia].
Qed.

(** The result of [evaluate] on the two items and a P2PKH output. *)
Lemma evaluate_pushes sig pk a sighash :
  1 <= size_of sig <= 75 -> 1 <= size_of pk <= 75 -> length a = ADDRESS_SIZE ->
  evaluate (build_script_sig sig pk) (build_p2pkh_script_pubkey a) sighash
  = Ok (bool_decide (ripemd160 (sha256 pk) = a) && verify_raw_signature sig pk sighash).
Proof.
  intros Hs Hk Hl. unfold evaluate. set (program := _ ++ _).
  assert (program = (u8 (size_of sig) :: sig ++ u8 (size_of pk) :: pk) ++ build_p2pkh_script_pubkey a)
    as Hp by (unfold program; by rewrite build_script_sig_eq).
  clearbody program. cbn [app] in Hp. rewrite <- app_assoc in Hp. cbn [app] in Hp.
  rewrite !u8_id in Hp by (unfold in_u8; lia).
  assert (exists n, length program = S (S n) /\ 5 <= n)%nat as (n & -> & Hn).
  { exists (length sig + length pk + length a + 5)%nat. rewrite Hp. unfold size_of in *. simpl.
    rewrite !length_app. simpl. rewrite length_app, build_p2pkh_length. lia. }
  rewrite (run_push' _ _ [] (size_of sig) sig (size_of pk :: pk ++ build_p2pkh_script_pubkey a));
    [|done | done | done | by unfold size_of; rewrite Nat2Z.id].
  rewrite (run_push' _ _ (size_of sig :: sig) (size_of pk) pk (build_p2pkh_script_pubkey a));
    [|by rewrite Hp | simpl; lia | done | by unfold size_of; rewrite Nat2Z.id].
  rewrite (run_p2pkh _ _ (size_of sig :: sig ++ size_of pk :: pk) a);
    [| by rewrite Hp; cbn [app]; rewrite <- app_assoc | simpl; rewrite length_app; simpl; lia | done | done].
  destruct (decide (ripemd160 (sha256 pk) = a)); cbn [mbind result_bind].
  - rewrite bool_decide_true by done. by destruct (verify_raw_signature sig pk sighash).
  - by rewrite bool_decide_false.
Qed.

(** ** Theorems *)

(** [evaluate] always returns a verdict: each iteration consumes a
    byte of the program, so no pair of scripts makes the loop run on or throw. *)
Theorem evaluate_total script_sig script_pubkey sighash :
  exists b, evaluate script_sig script_pubkey sighash = Ok b.
Proof.
  unfold evaluate.
  destruct (run_total (length (script_sig ++ script_pubkey)) (script_sig ++ script_pubkey) 0 [] sighash)
    as [r ->]; [lia|]. by eexists.
Qed.

(** C14.  A signature script made of a signature and a key opens a P2PKH
    output exactly when the key hashes to the output's address and the signature
    verifies under it. *)
Theorem evaluate_p2pkh sig pk a sighash :
  1 <= size_of sig <= 75 -> 1 <= size_of pk <= 75 -> length a = ADDRESS_SIZE ->
  evaluate (build_script_sig sig pk) (build_p2pkh_script_pubkey a) sighash = Ok true <->
  ripemd160 (sha256 pk) = a /\ verify_raw_signature sig pk sighash = true.
Proof.
  intros Hs Hk Hl. rewrite evaluate_pushes by done.
  destruct (decide (ripemd160 (sha256 pk) = a)) as [Ha|Ha].
  - rewrite bool_decide_true by done. cbn [andb]. split; [intros [= E]; done | by intros [_ ->]].
  - rewrite bool_decide_false by done. split; [done | by intros [? _]].
Qed.

(** C33.  The one-byte signature script [0x19] opens every P2PKH
    output, whatever its address and the transaction that spends it: the byte is a
    push of 25 bytes, the whole locking script becomes data, none of its checks run,
    and its last byte is not zero. *)
Theorem evaluate_without_signature a sighash :
  length a = ADDRESS_SIZE ->
  evaluate [0x19] (build_p2pkh_script_pubkey a) sighash = Ok true.
Proof.
  intros Hl. unfold ADDRESS_SIZE in Hl.
  set (spk := [OP_DUP; OP_HASH160; u8 (size_of a)] ++ a ++ [OP_EQUALVERIFY]).
  assert (length spk = 24%nat) as H24 by (unfold spk; rewrite !length_app, Hl; done).
  pose proof (evaluate_swallow spk OP_CHECKSIG sighash) as E. rewrite H24 in E.
  assert (build_p2pkh_script_pubkey a = spk ++ [OP_CHECKSIG]) as ->.
  { unfold spk. rewrite build_p2pkh_eq, <- !app_assoc. done. }
  apply E; [lia | done].
Qed.

End EvaluateTheorems.

(** [extract_p2pkh_address] recognises exactly the scripts
    [build_p2pkh_script_pubkey] makes of 20-byte addresses, and gives the address back. *)
Theorem extract_p2pkh_address_iff spk a :
  extract_p2pkh_address spk = Some a <->
  spk = build_p2pkh_script_pubkey a /\ length a = ADDRESS_SIZE.
Proof. split; [apply extract_Some | intros [-> Hl]; by apply extract_build]. Qed.

Lemma evaluate_p2pkh_witness :
  let a := ripemd160_spec.RIPEMD160 (crypto.hash_sha256 (replicate 33 2)) in
  1 <= size_of (replicate 64 2) <= 75 /\ 1 <= size_of (replicate 33 2) <= 75 /\
  length a = ADDRESS_SIZE /\
  (@evaluate siliqua_hashes toy_secp (build_script_sig (replicate 64 2) (replicate 33 2))
     (build_p2pkh_script_pubkey a) (replicate 32 0) = Ok true <->
   @ripemd160 siliqua_hashes (@sha256 siliqua_hashes (replicate 33 2)) = a /\
   @verify_raw_signature siliqua_hashes toy_secp (replicate 64 2) (replicate 33 2)
     (replicate 32 0) = true).
Proof.
  intros a.
  assert (1 <= size_of (replicate 64 2) <= 75) as H1 by (unfold size_of; rewrite length_replicate; lia).
  assert (1 <= size_of (replicate 33 2) <= 75) as H2 by (unfold size_of; rewrite length_replicate; lia).
  assert (length a = ADDRESS_SIZE) as H3 by apply RIPEMD160_length.
  split; [exact H1|]. split; [exact H2|]. split; [exact H3|].
  exact (@evaluate_p2pkh siliqua_hashes toy_secp (replicate 64 2) (replicate 33 2) a (replicate 32 0)
           H1 H2 H3).
Defined.

Lemma evaluate_without_signature_witness :
  length (replicate 20 7) = ADDRESS_SIZE /\
  @evaluate siliqua_hashes toy_secp [0x19] (build_p2pkh_script_pubkey (replicate 20 7)) (replicate 32 0)
  = Ok true.
Proof.
  assert (length (replicate 20 7) = ADDRESS_SIZE) as Hl by reflexivity.
  exact (conj Hl (@evaluate_without_signature siliqua_hashes toy_secp (replicate 20 7) (replicate 32 0) Hl)).
Defined.
