(* ===== verification/Serializer.v ===== *)
(** The byte codec of core/serializer.h: little-endian writers that append to a
    buffer, and readers that take a buffer and an in-out cursor and throw
    [std::out_of_range] when the buffer is too short.

    The interface [Codec]/[CodecLaws] states what a pair of [Serialize] and
    [Deserialize] members promises to the code that nests it: reading succeeds
    exactly on the bytes that writing produces. *)
From S2P Require Import Prelude.

Module serializer.

(** [write_uint_32LE], [write_uint_64LE]: [push_back] of each byte in turn. *)
Definition write_uint_32LE (out : bytes) (value : Z) : bytes :=
  out ++ [u8 (Z.land value 0xFF)]
      ++ [u8 (Z.land (Z.shiftr value 8) 0xFF)]
      ++ [u8 (Z.land (Z.shiftr value 16) 0xFF)]
      ++ [u8 (Z.land (Z.shiftr value 24) 0xFF)].

Definition write_uint_64LE (out : bytes) (value : Z) : bytes :=
  out ++ [u8 (Z.land value 0xFF)]
      ++ [u8 (Z.land (Z.shiftr value 8) 0xFF)]
      ++ [u8 (Z.land (Z.shiftr value 16) 0xFF)]
      ++ [u8 (Z.land (Z.shiftr value 24) 0xFF)]
      ++ [u8 (Z.land (Z.shiftr value 32) 0xFF)]
      ++ [u8 (Z.land (Z.shiftr value 40) 0xFF)]
      ++ [u8 (Z.land (Z.shiftr value 48) 0xFF)]
      ++ [u8 (Z.land (Z.shiftr value 56) 0xFF)].

Definition write_var_int32 (out : bytes) (value : Z) : bytes :=
  write_uint_32LE out value.

Definition write_bytes (out data : bytes) : bytes := out ++ data.

(** A reader: buffer and cursor in, value and advanced cursor out.  The cursor is
    a local of the caller, so its value after an exception is not observed. *)
Definition reader (A : Type) : Type := bytes -> nat -> result (A * nat).

#[export] Instance reader_ret : MRet reader := fun _ a _ off => Ok (a, off).
#[export] Instance reader_bind : MBind reader := fun _ _ k m data off =>
  match m data off with
  | Ok (a, off') => k a data off'
  | Throw e => Throw e
  | Ub => Ub
  | Diverge => Diverge
  end.

(** [in.at(i)]. *)
Definition at_ (data : bytes) (i : nat) : result Z :=
  match data !! i with Some b => Ok b | None => Throw out_of_range end.

Definition read_uint_32LE : reader Z := fun data offset =>
  b0 ← at_ data offset;
  b1 ← at_ data (offset + 1);
  b2 ← at_ data (offset + 2);
  b3 ← at_ data (offset + 3);
  let value := Z.lor (Z.lor (Z.lor b0 (u32 (Z.shiftl b1 8))) (u32 (Z.shiftl b2 16)))
                     (u32 (Z.shiftl b3 24)) in
  Ok (value, (offset + 4)%nat).

Definition read_uint_64LE : reader Z := fun data offset =>
  value ← for_each (fun value i =>
      b ← at_ data (offset + i);
      Ok (Z.lor value (u64 (Z.shiftl b (8 * Z.of_nat i))))) 0 (seq 0 8);
  Ok (value, (offset + 8)%nat).

Definition read_var_int32 : reader Z := read_uint_32LE.

(** The guard [offset + len > in.size()] does not wrap: [offset] is at most a
    vector's size (below 2^63) and every [len] in the code is below 2^32. *)
Definition read_bytes (len : Z) : reader bytes := fun data offset =>
  if decide (Z.of_nat offset + len > size_of data) then Throw out_of_range
  else Ok (slice data offset (Z.to_nat len), (offset + Z.to_nat len)%nat).

Definition read_bytes32 : reader bytes := fun data offset =>
  if decide (Z.of_nat offset + 32 > size_of data) then Throw out_of_range
  else Ok (slice data offset 32, (offset + 32)%nat).

(** [for (i = 0; i < count; ++i) v.push_back(T::Deserialize(data, offset));] *)
Fixpoint read_list {A} (count : nat) (de : reader A) : reader (list A) :=
  match count with
  | O => mret []
  | S n => x ← de; xs ← read_list n de; mret (x :: xs)
  end.

(** The matching writer loop: each element's bytes inserted at the end. *)
Definition write_list {A} (ser : A -> bytes) (out : bytes) (l : list A) : bytes :=
  fold_left (fun buffer x => buffer ++ ser x) l out.

End serializer.
Export serializer.

(** ** Cursors *)

(** [reads data off bs off']: the buffer holds [bs] at the cursor [off], and the
    cursor just after them, within the buffer, is [off']. *)
Fixpoint reads (data : bytes) (off : nat) (bs : bytes) (off' : nat) : Prop :=
  match bs with
  | [] => off' = off /\ (off <= length data)%nat
  | b :: bs => data !! off = Some b /\ reads data (S off) bs off'
  end.

Lemma reads_le data off bs off' : reads data off bs off' -> (off' <= length data)%nat.
Proof. revert off; induction bs; intros off; simpl; [lia | intros [_ ?]; eauto]. Qed.

Lemma reads_end data off bs off' : reads data off bs off' -> off' = (off + length bs)%nat.
Proof.
  revert off; induction bs as [|b bs IH]; intros off; simpl; [lia|].
  intros [_ H%IH]. lia.
Qed.

Lemma reads_app data off bs1 bs2 off' :
  reads data off (bs1 ++ bs2) off' <->
  exists mid, reads data off bs1 mid /\ reads data mid bs2 off'.
Proof.
  revert off; induction bs1 as [|b bs1 IH]; intros off; simpl.
  - split; [|by intros (? & [-> ?] & ?)]. intros H. exists off.
    pose proof (reads_end _ _ _ _ H). pose proof (reads_le _ _ _ _ H).
    split; [split; [done | lia] | done].
  - rewrite IH. firstorder.
Qed.

Lemma reads_slice data off bs off' :
  reads data off bs off' <->
  off' = (off + length bs)%nat /\ (off' <= length data)%nat /\ slice data off (length bs) = bs.
Proof.
  split.
  - intros H. split; [by eapply reads_end|]. split; [by eapply reads_le|]. revert off H.
    induction bs as [|b bs IH]; intros off; simpl; [by destruct (drop off data)|].
    intros [Hb H]. unfold slice. rewrite (drop_S _ b) by done. simpl.
    f_equal. by apply IH.
  - intros (-> & Hle & H). revert off Hle H.
    induction bs as [|b bs IH]; intros off Hle H; simpl in *; [lia|].
    unfold slice in H. destruct (drop off data) as [|c rest] eqn:E; simpl in H; [done|].
    injection H as -> H.
    assert (data !! off = Some b) as Hb.
    { rewrite <- (Nat.add_0_r off), <- lookup_drop, E. done. }
    split; [done|]. rewrite Nat.add_succ_r, <- Nat.add_succ_l in *.
    apply IH; [done|].
    rewrite (drop_S _ b) in E by done. injection E as E. unfold slice. by rewrite E.
Qed.

Lemma reads_at pre bs post : reads (pre ++ bs ++ post) (length pre) bs (length pre + length bs).
Proof.
  apply reads_slice. rewrite slice_app, !length_app. split; [done|]. split; [lia | done].
Qed.

Lemma reads_0 bs post : reads (bs ++ post) 0 bs (length bs).
Proof. apply (reads_at []). Qed.

Lemma reads_all bs off' : reads bs 0 bs off' <-> off' = length bs.
Proof.
  rewrite reads_slice. unfold slice. rewrite drop_0, firstn_all. simpl. lia || firstorder lia.
Qed.

Lemma reads_ok data off bs off' : bytes_ok data -> reads data off bs off' -> bytes_ok bs.
Proof. rewrite reads_slice. intros H (_ & _ & <-). by apply slice_Forall. Qed.

Lemma reads_det data off bs1 bs2 o1 o2 :
  length bs1 = length bs2 -> reads data off bs1 o1 -> reads data off bs2 o2 -> bs1 = bs2.
Proof.
  rewrite !reads_slice. intros HL (_ & _ & H1) (_ & _ & H2). by rewrite <- H1, <- H2, HL.
Qed.

(** ** The codec interface *)

(** [parses r R]: on a buffer of bytes, the reader [r] returns [x] exactly when the
    buffer holds, at the cursor, some bytes related to [x] by [R]. *)
Definition parses {A} (r : reader A) (R : A -> bytes -> Prop) : Prop :=
  forall data off x off', bytes_ok data -> (off <= length data)%nat ->
    r data off = Ok (x, off') <-> exists bs, R x bs /\ reads data off bs off'.

(** The relation of a format with one byte string per value. *)
Definition format {A} (w : A -> Prop) (s : A -> bytes) (x : A) (bs : bytes) : Prop :=
  w x /\ bs = s x.

(** What a type with [Serialize]/[Deserialize] provides. [wf] is the set of values
    the byte format can carry (field widths, lengths below 2^32, ...). *)
Class Codec (A : Type) := {
  ser : A -> bytes;
  de : reader A;
  wf : A -> Prop;
}.

(** The law: deserializing returns [x] exactly when [x] is well formed and its
    serialization is what the buffer holds at the cursor. *)
Class CodecLaws (A : Type) `{Codec A} : Prop := {
  ser_ok : forall x, wf x -> bytes_ok (ser x);
  de_parses : parses de (format wf ser);
}.

Lemma reader_bind_Ok {A B} (r : reader A) (k : A -> reader B) data off y off' :
  (r ≫= k) data off = Ok (y, off') <->
  exists x mid, r data off = Ok (x, mid) /\ k x data mid = Ok (y, off').
Proof.
  unfold mbind at 1, reader_bind. destruct (r data off) as [[x mid]| | |].
  - split; [eauto | intros (? & ? & [= <- <-] & H); done].
  - split; [done | by intros (? & ? & ? & _)].
  - split; [done | by intros (? & ? & ? & _)].
  - split; [done | by intros (? & ? & ? & _)].
Qed.

Lemma parses_ret {A} (a : A) : parses (mret a) (fun x bs => x = a /\ bs = []).
Proof.
  intros data off x off' _ Ho. unfold mret, reader_ret. split.
  - intros [= -> ->]. exists []. simpl. auto.
  - by intros (bs & [-> ->] & [-> _]).
Qed.

Lemma parses_bind {A B} (r : reader A) (k : A -> reader B) R1 R2 :
  parses r R1 -> (forall x, parses (k x) (R2 x)) ->
  parses (r ≫= k) (fun y bs => exists x b1 b2, R1 x b1 /\ R2 x y b2 /\ bs = b1 ++ b2).
Proof.
  intros H1 H2 data off y off' Hd Ho. rewrite reader_bind_Ok. split.
  - intros (x & mid & Hx & Hy). apply H1 in Hx as (b1 & HR1 & Hr1); [|done..].
    apply H2 in Hy as (b2 & HR2 & Hr2); [|done|by eapply reads_le].
    exists (b1 ++ b2). rewrite reads_app. eauto 10.
  - intros (bs & (x & b1 & b2 & HR1 & HR2 & ->) & Hr).
    apply reads_app in Hr as (mid & Hr1 & Hr2).
    exists x, mid. split; [apply H1; eauto|].
    apply H2; eauto. by eapply reads_le.
Qed.

Lemma parses_conv {A} (r : reader A) R R' :
  parses r R -> (forall x bs, R x bs <-> R' x bs) -> parses r R'.
Proof.
  intros H HR data off x off' Hd Ho. rewrite (H data off x off' Hd Ho).
  by setoid_rewrite HR.
Qed.

Lemma parses_format {A} (r : reader A) w s :
  (forall data off x off', bytes_ok data -> (off <= length data)%nat ->
     r data off = Ok (x, off') <-> w x /\ reads data off (s x) off') ->
  parses r (format w s).
Proof.
  intros H data off x off' Hd Ho. rewrite H by done. unfold format. split.
  - intros [Hw Hr]. eauto.
  - by intros (bs & [Hw ->] & Hr).
Qed.

Lemma format_parses {A} (r : reader A) w s data off x off' :
  parses r (format w s) -> bytes_ok data -> (off <= length data)%nat ->
  r data off = Ok (x, off') <-> w x /\ reads data off (s x) off'.
Proof.
  intros H Hd Ho. rewrite (H data off x off' Hd Ho). unfold format. split.
  - by intros (bs & [Hw ->] & Hr).
  - intros [Hw Hr]. eauto.
Qed.

(** ** Integers *)

Lemma write_uint_32LE_le out v :
  in_u32 v -> write_uint_32LE out v = out ++ le_bytes 4 v.
Proof.
  intros _. unfold write_uint_32LE, u8.
  rewrite !land_255, !Z.mod_mod, !Z.shiftr_div_pow2 by lia. simpl.
  rewrite !Z.div_div by lia. done.
Qed.

Lemma write_uint_64LE_le out v :
  in_u64 v -> write_uint_64LE out v = out ++ le_bytes 8 v.
Proof.
  intros _. unfold write_uint_64LE, u8.
  rewrite !land_255, !Z.mod_mod, !Z.shiftr_div_pow2 by lia. simpl.
  rewrite !Z.div_div by lia. done.
Qed.

Lemma at_Ok data i b : at_ data i = Ok b <-> data !! i = Some b.
Proof. unfold at_. destruct (data !! i); split; congruence. Qed.

Lemma in_u8_lookup (data : bytes) i b : bytes_ok data -> data !! i = Some b -> in_u8 b.
Proof. intros H. apply (Forall_lookup_1 _ _ _ _ H). Qed.

Ltac bytes_from_lookups :=
  repeat (apply List.Forall_cons; [by eauto using in_u8_lookup|]); apply List.Forall_nil.

Ltac close_reads :=
  repeat (split; [first [done | by f_equal; lia]|]);
  match goal with H : ?data !! ?i = Some _ |- (_ <= length ?data)%nat =>
    apply lookup_lt_Some in H; lia end.

(** One byte of a little-endian value or-ed into the bytes below it. *)
Ltac lor_add b k := rewrite (lor_shiftl_add _ b k) by lia.

(** The value [read_uint_32LE] assembles from four bytes. *)
Lemma u32_of_bytes b0 b1 b2 b3 :
  bytes_ok [b0; b1; b2; b3] ->
  Z.lor (Z.lor (Z.lor b0 (u32 (Z.shiftl b1 8))) (u32 (Z.shiftl b2 16)))
        (u32 (Z.shiftl b3 24)) = le_value [b0; b1; b2; b3].
Proof.
  rewrite !Forall_cons. intros (H0 & H1 & H2 & H3 & _). unfold in_u8, u32 in *.
  rewrite !(Z.mod_small (Z.shiftl _ _))
    by (rewrite Z.shiftl_mul_pow2 by lia; lia).
  lor_add b1 8. lor_add b2 16. lor_add b3 24. simpl le_value. lia.
Qed.

(** Reading back a value that was written, in any buffer. *)
Lemma read_uint_32LE_at data off v off' :
  in_u32 v -> reads data off (le_bytes 4 v) off' -> read_uint_32LE data off = Ok (v, off').
Proof.
  intros Hv Hr. pose proof (reads_end _ _ _ _ Hr) as ->.
  pose proof (le_bytes_ok 4 v) as Hb. pose proof (le_value_bytes 4 v) as Hval.
  rewrite Z.mod_small in Hval by apply Hv.
  destruct (le_bytes 4 v) as [|b0 [|b1 [|b2 [|b3 [|]]]]] eqn:E; try discriminate E.
  simpl in Hr. destruct Hr as (H0 & H1 & H2 & H3 & _). unfold read_uint_32LE.
  rewrite !Nat.add_succ_r, Nat.add_0_r. unfold at_. rewrite H0, H1, H2, H3. simpl.
  rewrite <- Hval, <- u32_of_bytes by done. by rewrite !Nat.add_succ_r, Nat.add_0_r.
Qed.

Lemma read_uint_32LE_Ok data off v off' :
  bytes_ok data ->
  read_uint_32LE data off = Ok (v, off') <-> in_u32 v /\ reads data off (le_bytes 4 v) off'.
Proof.
  intros Hd. unfold read_uint_32LE. split.
  - intros H. inv_ok.
    repeat match goal with H : at_ _ _ = Ok _ |- _ => apply at_Ok in H end.
    assert (bytes_ok [a; a0; a1; a2]) as Hb by bytes_from_lookups.
    rewrite u32_of_bytes by done. split.
    + apply (le_value_range _ Hb).
    + change 4%nat with (length [a; a0; a1; a2]). rewrite le_bytes_value by done. simpl.
      rewrite !(Nat.add_succ_r off), Nat.add_0_r in *. close_reads.
  - intros [Hv Hr]. by apply read_uint_32LE_at.
Qed.

Ltac next_byte data i := destruct (at_ data i) as [?| | |]; [|reflexivity..]; simpl.

Lemma read_uint_64LE_unfold data off :
  read_uint_64LE data off =
  (b0 ← at_ data (off + 0); b1 ← at_ data (off + 1); b2 ← at_ data (off + 2);
   b3 ← at_ data (off + 3); b4 ← at_ data (off + 4); b5 ← at_ data (off + 5);
   b6 ← at_ data (off + 6); b7 ← at_ data (off + 7);
   Ok (Z.lor (Z.lor (Z.lor (Z.lor (Z.lor (Z.lor (Z.lor (Z.lor 0 (u64 (Z.shiftl b0 0)))
     (u64 (Z.shiftl b1 8))) (u64 (Z.shiftl b2 16))) (u64 (Z.shiftl b3 24)))
     (u64 (Z.shiftl b4 32))) (u64 (Z.shiftl b5 40))) (u64 (Z.shiftl b6 48)))
     (u64 (Z.shiftl b7 56)), (off + 8)%nat)).
Proof.
  unfold read_uint_64LE. simpl for_each.
  next_byte data (off + 0)%nat. next_byte data (off + 1)%nat.
  next_byte data (off + 2)%nat. next_byte data (off + 3)%nat.
  next_byte data (off + 4)%nat. next_byte data (off + 5)%nat.
  next_byte data (off + 6)%nat. next_byte data (off + 7)%nat. reflexivity.
Qed.

(** The value [read_uint_64LE] assembles from eight bytes. *)
Lemma u64_of_bytes b0 b1 b2 b3 b4 b5 b6 b7 :
  bytes_ok [b0; b1; b2; b3; b4; b5; b6; b7] ->
  Z.lor (Z.lor (Z.lor (Z.lor (Z.lor (Z.lor (Z.lor (Z.lor 0 (u64 (Z.shiftl b0 0)))
     (u64 (Z.shiftl b1 8))) (u64 (Z.shiftl b2 16))) (u64 (Z.shiftl b3 24)))
     (u64 (Z.shiftl b4 32))) (u64 (Z.shiftl b5 40))) (u64 (Z.shiftl b6 48)))
     (u64 (Z.shiftl b7 56)) = le_value [b0; b1; b2; b3; b4; b5; b6; b7].
Proof.
  rewrite !Forall_cons. intros (H0 & H1 & H2 & H3 & H4 & H5 & H6 & H7 & _).
  unfold in_u8, u64 in *.
  rewrite !(Z.mod_small (Z.shiftl _ _))
    by (rewrite Z.shiftl_mul_pow2 by lia; lia).
  rewrite Z.lor_0_l, Z.shiftl_0_r.
  lor_add b1 8. lor_add b2 16. lor_add b3 24. lor_add b4 32.
  lor_add b5 40. lor_add b6 48. lor_add b7 56. simpl le_value. lia.
Qed.

Lemma read_uint_64LE_Ok data off v off' :
  bytes_ok data ->
  read_uint_64LE data off = Ok (v, off') <-> in_u64 v /\ reads data off (le_bytes 8 v) off'.
Proof.
  intros Hd. rewrite read_uint_64LE_unfold. split.
  - intros H. inv_ok.
    repeat match goal with H : at_ _ _ = Ok _ |- _ => apply at_Ok in H end.
    assert (bytes_ok [a; a0; a1; a2; a3; a4; a5; a6]) as Hb
      by bytes_from_lookups.
    rewrite u64_of_bytes by done. split; [apply (le_value_range _ Hb)|].
    change 8%nat with (length [a; a0; a1; a2; a3; a4; a5; a6]) at 1.
    rewrite le_bytes_value by done. simpl.
    rewrite !(Nat.add_succ_r off), Nat.add_0_r in *. close_reads.
  - intros [Hv Hr]. pose proof (reads_end _ _ _ _ Hr) as ->.
    pose proof (le_bytes_ok 8 v) as Hb. pose proof (le_value_bytes 8 v) as Hval.
    rewrite Z.mod_small in Hval by apply Hv.
    destruct (le_bytes 8 v) as [|b0 [|b1 [|b2 [|b3 [|b4 [|b5 [|b6 [|b7 [|]]]]]]]]] eqn:E;
      try discriminate E.
    simpl in Hr. destruct Hr as (H0 & H1 & H2 & H3 & H4 & H5 & H6 & H7 & _).
    rewrite !Nat.add_succ_r, Nat.add_0_r. unfold at_.
    rewrite H0, H1, H2, H3, H4, H5, H6, H7. simpl.
    rewrite <- Hval, <- u64_of_bytes by done. by rewrite !Nat.add_succ_r, Nat.add_0_r.
Qed.

(** ** Raw bytes *)

Lemma read_bytes_Ok len data off bs off' :
  0 <= len -> (off <= length data)%nat ->
  read_bytes len data off = Ok (bs, off') <-> size_of bs = len /\ reads data off bs off'.
Proof.
  intros Hl Ho. unfold read_bytes, size_of. rewrite reads_slice.
  case_decide as H; split.
  - discriminate.
  - intros (<- & -> & Hle & _). lia.
  - intros [= <- <-]. rewrite length_slice by lia. repeat split; lia.
  - intros (<- & -> & Hle & Hs). rewrite Nat2Z.id. by rewrite Hs.
Qed.

Lemma read_bytes32_Ok data off bs off' :
  (off <= length data)%nat ->
  read_bytes32 data off = Ok (bs, off') <-> length bs = 32%nat /\ reads data off bs off'.
Proof.
  intros Ho. change (read_bytes32 data off) with (read_bytes 32 data off).
  rewrite read_bytes_Ok by lia. unfold size_of. intuition lia.
Qed.

(** ** The relations of the readers *)

Lemma parses_u32 : parses read_uint_32LE (format in_u32 (le_bytes 4)).
Proof. apply parses_format. intros. by apply read_uint_32LE_Ok. Qed.
Lemma parses_var : parses read_var_int32 (format in_u32 (le_bytes 4)).
Proof. apply parses_u32. Qed.
Lemma parses_u64 : parses read_uint_64LE (format in_u64 (le_bytes 8)).
Proof. apply parses_format. intros. by apply read_uint_64LE_Ok. Qed.
Lemma parses_bytes32 :
  parses read_bytes32 (fun x bs => length bs = 32%nat /\ bytes_ok bs /\ x = bs).
Proof.
  intros data off x off' Hd Ho. rewrite read_bytes32_Ok by done. split.
  - intros [Hl Hr]. exists x. eauto using reads_ok.
  - intros (bs & (Hl & Hb & ->) & Hr). done.
Qed.
(** The length prefix is always one a [uint32_t] can hold. *)
Lemma parses_bytes len :
  0 <= len -> parses (read_bytes len) (fun x bs => size_of bs = len /\ bytes_ok bs /\ x = bs).
Proof.
  intros Hl data off x off' Hd Ho. rewrite read_bytes_Ok by done. split.
  - intros [Hs Hr]. exists x. eauto using reads_ok.
  - intros (bs & (Hs & Hb & ->) & Hr). done.
Qed.

(** A length-prefixed byte string, as scripts are stored. *)
Definition sized_bytes (b : bytes) : bytes := le_bytes 4 (size_of b) ++ b.

Lemma parses_sized {B} (k : bytes -> reader B) R :
  (forall b, parses (k b) (R b)) ->
  parses (len ← read_var_int32; b ← read_bytes len; k b)
         (fun y bs => exists b bs', (bytes_ok b /\ in_u32 (size_of b)) /\ R b y bs' /\
                                   bs = sized_bytes b ++ bs').
Proof.
  intros Hk data off y off' Hd Ho. rewrite reader_bind_Ok. split.
  - intros (len & mid & Hlen & H). apply (format_parses _ _ _ _ _ _ _ parses_var) in Hlen
      as [Hu Hr]; [|done..]. pose proof (reads_le _ _ _ _ Hr).
    apply (parses_bind _ _ _ _ (parses_bytes len (proj1 Hu)) Hk) in H
      as (? & (b & b1 & b2 & (Hs & Hb & ->) & HR & ->) & Hr2); [|done..]. subst len.
    exists (sized_bytes b1 ++ b2). split; [eauto 10|]. unfold sized_bytes.
    rewrite <- app_assoc. apply reads_app. eauto.
  - intros (bs & (b & bs' & (Hb & Hu) & HR & ->) & Hr). unfold sized_bytes in Hr.
    rewrite <- app_assoc in Hr. apply reads_app in Hr as (mid & Hr1 & Hr2).
    pose proof (reads_le _ _ _ _ Hr1). exists (size_of b), mid. split.
    + apply (format_parses _ _ _ _ _ _ _ parses_var); done.
    + apply (parses_bind _ _ _ _ (parses_bytes _ (proj1 Hu)) Hk); [done..|]. eauto 15.
Qed.

(** ** Lists of codecs *)

Lemma write_list_concat {A} (s : A -> bytes) out (l : list A) :
  write_list s out l = out ++ concat (s <$> l).
Proof.
  unfold write_list. revert out; induction l as [|x l IH]; intros out; simpl.
  - by rewrite app_nil_r.
  - by rewrite IH, <- app_assoc.
Qed.

Lemma parses_list {A} (r : reader A) w s n :
  parses r (format w s) ->
  parses (read_list n r)
         (format (fun l => length l = n /\ Forall w l) (fun l => concat (s <$> l))).
Proof.
  intros Hr. induction n as [|n IH]; simpl read_list.
  - eapply parses_conv; [apply parses_ret|]. intros l bs. unfold format. split.
    + intros [-> ->]. auto.
    + intros [[Hl _] ->]. by apply nil_length_inv in Hl as ->.
  - eapply parses_conv.
    { eapply parses_bind; [exact Hr|]. intros x. eapply parses_bind; [exact IH|].
      intros xs. apply parses_ret. }
    intros l bs. unfold format. split.
    + intros (x & b1 & b2 & [Hx ->] & (xs & ? & ? & [[<- Hxs] ->] & [-> ->] & ->) & ->).
      simpl. rewrite app_nil_r, Forall_cons. auto.
    + intros [[Hl Hw] ->]. destruct l as [|x xs]; [done|]. simpl in Hl. injection Hl as Hl.
      apply Forall_cons in Hw as [Hx Hxs].
      exists x, (s x), (concat (s <$> xs)). split; [done|]. split; [|done].
      exists xs, (concat (s <$> xs)), []. rewrite app_nil_r. auto.
Qed.

Lemma concat_ok {A} (w : A -> Prop) (s : A -> bytes) (l : list A) :
  (forall x, w x -> bytes_ok (s x)) -> Forall w l -> bytes_ok (concat (s <$> l)).
Proof.
  intros Hs. induction 1; simpl; [constructor|]. apply Forall_app; auto.
Qed.

(** A list preceded by its element count. *)
Definition sized_list {A} (s : A -> bytes) (l : list A) : bytes :=
  le_bytes 4 (size_of l) ++ concat (s <$> l).

Lemma parses_sized_list {A B} (r : reader A) w s (k : list A -> reader B) R :
  parses r (format w s) -> (forall l, parses (k l) (R l)) ->
  parses (count ← read_var_int32; l ← read_list (Z.to_nat count) r; k l)
         (fun y bs => exists l bs', (Forall w l /\ in_u32 (size_of l)) /\ R l y bs' /\
                                   bs = sized_list s l ++ bs').
Proof.
  intros Hr Hk. eapply parses_conv.
  { eapply parses_bind; [exact parses_var|]. intros c.
    eapply parses_bind; [apply parses_list, Hr | exact Hk]. }
  intros y bs. unfold format, sized_list. split.
  - intros (c & ? & ? & [Hc ->] & (l & ? & bs' & [[Hn Hw] ->] & HR & ->) & ->).
    assert (size_of l = c) as Hs by (unfold size_of, in_u32 in *; lia).
    exists l, bs'. rewrite Hs, app_assoc. auto.
  - intros (l & bs' & [Hw Hc] & HR & ->).
    exists (size_of l), (le_bytes 4 (size_of l)), (concat (s <$> l) ++ bs').
    split; [done|]. split; [|by rewrite app_assoc].
    exists l, (concat (s <$> l)), bs'. unfold size_of. rewrite Nat2Z.id. auto.
Qed.

Lemma read_list_length {A} (r : reader A) n data off l off' :
  read_list n r data off = Ok (l, off') -> length l = n.
Proof.
  revert off l off'. induction n as [|n IH]; intros off l off'; cbn [read_list].
  - by intros [= <- _].
  - intros (x & o1 & _ & (xs & o2 & Hx & [= <- _])%reader_bind_Ok)%reader_bind_Ok.
    simpl. f_equal. by eapply IH.
Qed.

(** ** Consequences of the law *)

Section CodecFacts.
Context `{CodecLaws A}.

Lemma de_iff data off (x : A) off' :
  bytes_ok data -> (off <= length data)%nat ->
  de data off = Ok (x, off') <-> wf x /\ reads data off (ser x) off'.
Proof. intros. by apply format_parses; [apply de_parses|..]. Qed.

(** What the law gives for a value written in the middle of a buffer. *)
Lemma de_ser_at (x : A) pre post :
  wf x -> bytes_ok pre -> bytes_ok post ->
  de (pre ++ ser x ++ post) (length pre) = Ok (x, (length pre + length (ser x))%nat).
Proof.
  intros Hx Hpre Hpost. apply de_iff.
  - rewrite !Forall_app. auto using ser_ok.
  - rewrite !length_app. lia.
  - split; [done | apply reads_at].
Qed.

(** Two well-formed values with the same serialization are equal. *)
Lemma ser_inj (x y : A) : wf x -> wf y -> ser x = ser y -> x = y.
Proof.
  intros Hx Hy Heq.
  pose proof (de_ser_at x [] [] Hx (List.Forall_nil _) (List.Forall_nil _)) as H1.
  pose proof (de_ser_at y [] [] Hy (List.Forall_nil _) (List.Forall_nil _)) as H2.
  rewrite <- Heq, H1 in H2. congruence.
Qed.
End CodecFacts.

#[export] Hint Resolve ser_ok concat_ok : siliqua.

#[global] Arguments le_bytes : simpl never.
