(* ===== verification/Transaction.v ===== *)
(** core/transaction.h and core/transaction.cpp: outpoints, inputs, outputs and
    transactions, their byte formats, hashes and the coinbase test. *)
From S2P Require Import Prelude Serializer Crypto Hashes.

(** ** Data *)

Record COutPoint := mkCOutPoint {
  txid : bytes;      (* std::array<uint8_t, 32> *)
  out_n : Z;         (* uint32_t n *)
}.

Record CTxIn := mkCTxIn {
  prevout : COutPoint;
  scriptSig : bytes;
  nSequence : Z;
}.

Record CTxOut := mkCTxOut {
  nValue : Z;        (* int64_t, satoshi *)
  scriptPubKey : bytes;
}.

Record Transaction := mkTransaction {
  tx_nVersion : Z;   (* int32_t *)
  vin : list CTxIn;
  vout : list CTxOut;
  nLockTime : Z;
  tx_hash : bytes;   (* cached, set by the callers of GetHash *)
}.

#[export] Instance COutPoint_eq_dec : EqDecision COutPoint.
Proof. solve_decision. Defined.
#[export] Instance CTxIn_eq_dec : EqDecision CTxIn.
Proof. solve_decision. Defined.
#[export] Instance CTxOut_eq_dec : EqDecision CTxOut.
Proof. solve_decision. Defined.
#[export] Instance Transaction_eq_dec : EqDecision Transaction.
Proof. solve_decision. Defined.
#[export] Instance COutPoint_countable : Countable COutPoint.
Proof.
  refine (inj_countable' (fun o => (txid o, out_n o)) (fun p => mkCOutPoint p.1 p.2) _).
  by intros [].
Defined.

(** The constructors' default arguments. *)
Definition COutPoint_default : COutPoint := mkCOutPoint (replicate 32 0) 0xFFFFFFFF.
Definition CTxIn_default : CTxIn := mkCTxIn COutPoint_default [] 0xFFFFFFFF.
Definition CTxOut_default : CTxOut := mkCTxOut 0 [].
(** [Transaction(version, inputs, outputs, lockTime)]: [tx_hash] stays zeroed. *)
Definition Transaction_make (version : Z) (inputs : list CTxIn) (outputs : list CTxOut)
    (lockTime : Z) : Transaction :=
  mkTransaction version inputs outputs lockTime (replicate 32 0).

(** ** COutPoint *)

Definition COutPoint_IsNull (o : COutPoint) : bool :=
  (out_n o =? 0xFFFFFFFF) && forallb (fun b => b =? 0) (txid o).

Definition COutPoint_Serialize (o : COutPoint) : bytes :=
  let buffer := write_bytes [] (txid o) in
  write_uint_32LE buffer (out_n o).

Definition COutPoint_Deserialize : reader COutPoint :=
  txid ← read_bytes32;
  n ← read_uint_32LE;
  mret (mkCOutPoint txid n).

(** [std::array]'s [operator<]: lexicographic. *)
Fixpoint array_lt (a b : bytes) : bool :=
  match a, b with
  | _, [] => false
  | [], _ :: _ => true
  | x :: a', y :: b' => if x =? y then array_lt a' b' else x <? y
  end.

Definition COutPoint_lt (a b : COutPoint) : bool :=
  if decide (txid a <> txid b) then array_lt (txid a) (txid b) else out_n a <? out_n b.

Definition COutPoint_eqb (a b : COutPoint) : bool :=
  bool_decide (txid a = txid b) && (out_n a =? out_n b).

(** [COutPointHash]; [std::hash<uint32_t>] is the standard library's choice. *)
Definition COutPointHash (std_hash_u32 : Z -> Z) (o : COutPoint) : Z :=
  let h := fold_left (fun h b => u64 (u64 (h * 131) + b)) (txid o) 0 in
  Z.lxor h (u64 (Z.shiftl (std_hash_u32 (out_n o)) 1)).

(** ** CTxIn *)

Definition CTxIn_Serialize (i : CTxIn) : bytes :=
  let prevout_bytes := COutPoint_Serialize (prevout i) in
  let buffer := [] ++ prevout_bytes in
  let buffer := write_var_int32 buffer (u32 (size_of (scriptSig i))) in
  let buffer := write_bytes buffer (scriptSig i) in
  write_uint_32LE buffer (nSequence i).

Definition CTxIn_Deserialize : reader CTxIn :=
  prevout ← COutPoint_Deserialize;
  script_len ← read_var_int32;
  scriptSig ← read_bytes script_len;
  nSequence ← read_uint_32LE;
  mret (mkCTxIn prevout scriptSig nSequence).

(** ** CTxOut *)

Definition CTxOut_Serialize (o : CTxOut) : bytes :=
  let buffer := write_uint_64LE [] (u64 (nValue o)) in
  let buffer := write_var_int32 buffer (u32 (size_of (scriptPubKey o))) in
  write_bytes buffer (scriptPubKey o).

Definition CTxOut_Deserialize : reader CTxOut :=
  v ← read_uint_64LE;
  script_len ← read_var_int32;
  scriptPubKey ← read_bytes script_len;
  mret (mkCTxOut (i64 v) scriptPubKey).

(** ** Transaction *)

Definition Transaction_Serialize (tx : Transaction) : bytes :=
  let buffer := write_uint_32LE [] (u32 (tx_nVersion tx)) in
  let buffer := write_var_int32 buffer (u32 (size_of (vin tx))) in
  let buffer := write_list CTxIn_Serialize buffer (vin tx) in
  let buffer := write_var_int32 buffer (u32 (size_of (vout tx))) in
  let buffer := write_list CTxOut_Serialize buffer (vout tx) in
  write_uint_32LE buffer (nLockTime tx).

Section WithHash.
Context `{HashFns}.

Definition Transaction_GetHash (tx : Transaction) : bytes :=
  let buffer := Transaction_Serialize tx in
  hash_double_sha256 buffer.

(** [tx.tx_hash = tx.GetHash();] *)
Definition set_tx_hash (tx : Transaction) : Transaction :=
  mkTransaction (tx_nVersion tx) (vin tx) (vout tx) (nLockTime tx) (Transaction_GetHash tx).

Definition Transaction_Deserialize : reader Transaction :=
  version ← read_uint_32LE;
  vin_count ← read_var_int32;
  vin ← read_list (Z.to_nat vin_count) CTxIn_Deserialize;
  vout_count ← read_var_int32;
  vout ← read_list (Z.to_nat vout_count) CTxOut_Deserialize;
  lockTime ← read_uint_32LE;
  mret (set_tx_hash (Transaction_make (i32 version) vin vout lockTime)).

End WithHash.

Definition IsCoinbase (tx : Transaction) : bool :=
  match vin tx with
  | [] => true
  | i :: _ => COutPoint_IsNull (prevout i)
  end.

(** [UtxoSet]: outpoint -> unspent output.  [std::unordered_map] has map semantics;
    where the code iterates over it, the order is a parameter (see Node.v). *)
Abbreviation UtxoSet := (gmap COutPoint CTxOut).

(** [utxos.emplace(k, v)]: no effect when the key is already present. *)
Definition emplace {V} (m : gmap COutPoint V) (k : COutPoint) (v : V) : gmap COutPoint V :=
  match m !! k with Some _ => m | None => <[k := v]> m end.

(** ** Well-formed values: what the byte formats can carry *)

(** A script whose length fits the 32-bit length field. *)
Definition script_wf (s : bytes) : Prop := bytes_ok s /\ in_u32 (size_of s).
Definition COutPoint_wf (o : COutPoint) : Prop :=
  length (txid o) = 32%nat /\ bytes_ok (txid o) /\ in_u32 (out_n o).
Definition CTxIn_wf (i : CTxIn) : Prop :=
  COutPoint_wf (prevout i) /\ script_wf (scriptSig i) /\ in_u32 (nSequence i).
Definition CTxOut_wf (o : CTxOut) : Prop :=
  in_i64 (nValue o) /\ script_wf (scriptPubKey o).
(** The fields of a transaction, without the cached hash. *)
Definition Transaction_fields_wf (tx : Transaction) : Prop :=
  in_i32 (tx_nVersion tx) /\ (Forall CTxIn_wf (vin tx) /\ in_u32 (size_of (vin tx))) /\
  (Forall CTxOut_wf (vout tx) /\ in_u32 (size_of (vout tx))) /\ in_u32 (nLockTime tx).
(** ... and with it: [tx_hash] is the hash of the other fields. *)
Definition Transaction_wf `{HashFns} (tx : Transaction) : Prop :=
  Transaction_fields_wf tx /\ tx_hash tx = Transaction_GetHash tx.

(** ** Byte layouts *)

Lemma COutPoint_Serialize_eq o :
  in_u32 (out_n o) -> COutPoint_Serialize o = txid o ++ le_bytes 4 (out_n o).
Proof. intros. unfold COutPoint_Serialize, write_bytes. by rewrite write_uint_32LE_le. Qed.

Lemma CTxIn_Serialize_eq i :
  CTxIn_wf i ->
  CTxIn_Serialize i =
    COutPoint_Serialize (prevout i) ++ sized_bytes (scriptSig i) ++ le_bytes 4 (nSequence i).
Proof.
  intros (Ho & [_ Hs] & Hn). unfold CTxIn_Serialize, write_var_int32, write_bytes, sized_bytes.
  rewrite u32_id, !write_uint_32LE_le by done. by rewrite <- !app_assoc.
Qed.

Lemma CTxOut_Serialize_eq o :
  CTxOut_wf o ->
  CTxOut_Serialize o = le_bytes 8 (u64 (nValue o)) ++ sized_bytes (scriptPubKey o).
Proof.
  intros (_ & _ & Hs). unfold CTxOut_Serialize, write_var_int32, write_bytes, sized_bytes.
  rewrite u32_id, write_uint_64LE_le, write_uint_32LE_le by auto with siliqua.
  by rewrite <- !app_assoc.
Qed.

Lemma Transaction_Serialize_eq tx :
  Transaction_fields_wf tx ->
  Transaction_Serialize tx =
    le_bytes 4 (u32 (tx_nVersion tx)) ++ sized_list CTxIn_Serialize (vin tx) ++
    sized_list CTxOut_Serialize (vout tx) ++ le_bytes 4 (nLockTime tx).
Proof.
  intros (_ & [_ Hi] & [_ Ho] & Hl). unfold Transaction_Serialize, write_var_int32, sized_list.
  rewrite !write_list_concat, !(u32_id (size_of _)) by done.
  rewrite !write_uint_32LE_le by auto with siliqua. by rewrite <- !app_assoc.
Qed.

(** ** Readers *)

Lemma COutPoint_parses :
  parses COutPoint_Deserialize (format COutPoint_wf COutPoint_Serialize).
Proof.
  eapply parses_conv.
  { eapply parses_bind; [apply parses_bytes32|]. intros t.
    eapply parses_bind; [apply parses_u32|]. intros n. apply parses_ret. }
  intros o bs. unfold format, COutPoint_wf. split.
  - intros (t & ? & ? & (Hl & Hb & <-) & (n & ? & ? & [Hn ->] & [-> ->] & ->) & ->).
    rewrite COutPoint_Serialize_eq, app_nil_r by done. auto.
  - intros ((Hl & Hb & Hn) & ->). destruct o as [t n]; simpl in *.
    rewrite COutPoint_Serialize_eq by done.
    exists t, t, (le_bytes 4 n). split; [done|]. split; [|done].
    exists n, (le_bytes 4 n), []. rewrite app_nil_r. auto.
Qed.

Lemma CTxIn_parses : parses CTxIn_Deserialize (format CTxIn_wf CTxIn_Serialize).
Proof.
  eapply parses_conv.
  { eapply parses_bind; [apply COutPoint_parses|]. intros o.
    apply parses_sized. intros s.
    eapply parses_bind; [apply parses_u32|]. intros n. apply parses_ret. }
  intros i bs. unfold format. split.
  - intros (o & ? & ? & [Ho ->] & (s & ? & Hs & (n & ? & ? & [Hn ->] & [-> ->] & ->) & ->) & ->).
    assert (CTxIn_wf (mkCTxIn o s n)) as Hw by done.
    split; [done|]. by rewrite CTxIn_Serialize_eq, app_nil_r.
  - intros [Hw ->]. rewrite CTxIn_Serialize_eq by done.
    destruct i as [o s n], Hw as (Ho & Hs & Hn); simpl in *.
    exists o, (COutPoint_Serialize o), (sized_bytes s ++ le_bytes 4 n).
    split; [done|]. split; [|done]. exists s, (le_bytes 4 n). split; [done|]. split; [|done].
    exists n, (le_bytes 4 n), []. rewrite app_nil_r. auto.
Qed.

Lemma CTxOut_parses : parses CTxOut_Deserialize (format CTxOut_wf CTxOut_Serialize).
Proof.
  eapply parses_conv.
  { eapply parses_bind; [apply parses_u64|]. intros v.
    apply parses_sized. intros s. apply parses_ret. }
  intros o bs. unfold format. split.
  - intros (v & ? & ? & [Hv ->] & (s & ? & Hs & [-> ->] & ->) & ->).
    assert (CTxOut_wf (mkCTxOut (i64 v) s)) as Hw by (split; simpl; auto with siliqua).
    split; [done|]. rewrite CTxOut_Serialize_eq, app_nil_r by done. simpl.
    by rewrite u64_i64.
  - intros [Hw ->]. rewrite CTxOut_Serialize_eq by done.
    destruct o as [v s], Hw as (Hv & Hs); simpl in *.
    exists (u64 v), (le_bytes 8 (u64 v)), (sized_bytes s).
    split; [auto with siliqua|]. split; [|done]. exists s, []. split; [done|].
    by rewrite i64_u64, app_nil_r.
Qed.

Section WithHashLaws.
Context `{HashFns}.

Lemma set_tx_hash_wf tx : Transaction_fields_wf tx -> Transaction_wf (set_tx_hash tx).
Proof. by destruct tx. Qed.

Lemma Transaction_parses :
  parses Transaction_Deserialize (format Transaction_wf Transaction_Serialize).
Proof.
  eapply parses_conv.
  { eapply parses_bind; [apply parses_u32|]. intros v.
    eapply parses_sized_list; [apply CTxIn_parses|]. intros ins.
    eapply parses_sized_list; [apply CTxOut_parses|]. intros outs.
    eapply parses_bind; [apply parses_u32|]. intros n. apply parses_ret. }
  intros tx bs. unfold format. split.
  - intros (v & ? & ? & [Hv ->] &
      (ins & ? & Hi & (outs & ? & Ho & (n & ? & ? & [Hn ->] & [-> ->] & ->) & ->) & ->) & ->).
    set (tx := Transaction_make (i32 v) ins outs n).
    assert (Transaction_fields_wf tx) as Hw by (split; simpl; auto with siliqua).
    split; [by apply set_tx_hash_wf|]. rewrite app_nil_r.
    change (Transaction_Serialize (set_tx_hash tx)) with (Transaction_Serialize tx).
    rewrite Transaction_Serialize_eq by done. simpl. by rewrite u32_i32.
  - intros [[Hw Hh] ->]. rewrite Transaction_Serialize_eq by done.
    destruct tx as [v ins outs n h], Hw as (Hv & Hi & Ho & Hn); simpl in *.
    change (h = Transaction_GetHash (Transaction_make v ins outs n)) in Hh. subst h.
    exists (u32 v), (le_bytes 4 (u32 v)),
      (sized_list CTxIn_Serialize ins ++ sized_list CTxOut_Serialize outs ++ le_bytes 4 n).
    split; [auto with siliqua|]. split; [|done].
    exists ins, (sized_list CTxOut_Serialize outs ++ le_bytes 4 n). split; [done|].
    split; [|done]. exists outs, (le_bytes 4 n). split; [done|]. split; [|done].
    exists n, (le_bytes 4 n), []. rewrite app_nil_r, i32_u32 by done. auto.
Qed.

(** ** The codecs *)

Lemma COutPoint_ser_ok o : COutPoint_wf o -> bytes_ok (COutPoint_Serialize o).
Proof.
  intros (_ & Hb & Hn). rewrite COutPoint_Serialize_eq by done.
  apply Forall_app; auto with siliqua.
Qed.
Lemma sized_bytes_ok s : script_wf s -> bytes_ok (sized_bytes s).
Proof. intros [Hs _]. apply Forall_app; auto with siliqua. Qed.
Lemma CTxIn_ser_ok i : CTxIn_wf i -> bytes_ok (CTxIn_Serialize i).
Proof.
  intros Hw. rewrite CTxIn_Serialize_eq by done. destruct Hw as (Ho & Hs & _).
  rewrite !Forall_app. auto using COutPoint_ser_ok, sized_bytes_ok with siliqua.
Qed.
Lemma CTxOut_ser_ok o : CTxOut_wf o -> bytes_ok (CTxOut_Serialize o).
Proof.
  intros Hw. rewrite CTxOut_Serialize_eq by done. destruct Hw as (_ & Hs).
  rewrite !Forall_app. auto using sized_bytes_ok with siliqua.
Qed.
Lemma Transaction_ser_ok tx : Transaction_fields_wf tx -> bytes_ok (Transaction_Serialize tx).
Proof.
  intros Hw. rewrite Transaction_Serialize_eq by done. destruct Hw as (_ & [Hi _] & [Ho _] & _).
  unfold sized_list. rewrite !Forall_app.
  eauto 10 using concat_ok, CTxIn_ser_ok, CTxOut_ser_ok with siliqua.
Qed.

#[export] Instance COutPoint_codec : Codec COutPoint :=
  {| ser := COutPoint_Serialize; de := COutPoint_Deserialize; wf := COutPoint_wf |}.
#[export] Instance CTxIn_codec : Codec CTxIn :=
  {| ser := CTxIn_Serialize; de := CTxIn_Deserialize; wf := CTxIn_wf |}.
#[export] Instance CTxOut_codec : Codec CTxOut :=
  {| ser := CTxOut_Serialize; de := CTxOut_Deserialize; wf := CTxOut_wf |}.
#[export] Instance Transaction_codec : Codec Transaction :=
  {| ser := Transaction_Serialize; de := Transaction_Deserialize; wf := Transaction_wf |}.

#[export] Instance COutPoint_codec_laws : CodecLaws COutPoint.
Proof. split; [apply COutPoint_ser_ok | apply COutPoint_parses]. Qed.
#[export] Instance CTxIn_codec_laws : CodecLaws CTxIn.
Proof. split; [apply CTxIn_ser_ok | apply CTxIn_parses]. Qed.
#[export] Instance CTxOut_codec_laws : CodecLaws CTxOut.
Proof. split; [apply CTxOut_ser_ok | apply CTxOut_parses]. Qed.
#[export] Instance Transaction_codec_laws : CodecLaws Transaction.
Proof. split; [intros tx [? _]; by apply Transaction_ser_ok | apply Transaction_parses]. Qed.

End WithHashLaws.

(** ** Theorems *)

Section CodecTheorem.
Context `{HashFns}.

(** On any buffer of bytes, [Transaction::Deserialize] returns a
    transaction exactly when it is well formed, carries its own hash, and the buffer
    holds at the cursor precisely the bytes [Serialize] writes for it; the cursor ends
    just after them. *)
Theorem transaction_codec data off tx off' :
  bytes_ok data -> (off <= length data)%nat ->
  Transaction_Deserialize data off = Ok (tx, off') <->
  Transaction_wf tx /\ reads data off (Transaction_Serialize tx) off'.
Proof. intros. by apply format_parses; [apply Transaction_parses|..]. Qed.
End CodecTheorem.

Lemma transaction_codec_witness :
  let tx := @set_tx_hash siliqua_hashes
    (Transaction_make (-1) [mkCTxIn (mkCOutPoint (replicate 32 7) 3) [1; 2] 5]
       [mkCTxOut (-9) [118]; CTxOut_default] 77) in
  let data := [9; 9] ++ Transaction_Serialize tx ++ [0] in
  @Transaction_Deserialize siliqua_hashes data 2%nat = Ok (tx, (length data - 1)%nat) /\
  @Transaction_wf siliqua_hashes tx.
Proof.
  intros tx data.
  assert (@Transaction_Deserialize siliqua_hashes data 2%nat = Ok (tx, (length data - 1)%nat)) as E
    by (vm_compute; reflexivity).
  split; [exact E|].
  refine (proj1 (proj1 (@transaction_codec siliqua_hashes data 2%nat tx (length data - 1)%nat _ _) E)).
  - apply (bool_decide_unpack _). vm_compute. reflexivity.
  - apply (bool_decide_unpack _). vm_compute. reflexivity.
Defined.
