(* ===== verification/Block.v ===== *)
(** core/block.h and core/block.cpp: block headers, blocks, their byte formats
    and hashes, and the Merkle root. *)
From S2P Require Import Prelude Serializer Crypto Hashes Transaction.

(** ** Data *)

Record CBlockHeader := mkCBlockHeader {
  nVersion : Z;            (* int32_t *)
  hashPrevBlock : bytes;   (* std::array<uint8_t, 32> *)
  hashMerkleRoot : bytes;
  nTime : Z;
  nBits : Z;               (* compact target *)
  nNonce : Z;
}.

(** [class CBlock : public CBlockHeader]. *)
Record CBlock := mkCBlock {
  block_header : CBlockHeader;
  vtx : list Transaction;
}.

#[export] Instance CBlockHeader_eq_dec : EqDecision CBlockHeader.
Proof. solve_decision. Defined.
#[export] Instance CBlock_eq_dec : EqDecision CBlock.
Proof. solve_decision. Defined.

(** ** Header *)

Definition CBlockHeader_Serialize (h : CBlockHeader) : bytes :=
  let buffer := write_uint_32LE [] (u32 (nVersion h)) in
  let buffer := write_bytes buffer (hashPrevBlock h) in
  let buffer := write_bytes buffer (hashMerkleRoot h) in
  let buffer := write_uint_32LE buffer (nTime h) in
  let buffer := write_uint_32LE buffer (nBits h) in
  write_uint_32LE buffer (nNonce h).

Definition CBlockHeader_Deserialize : reader CBlockHeader :=
  version ← read_uint_32LE;
  prev ← read_bytes32;
  root ← read_bytes32;
  time ← read_uint_32LE;
  bits ← read_uint_32LE;
  nonce ← read_uint_32LE;
  mret (mkCBlockHeader (i32 version) prev root time bits nonce).

Definition CBlock_Serialize (b : CBlock) : bytes :=
  let buffer := CBlockHeader_Serialize (block_header b) in
  let buffer := write_var_int32 buffer (u32 (size_of (vtx b))) in
  write_list Transaction_Serialize buffer (vtx b).

Section WithHash.
Context `{HashFns}.

Definition CBlockHeader_GetHash (h : CBlockHeader) : bytes :=
  let buffer := CBlockHeader_Serialize h in
  hash_double_sha256 buffer.

(** A [CBlock]'s [GetHash()] is the inherited one. *)
Definition CBlock_GetHash (b : CBlock) : bytes := CBlockHeader_GetHash (block_header b).

Definition CBlock_Deserialize : reader CBlock :=
  header ← CBlockHeader_Deserialize;
  tx_count ← read_var_int32;
  txs ← read_list (Z.to_nat tx_count) Transaction_Deserialize;
  mret (mkCBlock header txs).

(** ** Merkle root *)

(** The body of the [for (i = 0; i < layers.size(); i += 2)] loop. *)
Definition merkle_node (layers : list bytes) (i : nat) : bytes :=
  let left := layers !!! i in
  let right := if decide (i + 1 < length layers)%nat then layers !!! (i + 1)%nat else left in
  hash_double_sha256 (left ++ right).

(** [next_layer]: one node for each even index below the size. *)
Definition next_layer (layers : list bytes) : list bytes :=
  (fun k => merkle_node layers (2 * k)) <$> seq 0 ((length layers + 1) / 2).

(** [while (layers.size() > 1)]; [merkle_loop_exit] shows that the fuel
    [BuildMerkleRoot] gives is enough for the loop's own exit. *)
Fixpoint merkle_loop (fuel : nat) (layers : list bytes) : list bytes :=
  match fuel with
  | O => layers
  | S fuel =>
      if decide (1 < length layers)%nat then merkle_loop fuel (next_layer layers) else layers
  end.

Definition merkle_root (hashes : list bytes) : bytes :=
  match merkle_loop (length hashes) hashes with
  | [] => replicate 32 0
  | root :: _ => root
  end.

Definition BuildMerkleRoot (b : CBlock) : bytes := merkle_root (tx_hash <$> vtx b).

Definition IsMerkleRootValid (b : CBlock) : bool :=
  bool_decide (BuildMerkleRoot b = hashMerkleRoot (block_header b)).

Definition CBlock_IsValid (b : CBlock) : bool := IsMerkleRootValid b.

End WithHash.

(** ** Byte layouts and codecs *)

Definition CBlockHeader_wf (h : CBlockHeader) : Prop :=
  in_i32 (nVersion h) /\
  (length (hashPrevBlock h) = 32%nat /\ bytes_ok (hashPrevBlock h)) /\
  (length (hashMerkleRoot h) = 32%nat /\ bytes_ok (hashMerkleRoot h)) /\
  in_u32 (nTime h) /\ in_u32 (nBits h) /\ in_u32 (nNonce h).
Definition CBlock_wf `{HashFns} (b : CBlock) : Prop :=
  CBlockHeader_wf (block_header b) /\ Forall Transaction_wf (vtx b) /\ in_u32 (size_of (vtx b)).

Lemma CBlockHeader_Serialize_eq h :
  CBlockHeader_wf h ->
  CBlockHeader_Serialize h =
    le_bytes 4 (u32 (nVersion h)) ++ hashPrevBlock h ++ hashMerkleRoot h ++
    le_bytes 4 (nTime h) ++ le_bytes 4 (nBits h) ++ le_bytes 4 (nNonce h).
Proof.
  intros (_ & _ & _ & Ht & Hb & Hn). unfold CBlockHeader_Serialize, write_bytes.
  rewrite !write_uint_32LE_le by auto with siliqua. by rewrite <- !app_assoc.
Qed.

Lemma CBlock_Serialize_eq b :
  in_u32 (size_of (vtx b)) ->
  CBlock_Serialize b =
    CBlockHeader_Serialize (block_header b) ++ sized_list Transaction_Serialize (vtx b).
Proof.
  intros Hs. unfold CBlock_Serialize, write_var_int32, sized_list.
  rewrite write_list_concat, u32_id, write_uint_32LE_le by done. by rewrite <- !app_assoc.
Qed.

Lemma CBlockHeader_parses :
  parses CBlockHeader_Deserialize (format CBlockHeader_wf CBlockHeader_Serialize).
Proof.
  eapply parses_conv.
  { eapply parses_bind; [apply parses_u32|]. intros v.
    eapply parses_bind; [apply parses_bytes32|]. intros p.
    eapply parses_bind; [apply parses_bytes32|]. intros r.
    eapply parses_bind; [apply parses_u32|]. intros t.
    eapply parses_bind; [apply parses_u32|]. intros b.
    eapply parses_bind; [apply parses_u32|]. intros n. apply parses_ret. }
  intros h bs. unfold format. split.
  - intros (v & ? & ? & [Hv ->] & (p & ? & ? & (Hp1 & Hp2 & <-) &
      (r & ? & ? & (Hr1 & Hr2 & <-) & (t & ? & ? & [Ht ->] & (b & ? & ? & [Hb ->] &
      (n & ? & ? & [Hn ->] & [-> ->] & ->) & ->) & ->) & ->) & ->) & ->).
    assert (CBlockHeader_wf (mkCBlockHeader (i32 v) p r t b n)) as Hw
      by (split; simpl; auto 10 with siliqua).
    split; [done|]. rewrite CBlockHeader_Serialize_eq by done. simpl.
    rewrite u32_i32 by done. done.
  - intros [Hw ->]. rewrite CBlockHeader_Serialize_eq by done.
    destruct h as [v p r t b n], Hw as (Hv & [Hp1 Hp2] & [Hr1 Hr2] & Ht & Hb & Hn); simpl in *.
    exists (u32 v), (le_bytes 4 (u32 v)); eexists; split; [auto with siliqua|]; split; [|done].
    exists p, p; eexists; split; [done|]; split; [|done].
    exists r, r; eexists; split; [done|]; split; [|done].
    exists t, (le_bytes 4 t); eexists; split; [done|]; split; [|done].
    exists b, (le_bytes 4 b); eexists; split; [done|]; split; [|done].
    exists n, (le_bytes 4 n), []. rewrite app_nil_r, i32_u32 by done. auto.
Qed.

Lemma CBlockHeader_ser_ok h : CBlockHeader_wf h -> bytes_ok (CBlockHeader_Serialize h).
Proof.
  intros Hw. rewrite CBlockHeader_Serialize_eq by done. destruct Hw as (_ & [_ ?] & [_ ?] & _).
  rewrite !Forall_app. auto 10 with siliqua.
Qed.

#[export] Instance CBlockHeader_codec : Codec CBlockHeader :=
  {| ser := CBlockHeader_Serialize; de := CBlockHeader_Deserialize; wf := CBlockHeader_wf |}.
#[export] Instance CBlockHeader_codec_laws : CodecLaws CBlockHeader.
Proof. split; [apply CBlockHeader_ser_ok | apply CBlockHeader_parses]. Qed.

(** The header is the 80-byte buffer that [GetHash] hashes. *)
Lemma CBlockHeader_Serialize_length h :
  CBlockHeader_wf h -> length (CBlockHeader_Serialize h) = 80%nat.
Proof.
  intros Hw. rewrite CBlockHeader_Serialize_eq by done. destruct Hw as (_ & [Hp _] & [Hr _] & _).
  rewrite !length_app, !length_le_bytes. lia.
Qed.

Section WithHashFns.
Context `{HashFns}.

Lemma CBlock_parses : parses CBlock_Deserialize (format CBlock_wf CBlock_Serialize).
Proof.
  eapply parses_conv.
  { eapply parses_bind; [apply CBlockHeader_parses|]. intros h.
    eapply parses_sized_list; [apply Transaction_parses|]. intros txs. apply parses_ret. }
  intros b bs. unfold format. split.
  - intros (h & ? & ? & [Hh ->] & (txs & ? & Ht & [-> ->] & ->) & ->).
    assert (CBlock_wf (mkCBlock h txs)) as Hw by done. split; [done|].
    rewrite CBlock_Serialize_eq by apply Ht. by rewrite app_nil_r.
  - intros [Hw ->]. rewrite CBlock_Serialize_eq by apply Hw.
    destruct b as [h txs], Hw as [Hh Ht]; simpl in *.
    eexists h, _, _. split; [done|]. split; [|done].
    exists txs, []. rewrite app_nil_r. auto.
Qed.

Lemma CBlock_ser_ok b : CBlock_wf b -> bytes_ok (CBlock_Serialize b).
Proof.
  intros (Hh & Ht & Hs). rewrite CBlock_Serialize_eq by done. unfold sized_list.
  rewrite !Forall_app. split; [by apply CBlockHeader_ser_ok|].
  split; [auto with siliqua|]. eapply concat_ok; [|exact Ht].
  intros tx [? _]. by apply Transaction_ser_ok.
Qed.

#[export] Instance CBlock_codec : Codec CBlock :=
  {| ser := CBlock_Serialize; de := CBlock_Deserialize; wf := CBlock_wf |}.
#[export] Instance CBlock_codec_laws : CodecLaws CBlock.
Proof. split; [apply CBlock_ser_ok | apply CBlock_parses]. Qed.

End WithHashFns.

(** ** The Merkle root *)

(** Two different messages with the same double SHA-256, one from each list. *)
Definition collide `{HashFns} (ms1 ms2 : list bytes) : Prop :=
  exists x y, x ∈ ms1 /\ y ∈ ms2 /\ x <> y /\ hash_double_sha256 x = hash_double_sha256 y.

Lemma collide_mono `{HashFns} ms1 ms2 ms1' ms2' : ms1 ⊆ ms1' -> ms2 ⊆ ms2' -> collide ms1 ms2 -> collide ms1' ms2'.
Proof. intros H1 H2 (x & y & Hx & Hy & Hxy). exists x, y. auto. Qed.

(** Equal hashes of equally many messages. *)
Lemma hashes_inj `{HashFns} ms1 ms2 :
  length ms1 = length ms2 -> hash_double_sha256 <$> ms1 = hash_double_sha256 <$> ms2 ->
  ms1 = ms2 \/ collide ms1 ms2.
Proof.
  revert ms2. induction ms1 as [|x ms1 IH]; intros [|y ms2] Hl E; try done; [by left|].
  rewrite !fmap_cons in E. injection E as Exy E. injection Hl as Hl.
  destruct (decide (x = y)) as [->|Hne].
  - destruct (IH _ Hl E) as [->|Hc]; [by left | right]. eapply collide_mono; [| |exact Hc]; set_solver.
  - right. exists x, y. set_solver.
Qed.

(** What is hashed for one layer of the tree, and for the whole tree. *)
Definition merkle_input (layers : list bytes) (i : nat) : bytes :=
  layers !!! i ++ (if decide (i + 1 < length layers)%nat then layers !!! (i + 1)%nat else layers !!! i).
Definition layer_messages (layers : list bytes) : list bytes :=
  (fun k => merkle_input layers (2 * k)) <$> seq 0 ((length layers + 1) / 2).
Fixpoint tree_messages `{HashFns} (fuel : nat) (layers : list bytes) : list bytes :=
  match fuel with
  | O => []
  | S fuel =>
      if decide (1 < length layers)%nat then layer_messages layers ++ tree_messages fuel (next_layer layers) else []
  end.
Definition merkle_messages `{HashFns} (hashes : list bytes) : list bytes := tree_messages (length hashes) hashes.
(** ... for a block: its header, its transactions and its Merkle tree. *)
Definition tx_messages `{HashFns} (b : CBlock) : list bytes :=
  (Transaction_Serialize <$> vtx b) ++ merkle_messages (tx_hash <$> vtx b).
Definition block_messages `{HashFns} (b : CBlock) : list bytes :=
  CBlockHeader_Serialize (block_header b) :: tx_messages b.

Section Merkle.
Context `{HashFns}.

(** [next_layer], two elements at a time. *)
Lemma next_layer_nil : next_layer [] = [].
Proof. done. Qed.
Lemma next_layer_single a : next_layer [a] = [hash_double_sha256 (a ++ a)].
Proof. done. Qed.

Lemma merkle_node_cons2 a b l i : merkle_node (a :: b :: l) (S (S i)) = merkle_node l i.
Proof.
  unfold merkle_node. rewrite !Nat.add_succ_l. simpl. f_equal. f_equal.
  by repeat case_decide; try lia.
Qed.

Lemma next_layer_cons2 a b l :
  next_layer (a :: b :: l) = hash_double_sha256 (a ++ b) :: next_layer l.
Proof.
  unfold next_layer. simpl length.
  replace ((S (S (length l)) + 1) / 2)%nat with (S ((length l + 1) / 2)).
  2: { replace (S (S (length l)) + 1)%nat with (length l + 1 + 1 * 2)%nat by lia.
       rewrite Nat.div_add by lia. lia. }
  simpl. f_equal. rewrite <- seq_shift, <- list_fmap_compose. apply list_fmap_ext.
  intros i k _. unfold compose. rewrite <- (merkle_node_cons2 a b l). f_equal; lia.
Qed.

Lemma length_next_layer l : length (next_layer l) = ((length l + 1) / 2)%nat.
Proof. unfold next_layer. by rewrite length_fmap, length_seq. Qed.

(** Each pass of the loop shortens a list of two or more nodes. *)
Lemma next_layer_shorter l :
  (1 < length l)%nat -> (0 < length (next_layer l) < length l)%nat.
Proof.
  rewrite length_next_layer. intros Hl.
  pose proof (Nat.Div0.div_lt_upper_bound (length l + 1) 2 (length l)).
  pose proof (Nat.div_le_lower_bound (length l + 1) 2 1). lia.
Qed.

Lemma merkle_loop_exit fuel l :
  (length l <= fuel)%nat -> l <> [] -> exists root, merkle_loop fuel l = [root].
Proof.
  revert l; induction fuel as [|fuel IH]; intros l Hf Hne.
  - destruct l; simpl in *; [done | lia].
  - simpl. case_decide as Hl.
    + pose proof (next_layer_shorter l Hl). apply IH; [lia|].
      intros E. rewrite E in *. simpl in *. lia.
    + destruct l as [|a [|]]; simpl in *; [done | eauto | lia].
Qed.

Lemma merkle_loop_small fuel l : (length l <= 1)%nat -> merkle_loop fuel l = l.
Proof. destruct fuel; simpl; [done|]. intros. case_decide; [lia | done]. Qed.

(** More fuel than the length changes nothing. *)
Lemma merkle_loop_fuel fuel l :
  (length l <= fuel)%nat -> merkle_loop fuel l = merkle_loop (length l) l.
Proof.
  revert l. induction fuel as [fuel IH] using lt_wf_ind. intros l Hf.
  destruct (decide (1 < length l)%nat) as [Hl|Hl].
  2: { rewrite !merkle_loop_small by lia. done. }
  pose proof (next_layer_shorter l Hl).
  destruct fuel as [|fuel]; [lia|]. destruct (length l) as [|k] eqn:El; [lia|].
  simpl. rewrite !decide_True by lia. rewrite (IH fuel), (IH k) by lia. done.
Qed.

Lemma merkle_root_step l :
  (1 < length l)%nat -> merkle_root l = merkle_root (next_layer l).
Proof.
  intros Hl. pose proof (next_layer_shorter l Hl). unfold merkle_root.
  rewrite <- (merkle_loop_fuel (pred (length l)) (next_layer l)) by lia.
  destruct (length l) as [|k] eqn:E; [lia|]. simpl. by rewrite decide_True by lia.
Qed.

Lemma next_layer_dup l x :
  Nat.even (length l) -> next_layer (l ++ [x; x]) = next_layer (l ++ [x]).
Proof.
  induction l as [|a|a b l IH] using list_ind2; intros He.
  - done.
  - done.
  - simpl app. rewrite !next_layer_cons2. f_equal. by apply IH.
Qed.

Lemma next_layer_messages l : next_layer l = hash_double_sha256 <$> layer_messages l.
Proof. unfold next_layer, layer_messages. by rewrite <- list_fmap_compose. Qed.
Lemma layer_messages_single a : layer_messages [a] = [a ++ a].
Proof. done. Qed.
Lemma layer_messages_cons2 a b l : layer_messages (a :: b :: l) = (a ++ b) :: layer_messages l.
Proof.
  unfold layer_messages. simpl length.
  replace ((S (S (length l)) + 1) / 2)%nat with (S ((length l + 1) / 2)).
  2: { replace (S (S (length l)) + 1)%nat with (length l + 1 + 1 * 2)%nat by lia.
       rewrite Nat.div_add by lia. lia. }
  simpl. f_equal. rewrite <- seq_shift, <- list_fmap_compose. apply list_fmap_ext.
  intros i k _. unfold compose, merkle_input. replace (2 * S k)%nat with (S (S (2 * k))) by lia.
  rewrite !Nat.add_succ_l. cbn [length lookup_total list_lookup_total].
  f_equal; repeat case_decide; try lia; by rewrite ?Nat.add_succ_r, ?Nat.add_succ_l.
Qed.

(** The messages of a layer determine it. *)
Lemma layer_messages_inj l1 l2 :
  length l1 = length l2 ->
  Forall (fun h => length h = 32%nat) l1 -> Forall (fun h => length h = 32%nat) l2 ->
  layer_messages l1 = layer_messages l2 -> l1 = l2.
Proof.
  revert l2. induction l1 as [|a|a b l1 IH] using list_ind2; intros l2 Hlen H1 H2 Heq.
  - by destruct l2.
  - destruct l2 as [|a' [|]]; try done. rewrite !layer_messages_single in Heq. injection Heq as E.
    apply Forall_cons in H1 as [Ha _], H2 as [Ha' _]. apply app_inj_1 in E as [-> _]; [done | congruence].
  - destruct l2 as [|a' [|b' l2]]; try done. rewrite !layer_messages_cons2 in Heq.
    injection Heq as Heq Heq'. injection Hlen as Hlen.
    apply Forall_cons in H1 as [Ha [Hb H1]%Forall_cons].
    apply Forall_cons in H2 as [Ha' [Hb' H2]%Forall_cons].
    apply app_inj_1 in Heq as [-> ->]; [|congruence]. by rewrite (IH l2).
Qed.

Lemma next_layer_sizes `{!HashLaws} l : Forall (fun h => length h = 32%nat) (next_layer l).
Proof. unfold next_layer. apply Forall_fmap, Forall_forall. intros. apply sha256_length. Qed.

Lemma merkle_loop_inj `{!HashLaws} fuel l1 l2 :
  length l1 = length l2 ->
  Forall (fun h => length h = 32%nat) l1 -> Forall (fun h => length h = 32%nat) l2 ->
  merkle_loop fuel l1 = merkle_loop fuel l2 -> l1 = l2 \/ collide (tree_messages fuel l1) (tree_messages fuel l2).
Proof.
  revert l1 l2. induction fuel as [|fuel IH]; intros l1 l2 Hlen H1 H2 Heq; cbn [merkle_loop tree_messages] in *; [by left|].
  rewrite <- Hlen in *. case_decide as Hl; [|by left].
  destruct (IH (next_layer l1) (next_layer l2)) as [E|Hc]; auto using next_layer_sizes.
  - rewrite !length_next_layer. congruence.
  - rewrite !next_layer_messages in E. apply hashes_inj in E.
    + destruct E as [E|Hc]; [left; by apply layer_messages_inj | right]. eapply collide_mono; [| |exact Hc]; set_solver.
    + unfold layer_messages. by rewrite !length_fmap, !length_seq, Hlen.
  - right. eapply collide_mono; [| |exact Hc]; set_solver.
Qed.
Lemma merkle_root_inj `{!HashLaws} l1 l2 :
  length l1 = length l2 ->
  Forall (fun h => length h = 32%nat) l1 -> Forall (fun h => length h = 32%nat) l2 ->
  merkle_root l1 = merkle_root l2 -> l1 = l2 \/ collide (merkle_messages l1) (merkle_messages l2).
Proof.
  intros Hlen H1 H2 Heq. destruct (decide (l1 = [])) as [->|Hne]; [left; by destruct l2|].
  unfold merkle_messages. rewrite <- Hlen. apply merkle_loop_inj; [done..|].
  unfold merkle_root in Heq. rewrite <- Hlen in Heq.
  destruct (merkle_loop_exit (length l1) l1) as [r1 E1]; [done | done|].
  destruct (merkle_loop_exit (length l1) l2) as [r2 E2]; [lia | by destruct l1, l2|].
  rewrite E1, E2 in *. congruence.
Qed.

End Merkle.

(** ** Theorems *)

Section BlockTheorems.
Context `{HashFns}.

(** C20.  On any buffer of bytes, [CBlock::Deserialize] returns a block
    exactly when it is well formed (field widths, counts and script lengths below
    2^32, each transaction carrying its own hash) and the buffer holds at the cursor
    precisely the bytes [Serialize] writes for it; the header is 80 bytes of them. *)
Theorem block_codec data off b off' :
  bytes_ok data -> (off <= length data)%nat ->
  (CBlock_Deserialize data off = Ok (b, off') <->
   CBlock_wf b /\ reads data off (CBlock_Serialize b) off') /\
  (CBlock_wf b -> length (CBlockHeader_Serialize (block_header b)) = 80%nat).
Proof.
  intros Hd Ho. split; [by apply format_parses; [apply CBlock_parses|..]|].
  intros [Hw _]. by apply CBlockHeader_Serialize_length.
Qed.

(** Two well-formed headers with one hash are one header, or collide. *)
Lemma header_hash_inj h1 h2 :
  CBlockHeader_wf h1 -> CBlockHeader_wf h2 ->
  CBlockHeader_GetHash h1 = CBlockHeader_GetHash h2 ->
  h1 = h2 \/ collide [CBlockHeader_Serialize h1] [CBlockHeader_Serialize h2].
Proof.
  intros H1 H2 Heq. destruct (decide (CBlockHeader_Serialize h1 = CBlockHeader_Serialize h2)) as [E|E].
  - left. by apply (ser_inj h1 h2).
  - right. exists (CBlockHeader_Serialize h1), (CBlockHeader_Serialize h2). by split_and!; [left | left | |].
Qed.

(** The transactions under a Merkle root. *)
Lemma merkle_binding `{!HashLaws} b1 b2 :
  length (vtx b1) = length (vtx b2) ->
  Forall Transaction_wf (vtx b1) -> Forall Transaction_wf (vtx b2) ->
  BuildMerkleRoot b1 = BuildMerkleRoot b2 -> vtx b1 = vtx b2 \/ collide (tx_messages b1) (tx_messages b2).
Proof.
  intros Hlen H1 H2 Heq.
  assert (forall l, Forall Transaction_wf l -> tx_hash <$> l = hash_double_sha256 <$> (Transaction_Serialize <$> l)) as Hs.
  { intros l Hl. rewrite <- list_fmap_compose. apply list_fmap_ext. intros i tx Hi.
    eapply Forall_lookup_1 in Hl as [_ E]; [exact E | exact Hi]. }
  assert (forall l, Forall Transaction_wf l -> Forall (fun h => length h = 32%nat) (tx_hash <$> l)) as Hs'.
  { intros l Hl. rewrite (Hs _ Hl). apply Forall_fmap, Forall_forall. intros. apply sha256_length. }
  destruct (merkle_root_inj (tx_hash <$> vtx b1) (tx_hash <$> vtx b2)) as [E|Hc]; auto.
  { by rewrite !length_fmap. }
  - rewrite (Hs _ H1), (Hs _ H2) in E. apply hashes_inj in E; [|by rewrite !length_fmap].
    destruct E as [E|Hc]; [left | right; eapply collide_mono; [| |exact Hc]; unfold tx_messages; set_solver].
    clear Heq Hs Hs' Hlen. revert H1 H2 E. generalize (vtx b1) (vtx b2). intros l1.
    induction l1 as [|t1 l1 IH]; intros [|t2 l2] H1 H2 E; try done.
    apply Forall_cons in H1 as [W1 H1], H2 as [W2 H2]. rewrite !fmap_cons in E.
    injection E as E1 E2. rewrite (IH l2) by done. f_equal. by apply (ser_inj t1 t2).
  - right. eapply collide_mono; [| |exact Hc]; unfold tx_messages; set_solver.
Qed.

(** The Merkle root commits to the transactions: two blocks with equally
    many transactions and the same root have the same transaction hashes in the same
    order, or two different messages that were hashed for them, one for each block, have
    the same double SHA-256. *)
Theorem merkle_root_binding `{!HashLaws} b1 b2 :
  length (vtx b1) = length (vtx b2) ->
  Forall Transaction_wf (vtx b1) -> Forall Transaction_wf (vtx b2) ->
  BuildMerkleRoot b1 = BuildMerkleRoot b2 -> vtx b1 = vtx b2 \/ collide (tx_messages b1) (tx_messages b2).
Proof. apply merkle_binding. Qed.

(** C37.  The number of transactions is not committed to: a block with an odd number of
    transactions, three or more, and the same block with its last transaction repeated,
    have one Merkle root; under one header they are both valid for [IsValid] or both not,
    and have the same hash.  (A block with a single transaction does not have this twin.) *)
Theorem merkle_duplicate_last header txs tx :
  Nat.even (length txs) ->
  let b := mkCBlock header (txs ++ [tx]) in
  let b' := mkCBlock header (txs ++ [tx; tx]) in
  txs <> [] ->
  BuildMerkleRoot b' = BuildMerkleRoot b /\ CBlock_IsValid b' = CBlock_IsValid b /\
  CBlock_GetHash b' = CBlock_GetHash b /\ vtx b' <> vtx b.
Proof.
  intros He b b' Hne.
  enough (BuildMerkleRoot b' = BuildMerkleRoot b) as E.
  { unfold CBlock_IsValid, IsMerkleRootValid. rewrite E. split_and!; try done.
    intros Ev%(f_equal length). cbn [vtx b b'] in Ev. rewrite !length_app in Ev. simpl in Ev. lia. }
  unfold BuildMerkleRoot. cbn [vtx b b'].
  rewrite !fmap_app, (merkle_root_step (_ ++ (tx_hash <$> [tx; tx]))),
    (merkle_root_step (_ ++ (tx_hash <$> [tx]))).
  - cbn [fmap list_fmap]. rewrite next_layer_dup; [done|]. by rewrite length_fmap.
  - rewrite length_app, length_fmap. destruct txs; simpl; [done | lia].
  - rewrite length_app, length_fmap. simpl. lia.
Qed.

End BlockTheorems.

#[local] Existing Instance toy_hashes.

(** A block of three transactions. *)
Definition leaf_tx (n : Z) : Transaction :=
  @set_tx_hash toy_hashes (Transaction_make n [] [CTxOut_default] 0).
Definition leaf_txs : list Transaction := [leaf_tx 1; leaf_tx 2] ++ [leaf_tx 3].
Definition toy_header : CBlockHeader :=
  mkCBlockHeader 1 (replicate 32 0) (@merkle_root toy_hashes (tx_hash <$> leaf_txs)) 5 6 7.

Lemma block_codec_witness :
  let b := mkCBlock toy_header leaf_txs in
  @CBlock_Deserialize toy_hashes (CBlock_Serialize b) 0%nat = Ok (b, length (CBlock_Serialize b)) /\
  @CBlock_wf toy_hashes b /\ length (CBlockHeader_Serialize toy_header) = 80%nat.
Proof.
  intros b.
  assert (@CBlock_Deserialize toy_hashes (CBlock_Serialize b) 0%nat
          = Ok (b, length (CBlock_Serialize b))) as E by (vm_compute; reflexivity).
  assert (@CBlock_wf toy_hashes b) as Hw.
  { refine (proj1 (proj1 (proj1 (@block_codec toy_hashes (CBlock_Serialize b) 0%nat b
      (length (CBlock_Serialize b)) _ _)) E));
      apply (bool_decide_unpack _); vm_compute; reflexivity. }
  split; [exact E|]. split; [exact Hw|].
  refine (proj2 (@block_codec toy_hashes (CBlock_Serialize b) 0%nat b 0%nat _ _) Hw);
    apply (bool_decide_unpack _); vm_compute; reflexivity.
Defined.

Lemma merkle_root_binding_witness :
  let b := mkCBlock toy_header leaf_txs in
  vtx b = vtx b \/ @collide toy_hashes (@tx_messages toy_hashes b) (@tx_messages toy_hashes b).
Proof.
  intros b.
  assert (@CBlock_wf toy_hashes b) as Hw.
  { refine (proj1 (proj1 (de_iff (CBlock_Serialize b) 0%nat b (length (CBlock_Serialize b)) _ _) _)).
    - apply (bool_decide_unpack _). vm_compute. reflexivity.
    - apply (bool_decide_unpack _). vm_compute. reflexivity.
    - vm_compute. reflexivity. }
  exact (@merkle_root_binding toy_hashes toy_hash_laws b b eq_refl
           (proj1 (proj2 Hw)) (proj1 (proj2 Hw)) eq_refl).
Defined.

Lemma merkle_duplicate_last_witness :
  let b := mkCBlock toy_header ([leaf_tx 1; leaf_tx 2] ++ [leaf_tx 3; leaf_tx 3]) in
  length (vtx b) = 4%nat /\ @CBlock_IsValid toy_hashes b = true.
Proof.
  intros b. split; [reflexivity|].
  transitivity (@CBlock_IsValid toy_hashes (mkCBlock toy_header leaf_txs)); [|vm_compute; reflexivity].
  assert ([leaf_tx 1; leaf_tx 2] <> []) as Hne by discriminate.
  exact (proj1 (proj2 (@merkle_duplicate_last toy_hashes toy_header [leaf_tx 1; leaf_tx 2] (leaf_tx 3) I Hne))).
Defined.
