(* ===== verification/Pow.v ===== *)
(** consensus/pow.h: compact targets, the proof-of-work check, mining, difficulty
    retargeting and chain work.

    The two double-precision computations are modelled bit for bit with the
    Standard Library's IEEE-754 specification ([SpecFloat], binary64, round to
    nearest even), which is plain executable Gallina. *)
From Stdlib Require Import Floats.SpecFloat.
From S2P Require Import Prelude Serializer Crypto Hashes Transaction Block.

(** ** Compact targets *)

Definition zero_target : bytes := replicate 32 0.

Definition bits_to_target (bits : Z) : bytes :=
  let target := zero_target in
  let exponent := Z.shiftr bits 24 in
  let mantissa := Z.land bits 0x007FFFFF in
  if decide (Z.land bits 0x00800000 <> 0) then target
  else if decide (exponent > 32) then target
  else if decide (exponent <= 3) then
    let mantissa := Z.shiftr mantissa (8 * (3 - exponent)) in
    let target := <[29%nat := u8 (Z.land (Z.shiftr mantissa 16) 0xFF)]> target in
    let target := <[30%nat := u8 (Z.land (Z.shiftr mantissa 8) 0xFF)]> target in
    <[31%nat := u8 (Z.land mantissa 0xFF)]> target
  else
    let offset := Z.to_nat (32 - exponent) in
    let target := <[offset := u8 (Z.land (Z.shiftr mantissa 16) 0xFF)]> target in
    let target := <[(offset + 1)%nat := u8 (Z.land (Z.shiftr mantissa 8) 0xFF)]> target in
    <[(offset + 2)%nat := u8 (Z.land mantissa 0xFF)]> target.

(** ** The proof-of-work check and mining *)

Section WithHash.
Context `{HashFns}.

(** [hash <= target] on arrays is [!(target < hash)]. *)
Definition check_proof_of_work (header : CBlockHeader) : bool :=
  let target := bits_to_target (nBits header) in
  let hash := CBlockHeader_GetHash header in
  negb (array_lt target hash).

Definition set_bits_nonce (h : CBlockHeader) (bits nonce : Z) : CBlockHeader :=
  mkCBlockHeader (nVersion h) (hashPrevBlock h) (hashMerkleRoot h) (nTime h) bits nonce.

(** One iteration of the search: the next nonce, or the next second when the nonce
    space is exhausted ([nTime] is a [uint32_t] and wraps). *)
Definition mine_step (h : CBlockHeader) : CBlockHeader :=
  if decide (nNonce h = 0xFFFFFFFF) then
    mkCBlockHeader (nVersion h) (hashPrevBlock h) (hashMerkleRoot h)
                   (u32 (nTime h + 1)) (nBits h) 0
  else
    mkCBlockHeader (nVersion h) (hashPrevBlock h) (hashMerkleRoot h)
                   (nTime h) (nBits h) (nNonce h + 1).

(** [while (header.GetHash() > target)]. *)
Fixpoint mine_loop (fuel : nat) (target : bytes) (header : CBlockHeader) : result CBlockHeader :=
  if array_lt target (CBlockHeader_GetHash header) then
    match fuel with
    | O => Diverge
    | S fuel => mine_loop fuel target (mine_step header)
    end
  else Ok header.

Definition mine_block (fuel : nat) (header : CBlockHeader) (nBitsTarget : Z) : result CBlockHeader :=
  let header := set_bits_nonce header nBitsTarget 0 in
  let target := bits_to_target (nBits header) in
  mine_loop fuel target header.

End WithHash.

(** ** Double-precision arithmetic *)

Abbreviation double := spec_float.
Definition dmul : double -> double -> double := SFmul 53 1024.
Definition ddiv : double -> double -> double := SFdiv 53 1024.
Definition dadd : double -> double -> double := SFadd 53 1024.
(** [static_cast<double>(i)] of an integer. *)
Definition of_int (i : Z) : double := binary_normalize 53 1024 i 0 false.
(** [std::pow(2.0, k)] for an integral [k]: exact, infinite on overflow, rounded to
    a subnormal or zero on underflow. *)
Definition pow2 (k : Z) : double := SFldexp 53 1024 (SFone 53 1024) k.
(** [static_cast<uint32_t>(d)]: truncation; undefined out of range. *)
Definition to_u32 (d : double) : result Z :=
  match d with
  | S754_zero _ => Ok 0
  | S754_finite s m e =>
      let t := if s then - Z.shiftl (Z.pos m) e else Z.shiftl (Z.pos m) e in
      if decide (in_u32 t) then Ok t else Ub
  | _ => Ub
  end.

(** ** Retargeting *)

(** [while (m >= 16777216.0) { m /= 256.0; new_exponent += 1; }]. *)
Fixpoint scale_loop (fuel : nat) (m : double) (new_exponent : Z) : result (double * Z) :=
  if SFleb (of_int 16777216) m then
    match fuel with
    | O => Diverge
    | S fuel => scale_loop fuel (ddiv m (of_int 256)) (u32 (new_exponent + 1))
    end
  else Ok (m, new_exponent).

(** 1024 / 8 divisions bring every finite double below 2^24. *)
Definition scale_fuel : nat := 128.

(** The part of [get_next_work_required] after the boundary test: clamp the time
    span and scale the (exponent, mantissa) pair. *)
Definition clamp_timespan (actual_timespan target_timespan_seconds : Z) : Z :=
  let min_timespan := Z.quot target_timespan_seconds 4 in
  let max_timespan := target_timespan_seconds * 4 in
  let actual_timespan :=
    if decide (actual_timespan < min_timespan) then min_timespan else actual_timespan in
  if decide (actual_timespan > max_timespan) then max_timespan else actual_timespan.

Definition retarget (current_bits actual_timespan target_timespan_seconds : Z) : result Z :=
  let actual_timespan := clamp_timespan actual_timespan target_timespan_seconds in
  let exponent := Z.shiftr current_bits 24 in
  let mantissa := Z.land current_bits 0x007FFFFF in
  let value := dmul (of_int mantissa) (pow2 (8 * (exponent - 3))) in
  let value := dmul value (ddiv (of_int actual_timespan) (of_int target_timespan_seconds)) in
  '(m, new_exponent) ← scale_loop scale_fuel value 3;
  new_mantissa ← to_u32 m;
  let new_mantissa := Z.land new_mantissa 0x007FFFFF in
  Ok (Z.lor (u32 (Z.shiftl new_exponent 24)) new_mantissa).

Definition get_next_work_required (headers : list CBlockHeader)
    (retarget_interval target_timespan_seconds : Z) : result Z :=
  match last headers with
  | None => Throw invalid_argument
  | Some tip =>
      let current_bits := nBits tip in
      if decide (retarget_interval = 0) then Ub
      else if decide (size_of headers `mod` retarget_interval <> 0) then Ok current_bits
      else
        match headers !! Z.to_nat (size_of headers - retarget_interval) with
        | None => Throw out_of_range
        | Some period_start =>
            let actual_timespan := nTime tip - nTime period_start in
            retarget current_bits actual_timespan target_timespan_seconds
        end
  end.

(** ** Chain work *)

Definition calculate_block_work (bits : Z) : double :=
  let exponent := Z.shiftr bits 24 in
  let mantissa := Z.land bits 0x007FFFFF in
  if decide (mantissa = 0) then S754_zero false
  else ddiv (pow2 (280 - 8 * exponent)) (of_int mantissa).

Definition calculate_chain_work (headers : list CBlockHeader) : double :=
  fold_left (fun total header => dadd total (calculate_block_work (nBits header)))
            headers (S754_zero false).

(** ** Byte order: arrays compare as big-endian numbers *)

Lemma array_lt_be a b :
  length a = length b -> bytes_ok a -> bytes_ok b ->
  array_lt a b = (be_value a <? be_value b).
Proof.
  revert b; induction a as [|x a IH]; intros [|y b]; try done.
  rewrite !Forall_cons, !be_value_cons. intros [= Hl] [Hx Ha] [Hy Hb]. simpl.
  pose proof (be_value_range a Ha). pose proof (be_value_range b Hb).
  rewrite Hl in *. set (P := 256 ^ Z.of_nat (length b)) in *. unfold in_u8 in *.
  destruct (Z.eqb_spec x y) as [->|Hne].
  - rewrite IH by auto. destruct (Z.ltb_spec (be_value a) (be_value b)); lia.
  - destruct (Z.ltb_spec x y); symmetry; [apply Z.ltb_lt | apply Z.ltb_ge]; nia.
Qed.

(** ** Compact targets: the documented value *)

(** The 256-bit number a compact target stands for: mantissa * 256^(exponent - 3),
    and 0 when the sign bit is set or the exponent is out of range. *)
Definition compact_value (bits : Z) : Z :=
  let exponent := bits / 2 ^ 24 in
  let mantissa := bits mod 2 ^ 23 in
  if Z.testbit bits 23 then 0
  else if decide (exponent > 32) then 0
  else if decide (exponent <= 3) then mantissa / 256 ^ (3 - exponent)
  else mantissa * 256 ^ (exponent - 3).

Lemma land_sign_bit bits : Z.land bits 0x00800000 <> 0 <-> Z.testbit bits 23 = true.
Proof.
  assert (Z.land bits 0x00800000 = if Z.testbit bits 23 then 2 ^ 23 else 0) as ->.
  { change 0x00800000 with (2 ^ 23). apply Z.bits_inj'. intros n Hn.
    rewrite Z.land_spec, Z.pow2_bits_eqb by lia.
    destruct (Z.eqb_spec 23 n) as [<-|Hne].
    - destruct (Z.testbit bits 23); [by rewrite Z.pow2_bits_eqb | by rewrite Z.bits_0].
    - rewrite andb_false_r. destruct (Z.testbit bits 23); [|by rewrite Z.bits_0].
      rewrite Z.pow2_bits_eqb by lia. symmetry. by apply Z.eqb_neq. }
  destruct (Z.testbit bits 23); simpl; split; congruence || lia.
Qed.

Lemma land_mantissa bits : Z.land bits 0x007FFFFF = bits mod 2 ^ 23.
Proof. change 0x007FFFFF with (Z.ones 23). by apply Z.land_ones. Qed.

(** The three mantissa bytes. *)
Lemma mantissa_bytes m :
  0 <= m < 2 ^ 24 ->
  u8 (Z.land (Z.shiftr m 16) 0xFF) * 65536 + u8 (Z.land (Z.shiftr m 8) 0xFF) * 256
  + u8 (Z.land m 0xFF) = m.
Proof.
  intros Hm. unfold u8. rewrite !land_255, !Z.mod_mod, !Z.shiftr_div_pow2 by lia.
  change (2 ^ 16) with (2 ^ 8 * 2 ^ 8). rewrite <- Z.div_div by lia.
  pose proof (Z.div_mod m (2 ^ 8)). pose proof (Z.div_mod (m / 2 ^ 8) (2 ^ 8)).
  rewrite (Z.mod_small (m / 2 ^ 8 / 2 ^ 8) (2 ^ 8)); [lia|].
  split; [apply Z.div_pos; [apply Z.div_pos|]; lia|].
  apply Z.div_lt_upper_bound; [lia|]. apply Z.div_lt_upper_bound; lia.
Qed.

(** A target with three bytes stored from index [k]. *)
Lemma stored_target b2 b1 b0 k :
  (k <= 29)%nat ->
  be_value (<[(k + 2)%nat := b0]> (<[(k + 1)%nat := b1]> (<[k := b2]> zero_target)))
  = (b2 * 65536 + b1 * 256 + b0) * 256 ^ (29 - Z.of_nat k).
Proof.
  intros Hk. do 30 (destruct k as [|k]; [cbn -[Z.mul Z.add Z.pow]; lia|]). lia.
Qed.

Lemma bits_to_target_value bits :
  in_u32 bits -> be_value (bits_to_target bits) = compact_value bits.
Proof.
  intros Hb. unfold in_u32 in Hb. unfold bits_to_target, compact_value.
  rewrite land_mantissa, Z.shiftr_div_pow2 by lia.
  set (e := bits / 2 ^ 24). set (m := bits mod 2 ^ 23).
  assert (0 <= e) by (apply Z.div_pos; lia).
  pose proof (Z.mod_pos_bound bits (2 ^ 23)).
  case_decide as Hs.
  { apply land_sign_bit in Hs as ->. done. }
  destruct (Z.testbit bits 23) eqn:Ht; [by apply land_sign_bit in Ht|].
  case_decide as He; [done|]. case_decide as He3.
  - assert (0 <= Z.shiftr m (8 * (3 - e)) < 2 ^ 24) as Hm'.
    { rewrite Z.shiftr_div_pow2 by lia. split; [apply Z.div_pos; lia|].
      apply Z.div_lt_upper_bound; [lia|]. nia. }
    rewrite (stored_target _ _ _ 29) by lia. rewrite mantissa_bytes by exact Hm'.
    rewrite Z.shiftr_div_pow2, (Z.pow_mul_r 2 8) by lia.
    change (29 - Z.of_nat 29) with 0. rewrite Z.pow_0_r. change (2 ^ 8) with 256. lia.
  - rewrite stored_target, mantissa_bytes by lia. f_equal. f_equal. lia.
Qed.

Lemma bits_to_target_ok bits :
  length (bits_to_target bits) = 32%nat /\ bytes_ok (bits_to_target bits).
Proof.
  assert (bytes_ok zero_target) by (apply Forall_replicate; done).
  unfold bits_to_target. repeat case_decide; rewrite ?length_insert;
    split; try done; repeat apply Forall_insert; auto using u8_range.
Qed.

(** ** The proof-of-work check *)

Section Mining.
Context `{HashLaws}.

Lemma check_proof_of_work_value h :
  in_u32 (nBits h) ->
  check_proof_of_work h = true <->
  be_value (CBlockHeader_GetHash h) <= compact_value (nBits h).
Proof.
  intros Hb. unfold check_proof_of_work. rewrite negb_true_iff.
  pose proof (bits_to_target_ok (nBits h)) as [Hl Hok].
  assert (length (CBlockHeader_GetHash h) = 32%nat /\ bytes_ok (CBlockHeader_GetHash h))
    as [Hl' Hok'] by (split; apply hash_double_sha256_length || apply hash_double_sha256_ok).
  rewrite array_lt_be, bits_to_target_value, Z.ltb_ge by congruence. done.
Qed.

(** A header with the search position replaced. *)
Definition at_position (h : CBlockHeader) (time bits nonce : Z) : CBlockHeader :=
  mkCBlockHeader (nVersion h) (hashPrevBlock h) (hashMerkleRoot h) time bits nonce.

(** The search position as one 64-bit counter: [nTime] above [nNonce]. *)
Definition position (h : CBlockHeader) : Z := nTime h * 2 ^ 32 + nNonce h.
Definition at_counter (h : CBlockHeader) (p : Z) : CBlockHeader :=
  at_position h (p / 2 ^ 32) (nBits h) (p mod 2 ^ 32).

Lemma at_counter_position h :
  in_u32 (nNonce h) -> at_counter h (position h) = h.
Proof.
  unfold in_u32. intros Hn. unfold at_counter, at_position, position.
  rewrite Z.div_add_l, Z.div_small, Z.add_0_r by lia.
  rewrite Z.add_comm, Z.mod_add, Z.mod_small by lia. by destruct h.
Qed.

(** A step advances the counter by one, modulo 2^64. *)
Lemma mine_step_counter h p :
  in_u64 p -> mine_step (at_counter h p) = at_counter h ((p + 1) mod 2 ^ 64).
Proof.
  unfold in_u64. intros Hp. unfold mine_step, at_counter, at_position. simpl.
  pose proof (Z.div_mod p (2 ^ 32) ltac:(lia)) as Hdm.
  pose proof (Z.mod_pos_bound p (2 ^ 32) ltac:(lia)).
  assert (0 <= p / 2 ^ 32 < 2 ^ 32).
  { split; [apply Z.div_pos; lia | apply Z.div_lt_upper_bound; lia]. }
  set (t := p / 2 ^ 32) in *. set (n := p mod 2 ^ 32) in *.
  case_decide as Hn; unfold u32.
  - assert (p + 1 = (t + 1) * 2 ^ 32) as -> by lia.
    change (2 ^ 64) with (2 ^ 32 * 2 ^ 32).
    rewrite Z.mul_mod_distr_r, Z.div_mul, Z.mod_mul by lia. done.
  - rewrite (Z.mod_small (p + 1)) by lia.
    replace (p + 1) with (t * 2 ^ 32 + (n + 1)) by lia.
    rewrite Z.div_add_l, (Z.div_small (n + 1)), Z.add_0_r by lia.
    rewrite (Z.add_comm (t * _)), Z.mod_add, Z.mod_small by lia. done.
Qed.

Lemma mine_iter h p k :
  in_u64 p ->
  Nat.iter k mine_step (at_counter h p) = at_counter h ((p + Z.of_nat k) mod 2 ^ 64).
Proof.
  intros Hp. induction k as [|k IH]; simpl Nat.iter.
  - rewrite Z.add_0_r, Z.mod_small; auto.
  - rewrite IH, mine_step_counter by (apply Z.mod_pos_bound; lia).
    rewrite Z.add_mod_idemp_l by lia. do 2 f_equal. lia.
Qed.

Lemma mine_loop_0 target h :
  mine_loop 0 target h = if array_lt target (CBlockHeader_GetHash h) then Diverge else Ok h.
Proof. done. Qed.
Lemma mine_loop_S fuel target h :
  mine_loop (S fuel) target h =
  if array_lt target (CBlockHeader_GetHash h) then mine_loop fuel target (mine_step h) else Ok h.
Proof. done. Qed.

(** The loop returns the first header of the enumeration that meets the target. *)
Lemma mine_loop_Ok fuel target h h' :
  mine_loop fuel target h = Ok h' <->
  exists k, (k <= fuel)%nat /\ h' = Nat.iter k mine_step h /\
    array_lt target (CBlockHeader_GetHash h') = false /\
    forall j, (j < k)%nat ->
      array_lt target (CBlockHeader_GetHash (Nat.iter j mine_step h)) = true.
Proof.
  revert h; induction fuel as [|fuel IH]; intros h; [rewrite mine_loop_0|rewrite mine_loop_S].
  - destruct (array_lt target (CBlockHeader_GetHash h)) eqn:E; split; try done.
    + intros (k & Hk & -> & H1 & _). assert (k = 0%nat) as -> by lia. simpl in H1. congruence.
    + intros [= <-]. exists 0%nat. split; [lia|]. split; [done|]. split; [done | lia].
    + intros (k & Hk & -> & _). by assert (k = 0%nat) as -> by lia.
  - destruct (array_lt target (CBlockHeader_GetHash h)) eqn:E.
    + rewrite IH. split.
      * intros (k & Hk & -> & H1 & H2). exists (S k). rewrite Nat.iter_succ_r.
        split; [lia|]. split; [done|]. split; [done|]. intros [|j] Hj; [done|].
        rewrite Nat.iter_succ_r. apply H2. lia.
      * intros ([|k] & Hk & -> & H1 & H2); [simpl in H1; congruence|]. exists k.
        rewrite Nat.iter_succ_r in *. split; [lia|]. split; [done|]. split; [done|].
        intros j Hj. rewrite <- Nat.iter_succ_r. apply H2. lia.
    + split.
      * intros [= <-]. exists 0%nat. split; [lia|]. split; [done|]. split; [done | lia].
      * intros ([|k] & Hk & -> & H1 & H2); [done|].
        specialize (H2 0%nat ltac:(lia)). simpl in H2. congruence.
Qed.

Lemma mine_loop_total fuel target h :
  mine_loop fuel target h = Diverge \/ exists h', mine_loop fuel target h = Ok h'.
Proof.
  revert h; induction fuel as [|fuel IH]; intros h;
    [rewrite mine_loop_0 | rewrite mine_loop_S]; destruct (array_lt _ _); eauto.
Qed.

(** The least index of a decidable predicate that holds somewhere. *)
Lemma least_index (f : nat -> bool) k :
  f k = false ->
  exists k0, (k0 <= k)%nat /\ f k0 = false /\ forall j, (j < k0)%nat -> f j = true.
Proof.
  induction k as [k IH] using lt_wf_ind. intros Hk.
  destruct (decide (Exists (fun j => f j = false) (seq 0 k))) as [He|Hn].
  - apply Exists_exists in He as (j & Hj & Hf). apply elem_of_seq in Hj.
    destruct (IH j) as (k0 & ? & ? & ?); [lia | done|]. exists k0. split; [lia|]. auto.
  - exists k. split; [lia|]. split; [done|]. intros j Hj.
    destruct (f j) eqn:E; [done|]. destruct Hn. apply Exists_exists. exists j.
    split; [apply elem_of_seq; lia | done].
Qed.

End Mining.

(** ** Mining: the theorems *)

Section MiningTheorems.
Context `{HashLaws}.

Lemma check_array_lt h :
  array_lt (bits_to_target (nBits h)) (CBlockHeader_GetHash h) = negb (check_proof_of_work h).
Proof. unfold check_proof_of_work. by rewrite negb_involutive. Qed.

Lemma mine_start h bits :
  in_u32 (nTime h) ->
  set_bits_nonce h bits 0 = at_counter (set_bits_nonce h bits 0) (nTime h * 2 ^ 32) /\
  in_u64 (nTime h * 2 ^ 32).
Proof.
  unfold in_u32, in_u64. intros Ht. unfold at_counter, at_position, set_bits_nonce. simpl.
  rewrite Z.div_mul, Z.mod_mul by lia. split; [done | lia].
Qed.

Lemma mine_block_iter fuel h bits h' :
  in_u32 (nTime h) ->
  mine_block fuel h bits = Ok h' ->
  exists p, in_u64 p /\ h' = at_counter (set_bits_nonce h bits 0) p /\
            check_proof_of_work h' = true.
Proof.
  intros Ht. pose proof (mine_start h bits Ht) as [Es Hp]. unfold mine_block.
  rewrite mine_loop_Ok. intros (k & _ & -> & Hlt & _).
  rewrite Es, mine_iter in * by done. eexists. split; [|split; [done|]].
  - apply Z.mod_pos_bound. lia.
  - change (bits_to_target (nBits _)) with (bits_to_target bits) in Hlt.
    unfold check_proof_of_work. simpl nBits. by rewrite Hlt.
Qed.

(** Every position is reached within 2^64 steps. *)
Lemma mine_reaches h bits p :
  in_u32 (nTime h) -> in_u64 p ->
  exists k, (k < Z.to_nat (2 ^ 64))%nat /\
    Nat.iter k mine_step (set_bits_nonce h bits 0) = at_counter (set_bits_nonce h bits 0) p.
Proof.
  intros Ht Hp. pose proof (mine_start h bits Ht) as [Es Hp0].
  exists (Z.to_nat ((p - nTime h * 2 ^ 32) mod 2 ^ 64)).
  pose proof (Z.mod_pos_bound (p - nTime h * 2 ^ 32) (2 ^ 64) ltac:(lia)). split.
  - apply Z2Nat.inj_lt; lia.
  - rewrite Es at 1. rewrite mine_iter by done. f_equal.
    rewrite Z2Nat.id, Z.add_mod_idemp_r by lia.
    replace (nTime h * 2 ^ 32 + (p - nTime h * 2 ^ 32)) with p by lia.
    by apply Z.mod_small.
Qed.

(** When [mine_block] returns, the header has the requested
    difficulty and satisfies its own proof-of-work check, and only [nBits],
    [nNonce] and [nTime] were changed. *)
Theorem mine_block_result fuel h bits h' :
  in_u32 (nTime h) -> in_u32 bits ->
  mine_block fuel h bits = Ok h' ->
  check_proof_of_work h' = true /\ nBits h' = bits /\
  nVersion h' = nVersion h /\ hashPrevBlock h' = hashPrevBlock h /\
  hashMerkleRoot h' = hashMerkleRoot h /\ in_u32 (nTime h') /\ in_u32 (nNonce h').
Proof.
  intros Ht Hb Hm. destruct (mine_block_iter _ _ _ _ Ht Hm) as (p & Hp & -> & Hc).
  unfold in_u64, in_u32 in *. simpl. do 5 (split; [done|]). split.
  - split; [apply Z.div_pos; lia | apply Z.div_lt_upper_bound; lia].
  - apply Z.mod_pos_bound. lia.
Qed.

(** C22.  The search is exhaustive: with fuel for 2^64 attempts it returns
    exactly when some (time, nonce) pair satisfies the target. *)
Theorem mine_block_exhaustive fuel h bits :
  in_u32 (nTime h) -> (Z.to_nat (2 ^ 64) <= fuel)%nat ->
  (exists h', mine_block fuel h bits = Ok h') <->
  (exists time nonce, in_u32 time /\ in_u32 nonce /\
     check_proof_of_work (at_position h time bits nonce) = true).
Proof.
  intros Ht Hf. split.
  - intros (h' & Hm). destruct (mine_block_iter _ _ _ _ Ht Hm) as (p & Hp & -> & Hc).
    exists (p / 2 ^ 32), (p mod 2 ^ 32). unfold in_u64, in_u32 in *.
    split; [split; [apply Z.div_pos; lia | apply Z.div_lt_upper_bound; lia]|].
    split; [apply Z.mod_pos_bound; lia | exact Hc].
  - intros (t & n & Htt & Hn & Hc). unfold in_u32 in *.
    destruct (mine_reaches h bits (t * 2 ^ 32 + n)) as (k & Hk & Hi);
      [done | unfold in_u64; lia|].
    set (f := fun j => array_lt (bits_to_target bits)
                (CBlockHeader_GetHash (Nat.iter j mine_step (set_bits_nonce h bits 0)))).
    assert (f k = false) as Hfk.
    { unfold f. rewrite Hi. unfold at_counter.
      rewrite Z.div_add_l, Z.div_small, Z.add_0_r by lia.
      rewrite Z.add_comm, Z.mod_add, Z.mod_small by lia.
      unfold check_proof_of_work in Hc. by apply negb_true_iff in Hc. }
    destruct (least_index f k Hfk) as (k0 & Hk0 & Hf0 & Hmin).
    eexists. unfold mine_block. apply mine_loop_Ok. exists k0.
    split; [|split; [done|split; [exact Hf0 | exact Hmin]]].
    eapply Nat.le_trans; [exact Hk0|]. eapply Nat.le_trans; [|exact Hf].
    apply Nat.lt_le_incl, Hk.
Qed.

(** Without a solution the loop runs for ever. *)
Lemma mine_block_diverges fuel h bits :
  in_u32 (nTime h) ->
  (forall time nonce, in_u32 time -> in_u32 nonce ->
     check_proof_of_work (at_position h time bits nonce) = false) ->
  mine_block fuel h bits = Diverge.
Proof.
  intros Ht Hno. destruct (mine_loop_total fuel (bits_to_target bits) (set_bits_nonce h bits 0))
    as [Hd|(h' & Hm)]; [exact Hd|].
  destruct (mine_block_iter fuel h bits h' Ht Hm) as (p & Hp & -> & Hc).
  exfalso. rewrite <- not_false_iff_true in Hc. apply Hc. apply Hno; unfold in_u64, in_u32 in *.
  - split; [apply Z.div_pos; lia | apply Z.div_lt_upper_bound; lia].
  - apply Z.mod_pos_bound. lia.
Qed.

End MiningTheorems.

(** ** Difficulty *)

(** C23.  A header passes [check_proof_of_work] exactly when its hash, read as a
    256-bit big-endian number, is at most the target its compact [nBits] encode:
    mantissa * 256^(exponent - 3), and zero for a negative or overlong encoding. *)
Theorem check_proof_of_work_target `{HashLaws} h :
  in_u32 (nBits h) ->
  (check_proof_of_work h = true <->
   be_value (CBlockHeader_GetHash h) <= compact_value (nBits h)) /\
  be_value (bits_to_target (nBits h)) = compact_value (nBits h).
Proof. intros Hb. split; [by apply check_proof_of_work_value | by apply bits_to_target_value]. Qed.

Lemma clamp_range s t : 0 <= t -> Z.quot t 4 <= clamp_timespan s t <= t * 4.
Proof.
  intros Ht. rewrite (Z.quot_div_nonneg t 4) by lia. pose proof (Z.div_le_upper_bound t 4 t).
  pose proof (Z.div_pos t 4). unfold clamp_timespan. rewrite (Z.quot_div_nonneg t 4) by lia.
  repeat case_decide; lia.
Qed.

Lemma clamp_idem s t : 0 <= t -> clamp_timespan (clamp_timespan s t) t = clamp_timespan s t.
Proof.
  intros Ht. pose proof (clamp_range s t Ht). set (c := clamp_timespan s t) in *.
  unfold clamp_timespan. repeat case_decide; lia.
Qed.

Lemma retarget_clamp bits s t : 0 <= t -> retarget bits s t = retarget bits (clamp_timespan s t) t.
Proof. intros Ht. unfold retarget. by rewrite clamp_idem. Qed.

(** The difficulty of the next block: an error for an empty history; the
    tip's own [nBits] when the height is not a multiple of the interval; otherwise
    the retarget over the last [interval] headers. *)
Theorem get_next_work_required_cases headers interval target :
  0 < interval ->
  get_next_work_required headers interval target =
  match last headers with
  | None => Throw invalid_argument
  | Some tip =>
      if decide (size_of headers mod interval = 0) then
        match head (drop (length headers - Z.to_nat interval) headers) with
        | None => Ub
        | Some start => retarget (nBits tip) (nTime tip - nTime start) target
        end
      else Ok (nBits tip)
  end.
Proof.
  intros Hi. unfold get_next_work_required. destruct (last headers) as [tip|] eqn:El; [|done].
  rewrite decide_False by lia. destruct (decide (size_of headers mod interval = 0)) as [E|E].
  2: { by rewrite decide_True by done. }
  rewrite decide_False by lia.
  assert (headers <> []) as Hne by (by destruct headers).
  assert (0 < size_of headers) as Hs by (unfold size_of; destruct headers; simpl; [done | lia]).
  assert (interval <= size_of headers) as Hle.
  { pose proof (Z.div_mod (size_of headers) interval ltac:(lia)) as Hd. rewrite E in Hd.
    assert (0 < size_of headers / interval) by (apply Z.nle_gt; intros Hn; nia). nia. }
  unfold size_of in *.
  replace (Z.to_nat (Z.of_nat (length headers) - interval)) with (length headers - Z.to_nat interval)%nat by lia.
  rewrite <- (Nat.add_0_r (length headers - Z.to_nat interval)) at 1. rewrite <- lookup_drop.
  rewrite head_lookup. destruct (drop _ _) eqn:Ed; [|done].
  apply (f_equal length) in Ed. rewrite length_drop in Ed. simpl in Ed. lia.
Qed.

(** *** The first retarget

    From the initial [nBits] 0x207fffff with the node's 60-second window; [t] is the
    initial target.  The scaled mantissa must stay below 2^23, but the scaling loop
    lets it reach 2^24 and the mask drops bit 23. *)
Definition first_target : Z := compact_value 0x207fffff.
Definition first_retarget_ok (s : Z) : bool :=
  match retarget 0x207fffff s 60 with
  | Ok bits =>
      let v := compact_value bits in
      if decide (s <= 60) then
        (60 * v <=? s * first_target) && (s * first_target <? 60 * v + s * first_target / 2 ^ 14)
      else if decide (s <= 120) then (60 * v <=? (s - 60) * first_target)
      else (v =? 0) && (33 <=? bits / 2 ^ 24)
  | _ => false
  end.

Lemma first_retarget_all : forallb (fun k => first_retarget_ok (15 + Z.of_nat k)) (seq 0 226) = true.
Proof. vm_compute. reflexivity. Qed.

Lemma first_retarget_clamped s : first_retarget_ok (clamp_timespan s 60) = true.
Proof.
  pose proof (clamp_range s 60 ltac:(lia)) as Hr. change (Z.quot 60 4) with 15 in Hr.
  pose proof first_retarget_all as Hall. rewrite forallb_forall in Hall.
  specialize (Hall (Z.to_nat (clamp_timespan s 60 - 15))).
  rewrite Z2Nat.id in Hall by lia. replace (15 + (clamp_timespan s 60 - 15)) with (clamp_timespan s 60) in Hall by lia.
  apply Hall, in_seq. lia.
Qed.

Lemma first_retarget_fits span : exists bits, retarget 0x207fffff span 60 = Ok bits.
Proof.
  rewrite retarget_clamp by lia. pose proof (first_retarget_clamped span) as Hok.
  unfold first_retarget_ok in Hok. destruct (retarget _ _ 60) as [bits| | |]; try done. by exists bits.
Qed.

(** The first retarget of a chain, for every observed time span [s]
    (clamped to [15, 240] seconds).  Up to 60 seconds the new target is the old one
    scaled by [s / 60], short by less than one part in 2^14, as documented.  From 61
    to 120 seconds, where the target should grow, it is at most [(s - 60) / 60] of
    the old one; from 121 seconds on the exponent is 33 and the target is zero. *)
Theorem first_retarget span :
  exists bits, retarget 0x207fffff span 60 = Ok bits /\
  let s := clamp_timespan span 60 in
  let v := compact_value bits in
  (s <= 60 -> 60 * v <= s * first_target < 60 * v + s * first_target / 2 ^ 14) /\
  (60 < s <= 120 -> 60 * v <= (s - 60) * first_target) /\
  (120 < s -> v = 0).
Proof.
  destruct (first_retarget_fits span) as [bits Hr]. exists bits. split; [done|].
  pose proof (first_retarget_clamped span) as Hok. rewrite retarget_clamp in Hr by lia.
  unfold first_retarget_ok in Hok. rewrite Hr in Hok. intros s v. fold s v in Hok. unfold first_target in *.
  split_and!; intros Hs.
  - rewrite decide_True in Hok by done. apply andb_true_iff in Hok as [H1 H2].
    apply Z.leb_le in H1. apply Z.ltb_lt in H2. done.
  - rewrite decide_False, decide_True in Hok by lia. by apply Z.leb_le in Hok.
  - rewrite !decide_False in Hok by lia. apply andb_true_iff in Hok as [H1 _]. by apply Z.eqb_eq in H1.
Qed.

(** A slow first window leaves a zero target. *)
Lemma first_retarget_zero span bits :
  120 < span -> retarget 0x207fffff span 60 = Ok bits -> compact_value bits = 0 /\ in_u32 bits.
Proof.
  intros Hs Hr. rewrite retarget_clamp in Hr by lia.
  assert (120 < clamp_timespan span 60 <= 240) as Hc.
  { unfold clamp_timespan. change (Z.quot 60 4) with 15. repeat case_decide; lia. }
  pose proof (first_retarget_clamped span) as Hok. unfold first_retarget_ok in Hok. rewrite Hr in Hok.
  rewrite !decide_False in Hok by lia. apply andb_true_iff in Hok as [H1 _]. split; [by apply Z.eqb_eq|].
  assert (forallb (fun k => match retarget 0x207fffff (121 + Z.of_nat k) 60 with
            | Ok b => (0 <=? b) && (b <? 2 ^ 32) | _ => false end) (seq 0 120) = true) as Hall
    by (vm_compute; reflexivity).
  rewrite forallb_forall in Hall. specialize (Hall (Z.to_nat (clamp_timespan span 60 - 121))).
  rewrite Z2Nat.id in Hall by lia.
  replace (121 + (clamp_timespan span 60 - 121)) with (clamp_timespan span 60) in Hall by lia.
  rewrite Hr in Hall. assert ((0 <=? bits) && (bits <? 2 ^ 32) = true) as Hb by (apply Hall, in_seq; lia).
  unfold in_u32. lia.
Qed.

Section Stall.
Context `{HashLaws}.

Lemma be_value_zero bs : bytes_ok bs -> be_value bs <= 0 -> bs = replicate (length bs) 0.
Proof.
  induction bs as [|b bs IH]; intros Hb Hv; [done|].
  apply Forall_cons in Hb as [Hb0 Hb]. rewrite be_value_cons in Hv. unfold in_u8 in *.
  pose proof (be_value_range bs Hb). assert (0 < 256 ^ Z.of_nat (length bs)) by (apply Z.pow_pos_nonneg; lia).
  simpl. rewrite <- IH by (done || nia). f_equal. nia.
Qed.

(** C36.  When the first five blocks of a chain (at the initial difficulty) span
    more than two minutes, the next block's target is zero: a header passes the
    check, and [mine_block] returns, only with a hash of 32 zero bytes. *)
Theorem slow_start_stalls headers start tip :
  length headers = 5%nat -> head headers = Some start -> last headers = Some tip ->
  nBits tip = 0x207fffff -> 120 < nTime tip - nTime start ->
  exists bits, get_next_work_required headers 5 60 = Ok bits /\
    (forall h, nBits h = bits -> check_proof_of_work h = true ->
       CBlockHeader_GetHash h = replicate 32 0) /\
    (forall fuel h h', in_u32 (nTime h) -> mine_block fuel h bits = Ok h' ->
       CBlockHeader_GetHash h' = replicate 32 0).
Proof.
  intros Hl Hh Ht Hb Hs. destruct (first_retarget_fits (nTime tip - nTime start)) as [bits Hr].
  destruct (first_retarget_zero _ _ Hs Hr) as [Hv Hu]. exists bits.
  assert (forall h, nBits h = bits -> check_proof_of_work h = true ->
            CBlockHeader_GetHash h = replicate 32 0) as Hno.
  { intros h Hbh Hc. apply check_proof_of_work_value in Hc; [|by rewrite Hbh].
    rewrite Hbh, Hv in Hc. apply be_value_zero in Hc; [|apply sha256_ok].
    unfold CBlockHeader_GetHash, hash_double_sha256 in *. by rewrite sha256_length in Hc. }
  split_and!; [| done |].
  - unfold get_next_work_required, size_of. rewrite Ht, Hl.
    destruct headers as [|h0 hs]; [done|]. injection Hh as ->. rewrite Hb. exact Hr.
  - intros fuel h h' Hth Hm. destruct (mine_block_iter _ _ _ _ Hth Hm) as (p & _ & -> & Hc).
    by apply Hno.
Qed.
End Stall.

(** Five headers, one minute apart. *)
Definition slow_header (t : Z) : CBlockHeader :=
  mkCBlockHeader 1 (replicate 32 0) (replicate 32 0) t 0x207fffff 0.
Definition slow_headers : list CBlockHeader := slow_header <$> [0; 60; 120; 180; 240].

#[local] Existing Instance toy_hashes.

Lemma slow_start_stalls_witness :
  exists bits, get_next_work_required slow_headers 5 60 = Ok bits /\
    (forall h, nBits h = bits -> @check_proof_of_work toy_hashes h = true ->
       @CBlockHeader_GetHash toy_hashes h = replicate 32 0).
Proof.
  destruct (@slow_start_stalls toy_hashes toy_hash_laws slow_headers (slow_header 0)
              (slow_header 240) eq_refl eq_refl eq_refl eq_refl ltac:(reflexivity))
    as (bits & H1 & H2 & _).
  exists bits. split; [exact H1 | exact H2].
Defined.

Lemma get_next_work_required_cases_witness :
  get_next_work_required slow_headers 5 60 = Ok 0x2101ffff.
Proof.
  refine (eq_trans (get_next_work_required_cases slow_headers 5 60 _) _); [lia | vm_compute; reflexivity].
Defined.

(** Mining the header [slow_header 0]. *)
Definition mined_header : CBlockHeader := Eval vm_compute in
  match @mine_block toy_hashes 64 (slow_header 0) 0x207fffff with Ok h => h | _ => slow_header 0 end.

Lemma check_proof_of_work_target_witness :
  be_value (@CBlockHeader_GetHash toy_hashes mined_header) <= compact_value 0x207fffff.
Proof.
  refine (proj1 (proj1 (@check_proof_of_work_target toy_hashes toy_hash_laws mined_header _)) _).
  - split; [discriminate | reflexivity].
  - vm_compute. reflexivity.
Defined.

Lemma mine_block_result_witness :
  @mine_block toy_hashes 64 (slow_header 0) 0x207fffff = Ok mined_header /\
  @check_proof_of_work toy_hashes mined_header = true.
Proof.
  assert (@mine_block toy_hashes 64 (slow_header 0) 0x207fffff = Ok mined_header) as E
    by (vm_compute; reflexivity).
  split; [exact E|].
  assert (in_u32 0 /\ in_u32 0x207fffff) as [Ht Hb] by (unfold in_u32; lia).
  exact (proj1 (@mine_block_result toy_hashes 64 (slow_header 0) 0x207fffff
                  mined_header Ht Hb E)).
Defined.

Lemma mine_block_exhaustive_witness :
  exists h', @mine_block toy_hashes (Z.to_nat (2 ^ 64)) (slow_header 0) 0x207fffff = Ok h'.
Proof.
  refine (proj2 (@mine_block_exhaustive toy_hashes (Z.to_nat (2 ^ 64))
                   (slow_header 0) 0x207fffff _ (Nat.le_refl _)) _).
  - unfold in_u32. cbn. lia.
  - exists (nTime mined_header), (nNonce mined_header).
    split; [unfold in_u32; cbn; lia|]. split; [unfold in_u32; cbn; lia|]. vm_compute. reflexivity.
Defined.
