(* ===== verification/Work.v ===== *)
(** The order of chain work: the doubles that [calculate_block_work] and
    [calculate_chain_work] produce are compared by their values, and adding to a work
    never makes it smaller, rounding included. *)
From S2P Require Import Prelude.
From S2P Require Import Crypto.
From S2P Require Import Serializer.
From S2P Require Import Transaction.
From S2P Require Import Block.
From S2P Require Import Pow.
From Stdlib Require Import Floats.SpecFloat.

#[local] Abbreviation fexp := (fexp 53 1024).
#[local] Abbreviation bounded := (bounded 53 1024).

(** ** Works and their values *)

(** A double that is not negative, not NaN, and canonical. *)
Definition is_work (d : double) : bool :=
  match d with
  | S754_zero false | S754_infinity false => true
  | S754_finite false m e => bounded m e
  | _ => false
  end.

(** Its value, in units of the least positive double; infinity is beyond the others. *)
Definition work_value (d : double) : Z :=
  match d with
  | S754_finite false m e => Z.pos m * 2 ^ (e + 1074)
  | S754_infinity false => 2 ^ 2098
  | _ => 0
  end.

Lemma digits_log2 x : 0 < x -> Zdigits2 x = Z.log2 x + 1.
Proof.
  destruct x as [|p|p]; try done. intros _. cbn [Zdigits2].
  assert (digits2_pos p = Pos.size p) as -> by (induction p as [p IH|p IH|]; cbn; by rewrite ?IH).
  destruct p as [p|p|]; cbn [Z.log2 Pos.size]; lia.
Qed.

(** The mantissa [x] at [e] has its digits where [fexp] wants them. *)
Lemma digits_range x n : 0 < x -> (Zdigits2 x <= n <-> x < 2 ^ n) /\ (n < Zdigits2 x <-> 2 ^ n <= x).
Proof.
  intros Hx. rewrite (digits_log2 x Hx). pose proof (Z.log2_nonneg x). split.
  - destruct (Z.lt_ge_cases n 0) as [Hn|Hn].
    + rewrite (Z.pow_neg_r 2 n Hn). lia.
    + rewrite (Z.log2_lt_pow2 x n Hx). lia.
  - destruct (Z.lt_ge_cases n 0) as [Hn|Hn].
    + rewrite (Z.pow_neg_r 2 n Hn). lia.
    + rewrite (Z.log2_le_pow2 x n Hx). lia.
Qed.

Lemma fexp_eq e : fexp e = Z.max (e - 53) (-1074).
Proof. reflexivity. Qed.

Lemma bounded_iff m e :
  bounded m e = true <-> -1074 <= e <= 971 /\ Z.pos m < 2 ^ 53 /\ (e = -1074 \/ 2 ^ 52 <= Z.pos m).
Proof.
  unfold SpecFloat.bounded, canonical_mantissa. rewrite andb_true_iff, Z.eqb_eq, Z.leb_le, fexp_eq.
  change (Z.pos (digits2_pos m)) with (Zdigits2 (Z.pos m)).
  destruct (digits_range (Z.pos m) 53 eq_refl) as [D1 D2], (digits_range (Z.pos m) 52 eq_refl) as [D3 D4].
  generalize dependent (Zdigits2 (Z.pos m)). lia.
Qed.

(** [SFcompare] compares the values. *)
Lemma scaled_lt m1 e1 m2 e2 :
  bounded m1 e1 = true -> bounded m2 e2 = true -> e1 < e2 ->
  Z.pos m1 * 2 ^ (e1 + 1074) < Z.pos m2 * 2 ^ (e2 + 1074).
Proof.
  rewrite !bounded_iff. intros (H1 & L1 & _) (H2 & _ & [->|L2]) He; [lia|].
  assert (0 <= e1 + 1074) as Hk by lia. assert (0 <= e2 - e1 - 1) as Hj by lia.
  replace (e2 + 1074) with ((e1 + 1074) + (e2 - e1 - 1) + 1) by lia.
  generalize dependent (e1 + 1074). generalize dependent (e2 - e1 - 1). intros j Hj k Hk.
  rewrite !Z.pow_add_r by lia.
  assert (0 < 2 ^ k) as Pk by (by apply Z.pow_pos_nonneg).
  assert (0 < 2 ^ j) as Pj by (by apply Z.pow_pos_nonneg).
  assert (Z.pos m1 < Z.pos m2 * 2 ^ j * 2) as Hm by nia. nia.
Qed.

Lemma work_value_finite m e :
  bounded m e = true -> 0 < Z.pos m * 2 ^ (e + 1074) < 2 ^ 2098.
Proof.
  rewrite bounded_iff. intros (H1 & L1 & _). split; [pose proof (Z.pow_pos_nonneg 2 (e + 1074)); lia|].
  eapply Z.lt_le_trans; [apply Z.mul_lt_mono_pos_r; [apply Z.pow_pos_nonneg; lia | exact L1]|].
  rewrite <- Z.pow_add_r by lia. apply Z.pow_le_mono_r; lia.
Qed.

Lemma compare_work a b :
  is_work a = true -> is_work b = true -> SFcompare a b = Some (work_value a ?= work_value b).
Proof.
  destruct a as [[]|[]| |[] m1 e1], b as [[]|[]| |[] m2 e2]; try done; cbn [is_work]; intros Ha Hb;
    cbn [SFcompare work_value]; f_equal; symmetry;
    try (apply Z.compare_lt_iff; solve [by apply work_value_finite]);
    try (apply Z.compare_gt_iff; solve [by apply work_value_finite]).
  destruct (Z.compare_spec e1 e2) as [->|E|E].
  - change (Pos.compare_cont Eq m1 m2) with (Z.pos m1 ?= Z.pos m2).
    symmetry. apply Zmult_compare_compat_r, Z.lt_gt, Z.pow_pos_nonneg; [done|].
    apply bounded_iff in Ha. lia.
  - apply Z.compare_lt_iff. by apply scaled_lt.
  - apply Z.compare_gt_iff. by apply scaled_lt.
Qed.

Lemma ltb_work a b :
  is_work a = true -> is_work b = true -> SFltb a b = (work_value a <? work_value b).
Proof. intros Ha Hb. unfold SFltb, Z.ltb. by rewrite compare_work. Qed.

(** ** Rounding *)

Lemma shr_1_half mrs : 0 <= shr_m mrs -> shr_m (shr_1 mrs) = shr_m mrs / 2 /\ 0 <= shr_m (shr_1 mrs).
Proof.
  destruct mrs as [m r s]. cbn [shr_m]. intros Hm. rewrite <- Z.div2_div.
  destruct m as [|[p|p|]|p]; cbn; lia.
Qed.

Lemma shr_iter p mrs :
  0 <= shr_m mrs ->
  shr_m (iter_pos shr_1 p mrs) = shr_m mrs / 2 ^ Z.pos p /\ 0 <= shr_m (iter_pos shr_1 p mrs).
Proof.
  revert mrs. induction p as [p IH|p IH|]; intros mrs Hm; cbn [iter_pos].
  - destruct (shr_1_half mrs Hm) as [E1 P1]. destruct (IH _ P1) as [E2 P2]. destruct (IH _ P2) as [E3 P3].
    split; [|done]. rewrite E3, E2, E1, !Z.div_div by (try lia; apply Z.pow_pos_nonneg; lia).
    f_equal. rewrite (Pos2Z.inj_xI p), Z.add_1_r, Z.pow_succ_r, Z.pow_twice_r by lia. lia.
  - destruct (IH _ Hm) as [E2 P2]. destruct (IH _ P2) as [E3 P3].
    split; [|done]. rewrite E3, E2, Z.div_div by (try lia; apply Z.pow_pos_nonneg; lia).
    f_equal. by rewrite (Pos2Z.inj_xO p), Z.pow_twice_r by lia.
  - by apply shr_1_half.
Qed.

(** To where [fexp] wants the digits, dropping the digits below. *)
Lemma shr_fexp_spec x e l :
  0 <= x -> e <= fexp (Zdigits2 x + e) ->
  exists mrs, shr_fexp 53 1024 x e l = (mrs, fexp (Zdigits2 x + e)) /\
    shr_m mrs = x / 2 ^ (fexp (Zdigits2 x + e) - e).
Proof.
  intros Hx He. unfold shr_fexp, shr. set (f := fexp _) in *.
  assert (shr_m (shr_record_of_loc x l) = x) as Er by (by destruct l as [|[]]).
  destruct (f - e) as [|p|p] eqn:E; [| |lia].
  - eexists. split; [f_equal; lia|]. by rewrite Z.div_1_r.
  - eexists. split; [f_equal; lia|]. rewrite <- Er at 2. apply shr_iter. by rewrite Er.
Qed.

Lemma round_nearest_even_range x l : x <= round_nearest_even x l <= x + 1.
Proof. destruct l as [|[]]; cbn; try destruct (Z.even x); lia. Qed.

(** A mantissa that has been aligned, from 0 to 2^53, at the exponent of its range. *)
Lemma round_final x e :
  0 <= x <= 2 ^ 53 -> -1074 <= e -> e = -1074 \/ 2 ^ 52 <= x ->
  exists mrs e', shr_fexp 53 1024 x e loc_Exact = (mrs, e') /\
    ((shr_m mrs = 0 /\ x = 0) \/
     exists m, shr_m mrs = Z.pos m /\ x * 2 ^ (e + 1074) = Z.pos m * 2 ^ (e' + 1074) /\
       (e' <= 971 -> bounded m e' = true)).
Proof.
  intros Hx He Hr. destruct (decide (x = 2 ^ 53)) as [->|Hn].
  - destruct (shr_fexp_spec (2 ^ 53) e loc_Exact) as (mrs & E & Em); [lia | |].
    { change (Zdigits2 (2 ^ 53)) with 54. rewrite fexp_eq. lia. }
    change (Zdigits2 (2 ^ 53)) with 54 in *. replace (fexp (54 + e)) with (e + 1) in * by (rewrite fexp_eq; lia).
    replace (e + 1 - e) with 1 in Em by lia. change (2 ^ 53 / 2 ^ 1) with 4503599627370496 in Em.
    eexists _, _. split; [exact E|]. right. exists 4503599627370496%positive. split; [done|]. split.
    + replace (e + 1 + 1074) with (1 + (e + 1074)) by lia. rewrite (Z.pow_add_r 2 1) by lia. lia.
    + intros He'. apply bounded_iff. split; [lia|]. split; [done | by right].
  - destruct (decide (x = 0)) as [->|Hz].
    + unfold shr_fexp, shr. rewrite fexp_eq. cbn [Zdigits2].
      destruct (_ - e) as [|p|p] eqn:E; [| lia |]; eexists _, _; split; [done | by left | done | by left].
    + destruct x as [|m|m]; [done | | lia].
      destruct (digits_range (Z.pos m) 53 eq_refl) as [D1 _], (digits_range (Z.pos m) 52 eq_refl) as [_ D4].
      assert (fexp (Zdigits2 (Z.pos m) + e) = e) as Ef by (rewrite fexp_eq; lia).
      destruct (shr_fexp_spec (Z.pos m) e loc_Exact) as (mrs & E & Em); [lia | lia|].
      rewrite Ef in E, Em. rewrite Z.sub_diag, Z.div_1_r in Em.
      eexists _, _. split; [exact E|]. right. exists m. split; [done|]. split; [done|].
      intros He'. apply bounded_iff. split; [lia|]. split; [lia | done].
Qed.

(** The digits that [fexp] keeps. *)
Lemma kept_digits x e :
  let f := fexp (Zdigits2 x + e) in
  0 <= x -> e <= f -> 0 <= x / 2 ^ (f - e) < 2 ^ 53 /\ (f = -1074 \/ 2 ^ 52 <= x / 2 ^ (f - e)).
Proof.
  intros f Hx He. assert (0 < 2 ^ (f - e)) as Pf by (apply Z.pow_pos_nonneg; lia).
  pose proof (fexp_eq (Zdigits2 x + e)) as Ef. fold f in Ef.
  destruct (decide (x = 0)) as [->|Hn].
  { rewrite Z.div_0_l by lia. cbn [Zdigits2] in Ef. lia. }
  destruct (digits_range x (53 + (f - e))) as [D1 _]; [lia|].
  destruct (digits_range x (52 + (f - e))) as [_ D2]; [lia|].
  rewrite Z.pow_add_r in D1, D2 by lia. split; [split|].
  - by apply Z.div_pos.
  - apply Z.div_lt_upper_bound; lia.
  - destruct (decide (f = -1074)) as [?|?]; [by left | right]. apply Z.div_le_lower_bound; lia.
Qed.

(** They are worth any canonical number below. *)
Lemma kept_value x e m0 e0 :
  let f := fexp (Zdigits2 x + e) in
  0 <= x -> e <= f -> -1074 <= e -> bounded m0 e0 = true ->
  Z.pos m0 * 2 ^ (e0 + 1074) <= x * 2 ^ (e + 1074) ->
  Z.pos m0 * 2 ^ (e0 + 1074) <= x / 2 ^ (f - e) * 2 ^ (f + 1074).
Proof.
  intros f Hx Hef He Hb Hle. destruct (kept_digits x e Hx Hef) as [_ Hk]. fold f in Hk.
  apply bounded_iff in Hb as (He0 & Hm0 & _).
  destruct (Z.le_gt_cases f e0) as [Hc|Hc].
  - replace (e0 + 1074) with ((e0 - f) + (f + 1074)) by lia. rewrite Z.pow_add_r, Z.mul_assoc by lia.
    apply Z.mul_le_mono_nonneg_r; [by apply Z.pow_nonneg|]. apply Z.div_le_lower_bound; [apply Z.pow_pos_nonneg; lia|].
    replace (e0 + 1074) with ((f - e) + (e0 - f) + (e + 1074)) in Hle by lia.
    rewrite !(Z.pow_add_r 2 _ (e + 1074)), (Z.pow_add_r 2 (f - e)), !Z.mul_assoc in Hle by lia.
    apply Z.mul_le_mono_pos_r in Hle; [lia | apply Z.pow_pos_nonneg; lia].
  - destruct Hk as [Hk|Hk]; [lia|].
    replace (f + 1074) with ((f - e0 - 1) + 1 + (e0 + 1074)) by lia.
    rewrite (Z.pow_add_r 2 _ (e0 + 1074)), (Z.pow_add_r 2 _ 1), !Z.mul_assoc by lia.
    apply Z.mul_le_mono_nonneg_r; [by apply Z.pow_nonneg|].
    assert (0 < 2 ^ (f - e0 - 1)) as Pf by (apply Z.pow_pos_nonneg; lia). nia.
Qed.

(** Rounding gives a work, not below any work that is not above the number. *)
Lemma round_work x e l :
  0 <= x -> e <= fexp (Zdigits2 x + e) ->
  is_work (binary_round_aux 53 1024 false x e l) = true /\
  (-1074 <= e -> forall m0 e0, bounded m0 e0 = true ->
     Z.pos m0 * 2 ^ (e0 + 1074) <= x * 2 ^ (e + 1074) ->
     Z.pos m0 * 2 ^ (e0 + 1074) <= work_value (binary_round_aux 53 1024 false x e l)).
Proof.
  intros Hx He. unfold binary_round_aux. pose proof (kept_value x e) as Hv. cbv zeta in Hv.
  destruct (kept_digits x e Hx He) as [H1 H2]. destruct (shr_fexp_spec x e l Hx He) as (mrs & -> & Em).
  rewrite <- Em in H1, H2, Hv. set (f := fexp (Zdigits2 x + e)) in *.
  assert (-1074 <= f) as Hf by (unfold f; rewrite fexp_eq; lia).
  pose proof (round_nearest_even_range (shr_m mrs) (loc_of_shr_record mrs)) as Hr.
  set (r := round_nearest_even _ _) in *.
  assert (shr_m mrs * 2 ^ (f + 1074) <= r * 2 ^ (f + 1074)) as Hle
    by (apply Z.mul_le_mono_nonneg_r; [by apply Z.pow_nonneg | lia]).
  destruct (round_final r f) as (mrs2 & e2 & -> & [[-> Hz]|(m & -> & Er & Hb)]); [lia | lia | lia | |].
  - split; [done|]. intros H0 m0 e0 Hb Hm. pose proof (work_value_finite _ _ Hb). specialize (Hv m0 e0 Hx He H0 Hb Hm).
    cbn [work_value]. lia.
  - destruct (Z.leb_spec e2 (1024 - 53)) as [Hc|Hc].
    + split; [apply Hb; lia|]. intros H0 m0 e0 Hb0 Hm. specialize (Hv m0 e0 Hx He H0 Hb0 Hm). cbn [work_value]. lia.
    + split; [done|]. intros H0 m0 e0 Hb0 Hm. by apply Z.lt_le_incl, work_value_finite.
Qed.

(** A number that is a double already. *)
Lemma round_exact m e :
  bounded m e = true -> binary_round_aux 53 1024 false (Z.pos m) e loc_Exact = S754_finite false m e.
Proof.
  unfold SpecFloat.bounded, canonical_mantissa. rewrite andb_true_iff, Z.eqb_eq. intros [E He].
  unfold binary_round_aux, shr_fexp, shr. cbn [Zdigits2]. rewrite E, Z.sub_diag.
  cbn [shr_record_of_loc shr_m loc_of_shr_record round_nearest_even Zdigits2]. rewrite E, Z.sub_diag.
  cbn [shr_record_of_loc shr_m]. by rewrite He.
Qed.

Lemma shl_align_spec m e e' :
  exists m2, shl_align m e e' = (m2, Z.min e e') /\ Z.pos m2 = Z.pos m * 2 ^ (e - Z.min e e').
Proof.
  unfold shl_align. destruct (e' - e) as [|p|p] eqn:E.
  - exists m. split; [f_equal; lia|]. replace (e - Z.min e e') with 0 by lia. lia.
  - exists m. split; [f_equal; lia|]. replace (e - Z.min e e') with 0 by lia. lia.
  - eexists. split; [f_equal; lia|]. replace (e - Z.min e e') with (Z.pos p) by lia.
    pose proof (Zpower.shift_pos_correct p m) as Hs. unfold Zpower.shift_pos in Hs. rewrite Hs.
    rewrite Zpower_pos_nat, Zpower_nat_Z, positive_nat_Z. lia.
Qed.

Lemma digits_shift x n : 0 < x -> 0 <= n -> Zdigits2 (x * 2 ^ n) = Zdigits2 x + n.
Proof.
  intros Hx Hn. assert (0 < 2 ^ n) by (by apply Z.pow_pos_nonneg).
  rewrite !digits_log2 by lia. rewrite Z.log2_mul_pow2 by lia. lia.
Qed.

Lemma binary_round_work m e :
  is_work (binary_round 53 1024 false m e) = true /\
  (-1074 <= e -> forall m0 e0, bounded m0 e0 = true ->
     Z.pos m0 * 2 ^ (e0 + 1074) <= Z.pos m * 2 ^ (e + 1074) ->
     Z.pos m0 * 2 ^ (e0 + 1074) <= work_value (binary_round 53 1024 false m e)).
Proof.
  unfold binary_round. change (Z.pos (digits2_pos m)) with (Zdigits2 (Z.pos m)).
  set (f := fexp (Zdigits2 (Z.pos m) + e)).
  destruct (shl_align_spec m e f) as (m2 & -> & E). set (e2 := Z.min e f) in *.
  assert (Zdigits2 (Z.pos m2) + e2 = Zdigits2 (Z.pos m) + e) as Ed by (rewrite E, digits_shift; lia).
  destruct (round_work (Z.pos m2) e2 loc_Exact) as [Hw Hle]; [lia | rewrite Ed; lia|].
  split; [exact Hw|]. intros He m0 e0 Hb Hm.
  assert (-1074 <= f) as Hf by (unfold f; rewrite fexp_eq; lia).
  apply Hle; [lia | exact Hb|]. rewrite E, <- Z.mul_assoc, <- Z.pow_add_r by lia.
  by replace (e - e2 + (e2 + 1074)) with (e + 1074) by lia.
Qed.

(** ** Addition *)

Lemma work_add a b :
  is_work a = true -> is_work b = true ->
  is_work (dadd a b) = true /\ work_value a <= work_value (dadd a b).
Proof.
  destruct a as [[]|[]| |[] m1 e1], b as [[]|[]| |[] m2 e2]; try done; cbn [is_work]; intros Ha Hb.
  - split; [exact Hb|]. apply Z.lt_le_incl. by apply work_value_finite.
  - split; [done|]. apply Z.lt_le_incl. by apply work_value_finite.
  - unfold dadd, SFadd. cbn [cond_Zopp].
    destruct (shl_align_spec m1 e1 (Z.min e1 e2)) as (n1 & -> & E1).
    destruct (shl_align_spec m2 e2 (Z.min e1 e2)) as (n2 & -> & E2). cbn [fst].
    set (e := Z.min e1 e2) in *. rewrite <- Pos2Z.inj_add. cbn [binary_normalize].
    destruct (binary_round_work (n1 + n2) e) as [Hw Hle]. split; [exact Hw|].
    apply bounded_iff in Ha as Ha'. apply bounded_iff in Hb as Hb'.
    assert (e <= e1 /\ -1074 <= e) as [He1 He] by (unfold e; lia).
    apply Hle; [exact He | exact Ha|].
    replace (e1 + 1074) with ((e1 - Z.min e1 e) + (e + 1074)) by lia.
    rewrite Z.pow_add_r, Z.mul_assoc, <- E1 by lia.
    apply Z.mul_le_mono_nonneg_r; [by apply Z.pow_nonneg | lia].
Qed.

(** ** The work of a block *)

Lemma quotient_digits m1 m2 s :
  0 <= s -> Zdigits2 (Z.pos m1) + s - Zdigits2 (Z.pos m2) <= Zdigits2 (Z.pos m1 * 2 ^ s / Z.pos m2).
Proof.
  intros Hs. set (d1 := Zdigits2 (Z.pos m1)). set (d2 := Zdigits2 (Z.pos m2)). set (q := _ / _).
  assert (0 < 2 ^ s) as Ps by (by apply Z.pow_pos_nonneg).
  assert (0 <= q) as Hq by (apply Z.div_pos; lia).
  assert (0 < d1 /\ 0 < d2) as [Hd1 Hd2] by (split; reflexivity).
  destruct (Z.le_gt_cases (d1 + s - d2) 0) as [Hc|Hc].
  { assert (forall z, 0 <= Zdigits2 z) as Hz by (by intros []). specialize (Hz q). lia. }
  destruct (digits_range (Z.pos m1) (d1 - 1) eq_refl) as [_ [L1 _]]. specialize (L1 ltac:(fold d1; lia)).
  destruct (digits_range (Z.pos m2) d2 eq_refl) as [[L2 _] _]. specialize (L2 ltac:(fold d2; lia)).
  assert (2 ^ (d1 + s - d2 - 1) <= q) as Hge.
  { apply Z.div_le_lower_bound; [lia|].
    assert (2 ^ d2 * 2 ^ (d1 + s - d2 - 1) = 2 ^ (d1 - 1) * 2 ^ s) as E.
    { rewrite <- !Z.pow_add_r by lia. f_equal. lia. }
    assert (0 < 2 ^ (d1 + s - d2 - 1)) by (apply Z.pow_pos_nonneg; lia). nia. }
  assert (0 < 2 ^ (d1 + s - d2 - 1)) by (apply Z.pow_pos_nonneg; lia).
  destruct (digits_range q (d1 + s - d2 - 1)) as [_ [_ L3]]; [lia|]. specialize (L3 Hge). lia.
Qed.

Lemma fexp_mono a b : a <= b -> fexp a <= fexp b.
Proof. rewrite !fexp_eq. lia. Qed.

Lemma work_div a m e : is_work a = true -> is_work (ddiv a (S754_finite false m e)) = true.
Proof.
  destruct a as [[]|[]| |[] m1 e1]; try done. intros _. unfold ddiv, SFdiv, SFdiv_core_binary.
  set (d1 := Zdigits2 (Z.pos m1)). set (d2 := Zdigits2 (Z.pos m)).
  set (e' := Z.min (fexp (d1 + e1 - (d2 + e))) (e1 - e)). set (s := e1 - e - e').
  assert (match s with 0 => Z.pos m1 | Z.pos _ => Z.shiftl (Z.pos m1) s | Z.neg _ => 0 end = Z.pos m1 * 2 ^ s) as ->.
  { destruct s eqn:E; [lia | | lia]. by rewrite Z.shiftl_mul_pow2. }
  destruct (Z.div_eucl (Z.pos m1 * 2 ^ s) (Z.pos m)) as [q r] eqn:Eq.
  assert (q = Z.pos m1 * 2 ^ s / Z.pos m) as -> by (unfold Z.div; by rewrite Eq).
  apply round_work.
  - apply Z.div_pos; [|done]. apply Z.mul_nonneg_nonneg; [done | apply Z.pow_nonneg; lia].
  - pose proof (quotient_digits m1 m s ltac:(lia)) as Hd. fold d1 d2 in Hd.
    etrans; [|apply fexp_mono with (a := d1 + e1 - (d2 + e)); lia]. lia.
Qed.

Lemma of_int_finite m : 0 < m < 2 ^ 23 -> exists n e, of_int m = S754_finite false n e.
Proof.
  intros Hm. destruct m as [|m|m]; [lia | | lia]. unfold of_int. cbn [binary_normalize]. unfold binary_round.
  change (Z.pos (digits2_pos m)) with (Zdigits2 (Z.pos m)).
  destruct (digits_range (Z.pos m) 23 eq_refl) as [[_ D] _]. specialize (D (proj2 Hm)).
  assert (1 <= Zdigits2 (Z.pos m)) as D' by (cbn; lia).
  destruct (shl_align_spec m 0 (fexp (Zdigits2 (Z.pos m) + 0))) as (n & -> & E).
  rewrite fexp_eq in *. set (e := Z.min _ _) in *. exists n, e. apply round_exact, bounded_iff.
  assert (Zdigits2 (Z.pos n) = 53) as Ed by (rewrite E, digits_shift; lia).
  destruct (digits_range (Z.pos n) 53 eq_refl) as [D1 _], (digits_range (Z.pos n) 52 eq_refl) as [_ D4].
  split; [lia|]. split; [lia | right; lia].
Qed.

Lemma block_work_is_work bits : is_work (calculate_block_work bits) = true.
Proof.
  unfold calculate_block_work. case_decide as Hz; [done|]. rewrite land_mantissa in *.
  pose proof (Z.mod_pos_bound bits (2 ^ 23) eq_refl) as Hm.
  destruct (of_int_finite (bits mod 2 ^ 23)) as (n & e & ->); [lia|]. apply work_div.
  unfold pow2, SFldexp. change (SFone 53 1024) with (S754_finite false 4503599627370496 (-52)).
  apply binary_round_work.
Qed.

(** ** The work of a chain *)

Lemma chain_work_snoc headers h :
  calculate_chain_work (headers ++ [h])
  = dadd (calculate_chain_work headers) (calculate_block_work (nBits h)).
Proof. unfold calculate_chain_work. by rewrite fold_left_app. Qed.

Lemma chain_work_is_work headers : is_work (calculate_chain_work headers) = true.
Proof.
  induction headers as [|h headers IH] using rev_ind; [done|].
  rewrite chain_work_snoc. apply work_add; [exact IH | apply block_work_is_work].
Qed.

Lemma chain_work_mono headers more :
  work_value (calculate_chain_work headers) <= work_value (calculate_chain_work (headers ++ more)).
Proof.
  induction more as [|h more IH] using rev_ind; [by rewrite app_nil_r|].
  rewrite app_assoc, chain_work_snoc. etrans; [exact IH|].
  apply work_add; [apply chain_work_is_work | apply block_work_is_work].
Qed.

Lemma chain_work_ltb h1 h2 :
  SFltb (calculate_chain_work h1) (calculate_chain_work h2)
  = (work_value (calculate_chain_work h1) <? work_value (calculate_chain_work h2)).
Proof. apply ltb_work; apply chain_work_is_work. Qed.
