(* ===== verification/Wallet.v ===== *)
(** wallet/wallet.h: identities and the transactions they make. *)
From S2P Require Import Prelude.
From S2P Require Import Crypto.
From S2P Require Import Ecdsa.
From S2P Require Import Base58.
From S2P Require Import Ripemd160.
From S2P Require Import Hashes.
From S2P Require Import Script.
From S2P Require Import Serializer.
From S2P Require Import Transaction.

Definition DUST_THRESHOLD : Z := 1000.

Section Wallet.
Context `{HashFns, Secp256k1}.

Record Wallet := mkWallet {
  seckey_ : bytes;
  pubkey_ : secp256k1_pubkey;
  compressed_pubkey_ : bytes;
  address_ : bytes;
}.

(** The default constructor: a key from the system's random bytes. *)
Definition Wallet_make (rnd : Z * bytes) : result Wallet :=
  match generate_keypair rnd with
  | None => Throw runtime_error
  | Some k =>
      match create_address_from_pubkey (compressed_pubkey k) with
      | None => Throw runtime_error
      | Some (address, _) => Ok (mkWallet (seckey k) (pubkey k) (compressed_pubkey k) address)
      end
  end.

(** [FromSeckey] and the private constructor it calls. *)
Definition Wallet_FromSeckey (seckey : bytes) : result Wallet :=
  if negb (secp256k1_ec_seckey_verify seckey) then Throw runtime_error
  else
    match secp256k1_ec_pubkey_create seckey with
    | None => Throw runtime_error
    | Some pubkey =>
        let compressed := secp256k1_ec_pubkey_serialize pubkey in
        match create_address_from_pubkey compressed with
        | None => Throw runtime_error
        | Some (address, _) => Ok (mkWallet seckey pubkey compressed address)
        end
    end.

Definition Sign (w : Wallet) (tx : Transaction) : result bytes :=
  let sighash := Transaction_GetHash tx in
  signature ← sign_raw (seckey_ w) sighash;
  let pubkey := take PUBKEY_SIZE (compressed_pubkey_ w) in
  Ok (build_script_sig signature pubkey).

(** The selection loop: [available] is the UTXO map in the order it is iterated. *)
Fixpoint select_utxos (available : list (COutPoint * CTxOut)) (amount fee : Z)
    (selected : list COutPoint) (selected_total : Z) : result (list COutPoint * Z) :=
  match available with
  | [] => Ok (selected, selected_total)
  | (outpoint, txout) :: rest =>
      let selected := selected ++ [outpoint] in
      selected_total ← add_i64 selected_total (nValue txout);
      target ← add_i64 amount fee;
      if target <=? selected_total then Ok (selected, selected_total)
      else select_utxos rest amount fee selected selected_total
  end.

Definition set_script_sigs (script_sig : bytes) (tx : Transaction) : Transaction :=
  mkTransaction (tx_nVersion tx)
    ((fun i => mkCTxIn (prevout i) script_sig (nSequence i)) <$> vin tx) (vout tx) (nLockTime tx)
    (tx_hash tx).

Definition CreateTransaction (w : Wallet) (available_utxos : list (COutPoint * CTxOut))
    (recipient_address : bytes) (amount fee : Z) : result Transaction :=
  '(selected, selected_total) ← select_utxos available_utxos amount fee [] 0;
  target ← add_i64 amount fee;
  if decide (selected_total < target) then Throw invalid_argument
  else
    let inputs := (fun outpoint => mkCTxIn outpoint [] 0xFFFFFFFF) <$> selected in
    let outputs := [mkCTxOut amount (build_p2pkh_script_pubkey recipient_address)] in
    rest ← sub_i64 selected_total amount;
    change ← sub_i64 rest fee;
    let outputs :=
      if decide (DUST_THRESHOLD <= change)
      then outputs ++ [mkCTxOut change (build_p2pkh_script_pubkey (address_ w))] else outputs in
    let tx := Transaction_make 1 inputs outputs 0 in
    script_sig ← Sign w tx;
    Ok (set_tx_hash (set_script_sigs script_sig tx)).

(** [verify_transaction_signature]. *)
Definition verify_transaction_signature (tx : Transaction) (input_index : nat)
    (expected_script_pub_key : bytes) : result bool :=
  match vin tx !! input_index with
  | None => Ok false
  | Some i =>
      let unsigned_tx := set_script_sigs [] tx in
      let sighash := Transaction_GetHash unsigned_tx in
      evaluate (scriptSig i) expected_script_pub_key sighash
  end.

End Wallet.

(** ** Lemmas *)

Section WalletFacts.
Context `{HashLaws, Secp256k1Laws}.

(** A wallet as both constructors make it. *)
Definition Wallet_ok (w : Wallet) : Prop :=
  secp256k1_ec_pubkey_create (seckey_ w) = Some (pubkey_ w) /\
  compressed_pubkey_ w = secp256k1_ec_pubkey_serialize (pubkey_ w) /\
  address_ w = ripemd160 (sha256 (compressed_pubkey_ w)).

Lemma Wallet_FromSeckey_ok k w : Wallet_FromSeckey k = Ok w -> Wallet_ok w /\ seckey_ w = k.
Proof.
  unfold Wallet_FromSeckey. destruct (negb _); [done|].
  destruct (secp256k1_ec_pubkey_create k) as [p|] eqn:Hp; [|done].
  rewrite create_address_Some. by intros [= <-].
Qed.

Lemma Wallet_FromSeckey_total k :
  (exists w, Wallet_FromSeckey k = Ok w) <-> secp256k1_ec_seckey_verify k = true.
Proof.
  unfold Wallet_FromSeckey. split.
  - destruct (secp256k1_ec_seckey_verify k); [done|]. by intros [w ?].
  - intros Hv. rewrite Hv. cbn [negb]. apply pubkey_create_valid in Hv as [p ->].
    rewrite create_address_Some. eauto.
Qed.

Lemma Wallet_make_ok rnd w : Wallet_make rnd = Ok w -> Wallet_ok w /\ seckey_ w = snd rnd.
Proof.
  unfold Wallet_make, generate_keypair. destruct (negb (fill_random _ _)); [done|].
  destruct (negb _); [done|]. destruct (secp256k1_ec_pubkey_create (snd rnd)) as [p|] eqn:Hp; [|done].
  case_decide; [done|]. rewrite create_address_Some. by intros [= <-].
Qed.

Lemma Wallet_ok_address w : Wallet_ok w -> length (address_ w) = ADDRESS_SIZE.
Proof. intros (_ & _ & ->). apply ripemd160_length. Qed.

(** A wallet saved as its secret key and restored is the same wallet. *)
Lemma Wallet_restore w : Wallet_ok w -> Wallet_FromSeckey (seckey_ w) = Ok w.
Proof.
  intros (Hp & Hc & Ha). unfold Wallet_FromSeckey.
  assert (secp256k1_ec_seckey_verify (seckey_ w) = true) as -> by (apply pubkey_create_valid; eauto).
  cbn [negb]. rewrite Hp, create_address_Some, <- Hc, <- Ha. by destruct w.
Qed.

(** *** Selection *)

Definition total_value (l : list (COutPoint * CTxOut)) : Z :=
  fold_right (fun e acc => nValue (snd e) + acc) 0 l.

Lemma total_value_app l l' : total_value (l ++ l') = total_value l + total_value l'.
Proof. induction l as [|e l IH]; simpl; [done|]. unfold total_value in *. rewrite IH. lia. Qed.

(** The selected entries are the shortest prefix that reaches the target, or all. *)
Lemma select_utxos_Ok available amount fee sel tot sel' tot' :
  select_utxos available amount fee sel tot = Ok (sel', tot') ->
  exists taken rest, available = taken ++ rest /\ sel' = sel ++ (fst <$> taken) /\
    tot' = tot + total_value taken /\
    (rest = [] \/ (taken <> [] /\ amount + fee <= tot')) /\
    (forall init, init `prefix_of` taken -> init <> taken -> init <> [] ->
       tot + total_value init < amount + fee).
Proof.
  revert sel tot. induction available as [|[o out] rest IH]; intros sel tot; cbn [select_utxos].
  { intros [= <- <-]. exists [], []. simpl. rewrite app_nil_r. split_and!; [done | done | lia | by left |].
    intros init Hi Hn. by apply prefix_nil_inv in Hi. }
  intros Hsel. inv_bind Hsel. apply add_i64_Ok in Ha as [-> _].
  inv_bind Hsel. apply add_i64_Ok in Ha as [-> _].
  destruct (Z.leb_spec (amount + fee) (tot + nValue out)) as [Hle|Hgt].
  - injection Hsel as <- <-. exists [(o, out)], rest. simpl.
    split_and!; [done | done | lia | right; split; [done | lia] |].
    intros init Hi Hn Hne. destruct init as [|e init]; [done|].
    apply prefix_cons_inv_2 in Hi as Hi2. apply prefix_nil_inv in Hi2 as ->.
    apply prefix_cons_inv_1 in Hi as ->. done.
  - apply IH in Hsel as (taken & rest' & -> & -> & -> & Hr & Hp).
    exists ((o, out) :: taken), rest'. simpl. rewrite <- app_assoc.
    split_and!; [done | done | lia | |].
    + destruct Hr as [->|[? ?]]; [by left | right; split; [done | lia]].
    + intros init Hi Hn Hne. destruct init as [|e init]; [done|].
      apply prefix_cons_inv_2 in Hi as Hi2. apply prefix_cons_inv_1 in Hi as ->. simpl.
      destruct init as [|e' init].
      * simpl. lia.
      * specialize (Hp (e' :: init) Hi2 ltac:(congruence) ltac:(done)). simpl in *. lia.
Qed.

(** *** Signatures *)

Lemma set_script_sigs_twice s s' tx : set_script_sigs s (set_script_sigs s' tx) = set_script_sigs s tx.
Proof. unfold set_script_sigs. simpl. f_equal. by rewrite <- list_fmap_compose. Qed.

(** The hash does not read the cached [tx_hash]. *)
Lemma GetHash_fields tx tx' :
  tx_nVersion tx = tx_nVersion tx' -> vin tx = vin tx' -> vout tx = vout tx' ->
  nLockTime tx = nLockTime tx' -> Transaction_GetHash tx = Transaction_GetHash tx'.
Proof. intros E1 E2 E3 E4. unfold Transaction_GetHash, Transaction_Serialize. by rewrite E1, E2, E3, E4. Qed.

(** Signing with a good wallet succeeds, and the script signature unlocks the
    wallet's outputs for the signed hash. *)
Lemma Sign_unlocks w tx :
  Wallet_ok w ->
  exists s, Sign w tx = Ok s /\ bytes_ok s /\ size_of s = 99 /\
    evaluate s (build_p2pkh_script_pubkey (address_ w)) (Transaction_GetHash tx) = Ok true.
Proof.
  intros (Hp & Hc & Ha). unfold Sign.
  destruct (sign_raw_valid (seckey_ w) (pubkey_ w) (Transaction_GetHash tx) Hp)
    as (s & -> & Hl & Hok & Hv). cbn [mbind result_bind].
  pose proof (pubkey_serialize_length _ _ Hp) as Hpl. pose proof (pubkey_serialize_ok _ _ Hp) as Hpo.
  rewrite <- Hc in Hv, Hpl, Hpo.
  assert (take PUBKEY_SIZE (compressed_pubkey_ w) = compressed_pubkey_ w) as ->
    by (apply take_ge; rewrite Hpl; done).
  eexists. split_and!; [done | by apply build_script_sig_ok | |].
  - rewrite build_script_sig_eq, size_of_cons, size_of_app, size_of_cons. unfold size_of.
    rewrite Hl, Hpl. done.
  - rewrite evaluate_pushes.
    + rewrite <- Ha, bool_decide_true, Hv by done. done.
    + unfold size_of. rewrite Hl. unfold SIGNATURE_SIZE. lia.
    + unfold size_of. rewrite Hpl. lia.
    + rewrite Ha. apply ripemd160_length.
Qed.

(** Under no overflow the selection loop returns, with the whole total at most. *)
Lemma select_utxos_total available amount fee sel tot :
  in_i64 (amount + fee) -> 0 <= tot ->
  Forall (fun e => 0 <= nValue (snd e)) available -> tot + total_value available < 2 ^ 63 ->
  exists r, select_utxos available amount fee sel tot = Ok r.
Proof.
  intros Ht Hz Hv. revert sel tot Hz. induction Hv as [|[o out] rest Hn Hv IH]; intros sel tot Hz Hs;
    cbn [select_utxos]; [by eexists|]. cbn [snd] in Hn.
  change (total_value ((o, out) :: rest)) with (nValue out + total_value rest) in Hs.
  assert (0 <= total_value rest) as Hr.
  { clear -Hv. induction Hv as [|e l He _ IH]; simpl; [lia|]. unfold total_value in *. lia. }
  rewrite (add_i64_in tot), (add_i64_in amount) by (done || (unfold in_i64; lia)).
  cbn [mbind result_bind].
  destruct (_ <=? _); [by eexists|]. apply IH; lia.
Qed.

Lemma total_value_nonneg l : Forall (fun e => 0 <= nValue (snd e)) l -> 0 <= total_value l.
Proof. induction 1 as [|e l He _ IH]; simpl; [lia|]. unfold total_value in *. lia. Qed.

(** What a payment made from the outputs [available] looks like. *)
Definition payment (w : Wallet) (available : list (COutPoint * CTxOut)) (recipient : bytes)
    (amount fee : Z) (tx : Transaction) : Prop :=
  exists taken rest,
    available = taken ++ rest /\ (prevout <$> vin tx) = taken.*1 /\
    amount + fee <= total_value taken /\
    (forall init, init `prefix_of` taken -> init <> taken -> init <> [] ->
       total_value init < amount + fee) /\
    (let change := total_value taken - amount - fee in
     vout tx = mkCTxOut amount (build_p2pkh_script_pubkey recipient)
               :: if decide (DUST_THRESHOLD <= change)
                  then [mkCTxOut change (build_p2pkh_script_pubkey (address_ w))] else []) /\
    tx_hash tx = Transaction_GetHash tx /\
    (forall i, (i < length (vin tx))%nat ->
       verify_transaction_signature tx i (build_p2pkh_script_pubkey (address_ w)) = Ok true).

Lemma CreateTransaction_payment w available recipient amount fee tx :
  Wallet_ok w -> CreateTransaction w available recipient amount fee = Ok tx ->
  payment w available recipient amount fee tx.
Proof.
  intros Hw. unfold CreateTransaction. intros Hc. inv_bind Hc. destruct a as [sel tot].
  inv_bind Hc. apply add_i64_Ok in Ha0 as [-> _]. case_decide as Hlt; [done|].
  inv_bind Hc. apply sub_i64_Ok in Ha0 as [-> _]. inv_bind Hc. apply sub_i64_Ok in Ha0 as [-> _].
  inv_bind Hc. injection Hc as <-.
  destruct (select_utxos_Ok _ _ _ _ _ _ _ Ha) as (taken & rest & -> & Hsel & Htot & Hr & Hmin).
  simpl in Hsel, Htot. subst sel tot. rewrite Z.add_0_l in *.
  set (outs := if decide _ then _ else _) in Ha0 |- *.
  set (tx0 := Transaction_make 1 _ outs 0) in Ha0 |- *.
  destruct (Sign_unlocks w tx0 Hw) as (s & Hs & _ & _ & Hev). rewrite Hs in Ha0. injection Ha0 as <-.
  exists taken, rest. split_and!.
  - done.
  - simpl. rewrite <- !list_fmap_compose. done.
  - lia.
  - intros init P1 P2 P3. specialize (Hmin init P1 P2 P3). lia.
  - simpl. unfold outs. by case_decide.
  - by apply GetHash_fields.
  - intros i Hi. unfold verify_transaction_signature.
    destruct (vin (set_tx_hash (set_script_sigs s tx0)) !! i) as [inp|] eqn:Ei;
      [|apply lookup_ge_None_1 in Ei; lia].
    simpl in Ei. apply list_lookup_fmap_Some in Ei as (inp0 & -> & Ei). simpl.
    rewrite <- Hev. f_equal. apply GetHash_fields; try done. simpl.
    rewrite <- !list_fmap_compose. apply list_fmap_ext. by intros.
Qed.

(** ** Theorems *)

(** C15.  A transaction that [CreateTransaction] returns spends the shortest
    prefix of the offered outputs that covers amount and fee, pays the recipient
    exactly the amount, returns the rest to the wallet unless it is dust, carries its
    own hash, and every input's script unlocks the wallet's outputs. *)
Theorem CreateTransaction_correct w available recipient amount fee tx :
  Wallet_ok w ->
  CreateTransaction w available recipient amount fee = Ok tx ->
  payment w available recipient amount fee tx.
Proof. apply CreateTransaction_payment. Qed.

(** With non-negative values and no overflow, [CreateTransaction]
    succeeds exactly when the outputs offered cover amount and fee, and otherwise
    throws [invalid_argument]. *)
Theorem CreateTransaction_total w available recipient amount fee :
  Wallet_ok w -> 0 <= amount -> 0 <= fee -> amount + fee < 2 ^ 63 ->
  Forall (fun e => 0 <= nValue (snd e)) available -> total_value available < 2 ^ 63 ->
  if decide (amount + fee <= total_value available)
  then exists tx, CreateTransaction w available recipient amount fee = Ok tx
  else CreateTransaction w available recipient amount fee = Throw invalid_argument.
Proof.
  intros Hw Ha Hf Ht Hv Htot. unfold CreateTransaction.
  destruct (select_utxos_total available amount fee [] 0) as [[sel tot] Hsel];
    [unfold in_i64; lia | lia | done | lia |].
  rewrite Hsel. cbn [mbind result_bind]. rewrite add_i64_in by (unfold in_i64; lia).
  cbn [mbind result_bind].
  destruct (select_utxos_Ok _ _ _ _ _ _ _ Hsel) as (taken & rest & -> & _ & -> & Hr & _).
  rewrite total_value_app in *. apply Forall_app in Hv as [Hv1 Hv2].
  pose proof (total_value_nonneg _ Hv1). pose proof (total_value_nonneg _ Hv2).
  case_decide as Hd.
  - rewrite decide_False.
    2: { destruct Hr as [->|[_ Hr]]; simpl in *; lia. }
    assert (amount + fee <= 0 + total_value taken) as Hle.
    { destruct Hr as [->|[_ Hr]]; simpl in *; lia. }
    rewrite sub_i64_in by (unfold in_i64; lia). cbn [mbind result_bind].
    rewrite sub_i64_in by (unfold in_i64; lia). cbn [mbind result_bind].
    edestruct (Sign_unlocks w) as (s & -> & _); [done|]. cbn [mbind result_bind]. by eexists.
  - by rewrite decide_True by lia.
Qed.

End WalletFacts.

(** ** A concrete wallet *)

Definition toy_seckey : bytes := replicate 32 7.
#[local] Existing Instance toy_hashes.

Definition toy_wallet : @Wallet toy_secp :=
  @mkWallet toy_secp toy_seckey toy_seckey (2 :: toy_seckey)
    (@ripemd160 toy_hashes (@sha256 toy_hashes (2 :: toy_seckey))).
Definition toy_utxos : list (COutPoint * CTxOut) :=
  [(mkCOutPoint (replicate 32 1) 0, mkCTxOut 3000 (build_p2pkh_script_pubkey (address_ toy_wallet)));
   (mkCOutPoint (replicate 32 2) 5, mkCTxOut 9000 (build_p2pkh_script_pubkey (address_ toy_wallet)))].

Lemma toy_wallet_ok : @Wallet_ok toy_hashes toy_secp toy_wallet.
Proof. split; [vm_compute; reflexivity | split; reflexivity]. Qed.

Lemma CreateTransaction_correct_witness :
  let create := @CreateTransaction toy_hashes toy_secp toy_wallet toy_utxos (replicate 20 9) 5000 1000 in
  exists tx, create = Ok tx /\
    @payment toy_hashes toy_secp toy_wallet toy_utxos (replicate 20 9) 5000 1000 tx.
Proof.
  intros create. assert (exists tx, create = Ok tx) as [tx E] by (eexists; vm_compute; reflexivity).
  exists tx. split; [exact E|].
  exact (@CreateTransaction_correct toy_hashes toy_hash_laws toy_secp toy_secp_laws
           toy_wallet toy_utxos (replicate 20 9) 5000 1000 tx toy_wallet_ok E).
Defined.

Lemma CreateTransaction_total_witness :
  exists tx, @CreateTransaction toy_hashes toy_secp toy_wallet toy_utxos (replicate 20 9) 5000 1000 = Ok tx.
Proof.
  refine (@CreateTransaction_total toy_hashes toy_hash_laws toy_secp toy_secp_laws
           toy_wallet toy_utxos (replicate 20 9) 5000 1000 toy_wallet_ok _ _ _ _ _);
    [lia | lia | lia | do 2 (constructor; [cbn; lia|]); constructor | vm_compute; reflexivity].
Defined.
