(* ===== verification/Chain.v ===== *)
(** network/node.h, consensus part: rewards, the UTXO set, transaction and chain
    validation, extension, fork resolution and block assembly. *)
From S2P Require Import Prelude.
From S2P Require Import Crypto.
From S2P Require Import Ecdsa.
From S2P Require Import Base58.
From S2P Require Import Script.
From S2P Require Import Serializer.
From S2P Require Import Transaction.
From S2P Require Import Block.
From S2P Require Import Pow.
From S2P Require Import Wallet.
From Stdlib Require Import Floats.SpecFloat.

Definition RETARGET_INTERVAL : Z := 5.
Definition TARGET_TIMESPAN_SECONDS : Z := 60.
Definition INITIAL_BITS : Z := 0x207fffff.
Definition MAX_MEMPOOL_SIZE : Z := 1000.
Definition INITIAL_REWARD : Z := 5000000000.
Definition HALVING_INTERVAL : Z := 10.
Definition DEFAULT_FEE : Z := 1000.

(** ** Rewards *)

Definition calculate_block_reward (height : Z) : Z :=
  let halvings := height / HALVING_INTERVAL in
  if decide (halvings >= 63) then 0 else Z.shiftr INITIAL_REWARD halvings.

(** ** The UTXO set *)

(** The outpoints a transaction creates, with their outputs. *)
Definition created (tx : Transaction) : list (COutPoint * CTxOut) :=
  imap (fun i out => (mkCOutPoint (tx_hash tx) (Z.of_nat i), out)) (vout tx).

(** [for (i ...) utxos.emplace(COutPoint(tx.tx_hash, i), tx.vout.at(i))]. *)
Definition emplace_outputs (utxos : UtxoSet) (tx : Transaction) : UtxoSet :=
  fold_left (fun utxos e => emplace utxos (fst e) (snd e)) (created tx) utxos.

(** [for (in : tx.vin) utxos.erase(in.prevout)]. *)
Definition erase_inputs (utxos : UtxoSet) (tx : Transaction) : UtxoSet :=
  fold_left (fun utxos i => delete (prevout i) utxos) (vin tx) utxos.

Definition build_utxo_set (chain : list CBlock) : UtxoSet :=
  let utxos := ∅ in
  let utxos := fold_left (fun utxos blk => fold_left emplace_outputs (vtx blk) utxos) chain utxos in
  fold_left (fun utxos blk => fold_left erase_inputs (vtx blk) utxos) chain utxos.

(** [filter_utxos_by_address]: the result is a map again, so the iteration order
    does not matter. *)
Definition owned_by (address : bytes) (e : COutPoint * CTxOut) : Prop :=
  extract_p2pkh_address (scriptPubKey (snd e)) = Some address.
#[export] Instance owned_by_dec address e : Decision (owned_by address e).
Proof. unfold owned_by. apply _. Defined.
Definition filter_utxos_by_address (utxos : UtxoSet) (address : bytes) : UtxoSet :=
  filter (owned_by address) utxos.

Definition extract_headers (chain : list CBlock) : list CBlockHeader :=
  fold_left (fun headers blk => headers ++ [block_header blk]) chain [].

Section Chain.
Context `{HashFns, Secp256k1}.

Definition build_coinbase_tx (reward_address : bytes) (height total_fees : Z) : result Transaction :=
  let script_sig := [u8 (Z.land height 0xFF); u8 (Z.land (Z.shiftr height 8) 0xFF);
                     u8 (Z.land (Z.shiftr height 16) 0xFF); u8 (Z.land (Z.shiftr height 24) 0xFF)] in
  let coinbase_in := mkCTxIn COutPoint_default script_sig 0xFFFFFFFF in
  reward ← add_i64 (calculate_block_reward height) total_fees;
  let tx := Transaction_make 1 [coinbase_in]
              [mkCTxOut reward (build_p2pkh_script_pubkey reward_address)] 0 in
  Ok (set_tx_hash tx).

(** ** Transactions *)

(** The first loop of [validate_and_get_fee], from input [i] on: [None] is the
    early [return -1]. *)
Fixpoint sum_inputs (tx : Transaction) (utxo_set : UtxoSet) (i : nat) (ins : list CTxIn)
    (input_total : Z) : result (option Z) :=
  match ins with
  | [] => Ok (Some input_total)
  | inp :: ins =>
      match utxo_set !! prevout inp with
      | None => Ok None
      | Some out =>
          ok ← verify_transaction_signature tx i (scriptPubKey out);
          if negb ok then Ok None
          else
            input_total ← add_i64 input_total (nValue out);
            sum_inputs tx utxo_set (S i) ins input_total
      end
  end.

(** [for (out : vout) total += out.nValue], with the signed overflow. *)
Definition sum_outputs (outs : list CTxOut) : result Z :=
  for_each (fun total out => add_i64 total (nValue out)) 0 outs.

Definition validate_and_get_fee (tx : Transaction) (utxo_set : UtxoSet) : result Z :=
  match vin tx with
  | [] => Ok (-1)
  | ins =>
      r ← sum_inputs tx utxo_set 0 ins 0;
      match r with
      | None => Ok (-1)
      | Some input_total =>
          output_total ← sum_outputs (vout tx);
          if decide (output_total > input_total) then Ok (-1)
          else sub_i64 input_total output_total
      end
  end.

(** ** Whole chains *)

(** The transactions of a block in [validate_full_chain]: the UTXO set is updated
    after each; [None] is [return false]. *)
Fixpoint validate_block_txs (txs : list Transaction) (utxo_set : UtxoSet) (block_fees : Z)
    : result (option (UtxoSet * Z)) :=
  match txs with
  | [] => Ok (Some (utxo_set, block_fees))
  | tx :: txs =>
      if IsCoinbase tx then validate_block_txs txs (emplace_outputs utxo_set tx) block_fees
      else
        fee ← validate_and_get_fee tx utxo_set;
        if decide (fee < 0) then Ok None
        else
          block_fees ← add_i64 block_fees fee;
          let utxo_set := erase_inputs utxo_set tx in
          validate_block_txs txs (emplace_outputs utxo_set tx) block_fees
  end.

Record validation := mkValidation {
  utxo_set : UtxoSet;
  headers_so_far : list CBlockHeader;
  expected_prev : bytes;
}.
Definition validation_start : validation := mkValidation ∅ [] (replicate 32 0).

(** [headers.empty() ? INITIAL_BITS : get_next_work_required(...)]. *)
Definition required_bits (headers : list CBlockHeader) : result Z :=
  match headers with
  | [] => Ok INITIAL_BITS
  | _ => get_next_work_required headers RETARGET_INTERVAL TARGET_TIMESPAN_SECONDS
  end.

(** The body of [validate_full_chain]'s loop for one block. *)
Definition validate_block (v : validation) (blk : CBlock) : result (option validation) :=
  if negb (IsMerkleRootValid blk) || negb (check_proof_of_work (block_header blk)) then Ok None
  else if decide (hashPrevBlock (block_header blk) <> expected_prev v) then Ok None
  else
    expected_bits ← required_bits (headers_so_far v);
    if decide (nBits (block_header blk) <> expected_bits) then Ok None
    else
      match vtx blk with
      | [] => Ok None
      | coinbase :: _ =>
          if negb (IsCoinbase coinbase) then Ok None
          else
            r ← validate_block_txs (vtx blk) (utxo_set v) 0;
            match r with
            | None => Ok None
            | Some (utxos, block_fees) =>
                coinbase_paid ← sum_outputs (vout coinbase);
                let height := u32 (size_of (headers_so_far v)) in
                expected ← add_i64 (calculate_block_reward height) block_fees;
                if decide (coinbase_paid <> expected) then Ok None
                else Ok (Some (mkValidation utxos (headers_so_far v ++ [block_header blk])
                                            (CBlock_GetHash blk)))
            end
      end.

Fixpoint validate_blocks (v : validation) (chain : list CBlock) : result (option validation) :=
  match chain with
  | [] => Ok (Some v)
  | blk :: chain =>
      r ← validate_block v blk;
      match r with
      | None => Ok None
      | Some v => validate_blocks v chain
      end
  end.

Definition validate_full_chain (chain : list CBlock) : result bool :=
  match chain with
  | [] => Ok false
  | _ => r ← validate_blocks validation_start chain;
         Ok (match r with None => false | Some _ => true end)
  end.

(** ** Extension and fork resolution *)

(** The transaction loop of [try_extend_chain] (and of [run_connector]): every
    transaction is checked against the same UTXO set; [None] is a failed check. *)
Fixpoint total_tx_fees (txs : list Transaction) (utxo_set : UtxoSet) (total_fees : Z)
    : result (option Z) :=
  match txs with
  | [] => Ok (Some total_fees)
  | tx :: txs =>
      if IsCoinbase tx then total_tx_fees txs utxo_set total_fees
      else
        fee ← validate_and_get_fee tx utxo_set;
        if decide (fee < 0) then Ok None
        else
          total_fees ← add_i64 total_fees fee;
          total_tx_fees txs utxo_set total_fees
  end.

(** The result and the chain after the call ([chain.back()] of an empty chain is
    undefined). *)
Definition try_extend_chain (chain : list CBlock) (received_block : CBlock)
    : result (bool * list CBlock) :=
  match last chain with
  | None => Ub
  | Some tip =>
      let my_tip_hash := CBlock_GetHash tip in
      expected_bits ← get_next_work_required (extract_headers chain) RETARGET_INTERVAL
                        TARGET_TIMESPAN_SECONDS;
      let expected_height := u32 (size_of chain) in
      let utxo_set := build_utxo_set chain in
      if negb (IsMerkleRootValid received_block)
         || negb (check_proof_of_work (block_header received_block)) then Ok (false, chain)
      else if decide (hashPrevBlock (block_header received_block) <> my_tip_hash
                      \/ nBits (block_header received_block) <> expected_bits) then Ok (false, chain)
      else
        r ← total_tx_fees (vtx received_block) utxo_set 0;
        match r with
        | None => Ok (false, chain)
        | Some total_fees =>
            match vtx received_block with
            | [] => Ok (false, chain)
            | coinbase :: _ =>
                if negb (IsCoinbase coinbase) then Ok (false, chain)
                else
                  coinbase_paid ← sum_outputs (vout coinbase);
                  expected ← add_i64 (calculate_block_reward expected_height) total_fees;
                  if decide (coinbase_paid <> expected) then Ok (false, chain)
                  else Ok (true, chain ++ [received_block])
            end
        end
  end.

Definition try_reorg (chain peer_chain : list CBlock) : result (bool * list CBlock) :=
  let same_genesis :=
    match peer_chain, chain with
    | p :: _, c :: _ => bool_decide (CBlock_GetHash p = CBlock_GetHash c)
    | _, _ => false
    end in
  if negb same_genesis then Ok (false, chain)
  else
    valid ← validate_full_chain peer_chain;
    if negb valid then Ok (false, chain)
    else
      let my_work := calculate_chain_work (extract_headers chain) in
      let peer_work := calculate_chain_work (extract_headers peer_chain) in
      if SFltb my_work peer_work then Ok (true, peer_chain) else Ok (false, chain).

(** ** Block assembly *)

(** [now] is what [std::time(nullptr)] returns. *)
Definition build_next_block (fuel : nat) (now : Z) (headers : list CBlockHeader) (prev_hash : bytes)
    (reward_address : bytes) (total_fees : Z) (extra_txs : list Transaction) : result CBlock :=
  let height := u32 (size_of headers) in
  next_bits ← required_bits headers;
  coinbase ← build_coinbase_tx reward_address height total_fees;
  let vtx := [coinbase] ++ extra_txs in
  let root := BuildMerkleRoot (mkCBlock (mkCBlockHeader 1 prev_hash [] (u32 now) 0 0) vtx) in
  header ← mine_block fuel (mkCBlockHeader 1 prev_hash root (u32 now) 0 0) next_bits;
  Ok (mkCBlock header vtx).

Definition build_genesis_chain (fuel : nat) (now : Z) (reward_address : bytes) : result (list CBlock) :=
  blk ← build_next_block fuel now [] (replicate 32 0) reward_address 0 [];
  Ok [blk].

(** The mempool loop of [run_listener] and [MiningLoop]: the transactions kept, in
    order, and their fees. *)
Fixpoint select_mempool (mempool : list Transaction) (utxo_set : UtxoSet)
    (extra_txs : list Transaction) (total_fees : Z) : result (list Transaction * Z) :=
  match mempool with
  | [] => Ok (extra_txs, total_fees)
  | tx :: mempool =>
      fee ← validate_and_get_fee tx utxo_set;
      if decide (fee >= 0) then
        total_fees ← add_i64 total_fees fee;
        let utxo_set := erase_inputs utxo_set tx in
        let utxo_set := emplace_outputs utxo_set tx in
        select_mempool mempool utxo_set (extra_txs ++ [tx]) total_fees
      else select_mempool mempool utxo_set extra_txs total_fees
  end.

End Chain.
