(* ===== verification/Validation.v ===== *)
(** What network/node.h's chain rules guarantee: the subsidy schedule, the meaning of
    [validate_full_chain], conservation of value, the UTXO set rebuilt from a chain,
    mined blocks, chain extension and fork choice. *)
From S2P Require Import Prelude.
From S2P Require Import Crypto.
From S2P Require Import Ecdsa.
From S2P Require Import Hashes.
From S2P Require Import Base58.
From S2P Require Import Script.
From S2P Require Import Serializer.
From S2P Require Import Transaction.
From S2P Require Import Block.
From S2P Require Import Pow.
From S2P Require Import Wallet.
From S2P Require Import Chain.
From Stdlib Require Import Floats.SpecFloat.

(** ** Rewards *)

Lemma reward_eq h : 0 <= h -> calculate_block_reward h = INITIAL_REWARD / 2 ^ (h / 10).
Proof.
  intros Hh. unfold calculate_block_reward, HALVING_INTERVAL.
  assert (0 <= h / 10) by (apply Z.div_pos; lia).
  case_decide as Hd; [|by rewrite Z.shiftr_div_pow2].
  symmetry. apply Z.div_small. unfold INITIAL_REWARD. split; [lia|].
  apply Z.lt_le_trans with (2 ^ 63); [done|]. apply Z.pow_le_mono_r; lia.
Qed.

Lemma reward_bounds h : 0 <= h -> 0 <= calculate_block_reward h <= INITIAL_REWARD.
Proof.
  intros Hh. rewrite reward_eq by done. assert (0 <= h / 10) by (apply Z.div_pos; lia).
  assert (0 < 2 ^ (h / 10)) by (apply Z.pow_pos_nonneg; lia). unfold INITIAL_REWARD.
  split; [apply Z.div_pos; lia|]. apply Z.div_le_upper_bound; nia.
Qed.

(** All rewards of the first [n] blocks. *)
Definition subsidy (n : nat) : Z :=
  fold_right (fun h acc => calculate_block_reward (Z.of_nat h) + acc) 0 (seq 0 n).

Lemma subsidy_S n : subsidy (S n) = subsidy n + calculate_block_reward (Z.of_nat n).
Proof.
  unfold subsidy. rewrite seq_S, fold_right_app. simpl (fold_right _ 0 [_]).
  set (r := calculate_block_reward (Z.of_nat (0 + n))).
  assert (forall l x, fold_right (fun h acc => calculate_block_reward (Z.of_nat h) + acc) x l
            = fold_right (fun h acc => calculate_block_reward (Z.of_nat h) + acc) 0 l + x) as Hx.
  { induction l as [|a l IH]; intros x; simpl; [lia|]. rewrite IH. lia. }
  rewrite Hx. unfold r. simpl. lia.
Qed.

Lemma reward_end h : 330 <= h -> calculate_block_reward h = 0.
Proof.
  intros Hh. rewrite reward_eq by lia. apply Z.div_small. unfold INITIAL_REWARD. split; [lia|].
  apply Z.lt_le_trans with (2 ^ 33); [done|]. apply Z.pow_le_mono_r; [lia|].
  apply Z.div_le_lower_bound; lia.
Qed.

Definition SUPPLY_CAP : Z := 99999999890.

Lemma subsidy_mono n m : (n <= m)%nat -> subsidy n <= subsidy m.
Proof.
  induction 1 as [|m Hm IH]; [done|]. rewrite subsidy_S.
  pose proof (reward_bounds (Z.of_nat m)). lia.
Qed.

Lemma subsidy_end k : subsidy (330 + k) = SUPPLY_CAP.
Proof.
  induction k as [|k IH]; [vm_compute; reflexivity|].
  replace (330 + S k)%nat with (S (330 + k)) by lia. rewrite subsidy_S, IH, reward_end by lia. lia.
Qed.

(** ** Sums of values *)

Definition values (outs : list CTxOut) : Z := fold_right (fun o acc => nValue o + acc) 0 outs.

Lemma sum_outputs_acc outs acc t :
  for_each (fun total out => add_i64 total (nValue out)) acc outs = Ok t -> t = acc + values outs.
Proof.
  revert acc. induction outs as [|o outs IH]; intros acc; cbn [for_each values fold_right].
  - intros [= <-]. lia.
  - intros Hb. inv_bind Hb. apply add_i64_Ok in Ha as [-> _]. apply IH in Hb. unfold values in *. lia.
Qed.
Lemma sum_outputs_Ok outs t : sum_outputs outs = Ok t -> t = values outs.
Proof. intros Ht. apply sum_outputs_acc in Ht. lia. Qed.

(** The sums of the first values, which the code forms in an [int64_t], are in its range. *)
Definition sums_fit (outs : list CTxOut) : Prop := forall k, in_i64 (values (take k outs)).
Definition fit_after (acc : Z) (outs : list CTxOut) : Prop := forall k, in_i64 (acc + values (take k outs)).

Lemma fit_after_zero outs : fit_after 0 outs <-> sums_fit outs.
Proof. done. Qed.
Lemma fit_after_cons acc o outs :
  in_i64 acc -> fit_after acc (o :: outs) <-> in_i64 (acc + nValue o) /\ fit_after (acc + nValue o) outs.
Proof.
  intros Ha. unfold fit_after. split.
  - intros Hf. split.
    + specialize (Hf 1%nat). unfold values in Hf. simpl in Hf. by rewrite Z.add_0_r in Hf.
    + intros k. specialize (Hf (S k)). unfold values in *. simpl in Hf. by rewrite Z.add_assoc in Hf.
  - intros [_ Hf] [|k]; unfold values in *; simpl; [by rewrite Z.add_0_r|]. rewrite Z.add_assoc. apply Hf.
Qed.
Lemma fit_after_end acc outs : fit_after acc outs -> in_i64 (acc + values outs).
Proof. intros Hf. specialize (Hf (length outs)). by rewrite firstn_all in Hf. Qed.

Lemma sum_outputs_iff_acc outs acc t :
  in_i64 acc ->
  for_each (fun total out => add_i64 total (nValue out)) acc outs = Ok t <->
  fit_after acc outs /\ t = acc + values outs.
Proof.
  revert acc. induction outs as [|o outs IH]; intros acc Ha; cbn [for_each].
  - unfold fit_after, values. simpl. split.
    + intros [= <-]. split; [|lia]. intros k. by rewrite take_nil, Z.add_0_r.
    + intros [_ ->]. by rewrite Z.add_0_r.
  - rewrite fit_after_cons by done. unfold values. simpl. split.
    + intros Hb. inv_bind Hb. apply add_i64_Ok in Ha0 as [-> Hr]. apply IH in Hb as [Hf ->]; [|done].
      split; [done|]. unfold values. lia.
    + intros [[Hr Hf] ->]. rewrite add_i64_in by done. cbn [mbind result_bind]. apply IH; [done|].
      split; [done|]. unfold values. lia.
Qed.
Lemma sum_outputs_iff outs t : sum_outputs outs = Ok t <-> sums_fit outs /\ t = values outs.
Proof. apply (sum_outputs_iff_acc outs 0 t). done. Qed.

(** The value of a UTXO set. *)
Definition total_utxo (m : UtxoSet) : Z := map_fold (fun _ o acc => nValue o + acc) 0 m.

Lemma total_utxo_empty : total_utxo ∅ = 0.
Proof. apply map_fold_empty. Qed.
Lemma total_utxo_insert m k o : m !! k = None -> total_utxo (<[k := o]> m) = nValue o + total_utxo m.
Proof. intros Hk. unfold total_utxo. rewrite map_fold_insert_L; [done | intros; lia | done]. Qed.
Lemma total_utxo_delete m k o : m !! k = Some o -> total_utxo (delete k m) = total_utxo m - nValue o.
Proof.
  intros Hk. rewrite <- (insert_delete_id m k o Hk) at 2.
  rewrite total_utxo_insert by apply lookup_delete_eq. lia.
Qed.

Lemma emplace_fresh (m : UtxoSet) k o : m !! k = None -> emplace m k o = <[k := o]> m.
Proof. unfold emplace. by intros ->. Qed.

(** The outpoints of a transaction's outputs are distinct. *)
Lemma created_keys tx : (created tx).*1 = (fun i => mkCOutPoint (tx_hash tx) (Z.of_nat i)) <$> seq 0 (length (vout tx)).
Proof.
  unfold created. rewrite fmap_imap. apply list_eq. intros i.
  rewrite list_lookup_imap, list_lookup_fmap. unfold compose.
  destruct (vout tx !! i) as [o|] eqn:E.
  - pose proof (lookup_lt_Some _ _ _ E). by rewrite lookup_seq_lt.
  - apply lookup_ge_None_1 in E. by rewrite lookup_seq_ge.
Qed.
Lemma created_values tx : values ((created tx).*2) = values (vout tx).
Proof.
  unfold created. rewrite fmap_imap. f_equal. apply list_eq. intros i.
  rewrite list_lookup_imap. unfold compose. by destruct (vout tx !! i).
Qed.
Lemma created_NoDup tx : NoDup (created tx).*1.
Proof.
  rewrite created_keys. apply NoDup_fmap_2; [|apply NoDup_seq].
  intros i j E. injection E as E. lia.
Qed.

Definition fresh (m : UtxoSet) (tx : Transaction) : Prop :=
  Forall (fun k => m !! k = None) (created tx).*1.

Lemma total_emplace_list (l : list (COutPoint * CTxOut)) (m : UtxoSet) :
  NoDup l.*1 -> Forall (fun k => m !! k = None) l.*1 ->
  total_utxo (fold_left (fun m e => emplace m (fst e) (snd e)) l m) = total_utxo m + values l.*2.
Proof.
  revert m. induction l as [|[k o] l IH]; intros m Hnd Hf; cbn [fold_left fmap list_fmap fst snd];
    [unfold values; simpl; lia|].
  apply NoDup_cons in Hnd as [Hk Hnd]. apply Forall_cons in Hf as [Hk0 Hf].
  rewrite emplace_fresh by done. rewrite IH.
  - rewrite total_utxo_insert by done. unfold values. simpl. lia.
  - done.
  - apply Forall_forall. intros k' Hk'. rewrite lookup_insert_ne by set_solver.
    by apply (proj1 (Forall_forall _ _) Hf).
Qed.

Lemma total_emplace m tx : fresh m tx -> total_utxo (emplace_outputs m tx) = total_utxo m + values (vout tx).
Proof.
  intros Hf. unfold emplace_outputs. rewrite total_emplace_list by (apply created_NoDup || done).
  by rewrite created_values.
Qed.

(** The outputs the inputs of a list refer to. *)
Fixpoint spent (m : UtxoSet) (ins : list CTxIn) : option (list CTxOut) :=
  match ins with
  | [] => Some []
  | i :: ins =>
      match m !! prevout i, spent m ins with
      | Some o, Some os => Some (o :: os)
      | _, _ => None
      end
  end.

Lemma spent_delete m k ins :
  k ∉ (prevout <$> ins) -> spent (delete k m) ins = spent m ins.
Proof.
  induction ins as [|i ins IH]; intros Hk; [done|]. cbn [spent fmap list_fmap] in *.
  rewrite lookup_delete_ne by set_solver. rewrite IH by set_solver. done.
Qed.

Lemma total_erase m tx os :
  NoDup (prevout <$> vin tx) -> spent m (vin tx) = Some os ->
  total_utxo (erase_inputs m tx) = total_utxo m - values os.
Proof.
  unfold erase_inputs. generalize (vin tx) as ins. intros ins. revert m os.
  induction ins as [|i ins IH]; intros m os Hnd Hs; cbn [fold_left spent] in *.
  - injection Hs as <-. unfold values. simpl. lia.
  - rewrite fmap_cons in Hnd. apply NoDup_cons in Hnd as [Hi Hnd].
    destruct (m !! prevout i) as [o|] eqn:Eo; [|done].
    destruct (spent m ins) as [os'|] eqn:Es; [|done]. injection Hs as <-.
    rewrite (IH _ os'); [|done | by rewrite spent_delete].
    rewrite (total_utxo_delete _ _ _ Eo). unfold values. simpl. lia.
Qed.

Section ChainFacts.
Context `{HashFns, Secp256k1}.

(** *** Transactions *)

Lemma sum_inputs_Ok tx m i ins acc t :
  sum_inputs tx m i ins acc = Ok (Some t) ->
  exists os, spent m ins = Some os /\ t = acc + values os /\
    forall j inp o, ins !! j = Some inp -> m !! prevout inp = Some o ->
      verify_transaction_signature tx (i + j) (scriptPubKey o) = Ok true.
Proof.
  revert i acc. induction ins as [|inp ins IH]; intros i acc; cbn [sum_inputs spent].
  - intros [= <-]. exists []. split_and!; [done | unfold values; simpl; lia | done].
  - destruct (m !! prevout inp) as [o|] eqn:Eo; [|done]. intros Hb. inv_bind Hb.
    destruct a; [|done]. cbn [negb] in Hb. inv_bind Hb. apply add_i64_Ok in Ha0 as [-> _].
    destruct (IH _ _ Hb) as (os & -> & -> & Hv). exists (o :: os).
    split_and!; [done | unfold values; simpl; lia |].
    intros [|j] inp' o' Hj Ho; cbn in Hj.
    + injection Hj as <-. rewrite Eo in Ho. injection Ho as <-. by rewrite Nat.add_0_r.
    + replace (i + S j)%nat with (S i + j)%nat by lia. by eapply Hv.
Qed.

(** What a transaction that [validate_and_get_fee] accepts satisfies. *)
Lemma validate_Ok tx m fee :
  validate_and_get_fee tx m = Ok fee -> 0 <= fee ->
  exists os, spent m (vin tx) = Some os /\ vin tx <> [] /\ fee = values os - values (vout tx) /\
    forall j inp o, vin tx !! j = Some inp -> m !! prevout inp = Some o ->
      verify_transaction_signature tx j (scriptPubKey o) = Ok true.
Proof.
  unfold validate_and_get_fee. destruct (vin tx) as [|inp ins] eqn:Ei.
  { intros [= <-]. lia. }
  intros Hb Hf. inv_bind Hb. destruct a as [t|]; [|injection Hb as <-; lia].
  inv_bind Hb. apply sum_outputs_Ok in Ha0 as ->. case_decide; [injection Hb as <-; lia|].
  apply sub_i64_Ok in Hb as [-> _]. destruct (sum_inputs_Ok _ _ _ _ _ _ Ha) as (os & Hs & -> & Hv).
  exists os. split_and!; [done | done | lia |]. intros j inp' o Hj Ho. exact (Hv j inp' o Hj Ho).
Qed.

(** *** The transaction rule

    [pays unspent tx fee]: every input names an output that is [unspent] and its script
    unlocks that output, and what the outputs of [tx] leave of the inputs' values is
    [fee], not negative.  All sums are those of an [int64_t]. *)
Definition pays (unspent : COutPoint -> CTxOut -> Prop) (tx : Transaction) (fee : Z) : Prop :=
  vin tx <> [] /\
  exists outs, Forall2 (fun i o => unspent (prevout i) o) (vin tx) outs /\
    (forall j o, outs !! j = Some o -> verify_transaction_signature tx j (scriptPubKey o) = Ok true) /\
    sums_fit outs /\ sums_fit (vout tx) /\
    fee = values outs - values (vout tx) /\ 0 <= fee /\ in_i64 fee.

#[global] Instance pays_proper :
  Proper (pointwise_relation _ (pointwise_relation _ iff) ==> eq ==> eq ==> iff) pays.
Proof.
  assert (forall U V tx fee, (forall k o, U k o <-> V k o) -> pays U tx fee -> pays V tx fee) as Himp.
  { intros U V tx fee E (Hne & outs & Hu & Hr). split; [done|]. exists outs. split; [|done].
    eapply Forall2_impl; [exact Hu|]. intros i o. apply E. }
  intros U V E tx ? <- fee ? <-. split; apply Himp; intros k o; [|symmetry]; apply E.
Qed.

(** The outputs in a map. *)
Definition held (m : UtxoSet) (k : COutPoint) (o : CTxOut) : Prop := m !! k = Some o.

Lemma sum_inputs_iff tx m i ins acc t :
  in_i64 acc ->
  sum_inputs tx m i ins acc = Ok (Some t) <->
  exists outs, Forall2 (fun inp o => held m (prevout inp) o) ins outs /\
    (forall j o, outs !! j = Some o -> verify_transaction_signature tx (i + j) (scriptPubKey o) = Ok true) /\
    fit_after acc outs /\ t = acc + values outs.
Proof.
  revert i acc. induction ins as [|inp ins IH]; intros i acc Ha; cbn [sum_inputs].
  - split.
    + intros [= <-]. exists []. split_and!; [constructor | done | | unfold values; simpl; lia].
      intros k. unfold values. rewrite take_nil. simpl. by rewrite Z.add_0_r.
    + intros (outs & Hu & _ & _ & ->). inversion Hu. unfold values. simpl. by rewrite Z.add_0_r.
  - split.
    + destruct (m !! prevout inp) as [o|] eqn:Eo; [|done]. intros Hb. inv_bind Hb.
      destruct a; [|done]. cbn [negb] in Hb. inv_bind Hb. apply add_i64_Ok in Ha1 as [-> Hr].
      apply IH in Hb as (outs & Hu & Hv & Hf & ->); [|done]. exists (o :: outs).
      split_and!; [by constructor | | by apply fit_after_cons | unfold values; simpl; lia].
      intros [|j] o' Hj; cbn in Hj; [injection Hj as <-; by rewrite Nat.add_0_r|].
      replace (i + S j)%nat with (S i + j)%nat by lia. by apply Hv.
    + intros (outs & Hu & Hv & Hf & ->). destruct outs as [|o outs]; [by inversion Hu|].
      apply Forall2_cons in Hu as [Ho Hu]. rewrite Ho. pose proof (Hv O o eq_refl) as Hv0.
      rewrite Nat.add_0_r in Hv0. rewrite Hv0. cbn [mbind result_bind negb].
      apply fit_after_cons in Hf as [Hr Hf]; [|done]. rewrite add_i64_in by done. cbn [mbind result_bind].
      apply IH; [done|]. exists outs. split_and!; [done | | done | unfold values; simpl; lia].
      intros j o' Hj. replace (S i + j)%nat with (i + S j)%nat by lia. by apply Hv.
Qed.

(** [validate_and_get_fee] is the transaction rule. *)
Lemma validate_iff tx m fee :
  validate_and_get_fee tx m = Ok fee /\ 0 <= fee <-> pays (held m) tx fee.
Proof.
  unfold validate_and_get_fee, pays. destruct (vin tx) as [|inp ins] eqn:Ei.
  { split; [intros [[= <-] ?]; lia | by intros [? _]]. }
  split.
  - intros [Hb Hf]. inv_bind Hb. destruct a as [t|]; [|injection Hb as <-; lia].
    apply sum_inputs_iff in Ha as (outs & Hu & Hv & Hs & ->); [|done].
    inv_bind Hb. apply sum_outputs_iff in Ha as [Hs' ->]. case_decide; [injection Hb as <-; lia|].
    apply sub_i64_Ok in Hb as [-> Hr]. split; [done|]. exists outs. by split_and!.
  - intros (_ & outs & Hu & Hv & Hs & Hs' & -> & Hf & Hr). split; [|done].
    rewrite (proj2 (sum_inputs_iff tx m 0 (inp :: ins) 0 (0 + values outs) ltac:(done))) by (by exists outs).
    cbn [mbind result_bind]. rewrite (proj2 (sum_outputs_iff (vout tx) (values (vout tx)))) by done.
    cbn [mbind result_bind]. rewrite decide_False by lia. rewrite Z.add_0_l. by apply sub_i64_in.
Qed.

(** *** Blocks *)

Definition apply_tx (m : UtxoSet) (tx : Transaction) : UtxoSet :=
  emplace_outputs (if IsCoinbase tx then m else erase_inputs m tx) tx.
Definition apply_block (m : UtxoSet) (blk : CBlock) : UtxoSet := fold_left apply_tx (vtx blk) m.

(** The fees of a block's transactions, as accepted one after the other. *)
Fixpoint txs_fees (m : UtxoSet) (txs : list Transaction) (fees : Z) : Prop :=
  match txs with
  | [] => fees = 0
  | tx :: txs =>
      exists fee rest, fees = fee + rest /\
        (if IsCoinbase tx then fee = 0 else pays (held m) tx fee) /\
        txs_fees (apply_tx m tx) txs rest
  end.

(** Every transaction against the same outputs. *)
Fixpoint all_pay (unspent : COutPoint -> CTxOut -> Prop) (txs : list Transaction) (fees : Z) : Prop :=
  match txs with
  | [] => fees = 0
  | tx :: txs =>
      exists fee rest, fees = fee + rest /\
        (if IsCoinbase tx then fee = 0 else pays unspent tx fee) /\ all_pay unspent txs rest
  end.

Lemma pays_nonneg U tx fee : pays U tx fee -> 0 <= fee.
Proof. by intros (_ & outs & _ & _ & _ & _ & _ & Hf & _). Qed.
Lemma part_nonneg U (tx : Transaction) (fee : Z) : (if IsCoinbase tx then fee = 0 else pays U tx fee) -> 0 <= fee.
Proof. destruct (IsCoinbase tx); [lia | apply pays_nonneg]. Qed.
Lemma txs_fees_nonneg m txs fees : txs_fees m txs fees -> 0 <= fees.
Proof.
  revert m fees. induction txs as [|tx txs IH]; intros m fees; cbn [txs_fees]; [lia|].
  intros (fee & rest & -> & Hp%part_nonneg & Hr%IH). lia.
Qed.
Lemma all_pay_nonneg U txs fees : all_pay U txs fees -> 0 <= fees.
Proof.
  revert fees. induction txs as [|tx txs IH]; intros fees; cbn [all_pay]; [lia|].
  intros (fee & rest & -> & Hp%part_nonneg & Hr%IH). lia.
Qed.
#[global] Instance all_pay_proper :
  Proper (pointwise_relation _ (pointwise_relation _ iff) ==> eq ==> eq ==> iff) all_pay.
Proof.
  intros U V E txs ? <- fees ? <-. revert fees. induction txs as [|tx txs IH]; intros fees; [done|].
  cbn [all_pay]. apply exist_proper. intros fee. apply exist_proper. intros rest. rewrite IH.
  destruct (IsCoinbase tx); [done|]. by rewrite (pays_proper U V E tx tx eq_refl fee fee eq_refl).
Qed.

(** The two loops over the transactions of a block. *)
Lemma validate_block_txs_iff txs m acc m' fees :
  0 <= acc -> in_i64 acc ->
  validate_block_txs txs m acc = Ok (Some (m', fees)) <->
  m' = fold_left apply_tx txs m /\ txs_fees m txs (fees - acc) /\ in_i64 fees.
Proof.
  revert m acc. induction txs as [|tx txs IH]; intros m acc Ha Hr; cbn [validate_block_txs fold_left txs_fees].
  - split; [intros [= <- <-]; split_and!; [done | lia | done]|]. intros (-> & E & _). do 3 f_equal. lia.
  - destruct (IsCoinbase tx) eqn:Ec.
    { rewrite IH by done. unfold apply_tx. rewrite Ec. split.
      - intros (-> & Hf & Hi). split_and!; [done | | done]. exists 0, (fees - acc). split_and!; [lia | done | done].
      - intros (-> & (fee & rest & E & -> & Hf) & Hi). split_and!; [done | | done].
        by replace (fees - acc) with rest by lia. }
    assert (apply_tx m tx = emplace_outputs (erase_inputs m tx) tx) as -> by (unfold apply_tx; by rewrite Ec). split.
    + intros Hb. inv_bind Hb. case_decide; [done|]. inv_bind Hb. apply add_i64_Ok in Ha1 as [-> Hr'].
      apply IH in Hb as (-> & Hf & Hi); [|lia | done]. split_and!; [done | | done].
      exists a, (fees - (acc + a)). split_and!; [lia | apply validate_iff; split; [done | lia] | done].
    + intros (-> & (fee & rest & E & Hp & Hf) & Hi). apply validate_iff in Hp as [Hv H0'].
      rewrite Hv. cbn [mbind result_bind]. rewrite decide_False by lia.
      pose proof (txs_fees_nonneg _ _ _ Hf). rewrite add_i64_in by (unfold in_i64 in *; lia). cbn [mbind result_bind].
      apply IH; [lia | unfold in_i64 in *; lia |]. split_and!; [done | | done].
      by replace (fees - (acc + fee)) with rest by lia.
Qed.

Lemma total_tx_fees_iff txs m acc fees :
  0 <= acc -> in_i64 acc ->
  total_tx_fees txs m acc = Ok (Some fees) <-> all_pay (held m) txs (fees - acc) /\ in_i64 fees.
Proof.
  revert acc. induction txs as [|tx txs IH]; intros acc Ha Hr; cbn [total_tx_fees all_pay].
  - split; [intros [= <-]; split; [lia | done]|]. intros (E & _). do 2 f_equal. lia.
  - destruct (IsCoinbase tx) eqn:Ec.
    { rewrite IH by done. split.
      - intros (Hf & Hi). split; [|done]. exists 0, (fees - acc). split_and!; [lia | done | done].
      - intros ((fee & rest & E & -> & Hf) & Hi). split; [|done]. by replace (fees - acc) with rest by lia. }
    split.
    + intros Hb. inv_bind Hb. case_decide; [done|]. inv_bind Hb. apply add_i64_Ok in Ha1 as [-> Hr'].
      apply IH in Hb as (Hf & Hi); [|lia | done]. split; [|done].
      exists a, (fees - (acc + a)). split_and!; [lia | apply validate_iff; split; [done | lia] | done].
    + intros ((fee & rest & E & Hp & Hf) & Hi). apply validate_iff in Hp as [Hv H0'].
      rewrite Hv. cbn [mbind result_bind]. rewrite decide_False by lia.
      pose proof (all_pay_nonneg _ _ _ Hf). rewrite add_i64_in by (unfold in_i64 in *; lia). cbn [mbind result_bind].
      apply IH; [lia | unfold in_i64 in *; lia |]. split; [|done].
      by replace (fees - (acc + fee)) with rest by lia.
Qed.

(** ** What a valid chain is

    [valid_chain chain utxos]: the rules the comment of [validate_full_chain] lists,
    one block after the other; [utxos] is the UTXO state after the last block. *)
Definition tip_hash (chain : list CBlock) : bytes :=
  match last chain with None => replicate 32 0 | Some tip => CBlock_GetHash tip end.

Record valid_block (chain : list CBlock) (utxos : UtxoSet) (blk : CBlock) : Prop := {
  vb_merkle : IsMerkleRootValid blk = true;
  vb_pow : check_proof_of_work (block_header blk) = true;
  vb_link : hashPrevBlock (block_header blk) = tip_hash chain;
  vb_bits : required_bits (block_header <$> chain) = Ok (nBits (block_header blk));
  vb_coinbase : exists coinbase rest fees,
    vtx blk = coinbase :: rest /\ IsCoinbase coinbase = true /\
    txs_fees utxos (vtx blk) fees /\ in_i64 fees /\ sums_fit (vout coinbase) /\
    values (vout coinbase) = calculate_block_reward (u32 (size_of chain)) + fees;
}.

Inductive valid_chain : list CBlock -> UtxoSet -> Prop :=
| valid_nil : valid_chain [] ∅
| valid_snoc chain utxos blk :
    valid_chain chain utxos -> valid_block chain utxos blk ->
    valid_chain (chain ++ [blk]) (apply_block utxos blk).

(** The state of the validation loop after a valid chain. *)
Definition state_of (chain : list CBlock) (utxos : UtxoSet) : validation :=
  mkValidation utxos (block_header <$> chain) (tip_hash chain).

Lemma tip_hash_snoc chain blk : tip_hash (chain ++ [blk]) = CBlock_GetHash blk.
Proof. unfold tip_hash. by rewrite last_snoc. Qed.

Lemma validate_block_iff chain utxos blk v' :
  validate_block (state_of chain utxos) blk = Ok (Some v') <->
  valid_block chain utxos blk /\ v' = state_of (chain ++ [blk]) (apply_block utxos blk).
Proof.
  unfold validate_block, state_of. cbn [expected_prev headers_so_far utxo_set].
  rewrite tip_hash_snoc, fmap_app.
  replace (size_of (block_header <$> chain)) with (size_of chain)
    by (unfold size_of; by rewrite length_fmap).
  split.
  - destruct (IsMerkleRootValid blk) eqn:E1, (check_proof_of_work (block_header blk)) eqn:E2; try done.
    cbn [negb orb]. case_decide as E3; [done|].
    intros Hb. inv_bind Hb. case_decide as E4; [done|]. subst a.
    destruct (vtx blk) as [|cb rest] eqn:E5; [done|].
    destruct (IsCoinbase cb) eqn:E6; [|done]. cbn [negb] in Hb.
    inv_bind Hb. destruct a as [[m fees]|]; [|done]. inv_bind Hb. inv_bind Hb.
    case_decide as E7; [done|]. subst a0. injection Hb as <-.
    apply validate_block_txs_iff in Ha0 as (Em & Hf & Hi); [|done..]. rewrite Z.sub_0_r in Hf.
    apply sum_outputs_iff in Ha1 as [Hs ->]. apply add_i64_Ok in Ha2 as [E8 _].
    split; [|unfold apply_block; by rewrite E5, <- Em].
    split; [done.. |]. exists cb, rest, fees. by rewrite E5.
  - intros [[E1 E2 E3 E4 (cb & rest & fees & E5 & E6 & E7 & Hi & Hs & E8)] ->].
    rewrite E1, E2. cbn [negb orb]. rewrite decide_False by (by intros Hn).
    rewrite E4. cbn [mbind result_bind]. rewrite decide_False by (by intros Hn).
    assert (validate_block_txs (vtx blk) utxos 0 = Ok (Some (apply_block utxos blk, fees))) as ->.
    { apply validate_block_txs_iff; [done..|]. by rewrite Z.sub_0_r. }
    rewrite E5, E6. cbn [negb mbind result_bind].
    rewrite (proj2 (sum_outputs_iff (vout cb) (values (vout cb)))) by done. cbn [mbind result_bind].
    pose proof (fit_after_end 0 _ Hs). rewrite add_i64_in by (by rewrite <- E8). cbn [mbind result_bind].
    rewrite decide_False by (rewrite E8; intros Hn; by apply Hn). done.
Qed.

Lemma valid_chain_nil_inv m : valid_chain [] m -> m = ∅.
Proof.
  intros Hm. remember [] as c eqn:E. destruct Hm as [|chain m blk]; [done|]. by destruct chain.
Qed.
Lemma valid_chain_snoc_inv chain blk m :
  valid_chain (chain ++ [blk]) m ->
  exists m', valid_chain chain m' /\ valid_block chain m' blk /\ m = apply_block m' blk.
Proof.
  intros Hm. remember (chain ++ [blk]) as c eqn:E. destruct Hm as [|chain' m' blk' Hc Hb].
  - by destruct chain.
  - apply app_inj_tail in E as [-> ->]. by exists m'.
Qed.

Lemma valid_chain_func chain m m' : valid_chain chain m -> valid_chain chain m' -> m = m'.
Proof.
  intros Hm. revert m'. induction Hm as [|chain m blk Hm IH Hb]; intros m' Hm'.
  - by apply valid_chain_nil_inv in Hm'.
  - apply valid_chain_snoc_inv in Hm' as (m'' & Hc & _ & ->). by rewrite (IH _ Hc).
Qed.

Lemma validate_blocks_iff pre m chain v' :
  validate_blocks (state_of pre m) chain = Ok (Some v') ->
  valid_chain pre m -> exists m', valid_chain (pre ++ chain) m' /\ v' = state_of (pre ++ chain) m'.
Proof.
  revert pre m. induction chain as [|blk chain IH]; intros pre m; cbn [validate_blocks].
  - intros [= <-] Hp. rewrite app_nil_r. by exists m.
  - intros Hb Hp. inv_bind Hb. destruct a as [v|]; [|done].
    apply validate_block_iff in Ha as [Hv ->].
    destruct (IH _ _ Hb (valid_snoc _ _ _ Hp Hv)) as (m' & Hm & ->).
    rewrite <- app_assoc in *. by exists m'.
Qed.

Lemma validate_blocks_app v c1 c2 :
  validate_blocks v (c1 ++ c2)
  = (r ← validate_blocks v c1; match r with None => Ok None | Some v => validate_blocks v c2 end).
Proof.
  revert v. induction c1 as [|b c1 IH]; intros v; [done|]. cbn [app validate_blocks].
  destruct (validate_block v b) as [[v'|]| | |]; cbn [mbind result_bind]; [apply IH | done..].
Qed.

Lemma valid_chain_blocks chain m :
  valid_chain chain m -> validate_blocks validation_start chain = Ok (Some (state_of chain m)).
Proof.
  induction 1 as [|chain m blk Hc IH Hb]; [done|].
  rewrite validate_blocks_app, IH. cbn [mbind result_bind validate_blocks].
  rewrite (proj2 (validate_block_iff chain m blk (state_of (chain ++ [blk]) (apply_block m blk)))); [|split; [done | reflexivity]]. done.
Qed.

Lemma validate_full_chain_valid chain :
  validate_full_chain chain = Ok true <-> chain <> [] /\ exists m, valid_chain chain m.
Proof.
  split.
  - unfold validate_full_chain. destruct chain as [|b chain]; [done|]. intros Hb. inv_bind Hb.
    destruct a as [v|]; [|done].
    destruct (validate_blocks_iff [] ∅ _ _ Ha valid_nil) as (m & Hm & _). split; [done|]. by exists m.
  - intros [Hne [m Hm]]. unfold validate_full_chain. rewrite (valid_chain_blocks _ _ Hm).
    by destruct chain.
Qed.

Lemma valid_chain_prefix c1 c2 m : valid_chain (c1 ++ c2) m -> exists m', valid_chain c1 m'.
Proof.
  revert m. induction c2 as [|b c2 IH] using rev_ind; intros m Hm.
  - rewrite app_nil_r in Hm. by exists m.
  - rewrite app_assoc in Hm. apply valid_chain_snoc_inv in Hm as (m' & Hm & _). by eapply IH.
Qed.

Lemma extract_headers_fmap chain : extract_headers chain = block_header <$> chain.
Proof.
  unfold extract_headers.
  assert (forall acc, fold_left (fun headers blk => headers ++ [block_header blk]) chain acc
            = acc ++ (block_header <$> chain)) as Hacc.
  { induction chain as [|b chain IH]; intros acc; cbn [fold_left]; [by rewrite app_nil_r|].
    rewrite IH, <- app_assoc. done. }
  apply Hacc.
Qed.

(** *** Conservation of value *)

(** What validation does not check: distinct inputs, outpoints not already in the
    set, and no coinbase but the first transaction. *)
Fixpoint plain_txs (m : UtxoSet) (txs : list Transaction) : Prop :=
  match txs with
  | [] => True
  | tx :: txs =>
      NoDup (prevout <$> vin tx) /\
      fresh (if IsCoinbase tx then m else erase_inputs m tx) tx /\
      plain_txs (apply_tx m tx) txs
  end.
Definition plain_block (m : UtxoSet) (blk : CBlock) : Prop :=
  plain_txs m (vtx blk) /\
  match vtx blk with [] => True | _ :: rest => Forall (fun tx => IsCoinbase tx = false) rest end.
Fixpoint plain_blocks (m : UtxoSet) (chain : list CBlock) : Prop :=
  match chain with
  | [] => True
  | blk :: chain => plain_block m blk /\ plain_blocks (apply_block m blk) chain
  end.

(** The UTXO state after a chain, transaction by transaction. *)
Definition chain_utxos (chain : list CBlock) : UtxoSet := fold_left apply_block chain ∅.

#[global] Instance fresh_dec m tx : Decision (fresh m tx).
Proof. unfold fresh. apply _. Defined.
#[global] Instance plain_txs_dec m txs : Decision (plain_txs m txs).
Proof. revert m. induction txs as [|tx txs IH]; intros m; cbn [plain_txs]; apply _. Defined.
#[global] Instance plain_block_dec m blk : Decision (plain_block m blk).
Proof. unfold plain_block. destruct (vtx blk); apply _. Defined.
#[global] Instance plain_blocks_dec m chain : Decision (plain_blocks m chain).
Proof. revert m. induction chain as [|b c IH]; intros m; cbn [plain_blocks]; apply _. Defined.

Lemma valid_chain_utxos chain m : valid_chain chain m -> m = chain_utxos chain.
Proof.
  induction 1 as [|chain m blk Hc IH Hb]; [done|].
  unfold chain_utxos in *. rewrite fold_left_app. cbn [fold_left]. by rewrite <- IH.
Qed.

Lemma validated_utxos chain :
  validate_full_chain chain = Ok true -> chain <> [] /\ valid_chain chain (chain_utxos chain).
Proof.
  intros Hv. apply validate_full_chain_valid in Hv as [Hne [m Hm]]. split; [done|].
  by rewrite <- (valid_chain_utxos _ _ Hm).
Qed.

Lemma plain_blocks_snoc m chain blk :
  plain_blocks m (chain ++ [blk]) <-> plain_blocks m chain /\ plain_block (fold_left apply_block chain m) blk.
Proof.
  revert m. induction chain as [|b c IH]; intros m; cbn [app plain_blocks fold_left]; [tauto|].
  rewrite IH. tauto.
Qed.

Lemma apply_tx_total m tx fee :
  NoDup (prevout <$> vin tx) -> fresh (erase_inputs m tx) tx -> IsCoinbase tx = false ->
  validate_and_get_fee tx m = Ok fee -> 0 <= fee ->
  total_utxo (apply_tx m tx) = total_utxo m - fee.
Proof.
  intros Hnd Hf Hc Hv H0'. unfold apply_tx. rewrite Hc, total_emplace by done.
  destruct (validate_Ok _ _ _ Hv H0') as (os & Hs & _ & -> & _).
  rewrite (total_erase _ _ _ Hnd Hs). lia.
Qed.

Lemma txs_total m txs fees :
  plain_txs m txs -> Forall (fun tx => IsCoinbase tx = false) txs -> txs_fees m txs fees ->
  total_utxo (fold_left apply_tx txs m) = total_utxo m - fees.
Proof.
  revert m fees. induction txs as [|tx txs IH]; intros m fees; cbn [plain_txs txs_fees fold_left].
  - intros _ _ ->. lia.
  - intros (Hnd & Hf & Hp) Hc (fee & rest & -> & Hv & Hr). apply Forall_cons in Hc as [Hc1 Hc].
    rewrite Hc1 in *. apply validate_iff in Hv as [Hv H0']. rewrite (IH _ rest) by done. rewrite (apply_tx_total m tx fee) by done. lia.
Qed.

Lemma block_total chain m blk :
  valid_block chain m blk -> plain_block m blk -> size_of chain < 2 ^ 32 ->
  total_utxo (apply_block m blk) = total_utxo m + calculate_block_reward (size_of chain).
Proof.
  intros [_ _ _ _ (cb & rest & fees & Ev & Ec & Hf & _ & _ & Es)] [Hp Hr] Hsz. rewrite Ev in *.
  cbn [plain_txs txs_fees] in Hp, Hf. destruct Hp as (_ & Hfresh & Hp).
  destruct Hf as (fee & rfees & -> & Hfee & Hf). rewrite Ec in *. subst fee.
  unfold apply_block. rewrite Ev. cbn [fold_left]. rewrite (txs_total _ _ rfees) by done.
  unfold apply_tx at 1. rewrite Ec, total_emplace by done.
  rewrite Es, u32_id; [lia|]. unfold in_u32. pose proof (size_of_nonneg chain). lia.
Qed.

Lemma chain_total chain m :
  valid_chain chain m -> plain_blocks ∅ chain -> size_of chain < 2 ^ 32 ->
  total_utxo m = subsidy (length chain).
Proof.
  induction 1 as [|chain m blk Hc IH Hb]; intros Hp Hsz; [apply total_utxo_empty|].
  rewrite size_of_app in Hsz. pose proof (size_of_nonneg [blk]).
  apply plain_blocks_snoc in Hp as [Hp Hpb]. fold (chain_utxos chain) in Hpb.
  rewrite <- (valid_chain_utxos _ _ Hc) in Hpb.
  rewrite (block_total chain m blk), IH by (done || lia).
  by rewrite length_app, Nat.add_1_r, subsidy_S.
Qed.

(** *** [build_utxo_set] and the incremental state *)

Definition chain_txs (chain : list CBlock) : list Transaction := concat (vtx <$> chain).
Definition all_created (txs : list Transaction) : list COutPoint :=
  concat ((fun tx => (created tx).*1) <$> txs).

Lemma fold_blocks {S} (f : S -> Transaction -> S) chain s :
  fold_left (fun s blk => fold_left f (vtx blk) s) chain s = fold_left f (chain_txs chain) s.
Proof.
  revert s. induction chain as [|b chain IH]; intros s; [done|].
  cbn [fold_left]. rewrite IH. unfold chain_txs. rewrite fmap_cons. cbn [concat].
  by rewrite fold_left_app.
Qed.

Lemma chain_txs_snoc chain blk : chain_txs (chain ++ [blk]) = chain_txs chain ++ vtx blk.
Proof. unfold chain_txs. rewrite fmap_app, concat_app. simpl. by rewrite app_nil_r. Qed.
Lemma all_created_snoc txs tx : all_created (txs ++ [tx]) = all_created txs ++ (created tx).*1.
Proof. unfold all_created. rewrite fmap_app, concat_app. simpl. by rewrite app_nil_r. Qed.

(** An output that a transaction of the chain creates, the first with this outpoint, and
    that no transaction of the chain names as an input. *)
Definition creates (tx : Transaction) (k : COutPoint) (o : CTxOut) : Prop :=
  txid k = tx_hash tx /\ exists i, out_n k = Z.of_nat i /\ vout tx !! i = Some o.
Definition first_created (txs : list Transaction) (k : COutPoint) (o : CTxOut) : Prop :=
  exists before tx after, txs = before ++ tx :: after /\ creates tx k o /\
    forall t o', t ∈ before -> ~ creates t k o'.
Definition unspent (chain : list CBlock) (k : COutPoint) (o : CTxOut) : Prop :=
  first_created (chain_txs chain) k o /\
  forall tx i, tx ∈ chain_txs chain -> i ∈ vin tx -> prevout i <> k.

Lemma created_creates tx k o : (k, o) ∈ created tx <-> creates tx k o.
Proof.
  unfold created, creates. rewrite list_elem_of_lookup. setoid_rewrite list_lookup_imap_Some.
  destruct k as [h n]. cbn [txid out_n]. split.
  - intros (i & o' & Ho & [= -> -> ->]). eauto.
  - intros (-> & i & -> & Ho). eauto.
Qed.
Lemma first_created_cons tx txs k o :
  first_created (tx :: txs) k o <->
  creates tx k o \/ (forall o', ~ creates tx k o') /\ first_created txs k o.
Proof.
  split.
  - intros ([|t before] & tx' & after & E & Hc & Hb).
    + injection E as -> ->. by left.
    + injection E as -> ->. right. split; [intros o'; apply Hb; set_solver|].
      exists before, tx', after. split_and!; [done | done|]. intros t' o' Ht. apply Hb. set_solver.
  - intros [Hc|(Hn & before & tx' & after & -> & Hc & Hb)].
    + exists [], tx, txs. split_and!; [done | done | set_solver].
    + exists (tx :: before), tx', after. split_and!; [done | done|].
      intros t o' [->|Ht]%elem_of_cons; [apply Hn | by apply Hb].
Qed.

Lemma lookup_emplace_list (l : list (COutPoint * CTxOut)) (m : UtxoSet) k o :
  NoDup l.*1 ->
  fold_left (fun m e => emplace m (fst e) (snd e)) l m !! k = Some o <->
  m !! k = Some o \/ m !! k = None /\ (k, o) ∈ l.
Proof.
  revert m. induction l as [|[k' o'] l IH]; intros m Hn; cbn [fold_left fst snd].
  - split; [auto | intros [?|[_ ?%not_elem_of_nil]]; done].
  - rewrite fmap_cons in Hn. apply NoDup_cons in Hn as [Hk Hn]. rewrite IH, elem_of_cons by done.
    assert (forall x, (k', x) ∉ l) as Hk' by (intros x Hx; apply Hk; apply list_elem_of_fmap; by exists (k', x)).
    unfold emplace. destruct (m !! k') as [old|] eqn:E.
    + split; [tauto|]. intros [?|[Hm [[= -> ->]|?]]]; [by left | congruence | by right].
    + destruct (decide (k = k')) as [->|Hne].
      * rewrite lookup_insert_eq, E. split; [intros [[= ->]|[? _]]; [by auto | done]|].
        intros [?|[_ [[= ->]|Hx]]]; [done | by left | by destruct (Hk' o)].
      * rewrite lookup_insert_ne by done. split; [tauto|].
        intros [?|[Hm [[= -> ->]|?]]]; [by left | done | by right].
Qed.
Lemma lookup_emplace_txs txs (m : UtxoSet) k o :
  fold_left emplace_outputs txs m !! k = Some o <->
  m !! k = Some o \/ m !! k = None /\ first_created txs k o.
Proof.
  revert m. induction txs as [|tx txs IH]; intros m; cbn [fold_left].
  - split; [auto | intros [?|[_ ([|] & ? & ? & ? & _)]]; done].
  - assert (forall o', emplace_outputs m tx !! k = Some o' <-> m !! k = Some o' \/ m !! k = None /\ creates tx k o') as He.
    { intros o'. rewrite <- created_creates. apply lookup_emplace_list, created_NoDup. }
    rewrite IH, first_created_cons, He. destruct (m !! k) as [old|] eqn:Em.
    + assert (emplace_outputs m tx !! k = Some old) as -> by (apply He; by left).
      split; [intros [[?|[? _]]|[? _]]; by auto | intros [?|[? _]]; by auto].
    + split.
      * intros [[?|[_ ?]]|[Hnone Hf]]; [done | by auto|]. right. split; [done|]. right. split; [|done].
        intros o' Hc. rewrite (proj2 (He o')) in Hnone; [done | by right].
      * intros [?|[_ [Hc|[Hnc Hf]]]]; [done | by auto|]. right. split; [|done].
        destruct (emplace_outputs m tx !! k) as [o'|] eqn:E; [|done].
        destruct (proj1 (He o') eq_refl) as [?|[_ Hc]]; [done | by destruct (Hnc o')].
Qed.

Lemma lookup_erase (m : UtxoSet) tx k o :
  erase_inputs m tx !! k = Some o <-> m !! k = Some o /\ forall i, i ∈ vin tx -> prevout i <> k.
Proof.
  unfold erase_inputs. revert m. induction (vin tx) as [|i ins IH]; intros m; cbn [fold_left]; [set_solver|].
  rewrite IH. destruct (decide (prevout i = k)) as [<-|Hne].
  - rewrite lookup_delete_eq. split; [by intros [? _]|]. intros [_ Hi]. by destruct (Hi i ltac:(set_solver)).
  - rewrite lookup_delete_ne by done. split; intros [? Hi]; (split; [done|]); intros i' Hi'; [|apply Hi; set_solver].
    apply elem_of_cons in Hi' as [->|Hi']; [done | by apply Hi].
Qed.
Lemma lookup_erase_txs txs (m : UtxoSet) k o :
  fold_left erase_inputs txs m !! k = Some o <->
  m !! k = Some o /\ forall tx i, tx ∈ txs -> i ∈ vin tx -> prevout i <> k.
Proof.
  revert m. induction txs as [|tx txs IH]; intros m; cbn [fold_left]; [set_solver|].
  rewrite IH, lookup_erase. split.
  - intros [[Hm Hi] Hr]. split; [done|]. intros t i [->|Ht]%elem_of_cons; [apply Hi | by apply Hr].
  - intros [Hm Hr]. split; [split; [done|]|]; intros; eapply Hr; set_solver.
Qed.

(** What the two passes of [build_utxo_set] compute, for any chain. *)
Lemma build_utxo_set_unspent chain k o : build_utxo_set chain !! k = Some o <-> unspent chain k o.
Proof.
  unfold build_utxo_set. rewrite !fold_blocks, lookup_erase_txs, lookup_emplace_txs, lookup_empty.
  unfold unspent. split; [intros [[?|[_ ?]] ?]; done | intros [? ?]; by auto].
Qed.

Lemma delete_emplace (m : UtxoSet) j k o :
  j <> k -> delete j (emplace m k o) = emplace (delete j m) k o.
Proof.
  intros Hjk. unfold emplace. rewrite lookup_delete_ne by done.
  destruct (m !! k); [done|]. by rewrite delete_insert_ne.
Qed.

Lemma erase_emplace m tx tx' :
  (forall i, i ∈ vin tx -> prevout i ∉ (created tx').*1) ->
  erase_inputs (emplace_outputs m tx') tx = emplace_outputs (erase_inputs m tx) tx'.
Proof.
  unfold erase_inputs, emplace_outputs. generalize (created tx') as l. intros l. revert m.
  induction (vin tx) as [|i ins IH]; intros m Hl; [done|]. cbn [fold_left].
  rewrite <- IH by set_solver. f_equal.
  assert (prevout i ∉ l.*1) as Hi by (apply Hl; set_solver). clear IH Hl.
  revert m. induction l as [|[k o] l IHl]; intros m; [done|]. cbn [fold_left fst snd].
  rewrite fmap_cons in Hi. rewrite IHl by set_solver. rewrite delete_emplace by set_solver. done.
Qed.

Lemma erase_list_emplace m txs tx' :
  (forall tx i, tx ∈ txs -> i ∈ vin tx -> prevout i ∉ (created tx').*1) ->
  fold_left erase_inputs txs (emplace_outputs m tx')
  = emplace_outputs (fold_left erase_inputs txs m) tx'.
Proof.
  revert m. induction txs as [|tx txs IH]; intros m Hl; [done|]. cbn [fold_left].
  rewrite erase_emplace by set_solver. apply IH. set_solver.
Qed.

Lemma emplace_keys (m : UtxoSet) l k :
  is_Some (fold_left (fun m e => emplace m (fst e) (snd e)) l m !! k) ->
  is_Some (m !! k) \/ k ∈ (l : list (COutPoint * CTxOut)).*1.
Proof.
  revert m. induction l as [|[k' o] l IH]; intros m Hk; cbn [fold_left fst snd] in Hk; [by left|].
  rewrite fmap_cons. destruct (IH _ Hk) as [Hm|Hm]; [|set_solver].
  unfold emplace in Hm. destruct (m !! k'); [by left|].
  destruct (decide (k = k')) as [->|Hne]; [set_solver|].
  rewrite lookup_insert_ne in Hm by done. by left.
Qed.

Lemma erase_keys (m : UtxoSet) tx k : is_Some (erase_inputs m tx !! k) -> is_Some (m !! k).
Proof.
  unfold erase_inputs. revert m. induction (vin tx) as [|i ins IH]; intros m Hk; [done|].
  cbn [fold_left] in Hk. apply IH in Hk. destruct (decide (prevout i = k)) as [<-|Hne].
  - rewrite lookup_delete_eq in Hk. by destruct Hk.
  - by rewrite lookup_delete_ne in Hk.
Qed.

Lemma apply_keys txs k : is_Some (fold_left apply_tx txs ∅ !! k) -> k ∈ all_created txs.
Proof.
  induction txs as [|tx txs IH] using rev_ind; [by intros [? ?]|].
  rewrite fold_left_app, all_created_snoc. cbn [fold_left]. unfold apply_tx, emplace_outputs.
  intros Hk. apply elem_of_app. apply emplace_keys in Hk as [Hk|Hk]; [left | by right].
  apply IH. destruct (IsCoinbase tx); [done | by apply erase_keys in Hk].
Qed.

(** Every input of a transaction that is not a coinbase was present when it was
    applied. *)
Fixpoint inputs_present (m : UtxoSet) (txs : list Transaction) : Prop :=
  match txs with
  | [] => True
  | tx :: txs =>
      (IsCoinbase tx = false -> forall i, i ∈ vin tx -> is_Some (m !! prevout i)) /\
      inputs_present (apply_tx m tx) txs
  end.

Lemma inputs_present_app m txs txs' :
  inputs_present m (txs ++ txs') <->
  inputs_present m txs /\ inputs_present (fold_left apply_tx txs m) txs'.
Proof.
  revert m. induction txs as [|tx txs IH]; intros m; cbn [app inputs_present fold_left]; [tauto|].
  rewrite IH. tauto.
Qed.

Lemma spent_present m ins os i : spent m ins = Some os -> i ∈ ins -> is_Some (m !! prevout i).
Proof.
  revert os. induction ins as [|i' ins IH]; intros os Hs Hi; [set_solver|]. cbn [spent] in Hs.
  destruct (m !! prevout i') eqn:E; [|done]. destruct (spent m ins) eqn:E'; [|done].
  apply elem_of_cons in Hi as [->|Hi]; [by eexists | by eapply IH].
Qed.

Lemma txs_fees_present m txs fees : txs_fees m txs fees -> inputs_present m txs.
Proof.
  revert m fees. induction txs as [|tx txs IH]; intros m fees; [done|].
  cbn [txs_fees inputs_present]. intros (fee & rest & _ & Hv & Hr). split; [|by eapply IH].
  intros Hc i Hi. rewrite Hc in Hv. apply validate_iff in Hv as [Hv Hf].
  destruct (validate_Ok _ _ _ Hv Hf) as (os & Hs & _). by eapply spent_present.
Qed.

Lemma valid_chain_txs chain m :
  valid_chain chain m ->
  m = fold_left apply_tx (chain_txs chain) ∅ /\ inputs_present ∅ (chain_txs chain).
Proof.
  induction 1 as [|chain m blk Hc [IH1 IH2] Hb]; [done|].
  rewrite chain_txs_snoc, fold_left_app, inputs_present_app, <- IH1.
  split; [done|]. split; [done|].
  destruct Hb as [_ _ _ _ (cb & rest & fees & _ & _ & Hf & _)]. by eapply txs_fees_present.
Qed.

Lemma incremental_eq txs :
  NoDup (all_created txs) -> inputs_present ∅ txs ->
  (forall tx i, tx ∈ txs -> IsCoinbase tx = true -> i ∈ vin tx -> prevout i ∉ all_created txs) ->
  fold_left apply_tx txs ∅ = fold_left erase_inputs txs (fold_left emplace_outputs txs ∅)
  /\ (forall tx i, tx ∈ txs -> IsCoinbase tx = false -> i ∈ vin tx -> prevout i ∈ all_created txs).
Proof.
  induction txs as [|tx txs IH] using rev_ind; [split; [done | set_solver]|].
  rewrite all_created_snoc, NoDup_app. intros (Hn1 & Hn2 & Hn3) Hp Hcb.
  apply inputs_present_app in Hp as [Hp1 [Hp2 _]].
  destruct IH as [IH1 IH2]; [done | done | |].
  { intros tx' i Ht Hc Hi Hin. apply (Hcb tx' i); set_solver. }
  split.
  2: { intros tx' i Ht Hc Hi. apply elem_of_app in Ht as [Ht|Ht].
       - apply elem_of_app. left. by eapply IH2.
       - apply list_elem_of_singleton in Ht as ->. apply elem_of_app. left.
         by apply apply_keys, Hp2. }
  rewrite !fold_left_app. cbn [fold_left]. unfold apply_tx at 1. rewrite IH1.
  rewrite erase_list_emplace.
  2: { intros tx' i Ht Hi Hin. destruct (IsCoinbase tx') eqn:Hc.
       - apply (Hcb tx' i); [set_solver | done | done |]. apply elem_of_app. by right.
       - eapply Hn2; [by eapply IH2 | done]. }
  set (B := fold_left erase_inputs txs _) in *.
  rewrite erase_emplace.
  2: { intros i Hi Hin. destruct (IsCoinbase tx) eqn:Hc.
       - apply (Hcb tx i); [set_solver | done | done |]. apply elem_of_app. by right.
       - eapply Hn2; [|done]. by apply apply_keys, Hp2. }
  destruct (IsCoinbase tx) eqn:Hc; [|done]. f_equal.
  (* a coinbase's inputs are not in the set *)
  assert (forall i, i ∈ vin tx -> B !! prevout i = None) as Hnone.
  { intros i Hi. destruct (B !! prevout i) eqn:E; [|done]. exfalso.
    apply (Hcb tx i); [set_solver | done | done |]. apply elem_of_app. left.
    apply apply_keys. rewrite IH1. by eexists. }
  clear -Hnone. unfold erase_inputs. induction (vin tx) as [|i ins IH]; [done|].
  cbn [fold_left]. rewrite delete_id by (apply Hnone; set_solver). apply IH. set_solver.
Qed.

Lemma build_utxo_set_valid chain m :
  valid_chain chain m -> NoDup (all_created (chain_txs chain)) ->
  (forall tx i, tx ∈ chain_txs chain -> IsCoinbase tx = true -> i ∈ vin tx ->
     prevout i ∉ all_created (chain_txs chain)) ->
  build_utxo_set chain = m.
Proof.
  intros Hv Hn Hc. destruct (valid_chain_txs chain m Hv) as [-> Hp].
  unfold build_utxo_set. rewrite !fold_blocks. symmetry. by apply incremental_eq.
Qed.

(** *** Blocks this node mines *)

(** A mempool selection: every transaction valid after the ones before it. *)
Fixpoint accepted (m : UtxoSet) (txs : list Transaction) (acc fees : Z) : Prop :=
  match txs with
  | [] => fees = acc
  | tx :: txs =>
      exists fee acc', validate_and_get_fee tx m = Ok fee /\ 0 <= fee /\
        add_i64 acc fee = Ok acc' /\
        accepted (emplace_outputs (erase_inputs m tx) tx) txs acc' fees
  end.

Lemma select_mempool_accepted mempool m sel acc txs fees :
  select_mempool mempool m sel acc = Ok (txs, fees) ->
  exists new, txs = sel ++ new /\ accepted m new acc fees /\ (forall tx, tx ∈ new -> tx ∈ mempool).
Proof.
  revert m sel acc. induction mempool as [|tx mempool IH]; intros m sel acc; cbn [select_mempool].
  - intros [= <- <-]. exists []. rewrite app_nil_r. split_and!; [done | done | set_solver].
  - intros Hb. inv_bind Hb. case_decide as Hf.
    + inv_bind Hb. destruct (IH _ _ _ Hb) as (new & -> & Hacc & Hin). exists (tx :: new).
      rewrite <- app_assoc. split; [done|]. split; [|set_solver].
      exists a, a0. split_and!; [done | lia | done | done].
    + destruct (IH _ _ _ Hb) as (new & -> & Hacc & Hin). exists new. split_and!; [done | done | set_solver].
Qed.

(** Two sets that agree except at one outpoint, absent from the first. *)
Definition agree_but (cb : COutPoint) (m m' : UtxoSet) : Prop :=
  m !! cb = None /\ forall k, k <> cb -> m !! k = m' !! k.

Lemma agree_erase cb m m' tx :
  agree_but cb m m' -> agree_but cb (erase_inputs m tx) (erase_inputs m' tx).
Proof.
  unfold erase_inputs. revert m m'. induction (vin tx) as [|i ins IH]; intros m m' [H1 H2]; [done|].
  cbn [fold_left]. apply IH. split.
  - destruct (decide (prevout i = cb)) as [<-|Hne];
      [apply lookup_delete_eq | by rewrite lookup_delete_ne].
  - intros k Hk. destruct (decide (prevout i = k)) as [<-|Hne];
      [by rewrite !lookup_delete_eq | rewrite !lookup_delete_ne by done; by apply H2].
Qed.

Lemma agree_emplace cb m m' k o :
  k <> cb -> agree_but cb m m' -> agree_but cb (emplace m k o) (emplace m' k o).
Proof.
  intros Hk [H1 H2]. unfold emplace. rewrite <- (H2 k Hk). destruct (m !! k); [done|]. split.
  - by rewrite lookup_insert_ne.
  - intros k' Hk'. destruct (decide (k = k')) as [<-|Hne];
      [by rewrite !lookup_insert_eq | rewrite !lookup_insert_ne by done; by apply H2].
Qed.

Lemma agree_emplace_outputs cb m m' tx :
  cb ∉ (created tx).*1 -> agree_but cb m m' ->
  agree_but cb (emplace_outputs m tx) (emplace_outputs m' tx).
Proof.
  unfold emplace_outputs. revert m m'. induction (created tx) as [|[k o] l IH]; intros m m' Hl Ha; [done|].
  rewrite fmap_cons in Hl. cbn [fold_left fst snd] in *. apply IH; [set_solver|].
  apply agree_emplace; [set_solver | done].
Qed.

Lemma agree_sum cb m m' tx i ins acc t :
  agree_but cb m m' -> sum_inputs tx m i ins acc = Ok (Some t) ->
  sum_inputs tx m' i ins acc = Ok (Some t).
Proof.
  intros [H1 H2]. revert i acc. induction ins as [|inp ins IH]; intros i acc; [done|].
  cbn [sum_inputs]. destruct (m !! prevout inp) as [o|] eqn:E; [|done].
  rewrite <- (H2 (prevout inp)), E by congruence.
  destruct (verify_transaction_signature _ _ _) as [[]| | |]; cbn [mbind result_bind negb]; try done.
  destruct (add_i64 _ _); cbn [mbind result_bind]; [apply IH | done..].
Qed.

Lemma agree_validate cb m m' tx fee :
  agree_but cb m m' -> 0 <= fee -> validate_and_get_fee tx m = Ok fee ->
  validate_and_get_fee tx m' = Ok fee.
Proof.
  intros Ha Hf. unfold validate_and_get_fee. destruct (vin tx) as [|i ins]; [done|].
  intros Hb. inv_bind Hb. destruct a as [t|]; [|injection Hb as <-; lia].
  by rewrite (agree_sum cb m m' _ _ _ _ _ Ha Ha0).
Qed.

Lemma accepted_block_txs cb m m' txs acc fees :
  agree_but cb m m' -> Forall (fun tx => IsCoinbase tx = false /\ cb ∉ (created tx).*1) txs ->
  accepted m txs acc fees ->
  exists m'', validate_block_txs txs m' acc = Ok (Some (m'', fees)).
Proof.
  revert m m' acc. induction txs as [|tx txs IH]; intros m m' acc Ha Hc; cbn [accepted validate_block_txs].
  - intros ->. by eexists.
  - intros (fee & acc' & Hv & Hf & Hadd & Hr). apply Forall_cons in Hc as [[Hcb Hnc] Hc].
    rewrite Hcb, (agree_validate cb m m' tx fee Ha Hf Hv). cbn [mbind result_bind].
    rewrite decide_False by lia. rewrite Hadd. cbn [mbind result_bind].
    eapply IH; [|done | exact Hr]. apply agree_emplace_outputs; [done|]. by apply agree_erase.
Qed.

Lemma coinbase_is_coinbase addr h fees cb :
  build_coinbase_tx addr h fees = Ok cb ->
  IsCoinbase cb = true /\ sum_outputs (vout cb) = add_i64 (calculate_block_reward h) fees /\
  is_ok (sum_outputs (vout cb)) = true /\
  created cb = [(mkCOutPoint (tx_hash cb) 0,
                 mkCTxOut (calculate_block_reward h + fees) (build_p2pkh_script_pubkey addr))].
Proof.
  unfold build_coinbase_tx. intros Hb. inv_bind Hb. injection Hb as <-.
  pose proof (add_i64_Ok _ _ _ Ha) as [-> Hr]. rewrite Ha.
  assert (sum_outputs [mkCTxOut (calculate_block_reward h + fees) (build_p2pkh_script_pubkey addr)]
          = Ok (calculate_block_reward h + fees)) as E.
  { unfold sum_outputs. cbn [for_each nValue]. by rewrite add_i64_in. }
  split_and!; [done | exact E | cbn [vout set_tx_hash Transaction_make]; by rewrite E | done].
Qed.

(** What [build_next_block] returns: the assembled transactions under a header that
    links, carries the required difficulty and has been mined. *)
Lemma build_next_block_Ok fuel now headers prev addr fees txs blk :
  build_next_block fuel now headers prev addr fees txs = Ok blk ->
  exists cb, build_coinbase_tx addr (u32 (size_of headers)) fees = Ok cb /\
    vtx blk = cb :: txs /\ hashPrevBlock (block_header blk) = prev /\
    required_bits headers = Ok (nBits (block_header blk)) /\
    check_proof_of_work (block_header blk) = true /\ IsMerkleRootValid blk = true.
Proof.
  unfold build_next_block. intros Hb. inv_bind Hb. inv_bind Hb. inv_bind Hb. injection Hb as <-.
  exists a0. apply mine_block_iter in Ha1 as (p & _ & -> & Hc); [|apply u32_range].
  cbn [block_header vtx].
  split_and!; [done | done | done | done | exact Hc |].
  unfold IsMerkleRootValid, BuildMerkleRoot. cbn [vtx block_header hashMerkleRoot at_counter at_position set_bits_nonce].
  by rewrite bool_decide_true.
Qed.

Lemma mined_valid_block fuel now chain m addr mempool txs fees blk :
  valid_chain chain m ->
  select_mempool mempool m [] 0 = Ok (txs, fees) ->
  build_next_block fuel now (extract_headers chain) (tip_hash chain) addr fees txs = Ok blk ->
  (forall cb, head (vtx blk) = Some cb -> m !! mkCOutPoint (tx_hash cb) 0 = None /\
     Forall (fun tx => IsCoinbase tx = false /\ tx_hash tx <> tx_hash cb) txs) ->
  valid_block chain m blk.
Proof.
  intros Hv Hsel Hb Hcb. rewrite extract_headers_fmap in Hb.
  apply build_next_block_Ok in Hb as (cb & Hc & Ev & E1 & E2 & E3 & E4).
  rewrite Ev in Hcb. destruct (Hcb cb eq_refl) as [Hfresh Htxs].
  destruct (coinbase_is_coinbase _ _ _ _ Hc) as (C1 & C2 & C3 & C4).
  apply select_mempool_accepted in Hsel as (new & Hn & Hacc & _). simpl in Hn. subst new.
  assert (agree_but (mkCOutPoint (tx_hash cb) 0) m (emplace_outputs m cb)) as Ha.
  { split; [done|]. intros k Hk. unfold emplace_outputs. rewrite C4. cbn [fold_left fst snd].
    rewrite emplace_fresh by done. by rewrite lookup_insert_ne. }
  destruct (accepted_block_txs _ m (emplace_outputs m cb) txs 0 fees Ha) as [m'' Hm'']; [|exact Hacc|].
  { eapply Forall_impl; [exact Htxs|]. intros tx [Hnc Hne]. split; [done|].
    rewrite created_keys. intros Hin. apply list_elem_of_fmap in Hin as (i & Hi & _).
    by injection Hi as Hh _. }
  split; [done.. |]. exists cb, txs, fees. rewrite Ev.
  replace (size_of (block_header <$> chain)) with (size_of chain) in C2
    by (unfold size_of; by rewrite length_fmap).
  assert (validate_block_txs (cb :: txs) m 0 = Ok (Some (m'', fees))) as E
    by (cbn [validate_block_txs]; by rewrite C1).
  apply validate_block_txs_iff in E as (_ & Hf & Hi); [|done..]. rewrite Z.sub_0_r in Hf.
  destruct (sum_outputs (vout cb)) as [paid| | |] eqn:Ep; try done. apply sum_outputs_iff in Ep as [Hs ->].
  symmetry in C2. apply add_i64_Ok in C2 as [E8 _]. by split_and!.
Qed.

(** *** Extension and fork choice *)

Lemma tip_hash_last chain tip : last chain = Some tip -> tip_hash chain = CBlock_GetHash tip.
Proof. unfold tip_hash. by intros ->. Qed.

Lemma try_extend_inv chain blk b chain' :
  try_extend_chain chain blk = Ok (b, chain') ->
  if b then
    chain' = chain ++ [blk] /\ chain <> [] /\
    IsMerkleRootValid blk = true /\ check_proof_of_work (block_header blk) = true /\
    hashPrevBlock (block_header blk) = tip_hash chain /\
    required_bits (block_header <$> chain) = Ok (nBits (block_header blk)) /\
    exists cb rest fees, vtx blk = cb :: rest /\ IsCoinbase cb = true /\
      total_tx_fees (vtx blk) (build_utxo_set chain) 0 = Ok (Some fees) /\
      sum_outputs (vout cb) = add_i64 (calculate_block_reward (u32 (size_of chain))) fees /\
      is_ok (sum_outputs (vout cb)) = true
  else chain' = chain.
Proof.
  unfold try_extend_chain. destruct (last chain) as [tip|] eqn:El; [|done].
  rewrite (tip_hash_last _ _ El). intros Hb. inv_bind Hb.
  assert (required_bits (block_header <$> chain) = Ok a) as Hr.
  { rewrite extract_headers_fmap in Ha. destruct chain; [done | exact Ha]. }
  destruct (IsMerkleRootValid blk), (check_proof_of_work (block_header blk));
    cbn [negb orb] in Hb; try (by injection Hb as <- <-).
  case_decide as Hd; [by injection Hb as <- <-|]. apply Decidable.not_or in Hd as [Hd1 Hd2].
  apply dec_stable in Hd1, Hd2. subst a.
  inv_bind Hb. destruct a as [fees|]; [|by injection Hb as <- <-].
  destruct (vtx blk) as [|cb rest]; [by injection Hb as <- <-|].
  destruct (IsCoinbase cb) eqn:Hc; cbn [negb] in Hb; [|by injection Hb as <- <-].
  inv_bind Hb. inv_bind Hb. case_decide as He; [by injection Hb as <- <-|]. subst a0.
  injection Hb as <- <-. split_and!; [done | by destruct chain | done.. |].
  exists cb, rest, fees. split_and!; [done | done | done | by rewrite Ha1, Ha2 | by rewrite Ha1].
Qed.

Lemma try_extend_intro chain blk cb rest fees :
  chain <> [] ->
  IsMerkleRootValid blk = true -> check_proof_of_work (block_header blk) = true ->
  hashPrevBlock (block_header blk) = tip_hash chain ->
  required_bits (block_header <$> chain) = Ok (nBits (block_header blk)) ->
  vtx blk = cb :: rest -> IsCoinbase cb = true ->
  total_tx_fees (vtx blk) (build_utxo_set chain) 0 = Ok (Some fees) ->
  sum_outputs (vout cb) = add_i64 (calculate_block_reward (u32 (size_of chain))) fees ->
  is_ok (sum_outputs (vout cb)) = true ->
  try_extend_chain chain blk = Ok (true, chain ++ [blk]).
Proof.
  intros Hne E1 E2 E3 E4 Ev Hc Ht Es Eok. unfold try_extend_chain.
  destruct (last chain) as [tip|] eqn:El; [|by apply last_None in El].
  rewrite <- (tip_hash_last _ _ El), extract_headers_fmap.
  assert (get_next_work_required (block_header <$> chain) RETARGET_INTERVAL TARGET_TIMESPAN_SECONDS
          = Ok (nBits (block_header blk))) as -> by (destruct chain; [done | exact E4]).
  cbn [mbind result_bind]. rewrite E1, E2. cbn [negb orb].
  rewrite decide_False by (intros [Hn|Hn]; by apply Hn).
  rewrite Ht. cbn [mbind result_bind]. rewrite Ev, Hc. cbn [negb]. rewrite <- Es.
  destruct (sum_outputs (vout cb)); try done. cbn [mbind result_bind].
  rewrite decide_False by (intros Hn; by apply Hn). done.
Qed.

(** What the comment of [try_extend_chain] asks of a block: it extends the tip, at the
    required difficulty, its first transaction is a coinbase that pays the reward and the
    fees, and every other one pays with outputs that are unspent in the chain. *)
Record extends (chain : list CBlock) (blk : CBlock) : Prop := {
  ex_merkle : IsMerkleRootValid blk = true;
  ex_pow : check_proof_of_work (block_header blk) = true;
  ex_link : hashPrevBlock (block_header blk) = tip_hash chain;
  ex_bits : required_bits (block_header <$> chain) = Ok (nBits (block_header blk));
  ex_coinbase : exists coinbase rest fees,
    vtx blk = coinbase :: rest /\ IsCoinbase coinbase = true /\
    all_pay (unspent chain) (vtx blk) fees /\ in_i64 fees /\ sums_fit (vout coinbase) /\
    values (vout coinbase) = calculate_block_reward (u32 (size_of chain)) + fees;
}.

Lemma pays_unspent chain tx fee :
  pays (unspent chain) tx fee <-> validate_and_get_fee tx (build_utxo_set chain) = Ok fee /\ 0 <= fee.
Proof.
  rewrite validate_iff. apply pays_proper; [|done..]. intros k o. symmetry. apply build_utxo_set_unspent.
Qed.
Lemma all_pay_unspent chain txs fees :
  all_pay (unspent chain) txs fees <-> all_pay (held (build_utxo_set chain)) txs fees.
Proof. apply all_pay_proper; [|done..]. intros k o. symmetry. apply build_utxo_set_unspent. Qed.

Lemma try_extend_iff chain blk chain' :
  chain <> [] ->
  try_extend_chain chain blk = Ok (true, chain') <-> extends chain blk /\ chain' = chain ++ [blk].
Proof.
  intros Hne. split.
  - intros Ht. apply try_extend_inv in Ht as (-> & _ & E1 & E2 & E3 & E4 & cb & rest & fees & Ev & Hc & Hf & Es & Eok).
    split; [|done]. split; [done.. |]. exists cb, rest, fees.
    apply total_tx_fees_iff in Hf as [Hf Hi]; [|done..]. rewrite Z.sub_0_r in Hf. apply all_pay_unspent in Hf.
    destruct (sum_outputs (vout cb)) as [paid| | |] eqn:Ep; try done. apply sum_outputs_iff in Ep as [Hs ->].
    symmetry in Es. apply add_i64_Ok in Es as [E8 _]. by split_and!.
  - intros [[E1 E2 E3 E4 (cb & rest & fees & Ev & Hc & Hf & Hi & Hs & E8)] ->].
    pose proof (fit_after_end 0 _ Hs) as Hr. rewrite Z.add_0_l, E8 in Hr.
    assert (sum_outputs (vout cb) = Ok (values (vout cb))) as Ep by (by apply sum_outputs_iff).
    apply (try_extend_intro chain blk cb rest fees); try done.
    + apply total_tx_fees_iff; [done..|]. rewrite Z.sub_0_r. split; [by apply all_pay_unspent | done].
    + by rewrite add_i64_in, Ep, E8.
    + by rewrite Ep.
Qed.

Lemma SFltb_asym x y : SFltb x y = true -> SFltb y x = false.
Proof.
  unfold SFltb, SFcompare.
  destruct x as [sx|sx| |sx mx ex], y as [sy|sy| |sy my ey]; try done;
    try (destruct sx; done); try (destruct sx, sy; done).
  destruct sx, sy; try done; rewrite (Z.compare_antisym ex ey);
    destruct (ex ?= ey); cbn [CompOpp]; try done;
    change (Pos.compare_cont Eq mx my) with (Pos.compare mx my);
    change (Pos.compare_cont Eq my mx) with (Pos.compare my mx);
    rewrite (Pos.compare_antisym mx my); by destruct (Pos.compare mx my).
Qed.

End ChainFacts.

(** ** Theorems *)

(** The reward of a block is the initial reward halved once per ten
    blocks, exactly; all rewards together never exceed 99999999890 satoshi, and reach
    that sum at block 330. *)
Theorem block_rewards :
  (forall h, 0 <= h -> calculate_block_reward h = INITIAL_REWARD / 2 ^ (h / 10)) /\
  (forall n, subsidy n <= SUPPLY_CAP) /\ (forall k, subsidy (330 + k) = SUPPLY_CAP).
Proof.
  split_and!; [exact reward_eq | | exact subsidy_end].
  intros n. rewrite <- (subsidy_end n). apply subsidy_mono. lia.
Qed.

Section ChainTheorems.
Context `{HashFns, Secp256k1}.

(** No coinbase names an outpoint that one of the transactions creates. *)
Definition coinbase_inputs_unknown (txs : list Transaction) : Prop :=
  Forall (fun tx => IsCoinbase tx = true ->
            Forall (fun i => prevout i ∉ all_created txs) (vin tx)) txs.
#[global] Instance coinbase_inputs_unknown_dec txs : Decision (coinbase_inputs_unknown txs).
Proof. unfold coinbase_inputs_unknown. apply _. Defined.

Lemma build_utxo_set_unknown chain m :
  valid_chain chain m -> NoDup (all_created (chain_txs chain)) ->
  coinbase_inputs_unknown (chain_txs chain) -> build_utxo_set chain = m.
Proof.
  intros Hv Hn Hc. apply build_utxo_set_valid; [done | done |].
  intros tx i Ht Hcb Hi. pose proof (proj1 (Forall_forall _ _) Hc tx Ht Hcb) as Hf.
  by apply (proj1 (Forall_forall _ _) Hf).
Qed.

(** The hash of a block's coinbase is new, and the block holds no other coinbase. *)
Definition coinbase_unused (utxos : UtxoSet) (txs : list Transaction) : Prop :=
  match txs with
  | [] => False
  | cb :: txs => utxos !! mkCOutPoint (tx_hash cb) 0 = None /\
      Forall (fun tx => IsCoinbase tx = false /\ tx_hash tx <> tx_hash cb) txs
  end.
#[global] Instance coinbase_unused_dec utxos txs : Decision (coinbase_unused utxos txs).
Proof. destruct txs; apply _. Defined.

(** C1.  [validate_full_chain] accepts exactly the non-empty chains that are
    valid block after block: Merkle root, proof of work, link to the previous hash,
    required difficulty, a first coinbase that pays the reward and the fees, and every
    transaction that is not a coinbase [pays] with the outputs that are unspent just before
    it. *)
Theorem validate_full_chain_spec chain :
  validate_full_chain chain = Ok true <-> chain <> [] /\ exists utxos, valid_chain chain utxos.
Proof. apply validate_full_chain_valid. Qed.

(** In a chain that validates, every block names the hash of the block
    before it (zeros for the first), meets its own target, and every prefix
    validates too. *)
Theorem validated_chain_linked chain :
  validate_full_chain chain = Ok true ->
  forall pre blk post, chain = pre ++ blk :: post ->
    hashPrevBlock (block_header blk) = tip_hash pre /\
    check_proof_of_work (block_header blk) = true /\
    required_bits (block_header <$> pre) = Ok (nBits (block_header blk)) /\
    validate_full_chain (pre ++ [blk]) = Ok true.
Proof.
  intros Hv pre blk post ->. apply validate_full_chain_valid in Hv as [_ [m Hm]].
  replace (pre ++ blk :: post) with ((pre ++ [blk]) ++ post) in Hm by (by rewrite <- app_assoc).
  apply valid_chain_prefix in Hm as [m' Hm].
  pose proof (valid_chain_snoc_inv _ _ _ Hm) as (m'' & _ & [_ E1 E2 E3 _] & _).
  split_and!; [done.. |]. apply validate_full_chain_valid. split; [by destruct pre | by exists m'].
Qed.

(** C5.  Conservation: when a validated chain also satisfies what the code does
    not check (no input spent twice by one transaction, no outpoint created twice, no
    coinbase but the first transaction), the unspent outputs are worth exactly the
    sum of the block rewards: fees move value and nothing creates or destroys it. *)
Theorem supply_conserved chain :
  validate_full_chain chain = Ok true -> plain_blocks ∅ chain -> size_of chain < 2 ^ 32 ->
  total_utxo (chain_utxos chain) = subsidy (length chain).
Proof. intros Hv. apply validated_utxos in Hv as [_ Hv]. by apply chain_total. Qed.

(** C25.  The two-pass [build_utxo_set] (add every output, then remove every spent
    one) is the UTXO state that validation reaches step by step, for validated chains
    in which outpoints are distinct and no coinbase names one of them. *)
Theorem build_utxo_set_incremental chain :
  validate_full_chain chain = Ok true -> NoDup (all_created (chain_txs chain)) ->
  coinbase_inputs_unknown (chain_txs chain) ->
  build_utxo_set chain = chain_utxos chain.
Proof.
  intros [_ Hv]%validated_utxos. by apply build_utxo_set_unknown.
Qed.

(** C24.  A block that the node assembles from its mempool and mines on top of a
    validated chain makes a chain that validates, provided that the chain's transactions
    create distinct outpoints and no coinbase of it names one of them (so that
    [build_utxo_set] is the state of validation), that the new coinbase's hash is not in
    use among the unspent outputs or the selected transactions, and that none of these is
    a coinbase. *)
Theorem mined_block_extends fuel now chain addr mempool txs fees blk :
  validate_full_chain chain = Ok true ->
  NoDup (all_created (chain_txs chain)) -> coinbase_inputs_unknown (chain_txs chain) ->
  select_mempool mempool (build_utxo_set chain) [] 0 = Ok (txs, fees) ->
  build_next_block fuel now (extract_headers chain) (tip_hash chain) addr fees txs = Ok blk ->
  coinbase_unused (build_utxo_set chain) (vtx blk) ->
  validate_full_chain (chain ++ [blk]) = Ok true.
Proof.
  intros Hv%validated_utxos Hn Hcu Hsel Hb Hcb. apply validate_full_chain_valid. split; [by destruct chain|].
  destruct Hv as [_ Hv]. rewrite (build_utxo_set_unknown _ _ Hv Hn Hcu) in Hsel, Hcb. eexists. apply valid_snoc; [exact Hv|].
  eapply mined_valid_block; [done.. |]. intros cb Hh. destruct (vtx blk) as [|cb' txs'] eqn:Ev; [done|].
  injection Hh as ->. destruct Hcb as [? Hf]. split; [done|].
  apply build_next_block_Ok in Hb as (cb' & _ & Ev' & _). rewrite Ev in Ev'. by injection Ev' as -> ->.
Qed.

(** C2.  [try_extend_chain] appends the block exactly when it [extends] the chain: its
    Merkle root is right, it meets its target, it names the tip and carries the required
    difficulty, its first transaction is a coinbase that pays the reward and the fees, and
    every transaction that is not a coinbase spends outputs that are unspent in the chain,
    with scripts that verify and without creating value.  Otherwise it leaves the chain as
    it was.  On blocks that hold only a coinbase this is validating the longer chain from
    scratch. *)
Theorem try_extend_chain_correct chain blk :
  chain <> [] ->
  (forall chain', try_extend_chain chain blk = Ok (true, chain') <-> extends chain blk /\ chain' = chain ++ [blk]) /\
  (forall chain', try_extend_chain chain blk = Ok (false, chain') -> chain' = chain) /\
  (validate_full_chain chain = Ok true -> forall cb, vtx blk = [cb] ->
   (exists chain', try_extend_chain chain blk = Ok (true, chain')) <->
   validate_full_chain (chain ++ [blk]) = Ok true).
Proof.
  intros Hne. split; [by intros; apply try_extend_iff|]. split; [by intros chain' Ht%try_extend_inv|].
  intros [_ Hv]%validated_utxos cb Ev.
  assert ((exists chain', try_extend_chain chain blk = Ok (true, chain')) <-> extends chain blk) as ->.
  { split; [by intros [c [? _]%try_extend_iff] | intros He; exists (chain ++ [blk]); by apply try_extend_iff]. }
  assert (extends chain blk <-> valid_block chain (chain_utxos chain) blk) as ->.
  { split; intros [E1 E2 E3 E4 (cb' & rest & fees & Ev' & Hc & Hf & Hr)]; (split; [done.. |]); exists cb', rest, fees;
      rewrite Ev in *; injection Ev' as <- <-; cbn [all_pay txs_fees] in *; rewrite Hc in *;
      destruct Hf as (f & r & -> & -> & ->); (split_and!; [done | done | by exists 0, 0 | apply Hr..]). }
  rewrite validate_full_chain_valid. split.
  - intros Hb. split; [by destruct chain|]. eexists. by apply valid_snoc.
  - intros [_ [m Hm]]. apply valid_chain_snoc_inv in Hm as (m' & Hm & Hb & _).
    by rewrite <- (valid_chain_func _ _ _ Hm Hv).
Qed.

(** C3.  [try_reorg] replaces the chain only by the peer's chain, and only if it
    has the same genesis hash, validates from scratch and carries strictly more work
    in double precision; otherwise the chain is untouched.  A node that switched
    never switches back to the chain it left. *)
Theorem try_reorg_correct chain peer_chain b chain' :
  try_reorg chain peer_chain = Ok (b, chain') ->
  (if b then
     chain' = peer_chain /\ validate_full_chain peer_chain = Ok true /\
     (exists g g' rest rest', chain = g :: rest /\ peer_chain = g' :: rest' /\
        CBlock_GetHash g' = CBlock_GetHash g) /\
     SFltb (calculate_chain_work (extract_headers chain))
           (calculate_chain_work (extract_headers peer_chain)) = true /\
     (forall c, try_reorg chain' chain <> Ok (true, c))
   else chain' = chain).
Proof.
  assert (forall c p b c', try_reorg c p = Ok (b, c') -> if b then
     c' = p /\ validate_full_chain p = Ok true /\
     (exists g g' rest rest', c = g :: rest /\ p = g' :: rest' /\ CBlock_GetHash g' = CBlock_GetHash g) /\
     SFltb (calculate_chain_work (extract_headers c)) (calculate_chain_work (extract_headers p)) = true
   else c' = c) as Hr.
  { clear. intros c p b c'. unfold try_reorg. destruct p as [|g' p], c as [|g c]; cbn [negb];
      try (by intros [= <- <-]).
    case_bool_decide as Hg; cbn [negb]; [|by intros [= <- <-]]. intros Hb. inv_bind Hb.
    destruct a; cbn [negb] in Hb; [|by injection Hb as <- <-].
    destruct (SFltb _ _) eqn:Hlt; injection Hb as <- <-; [|done].
    split_and!; [done | done | by eexists g, g', c, p | done]. }
  intros Ht. pose proof (Hr _ _ _ _ Ht) as Hb. destruct b; [|done].
  destruct Hb as (-> & Hv & Hg & Hlt). split_and!; try done.
  intros c Hback. apply Hr in Hback as (_ & _ & _ & Hlt').
  by rewrite (SFltb_asym _ _ Hlt) in Hlt'.
Qed.

End ChainTheorems.

(** ** A concrete chain: a genesis block and a block that pays 5000 satoshi *)

Definition res_get {A} (d : A) (r : result A) : A := match r with Ok a => a | _ => d end.

#[local] Existing Instance toy_hashes.

Definition toy_genesis : list CBlock := Eval vm_compute in
  res_get [] (@build_genesis_chain toy_hashes 64 1700000000 (address_ toy_wallet)).
Definition toy_dest : bytes := replicate 20 9.
Definition toy_tx : Transaction := Eval vm_compute in
  res_get (Transaction_make 0 [] [] 0)
    (@CreateTransaction toy_hashes toy_secp toy_wallet (map_to_list (build_utxo_set toy_genesis))
       toy_dest 5000 DEFAULT_FEE).
Definition toy_block : CBlock := Eval vm_compute in
  res_get (mkCBlock (mkCBlockHeader 0 [] [] 0 0 0) [])
    (@build_next_block toy_hashes 64 1700000060 (extract_headers toy_genesis)
       (@tip_hash toy_hashes toy_genesis) toy_dest DEFAULT_FEE [toy_tx]).
Definition toy_chain : list CBlock := toy_genesis ++ [toy_block].

Lemma toy_chain_valid : @validate_full_chain toy_hashes toy_secp toy_chain = Ok true.
Proof. vm_compute. reflexivity. Qed.
Lemma toy_genesis_valid : @validate_full_chain toy_hashes toy_secp toy_genesis = Ok true.
Proof. vm_compute. reflexivity. Qed.

Lemma validated_chain_linked_witness :
  hashPrevBlock (block_header toy_block) = @tip_hash toy_hashes toy_genesis.
Proof.
  exact (proj1 (@validated_chain_linked toy_hashes toy_secp toy_chain toy_chain_valid
                  toy_genesis toy_block [] eq_refl)).
Defined.

Lemma supply_conserved_witness :
  total_utxo (@chain_utxos toy_chain) = 10000000000.
Proof.
  refine (@supply_conserved toy_hashes toy_secp toy_chain toy_chain_valid _ _).
  - apply (bool_decide_unpack _). vm_compute. reflexivity.
  - reflexivity.
Defined.

Lemma build_utxo_set_incremental_witness : build_utxo_set toy_chain = chain_utxos toy_chain.
Proof.
  refine (@build_utxo_set_incremental toy_hashes toy_secp toy_chain toy_chain_valid _ _);
    apply (bool_decide_unpack _); vm_compute; reflexivity.
Defined.

Lemma mined_block_extends_witness :
  @validate_full_chain toy_hashes toy_secp (toy_genesis ++ [toy_block]) = Ok true.
Proof.
  refine (@mined_block_extends toy_hashes toy_secp 64 1700000060 toy_genesis toy_dest
            [toy_tx; toy_tx] [toy_tx] DEFAULT_FEE toy_block toy_genesis_valid _ _ _ _ _).
  - apply (bool_decide_unpack _). vm_compute. reflexivity.
  - apply (bool_decide_unpack _). vm_compute. reflexivity.
  - vm_compute. reflexivity.
  - vm_compute. reflexivity.
  - apply (bool_decide_unpack _). vm_compute. reflexivity.
Defined.

Lemma try_extend_chain_correct_witness :
  @extends toy_hashes toy_secp toy_genesis toy_block /\
  exists coinbase, vtx toy_block = [coinbase; toy_tx].
Proof.
  assert (@try_extend_chain toy_hashes toy_secp toy_genesis toy_block = Ok (true, toy_chain)) as E
    by (vm_compute; reflexivity).
  split; [|eexists; vm_compute; reflexivity].
  exact (proj1 (proj1 (proj1 (@try_extend_chain_correct toy_hashes toy_secp toy_genesis toy_block
                  ltac:(vm_compute; discriminate)) toy_chain) E)).
Defined.

Lemma try_reorg_correct_witness :
  @try_reorg toy_hashes toy_secp toy_genesis toy_chain = Ok (true, toy_chain) /\
  (forall c, @try_reorg toy_hashes toy_secp toy_chain toy_genesis <> Ok (true, c)).
Proof.
  assert (@try_reorg toy_hashes toy_secp toy_genesis toy_chain = Ok (true, toy_chain)) as E
    by (vm_compute; reflexivity).
  split; [exact E|].
  exact (proj2 (proj2 (proj2 (proj2 (@try_reorg_correct toy_hashes toy_secp toy_genesis toy_chain true toy_chain E))))).
Defined.
