(* ===== verification/Ledger.v ===== *)
(** What a tip hash says about the history below it, and what the chain rules let
    through: one output spent twice in a block, and coinbases beyond the first. *)
From S2P Require Import Prelude.
From S2P Require Import Crypto.
From S2P Require Import Base58.
From S2P Require Import Script.
From S2P Require Import Transaction.
From S2P Require Import Block.
From S2P Require Import Pow.
From S2P Require Import Wallet.
From S2P Require Import Chain.
From S2P Require Import Validation.

Section Ledger.
Context `{HashLaws, Secp256k1}.

(** What is hashed for the blocks of a chain. *)
Definition chain_messages (chain : list CBlock) : list bytes := concat (block_messages <$> chain).
(** A block of the chain has the all-zero hash that stands for "no previous block". *)
Definition zero_hash_block (chain : list CBlock) : Prop :=
  exists b, b ∈ chain /\ CBlock_GetHash b = replicate 32 0.

Lemma block_messages_in b chain : b ∈ chain -> block_messages b ⊆ chain_messages chain.
Proof.
  intros Hb m Hm. unfold chain_messages. apply list_elem_of_In, in_concat. exists (block_messages b).
  split; apply list_elem_of_In; [by apply list_elem_of_fmap_2 | done].
Qed.
Lemma collide_blocks b1 b2 c1 c2 ms1 ms2 :
  b1 ∈ c1 -> b2 ∈ c2 -> ms1 ⊆ block_messages b1 -> ms2 ⊆ block_messages b2 ->
  collide ms1 ms2 -> collide (chain_messages c1) (chain_messages c2).
Proof.
  intros Hb1 Hb2 S1 S2. apply collide_mono; (etrans; [eassumption | by apply block_messages_in]).
Qed.
Lemma collide_app c1 c2 d1 d2 :
  collide (chain_messages c1) (chain_messages c2) ->
  collide (chain_messages (c1 ++ d1)) (chain_messages (c2 ++ d2)).
Proof. apply collide_mono; unfold chain_messages; rewrite fmap_app, concat_app; set_solver. Qed.

Lemma headers_determined c1 c2 m1 m2 :
  valid_chain c1 m1 -> valid_chain c2 m2 -> Forall CBlock_wf c1 -> Forall CBlock_wf c2 ->
  tip_hash c1 = tip_hash c2 ->
  block_header <$> c1 = block_header <$> c2 \/ collide (chain_messages c1) (chain_messages c2) \/
  zero_hash_block (c1 ++ c2).
Proof.
  intros V1. revert c2 m2. induction V1 as [|c1 m1 b1 V1 IH B1]; intros c2 m2 V2 W1 W2 Ht.
  - destruct V2 as [|c2 m2 b2 _ _]; [by left|]. rewrite tip_hash_snoc in Ht.
    right. right. exists b2. set_solver.
  - rewrite tip_hash_snoc in Ht. destruct V2 as [|c2 m2 b2 V2 B2].
    + right. right. exists b1. set_solver.
    + rewrite tip_hash_snoc in Ht. apply Forall_app in W1 as [W1 [Wb1 _]%Forall_cons].
      apply Forall_app in W2 as [W2 [Wb2 _]%Forall_cons].
      destruct (header_hash_inj (block_header b1) (block_header b2)) as [E|Hc]; [apply Wb1 | apply Wb2 | done | |].
      * destruct (IH c2 m2 V2 W1 W2) as [Eh|[Hc|(b & Hb & Hz)]].
        -- by rewrite <- (vb_link _ _ _ B1), <- (vb_link _ _ _ B2), E.
        -- left. by rewrite !fmap_app, Eh, !fmap_cons, E.
        -- right. left. by apply collide_app.
        -- right. right. exists b. set_solver.
      * right. left. eapply (collide_blocks b1 b2); [..|exact Hc]; unfold block_messages; set_solver.
Qed.

Lemma valid_chain_merkle c m : valid_chain c m -> Forall (fun b => IsMerkleRootValid b = true) c.
Proof.
  induction 1 as [|c m b _ IH B]; [constructor|]. apply Forall_app. split; [done|].
  apply Forall_singleton. apply B.
Qed.

Lemma blocks_determined c1 c2 :
  Forall2 (fun b1 b2 => length (vtx b1) = length (vtx b2)) c1 c2 ->
  Forall CBlock_wf c1 -> Forall CBlock_wf c2 ->
  Forall (fun b => IsMerkleRootValid b = true) c1 -> Forall (fun b => IsMerkleRootValid b = true) c2 ->
  block_header <$> c1 = block_header <$> c2 -> c1 = c2 \/ collide (chain_messages c1) (chain_messages c2).
Proof.
  induction 1 as [|b1 b2 c1 c2 Hlen _ IH]; intros W1 W2 M1 M2 Eh; [by left|].
  apply Forall_cons in W1 as [Wb1 W1], W2 as [Wb2 W2], M1 as [Mb1 M1], M2 as [Mb2 M2].
  rewrite !fmap_cons in Eh. injection Eh as Eb Eh.
  destruct (IH W1 W2 M1 M2 Eh) as [->|Hc].
  2: { right. eapply collide_mono; [| |exact Hc]; unfold chain_messages; rewrite fmap_cons; set_solver. }
  apply bool_decide_eq_true in Mb1, Mb2.
  destruct (merkle_binding b1 b2) as [Ev|Hc]; [done | apply Wb1 | apply Wb2 | | |].
  - by rewrite Mb1, Mb2, Eb.
  - left. f_equal. destruct b1, b2. cbn in *. congruence.
  - right. eapply (collide_blocks b1 b2); [..|exact Hc]; unfold block_messages; set_solver.
Qed.

(** ** Theorems *)

(** C21.  The tip hash commits to the whole history.  Two validated chains with the same
    tip hash have the same headers, and are the same chain if their blocks have as many
    transactions; unless two different ones of the messages that were hashed for them
    (the headers, the transactions, the nodes of the Merkle trees; one of each chain) have
    the same double SHA-256, or one of their blocks has the all-zero hash. *)
Theorem history_binding c1 c2 :
  validate_full_chain c1 = Ok true -> validate_full_chain c2 = Ok true ->
  Forall CBlock_wf c1 -> Forall CBlock_wf c2 ->
  tip_hash c1 = tip_hash c2 ->
  (block_header <$> c1 = block_header <$> c2 /\
   (Forall2 (fun b1 b2 => length (vtx b1) = length (vtx b2)) c1 c2 ->
    c1 = c2 \/ collide (chain_messages c1) (chain_messages c2))) \/
  collide (chain_messages c1) (chain_messages c2) \/ zero_hash_block (c1 ++ c2).
Proof.
  intros [_ [m1 V1]]%validate_full_chain_valid [_ [m2 V2]]%validate_full_chain_valid W1 W2 Ht.
  destruct (headers_determined c1 c2 m1 m2 V1 V2 W1 W2 Ht) as [E|?]; [|by right].
  left. split; [exact E|]. intros Hn.
  apply blocks_determined; auto; by eapply valid_chain_merkle.
Qed.
(** What [build_next_block] puts around transactions. *)
Lemma built_extends fuel now chain addr fees txs blk :
  chain <> [] -> 0 <= fees -> all_pay (unspent chain) txs fees ->
  build_next_block fuel now (extract_headers chain) (tip_hash chain) addr fees txs = Ok blk ->
  extends chain blk /\ exists cb, vtx blk = cb :: txs /\ IsCoinbase cb = true /\ in_i64 fees /\ sums_fit (vout cb) /\
    values (vout cb) = calculate_block_reward (u32 (size_of chain)) + fees.
Proof.
  intros Hne Hf Hp Hb. rewrite extract_headers_fmap in Hb.
  apply build_next_block_Ok in Hb as (cb & Hc & Ev & E1 & E2 & E3 & E4).
  destruct (coinbase_is_coinbase _ _ _ _ Hc) as (C1 & C2 & C3 & _).
  replace (size_of (block_header <$> chain)) with (size_of chain) in C2 by (unfold size_of; by rewrite length_fmap).
  destruct (sum_outputs (vout cb)) as [paid| | |] eqn:Ep; try done. apply sum_outputs_iff in Ep as [Hs ->].
  symmetry in C2. apply add_i64_Ok in C2 as [Ec Hr].
  assert (in_i64 fees) as Hi.
  { pose proof (reward_bounds (u32 (size_of chain))) as Hrw. pose proof (u32_range (size_of chain)). unfold in_i64, in_u32 in *. lia. }
  split; [|by exists cb]. split; [done..|]. exists cb, txs, fees. split_and!; try done.
  rewrite Ev. cbn [all_pay]. rewrite C1. by exists 0, fees.
Qed.

(** After a transaction its inputs are no longer there, if its outputs do not replace them. *)
Lemma apply_tx_gone m tx i :
  IsCoinbase tx = false -> i ∈ vin tx -> txid (prevout i) <> tx_hash tx -> apply_tx m tx !! prevout i = None.
Proof.
  intros Hc Hi Hne. unfold apply_tx. rewrite Hc. apply eq_None_not_Some. intros Hs.
  apply emplace_keys in Hs as [[o Ho]|Hin].
  - apply lookup_erase in Ho as [_ Ho]. by destruct (Ho i Hi).
  - rewrite created_keys in Hin. apply list_elem_of_fmap in Hin as (j & Ej & _). by rewrite Ej in Hne.
Qed.

(** C34.  Two kinds of blocks that the rules should refuse, on top of any validated chain.
    Any two transactions that each pay with unspent outputs, and share one, can be in one
    block: [try_extend_chain] appends it, and [validate_full_chain] then does not accept
    the chain that the node has.  And a block may hold, after its coinbase, any other
    transaction that looks like a coinbase: every check accepts it, and the unspent outputs
    are then worth all block rewards and whatever the outputs of that transaction say (when
    the chain is one of those for which the supply is the sum of the rewards, and the
    block's outpoints are new). *)
Theorem unsound_blocks fuel now chain addr :
  validate_full_chain chain = Ok true ->
  (forall tx1 tx2 fee1 fee2 i1 i2 blk,
     IsCoinbase tx1 = false -> IsCoinbase tx2 = false ->
     pays (unspent chain) tx1 fee1 -> pays (unspent chain) tx2 fee2 ->
     i1 ∈ vin tx1 -> i2 ∈ vin tx2 -> prevout i1 = prevout i2 -> txid (prevout i1) <> tx_hash tx1 ->
     build_next_block fuel now (extract_headers chain) (tip_hash chain) addr (fee1 + fee2) [tx1; tx2] = Ok blk ->
     try_extend_chain chain blk = Ok (true, chain ++ [blk]) /\ validate_full_chain (chain ++ [blk]) <> Ok true) /\
  (forall mint blk,
     IsCoinbase mint = true ->
     build_next_block fuel now (extract_headers chain) (tip_hash chain) addr 0 [mint] = Ok blk ->
     try_extend_chain chain blk = Ok (true, chain ++ [blk]) /\ validate_full_chain (chain ++ [blk]) = Ok true /\
     (plain_blocks ∅ chain -> plain_txs (chain_utxos chain) (vtx blk) -> size_of chain < 2 ^ 32 ->
      total_utxo (chain_utxos (chain ++ [blk])) = subsidy (S (length chain)) + values (vout mint))).
Proof.
  intros [Hne Hv]%validated_utxos. split.
  - intros tx1 tx2 fee1 fee2 i1 i2 blk C1 C2 P1 P2 I1 I2 E Hid Hb.
    pose proof (pays_nonneg _ _ _ P1). pose proof (pays_nonneg _ _ _ P2).
    apply built_extends in Hb as [Hext (cb & Ev & Cb & _)]; [|done | lia |].
    2: { exists fee1, fee2. rewrite C1. split_and!; [done.. |]. exists fee2, 0. rewrite C2. split_and!; [lia | done..]. }
    split; [by apply try_extend_iff|].
    intros [_ [m Hm]]%validate_full_chain_valid. apply valid_chain_snoc_inv in Hm as (m' & _ & Hvb & _).
    destruct (vb_coinbase _ _ _ Hvb) as (cb' & rest & fees & _ & _ & Hf & _).
    rewrite Ev in Hf. cbn [txs_fees] in Hf. rewrite C1, C2 in Hf.
    destruct Hf as (_ & _ & _ & _ & _ & _ & _ & _ & f & _ & _ & (_ & outs & Hu & _) & _).
    apply list_elem_of_lookup in I2 as [j Hj].
    destruct (Forall2_lookup_l _ _ _ _ _ Hu Hj) as (o & _ & Ho). unfold held in Ho.
    by rewrite <- E, apply_tx_gone in Ho.
  - intros mint blk C Hb.
    apply built_extends in Hb as [Hext (cb & Ev & Cb & Hi & Hs & Hval)]; [|done | done |].
    2: { exists 0, 0. rewrite C. by split_and!. }
    assert (valid_block chain (chain_utxos chain) blk) as Hvb.
    { destruct Hext as [E1 E2 E3 E4 _]. split; [done..|]. exists cb, [mint], 0. rewrite Ev.
      split_and!; try done. cbn [txs_fees]. rewrite Cb, C. exists 0, 0. split_and!; [done..|]. by exists 0, 0. }
    split; [by apply try_extend_iff|]. split.
    { apply validate_full_chain_valid. split; [by destruct chain|]. eexists. by apply valid_snoc. }
    intros Hp Ht Hsz. unfold chain_utxos at 1. rewrite fold_left_app. cbn [fold_left]. fold (chain_utxos chain).
    unfold apply_block. rewrite Ev in Ht |- *. cbn [fold_left plain_txs] in *.
    rewrite Cb, C in Ht. destruct Ht as (_ & F1 & _ & F2 & _).
    assert (forall m tx, IsCoinbase tx = true -> apply_tx m tx = emplace_outputs m tx) as Ha
      by (intros m tx Hc; unfold apply_tx; by rewrite Hc).
    rewrite (Ha _ mint) by done. rewrite (Ha _ cb) in * by done. rewrite !total_emplace by done.
    rewrite (chain_total _ _ Hv Hp) by done. rewrite Hval, subsidy_S.
    rewrite u32_id by (pose proof (size_of_nonneg chain); unfold in_u32; lia). unfold size_of. lia.
Qed.

(** The mempool selection lets a transaction spend what an earlier one of the same block
    creates; a node that has the chain does not append such a block. *)
Theorem chained_block_refused chain blk tx i :
  chain <> [] -> tx ∈ vtx blk -> IsCoinbase tx = false -> i ∈ vin tx ->
  (forall o, ~ unspent chain (prevout i) o) ->
  forall c, try_extend_chain chain blk <> Ok (true, c).
Proof.
  intros Hne Ht Hc Hi Hun c [He _]%try_extend_iff; [|done].
  destruct (ex_coinbase _ _ He) as (cb & rest & fees & _ & _ & Hp & _). clear He.
  revert fees Hp. induction (vtx blk) as [|t txs IH]; intros fees; [set_solver|].
  intros (fee & more & _ & Hf & Hr). apply elem_of_cons in Ht as [<-|Ht]; [|by eapply IH].
  rewrite Hc in Hf. destruct Hf as (_ & outs & Hu & _). apply list_elem_of_lookup in Hi as [j Hj].
  destruct (Forall2_lookup_l _ _ _ _ _ Hu Hj) as (o & _ & Ho). by apply (Hun o).
Qed.
End Ledger.

(** ** Concrete chains *)

#[local] Existing Instance toy_hashes.

(** Two payments that spend the same output, to different recipients. *)
Definition rival_tx : Transaction := Eval vm_compute in
  res_get (Transaction_make 0 [] [] 0)
    (@CreateTransaction toy_hashes toy_secp toy_wallet (map_to_list (build_utxo_set toy_genesis))
       (replicate 20 8) 7000 DEFAULT_FEE).
Definition block_with (fees : Z) (txs : list Transaction) : CBlock :=
  res_get (mkCBlock (mkCBlockHeader 0 [] [] 0 0 0) [])
    (@build_next_block toy_hashes 64 1700000060 (extract_headers toy_genesis)
       (@tip_hash toy_hashes toy_genesis) toy_dest fees txs).
Definition double_spend_block : CBlock := Eval vm_compute in block_with (2 * DEFAULT_FEE) [toy_tx; rival_tx].

(** A transaction without inputs, which creates a million coins. *)
Definition minting_tx : Transaction := Eval vm_compute in
  @set_tx_hash toy_hashes (Transaction_make 1 [] [mkCTxOut 100000000000000 (build_p2pkh_script_pubkey toy_dest)] 0).
Definition minting_block : CBlock := Eval vm_compute in block_with 0 [minting_tx].

(** Two different validated chains with one tip hash: the last transaction of the second
    one's tip is repeated. *)
Definition minting_tx' : Transaction := Eval vm_compute in
  @set_tx_hash toy_hashes (Transaction_make 2 [] [mkCTxOut 1 []] 0).
Definition odd_block : CBlock := Eval vm_compute in block_with 0 [minting_tx; minting_tx'].
Definition odd_chain : list CBlock := toy_genesis ++ [odd_block].
Definition even_chain : list CBlock :=
  toy_genesis ++ [mkCBlock (block_header odd_block) (vtx odd_block ++ [minting_tx'])].

(** None of their messages collide, so that their headers are the same. *)
Lemma chains_apart :
  ~ @collide toy_hashes (@chain_messages toy_hashes odd_chain) (@chain_messages toy_hashes even_chain) /\
  ~ @zero_hash_block toy_hashes (odd_chain ++ even_chain).
Proof.
  split.
  - intros (x & y & Hx & Hy & Hne & Hh).
    assert (Forall (fun x => Forall (fun y => x = y \/ @hash_double_sha256 toy_hashes x <> @hash_double_sha256 toy_hashes y)
              (@chain_messages toy_hashes even_chain)) (@chain_messages toy_hashes odd_chain)) as Hf
      by (apply (bool_decide_unpack _); vm_compute; reflexivity).
    pose proof (proj1 (Forall_forall _ _) Hf x Hx) as Hf'.
    by destruct (proj1 (Forall_forall _ _) Hf' y Hy).
  - intros (b & Hb & Hz).
    assert (Forall (fun b => @CBlock_GetHash toy_hashes b <> replicate 32 0) (odd_chain ++ even_chain)) as Hf
      by (apply (bool_decide_unpack _); vm_compute; reflexivity).
    by apply (proj1 (Forall_forall _ _) Hf b Hb).
Qed.

Lemma history_binding_witness :
  length (concat (vtx <$> odd_chain)) = 4%nat /\ length (concat (vtx <$> even_chain)) = 5%nat /\
  block_header <$> odd_chain = block_header <$> even_chain.
Proof.
  split; [reflexivity|]. split; [reflexivity|]. destruct chains_apart as [N1 N2].
  assert (validate_full_chain (H0 := toy_secp) odd_chain = Ok true) as V1 by (vm_compute; reflexivity).
  assert (validate_full_chain (H0 := toy_secp) even_chain = Ok true) as V2 by (vm_compute; reflexivity).
  assert (Forall (@CBlock_wf toy_hashes) odd_chain) as W1
    by (apply (bool_decide_unpack _); vm_compute; reflexivity).
  assert (Forall (@CBlock_wf toy_hashes) even_chain) as W2
    by (apply (bool_decide_unpack _); vm_compute; reflexivity).
  destruct (@history_binding toy_hashes toy_hash_laws toy_secp odd_chain even_chain V1 V2 W1 W2 eq_refl)
    as [[E _]|[?|?]]; [exact E | contradiction..].
Defined.

Definition rival_input : CTxIn := Eval vm_compute in hd (mkCTxIn COutPoint_default [] 0) (vin toy_tx).
Definition rival_input' : CTxIn := Eval vm_compute in hd (mkCTxIn COutPoint_default [] 0) (vin rival_tx).

Lemma unsound_blocks_witness :
  try_extend_chain (H0 := toy_secp) toy_genesis double_spend_block = Ok (true, toy_genesis ++ [double_spend_block]) /\
  validate_full_chain (H0 := toy_secp) (toy_genesis ++ [double_spend_block]) <> Ok true /\
  validate_full_chain (H0 := toy_secp) (toy_genesis ++ [minting_block]) = Ok true /\
  SUPPLY_CAP < total_utxo (chain_utxos (toy_genesis ++ [minting_block])).
Proof.
  destruct (@unsound_blocks toy_hashes toy_secp 64 1700000060 toy_genesis toy_dest toy_genesis_valid) as [Hdouble Hmint].
  destruct (Hdouble toy_tx rival_tx DEFAULT_FEE DEFAULT_FEE rival_input rival_input' double_spend_block) as [D1 D2].
  - vm_compute. reflexivity.
  - vm_compute. reflexivity.
  - apply pays_unspent. split; [vm_compute; reflexivity | discriminate].
  - apply pays_unspent. split; [vm_compute; reflexivity | discriminate].
  - apply (bool_decide_unpack _). vm_compute. reflexivity.
  - apply (bool_decide_unpack _). vm_compute. reflexivity.
  - vm_compute. reflexivity.
  - apply (bool_decide_unpack _). vm_compute. reflexivity.
  - vm_compute. reflexivity.
  - destruct (Hmint minting_tx minting_block) as (_ & M2 & M3); [vm_compute; reflexivity.. |].
    split; [exact D1|]. split; [exact D2|]. split; [exact M2|]. rewrite M3.
    + vm_compute. reflexivity.
    + apply (bool_decide_unpack _). vm_compute. reflexivity.
    + apply (bool_decide_unpack _). vm_compute. reflexivity.
    + reflexivity.
Defined.
