(* ===== verification/World.v ===== *)
(** The effects of the program: files, the clock, random bytes, sockets and standard
    output, as explicit state; and the monad the effectful code is written in.

    The parts that the operating system decides (what a system call returns, what a
    peer sends, when a send fails) are data of the state, so a theorem about every
    [world] holds for every behaviour of the environment. *)
From S2P Require Import Prelude.

(** ** State *)

(** One connected TCP stream as a process sees it.  [incoming] is what successive
    [recv] calls find, chunk by chunk; an empty chunk is a closed or broken connection.
    After the last chunk the connection is closed, unless it is [idle]: then the peer keeps
    it open and sends nothing.  [outgoing] is what has been sent.  [room] is what
    successive [send] calls accept (at most), or the negated error number; once it is used
    up, everything. *)
Record conn := mkConn {
  incoming : list bytes;
  outgoing : bytes;
  room : list Z;
  idle : bool;
}.
Definition conn_new : conn := mkConn [] [] [] false.

(** What the next socket call does. *)
Inductive outcome := Fails | Succeeds | Connects (c : conn).

Record world := mkWorld {
  files : gmap bytes bytes;         (* the content of each file, by path *)
  unreadable : list bytes;          (* paths that cannot be opened for reading *)
  unwritable : list bytes;          (* paths that cannot be opened for writing *)
  clock : list Z;                   (* what successive [std::time(nullptr)] return *)
  entropy : list (Z * bytes);       (* what successive [getrandom] return and store *)
  os : list outcome;                (* what successive socket calls do *)
  next_fd : Z;                      (* the next socket descriptor *)
  sockets : gmap Z conn;            (* open descriptors *)
  closed : list (Z * conn);         (* closed descriptors, as they were when closed *)
  stdin : list bytes;               (* the lines of standard input *)
  stdout : list bytes;              (* what has been printed *)
  stdout_ok : bool;                 (* whether a write to standard output succeeds *)
  stderr_ok : bool;                 (* whether a write to standard error succeeds *)
  killed : bool;                    (* whether a signal has ended the process *)
}.

Definition set_files (f : gmap bytes bytes) (w : world) : world :=
  mkWorld f (unreadable w) (unwritable w) (clock w) (entropy w) (os w) (next_fd w) (sockets w)
          (closed w) (stdin w) (stdout w) (stdout_ok w) (stderr_ok w) (killed w).
Definition set_clock (c : list Z) (w : world) : world :=
  mkWorld (files w) (unreadable w) (unwritable w) c (entropy w) (os w) (next_fd w) (sockets w)
          (closed w) (stdin w) (stdout w) (stdout_ok w) (stderr_ok w) (killed w).
Definition set_entropy (e : list (Z * bytes)) (w : world) : world :=
  mkWorld (files w) (unreadable w) (unwritable w) (clock w) e (os w) (next_fd w) (sockets w)
          (closed w) (stdin w) (stdout w) (stdout_ok w) (stderr_ok w) (killed w).
Definition set_os (o : list outcome) (w : world) : world :=
  mkWorld (files w) (unreadable w) (unwritable w) (clock w) (entropy w) o (next_fd w) (sockets w)
          (closed w) (stdin w) (stdout w) (stdout_ok w) (stderr_ok w) (killed w).
Definition set_sockets (s : gmap Z conn) (w : world) : world :=
  mkWorld (files w) (unreadable w) (unwritable w) (clock w) (entropy w) (os w) (next_fd w) s
          (closed w) (stdin w) (stdout w) (stdout_ok w) (stderr_ok w) (killed w).
Definition set_next_fd (n : Z) (w : world) : world :=
  mkWorld (files w) (unreadable w) (unwritable w) (clock w) (entropy w) (os w) n (sockets w)
          (closed w) (stdin w) (stdout w) (stdout_ok w) (stderr_ok w) (killed w).
Definition set_closed (c : list (Z * conn)) (w : world) : world :=
  mkWorld (files w) (unreadable w) (unwritable w) (clock w) (entropy w) (os w) (next_fd w) (sockets w)
          c (stdin w) (stdout w) (stdout_ok w) (stderr_ok w) (killed w).
Definition set_stdin (i : list bytes) (w : world) : world :=
  mkWorld (files w) (unreadable w) (unwritable w) (clock w) (entropy w) (os w) (next_fd w) (sockets w)
          (closed w) i (stdout w) (stdout_ok w) (stderr_ok w) (killed w).
Definition set_stdout (o : list bytes) (w : world) : world :=
  mkWorld (files w) (unreadable w) (unwritable w) (clock w) (entropy w) (os w) (next_fd w) (sockets w)
          (closed w) (stdin w) o (stdout_ok w) (stderr_ok w) (killed w).
Definition set_killed (k : bool) (w : world) : world :=
  mkWorld (files w) (unreadable w) (unwritable w) (clock w) (entropy w) (os w) (next_fd w) (sockets w)
          (closed w) (stdin w) (stdout w) (stdout_ok w) (stderr_ok w) k.

(** ** The monad *)

Definition io (A : Type) : Type := world -> result A * world.

#[export] Instance io_ret : MRet io := fun _ a w => (Ok a, w).
#[export] Instance io_bind : MBind io := fun _ _ k m w =>
  match m w with
  | (Ok a, w) => k a w
  | (Throw e, w) => (Throw e, w)
  | (Ub, w) => (Ub, w)
  | (Diverge, w) => (Diverge, w)
  end.

Definition lift {A} (r : result A) : io A := fun w => (r, w).
Definition throw {A} (e : exn) : io A := lift (Throw e).

(** [try { m } catch (const std::exception&) { h }]. *)
Definition try_catch {A} (m h : io A) : io A := fun w =>
  match m w with
  | (Throw _, w) => h w
  | r => r
  end.

(** [m] followed by the destructors [d] of its scope, however [m] ends. *)
Definition finally {A} (m : io A) (d : world -> world) : io A := fun w =>
  let '(r, w) := m w in (r, d w).

(** [std::time(nullptr)]: -1 when the clock cannot be read. *)
Definition time_now : io Z := fun w =>
  match clock w with
  | [] => (Ok (-1), w)
  | t :: c => (Ok t, set_clock c w)
  end.

(** [getrandom(data, size, 0)] into a buffer of 32 bytes: -1 when it fails. *)
Definition getrandom32 : io (Z * bytes) := fun w =>
  match entropy w with
  | [] => (Ok (-1, replicate 32 0), w)
  | r :: e => (Ok r, set_entropy e w)
  end.

(** [std::print] and [std::println] to standard output and to standard error: they throw
    when the write fails.  [stdout] has one entry per call; what goes to standard error is
    not recorded. *)
Definition print_text (text : bytes) : io unit := fun w =>
  if stdout_ok w then (Ok tt, set_stdout (stdout w ++ [text]) w) else (Throw system_error, w).
Definition print_line (line : bytes) : io unit := print_text (line ++ [10]).
Definition print_error : io unit := fun w =>
  if stderr_ok w then (Ok tt, w) else (Throw system_error, w).

(** The default action of a signal: the process ends inside the call. *)
Definition kill_process {A} : io A := fun w => (Diverge, set_killed true w).

(** ** Lemmas *)

Section IoFacts.
Context {A B : Type}.

Lemma io_bind_Ok (m : io A) (k : A -> io B) w b w' :
  (m ≫= k) w = (Ok b, w') <-> exists a w1, m w = (Ok a, w1) /\ k a w1 = (Ok b, w').
Proof.
  unfold mbind at 1, io_bind. destruct (m w) as [[a| | |] w1].
  - split; [eauto | by intros (? & ? & [= <- <-] & ?)].
  - split; [done | by intros (? & ? & ? & _)].
  - split; [done | by intros (? & ? & ? & _)].
  - split; [done | by intros (? & ? & ? & _)].
Qed.

Lemma io_bind_eq (m : io A) (k : A -> io B) w a w1 : m w = (Ok a, w1) -> (m ≫= k) w = k a w1.
Proof. intros E. unfold mbind, io_bind. by rewrite E. Qed.
Lemma io_bind_throw (m : io A) (k : A -> io B) w e w1 :
  m w = (Throw e, w1) -> (m ≫= k) w = (Throw e, w1).
Proof. intros E. unfold mbind, io_bind. by rewrite E. Qed.

End IoFacts.

(** [preserves P m]: however [m] ends, [P] relates the states before and after. *)
Definition preserves {A} (R : world -> world -> Prop) (m : io A) : Prop :=
  forall w, R w (snd (m w)).

Section Preserves.
Context (R : world -> world -> Prop) (Rrefl : forall w, R w w)
  (Rtrans : forall a b c, R a b -> R b c -> R a c).

Lemma preserves_ret {A} (a : A) : preserves R (mret a).
Proof. intros w. apply Rrefl. Qed.
Lemma preserves_lift {A} (r : result A) : preserves R (lift r).
Proof. intros w. apply Rrefl. Qed.
Lemma preserves_bind {A B} (m : io A) (k : A -> io B) :
  preserves R m -> (forall a, preserves R (k a)) -> preserves R (m ≫= k).
Proof.
  intros Hm Hk w. unfold mbind, io_bind. specialize (Hm w).
  destruct (m w) as [[a| | |] w1]; [|done..]. eapply Rtrans; [exact Hm | apply Hk].
Qed.
Lemma preserves_try {A} (m h : io A) :
  preserves R m -> preserves R h -> preserves R (try_catch m h).
Proof.
  intros Hm Hh w. unfold try_catch. specialize (Hm w).
  destruct (m w) as [[a|e| |] w1]; [done | | done..]. eapply Rtrans; [exact Hm | apply Hh].
Qed.
Lemma preserves_finally {A} (m : io A) d :
  preserves R m -> (forall w, R w (d w)) -> preserves R (finally m d).
Proof.
  intros Hm Hd w. unfold finally. specialize (Hm w). destruct (m w) as [r w1].
  eapply Rtrans; [exact Hm | apply Hd].
Qed.
End Preserves.

(** The relation "no file was written". *)
Definition kept (w w' : world) : Prop :=
  files w' = files w /\ unwritable w' = unwritable w /\ unreadable w' = unreadable w.

Lemma kept_refl w : kept w w.
Proof. done. Qed.
Lemma kept_trans a b c : kept a b -> kept b c -> kept a c.
Proof. intros (H1 & H2 & H3) (H4 & H5 & H6). split_and!; congruence. Qed.
