(* ===== verification/Storage.v ===== *)
(** storage/storage.h: the files that hold the chain, the UTXO set and the mempool. *)
From S2P Require Import Prelude.
From S2P Require Import World.
From S2P Require Import Crypto.
From S2P Require Import Hashes.
From S2P Require Import Serializer.
From S2P Require Import Transaction.
From S2P Require Import Block.

(** ** Files *)

(** A file that exists and can be opened yields its whole content. *)
Definition read_file (path : bytes) : io bytes := fun w =>
  if decide (path ∈ unreadable w) then (Throw runtime_error, w)
  else
    match files w !! path with
    | None => (Throw runtime_error, w)
    | Some buffer => (Ok buffer, w)
    end.

(** The constructor of [std::ofstream] with [std::ios::trunc]: the file is empty. *)
Definition open_trunc (path : bytes) : io unit := fun w =>
  if decide (path ∈ unwritable w) then (Throw runtime_error, w)
  else (Ok tt, set_files (<[path := []]> (files w)) w).
(** [file.write]: the code does not look at the result, and the model takes it to have
    stored all the data in the end. *)
Definition append_bytes (path data : bytes) : io unit := fun w =>
  (Ok tt, set_files (<[path := default [] (files w !! path) ++ data]> (files w)) w).

Definition write_file (path buffer : bytes) : io unit :=
  open_trunc path;;
  append_bytes path buffer.

(** ** Chains *)

Definition serialize_chain (chain : list CBlock) : bytes :=
  let buffer := write_var_int32 [] (u32 (size_of chain)) in
  write_list CBlock_Serialize buffer chain.

Definition save_chain (chain : list CBlock) (path : bytes) : io unit :=
  let buffer := serialize_chain chain in
  write_file path buffer.

(** A reader run on a whole buffer from offset 0; bytes after the value are ignored. *)
Definition read_from {A} (r : reader A) (buffer : bytes) : result A :=
  '(x, offset) ← r buffer O;
  Ok x.

Section Storage.
Context `{HashFns}.

Definition deserialize_chain (buffer : bytes) : result (list CBlock) :=
  read_from (block_count ← read_var_int32;
             chain ← read_list (Z.to_nat block_count) CBlock_Deserialize;
             mret chain) buffer.

Definition load_chain (path : bytes) : io (list CBlock) :=
  buffer ← read_file path;
  lift (deserialize_chain buffer).

(** ** The mempool *)

Definition save_mempool (mempool : list Transaction) (path : bytes) : io unit :=
  let buffer := write_var_int32 [] (u32 (size_of mempool)) in
  let buffer := write_list Transaction_Serialize buffer mempool in
  write_file path buffer.

Definition load_mempool (path : bytes) : io (list Transaction) :=
  buffer ← read_file path;
  lift (read_from (count ← read_var_int32;
                   mempool ← read_list (Z.to_nat count) Transaction_Deserialize;
                   mret mempool) buffer).

End Storage.

(** ** The UTXO set *)

Definition entry_Serialize (e : COutPoint * CTxOut) : bytes :=
  COutPoint_Serialize (fst e) ++ CTxOut_Serialize (snd e).
Definition entry_Deserialize : reader (COutPoint * CTxOut) :=
  outpoint ← COutPoint_Deserialize;
  txout ← CTxOut_Deserialize;
  mret (outpoint, txout).

(** [entries]: the map's entries in the order it is iterated. *)
Definition save_utxo_set (entries : list (COutPoint * CTxOut)) (path : bytes) : io unit :=
  let buffer := write_var_int32 [] (u32 (size_of entries)) in
  let buffer := write_list entry_Serialize buffer entries in
  write_file path buffer.

Definition load_utxo_set (path : bytes) : io UtxoSet :=
  buffer ← read_file path;
  lift (read_from (entry_count ← read_var_int32;
                   entries ← read_list (Z.to_nat entry_count) entry_Deserialize;
                   mret (fold_left (fun utxos e => emplace utxos (fst e) (snd e)) entries ∅)) buffer).

(** ** Lemmas *)

(** The format of a counted list, as the three savers write it. *)
Definition counted_wf {A} (w : A -> Prop) (l : list A) : Prop := Forall w l /\ in_u32 (size_of l).

Lemma write_counted {A} (s : A -> bytes) l :
  in_u32 (size_of l) -> write_list s (write_var_int32 [] (u32 (size_of l))) l = sized_list s l.
Proof.
  intros Hs. unfold write_var_int32, sized_list.
  rewrite write_list_concat, u32_id, write_uint_32LE_le by done. done.
Qed.

Lemma counted_parses {A} (r : reader A) w s :
  parses r (format w s) ->
  parses (n ← read_var_int32; l ← read_list (Z.to_nat n) r; mret l)
    (format (counted_wf w) (sized_list s)).
Proof.
  intros Hr. eapply parses_conv.
  { eapply parses_sized_list; [exact Hr|]. intros l. apply parses_ret. }
  intros l bs. unfold format. split.
  - intros (l' & b & Hw & [-> ->] & ->). by rewrite app_nil_r.
  - intros [Hw ->]. exists l, []. by rewrite app_nil_r.
Qed.

Lemma read_from_Ok {A} (r : reader A) w s buffer x :
  parses r (format w s) -> bytes_ok buffer ->
  read_from r buffer = Ok x <-> w x /\ exists rest, buffer = s x ++ rest.
Proof.
  intros Hr Hb. unfold read_from. split.
  - intros Hx. inv_bind Hx. destruct a as [y off]. injection Hx as ->.
    apply (format_parses r w s) in Ha as [Hw Hrd]; [|done | done | lia].
    split; [done|]. apply reads_slice in Hrd as (-> & Hle & Hs).
    exists (drop (length (s x)) buffer). rewrite <- Hs at 1. unfold slice.
    rewrite drop_0. by rewrite take_drop.
  - intros [Hw [rest ->]].
    assert (r (s x ++ rest) O = Ok (x, length (s x))) as ->; [|done].
    apply (format_parses r w s); [done | done | lia |]. split; [done|].
    apply (reads_at [] (s x) rest).
Qed.

Section StorageFacts.
Context `{HashFns}.

(** The values the chain and mempool files can hold. *)
Definition chain_wf : list CBlock -> Prop := counted_wf CBlock_wf.
Definition mempool_wf : list Transaction -> Prop := counted_wf Transaction_wf.

Lemma serialize_chain_eq chain :
  in_u32 (size_of chain) -> serialize_chain chain = sized_list CBlock_Serialize chain.
Proof. apply write_counted. Qed.

Lemma deserialize_chain_Ok buffer chain :
  bytes_ok buffer ->
  deserialize_chain buffer = Ok chain <->
  chain_wf chain /\ exists rest, buffer = serialize_chain chain ++ rest.
Proof.
  intros Hb. unfold deserialize_chain.
  rewrite (read_from_Ok _ _ _ _ _ (counted_parses _ _ _ CBlock_parses) Hb).
  split; intros [Hw [rest ->]]; (split; [exact Hw|]); exists rest; by rewrite serialize_chain_eq by apply Hw.
Qed.

Lemma serialize_chain_ok chain : chain_wf chain -> bytes_ok (serialize_chain chain).
Proof.
  intros [Hw Hs]. rewrite serialize_chain_eq by done. unfold sized_list. apply Forall_app.
  split; [auto with siliqua|]. eapply concat_ok; [|exact Hw]. apply CBlock_ser_ok.
Qed.

Lemma deserialize_serialize chain : chain_wf chain -> deserialize_chain (serialize_chain chain) = Ok chain.
Proof.
  intros Hw. apply deserialize_chain_Ok; [by apply serialize_chain_ok|]. split; [done|].
  exists []. by rewrite app_nil_r.
Qed.

Lemma read_file_Ok path buffer w :
  path ∉ unreadable w -> files w !! path = Some buffer -> read_file path w = (Ok buffer, w).
Proof. intros Hr Hf. unfold read_file. by rewrite decide_False, Hf by done. Qed.
Lemma write_file_eq path buffer w :
  write_file path buffer w =
    if decide (path ∈ unwritable w) then (Throw runtime_error, w)
    else (Ok tt, set_files (<[path := buffer]> (files w)) w).
Proof.
  unfold write_file, mbind, io_bind, open_trunc, append_bytes. case_decide; [done|].
  cbn [files set_files]. rewrite lookup_insert_eq, insert_insert_eq. done.
Qed.
Lemma write_file_Ok path buffer w :
  path ∉ unwritable w ->
  write_file path buffer w = (Ok tt, set_files (<[path := buffer]> (files w)) w).
Proof. intros Hw. by rewrite write_file_eq, decide_False by done. Qed.

(** Reading a file that was just written. *)
Lemma write_read {A} path buffer (r : reader A) w s x rw :
  path ∉ unwritable w -> path ∉ unreadable w ->
  parses r (format rw s) -> rw x -> bytes_ok (s x) -> buffer = s x ->
  (write_file path buffer;; b ← read_file path; lift (read_from r b)) w
  = (Ok x, set_files (<[path := buffer]> (files w)) w).
Proof.
  intros Hw Hr Hp Hx Hb ->. rewrite (io_bind_eq _ _ _ _ _ (write_file_Ok _ _ _ Hw)).
  erewrite io_bind_eq; [|apply read_file_Ok; [done | apply lookup_insert_eq]].
  unfold lift. f_equal. apply (read_from_Ok r rw s); [done | done |]. split; [done|].
  exists []. by rewrite app_nil_r.
Qed.

Lemma entry_parses :
  parses entry_Deserialize (format (fun e => COutPoint_wf (fst e) /\ CTxOut_wf (snd e)) entry_Serialize).
Proof.
  eapply parses_conv.
  { eapply parses_bind; [apply COutPoint_parses|]. intros o.
    eapply parses_bind; [apply CTxOut_parses|]. intros t. apply parses_ret. }
  intros [o t] bs. unfold format, entry_Serialize. simpl. split.
  - intros (o' & ? & ? & [Ho ->] & (t' & ? & ? & [Ht ->] & [[= -> ->] ->] & ->) & ->).
    rewrite app_nil_r. auto.
  - intros [[Ho Ht] ->]. exists o, (COutPoint_Serialize o); eexists; split; [done|]; split; [|done].
    exists t, (CTxOut_Serialize t), []. rewrite app_nil_r. auto.
Qed.

(** Emplacing the entries of a map, in any order, gives the map back. *)
Lemma emplace_entries (entries : list (COutPoint * CTxOut)) (m : UtxoSet) :
  NoDup entries.*1 -> (forall k, k ∈ entries.*1 -> m !! k = None) ->
  fold_left (fun utxos e => emplace utxos (fst e) (snd e)) entries m = list_to_map entries ∪ m.
Proof.
  revert m. induction entries as [|[k v] l IH]; intros m Hn Hm; cbn [fold_left fst snd];
    [symmetry; apply (left_id_L ∅ (∪))|].
  rewrite fmap_cons in *. apply NoDup_cons in Hn as [Hk Hn]. cbn [fst] in *.
  unfold emplace at 2. rewrite (Hm k) by set_solver. rewrite IH; [|done|].
  - rewrite <- insert_union_r by (by apply not_elem_of_list_to_map_1). by rewrite insert_union_l.
  - intros k' Hk'. rewrite lookup_insert_ne by set_solver. apply Hm. set_solver.
Qed.

Definition utxo_wf (m : UtxoSet) : Prop :=
  map_Forall (fun o t => COutPoint_wf o /\ CTxOut_wf t) m /\ in_u32 (Z.of_nat (size m)).

Lemma load_utxo_entries entries (m : UtxoSet) :
  utxo_wf m -> entries ≡ₚ map_to_list m ->
  bytes_ok (sized_list entry_Serialize entries) /\ in_u32 (size_of entries) /\
  read_from (entry_count ← read_var_int32;
             entries ← read_list (Z.to_nat entry_count) entry_Deserialize;
             mret (fold_left (fun utxos e => emplace utxos (fst e) (snd e)) entries (∅ : UtxoSet)))
    (sized_list entry_Serialize entries) = Ok m.
Proof.
  intros [Hw Hs] Hp.
  assert (Forall (fun e => COutPoint_wf (fst e) /\ CTxOut_wf (snd e)) entries) as Hf.
  { rewrite Hp. apply map_Forall_to_list in Hw. eapply Forall_impl; [exact Hw|]. by intros [o t]. }
  assert (in_u32 (size_of entries)) as Hl.
  { unfold size_of. rewrite Hp, length_map_to_list. done. }
  assert (bytes_ok (sized_list entry_Serialize entries)) as Hb.
  { unfold sized_list. apply Forall_app. split; [auto with siliqua|].
    eapply concat_ok; [|exact Hf]. intros [o t] [Ho Ht]. apply Forall_app. auto using COutPoint_ser_ok, CTxOut_ser_ok. }
  split_and!; [done | done |]. unfold read_from.
  assert (fold_left (fun utxos e => emplace utxos (fst e) (snd e)) entries (∅ : UtxoSet) = m) as Hm.
  { assert (NoDup entries.*1) as Hn by (rewrite Hp; apply NoDup_fst_map_to_list).
    rewrite emplace_entries; [|done | intros k _; apply lookup_empty].
    rewrite (right_id_L ∅ (∪)). rewrite (list_to_map_proper _ _ Hn Hp). apply list_to_map_to_list. }
  rewrite (proj2 (parses_sized_list _ _ _ _ _ entry_parses
    (fun l => parses_ret (fold_left (fun utxos e => emplace utxos (fst e) (snd e)) l (∅ : UtxoSet)))
    (sized_list entry_Serialize entries) O m (length (sized_list entry_Serialize entries)) Hb ltac:(lia))); [done|].
  exists (sized_list entry_Serialize entries). split; [|by apply reads_all].
  exists entries, []. rewrite app_nil_r. auto.
Qed.
End StorageFacts.

(** ** Theorems *)

Section StorageTheorems.
Context `{HashFns}.

(** A path that can be opened both ways. *)
Definition accessible (path : bytes) (w : world) : Prop :=
  (path ∉ unwritable w) /\ (path ∉ unreadable w).
#[global] Instance accessible_dec path w : Decision (accessible path w).
Proof. unfold accessible. apply _. Defined.

(** [deserialize_chain] returns a chain exactly on the bytes that
    [serialize_chain] writes for it, followed by anything: the format is the same for
    the file and for the CHAIN message, and trailing bytes are ignored. *)
Theorem deserialize_chain_spec buffer chain :
  bytes_ok buffer ->
  deserialize_chain buffer = Ok chain <->
  chain_wf chain /\ exists rest, buffer = serialize_chain chain ++ rest.
Proof. apply deserialize_chain_Ok. Qed.

(** What is saved is what is loaded: for the chain, for the mempool, and for
    the UTXO set whatever the order in which the hash map was iterated.  Saving
    replaces the file's previous content and touches no other file. *)
Theorem saved_files_load chain mempool utxos entries path w :
  accessible path w ->
  chain_wf chain -> mempool_wf mempool -> utxo_wf utxos -> entries ≡ₚ map_to_list utxos ->
  (save_chain chain path;; load_chain path) w
    = (Ok chain, set_files (<[path := serialize_chain chain]> (files w)) w) /\
  fst ((save_mempool mempool path;; load_mempool path) w) = Ok mempool /\
  fst ((save_utxo_set entries path;; load_utxo_set path) w) = Ok utxos.
Proof.
  intros [Hw Hr] Hc Hm Hu Hp. split_and!.
  - unfold save_chain, load_chain, deserialize_chain. eapply write_read; [done | done | | exact Hc | |].
    + apply (counted_parses _ _ _ CBlock_parses).
    + rewrite <- serialize_chain_eq by apply Hc. by apply serialize_chain_ok.
    + apply serialize_chain_eq, Hc.
  - unfold save_mempool, load_mempool. erewrite write_read; [done | done | done | | exact Hm | |].
    + apply (counted_parses _ _ _ Transaction_parses).
    + destruct Hm as [Hm Hs]. unfold sized_list. apply Forall_app. split; [auto with siliqua|].
      eapply concat_ok; [|exact Hm]. intros tx [? _]. by apply Transaction_ser_ok.
    + apply write_counted, Hm.
  - destruct (load_utxo_entries entries utxos Hu Hp) as (Hb & Hs & Hl).
    unfold save_utxo_set, load_utxo_set. rewrite write_counted by done.
    rewrite (io_bind_eq _ _ _ _ _ (write_file_Ok _ _ _ Hw)).
    erewrite io_bind_eq; [|apply read_file_Ok; [done | apply lookup_insert_eq]].
    unfold lift. cbn [fst]. exact Hl.
Qed.

End StorageTheorems.

(** An empty file system. *)
Definition toy_world : world := mkWorld ∅ [] [] [1700000000; 1700000060] [] [] 3 ∅ [] [] [] true true false.
Definition leaf_block : CBlock := mkCBlock toy_header leaf_txs.
Definition leaf_utxos : UtxoSet :=
  {[ mkCOutPoint (replicate 32 1) 0 := mkCTxOut 5 [1]; mkCOutPoint (replicate 32 2) 7 := mkCTxOut 6 [] ]}.

#[local] Existing Instance toy_hashes.

Lemma leaf_block_wf : @CBlock_wf toy_hashes leaf_block.
Proof. apply (bool_decide_unpack _). vm_compute. reflexivity. Qed.

Lemma deserialize_chain_spec_witness :
  @deserialize_chain toy_hashes (serialize_chain [leaf_block] ++ [1; 2; 3]) = Ok [leaf_block].
Proof.
  refine (proj2 (@deserialize_chain_spec toy_hashes _ [leaf_block] _) _).
  - apply (bool_decide_unpack _). vm_compute. reflexivity.
  - split; [|by exists [1; 2; 3]].
    split; [apply Forall_singleton, leaf_block_wf | unfold in_u32, size_of; simpl; lia].
Defined.

Lemma saved_files_load_witness :
  fst ((save_chain [leaf_block] (str "chain.dat");;
        @load_chain toy_hashes (str "chain.dat")) toy_world) = Ok [leaf_block] /\
  fst ((save_utxo_set (rev (map_to_list leaf_utxos)) (str "chain.dat");;
        load_utxo_set (str "chain.dat")) toy_world) = Ok leaf_utxos.
Proof.
  destruct (@saved_files_load toy_hashes [leaf_block] leaf_txs leaf_utxos
              (rev (map_to_list leaf_utxos)) (str "chain.dat") toy_world) as (H1 & _ & H2).
  - apply (bool_decide_unpack _). vm_compute. reflexivity.
  - split; [apply Forall_singleton, leaf_block_wf | unfold in_u32, size_of; simpl; lia].
  - split; [exact (proj1 (proj2 leaf_block_wf)) | unfold in_u32, size_of; simpl; lia].
  - split; [apply (bool_decide_unpack _); vm_compute; reflexivity|].
    apply (bool_decide_unpack _). vm_compute. reflexivity.
  - symmetry. apply Permutation_rev.
  - split; [rewrite H1; reflexivity | exact H2].
Defined.
