(* ===== verification/Socket.v ===== *)
(** network/socket.h: listening, connecting, and the loops that send and receive an
    exact number of bytes over a stream that splits them at will. *)
From S2P Require Import Prelude.
From S2P Require Import World.

Definition INVALID_SOCK : Z := -1.

(** ** System calls (POSIX) *)

(** The outcome of the next call. *)
Definition next_outcome : io outcome := fun w =>
  match os w with
  | [] => (Ok Fails, w)
  | o :: l => (Ok o, set_os l w)
  end.

(** A new open descriptor for the stream [c]. *)
Definition open_fd (c : conn) : io Z := fun w =>
  (Ok (next_fd w), set_next_fd (next_fd w + 1) (set_sockets (<[next_fd w := c]> (sockets w)) w)).

Definition sys_socket : io Z :=
  o ← next_outcome;
  match o with Fails => mret (-1) | _ => open_fd conn_new end.
(** [bind] and [listen]: 0 for success. *)
Definition sys_call : io Z :=
  o ← next_outcome;
  mret (match o with Fails => -1 | _ => 0 end).
Definition sys_accept : io Z :=
  o ← next_outcome;
  match o with Connects c => open_fd c | _ => mret (-1) end.
Definition sys_connect (sock : Z) : io Z :=
  o ← next_outcome;
  match o with
  | Connects c => fun w => (Ok 0, set_sockets (<[sock := c]> (sockets w)) w)
  | _ => mret (-1)
  end.

(** The error of a [send] on a connection that is closed or reset: without MSG_NOSIGNAL,
    which the program does not use, it comes with the signal SIGPIPE, which the program
    does not handle either. *)
Definition EPIPE : Z := 32.

(** [send(sock, data, len, 0)] on a stream: at most what the next entry of [room] allows,
    everything when there is none; zero or less is an error, and [- EPIPE] a signal that
    ends the process. *)
Definition send (c : conn) (data : bytes) : result Z * conn :=
  match room c with
  | [] => (Ok (size_of data), mkConn (incoming c) (outgoing c ++ data) [] (idle c))
  | r :: room =>
      let c' := mkConn (incoming c) (outgoing c) room (idle c) in
      if decide (r = - EPIPE) then (Diverge, c')
      else if decide (r <= 0) then (Ok r, c')
      else
        let n := Z.min r (size_of data) in
        (Ok n, mkConn (incoming c) (outgoing c ++ take (Z.to_nat n) data) room (idle c))
  end.

(** [recv(sock, out, n, 0)]: part of the next chunk; 0 or -1 when the peer is gone.  On an
    idle connection it blocks, since no timeout is set. *)
Definition recv (c : conn) (n : nat) : result Z * bytes * conn :=
  match incoming c with
  | [] => (if idle c then Diverge else Ok (-1), [], c)
  | [] :: _ => (Ok 0, [], c)
  | chunk :: chunks =>
      let got := take n chunk in
      let chunks := match drop n chunk with [] => chunks | rest => rest :: chunks end in
      (Ok (size_of got), got, mkConn chunks (outgoing c) (room c) (idle c))
  end.

(** ** The functions of socket.h *)

Definition close_fd (sock : Z) (w : world) : world :=
  match sockets w !! sock with
  | None => w
  | Some c => set_closed ((sock, c) :: closed w) (set_sockets (delete sock (sockets w)) w)
  end.
Definition close_socket (sock : Z) : io unit := fun w => (Ok tt, close_fd sock w).

Definition create_listener (port : Z) : io Z :=
  sock ← sys_socket;
  if decide (sock = INVALID_SOCK) then throw runtime_error
  else
    bound ← sys_call;
    if decide (bound <> 0) then close_socket sock;; throw runtime_error
    else
      listening ← sys_call;
      if decide (listening <> 0) then close_socket sock;; throw runtime_error
      else mret sock.

Definition accept_connection (listener : Z) : io Z :=
  sock ← sys_accept;
  if decide (sock = INVALID_SOCK) then throw runtime_error else mret sock.

(** [inet_pton]: the operating system's address parser, a parameter. *)
Class Inet := inet_pton : bytes -> option Z.

Definition connect_to `{Inet} (host : bytes) (port : Z) : io Z :=
  sock ← sys_socket;
  if decide (sock = INVALID_SOCK) then throw runtime_error
  else
    match inet_pton host with
    | None => close_socket sock;; throw runtime_error
    | Some _ =>
        r ← sys_connect sock;
        if decide (r <> 0) then close_socket sock;; throw runtime_error
        else mret sock
    end.

(** The loop of [send_all]: [data] is what is left to send.  Each pass sends at least
    one byte, so as many passes as bytes are enough. *)
Fixpoint send_loop (fuel : nat) (c : conn) (data : bytes) : result bool * conn :=
  match data with
  | [] => (Ok true, c)
  | _ =>
      match fuel with
      | O => (Diverge, c)
      | S fuel =>
          match send c data with
          | (Ok chunk, c) =>
              if decide (chunk <= 0) then (Ok false, c)
              else send_loop fuel c (drop (Z.to_nat chunk) data)
          | (_, c) => (Diverge, c)
          end
      end
  end.
Definition send_all (c : conn) (data : bytes) : result bool * conn :=
  send_loop (length data) c data.

(** The loop of [recv_exact]: [out] has been received, [n] bytes are missing.  What was
    received before a failure stays in the buffer. *)
Fixpoint recv_loop (fuel : nat) (c : conn) (out : bytes) (n : nat) : result bool * bytes * conn :=
  match n with
  | O => (Ok true, out, c)
  | S _ =>
      match fuel with
      | O => (Diverge, out, c)
      | S fuel =>
          match recv c n with
          | (Ok chunk, got, c) =>
              if decide (chunk <= 0) then (Ok false, out, c)
              else recv_loop fuel c (out ++ got) (n - Z.to_nat chunk)
          | (_, _, c) => (Diverge, out, c)
          end
      end
  end.
Definition recv_exact (c : conn) (n : nat) : result bool * bytes * conn :=
  recv_loop n c [] n.

(** ** Lemmas *)

(** What a stream holds: the chunks up to the first empty one. *)
Fixpoint stream (chunks : list bytes) : bytes :=
  match chunks with
  | [] => []
  | [] :: _ => []
  | c :: chunks => c ++ stream chunks
  end.

(** No [send] finds the connection broken. *)
Definition no_sigpipe (c : conn) : Prop := Forall (fun r => r <> - EPIPE) (room c).
#[export] Instance no_sigpipe_dec c : Decision (no_sigpipe c).
Proof. unfold no_sigpipe. apply _. Defined.
(** Every [send] makes progress. *)
Definition flows (c : conn) : Prop := Forall (fun r => 0 < r) (room c).
Lemma flows_no_sigpipe c : flows c -> no_sigpipe c.
Proof. intros Hf. eapply Forall_impl; [exact Hf|]. cbn. unfold EPIPE. lia. Qed.

(** What a call of [send_loop] may answer, and leaves. *)
Record sending (c : conn) (data sent : bytes) (r : result bool) (c' : conn) : Prop := {
  se_outgoing : outgoing c' = outgoing c ++ sent;
  se_prefix : sent `prefix_of` data;
  se_incoming : incoming c' = incoming c;
  se_idle : idle c' = idle c;
  se_result : r = Diverge \/ exists ok, r = Ok ok;
  se_all : r = Ok true -> sent = data;
  se_flows : flows c -> r = Ok true /\ flows c';
  se_no_sigpipe : no_sigpipe c -> (exists ok, r = Ok ok) /\ no_sigpipe c';
}.

Lemma sending_nothing c data r c' :
  outgoing c' = outgoing c -> incoming c' = incoming c -> idle c' = idle c ->
  (data = [] /\ r = Ok true /\ room c' = room c \/
   exists k rm, k <= 0 /\ room c = k :: rm /\ room c' = rm /\ r = if decide (k = - EPIPE) then Diverge else Ok false) ->
  sending c data [] r c'.
Proof.
  intros Ho Hi Hid Hr. split; try done.
  - by rewrite Ho, app_nil_r.
  - apply prefix_nil.
  - destruct Hr as [(_ & -> & _)|(k & rm & _ & _ & _ & ->)]; [eauto | case_decide; eauto].
  - intros ->. destruct Hr as [(-> & _)|(k & rm & _ & _ & _ & E)]; [done | by case_decide].
  - unfold flows. destruct Hr as [(_ & -> & ->)|(k & rm & Hk & -> & _)]; [done|].
    intros Hf. apply Forall_cons in Hf as [Hf _]. lia.
  - unfold no_sigpipe. destruct Hr as [(_ & -> & ->)|(k & rm & Hk & -> & -> & ->)]; [eauto|].
    intros Hf. apply Forall_cons in Hf as [Hf ?]. rewrite decide_False by done. eauto.
Qed.

Lemma sending_more c data n c1 sent r c' :
  outgoing c1 = outgoing c ++ take n data -> incoming c1 = incoming c -> idle c1 = idle c ->
  (exists k, room c = k :: room c1) \/ (room c = [] /\ room c1 = []) ->
  sending c1 (drop n data) sent r c' -> sending c data (take n data ++ sent) r c'.
Proof.
  intros Ho Hi Hid Hr [E1 E2 E3 E4 E5 E6 E7 E8]. split.
  - by rewrite E1, Ho, <- app_assoc.
  - destruct E2 as [k Hk]. exists k. rewrite <- app_assoc, <- Hk. by rewrite take_drop.
  - by rewrite E3.
  - by rewrite E4.
  - done.
  - intros Ht. rewrite (E6 Ht). apply take_drop.
  - intros Hf. apply E7. unfold flows in *.
    destruct Hr as [[k E]|[E ->]]; [rewrite E in Hf; by apply Forall_cons in Hf as [_ ?] | done].
  - intros Hf. apply E8. unfold no_sigpipe in *.
    destruct Hr as [[k E]|[E ->]]; [rewrite E in Hf; by apply Forall_cons in Hf as [_ ?] | done].
Qed.

Lemma send_loop_spec fuel c data :
  (length data <= fuel)%nat ->
  exists sent r c', send_loop fuel c data = (r, c') /\ sending c data sent r c'.
Proof.
  revert c data. induction fuel as [|fuel IH]; intros c data Hf.
  - destruct data; [|simpl in Hf; lia]. exists [], (Ok true), c. split; [done|]. apply sending_nothing; auto.
  - destruct data as [|b data].
    { exists [], (Ok true), c. split; [done|]. apply sending_nothing; auto. }
    remember (b :: data) as d eqn:Ed.
    assert (send_loop (S fuel) c d = match send c d with
      | (Ok chunk, c) => if decide (chunk <= 0) then (Ok false, c) else send_loop fuel c (drop (Z.to_nat chunk) d)
      | (_, c) => (Diverge, c) end) as -> by (rewrite Ed; reflexivity).
    assert (0 < size_of d /\ length d = S (length data)) as [Hd Hl] by (subst d; unfold size_of; simpl; lia).
    unfold send. destruct (room c) as [|k rm] eqn:Er.
    + rewrite decide_False by lia.
      destruct (IH (mkConn (incoming c) (outgoing c ++ d) [] (idle c)) (drop (Z.to_nat (size_of d)) d))
        as (sent & r & c' & E & Hs); [rewrite length_drop; lia|].
      exists (take (Z.to_nat (size_of d)) d ++ sent), r, c'. split; [done|].
      refine (sending_more _ _ _ _ _ _ _ _ _ _ _ Hs); [|done | done | by right].
      cbn [outgoing]. unfold size_of. by rewrite Nat2Z.id, firstn_all.
    + destruct (decide (k = - EPIPE)) as [->|Hk].
      { eexists [], Diverge, _. split; [reflexivity|]. apply sending_nothing; try done. right.
        exists (- EPIPE), rm. split_and!; try done. }
      destruct (decide (k <= 0)) as [Hk0|Hk0].
      { rewrite decide_True by done. eexists [], (Ok false), _. split; [reflexivity|].
        apply sending_nothing; try done. right. exists k, rm. by rewrite decide_False. }
      set (n := Z.min k (size_of d)). assert (0 < n) as Hn by lia. rewrite decide_False by lia.
      destruct (IH (mkConn (incoming c) (outgoing c ++ take (Z.to_nat n) d) rm (idle c)) (drop (Z.to_nat n) d))
        as (sent & r & c' & E & Hs); [rewrite length_drop; lia|].
      exists (take (Z.to_nat n) d ++ sent), r, c'. split; [done|].
      refine (sending_more _ _ _ _ _ _ _ _ _ _ _ Hs); [done.. |]. left. by exists k.
Qed.

(** The receiver's stream ends in a closed connection. *)
Lemma recv_loop_spec fuel c out n :
  (n <= fuel)%nat ->
  if decide (n <= length (stream (incoming c)))%nat then
    exists c', recv_loop fuel c out n = (Ok true, out ++ take n (stream (incoming c)), c') /\
      stream (incoming c') = drop n (stream (incoming c)) /\
      outgoing c' = outgoing c /\ room c' = room c /\ idle c' = idle c
  else exists r out' c', recv_loop fuel c out n = (r, out', c') /\
      (r = Ok false \/ r = Diverge /\ idle c = true) /\
      outgoing c' = outgoing c /\ room c' = room c /\ idle c' = idle c.
Proof.
  revert c out n. induction fuel as [|fuel IH]; intros c out n Hf.
  - assert (n = O) as -> by lia. rewrite decide_True by lia. exists c. by rewrite take_0, app_nil_r.
  - destruct n as [|n].
    { rewrite decide_True by lia. exists c. by rewrite take_0, app_nil_r. }
    cbn [recv_loop]. unfold recv. destruct (incoming c) as [|[|b chunk] chunks] eqn:Ei.
    + rewrite decide_False by (simpl; lia). destruct (idle c) eqn:Eid.
      * eexists Diverge, _, _. split; [done|]. auto.
      * rewrite decide_True by lia. eexists (Ok false), _, _. split; [done|]. auto.
    + rewrite decide_False by (simpl; lia). rewrite decide_True by lia.
      eexists (Ok false), _, _. split; [done|]. auto.
    + set (ch := b :: chunk). set (got := take (S n) ch).
      assert (0 < length got)%nat as Hg by (unfold got, ch; simpl; lia).
      assert (length got <= S n)%nat as Hgn by (unfold got; rewrite length_take; lia).
      rewrite (decide_False (P := size_of got <= 0)) by (unfold size_of; lia).
      unfold size_of. rewrite Nat2Z.id.
      set (chunks' := match drop (S n) ch with [] => chunks | rest => rest :: chunks end).
      assert (stream (ch :: chunks) = got ++ stream chunks') as Es.
      { unfold chunks', got. transitivity (ch ++ stream chunks); [done|].
        rewrite <- (take_drop (S n) ch) at 1. rewrite <- app_assoc. f_equal.
        destruct (drop (S n) ch) eqn:Ed; done. }
      specialize (IH (mkConn chunks' (outgoing c) (room c) (idle c)) (out ++ got) (S n - length got)%nat ltac:(lia)).
      cbn [incoming outgoing room idle] in IH. rewrite Es, length_app.
      case_decide as Hd.
      * rewrite decide_True by lia. destruct IH as (c' & -> & Hs & Ho & Hr & Hid). exists c'.
        rewrite <- app_assoc. split_and!; [|by rewrite Hs, drop_app_ge by lia | done | done | done].
        by rewrite (take_app_ge got) by lia.
      * rewrite decide_False by lia. exact IH.
Qed.

(** Opening and closing the next descriptor leaves the table as it was. *)
Definition fresh_fd (w : world) : Prop := sockets w !! next_fd w = None /\ 0 <= next_fd w.

Lemma close_new_fd w w' c :
  fresh_fd w -> sockets w' = <[next_fd w := c]> (sockets w) ->
  sockets (close_fd (next_fd w) w') = sockets w.
Proof.
  intros [Hf _] Hs. unfold close_fd. rewrite Hs, lookup_insert_eq.
  cbn [sockets set_closed set_sockets]. by rewrite delete_insert_id.
Qed.

(** ** Theorems *)

(** [send_all] returns, unless the connection breaks under it and the process is killed.
    Whatever the connection does, it has sent
    nothing but a prefix of the data, all of it when the result is [true]; and the
    result is [true] when every [send] makes progress, however little. *)
Theorem send_all_correct c data :
  exists sent r c', send_all c data = (r, c') /\ outgoing c' = outgoing c ++ sent /\
    sent `prefix_of` data /\ (r = Ok true -> sent = data) /\
    (no_sigpipe c -> exists ok, r = Ok ok) /\ (flows c -> r = Ok true).
Proof.
  destruct (send_loop_spec (length data) c data (le_n _)) as (sent & r & c' & E & Hs).
  exists sent, r, c'. split; [exact E|]. destruct Hs. split_and!; try done; intros Hn; naive_solver.
Qed.

(** The result of [recv_exact] depends on the bytes of the
    stream only, not on how they were split: [true] with the next [n] bytes when the
    stream holds that many; otherwise [false], or the call blocks when the peer keeps the
    connection open. *)
Theorem recv_exact_correct c n :
  if decide (n <= length (stream (incoming c)))%nat then
    exists c', recv_exact c n = (Ok true, take n (stream (incoming c)), c') /\
      stream (incoming c') = drop n (stream (incoming c)) /\ outgoing c' = outgoing c
  else exists r out c', recv_exact c n = (r, out, c') /\ outgoing c' = outgoing c /\
      (r = Ok false \/ r = Diverge /\ idle c = true).
Proof.
  pose proof (recv_loop_spec n c [] n (le_n _)) as Hr. unfold recv_exact. case_decide.
  - destruct Hr as (c' & -> & Hs & Ho & _). by exists c'.
  - destruct Hr as (r & out & c' & -> & Hr & Ho & _). by exists r, out, c'.
Qed.

(** [create_listener] and [connect_to] either return a descriptor that is open
    and the only new one, or throw with the descriptor table as it was: no error path
    leaks a socket. *)
Theorem listen_connect_no_leak `{Inet} host port w (m : io Z) :
  fresh_fd w -> (m = create_listener port \/ m = connect_to host port) ->
  match m w with
  | (Ok sock, w') => sock = next_fd w /\ exists c, sockets w' = <[sock := c]> (sockets w)
  | (Throw _, w') => sockets w' = sockets w
  | _ => False
  end.
Proof.
  intros Hf Hm.
  assert (next_fd w <> INVALID_SOCK) as Hn by (destruct Hf; unfold INVALID_SOCK; lia).
  assert (forall w' c, sockets w' = <[next_fd w := c]> (sockets w) ->
            sockets (close_fd (next_fd w) w') = sockets w) as Hclose.
  { intros w' c. by apply close_new_fd. }
  destruct Hm as [-> | ->].
  - unfold create_listener, sys_socket, sys_call, next_outcome.
    unfold mbind, io_bind, mret, io_ret. destruct (os w) as [|[] os1] eqn:E1; try done;
      unfold open_fd; cbn -[decide close_fd]; rewrite ?decide_False by done;
      destruct os1 as [|[] os2]; cbn -[decide close_fd];
      repeat (case_decide; try done); cbn -[decide close_fd];
      unfold throw, lift; try (by eapply Hclose; reflexivity);
      destruct os2 as [|[] os3]; cbn -[decide close_fd];
      repeat (case_decide; try done); try (by eapply Hclose; reflexivity);
      (split; [done | by exists conn_new]).
  - unfold connect_to, sys_socket, sys_connect, next_outcome.
    unfold mbind, io_bind, mret, io_ret. destruct (os w) as [|[] os1] eqn:E1; try done;
      unfold open_fd; cbn -[decide close_fd]; rewrite ?decide_False by done;
      destruct (inet_pton host); unfold throw, lift; try (by eapply Hclose; reflexivity);
      destruct os1 as [|[] os2]; cbn -[decide close_fd];
      repeat (case_decide; try done); try (by eapply Hclose; reflexivity);
      (split; [done |]; eexists; apply insert_insert_eq).
Qed.

Definition world_os (o : list outcome) : world := mkWorld ∅ [] [] [] [] o 3 ∅ [] [] [] true true false.

Lemma listen_connect_no_leak_witness :
  sockets (snd (create_listener 9000 (world_os [Succeeds; Succeeds; Fails]))) = ∅ /\
  fst (@connect_to (fun _ => Some 0) (str "127.0.0.1") 9000 (world_os [Succeeds; Connects conn_new])) = Ok 3.
Proof.
  assert (forall o, fresh_fd (world_os o)) as Hf by (intros o; split; [reflexivity | discriminate]).
  split.
  - exact (@listen_connect_no_leak (fun _ => None) (str "") 9000 (world_os [Succeeds; Succeeds; Fails]) _
             (Hf _) (or_introl eq_refl)).
  - assert (fst (@connect_to (fun _ => Some 0) (str "127.0.0.1") 9000
              (world_os [Succeeds; Connects conn_new])) = Ok 3) as E by reflexivity.
    exact E.
Defined.
