(* ===== verification/Message.v ===== *)
(** network/message.h and network/peer.h: framing of messages on a stream, and the
    [Peer] objects that own a connected socket. *)
From S2P Require Import Prelude.
From S2P Require Import World.
From S2P Require Import Crypto.
From S2P Require Import Hashes.
From S2P Require Import Serializer.
From S2P Require Import Socket.

Definition MAGIC_BYTES : bytes := str "SILQ".
Definition COMMAND_SIZE : nat := 12.
Definition HEADER_SIZE : nat := 4 + COMMAND_SIZE + 4 + 4.
Definition MAX_PAYLOAD_SIZE : Z := 4 * 1024 * 1024.
Definition PROTOCOL_VERSION : Z := 1.

Module command.
Definition VERSION : bytes := str "version".
Definition VERACK : bytes := str "verack".
Definition INV : bytes := str "inv".
Definition GETDATA : bytes := str "getdata".
Definition BLOCK : bytes := str "block".
Definition TX : bytes := str "tx".
Definition GETBLOCKS : bytes := str "getblocks".
Definition CHAIN : bytes := str "chain".
End command.

Record Message := mkMessage {
  msg_command : bytes;
  msg_payload : bytes;
}.
Definition Message_default : Message := mkMessage [] [].
#[export] Instance Message_eq_dec : EqDecision Message.
Proof. solve_decision. Defined.

Definition build_version_payload : bytes := write_uint_32LE [] PROTOCOL_VERSION.

Section Message.
Context `{HashFns}.

(** The zero-padded command field ([memcpy] of at most [COMMAND_SIZE] bytes). *)
Definition command_field (cmd : bytes) : bytes :=
  take COMMAND_SIZE cmd ++ replicate (COMMAND_SIZE - length cmd) 0.

(** The buffer that [send_message] builds. *)
Definition message_buffer (cmd payload : bytes) : bytes :=
  let buffer := write_bytes [] MAGIC_BYTES in
  let buffer := write_bytes buffer (command_field cmd) in
  let buffer := write_uint_32LE buffer (u32 (size_of payload)) in
  let hash := hash_double_sha256 payload in
  let buffer := write_bytes buffer (take 4 hash) in
  buffer ++ payload.

Definition send_message (c : conn) (cmd payload : bytes) : result bool * conn :=
  send_all c (message_buffer cmd payload).

(** [raw_cmd.substr(0, raw_cmd.find('\0'))]. *)
Fixpoint until_zero (raw : bytes) : bytes :=
  match raw with
  | [] => []
  | b :: raw => if decide (b = 0) then [] else b :: until_zero raw
  end.

(** The rest of [receive_message] once the header has arrived: [out] keeps what was
    stored in it before a failure (after a failed receive, the payload has the bytes
    that arrived; no caller looks at it). *)
Definition receive_payload (c : conn) (header : bytes) (out : Message) : result bool * Message * conn :=
  match read_bytes 12 header 4%nat with
  | Ok (raw_cmd, offset) =>
      let cmd := until_zero raw_cmd in
      match read_uint_32LE header offset with
      | Ok (len, offset) =>
          if decide (len > MAX_PAYLOAD_SIZE) then (Ok false, mkMessage cmd (msg_payload out), c)
          else
            let checksum := slice header offset 4%nat in
            let '(ok, payload, c) := recv_exact c (Z.to_nat len) in
            match ok with
            | Ok true =>
                let hash := hash_double_sha256 payload in
                if decide (checksum = take 4 hash) then (Ok true, mkMessage cmd payload, c)
                else (Ok false, mkMessage cmd payload, c)
            | r => (r, mkMessage cmd payload, c)
            end
      | Throw e => (Throw e, mkMessage cmd (msg_payload out), c)
      | _ => (Ub, mkMessage cmd (msg_payload out), c)
      end
  | Throw e => (Throw e, out, c)
  | _ => (Ub, out, c)
  end.

Definition receive_message (c : conn) (out : Message) : result bool * Message * conn :=
  let '(ok, header, c) := recv_exact c HEADER_SIZE in
  match ok with
  | Ok true =>
      if decide (take 4 header <> MAGIC_BYTES) then (Ok false, out, c)
      else receive_payload c header out
  | r => (r, out, c)
  end.

(** ** Peers *)

(** [send] and [recv] on a descriptor that is not open fail.  A [send] that does not
    return has been ended by SIGPIPE. *)
Definition Peer_Send (sock : Z) (cmd payload : bytes) : io bool := fun w =>
  match sockets w !! sock with
  | None => (Ok false, w)
  | Some c =>
      let '(r, c) := send_message c cmd payload in
      let w := set_sockets (<[sock := c]> (sockets w)) w in
      match r with Diverge => kill_process w | _ => (r, w) end
  end.

Definition Peer_Receive (sock : Z) (out : Message) : io (bool * Message) := fun w =>
  match sockets w !! sock with
  | None => (Ok (false, out), w)
  | Some c =>
      let '(r, msg, c) := receive_message c out in
      (ok ← r; Ok (ok, msg), set_sockets (<[sock := c]> (sockets w)) w)
  end.

(** A scope that owns a [Peer]: its destructor closes the socket. *)
Definition with_peer {A} (sock : Z) (body : io A) : io A := finally body (close_fd sock).

End Message.

(** ** Lemmas *)

Section MessageFacts.
Context `{HashLaws}.

Lemma command_field_length cmd : length (command_field cmd) = COMMAND_SIZE.
Proof. unfold command_field, COMMAND_SIZE. rewrite length_app, length_take, length_replicate. lia. Qed.

Lemma until_zero_field cmd :
  (length cmd <= COMMAND_SIZE)%nat -> Forall (fun b => b <> 0) cmd ->
  until_zero (command_field cmd) = cmd.
Proof.
  intros Hl Hz. unfold command_field. rewrite take_ge by done.
  generalize (COMMAND_SIZE - length cmd)%nat as k. intros k. clear Hl.
  induction Hz as [|b cmd Hb _ IH]; simpl; [by destruct k|].
  rewrite decide_False by done. by rewrite IH.
Qed.

(** The four parts of a header, and the payload. *)
Lemma message_buffer_eq cmd payload :
  in_u32 (size_of payload) ->
  message_buffer cmd payload =
    (MAGIC_BYTES ++ command_field cmd ++ le_bytes 4 (size_of payload)
     ++ take 4 (hash_double_sha256 payload)) ++ payload.
Proof.
  intros Hs. unfold message_buffer, write_bytes. rewrite u32_id, write_uint_32LE_le by done.
  by rewrite <- !app_assoc.
Qed.

Lemma hash4_length m : length (take 4 (hash_double_sha256 m)) = 4%nat.
Proof. rewrite length_take. unfold hash_double_sha256. rewrite sha256_length. lia. Qed.

(** What [receive_payload] does with a header of the right shape. *)
Lemma receive_payload_eq c field len checksum out :
  length field = 12%nat -> bytes_ok field -> in_u32 len -> length checksum = 4%nat ->
  bytes_ok checksum ->
  receive_payload c (MAGIC_BYTES ++ field ++ le_bytes 4 len ++ checksum) out =
  if decide (len > MAX_PAYLOAD_SIZE) then (Ok false, mkMessage (until_zero field) (msg_payload out), c)
  else
    let '(ok, payload, c) := recv_exact c (Z.to_nat len) in
    match ok with
    | Ok true =>
        if decide (checksum = take 4 (hash_double_sha256 payload))
        then (Ok true, mkMessage (until_zero field) payload, c)
        else (Ok false, mkMessage (until_zero field) payload, c)
    | r => (r, mkMessage (until_zero field) payload, c)
    end.
Proof.
  intros Hf Hbf Hl Hc Hbc. unfold receive_payload.
  set (header := MAGIC_BYTES ++ field ++ le_bytes 4 len ++ checksum).
  assert (bytes_ok header) as Hb.
  { unfold header. rewrite !Forall_app. split_and!; auto with siliqua.
    apply (bool_decide_unpack _). reflexivity. }
  assert (length header = 24%nat) as Hlen.
  { unfold header. rewrite !length_app, length_le_bytes, Hf, Hc. reflexivity. }
  assert (forall pre bs post off off', header = pre ++ bs ++ post -> off = length pre ->
            off' = (off + length bs)%nat -> reads header off bs off') as Hmid.
  { intros pre bs post off off' -> -> ->. apply reads_at. }
  assert (read_bytes 12 header 4%nat = Ok (field, 16%nat)) as ->.
  { apply (parses_bytes 12 ltac:(lia)); [done | lia |]. exists field.
    split; [unfold size_of; rewrite Hf; done|]. eapply Hmid; [done | done | by rewrite Hf]. }
  assert (read_uint_32LE header 16%nat = Ok (len, 20%nat)) as ->.
  { apply parses_u32; [done | lia |]. exists (le_bytes 4 len). split; [done|].
    eapply (Hmid (MAGIC_BYTES ++ field)); [by rewrite <- app_assoc | by rewrite length_app, Hf
                                          | by rewrite length_le_bytes]. }
  assert (slice header 20%nat 4%nat = checksum) as ->; [|done].
  assert (reads header 20 checksum 24) as Hr.
  { eapply (Hmid (MAGIC_BYTES ++ field ++ le_bytes 4 len) _ []); [by rewrite app_nil_r, <- !app_assoc | |].
    - by rewrite !length_app, Hf, length_le_bytes.
    - by rewrite Hc. }
  apply reads_slice in Hr as (_ & _ & Hr). by rewrite Hc in Hr.
Qed.

(** Every 24-byte header with the magic bytes has four parts. *)
Lemma header_parts header :
  length header = HEADER_SIZE -> bytes_ok header -> take 4 header = MAGIC_BYTES ->
  exists field len ck, header = MAGIC_BYTES ++ field ++ le_bytes 4 len ++ ck /\
    length field = 12%nat /\ bytes_ok field /\ in_u32 len /\ length ck = 4%nat /\ bytes_ok ck.
Proof.
  intros Hl Hb Hm. unfold HEADER_SIZE, COMMAND_SIZE in Hl.
  set (lenb := take 4 (drop 16 header)).
  assert (length lenb = 4%nat) as Hlb by (unfold lenb; rewrite length_take, length_drop; lia).
  assert (bytes_ok lenb) as Hbl by (unfold lenb; by apply Forall_take, Forall_drop).
  pose proof (le_bytes_value lenb Hbl) as Hr. rewrite Hlb in Hr.
  pose proof (le_value_range lenb Hbl) as Hu. rewrite Hlb in Hu.
  exists (take 12 (drop 4 header)), (le_value lenb), (drop 20 header). rewrite Hr. split.
  - rewrite <- Hm. rewrite <- (take_drop 4 header) at 1. f_equal.
    rewrite <- (take_drop 12 (drop 4 header)) at 1. f_equal. rewrite drop_drop.
    rewrite <- (take_drop 4 (drop 16 header)) at 1. f_equal. by rewrite drop_drop.
  - rewrite length_take, !length_drop. split_and!; try lia; try done.
    + by apply Forall_take, Forall_drop.
    + by apply Forall_drop.
Qed.
(** A message that was sent, at the start of the stream, is received. *)
Lemma receive_frame cmd payload c rest out :
  (length cmd <= COMMAND_SIZE)%nat -> Forall (fun b => b <> 0) cmd -> bytes_ok cmd ->
  size_of payload <= MAX_PAYLOAD_SIZE ->
  stream (incoming c) = message_buffer cmd payload ++ rest ->
  exists c', receive_message c out = (Ok true, mkMessage cmd payload, c') /\
    stream (incoming c') = rest /\ outgoing c' = outgoing c /\ room c' = room c /\ idle c' = idle c.
Proof.
  intros Hl Hz Hb Hp Hs.
  assert (in_u32 (size_of payload)) as Hu.
  { unfold in_u32, MAX_PAYLOAD_SIZE, size_of in *. lia. }
  rewrite message_buffer_eq in Hs by done. rewrite <- app_assoc in Hs.
  set (header := MAGIC_BYTES ++ command_field cmd ++ _) in Hs.
  assert (length header = HEADER_SIZE) as Hh.
  { unfold header. rewrite !length_app, command_field_length, length_le_bytes, hash4_length. reflexivity. }
  unfold receive_message.
  pose proof (recv_loop_spec HEADER_SIZE c [] HEADER_SIZE (le_n _)) as Hr. fold (recv_exact c HEADER_SIZE) in Hr.
  rewrite Hs, length_app, Hh, decide_True in Hr by lia.
  destruct Hr as (c1 & -> & Hs1 & Ho1 & Hrm1 & Hid1). rewrite app_nil_l, take_app_length' by done.
  rewrite drop_app_length' in Hs1 by done. rewrite decide_False by (intros Hn; by apply Hn). unfold header.
  rewrite receive_payload_eq.
  - rewrite decide_False by lia. unfold size_of. rewrite Nat2Z.id.
    pose proof (recv_loop_spec (length payload) c1 [] (length payload) (le_n _)) as Hr.
    fold (recv_exact c1 (length payload)) in Hr.
    rewrite Hs1, length_app, decide_True in Hr by lia. destruct Hr as (c2 & -> & Hs2 & Ho2 & Hrm2 & Hid2).
    rewrite app_nil_l, take_app_length. rewrite drop_app_length in Hs2.
    rewrite decide_True by done. exists c2. rewrite until_zero_field by done.
    split_and!; [done | done | by rewrite Ho2 | by rewrite Hrm2 | by rewrite Hid2].
  - apply command_field_length.
  - unfold command_field. apply Forall_app. split; [by apply Forall_take | by apply Forall_replicate].
  - done.
  - apply hash4_length.
  - apply Forall_take, sha256_ok.
Qed.

(** The bytes [used] are one acceptable message, [msg]. *)
Definition message_bytes (msg : Message) (used : bytes) : Prop :=
  exists field, length field = COMMAND_SIZE /\ msg_command msg = until_zero field /\
    size_of (msg_payload msg) <= MAX_PAYLOAD_SIZE /\
    used = MAGIC_BYTES ++ field ++ le_bytes 4 (size_of (msg_payload msg))
           ++ take 4 (hash_double_sha256 (msg_payload msg)) ++ msg_payload msg.

Lemma receive_message_spec c out :
  bytes_ok (stream (incoming c)) ->
  exists r msg c', receive_message c out = (r, msg, c') /\ outgoing c' = outgoing c /\ room c' = room c /\
    idle c' = idle c /\ ((exists ok, r = Ok ok) \/ r = Diverge /\ idle c = true) /\
    (r = Ok true -> exists used, message_bytes msg used /\
       stream (incoming c) = used ++ stream (incoming c')).
Proof.
  intros Hb. unfold receive_message.
  pose proof (recv_loop_spec HEADER_SIZE c [] HEADER_SIZE (le_n _)) as Hr. fold (recv_exact c HEADER_SIZE) in Hr.
  case_decide as Hlen.
  2: { destruct Hr as (r & o & c' & -> & [->|[-> Hid]] & Ho & Hrm & Hid'); [eexists (Ok false), _, _ | eexists Diverge, _, _];
       split_and!; try done; eauto. }
  destruct Hr as (c1 & -> & Hs1 & Ho1 & Hrm1 & Hid1). rewrite app_nil_l.
  set (s := stream (incoming c)) in *. set (header := take HEADER_SIZE s) in *.
  case_decide as Hm; [eexists (Ok false), _, _; split_and!; try done; eauto|].
  destruct (header_parts header) as (field & len & ck & Eh & Hf & Hbf & Hl & Hc & Hbc).
  { unfold header. rewrite length_take. lia. }
  { by apply Forall_take. }
  { done. }
  rewrite Eh, receive_payload_eq by done.
  case_decide as Hmax; [eexists (Ok false), _, _; split_and!; try done; eauto|].
  pose proof (recv_loop_spec (Z.to_nat len) c1 [] (Z.to_nat len) (le_n _)) as Hr2.
  fold (recv_exact c1 (Z.to_nat len)) in Hr2. rewrite Ho1, Hrm1, Hid1 in Hr2. case_decide as Hlen2.
  2: { destruct Hr2 as (r & o & c' & -> & [->|[-> Hid]] & Ho & Hrm & Hid');
         [eexists (Ok false), _, _ | eexists Diverge, _, _]; split_and!; try done; eauto. }
  destruct Hr2 as (c2 & -> & Hs2 & Ho2 & Hrm2 & Hid2). rewrite app_nil_l.
  set (payload := take (Z.to_nat len) (stream (incoming c1))) in *.
  case_decide as Hck; [|eexists (Ok false), _, _; split_and!; try done; eauto].
  eexists (Ok true), _, _. split; [done|]. split_and!; try done; [by eauto|]. intros _.
  assert (size_of payload = len) as Ep.
  { unfold size_of, payload. rewrite length_take. unfold in_u32 in Hl. lia. }
  exists (header ++ payload). split.
  - exists field. cbn [msg_command msg_payload]. split_and!; [done | done | lia |].
    rewrite Ep, <- Hck, Eh. by rewrite <- !app_assoc.
  - rewrite <- app_assoc, Hs2. unfold payload. rewrite take_drop, Hs1. unfold header. by rewrite take_drop.
Qed.

Lemma message_bytes_length msg used : message_bytes msg used -> (24 <= length used)%nat.
Proof.
  intros (field & Hf & _ & _ & ->). rewrite !length_app, length_le_bytes, hash4_length, Hf.
  unfold COMMAND_SIZE. simpl (length MAGIC_BYTES). lia.
Qed.
End MessageFacts.

(** ** Theorems *)

Section MessageTheorems.
Context `{HashLaws}.

(** C26.  A message that is sent is the message that is received: for a command
    name of at most 12 non-zero bytes and a payload of at most 4 MiB, the receiver of
    a stream that starts with the sender's bytes, however it is split into chunks,
    gets the command and the payload and is left with the rest of the stream. *)
Theorem message_roundtrip cmd payload c rest out :
  (length cmd <= COMMAND_SIZE)%nat -> Forall (fun b => b <> 0) cmd -> bytes_ok cmd ->
  size_of payload <= MAX_PAYLOAD_SIZE ->
  stream (incoming c) = message_buffer cmd payload ++ rest ->
  exists c', receive_message c out = (Ok true, mkMessage cmd payload, c') /\
    stream (incoming c') = rest /\ outgoing c' = outgoing c.
Proof.
  intros Hl Hz Hb Hp Hs. destruct (receive_frame cmd payload c rest out Hl Hz Hb Hp Hs) as (c' & E & Hr & Ho & _).
  by exists c'.
Qed.

(** C27.  Receiving returns, without an exception, unless the peer keeps the connection open
    and sends less than a message, on which the call blocks.  A message is accepted
    only if the stream held exactly: the magic bytes, a 12-byte field that starts with
    the command, the payload's length (at most 4 MiB), the first four bytes of its
    double SHA-256, and the payload. *)
Theorem receive_message_sound c out :
  bytes_ok (stream (incoming c)) ->
  exists r msg c', receive_message c out = (r, msg, c') /\ outgoing c' = outgoing c /\
    ((exists ok, r = Ok ok) \/ r = Diverge /\ idle c = true) /\
    (r = Ok true -> exists used, message_bytes msg used /\
       stream (incoming c) = used ++ stream (incoming c')).
Proof.
  intros Hb. destruct (receive_message_spec c out Hb) as (r & msg & c' & E & Ho & _ & _ & Hr & Hok).
  by exists r, msg, c'.
Qed.
End MessageTheorems.

(** A connection on which the peer has sent [bs], cut after 10 bytes. *)
Definition toy_conn (bs : bytes) : conn := mkConn [take 10 bs; drop 10 bs] [] [3] false.

#[local] Existing Instance toy_hashes.

Lemma message_roundtrip_witness :
  let c := toy_conn (@message_buffer toy_hashes command.TX [1; 2; 3] ++ [9; 9]) in
  exists c', @receive_message toy_hashes c Message_default = (Ok true, mkMessage command.TX [1; 2; 3], c') /\
    stream (incoming c') = [9; 9].
Proof.
  intros c.
  destruct (@message_roundtrip toy_hashes toy_hash_laws command.TX [1; 2; 3] c [9; 9] Message_default)
    as (c' & E & Hs & _).
  - vm_compute. lia.
  - apply (bool_decide_unpack _). vm_compute. reflexivity.
  - apply (bool_decide_unpack _). vm_compute. reflexivity.
  - discriminate.
  - vm_compute. reflexivity.
  - exists c'. split; [exact E | exact Hs].
Defined.

Lemma receive_message_sound_witness :
  let c := toy_conn (@message_buffer toy_hashes command.TX [1; 2; 3] ++ [9; 9]) in
  exists ok msg c', @receive_message toy_hashes c Message_default = (Ok ok, msg, c') /\ outgoing c' = [].
Proof.
  intros c.
  destruct (@receive_message_sound toy_hashes c Message_default) as (r & msg & c' & E & Ho & Hr & _).
  - apply (bool_decide_unpack _). vm_compute. reflexivity.
  - destruct Hr as [[ok ->]|[_ Hid]]; [|discriminate Hid].
    exists ok, msg, c'. split; [exact E | exact Ho].
Defined.

Section Oversize.
Context `{HashLaws}.

(** The sender does not check the size limit the receiver enforces: a
    payload above 4 MiB (a long chain in a CHAIN message) is framed and sent, and every
    receiver rejects it. *)
Theorem oversized_message_rejected cmd payload c rest out :
  bytes_ok cmd -> MAX_PAYLOAD_SIZE < size_of payload < 2 ^ 32 ->
  stream (incoming c) = message_buffer cmd payload ++ rest ->
  exists c', receive_message c out = (Ok false, mkMessage (until_zero (command_field cmd)) (msg_payload out), c').
Proof.
  intros Hb Hp Hs.
  assert (in_u32 (size_of payload)) as Hu by (unfold in_u32, MAX_PAYLOAD_SIZE in *; lia).
  rewrite message_buffer_eq in Hs by done. rewrite <- app_assoc in Hs.
  set (header := MAGIC_BYTES ++ command_field cmd ++ _) in Hs.
  assert (length header = HEADER_SIZE) as Hh.
  { unfold header. rewrite !length_app, command_field_length, length_le_bytes, hash4_length. reflexivity. }
  unfold receive_message.
  pose proof (recv_loop_spec HEADER_SIZE c [] HEADER_SIZE (le_n _)) as Hr. fold (recv_exact c HEADER_SIZE) in Hr.
  rewrite Hs, length_app, Hh, decide_True in Hr by lia.
  destruct Hr as (c1 & -> & _ & _). rewrite app_nil_l, take_app_length' by done.
  rewrite decide_False by (intros Hn; by apply Hn). unfold header.
  rewrite receive_payload_eq.
  - rewrite decide_True by lia. by exists c1.
  - apply command_field_length.
  - unfold command_field. apply Forall_app. split; [by apply Forall_take | by apply Forall_replicate].
  - done.
  - apply hash4_length.
  - apply Forall_take, sha256_ok.
Qed.
End Oversize.

Lemma stream_single bs : stream [bs] = bs.
Proof. destruct bs; [done|]. cbn [stream]. by rewrite app_nil_r. Qed.

Lemma oversized_message_rejected_witness :
  let payload := replicate (Z.to_nat 4194305) 0 in
  let c := mkConn [@message_buffer toy_hashes command.CHAIN payload] [] [] false in
  exists cmd c', @receive_message toy_hashes c Message_default = (Ok false, mkMessage cmd [], c').
Proof.
  intros payload c.
  destruct (@oversized_message_rejected toy_hashes toy_hash_laws command.CHAIN payload c [] Message_default)
    as [c' E].
  - apply (bool_decide_unpack _). vm_compute. reflexivity.
  - unfold payload, size_of, MAX_PAYLOAD_SIZE. rewrite length_replicate, Z2Nat.id by lia. lia.
  - rewrite app_nil_r. apply stream_single.
  - eexists _, c'. exact E.
Defined.
