(* ===== verification/Node.v ===== *)
(** network/node.h, the part that talks to files and peers: loading a node's state and
    the four one-shot commands (listen, connect, send a transaction, receive one). *)
From S2P Require Import Prelude.
From S2P Require Import World.
From S2P Require Import Crypto.
From S2P Require Import Ecdsa.
From S2P Require Import Base58.
From S2P Require Import Script.
From S2P Require Import Serializer.
From S2P Require Import Transaction.
From S2P Require Import Block.
From S2P Require Import Pow.
From S2P Require Import Wallet.
From S2P Require Import Chain.
From S2P Require Import Storage.
From S2P Require Import Socket.
From S2P Require Import Message.
From Stdlib Require Import Floats.SpecFloat.

(** The order in which [std::unordered_map] iterates over a UTXO set is not specified:
    a parameter, of which the proofs use only that it lists the entries. *)
Class UtxoOrder := utxo_order : UtxoSet -> list (COutPoint * CTxOut).
Class UtxoOrderLaws `{UtxoOrder} : Prop :=
  utxo_order_entries : forall m, utxo_order m ≡ₚ map_to_list m.

Definition wallet_file (chain_path : bytes) : bytes := chain_path ++ str ".wallet".
Definition mempool_file (chain_path : bytes) : bytes := chain_path ++ str ".mempool".

Section Node.
Context `{HashFns, Secp256k1, Inet, UtxoOrder}.
(** Attempts given to [mine_block], and rounds given to the loop that serves a peer. *)
Context (mine_fuel serve_fuel : nat).

(** ** State *)

Definition load_or_create_chain (chain_path reward_address : bytes) : io (list CBlock) :=
  try_catch (load_chain chain_path)
    (now ← time_now; lift (build_genesis_chain mine_fuel now reward_address)).

(** The default constructor of [Wallet] with the system's random bytes. *)
Definition new_wallet : io Wallet := rnd ← getrandom32; lift (Wallet_make rnd).

Definition load_or_create_wallet (wallet_path : bytes) : io Wallet :=
  try_catch
    (buffer ← read_file wallet_path;
     if decide (size_of buffer <> 32) then throw runtime_error
     else lift (Wallet_FromSeckey buffer))
    (w ← new_wallet;
     write_file wallet_path (seckey_ w);;
     mret w).

Definition load_mempool_or_empty (mempool_path : bytes) : io (list Transaction) :=
  try_catch (load_mempool mempool_path) (mret []).

(** [chain.back()]: undefined for an empty chain. *)
Definition back (chain : list CBlock) : io CBlock :=
  match last chain with None => lift Ub | Some tip => mret tip end.

(** [!peer.Receive(msg) || msg.command != cmd], negated. *)
Definition expect (sock : Z) (msg : Message) (cmd : bytes) : io (bool * Message) :=
  '(ok, msg) ← Peer_Receive sock msg;
  mret (ok && bool_decide (msg_command msg = cmd), msg).

(** ** Listening *)

(** [while (peer.Receive(msg))] of [run_listener]. *)
Fixpoint serve_loop (fuel : nat) (sock : Z) (new_block : CBlock) (chain : list CBlock)
    (msg : Message) : io unit :=
  match fuel with
  | O => lift Diverge
  | S fuel =>
      '(ok, msg) ← Peer_Receive sock msg;
      if negb ok then mret tt
      else if decide (msg_command msg = command.GETDATA) then
        Peer_Send sock command.BLOCK (CBlock_Serialize new_block);;
        serve_loop fuel sock new_block chain msg
      else if decide (msg_command msg = command.GETBLOCKS) then
        Peer_Send sock command.CHAIN (serialize_chain chain);;
        serve_loop fuel sock new_block chain msg
      else mret tt
  end.

(** The conversation of [run_listener] with the accepted peer. *)
Definition serve_peer (sock listener : Z) (new_block : CBlock) (chain : list CBlock) : io unit :=
  '(ok, msg) ← expect sock Message_default command.VERSION;
  if negb ok then close_socket listener
  else
    Peer_Send sock command.VERSION build_version_payload;;
    '(ok, msg) ← expect sock msg command.VERACK;
    if negb ok then close_socket listener
    else
      Peer_Send sock command.VERACK [];;
      Peer_Send sock command.INV (CBlock_GetHash new_block);;
      serve_loop serve_fuel sock new_block chain msg;;
      close_socket listener.

Definition run_listener (port : Z) (chain_path : bytes) : io unit :=
  my_wallet ← load_or_create_wallet (wallet_file chain_path);
  chain ← load_or_create_chain chain_path (address_ my_wallet);
  let utxo_set := build_utxo_set chain in
  mempool ← load_mempool_or_empty (mempool_file chain_path);
  '(extra_txs, total_fees) ← lift (select_mempool mempool utxo_set [] 0);
  tip ← back chain;
  now ← time_now;
  new_block ← lift (build_next_block mine_fuel now (extract_headers chain) (CBlock_GetHash tip)
                      (address_ my_wallet) total_fees extra_txs);
  let chain := chain ++ [new_block] in
  save_chain chain chain_path;;
  save_mempool [] (mempool_file chain_path);;
  listener ← create_listener port;
  client_sock ← accept_connection listener;
  with_peer client_sock (serve_peer client_sock listener new_block chain).

(** ** Connecting *)

(** The transaction loop of [run_connector]: [txs_ok] and the fees summed so far. *)
Fixpoint connector_txs (txs : list Transaction) (utxo_set : UtxoSet) (total_fees : Z)
    : result (bool * Z) :=
  match txs with
  | [] => Ok (true, total_fees)
  | tx :: txs =>
      if IsCoinbase tx then connector_txs txs utxo_set total_fees
      else
        fee ← validate_and_get_fee tx utxo_set;
        if decide (fee < 0) then Ok (false, total_fees)
        else
          total_fees ← add_i64 total_fees fee;
          connector_txs txs utxo_set total_fees
  end.

Definition connector_coinbase (vtx : list Transaction) (expected_height total_fees : Z) : result bool :=
  match vtx with
  | [] => Ok false
  | coinbase :: _ =>
      if negb (IsCoinbase coinbase) then Ok false
      else
        coinbase_paid ← sum_outputs (vout coinbase);
        expected ← add_i64 (calculate_block_reward expected_height) total_fees;
        Ok (bool_decide (coinbase_paid = expected))
  end.

(** After GETBLOCKS: the peer's chain against ours. *)
Definition connector_compare (chain peer_chain : list CBlock) (chain_path : bytes) : io unit :=
  same_genesis ← match peer_chain, chain with
                 | [], _ => mret false
                 | _ :: _, [] => lift Ub
                 | p :: _, c :: _ => mret (bool_decide (CBlock_GetHash p = CBlock_GetHash c))
                 end;
  peer_chain_valid ← (if same_genesis : bool then lift (validate_full_chain peer_chain) else mret false);
  let my_work := calculate_chain_work (extract_headers chain) in
  let peer_work := if peer_chain_valid : bool
                   then calculate_chain_work (extract_headers peer_chain) else S754_zero false in
  if peer_chain_valid && SFltb my_work peer_work then save_chain peer_chain chain_path
  else mret tt.

(** What [run_connector] does with the block it was sent. *)
Definition connector_block (sock : Z) (chain : list CBlock) (chain_path : bytes)
    (received_block : CBlock) (msg : Message) : io unit :=
  tip ← back chain;
  let my_tip_hash := CBlock_GetHash tip in
  expected_bits ← lift (get_next_work_required (extract_headers chain) RETARGET_INTERVAL
                          TARGET_TIMESPAN_SECONDS);
  let expected_height := u32 (size_of chain) in
  let utxo_set := build_utxo_set chain in
  let merkle_ok := IsMerkleRootValid received_block in
  let pow_ok := check_proof_of_work (block_header received_block) in
  let links_to_tip := bool_decide (hashPrevBlock (block_header received_block) = my_tip_hash) in
  let bits_ok := bool_decide (nBits (block_header received_block) = expected_bits) in
  '(txs_ok, total_fees) ← lift (connector_txs (vtx received_block) utxo_set 0);
  coinbase_ok ← lift (connector_coinbase (vtx received_block) expected_height total_fees);
  if merkle_ok && pow_ok && links_to_tip && bits_ok && txs_ok && coinbase_ok then
    save_chain (chain ++ [received_block]) chain_path
  else if merkle_ok && pow_ok && negb links_to_tip then
    Peer_Send sock command.GETBLOCKS [];;
    '(ok, msg) ← expect sock msg command.CHAIN;
    if negb ok then mret tt
    else
      peer_chain ← lift (deserialize_chain (msg_payload msg));
      connector_compare chain peer_chain chain_path
  else mret tt.

(** [std::vector<CBlock> chain; try { chain = load_chain(path); } catch ... return]. *)
Definition load_chain_opt (chain_path : bytes) : io (option (list CBlock)) :=
  try_catch (chain ← load_chain chain_path; mret (Some chain)) (mret None).

(** The handshake of the connecting side: [None] when the function returns early. *)
Definition connector_handshake (sock : Z) : io (option Message) :=
  Peer_Send sock command.VERSION build_version_payload;;
  '(ok, msg) ← expect sock Message_default command.VERSION;
  if negb ok then mret None
  else
    Peer_Send sock command.VERACK [];;
    '(ok, msg) ← expect sock msg command.VERACK;
    mret (if negb ok then None else Some msg).

(** The conversation up to the BLOCK message: the block, unless the function returns
    early.  [run_connector] and [PollPeer] both start with it. *)
Definition fetch_tip (sock : Z) : io (option (CBlock * Message)) :=
  hs ← connector_handshake sock;
  match hs with
  | None => mret None
  | Some msg =>
      '(ok, msg) ← expect sock msg command.INV;
      if negb ok then mret None
      else
        Peer_Send sock command.GETDATA (msg_payload msg);;
        '(ok, msg) ← expect sock msg command.BLOCK;
        if negb ok then mret None
        else
          received_block ← lift (read_from CBlock_Deserialize (msg_payload msg));
          mret (Some (received_block, msg))
  end.

(** The conversation of [run_connector] once it is connected. *)
Definition connector_talk (sock : Z) (chain : list CBlock) (chain_path : bytes) : io unit :=
  fetched ← fetch_tip sock;
  match fetched with
  | None => mret tt
  | Some (received_block, msg) => connector_block sock chain chain_path received_block msg
  end.

Definition run_connector (host : bytes) (port : Z) (chain_path : bytes) : io unit :=
  loaded ← load_chain_opt chain_path;
  match loaded with
  | None => mret tt
  | Some chain =>
      sock ← connect_to host port;
      with_peer sock (connector_talk sock chain chain_path)
  end.

(** ** Transactions *)

(** [try { tx = CreateTransaction(...); } catch ... return]. *)
Definition try_result {A} (r : result A) : result (option A) :=
  match r with
  | Ok a => Ok (Some a)
  | Throw _ => Ok None
  | Ub => Ub
  | Diverge => Diverge
  end.

Definition run_send_tx (host : bytes) (port : Z) (chain_path recipient_address : bytes)
    (amount : Z) : io unit :=
  my_wallet ← load_or_create_wallet (wallet_file chain_path);
  loaded ← load_chain_opt chain_path;
  match loaded with
  | None => mret tt
  | Some chain =>
      let my_utxos := filter_utxos_by_address (build_utxo_set chain) (address_ my_wallet) in
      created ← lift (try_result (CreateTransaction my_wallet (utxo_order my_utxos)
                                    recipient_address amount DEFAULT_FEE));
      match created with
      | None => mret tt
      | Some tx =>
          sock ← connect_to host port;
          with_peer sock (
            hs ← connector_handshake sock;
            match hs with
            | None => mret tt
            | Some _ => Peer_Send sock command.TX (Transaction_Serialize tx);; mret tt
            end)
      end
  end.

(** The acceptance rule for a received transaction, shared with the daemon. *)
Definition tx_fee (tx : Transaction) (utxo_set : UtxoSet) : result Z :=
  if IsCoinbase tx then Ok (-1) else validate_and_get_fee tx utxo_set.

(** The mempool update of [run_receive_tx]. *)
Definition store_received (tx : Transaction) (fee : Z) (chain_path : bytes) : io unit :=
  let valid := bool_decide (fee >= 0) in
  mempool ← load_mempool_or_empty (mempool_file chain_path);
  if valid && bool_decide (size_of mempool >= MAX_MEMPOOL_SIZE) then mret tt
  else if valid then save_mempool (mempool ++ [tx]) (mempool_file chain_path)
  else mret tt.

Definition receive_peer (sock listener : Z) (utxo_set : UtxoSet) (chain_path : bytes) : io unit :=
  '(ok, msg) ← expect sock Message_default command.VERSION;
  if negb ok then close_socket listener
  else
    Peer_Send sock command.VERSION build_version_payload;;
    '(ok, msg) ← expect sock msg command.VERACK;
    if negb ok then close_socket listener
    else
      Peer_Send sock command.VERACK [];;
      '(ok, msg) ← expect sock msg command.TX;
      if negb ok then close_socket listener
      else
        tx ← lift (read_from Transaction_Deserialize (msg_payload msg));
        fee ← lift (tx_fee tx utxo_set);
        store_received tx fee chain_path;;
        close_socket listener.

Definition run_receive_tx (port : Z) (chain_path : bytes) : io unit :=
  loaded ← load_chain_opt chain_path;
  match loaded with
  | None => mret tt
  | Some chain =>
      let utxo_set := build_utxo_set chain in
      listener ← create_listener port;
      client_sock ← accept_connection listener;
      with_peer client_sock (receive_peer client_sock listener utxo_set chain_path)
  end.

End Node.
