(* ===== verification/Protocol.v ===== *)
(** What the one-shot commands of network/node.h guarantee about a node's files, for
    every behaviour of the network and of the peer; payments between nodes; the
    conversation of a connecting node with a listening one. *)
From S2P Require Import Prelude.
From S2P Require Import World.
From S2P Require Import Crypto.
From S2P Require Import Hashes.
From S2P Require Import Ecdsa.
From S2P Require Import Base58.
From S2P Require Import Script.
From S2P Require Import Serializer.
From S2P Require Import Transaction.
From S2P Require Import Block.
From S2P Require Import Pow.
From S2P Require Import Wallet.
From S2P Require Import Chain.
From S2P Require Import Validation.
From S2P Require Import Storage.
From S2P Require Import Socket.
From S2P Require Import Message.
From S2P Require Import Node.
From Stdlib Require Import Floats.SpecFloat.

(** ** Lemmas: what changes files and what does not *)

(** Like [preserves], for a relation that only one part of the code establishes. *)
Lemma kept_then {A B} (R : world -> world -> Prop) (m : io A) (k : A -> io B) :
  (forall a b c, kept a b -> R b c -> R a c) -> (forall w w', kept w w' -> R w w') ->
  preserves kept m -> (forall a, preserves R (k a)) -> preserves R (m ≫= k).
Proof.
  intros Ht Hr Hm Hk w. unfold mbind, io_bind. specialize (Hm w).
  destruct (m w) as [[a| | |] w1]; simpl in *; [|by apply Hr..]. eapply Ht; [exact Hm | apply Hk].
Qed.

Lemma then_kept {A B} (R : world -> world -> Prop) (m : io A) (k : A -> io B) :
  (forall a b c, R a b -> kept b c -> R a c) ->
  preserves R m -> (forall a, preserves kept (k a)) -> preserves R (m ≫= k).
Proof.
  intros Ht Hm Hk w. unfold mbind, io_bind. specialize (Hm w).
  destruct (m w) as [[a| | |] w1]; simpl in *; [|done..]. eapply Ht; [exact Hm | apply Hk].
Qed.

Lemma kept_ret {A} (a : A) : preserves kept (mret a).
Proof. by intros w. Qed.
Lemma kept_lift {A} (r : result A) : preserves kept (lift r).
Proof. by intros w. Qed.
Lemma kept_bind {A B} (m : io A) (k : A -> io B) :
  preserves kept m -> (forall a, preserves kept (k a)) -> preserves kept (m ≫= k).
Proof. apply preserves_bind, kept_trans. Qed.
Lemma kept_try {A} (m h : io A) : preserves kept m -> preserves kept h -> preserves kept (try_catch m h).
Proof. apply preserves_try, kept_trans. Qed.
Lemma kept_read path : preserves kept (read_file path).
Proof. intros w. unfold read_file. case_decide; [done|]. by destruct (files w !! path). Qed.
Lemma kept_close_fd sock w : kept w (close_fd sock w).
Proof. unfold close_fd. by destruct (sockets w !! sock). Qed.
Lemma kept_close sock : preserves kept (close_socket sock).
Proof. intros w. apply kept_close_fd. Qed.
Lemma kept_finally {A} (m : io A) sock : preserves kept m -> preserves kept (with_peer sock m).
Proof. intros Hm. apply preserves_finally; [apply kept_trans | done | intros w; apply kept_close_fd]. Qed.
Lemma kept_time : preserves kept time_now.
Proof. intros w. unfold time_now. by destruct (clock w). Qed.
Lemma kept_random : preserves kept getrandom32.
Proof. intros w. unfold getrandom32. by destruct (entropy w). Qed.
Lemma kept_outcome : preserves kept next_outcome.
Proof. intros w. unfold next_outcome. by destruct (os w). Qed.
Lemma kept_open c : preserves kept (open_fd c).
Proof. by intros w. Qed.

Create HintDb kept.
#[export] Hint Resolve kept_ret kept_lift kept_read kept_close kept_time kept_random
  kept_outcome kept_open : kept.

(** Follows the structure of a program whose steps write no file. *)
Ltac solve_kept :=
  repeat first
    [ solve [eauto with kept]
    | progress intros
    | apply kept_bind
    | apply kept_try
    | apply kept_finally
    | case_decide
    | match goal with
      | |- preserves kept (match ?x with _ => _ end) => destruct x
      | |- preserves kept (if ?x then _ else _) => destruct x
      end ].

Section Kept.
Context `{HashFns, Secp256k1, Inet, UtxoOrder}.

Lemma kept_send sock cmd payload : preserves kept (Peer_Send sock cmd payload).
Proof.
  intros w. unfold Peer_Send. destruct (sockets w !! sock); [|done].
  by destruct (send_message c cmd payload) as [[| | |] c'].
Qed.
Lemma kept_receive sock msg : preserves kept (Peer_Receive sock msg).
Proof.
  intros w. unfold Peer_Receive. destruct (sockets w !! sock); [|done].
  by destruct (receive_message c msg) as [[r m] c'].
Qed.
Lemma kept_sys_connect sock : preserves kept (sys_connect sock).
Proof. unfold sys_connect. apply kept_bind; [solve_kept|]. intros []; [solve_kept | solve_kept |]. by intros w. Qed.
#[local] Hint Resolve kept_send kept_receive kept_sys_connect : kept.

Lemma kept_connect host port : preserves kept (connect_to host port).
Proof. unfold connect_to, sys_socket, throw. solve_kept. Qed.
Lemma kept_listener port : preserves kept (create_listener port).
Proof. unfold create_listener, sys_socket, sys_call, throw. solve_kept. Qed.
Lemma kept_accept listener : preserves kept (accept_connection listener).
Proof. unfold accept_connection, sys_accept, throw. solve_kept. Qed.
Lemma kept_expect sock msg cmd : preserves kept (expect sock msg cmd).
Proof. unfold expect. solve_kept. Qed.
#[local] Hint Resolve kept_connect kept_listener kept_accept kept_expect : kept.
Lemma kept_handshake sock : preserves kept (connector_handshake sock).
Proof. unfold connector_handshake. solve_kept. Qed.
Lemma kept_fetch sock : preserves kept (fetch_tip sock).
Proof. pose proof kept_handshake. unfold fetch_tip. solve_kept. Qed.
Lemma kept_load_opt path : preserves kept (load_chain_opt path).
Proof. unfold load_chain_opt, load_chain. solve_kept. Qed.
Lemma kept_load_mempool path : preserves kept (load_mempool_or_empty path).
Proof. unfold load_mempool_or_empty, load_mempool. solve_kept. Qed.
Lemma kept_load_chain fuel path addr : preserves kept (load_or_create_chain fuel path addr).
Proof. unfold load_or_create_chain, load_chain. solve_kept. Qed.
Lemma kept_back chain : preserves kept (back chain).
Proof. unfold back. solve_kept. Qed.
#[local] Hint Resolve kept_handshake kept_load_opt kept_load_mempool kept_load_chain kept_back : kept.
Lemma kept_serve_loop fuel sock blk chain msg : preserves kept (serve_loop fuel sock blk chain msg).
Proof.
  revert msg. induction fuel as [|fuel IH]; intros msg; cbn [serve_loop]; [solve_kept|].
  apply kept_bind; [solve_kept|]. intros [[] m]; cbn [negb]; [|solve_kept].
  case_decide; [|case_decide]; [apply kept_bind.. |]; eauto with kept.
Qed.
Lemma kept_serve_peer fuel sock listener blk chain :
  preserves kept (serve_peer fuel sock listener blk chain).
Proof. unfold serve_peer. pose proof kept_serve_loop. solve_kept. Qed.

End Kept.
#[export] Hint Resolve kept_send kept_receive kept_connect kept_listener kept_accept kept_expect
  kept_handshake kept_fetch kept_load_opt kept_load_mempool kept_load_chain kept_back kept_serve_peer : kept.

(** ** The connecting node *)

Section Connector.
Context `{HashFns, Secp256k1, Inet, UtxoOrder}.

Lemma connector_txs_true txs m acc f :
  connector_txs txs m acc = Ok (true, f) <-> total_tx_fees txs m acc = Ok (Some f).
Proof.
  revert acc. induction txs as [|tx txs IH]; intros acc; cbn [connector_txs total_tx_fees].
  - split; by intros [= ->].
  - destruct (IsCoinbase tx); [apply IH|].
    destruct (validate_and_get_fee tx m) as [fee| | |]; cbn [mbind result_bind]; try done.
    case_decide; [done|]. destruct (add_i64 acc fee); cbn [mbind result_bind]; first [apply IH | done].
Qed.

Lemma connector_coinbase_true vtx height fees :
  connector_coinbase vtx height fees = Ok true <->
  exists cb rest, vtx = cb :: rest /\ IsCoinbase cb = true /\
    sum_outputs (vout cb) = add_i64 (calculate_block_reward height) fees /\
    is_ok (sum_outputs (vout cb)) = true.
Proof.
  unfold connector_coinbase. destruct vtx as [|cb rest].
  { split; [done | by intros (? & ? & ? & _)]. }
  split.
  - destruct (IsCoinbase cb) eqn:Hc; cbn [negb]; [|done]. intros Hb. inv_bind Hb. inv_bind Hb.
    injection Hb as Hb. apply bool_decide_eq_true in Hb as ->. exists cb, rest. by rewrite Ha, Ha0.
  - intros (cb' & rest' & [= <- <-] & -> & E & Hok). cbn [negb]. rewrite <- E.
    destruct (sum_outputs (vout cb)); try done. cbn [mbind result_bind]. by rewrite bool_decide_true.
Qed.

(** The checks of [run_connector] are those of [try_extend_chain]. *)
Definition connector_accepts (chain : list CBlock) (blk : CBlock) : Prop :=
  exists tip expected_bits fees,
    last chain = Some tip /\
    get_next_work_required (extract_headers chain) RETARGET_INTERVAL TARGET_TIMESPAN_SECONDS
      = Ok expected_bits /\
    IsMerkleRootValid blk = true /\ check_proof_of_work (block_header blk) = true /\
    hashPrevBlock (block_header blk) = CBlock_GetHash tip /\ nBits (block_header blk) = expected_bits /\
    connector_txs (vtx blk) (build_utxo_set chain) 0 = Ok (true, fees) /\
    connector_coinbase (vtx blk) (u32 (size_of chain)) fees = Ok true.

Lemma required_nonempty chain tip :
  last chain = Some tip ->
  required_bits (block_header <$> chain)
  = get_next_work_required (extract_headers chain) RETARGET_INTERVAL TARGET_TIMESPAN_SECONDS.
Proof. intros Hl. rewrite extract_headers_fmap. by destruct chain. Qed.

Lemma connector_accepts_iff chain blk :
  connector_accepts chain blk <-> try_extend_chain chain blk = Ok (true, chain ++ [blk]).
Proof.
  split.
  - intros (tip & bits & fees & Hl & Hb & E1 & E2 & E3 & E4 & E5 & E6).
    apply connector_coinbase_true in E6 as (cb & rest & Ev & Hc & Es & Eok).
    apply connector_txs_true in E5. subst bits.
    apply (try_extend_intro chain blk cb rest fees); try done.
    + by destruct chain.
    + by rewrite (tip_hash_last _ _ Hl).
    + by rewrite (required_nonempty _ _ Hl).
  - intros Ht. apply try_extend_inv in Ht as (_ & Hne & E1 & E2 & E3 & E4 & cb & rest & fees & Ev & Hc & Hf & Es & Eok).
    destruct (last chain) as [tip|] eqn:Hl; [|by apply last_None in Hl].
    rewrite (required_nonempty _ _ Hl) in E4. rewrite (tip_hash_last _ _ Hl) in E3.
    exists tip, (nBits (block_header blk)), fees. split_and!; try done.
    + by apply connector_txs_true.
    + apply connector_coinbase_true. by exists cb, rest.
Qed.

(** The two ways the chain file may change. *)
Definition accepted (chain chain' : list CBlock) : Prop :=
  (exists blk, try_extend_chain chain blk = Ok (true, chain')) \/
  (exists peer_chain, try_reorg chain peer_chain = Ok (true, chain')).

Definition updates (path : bytes) (chain : list CBlock) (w w' : world) : Prop :=
  files w' = files w \/
  exists chain', accepted chain chain' /\ files w' = <[path := serialize_chain chain']> (files w).

Lemma kept_updates path chain a b c : kept a b -> updates path chain b c -> updates path chain a c.
Proof. intros [E _] [Hu|(c' & Ha & Hu)]; [left; congruence | right; exists c'; by rewrite Hu, E]. Qed.
Lemma updates_kept path chain a b c : updates path chain a b -> kept b c -> updates path chain a c.
Proof. intros [Hu|(c' & Ha & Hu)] [E _]; [left; congruence | right; exists c'; by rewrite E, Hu]. Qed.
Lemma kept_is_update path chain w w' : kept w w' -> updates path chain w w'.
Proof. intros [E _]. by left. Qed.

Lemma updates_save path chain chain' :
  accepted chain chain' -> preserves (updates path chain) (save_chain chain' path).
Proof.
  intros Ha w. unfold save_chain. rewrite write_file_eq. case_decide; [by left|].
  right. exists chain'. split; [done|]. reflexivity.
Qed.
Lemma updates_of_kept {A} path chain (m : io A) : preserves kept m -> preserves (updates path chain) m.
Proof. intros Hm w. apply kept_is_update, Hm. Qed.

Lemma updates_bind {A B} path chain (m : io A) (k : A -> io B) :
  preserves kept m -> (forall a, preserves (updates path chain) (k a)) ->
  preserves (updates path chain) (m ≫= k).
Proof. apply kept_then; [apply kept_updates | apply kept_is_update]. Qed.

(** A step whose result is known. *)
Lemma updates_lift_bind {A B} path chain (r : result A) (k : A -> io B) :
  (forall a, r = Ok a -> preserves (updates path chain) (k a)) ->
  preserves (updates path chain) (lift r ≫= k).
Proof.
  intros Hk w. unfold lift, mbind, io_bind. destruct r as [a| | |]; [by apply Hk | by left..].
Qed.

Lemma updates_ret_bind {A B} path chain (a : A) (k : A -> io B) :
  preserves (updates path chain) (k a) -> preserves (updates path chain) (mret a ≫= k).
Proof. intros Hk w. apply Hk. Qed.
Lemma updates_ret {A} path chain (a : A) : preserves (updates path chain) (mret a).
Proof. intros w. by left. Qed.

Lemma updates_with_peer {A} path chain sock (m : io A) :
  preserves (updates path chain) m -> preserves (updates path chain) (with_peer sock m).
Proof.
  intros Hm w. unfold with_peer, finally. specialize (Hm w). destruct (m w) as [r w1].
  eapply updates_kept; [exact Hm | apply kept_close_fd].
Qed.

Lemma connector_compare_updates chain peer_chain path :
  preserves (updates path chain) (connector_compare chain peer_chain path).
Proof.
  unfold connector_compare.
  destruct peer_chain as [|p peer]; [|destruct chain as [|c chain]; [by intros w; left|]].
  { apply updates_ret_bind, updates_ret_bind. cbn [andb]. apply updates_ret. }
  apply updates_ret_bind. case_bool_decide as Hg; [|apply updates_ret_bind, updates_ret].
  apply updates_lift_bind. intros [] Hv; cbn [andb]; [|apply updates_ret].
  destruct (SFltb _ _) eqn:Hlt; [|apply updates_ret].
  apply updates_save. right. exists (p :: peer). unfold try_reorg.
  rewrite bool_decide_true by done. cbn [negb]. rewrite Hv. cbn [mbind result_bind negb]. by rewrite Hlt.
Qed.

Lemma connector_block_updates sock chain path blk msg :
  preserves (updates path chain) (connector_block sock chain path blk msg).
Proof.
  unfold connector_block, back. destruct (last chain) as [tip|] eqn:Hl; [|by intros w; left].
  apply updates_ret_bind, updates_lift_bind. intros bits Hb.
  apply updates_lift_bind. intros [txs_ok fees] Hf. apply updates_lift_bind. intros coinbase_ok Hc.
  destruct (IsMerkleRootValid blk && _ && _ && _ && _ && _) eqn:Hall.
  - apply updates_save. left. exists blk. apply connector_accepts_iff.
    rewrite !andb_true_iff, !bool_decide_eq_true in Hall.
    destruct Hall as [[[[[E1 E2] E3] E4] ->] ->]. by exists tip, bits, fees.
  - destruct (IsMerkleRootValid blk && _ && negb _); [|apply updates_ret].
    apply updates_bind; [apply kept_send|]. intros _.
    apply updates_bind; [apply kept_expect|]. intros [ok m].
    destruct ok; cbn [negb]; [|apply updates_ret].
    apply updates_lift_bind. intros peer_chain _. apply connector_compare_updates.
Qed.

Lemma load_chain_state path w : load_chain path w = (fst (load_chain path w), w).
Proof.
  unfold load_chain, read_file, mbind, io_bind, lift. case_decide; [done|].
  by destruct (files w !! path).
Qed.
Lemma load_chain_opt_eq path w :
  load_chain_opt path w =
    (match fst (load_chain path w) with
     | Ok chain => Ok (Some chain) | Throw _ => Ok None | Ub => Ub | Diverge => Diverge
     end, w).
Proof.
  unfold load_chain_opt, try_catch, mbind, io_bind. rewrite load_chain_state.
  by destruct (fst (load_chain path w)).
Qed.

Lemma run_connector_updates host port path w chain :
  fst (load_chain path w) = Ok chain ->
  updates path chain w (snd (run_connector host port path w)).
Proof.
  intros Hl. unfold run_connector, mbind at 1, io_bind at 1. rewrite load_chain_opt_eq, Hl. clear Hl.
  revert w. change (preserves (updates path chain)
    (sock ← connect_to host port; with_peer sock (connector_talk sock chain path))).
  apply updates_bind; [apply kept_connect|]. intros sock. apply updates_with_peer.
  unfold connector_talk. apply updates_bind; [apply kept_fetch|].
  intros [[blk msg]|]; [apply connector_block_updates | apply updates_ret].
Qed.
End Connector.

(** ** Payments between nodes *)

Section Payment.
Context `{HashLaws, Secp256k1Laws, UtxoOrderLaws}.

Lemma sum_inputs_owned tx m spk ins taken i acc :
  (prevout <$> ins) = taken.*1 ->
  (forall e, e ∈ taken -> m !! fst e = Some (snd e) /\ scriptPubKey (snd e) = spk) ->
  (forall j, (j < length ins)%nat -> verify_transaction_signature tx (i + j) spk = Ok true) ->
  0 <= acc -> Forall (fun e => 0 <= nValue (snd e)) taken -> acc + total_value taken < 2 ^ 63 ->
  sum_inputs tx m i ins acc = Ok (Some (acc + total_value taken)).
Proof.
  revert taken i acc. induction ins as [|inp ins IH]; intros taken i acc Hp Hm Hv Ha Hn Ht.
  - destruct taken; [|done]. simpl. by rewrite Z.add_0_r.
  - destruct taken as [|[k out] taken]; [done|]. rewrite !fmap_cons in Hp. injection Hp as Hk Hp.
    apply Forall_cons in Hn as [Hn1 Hn]. cbn [fst snd] in *.
    pose proof (total_value_nonneg _ Hn) as Htn.
    change (total_value ((k, out) :: taken)) with (nValue out + total_value taken) in *.
    destruct (Hm (k, out)) as [Hlk Hspk]; [set_solver|]. cbn [fst snd] in *.
    cbn [sum_inputs]. rewrite Hk, Hlk, Hspk.
    rewrite <- (Nat.add_0_r i) at 1. rewrite Hv by (simpl; lia). cbn [mbind result_bind negb].
    rewrite add_i64_in by (unfold in_i64; lia). cbn [mbind result_bind].
    rewrite (IH taken); [do 2 f_equal; lia | done | set_solver | | lia | done | lia].
    intros j Hj. replace (S i + j)%nat with (i + S j)%nat by lia. apply Hv. simpl. lia.
Qed.

(** The outputs a wallet is offered: those of the set that pay its address. *)
Lemma offered_owned utxos addr e :
  e ∈ utxo_order (filter_utxos_by_address utxos addr) ->
  utxos !! fst e = Some (snd e) /\ scriptPubKey (snd e) = build_p2pkh_script_pubkey addr.
Proof.
  rewrite utxo_order_entries. destruct e as [k out]. rewrite elem_of_map_to_list.
  unfold filter_utxos_by_address. rewrite map_lookup_filter_Some. intros [Hk Ho].
  split; [done|]. unfold owned_by in Ho. by apply extract_Some in Ho as [-> _].
Qed.

Lemma payment_outputs (change_script : bytes) recipient amount fee tx taken :
  0 <= amount -> 0 <= fee -> amount + fee <= total_value taken -> total_value taken < 2 ^ 63 ->
  vout tx = mkCTxOut amount (build_p2pkh_script_pubkey recipient)
            :: (if decide (DUST_THRESHOLD <= total_value taken - amount - fee)
                then [mkCTxOut (total_value taken - amount - fee) change_script] else []) ->
  exists paid, sum_outputs (vout tx) = Ok paid /\ 0 <= paid <= total_value taken /\
    fee <= total_value taken - paid < fee + DUST_THRESHOLD.
Proof.
  intros Ha Hf Hle Hlt ->. unfold sum_outputs, DUST_THRESHOLD. cbn [for_each nValue].
  rewrite add_i64_in by (unfold in_i64; lia). cbn [mbind result_bind].
  case_decide; cbn [for_each nValue].
  - rewrite add_i64_in by (unfold in_i64; lia). cbn [mbind result_bind]. eexists. split; [done|]. lia.
  - eexists. split; [done|]. lia.
Qed.

Lemma created_payment_accepted w utxos recipient amount fee tx :
  Wallet_ok w -> map_Forall (fun k _ => COutPoint_IsNull k = false) utxos ->
  0 < amount -> 0 <= fee ->
  let mine := utxo_order (filter_utxos_by_address utxos (address_ w)) in
  Forall (fun e => 0 <= nValue (snd e)) mine -> total_value mine < 2 ^ 63 ->
  CreateTransaction w mine recipient amount fee = Ok tx ->
  IsCoinbase tx = false /\
  exists f, validate_and_get_fee tx utxos = Ok f /\ fee <= f < fee + DUST_THRESHOLD.
Proof.
  intros Hw Hnull Ha Hf mine Hn Ht Hc.
  destruct (CreateTransaction_payment _ _ _ _ _ _ Hw Hc)
    as (taken & rest & Hm & Hp & Hle & _ & Hout & _ & Hver). cbn zeta in Hout.
  assert (Forall (fun e => 0 <= nValue (snd e)) taken /\ total_value taken < 2 ^ 63) as [Hn1 Ht1].
  { rewrite Hm in Hn, Ht. apply Forall_app in Hn as [? Hn2]. rewrite total_value_app in Ht.
    pose proof (total_value_nonneg _ Hn2). split; [done | lia]. }
  assert (forall e, e ∈ taken -> utxos !! fst e = Some (snd e)
            /\ scriptPubKey (snd e) = build_p2pkh_script_pubkey (address_ w)) as Hown.
  { intros e He. apply offered_owned. fold mine. rewrite Hm. set_solver. }
  destruct (vin tx) as [|inp ins] eqn:Ei.
  { destruct taken; [|done]. cbn in Hle. lia. }
  destruct taken as [|e0 taken']; [done|]. set (taken := e0 :: taken') in *.
  split.
  - unfold IsCoinbase. rewrite Ei. destruct (COutPoint_IsNull (prevout inp)) eqn:En; [|done].
    exfalso. rewrite fmap_cons in Hp. injection Hp as Hp _.
    destruct (Hown e0) as [Hl _]; [set_solver|].
    rewrite Hp in En. by rewrite (Hnull _ _ Hl) in En.
  - destruct (payment_outputs (build_p2pkh_script_pubkey (address_ w)) recipient amount fee tx taken)
      as (paid & Hs & Hpl & Hpf); [lia | done | done | done | done |].
    exists (total_value taken - paid). split; [|lia].
    unfold validate_and_get_fee. rewrite Ei.
    rewrite (sum_inputs_owned tx utxos (build_p2pkh_script_pubkey (address_ w)) (inp :: ins) taken 0 0);
      [|done | done | | lia | done | lia].
    + cbn [mbind result_bind]. rewrite Hs. cbn [mbind result_bind].
      rewrite decide_False by lia. rewrite Z.add_0_l, sub_i64_in by (unfold in_i64; lia). done.
    + intros j Hj. simpl (0 + j)%nat. by apply Hver.
Qed.
End Payment.

(** ** Loading *)

(** One path is as it was: its content, and whether it can be opened. *)
Definition same_at (p : bytes) (w w' : world) : Prop :=
  files w' !! p = files w !! p /\ unwritable w' = unwritable w /\ unreadable w' = unreadable w.

Lemma same_at_refl p w : same_at p w w.
Proof. done. Qed.
Lemma same_at_trans p a b c : same_at p a b -> same_at p b c -> same_at p a c.
Proof. intros (H1 & H2 & H3) (H4 & H5 & H6). split_and!; congruence. Qed.
Lemma kept_same_at p w w' : kept w w' -> same_at p w w'.
Proof. intros (E & ? & ?). split_and!; [by rewrite E | done | done]. Qed.
Lemma same_of_kept {A} p (m : io A) : preserves kept m -> preserves (same_at p) m.
Proof. intros Hm w. apply kept_same_at, Hm. Qed.
Lemma write_same_at p q buffer : p <> q -> preserves (same_at p) (write_file q buffer).
Proof.
  intros Hne w. rewrite write_file_eq. case_decide; [done|]. split_and!; [|done | done].
  cbn. by rewrite lookup_insert_ne.
Qed.
Lemma same_at_bind {A B} p (m : io A) (k : A -> io B) :
  preserves (same_at p) m -> (forall a, preserves (same_at p) (k a)) -> preserves (same_at p) (m ≫= k).
Proof. apply preserves_bind, same_at_trans. Qed.

Lemma read_same_at p w w' : same_at p w w' -> fst (read_file p w') = fst (read_file p w).
Proof.
  intros (E & _ & Hr). unfold read_file. rewrite Hr, E. case_decide; [done|].
  by destruct (files w !! p).
Qed.

Lemma wallet_file_ne path : path <> wallet_file path /\ path <> mempool_file path
  /\ mempool_file path <> wallet_file path.
Proof.
  unfold wallet_file, mempool_file. split_and!.
  - intros E. rewrite <- (app_nil_r path) in E at 1. by apply app_inv_head in E.
  - intros E. rewrite <- (app_nil_r path) in E at 1. by apply app_inv_head in E.
  - intros E. by apply app_inv_head in E.
Qed.

Section Loading.
Context `{HashFns, Secp256k1, Inet, UtxoOrder}.

Lemma load_chain_same_at p w w' :
  same_at p w w' -> fst (load_chain p w') = fst (load_chain p w).
Proof.
  intros Hs. pose proof (read_same_at p w w' Hs) as Hr. unfold load_chain, mbind, io_bind, lift.
  destruct (read_file p w') as [[]], (read_file p w) as [[]]; simpl in *; congruence.
Qed.
Lemma load_mempool_same_at p w w' :
  same_at p w w' -> fst (load_mempool_or_empty p w') = fst (load_mempool_or_empty p w).
Proof.
  intros Hs. pose proof (read_same_at p w w' Hs) as Hr.
  unfold load_mempool_or_empty, load_mempool, try_catch, mbind, io_bind, lift.
  destruct (read_file p w') as [[]], (read_file p w) as [[]]; simpl in *; try congruence.
  injection Hr as ->. by destruct (read_from _ _).
Qed.

(** Creating a wallet writes the wallet file and no other. *)
Lemma wallet_same_at p path :
  p <> path -> preserves (same_at p) (load_or_create_wallet path).
Proof.
  intros Hne. unfold load_or_create_wallet, new_wallet, throw.
  apply preserves_try; [apply same_at_trans | |].
  - apply same_of_kept. solve_kept.
  - apply same_at_bind; [apply same_of_kept; solve_kept|]. intros wal.
    apply same_at_bind; [by apply write_same_at|]. intros _. by apply same_of_kept, kept_ret.
Qed.
End Loading.

(** ** Receiving a transaction *)

Definition serialize_mempool (mempool : list Transaction) : bytes :=
  write_list Transaction_Serialize (write_var_int32 [] (u32 (size_of mempool))) mempool.

Section Receive.
Context `{HashFns, Secp256k1, Inet, UtxoOrder}.

(** The only change [run_receive_tx] makes: one valid transaction more in the mempool
    file, which had room. *)
Definition receives (path : bytes) (utxo_set : UtxoSet) (w w' : world) : Prop :=
  files w' = files w \/
  exists mempool tx fee,
    fst (load_mempool_or_empty (mempool_file path) w) = Ok mempool /\
    IsCoinbase tx = false /\ validate_and_get_fee tx utxo_set = Ok fee /\ 0 <= fee /\
    size_of mempool < MAX_MEMPOOL_SIZE /\
    files w' = <[mempool_file path := serialize_mempool (mempool ++ [tx])]> (files w).

Lemma receives_kept path m w w1 w2 : receives path m w w1 -> kept w1 w2 -> receives path m w w2.
Proof.
  intros [E|(mp & tx & fee & E)] [Hk _]; [left; congruence|]. right. exists mp, tx, fee. by rewrite Hk.
Qed.
Lemma kept_receives path m w w1 w2 : kept w w1 -> receives path m w1 w2 -> receives path m w w2.
Proof.
  intros Hk [E|(mp & tx & fee & E1 & E)]; [left; by destruct Hk as [Hk _]; rewrite E|].
  right. exists mp, tx, fee. rewrite (load_mempool_same_at _ w w1) in E1 by (by apply kept_same_at).
  destruct Hk as [Hk _]. by rewrite <- Hk.
Qed.
Lemma receives_bind {A B} path m (p : io A) (k : A -> io B) :
  preserves kept p -> (forall a, preserves (receives path m) (k a)) -> preserves (receives path m) (p ≫= k).
Proof.
  apply kept_then; [intros a b c; apply kept_receives | intros w w' [E _]; by left].
Qed.
Lemma receives_of_kept {A} path m (p : io A) : preserves kept p -> preserves (receives path m) p.
Proof. intros Hp w. left. apply Hp. Qed.

Lemma tx_fee_valid tx m fee :
  tx_fee tx m = Ok fee -> 0 <= fee -> IsCoinbase tx = false /\ validate_and_get_fee tx m = Ok fee.
Proof. unfold tx_fee. destruct (IsCoinbase tx); [intros [= <-]; lia | done]. Qed.

Lemma receives_store path m tx fee :
  tx_fee tx m = Ok fee -> preserves (receives path m) (store_received tx fee path).
Proof.
  intros Hfee w. unfold store_received, mbind at 1, io_bind at 1.
  pose proof (kept_load_mempool (mempool_file path) w) as Hk.
  destruct (load_mempool_or_empty (mempool_file path) w) as [[mempool| | |] w1] eqn:El;
    simpl in Hk; try (left; by apply Hk).
  case_bool_decide as Hf; cbn [andb]; [|left; by apply Hk].
  case_bool_decide as Hs; [left; by apply Hk|].
  unfold save_mempool. rewrite write_file_eq. case_decide; [left; by apply Hk|].
  destruct (tx_fee_valid tx m fee Hfee ltac:(lia)) as [Hc Hv].
  right. exists mempool, tx, fee. rewrite El. split_and!; [done | done | done | lia | lia |].
  cbn. by destruct Hk as [-> _].
Qed.

Lemma receives_lift_bind {A B} path m (r : result A) (k : A -> io B) :
  (forall a, r = Ok a -> preserves (receives path m) (k a)) ->
  preserves (receives path m) (lift r ≫= k).
Proof. intros Hk w. unfold lift, mbind, io_bind. destruct r as [a| | |]; [by apply Hk | by left..]. Qed.

Lemma receives_then_kept {A B} path m (p : io A) (k : A -> io B) :
  preserves (receives path m) p -> (forall a, preserves kept (k a)) ->
  preserves (receives path m) (p ≫= k).
Proof. apply then_kept. intros a b c. apply receives_kept. Qed.

Lemma receive_peer_receives sock listener m path :
  preserves (receives path m) (receive_peer sock listener m path).
Proof.
  unfold receive_peer.
  apply receives_bind; [apply kept_expect|]. intros [[] msg1]; cbn [negb]; [|apply receives_of_kept, kept_close].
  apply receives_bind; [apply kept_send|]. intros _.
  apply receives_bind; [apply kept_expect|]. intros [[] msg2]; cbn [negb]; [|apply receives_of_kept, kept_close].
  apply receives_bind; [apply kept_send|]. intros _.
  apply receives_bind; [apply kept_expect|]. intros [[] msg3]; cbn [negb]; [|apply receives_of_kept, kept_close].
  apply receives_lift_bind. intros tx _. apply receives_lift_bind. intros fee Hfee.
  apply receives_then_kept; [by apply receives_store | intros _; apply kept_close].
Qed.

Lemma run_receive_tx_receives port path w chain :
  fst (load_chain path w) = Ok chain ->
  receives path (build_utxo_set chain) w (snd (run_receive_tx port path w)).
Proof.
  intros Hl. unfold run_receive_tx, mbind at 1, io_bind at 1. rewrite load_chain_opt_eq, Hl. clear Hl.
  revert w. change (preserves (receives path (build_utxo_set chain))
    (listener ← create_listener port; client_sock ← accept_connection listener;
     with_peer client_sock (receive_peer client_sock listener (build_utxo_set chain) path))).
  apply receives_bind; [apply kept_listener|]. intros listener.
  apply receives_bind; [apply kept_accept|]. intros sock.
  intros w. unfold with_peer, finally.
  pose proof (receive_peer_receives sock listener (build_utxo_set chain) path w) as Hr.
  destruct (receive_peer _ _ _ _ w) as [r w1]. eapply receives_kept; [exact Hr | apply kept_close_fd].
Qed.
End Receive.

(** ** The wallet file *)

Section WalletFile.
Context `{HashLaws, Secp256k1Laws}.

Lemma load_wallet_file path w wal :
  path ∉ unreadable w -> files w !! path = Some (seckey_ wal) ->
  size_of (seckey_ wal) = 32 -> Wallet_ok wal -> load_or_create_wallet path w = (Ok wal, w).
Proof.
  intros Hr Hf Hs Hw. unfold load_or_create_wallet, try_catch.
  rewrite (io_bind_eq _ _ _ _ _ (read_file_Ok _ _ _ Hr Hf)).
  rewrite decide_False by (intros Hn; by apply Hn). unfold lift. by rewrite Wallet_restore.
Qed.

Lemma created_wallet_stored path w wal w' :
  accessible path w -> Forall (fun r => length (snd r) = 32%nat) (entropy w) ->
  load_or_create_wallet path w = (Ok wal, w') ->
  Wallet_ok wal /\ size_of (seckey_ wal) = 32 /\
    (path ∉ unreadable w') /\ files w' !! path = Some (seckey_ wal).
Proof.
  intros [Hw Hr] He Hl.
  assert (Hfresh : (w ← new_wallet; write_file path (seckey_ w);; mret w) w = (Ok wal, w') ->
    Wallet_ok wal /\ size_of (seckey_ wal) = 32 /\
    (path ∉ unreadable w') /\ files w' !! path = Some (seckey_ wal)).
  { intros Hn. apply io_bind_Ok in Hn as (wal1 & w1 & Hn & Hwr).
    unfold new_wallet in Hn. apply io_bind_Ok in Hn as (rnd & w2 & Hrnd & Hmk).
    unfold lift in Hmk. injection Hmk as Hmk <-.
    assert (length (snd rnd) = 32%nat /\ unwritable w2 = unwritable w /\ unreadable w2 = unreadable w)
      as (H32 & Hu & Hrd).
    { unfold getrandom32 in Hrnd. destruct (entropy w) as [|r e].
      - injection Hrnd as <- <-. split_and!; [reflexivity | done | done].
      - injection Hrnd as <- <-. by apply Forall_cons in He as [? _]. }
    apply Wallet_make_ok in Hmk as [Hok Hsk].
    rewrite (io_bind_eq _ _ _ _ _ (write_file_Ok path _ w2 ltac:(by rewrite Hu))) in Hwr.
    unfold mret, io_ret in Hwr. injection Hwr as <- <-.
    assert (size_of (seckey_ wal1) = 32) as H32' by (unfold size_of; by rewrite Hsk, H32).
    split_and!; [done | done | by rewrite <- Hrd in Hr | apply lookup_insert_eq]. }
  unfold load_or_create_wallet, try_catch in Hl. unfold mbind at 1, io_bind at 1 in Hl.
  destruct (read_file path w) as [[buffer|e| |] w1] eqn:Erd.
  - unfold read_file in Erd. rewrite decide_False in Erd by done.
    destruct (files w !! path) as [b|] eqn:Ef; [|done]. injection Erd as -> <-.
    case_decide as Hsz; [by apply Hfresh|]. unfold lift in Hl.
    destruct (Wallet_FromSeckey buffer) as [wal1| | |] eqn:Efs; [|by apply Hfresh|done..].
    injection Hl as <- <-. apply Wallet_FromSeckey_ok in Efs as [Hok Hk].
    rewrite <- Hk in Hsz, Ef. by split_and!.
  - assert (w1 = w) as ->; [|by apply Hfresh]. unfold read_file in Erd.
    rewrite decide_False in Erd by done. destruct (files w !! path); [done | by injection Erd].
  - done.
  - done.
Qed.
Lemma created_wallet_persists path w wal w' :
  accessible path w -> Forall (fun r => length (snd r) = 32%nat) (entropy w) ->
  load_or_create_wallet path w = (Ok wal, w') ->
  Wallet_ok wal /\ size_of (seckey_ wal) = 32 /\ load_or_create_wallet path w' = (Ok wal, w').
Proof.
  intros Ha He Hl. destruct (created_wallet_stored path w wal w' Ha He Hl) as (Hok & Hs & Hr & Hf).
  split_and!; [done | done | by apply load_wallet_file].
Qed.
End WalletFile.

(** ** The listening node *)

Section Listener.
Context `{HashFns, Secp256k1, Inet, UtxoOrder}.
Context (mine_fuel serve_fuel : nat).

(** A block this node mined on top of [chain] with the transactions of its mempool. *)
Definition mined (chain : list CBlock) (mempool : list Transaction) (blk : CBlock) : Prop :=
  exists addr txs fees now,
    select_mempool mempool (build_utxo_set chain) [] 0 = Ok (txs, fees) /\
    build_next_block mine_fuel now (extract_headers chain) (tip_hash chain) addr fees txs = Ok blk.

(** The chain a command starts from: the one in the file, or a new genesis block when the
    file is missing or does not load. *)
Definition starts_from (path : bytes) (w : world) (chain : list CBlock) : Prop :=
  fst (load_chain path w) = Ok chain \/
  (exists e, fst (load_chain path w) = Throw e) /\
  exists now addr, build_genesis_chain mine_fuel now addr = Ok chain.

Lemma load_or_create_starts path addr w chain w' :
  load_or_create_chain mine_fuel path addr w = (Ok chain, w') -> starts_from path w chain /\ kept w w'.
Proof.
  intros E. pose proof (kept_load_chain mine_fuel path addr w) as Hk. rewrite E in Hk. split; [|exact Hk].
  unfold load_or_create_chain, try_catch in E. rewrite load_chain_state in E.
  destruct (fst (load_chain path w)) as [c|e| |] eqn:El; try done.
  - left. by injection E as -> _.
  - right. split; [by exists e|]. apply io_bind_Ok in E as (now & w1 & _ & E). injection E as E _. by exists now, addr.
Qed.

(** What [run_listener] leaves in the chain and mempool files. *)
Definition listens (path : bytes) (w w' : world) : Prop :=
  (files w' !! path = files w !! path /\ files w' !! mempool_file path = files w !! mempool_file path) \/
  exists chain mempool blk, starts_from path w chain /\
    fst (load_mempool_or_empty (mempool_file path) w) = Ok mempool /\ mined chain mempool blk /\
    files w' !! path = Some (serialize_chain (chain ++ [blk])) /\
    (files w' !! mempool_file path = Some (serialize_mempool []) \/
     mempool_file path ∈ unwritable w /\ files w' !! mempool_file path = files w !! mempool_file path).

Lemma listens_kept path w w1 w2 : listens path w w1 -> kept w1 w2 -> listens path w w2.
Proof. intros Hl [E _]. unfold listens in *. by rewrite E. Qed.

(** The end of [run_listener]: both files are written, then the peer is served. *)
Lemma save_then_serve path chain mempool blk w0 w (rest : io unit) :
  starts_from path w0 chain -> fst (load_mempool_or_empty (mempool_file path) w0) = Ok mempool ->
  mined chain mempool blk -> preserves kept rest ->
  same_at path w0 w -> same_at (mempool_file path) w0 w ->
  listens path w0
    (snd ((save_chain (chain ++ [blk]) path;; save_mempool [] (mempool_file path);; rest) w)).
Proof.
  intros Hst Hmp Hm Hr Hs Hs2. destruct (wallet_file_ne path) as (_ & Hne & _).
  unfold mbind at 1, io_bind at 1, save_chain. rewrite write_file_eq.
  case_decide; [left; split; [apply Hs | apply Hs2]|].
  unfold mbind at 1, io_bind at 1, save_mempool. rewrite write_file_eq. case_decide as Hu.
  - right. exists chain, mempool, blk. cbn [files set_files snd]. split_and!; try done; [by rewrite lookup_insert_eq|].
    right. cbn [unwritable set_files] in Hu. destruct Hs2 as (Hf & Hw & _). split; [by rewrite <- Hw|].
    by rewrite lookup_insert_ne.
  - eapply listens_kept; [|apply Hr]. right. exists chain, mempool, blk. cbn [files set_files snd].
    split_and!; try done.
    + rewrite lookup_insert_ne by done. by rewrite lookup_insert_eq.
    + left. by rewrite lookup_insert_eq.
Qed.

Lemma run_listener_listens port path w : listens path w (snd (run_listener mine_fuel serve_fuel port path w)).
Proof.
  destruct (wallet_file_ne path) as (Hn1 & _ & Hn2).
  pose proof (wallet_same_at path _ Hn1 w) as Hs. pose proof (wallet_same_at _ _ Hn2 w) as Hs2.
  unfold run_listener, mbind at 1, io_bind at 1.
  destruct (load_or_create_wallet (wallet_file path) w) as [[wal| | |] w1];
    simpl in Hs, Hs2; try (left; split; [apply Hs | apply Hs2]).
  unfold mbind at 1, io_bind at 1. pose proof (kept_load_chain mine_fuel path (address_ wal) w1) as Hkc.
  assert (forall w2, kept w1 w2 -> same_at path w w2 /\ same_at (mempool_file path) w w2) as Hsame.
  { intros w2 Hk. split; (eapply same_at_trans; [eassumption | by apply kept_same_at]). }
  assert (forall w2, kept w1 w2 -> listens path w w2) as Hstay.
  { intros w2 Hk. destruct (Hsame w2 Hk) as [[E1 _] [E2 _]]. by left. }
  destruct (load_or_create_chain mine_fuel path (address_ wal) w1) as [[chain| | |] w2] eqn:Ec; simpl in Hkc;
    try by apply Hstay.
  apply load_or_create_starts in Ec as [Hst _].
  assert (starts_from path w chain) as Hst' by (unfold starts_from in *; by rewrite <- (load_chain_same_at _ _ _ Hs)).
  destruct (Hsame w2 Hkc) as [Hs' Hs2'].
  unfold mbind at 1, io_bind at 1. pose proof (kept_load_mempool (mempool_file path) w2) as Hk.
  pose proof (load_mempool_same_at _ _ _ Hs2') as Hm1.
  destruct (load_mempool_or_empty (mempool_file path) w2) as [[mempool| | |] w3]; simpl in Hm1, Hk;
    try (apply Hstay; by eapply kept_trans).
  assert (kept w1 w3) as Hk3 by (by eapply kept_trans).
  unfold mbind at 1, io_bind at 1, lift at 1.
  destruct (select_mempool mempool (build_utxo_set chain) [] 0) as [[txs fees]| | |] eqn:Esel;
    try by apply Hstay.
  unfold mbind at 1, io_bind at 1, back at 1. destruct (last chain) as [tip|] eqn:El; [|by apply Hstay].
  unfold mret at 1, io_ret at 1. unfold mbind at 1, io_bind at 1.
  pose proof (kept_time w3) as Ht. destruct (time_now w3) as [[now| | |] w4]; simpl in Ht;
    try (apply Hstay; by eapply kept_trans).
  assert (kept w1 w4) as Hk4 by (by eapply kept_trans).
  unfold mbind at 1, io_bind at 1, lift at 1.
  destruct (build_next_block mine_fuel now (extract_headers chain) (CBlock_GetHash tip) (address_ wal)
              fees txs) as [blk| | |] eqn:Eb; try by apply Hstay.
  destruct (Hsame w4 Hk4) as [Hs4 Hs4'].
  eapply save_then_serve; [exact Hst' | by symmetry | | |done | done].
  - exists (address_ wal), txs, fees, now. by rewrite (tip_hash_last _ _ El).
  - solve_kept.
Qed.
End Listener.

(** ** Conversations *)

Section Conversation.
Context `{HashLaws, Secp256k1, Inet, UtxoOrder}.

(** The result of a [Peer_Send] on an open descriptor: it returns, or SIGPIPE ends the
    process; what the peer sends is not touched. *)
Lemma send_step sock cmd payload w c :
  sockets w !! sock = Some c ->
  exists r w' c', Peer_Send sock cmd payload w = (r, w') /\ sockets w' !! sock = Some c' /\
    incoming c' = incoming c /\ idle c' = idle c /\ kept w w' /\
    ((exists ok, r = Ok ok) \/ r = Diverge /\ killed w' = true) /\
    (no_sigpipe c -> (exists ok, r = Ok ok) /\ no_sigpipe c').
Proof.
  intros Hc. unfold Peer_Send. rewrite Hc. unfold send_message, send_all.
  destruct (send_loop_spec _ c (message_buffer cmd payload) (le_n _)) as (sent & r & c' & -> & Hs).
  destruct (se_result _ _ _ _ _ Hs) as [->|[ok ->]]; eexists _, _, c'; (split; [reflexivity|]);
    cbn [sockets set_sockets kill_process set_killed killed]; split_and!;
    try apply lookup_insert_eq; try apply Hs; try done; eauto.
Qed.

(** A descriptor with an open stream that ends, on which every [send] returns. *)
Definition holds (sock : Z) (w : world) (bs : bytes) : Prop :=
  exists c, sockets w !! sock = Some c /\ stream (incoming c) = bs /\ no_sigpipe c.

Lemma send_holds sock cmd payload w bs :
  holds sock w bs ->
  exists ok w', Peer_Send sock cmd payload w = (Ok ok, w') /\ holds sock w' bs /\ kept w w'.
Proof.
  intros (c & Hc & Hs & Hn).
  destruct (send_step sock cmd payload w c Hc) as (r & w' & c' & E & Hc' & Hi & _ & Hk & _ & Hp).
  destruct (Hp Hn) as [[ok ->] Hn']. exists ok, w'. split; [exact E|]. split; [|exact Hk].
  exists c'. by rewrite Hi.
Qed.

(** The result of a [Peer_Receive] from a peer that closes the connection at the end. *)
Lemma receive_step sock out w c :
  sockets w !! sock = Some c -> bytes_ok (stream (incoming c)) -> idle c = false ->
  exists ok msg w' c', Peer_Receive sock out w = (Ok (ok, msg), w') /\ sockets w' !! sock = Some c' /\
    idle c' = false /\ room c' = room c /\ killed w' = killed w /\
    (ok = true -> exists used, stream (incoming c) = used ++ stream (incoming c') /\ (24 <= length used)%nat).
Proof.
  intros Hc Hb Hi. unfold Peer_Receive. rewrite Hc.
  destruct (receive_message_spec c out Hb) as (r & msg & c' & -> & _ & Hrm & Hid & Hr & Hok).
  destruct Hr as [[ok ->]|[_ Hr]]; [|congruence]. exists ok, msg. eexists _, c'.
  split; [reflexivity|]. split; [apply lookup_insert_eq|]. split_and!; [congruence | done | done |].
  intros ->. destruct (Hok eq_refl) as (used & Hu & Hs). exists used. split; [done | by eapply message_bytes_length].
Qed.

(** The loop that serves a peer ends: every message it answers takes at least 24 bytes
    of what the peer sends. *)
Lemma serve_loop_ends fuel sock blk chain msg w c :
  sockets w !! sock = Some c -> bytes_ok (stream (incoming c)) -> idle c = false ->
  (length (stream (incoming c)) < fuel)%nat ->
  exists r w', serve_loop fuel sock blk chain msg w = (r, w') /\
    (r = Ok tt \/ r = Diverge /\ killed w' = true) /\ (no_sigpipe c -> r = Ok tt).
Proof.
  revert msg w c. induction fuel as [|fuel IH]; intros msg w c Hc Hb Hi Hf; [lia|].
  cbn [serve_loop]. destruct (receive_step sock msg w c Hc Hb Hi)
    as (ok & m & w1 & c1 & E & Hc1 & Hi1 & Hr1 & _ & Hok).
  rewrite (io_bind_eq _ _ _ _ _ E). destruct ok; cbn [negb]; [|eexists (Ok tt), _; by split_and!; [| left |]].
  destruct (Hok eq_refl) as (used & Hu & Hl). rewrite Hu in Hb, Hf. apply Forall_app in Hb as [_ Hb].
  rewrite length_app in Hf.
  assert (forall cmd payload, exists r w', (Peer_Send sock cmd payload;; serve_loop fuel sock blk chain m) w1 = (r, w') /\
    (r = Ok tt \/ r = Diverge /\ killed w' = true) /\ (no_sigpipe c -> r = Ok tt)) as Hsend.
  { intros cmd payload.
    destruct (send_step sock cmd payload w1 c1 Hc1) as (r & w2 & c2 & E2 & Hc2 & Hin & Hi2 & _ & Hr & Hp).
    unfold no_sigpipe in *. rewrite Hr1 in Hp. destruct Hr as [[ok ->]|[-> Hk]].
    - rewrite (io_bind_eq _ _ _ _ _ E2).
      destruct (IH m w2 c2 Hc2) as (r & w3 & E3 & Hr3 & Hp3); [by rewrite Hin | congruence | rewrite Hin; lia|].
      exists r, w3. split_and!; [done | done |]. intros Hn. apply Hp3. by apply Hp.
    - exists Diverge, w2. unfold mbind, io_bind. rewrite E2. split_and!; [done | by right |].
      intros Hn. destruct (Hp Hn) as [[ok Hk'] _]. done. }
  case_decide; [apply Hsend|]. case_decide; [apply Hsend|]. eexists (Ok tt), _. by split_and!; [| left |].
Qed.

(** Commands that survive framing. *)
Definition command_ok (cmd : bytes) : Prop :=
  (length cmd <= COMMAND_SIZE)%nat /\ Forall (fun b => b <> 0) cmd /\ bytes_ok cmd.
#[global] Instance command_ok_dec cmd : Decision (command_ok cmd).
Proof. unfold command_ok. apply _. Defined.

Lemma receive_one sock out cmd payload rest w :
  command_ok cmd -> size_of payload <= MAX_PAYLOAD_SIZE ->
  holds sock w (message_buffer cmd payload ++ rest) ->
  exists w', Peer_Receive sock out w = (Ok (true, mkMessage cmd payload), w').
Proof.
  intros (Hl & Hz & Hb) Hp (c & Hc & Hs & _).
  destruct (receive_frame cmd payload c rest out Hl Hz Hb Hp Hs) as (c' & E & Hr & _).
  unfold Peer_Receive. rewrite Hc, E. by eexists.
Qed.

Lemma expect_holds sock out cmd payload rest w :
  command_ok cmd -> size_of payload <= MAX_PAYLOAD_SIZE ->
  holds sock w (message_buffer cmd payload ++ rest) ->
  exists w', expect sock out cmd w = (Ok (true, mkMessage cmd payload), w') /\
    holds sock w' rest /\ kept w w'.
Proof.
  intros (Hl & Hz & Hb) Hp (c & Hc & Hs & Hn).
  destruct (receive_frame cmd payload c rest out Hl Hz Hb Hp Hs) as (c' & E & Hr & _ & Hrm & _).
  unfold expect, mbind, io_bind, Peer_Receive. rewrite Hc, E. eexists. split.
  - cbn. unfold mret, io_ret. by rewrite bool_decide_true by done.
  - split; [|done]. exists c'. split; [apply lookup_insert_eq|]. split; [done|]. unfold no_sigpipe. by rewrite Hrm.
Qed.

(** What a listening node sends to one that asks for its tip. *)
Definition listener_bytes (blk : CBlock) : bytes :=
  message_buffer command.VERSION build_version_payload ++ message_buffer command.VERACK []
  ++ message_buffer command.INV (CBlock_GetHash blk)
  ++ message_buffer command.BLOCK (CBlock_Serialize blk).

Lemma connector_block_extends sock chain path blk msg w :
  try_extend_chain chain blk = Ok (true, chain ++ [blk]) ->
  connector_block sock chain path blk msg w = save_chain (chain ++ [blk]) path w.
Proof.
  intros (tip & bits & fees & Hl & Hb & E1 & E2 & E3 & E4 & E5 & E6)%connector_accepts_iff.
  unfold connector_block, back. rewrite Hl.
  unfold mbind at 1, io_bind at 1, mret at 1, io_ret at 1. rewrite Hb.
  unfold mbind at 1, io_bind at 1, lift at 1. rewrite E5.
  unfold mbind at 1, io_bind at 1, lift at 1. rewrite E6.
  unfold mbind at 1, io_bind at 1, lift at 1.
  rewrite E1, E2, E3, E4, !bool_decide_true by done. done.
Qed.

(** A peer that answers as [run_listener] does delivers its block. *)
Lemma fetch_tip_delivers sock blk rest w :
  holds sock w (listener_bytes blk ++ rest) ->
  CBlock_wf blk -> size_of (CBlock_Serialize blk) <= MAX_PAYLOAD_SIZE ->
  exists w' msg, fetch_tip sock w = (Ok (Some (blk, msg)), w') /\ kept w w'.
Proof.
  intros Hh Hw Hs. unfold listener_bytes in Hh. rewrite <- !app_assoc in Hh.
  unfold fetch_tip, connector_handshake.
  assert (forall cmd, bool_decide (command_ok cmd) = true -> command_ok cmd) as Hcmd
    by (intros cmd; apply bool_decide_eq_true).
  assert (size_of build_version_payload <= MAX_PAYLOAD_SIZE /\ size_of (@nil Z) <= MAX_PAYLOAD_SIZE) as [Hv Hn]
    by done.
  assert (size_of (CBlock_GetHash blk) <= MAX_PAYLOAD_SIZE) as Hg.
  { unfold size_of, CBlock_GetHash, CBlockHeader_GetHash, hash_double_sha256. by rewrite sha256_length. }
  destruct (send_holds sock command.VERSION build_version_payload _ _ Hh) as (o1 & w1 & S1 & Q1 & K1).
  destruct (expect_holds sock Message_default command.VERSION _ _ _ (Hcmd command.VERSION eq_refl) Hv Q1) as (w2 & S2 & Q2 & K2).
  destruct (send_holds sock command.VERACK [] _ _ Q2) as (o3 & w3 & S3 & Q3 & K3).
  destruct (expect_holds sock (mkMessage command.VERSION build_version_payload) command.VERACK _ _ _
              (Hcmd command.VERACK eq_refl) Hn Q3) as (w4 & S4 & Q4 & K4).
  destruct (expect_holds sock (mkMessage command.VERACK []) command.INV _ _ _ (Hcmd command.INV eq_refl) Hg Q4)
    as (w5 & S5 & Q5 & K5).
  destruct (send_holds sock command.GETDATA (CBlock_GetHash blk) _ _ Q5) as (o6 & w6 & S6 & Q6 & K6).
  destruct (expect_holds sock (mkMessage command.INV (CBlock_GetHash blk)) command.BLOCK _ _ _
              (Hcmd command.BLOCK eq_refl) Hs Q6) as (w7 & S7 & Q7 & K7).
  exists w7. eexists. split; [|repeat (eapply kept_trans; [eassumption|]); apply kept_refl].
  erewrite io_bind_eq; [|erewrite io_bind_eq; [|exact S1]; erewrite io_bind_eq; [|exact S2]; cbn [negb];
    erewrite io_bind_eq; [|exact S3]; erewrite io_bind_eq; [|exact S4]; cbn [negb]; reflexivity].
  cbn match. erewrite io_bind_eq; [|exact S5]. cbn [negb msg_payload].
  erewrite io_bind_eq; [|exact S6]. erewrite io_bind_eq; [|exact S7]. cbn [negb msg_payload].
  assert (read_from CBlock_Deserialize (CBlock_Serialize blk) = Ok blk) as ->; [|done].
  apply (read_from_Ok _ _ _ _ _ CBlock_parses); [by apply CBlock_ser_ok|].
  split; [done|]. exists []. by rewrite app_nil_r.
Qed.

Lemma connector_talk_adopts sock chain path blk rest w :
  holds sock w (listener_bytes blk ++ rest) ->
  CBlock_wf blk -> size_of (CBlock_Serialize blk) <= MAX_PAYLOAD_SIZE ->
  try_extend_chain chain blk = Ok (true, chain ++ [blk]) -> path ∉ unwritable w ->
  exists w', connector_talk sock chain path w = (Ok tt, w') /\
    files w' = <[path := serialize_chain (chain ++ [blk])]> (files w).
Proof.
  intros Hh Hw Hs Ht Hu.
  destruct (fetch_tip_delivers sock blk rest w Hh Hw Hs) as (w1 & msg & E & Ef & Eu & _).
  unfold connector_talk. rewrite (io_bind_eq _ _ _ _ _ E), connector_block_extends by done.
  unfold save_chain. rewrite write_file_Ok by (by rewrite Eu). eexists. split; [done|]. cbn. by rewrite Ef.
Qed.

Lemma connect_to_succeeds host port w addr c os' :
  inet_pton host = Some addr -> os w = Succeeds :: Connects c :: os' -> fresh_fd w ->
  exists w1, connect_to host port w = (Ok (next_fd w), w1) /\
    sockets w1 !! next_fd w = Some c /\ kept w w1.
Proof.
  intros Hi Ho [_ Hpos]. unfold connect_to, sys_socket, sys_connect, next_outcome, mbind, io_bind.
  rewrite Ho. cbn -[decide]. rewrite decide_False by (unfold INVALID_SOCK; lia). rewrite Hi.
  cbn -[decide]. rewrite decide_False by lia. eexists. split; [done|]. split; [|done].
  apply lookup_insert_eq.
Qed.
End Conversation.

(** ** Theorems *)

Section NodeTheorems.
Context `{HashLaws, Secp256k1Laws, Inet, UtxoOrderLaws}.

(** C6.  Whatever the peer and the network do, [run_connector] changes at most
    the chain file, and only to the chain that [try_extend_chain] or [try_reorg] would
    have accepted from the loaded one: the checks it repeats inline are theirs. *)
Theorem run_connector_refines host port path w chain :
  fst (load_chain path w) = Ok chain ->
  let w' := snd (run_connector host port path w) in
  files w' = files w \/
  exists chain',
    ((exists blk, try_extend_chain chain blk = Ok (true, chain')) \/
     (exists peer_chain, try_reorg chain peer_chain = Ok (true, chain'))) /\
    files w' = <[path := serialize_chain chain']> (files w).
Proof. apply run_connector_updates. Qed.

(** Synchronisation succeeds: a node that connects to a peer which answers as
    [run_listener] does, with a block that extends the node's chain, ends with that
    block appended to its chain file, however the network splits the stream. *)
Theorem run_connector_adopts host port path w chain blk addr c os' rest :
  fst (load_chain path w) = Ok chain -> path ∉ unwritable w ->
  inet_pton host = Some addr -> os w = Succeeds :: Connects c :: os' -> fresh_fd w ->
  stream (incoming c) = listener_bytes blk ++ rest -> no_sigpipe c ->
  CBlock_wf blk -> size_of (CBlock_Serialize blk) <= MAX_PAYLOAD_SIZE ->
  try_extend_chain chain blk = Ok (true, chain ++ [blk]) ->
  let '(r, w') := run_connector host port path w in
  r = Ok tt /\ files w' = <[path := serialize_chain (chain ++ [blk])]> (files w).
Proof.
  intros Hl Hu Hi Ho [Hf Hpos] Hst Hn Hw Hs Ht.
  unfold run_connector, mbind at 1, io_bind at 1. rewrite load_chain_opt_eq, Hl.
  destruct (connect_to_succeeds host port w addr c os' Hi Ho (conj Hf Hpos)) as (w1 & E1 & Hs1 & Hk1).
  erewrite io_bind_eq; [|exact E1]. unfold with_peer, finally.
  destruct (connector_talk_adopts (next_fd w) chain path blk rest w1) as (w' & E & Efiles); try done.
  { by exists c. }
  { by destruct Hk1 as (_ & -> & _). }
  rewrite E. split; [done|]. destruct (kept_close_fd (next_fd w) w') as [-> _].
  rewrite Efiles. by destruct Hk1 as [-> _].
Qed.

(** C29.  [run_receive_tx] changes at most the mempool file, by appending one
    transaction that is not a coinbase, whose inputs are unspent in this node's view,
    are unlocked by its scripts and cover its outputs, to a mempool that had room. *)
Theorem run_receive_tx_correct port path w chain :
  fst (load_chain path w) = Ok chain ->
  let w' := snd (run_receive_tx port path w) in
  files w' = files w \/
  exists mempool tx fee,
    fst (load_mempool_or_empty (mempool_file path) w) = Ok mempool /\
    IsCoinbase tx = false /\ validate_and_get_fee tx (build_utxo_set chain) = Ok fee /\ 0 <= fee /\
    size_of mempool < MAX_MEMPOOL_SIZE /\
    files w' = <[mempool_file path := serialize_mempool (mempool ++ [tx])]> (files w).
Proof. apply run_receive_tx_receives. Qed.

(** C28.  Whatever happens on the network, [run_listener] leaves the chain and the mempool
    file as they were, or the chain file holds what it started from and one block mined on
    it with the transactions of the mempool that are valid one after the other, and the
    mempool file is emptied unless it cannot be written.  It starts from the chain in the
    file or, when there is none that loads, from a new genesis block. *)
Theorem run_listener_correct mine_fuel serve_fuel port path w :
  listens mine_fuel path w (snd (run_listener mine_fuel serve_fuel port path w)).
Proof. apply run_listener_listens. Qed.

(** C30.  The loop that serves a connected peer ends, whatever
    the peer sends before it closes the connection: without an error, or because SIGPIPE
    kills the process, which happens only if a [send] finds the connection broken.  One
    round more than the bytes the peer sends is enough fuel. *)
Theorem serve_loop_terminates sock blk chain msg w c :
  sockets w !! sock = Some c -> bytes_ok (stream (incoming c)) -> idle c = false -> killed w = false ->
  exists r w', serve_loop (S (length (stream (incoming c)))) sock blk chain msg w = (r, w') /\
    (r = Ok tt \/ r = Diverge /\ killed w' = true) /\ (no_sigpipe c -> r = Ok tt).
Proof. intros Hc Hb Hi _. by apply serve_loop_ends; [.. | lia]. Qed.

(** A node keeps its identity: whatever the wallet file holds (nothing,
    a wrong size, an invalid key, a key), after [load_or_create_wallet] has returned a
    wallet, calling it again returns the same wallet and changes nothing. *)
Theorem wallet_persists path w wal w' :
  accessible path w -> Forall (fun r => length (snd r) = 32%nat) (entropy w) ->
  load_or_create_wallet path w = (Ok wal, w') ->
  Wallet_ok wal /\ load_or_create_wallet path w' = (Ok wal, w').
Proof. intros Ha He Hl. by destruct (created_wallet_persists path w wal w' Ha He Hl) as (? & _ & ?). Qed.

(** A payment that a node builds from its own outputs is accepted by every
    node with the same UTXO set: it is not a coinbase, its signatures and amounts
    check out, and its fee is the requested one plus at most the dust threshold. *)
Theorem payment_accepted w utxos recipient amount fee tx :
  Wallet_ok w -> map_Forall (fun k _ => COutPoint_IsNull k = false) utxos ->
  0 < amount -> 0 <= fee ->
  let mine := utxo_order (filter_utxos_by_address utxos (address_ w)) in
  Forall (fun e => 0 <= nValue (snd e)) mine -> total_value mine < 2 ^ 63 ->
  CreateTransaction w mine recipient amount fee = Ok tx ->
  exists f, tx_fee tx utxos = Ok f /\ fee <= f < fee + DUST_THRESHOLD.
Proof.
  intros Hw Hn Ha Hf mine Hp Ht Hc.
  destruct (created_payment_accepted w utxos recipient amount fee tx) as (Hcb & f & Hv & Hb); try done.
  exists f. unfold tx_fee. by rewrite Hcb.
Qed.
End NodeTheorems.

(** ** A concrete node *)

Definition toy_inet : Inet := fun _ => Some 0.
Definition toy_order : UtxoOrder := map_to_list.
Lemma toy_order_laws : @UtxoOrderLaws toy_order.
Proof. intros m. reflexivity. Qed.

Definition chain_path : bytes := str "chain.dat".
#[local] Existing Instance toy_hashes.

Definition toy_peer : conn := toy_conn (@listener_bytes toy_hashes toy_block).
Definition node_world (o : list outcome) : world :=
  mkWorld {[ chain_path := serialize_chain toy_genesis ]} [] [] [1700000060] [(32, toy_seckey)] o 3 ∅
    [] [] [] true true false.

Lemma node_world_chain o : fst (@load_chain toy_hashes chain_path (node_world o)) = Ok toy_genesis.
Proof. vm_compute. reflexivity. Qed.

Lemma run_connector_refines_witness :
  let w := node_world [Succeeds; Connects toy_peer] in
  exists chain', files (snd (@run_connector toy_hashes toy_secp toy_inet (str "127.0.0.1") 9000 chain_path w))
    = <[chain_path := serialize_chain chain']> (files w).
Proof.
  intros w.
  destruct (@run_connector_refines toy_hashes toy_secp toy_inet (str "127.0.0.1") 9000 chain_path
              w toy_genesis (node_world_chain _)) as [E|(chain' & _ & E)]; [|by exists chain'].
  apply (f_equal (fun m => length (default [] (m !! chain_path)))) in E. vm_compute in E. discriminate.
Defined.

Lemma run_connector_adopts_witness :
  files (snd (@run_connector toy_hashes toy_secp toy_inet (str "127.0.0.1") 9000 chain_path
                (node_world [Succeeds; Connects toy_peer])))
  = {[ chain_path := serialize_chain toy_chain ]}.
Proof.
  set (res := @run_connector toy_hashes toy_secp toy_inet _ _ _ _).
  assert (let '(r, w') := res in r = Ok tt /\
            files w' = <[chain_path := serialize_chain (toy_genesis ++ [toy_block])]>
                         (files (node_world [Succeeds; Connects toy_peer]))) as Ha.
  { refine (@run_connector_adopts toy_hashes toy_hash_laws toy_secp toy_inet
      (str "127.0.0.1") 9000 chain_path (node_world [Succeeds; Connects toy_peer]) toy_genesis toy_block
      0 toy_peer [] [] (node_world_chain _) _ eq_refl eq_refl _ _ _ _ _ _).
    - apply (bool_decide_unpack _). vm_compute. reflexivity.
    - split; [reflexivity | discriminate].
    - vm_compute. reflexivity.
    - apply (bool_decide_unpack _). vm_compute. reflexivity.
    - apply (bool_decide_unpack _). vm_compute. reflexivity.
    - vm_compute. discriminate.
    - vm_compute. reflexivity. }
  destruct res as [r w']. cbn [snd]. rewrite (proj2 Ha). cbn [files node_world]. apply insert_singleton_eq.
Defined.

(** A peer that sends the payment [toy_tx]. *)
Definition toy_payer : conn :=
  toy_conn (message_buffer command.VERSION build_version_payload ++ message_buffer command.VERACK []
            ++ message_buffer command.TX (Transaction_Serialize toy_tx)).

Lemma run_receive_tx_correct_witness :
  let w := node_world [Succeeds; Succeeds; Succeeds; Connects toy_payer] in
  exists mempool tx, files (snd (@run_receive_tx toy_hashes toy_secp 9000 chain_path w))
    = <[mempool_file chain_path := serialize_mempool (mempool ++ [tx])]> (files w).
Proof.
  intros w.
  destruct (@run_receive_tx_correct toy_hashes toy_secp 9000 chain_path w toy_genesis (node_world_chain _))
    as [E|(mempool & tx & fee & _ & _ & _ & _ & _ & E)]; [|by exists mempool, tx].
  apply (f_equal (fun m => length (default [] (m !! mempool_file chain_path)))) in E.
  vm_compute in E. discriminate.
Defined.

Lemma serve_loop_terminates_witness :
  let c := toy_conn (@message_buffer toy_hashes command.GETDATA []
                     ++ @message_buffer toy_hashes command.GETBLOCKS []) in
  let w := set_sockets {[ 5 := c ]} (node_world []) in
  exists w', @serve_loop toy_hashes (S (length (stream (incoming c)))) 5 toy_block toy_chain
               Message_default w = (Ok tt, w').
Proof.
  intros c w.
  destruct (@serve_loop_terminates toy_hashes toy_hash_laws 5 toy_block toy_chain Message_default w c)
    as (r & w' & E & _ & Hr).
  - reflexivity.
  - apply (bool_decide_unpack _). vm_compute. reflexivity.
  - reflexivity.
  - reflexivity.
  - exists w'. rewrite <- Hr; [exact E|]. apply (bool_decide_unpack _). vm_compute. reflexivity.
Defined.

Lemma wallet_persists_witness :
  let '(r, w') := @load_or_create_wallet toy_hashes toy_secp (wallet_file chain_path) (node_world []) in
  r = Ok toy_wallet /\
  @load_or_create_wallet toy_hashes toy_secp (wallet_file chain_path) w' = (Ok toy_wallet, w').
Proof.
  destruct (load_or_create_wallet (wallet_file chain_path) (node_world [])) as [r w'] eqn:E.
  assert (r = Ok toy_wallet) as ->.
  { transitivity (fst (@load_or_create_wallet toy_hashes toy_secp (wallet_file chain_path) (node_world [])));
      [by rewrite E | vm_compute; reflexivity]. }
  split; [reflexivity|].
  refine (proj2 (@wallet_persists toy_hashes toy_hash_laws toy_secp toy_secp_laws
            (wallet_file chain_path) (node_world []) toy_wallet w' _ _ E)).
  - apply (bool_decide_unpack _). vm_compute. reflexivity.
  - apply (bool_decide_unpack _). vm_compute. reflexivity.
Defined.

Lemma payment_accepted_witness :
  exists f, @tx_fee toy_hashes toy_secp toy_tx (build_utxo_set toy_genesis) = Ok f /\
    DEFAULT_FEE <= f < DEFAULT_FEE + DUST_THRESHOLD.
Proof.
  refine (@payment_accepted toy_hashes toy_hash_laws toy_secp toy_secp_laws toy_order
    toy_order_laws toy_wallet (build_utxo_set toy_genesis) toy_dest 5000 DEFAULT_FEE toy_tx
    toy_wallet_ok _ _ _ _ _ _).
  - apply (bool_decide_unpack _). vm_compute. reflexivity.
  - reflexivity.
  - discriminate.
  - apply (bool_decide_unpack _). vm_compute. reflexivity.
  - vm_compute. reflexivity.
  - vm_compute. reflexivity.
Defined.
