(* ===== verification/Daemon.v ===== *)
(** network/daemon.h: the persistent node.  Its threads share [chain_] under one mutex;
    each critical section is a function from the chain to the new chain, in the [io]
    monad, and [step] is the abstract process: the critical sections in any order, with
    any values from the network.  Threads.v has the threads, and the proof that they
    implement it is in ThreadSafety.v. *)
From S2P Require Import Prelude.
From S2P Require Import World.
From S2P Require Import Crypto.
From S2P Require Import Ecdsa.
From S2P Require Import Base58.
From S2P Require Import Script.
From S2P Require Import Serializer.
From S2P Require Import Transaction.
From S2P Require Import Block.
From S2P Require Import Pow.
From S2P Require Import Wallet.
From S2P Require Import Chain.
From S2P Require Import Storage.
From S2P Require Import Socket.
From S2P Require Import Message.
From S2P Require Import Node.
From Stdlib Require Import Floats.SpecFloat.

Definition DAEMON_CYCLE_SECONDS : Z := 5.

Record PeerAddress := mkPeerAddress {
  peer_host : bytes;
  peer_port : Z;
}.

Section Daemon.
Context `{HashFns, Secp256k1, Inet, UtxoOrder}.
Context (mine_fuel : nat).

(** The members of [Node] that never change after the constructor. *)
Record node := mkNode {
  listen_port_ : Z;
  chain_path_ : bytes;
  known_peers_ : list PeerAddress;
  mine_ : bool;
  wallet_ : Wallet;
}.

(** The constructor: the members and the initial [chain_]. *)
Definition Node_make (listen_port : Z) (chain_path : bytes) (known_peers : list PeerAddress)
    (mine : bool) : io (node * list CBlock) :=
  wallet ← load_or_create_wallet (wallet_file chain_path);
  chain ← load_or_create_chain mine_fuel chain_path (address_ wallet);
  save_chain chain chain_path;;
  mret (mkNode listen_port chain_path known_peers mine wallet, chain).

(** ** Critical sections *)

Definition AcceptTransaction (n : node) (chain : list CBlock) (tx : Transaction) : io unit :=
  let utxo_set := build_utxo_set chain in
  fee ← lift (tx_fee tx utxo_set);
  if decide (fee < 0) then mret tt
  else
    mempool ← load_mempool_or_empty (mempool_file (chain_path_ n));
    if decide (size_of mempool >= MAX_MEMPOOL_SIZE) then mret tt
    else save_mempool (mempool ++ [tx]) (mempool_file (chain_path_ n)).

(** One round of [MiningLoop] after its sleep. *)
Definition mining_round (n : node) (chain : list CBlock) : io (list CBlock) :=
  let utxo_set := build_utxo_set chain in
  mempool ← load_mempool_or_empty (mempool_file (chain_path_ n));
  '(extra_txs, total_fees) ← lift (select_mempool mempool utxo_set [] 0);
  tip ← back chain;
  now ← time_now;
  new_block ← lift (build_next_block mine_fuel now (extract_headers chain) (CBlock_GetHash tip)
                      (address_ (wallet_ n)) total_fees extra_txs);
  let chain := chain ++ [new_block] in
  save_chain chain (chain_path_ n);;
  save_mempool [] (mempool_file (chain_path_ n));;
  mret chain.

(** The two critical sections of [PollPeer]. *)
Definition extend_section (n : node) (chain : list CBlock) (received_block : CBlock)
    : io (bool * list CBlock) :=
  '(extended, chain) ← lift (try_extend_chain chain received_block);
  if extended : bool then save_chain chain (chain_path_ n);; mret (true, chain)
  else mret (false, chain).
Definition reorg_section (n : node) (chain peer_chain : list CBlock) : io (list CBlock) :=
  '(switched, chain) ← lift (try_reorg chain peer_chain);
  if switched : bool then save_chain chain (chain_path_ n);; mret chain
  else mret chain.

(** The critical sections of [HandleConnection], [AcceptTransaction] apart. *)
Definition announce_section (chain : list CBlock) (sock : Z) : io unit :=
  tip ← back chain;
  Peer_Send sock command.INV (CBlock_GetHash tip);;
  mret tt.
Definition send_tip_section (chain : list CBlock) (sock : Z) : io unit :=
  tip ← back chain;
  Peer_Send sock command.BLOCK (CBlock_Serialize tip);;
  mret tt.
Definition send_chain_section (chain : list CBlock) (sock : Z) : io unit :=
  Peer_Send sock command.CHAIN (serialize_chain chain);;
  mret tt.

(** ** The process *)

(** The critical sections, with the values their threads bring to them. *)
Inductive section :=
| SAnnounce (sock : Z)
| SSendTip (sock : Z)
| SSendChain (sock : Z)
| SAccept (tx : Transaction)
| SMine
| SExtend (received_block : CBlock)
| SReorg (peer_chain : list CBlock).

(** The new chain, and what the thread learns: [extended] for [SExtend]. *)
Definition run_section (n : node) (chain : list CBlock) (s : section) : io (bool * list CBlock) :=
  match s with
  | SAnnounce sock => announce_section chain sock;; mret (true, chain)
  | SSendTip sock => send_tip_section chain sock;; mret (true, chain)
  | SSendChain sock => send_chain_section chain sock;; mret (true, chain)
  | SAccept tx => AcceptTransaction n chain tx;; mret (true, chain)
  | SMine => chain ← mining_round n chain; mret (true, chain)
  | SExtend blk => extend_section n chain blk
  | SReorg peer_chain => chain ← reorg_section n chain peer_chain; mret (true, chain)
  end.

(** [MiningLoop] runs only in a node that mines. *)
Definition enabled (n : node) (s : section) : Prop :=
  match s with SMine => mine_ n = true | _ => True end.

(** An exception that leaves a thread function ends the process, and so does a signal. *)
Inductive process :=
| Running (chain : list CBlock) (w : world)
| Dead (w : world).

Inductive step (n : node) : process -> process -> Prop :=
| step_section s chain w b chain' w' :
    enabled n s -> run_section n chain s w = (Ok (b, chain'), w') ->
    step n (Running chain w) (Running chain' w')
| step_throw s chain w e w' :
    enabled n s -> run_section n chain s w = (Throw e, w') ->
    step n (Running chain w) (Dead w')
| step_killed s chain w w' :
    enabled n s -> run_section n chain s w = (Diverge, w') -> killed w' = true ->
    step n (Running chain w) (Dead w')
| step_outside chain w w' :
    (* what threads do outside the mutex: sockets, the clock, standard output *)
    kept w w' -> step n (Running chain w) (Running chain w')
| step_ends chain w w' :
    (* one of these calls throws, or is ended by a signal *)
    kept w w' -> step n (Running chain w) (Dead w').

End Daemon.
