(* ===== verification/Wire.v ===== *)
(** The type of what comes from the network: a descriptor carries bytes, so a message
    that is received has a payload of bytes, and what is deserialized from it is
    well formed. *)
From S2P Require Import Prelude.
From S2P Require Import World.
From S2P Require Import Crypto.
From S2P Require Import Serializer.
From S2P Require Import Transaction.
From S2P Require Import Block.
From S2P Require Import Chain.
From S2P Require Import Storage.
From S2P Require Import Socket.
From S2P Require Import Message.
From S2P Require Import Node.
From S2P Require Import Protocol.
From S2P Require Import Daemon.

(** Every chunk that has arrived, or will, on an open or future connection is bytes. *)
Definition conn_ok (c : conn) : Prop := Forall bytes_ok (incoming c).
Definition outcome_ok (o : outcome) : Prop := match o with Connects c => conn_ok c | _ => True end.
Record wire_ok (w : world) : Prop := {
  wire_open : map_Forall (fun _ c => conn_ok c) (sockets w);
  wire_next : Forall outcome_ok (os w);
}.
Definition wired (w w' : world) : Prop := wire_ok w -> wire_ok w'.

Lemma wired_refl w : wired w w.
Proof. by intros Hw. Qed.
Lemma wired_trans a b c : wired a b -> wired b c -> wired a c.
Proof. unfold wired. auto. Qed.

Lemma stream_ok chunks : Forall bytes_ok chunks -> bytes_ok (stream chunks).
Proof.
  induction 1 as [|c chunks Hc _ IH]; [constructor|].
  destruct c as [|b c]; [by constructor|]. cbn [stream]. apply Forall_app. by split.
Qed.

(** ** Sending and receiving *)

Lemma recv_ok c n r got c' : recv c n = (r, got, c') -> conn_ok c -> conn_ok c'.
Proof.
  unfold recv, conn_ok. destruct (incoming c) as [|[|b chunk] chunks] eqn:E; intros [= <- <- <-]; rewrite ?E; try done.
  intros Hc. apply Forall_cons in Hc as [Hb Hc]. cbn [incoming].
  assert (bytes_ok (drop n (b :: chunk))) as Hd by (by apply Forall_drop).
  destruct (drop n (b :: chunk)); [done | by constructor].
Qed.

Lemma recv_loop_ok fuel c out n r out' c' :
  recv_loop fuel c out n = (r, out', c') -> conn_ok c -> conn_ok c'.
Proof.
  revert c out n. induction fuel as [|fuel IH]; intros c out n; destruct n as [|n]; cbn [recv_loop];
    try (intros [= <- <- <-]; done).
  destruct (recv c (S n)) as [[chunk got] c1] eqn:E. intros Hr Hc. apply recv_ok in E; [|done].
  destruct chunk as [chunk| | |]; [|by injection Hr as <- <- <-..].
  case_decide; [by injection Hr as <- <- <-|]. by apply IH in Hr.
Qed.

Lemma send_ok c data r c' : send c data = (r, c') -> conn_ok c -> conn_ok c'.
Proof.
  unfold send, conn_ok. destruct (room c); [by intros [= <- <-]|].
  repeat case_decide; by intros [= <- <-].
Qed.
Lemma send_loop_ok fuel c data r c' : send_loop fuel c data = (r, c') -> conn_ok c -> conn_ok c'.
Proof.
  revert c data. induction fuel as [|fuel IH]; intros c data; destruct data as [|b data]; cbn [send_loop];
    try (intros [= <- <-]; done).
  destruct (send c (b :: data)) as [chunk c1] eqn:E. intros Hr Hc. apply send_ok in E; [|done].
  destruct chunk as [chunk| | |]; [|by injection Hr as <- <-..].
  case_decide; [by injection Hr as <- <-|]. by apply IH in Hr.
Qed.

Create HintDb wired.

Section Wire.
Context `{HashLaws, Secp256k1, Inet, UtxoOrder}.

Lemma receive_message_ok c out r msg c' :
  receive_message c out = (r, msg, c') -> conn_ok c -> conn_ok c'.
Proof.
  unfold receive_message. intros Hr Hc.
  destruct (recv_exact c HEADER_SIZE) as [[ok header] c1] eqn:E1. apply recv_loop_ok in E1; [|done].
  destruct ok as [[]| | |]; try (by injection Hr as <- <- <-).
  case_decide; [by injection Hr as <- <- <-|]. unfold receive_payload in Hr.
  destruct (read_bytes 12 header 4%nat) as [[raw off]| | |]; try (by injection Hr as <- <- <-).
  destruct (read_uint_32LE header off) as [[len off']| | |]; try (by injection Hr as <- <- <-).
  case_decide; [by injection Hr as <- <- <-|].
  destruct (recv_exact c1 (Z.to_nat len)) as [[ok payload] c2] eqn:E2. apply recv_loop_ok in E2; [|done].
  destruct ok as [[]| | |]; try (by injection Hr as <- <- <-).
  case_decide; by injection Hr as <- <- <-.
Qed.

Lemma wire_set_conn w sock c : wire_ok w -> conn_ok c -> wire_ok (set_sockets (<[sock := c]> (sockets w)) w).
Proof. intros [Ho Hn] Hc. split; [by apply map_Forall_insert_2 | done]. Qed.

Lemma wired_send sock cmd payload : preserves wired (Peer_Send sock cmd payload).
Proof.
  intros w Hw. unfold Peer_Send. destruct (sockets w !! sock) as [c|] eqn:E; [|done].
  destruct (send_message c cmd payload) as [r c'] eqn:Es.
  assert (wire_ok (set_sockets (<[sock := c']> (sockets w)) w)) as Hw'.
  { apply wire_set_conn; [done|]. eapply send_loop_ok; [exact Es|]. by apply (wire_open w Hw sock). }
  destruct r; [exact Hw'.. | by destruct Hw'].
Qed.
Lemma wired_receive sock msg : preserves wired (Peer_Receive sock msg).
Proof.
  intros w Hw. unfold Peer_Receive. destruct (sockets w !! sock) as [c|] eqn:E; [|done].
  destruct (receive_message c msg) as [[r m] c'] eqn:Es. apply wire_set_conn; [done|].
  eapply receive_message_ok; [exact Es|]. by apply (wire_open w Hw sock).
Qed.

(** A message that was received is made of bytes. *)
Lemma received_bytes sock out w msg w' :
  wire_ok w -> Peer_Receive sock out w = (Ok (true, msg), w') -> bytes_ok (msg_payload msg).
Proof.
  intros Hw Hr. unfold Peer_Receive in Hr. destruct (sockets w !! sock) as [c|] eqn:E; [|done].
  assert (bytes_ok (stream (incoming c))) as Hs by (apply stream_ok, (wire_open w Hw sock); done).
  destruct (receive_message_spec c out Hs) as (r & m & c' & Em & _ & _ & _ & _ & Hmsg). rewrite Em in Hr.
  destruct r as [ok| | |]; try done. cbn [mbind result_bind] in Hr. injection Hr as -> -> _.
  destruct (Hmsg eq_refl) as (used & (field & _ & _ & _ & Hu) & Hst).
  rewrite Hst, Hu in Hs. rewrite !Forall_app in Hs. tauto.
Qed.

(** ** The other calls *)

Lemma wired_bind {A B} (m : io A) (k : A -> io B) :
  preserves wired m -> (forall a, preserves wired (k a)) -> preserves wired (m ≫= k).
Proof. apply preserves_bind, wired_trans. Qed.
Lemma wired_ret {A} (a : A) : preserves wired (mret a).
Proof. by intros w Hw. Qed.
Lemma wired_lift {A} (r : result A) : preserves wired (lift r).
Proof. by intros w Hw. Qed.
Lemma wired_try {A} (m h : io A) : preserves wired m -> preserves wired h -> preserves wired (try_catch m h).
Proof. apply preserves_try, wired_trans. Qed.
Lemma wired_close sock : preserves wired (close_socket sock).
Proof.
  intros w [Ho Hn]. unfold close_socket, close_fd. cbn [snd].
  destruct (sockets w !! sock) as [c|]; [|by split]. split; [by apply map_Forall_delete | done].
Qed.
Lemma wired_write path buffer : preserves wired (write_file path buffer).
Proof. intros w [Ho Hn]. rewrite write_file_eq. case_decide; by split. Qed.
Lemma wired_read path : preserves wired (read_file path).
Proof. intros w [Ho Hn]. unfold read_file. case_decide; [by split|]. destruct (files w !! path); by split. Qed.
Lemma wired_time : preserves wired time_now.
Proof. intros w [Ho Hn]. unfold time_now. destruct (clock w); by split. Qed.

(** A call that takes the next outcome hands on a connection of bytes. *)
Lemma wired_outcome {B} (k : outcome -> io B) :
  (forall o, outcome_ok o -> preserves wired (k o)) -> preserves wired (next_outcome ≫= k).
Proof.
  intros Hk w Hw. unfold mbind, io_bind, next_outcome. destruct (os w) as [|o l] eqn:E.
  - by apply Hk.
  - pose proof (wire_next w Hw) as Hn. rewrite E in Hn. apply Forall_cons in Hn as [Ho Hl].
    apply Hk; [done|]. split; [apply Hw | done].
Qed.
Lemma wired_open c : conn_ok c -> preserves wired (open_fd c).
Proof. intros Hc w [Ho Hn]. split; [by apply map_Forall_insert_2 | done]. Qed.

#[local] Hint Resolve wired_send wired_receive wired_ret wired_lift wired_close wired_write wired_read
  wired_time : wired.

(** Follows the structure of a program whose calls are typed. *)
Ltac solve_wired :=
  repeat first
    [ solve [eauto with wired]
    | progress intros
    | apply wired_bind
    | apply wired_try
    | case_decide
    | match goal with
      | |- preserves wired (match ?x with _ => _ end) => destruct x
      | |- preserves wired (if ?x then _ else _) => destruct x
      end ].

Lemma wired_socket : preserves wired sys_socket.
Proof.
  unfold sys_socket. apply wired_outcome. intros [| |c] Hc; [solve_wired | apply wired_open.. ];
    by constructor.
Qed.
Lemma wired_call : preserves wired sys_call.
Proof. unfold sys_call. apply wired_outcome. solve_wired. Qed.
Lemma wired_sys_accept : preserves wired sys_accept.
Proof. unfold sys_accept. apply wired_outcome. intros [| |c] Hc; [solve_wired.. | by apply wired_open]. Qed.
Lemma wired_sys_connect sock : preserves wired (sys_connect sock).
Proof.
  unfold sys_connect. apply wired_outcome. intros [| |c] Hc; [solve_wired.. |].
  intros w Hw. by apply wire_set_conn.
Qed.
#[local] Hint Resolve wired_socket wired_call wired_sys_accept wired_sys_connect : wired.

Lemma wired_connect host port : preserves wired (connect_to host port).
Proof. unfold connect_to, throw. solve_wired. Qed.
Lemma wired_listener port : preserves wired (create_listener port).
Proof. unfold create_listener, throw. solve_wired. Qed.
Lemma wired_accept listener : preserves wired (accept_connection listener).
Proof. unfold accept_connection, throw. solve_wired. Qed.

(** ** The daemon's critical sections *)

Lemma wired_run_section fuel n chain s : preserves wired (run_section fuel n chain s).
Proof.
  destruct s; cbn [run_section];
    unfold announce_section, send_tip_section, send_chain_section, AcceptTransaction, mining_round,
      extend_section, reorg_section, load_mempool_or_empty, load_mempool, save_mempool, save_chain, back;
    solve_wired.
Qed.
End Wire.
#[export] Hint Resolve wired_send wired_receive wired_ret wired_lift wired_close wired_write wired_read
  wired_time wired_connect wired_listener wired_accept : wired.
