(* ===== verification/Threads.v ===== *)
(** The threads of network/daemon.h as interaction trees, and the process that runs
    them: a pool of threads that take turns, one system call or one critical section at
    a time.  Infinite loops are infinite trees; no fuel is involved. *)
From S2P Require Import Prelude.
From S2P Require Import World.
From S2P Require Import Crypto.
From S2P Require Import Serializer.
From S2P Require Import Transaction.
From S2P Require Import Block.
From S2P Require Import Pow.
From S2P Require Import Chain.
From S2P Require Import Storage.
From S2P Require Import Socket.
From S2P Require Import Message.
From S2P Require Import Node.
From S2P Require Import Daemon.
From ITree Require Core.ITreeDefinition.
Import Core.ITreeDefinition.

(** What a thread asks of the process: an action of its own, a critical section under
    the mutex, or a new thread that runs [HandleConnection]. *)
Variant event : Type -> Type :=
| Unlocked : forall A : Type, io A -> event A
| Locked : section -> event bool
| Spawn : Z -> event unit.
Arguments Unlocked {A} m.

Definition thread (A : Type) : Type := itree event A.
#[export] Instance thread_ret : MRet thread := fun _ a => Ret a.
#[export] Instance thread_bind : MBind thread := fun _ _ k t => ITree.bind t k.

Definition unlocked {A} (m : io A) : thread A := ITree.trigger (Unlocked m).
Definition locked (s : section) : thread bool := ITree.trigger (Locked s).
Definition spawn (sock : Z) : thread unit := ITree.trigger (Spawn sock).

(** [while (true) { body }]. *)
Definition forever (body : thread unit) : thread unit :=
  ITree.iter (fun _ : unit => body;; mret (inl tt)) tt.

(** The scope of a [Peer]: the socket is closed when [body] returns.  (An exception that
    leaves [body] ends the process: no handler encloses a thread function.) *)
Definition closing (sock : Z) (body : thread unit) : thread unit :=
  body;; unlocked (close_socket sock).

Section Threads.
Context `{HashFns, Secp256k1, Inet, UtxoOrder}.

(** [peer.Receive(msg) && msg.command == cmd]. *)
Definition await (sock : Z) (msg : Message) (cmd : bytes) : thread (bool * Message) :=
  '(ok, msg) ← unlocked (Peer_Receive sock msg);
  mret (ok && bool_decide (msg_command msg = cmd), msg).
Definition send_to (sock : Z) (cmd payload : bytes) : thread bool := unlocked (Peer_Send sock cmd payload).

(** ** Serving a peer *)

(** One pass of [while (peer.Receive(msg))]: [inl] to go on, [inr] to leave the loop. *)
Definition connection_round (sock : Z) (msg : Message) : thread (Message + unit) :=
  '(ok, msg) ← unlocked (Peer_Receive sock msg);
  if negb ok then mret (inr tt)
  else if decide (msg_command msg = command.GETDATA) then
    locked (SSendTip sock);;
    mret (inl msg)
  else if decide (msg_command msg = command.GETBLOCKS) then
    locked (SSendChain sock);;
    mret (inl msg)
  else if decide (msg_command msg = command.TX) then
    tx ← unlocked (lift (read_from Transaction_Deserialize (msg_payload msg)));
    locked (SAccept tx);;
    mret (inl msg)
  else mret (inr tt).

Definition serve_connection (sock : Z) : thread unit :=
  '(ok, msg) ← await sock Message_default command.VERSION;
  if negb ok then mret tt
  else
    send_to sock command.VERSION build_version_payload;;
    '(ok, msg) ← await sock msg command.VERACK;
    if negb ok then mret tt
    else
      send_to sock command.VERACK [];;
      locked (SAnnounce sock);;
      ITree.iter (connection_round sock) msg.

Definition HandleConnection (client_sock : Z) : thread unit :=
  closing client_sock (serve_connection client_sock).

(** ** Polling a peer *)

(** [try { sock = connect_to(...); } catch ... return]. *)
Definition connect_opt (addr : PeerAddress) : io (option Z) :=
  try_catch (sock ← connect_to (peer_host addr) (peer_port addr); mret (Some sock)) (mret None).

(** [PollPeer] from the answer to GETDATA on. *)
Definition poll_block (sock : Z) (received_block : CBlock) (msg : Message) : thread unit :=
  extended ← locked (SExtend received_block);
  if extended : bool then mret tt
  else if negb (IsMerkleRootValid received_block)
          || negb (check_proof_of_work (block_header received_block)) then mret tt
  else
    send_to sock command.GETBLOCKS [];;
    '(ok, msg) ← await sock msg command.CHAIN;
    if negb ok then mret tt
    else
      peer_chain ← unlocked (lift (deserialize_chain (msg_payload msg)));
      locked (SReorg peer_chain);;
      mret tt.

Definition poll_talk (sock : Z) : thread unit :=
  send_to sock command.VERSION build_version_payload;;
  '(ok, msg) ← await sock Message_default command.VERSION;
  if negb ok then mret tt
  else
    send_to sock command.VERACK [];;
    '(ok, msg) ← await sock msg command.VERACK;
    if negb ok then mret tt
    else
      '(ok, msg) ← await sock msg command.INV;
      if negb ok then mret tt
      else
        send_to sock command.GETDATA (msg_payload msg);;
        '(ok, msg) ← await sock msg command.BLOCK;
        if negb ok then mret tt
        else
          received_block ← unlocked (lift (read_from CBlock_Deserialize (msg_payload msg)));
          poll_block sock received_block msg.

Definition PollPeer (addr : PeerAddress) : thread unit :=
  connected ← unlocked (connect_opt addr);
  match connected with
  | None => mret tt
  | Some sock => closing sock (poll_talk sock)
  end.

(** [for (const auto& addr : known_peers_)]. *)
Fixpoint poll_peers (peers : list PeerAddress) : thread unit :=
  match peers with
  | [] => mret tt
  | addr :: peers => PollPeer addr;; poll_peers peers
  end.

(** ** The loops, and the threads that [Run] starts

    The loops sleep between rounds; time is not modelled, so a round may come at any
    moment. *)

Definition AcceptLoop (n : node) : thread unit :=
  listener ← unlocked (create_listener (listen_port_ n));
  forever (client_sock ← unlocked (accept_connection listener); spawn client_sock).
Definition MiningLoop : thread unit := forever (locked SMine;; mret tt).
Definition PeerPollLoop (n : node) : thread unit := forever (poll_peers (known_peers_ n)).

Definition Run (n : node) : list (thread unit) :=
  [AcceptLoop n] ++ (if mine_ n then [MiningLoop] else []) ++ [PeerPollLoop n].

(** ** The process *)

Inductive machine :=
| Live (chain : list CBlock) (w : world) (threads : list (thread unit))
| Terminated (w : world).

Context (mine_fuel : nat).

(** One thread, anywhere in the pool, does the next thing it asks for.  An exception
    that leaves it terminates the process, and so does a signal.  A thread whose call
    blocks takes no turn. *)
Inductive turn (n : node) : machine -> machine -> Prop :=
| turn_tau chain w before t u after :
    observe t = TauF u ->
    turn n (Live chain w (before ++ t :: after)) (Live chain w (before ++ u :: after))
| turn_unlocked chain w before t after A (m : io A) k a w' :
    observe t = VisF (Unlocked m) k -> m w = (Ok a, w') ->
    turn n (Live chain w (before ++ t :: after)) (Live chain w' (before ++ k a :: after))
| turn_unlocked_throw chain w before t after A (m : io A) k e w' :
    observe t = VisF (Unlocked m) k -> m w = (Throw e, w') ->
    turn n (Live chain w (before ++ t :: after)) (Terminated w')
| turn_unlocked_killed chain w before t after A (m : io A) k w' :
    observe t = VisF (Unlocked m) k -> m w = (Diverge, w') -> killed w' = true ->
    turn n (Live chain w (before ++ t :: after)) (Terminated w')
| turn_locked chain w before t after s k b chain' w' :
    observe t = VisF (Locked s) k -> run_section mine_fuel n chain s w = (Ok (b, chain'), w') ->
    turn n (Live chain w (before ++ t :: after)) (Live chain' w' (before ++ k b :: after))
| turn_locked_throw chain w before t after s k e w' :
    observe t = VisF (Locked s) k -> run_section mine_fuel n chain s w = (Throw e, w') ->
    turn n (Live chain w (before ++ t :: after)) (Terminated w')
| turn_locked_killed chain w before t after s k w' :
    observe t = VisF (Locked s) k -> run_section mine_fuel n chain s w = (Diverge, w') -> killed w' = true ->
    turn n (Live chain w (before ++ t :: after)) (Terminated w')
| turn_spawn chain w before t after sock k :
    observe t = VisF (Spawn sock) k ->
    turn n (Live chain w (before ++ t :: after))
           (Live chain w (before ++ k tt :: after ++ [HandleConnection sock])).

End Threads.
