(* ===== verification/Frame.v ===== *)
(** Two halves of a world: what is on the machine (files, clock, random bytes, standard
    streams), and the network (descriptors, what socket calls will do, and whether one has
    ended the process).  An
    action on one half neither reads nor writes the other. *)
From S2P Require Import Prelude.
From S2P Require Import World.
From S2P Require Import Crypto.
From S2P Require Import Serializer.
From S2P Require Import Transaction.
From S2P Require Import Block.
From S2P Require Import Storage.
From S2P Require Import Socket.
From S2P Require Import Message.
From S2P Require Import Node.
From S2P Require Import Daemon.
From S2P Require Import Threads.

(** The machine of [w] on the network of [v]. *)
Definition blend (w v : world) : world :=
  mkWorld (files w) (unreadable w) (unwritable w) (clock w) (entropy w) (os v) (next_fd v) (sockets v)
          (closed v) (stdin w) (stdout w) (stdout_ok w) (stderr_ok w) (killed v).

Lemma blend_self w : blend w w = w.
Proof. by destruct w. Qed.
Lemma blend_blend_l a b c : blend (blend a b) c = blend a c.
Proof. done. Qed.
Lemma blend_blend_r a b c : blend a (blend b c) = blend a c.
Proof. done. Qed.

(** [m] does the same after [g] as before it. *)
Definition commutes {A} (g : world -> world) (m : io A) : Prop :=
  forall w, m (g w) = let '(r, w') := m w in (r, g w').
Definition disk_only {A} (m : io A) : Prop := forall v, commutes (fun w => blend w v) m.
Definition net_only {A} (m : io A) : Prop := forall v, commutes (blend v) m.

Lemma commutes_lift {A} g (r : result A) : commutes g (lift r).
Proof. by intros w. Qed.
Lemma commutes_bind {A B} g (m : io A) (k : A -> io B) :
  commutes g m -> (forall a, commutes g (k a)) -> commutes g (m ≫= k).
Proof.
  intros Hm Hk w. unfold mbind, io_bind. rewrite Hm.
  destruct (m w) as [[a| | |] w1]; [apply Hk | done..].
Qed.
Lemma commutes_try {A} g (m h : io A) : commutes g m -> commutes g h -> commutes g (try_catch m h).
Proof.
  intros Hm Hh w. unfold try_catch. rewrite Hm. destruct (m w) as [[a|e| |] w1]; [done | apply Hh | done..].
Qed.

Create HintDb frame.
Lemma disk_lift {A} (r : result A) : disk_only (lift r).
Proof. intros v. apply commutes_lift. Qed.
Lemma disk_ret {A} (a : A) : disk_only (mret a).
Proof. apply disk_lift. Qed.
Lemma disk_bind {A B} (m : io A) (k : A -> io B) :
  disk_only m -> (forall a, disk_only (k a)) -> disk_only (m ≫= k).
Proof. intros Hm Hk v. by apply commutes_bind; [|intros a; apply Hk]. Qed.
Lemma disk_try {A} (m h : io A) : disk_only m -> disk_only h -> disk_only (try_catch m h).
Proof. intros Hm Hh v. by apply commutes_try. Qed.
Lemma net_lift {A} (r : result A) : net_only (lift r).
Proof. intros v. apply commutes_lift. Qed.
Lemma net_ret {A} (a : A) : net_only (mret a).
Proof. apply net_lift. Qed.
Lemma net_bind {A B} (m : io A) (k : A -> io B) :
  net_only m -> (forall a, net_only (k a)) -> net_only (m ≫= k).
Proof. intros Hm Hk v. by apply commutes_bind; [|intros a; apply Hk]. Qed.
Lemma net_try {A} (m h : io A) : net_only m -> net_only h -> net_only (try_catch m h).
Proof. intros Hm Hh v. by apply commutes_try. Qed.
#[export] Hint Resolve disk_lift disk_ret net_lift net_ret : frame.

(** Follows the structure of a program. *)
Ltac solve_frame :=
  repeat first
    [ solve [eauto with frame]
    | progress intros
    | apply disk_bind | apply net_bind | apply disk_try | apply net_try
    | case_decide
    | match goal with
      | |- disk_only (match ?x with _ => _ end) => destruct x
      | |- net_only (match ?x with _ => _ end) => destruct x
      | |- disk_only (if ?x then _ else _) => destruct x
      | |- net_only (if ?x then _ else _) => destruct x
      end ].

(** ** The machine *)

Lemma disk_read path : disk_only (read_file path).
Proof.
  intros v w. unfold read_file. cbn [unreadable files blend].
  case_decide; [done|]. by destruct (files w !! path).
Qed.
Lemma disk_open_trunc path : disk_only (open_trunc path).
Proof. intros v w. unfold open_trunc. cbn [unwritable blend]. by case_decide. Qed.
Lemma disk_append path data : disk_only (append_bytes path data).
Proof. by intros v w. Qed.
Lemma disk_write path buffer : disk_only (write_file path buffer).
Proof.
  unfold write_file. apply disk_bind; [apply disk_open_trunc | intros _; apply disk_append].
Qed.
Lemma disk_time : disk_only time_now.
Proof. intros v w. unfold time_now. cbn [clock blend]. by destruct (clock w). Qed.
#[export] Hint Resolve disk_read disk_open_trunc disk_append disk_write disk_time : frame.

(** ** The network *)

Lemma net_outcome : net_only next_outcome.
Proof. intros v w. unfold next_outcome. cbn [os blend]. by destruct (os w). Qed.
Lemma net_open c : net_only (open_fd c).
Proof. by intros v w. Qed.
Lemma net_close sock : net_only (close_socket sock).
Proof. intros v w. unfold close_socket, close_fd. cbn [sockets blend]. by destruct (sockets w !! sock). Qed.
#[export] Hint Resolve net_outcome net_open net_close : frame.

Lemma net_sys_connect sock : net_only (sys_connect sock).
Proof. unfold sys_connect. apply net_bind; [apply net_outcome|]. intros [| |c]; solve_frame. by intros v w. Qed.
#[export] Hint Resolve net_sys_connect : frame.

Lemma net_listener port : net_only (create_listener port).
Proof. unfold create_listener, sys_socket, sys_call, throw. solve_frame. Qed.
Lemma net_accept listener : net_only (accept_connection listener).
Proof. unfold accept_connection, sys_accept, throw. solve_frame. Qed.

Section Net.
Context `{HashFns, Inet}.

Lemma net_connect host port : net_only (connect_to host port).
Proof. unfold connect_to, sys_socket, throw. solve_frame. Qed.
Lemma net_send sock cmd payload : net_only (Peer_Send sock cmd payload).
Proof.
  intros v w. unfold Peer_Send. cbn [sockets blend]. destruct (sockets w !! sock) as [c|]; [|done].
  by destruct (send_message c cmd payload) as [[| | |] c'].
Qed.
Lemma net_receive sock msg : net_only (Peer_Receive sock msg).
Proof.
  intros v w. unfold Peer_Receive. cbn [sockets blend]. destruct (sockets w !! sock) as [c|]; [|done].
  by destruct (receive_message c msg) as [[r m] c'].
Qed.
Lemma net_connect_opt addr : net_only (connect_opt addr).
Proof. unfold connect_opt. apply net_try, net_ret. apply net_bind; [apply net_connect|]. solve_frame. Qed.
End Net.
#[export] Hint Resolve net_listener net_accept net_connect net_send net_receive net_connect_opt : frame.

(** An action on the network leaves the files alone. *)
Lemma net_kept {A} (m : io A) : net_only m -> preserves kept m.
Proof.
  intros Hm w. specialize (Hm w w). rewrite blend_self in Hm. destruct (m w) as [r w1]. cbn [snd].
  injection Hm as ->. done.
Qed.

(** The relation "only the network half has changed". *)
Definition still (w w' : world) : Prop := w' = blend w w'.
Lemma still_trans a b c : still a b -> still b c -> still a c.
Proof. unfold still. intros E1 E2. rewrite E2. by rewrite E1. Qed.
Lemma still_kept w w' : still w w' -> kept w w'.
Proof. intros E. by rewrite E. Qed.
Lemma still_clock w w' : still w w' -> clock w' = clock w.
Proof. intros E. by rewrite E. Qed.
Lemma still_close sock w : still w (close_fd sock w).
Proof. unfold still, close_fd. destruct (sockets w !! sock); [done | by rewrite blend_self]. Qed.
(** From one call to the next. *)
Ltac solve_still := solve [repeat first [eassumption | eapply still_trans; [eassumption|]]].
