(* ===== verification/Mutex.v ===== *)
(** network/daemon.h with the mutex made explicit: a critical section is the sequence of
    the calls it makes, and while a thread holds [mutex_] the other threads go on with
    what they do outside it.  The files that a section saves are truncated first and then
    written a byte at a time, so that every state a file goes through is a state of the
    process.  Threads.v has whole sections as single turns; that this loses nothing is
    proved in Atomicity.v.

    [chain_] is assigned inside the section; here the process has the new chain from the
    end of the section.  Nothing that holds the mutex can see the difference; what the
    code reads without it is the length of the chain, for log messages. *)
From S2P Require Import Prelude.
From S2P Require Import World.
From S2P Require Import Crypto.
From S2P Require Import Serializer.
From S2P Require Import Transaction.
From S2P Require Import Block.
From S2P Require Import Pow.
From S2P Require Import Wallet.
From S2P Require Import Chain.
From S2P Require Import Storage.
From S2P Require Import Socket.
From S2P Require Import Message.
From S2P Require Import Node.
From S2P Require Import Daemon.
From S2P Require Import Threads.
From ITree Require Core.ITreeDefinition.
Import Core.ITreeDefinition.

(** ** Code as the sequence of its calls *)

Inductive code (A : Type) : Type :=
| Done (a : A)
| Act {B : Type} (m : io B) (k : B -> code A).
Arguments Done {A} a.
Arguments Act {A B} m k.

Fixpoint code_seq {A B} (c : code A) (f : A -> code B) : code B :=
  match c with
  | Done a => f a
  | Act m k => Act m (fun b => code_seq (k b) f)
  end.
#[export] Instance code_ret : MRet code := @Done.
#[export] Instance code_bind : MBind code := fun _ _ f c => code_seq c f.
Definition act {A} (m : io A) : code A := Act m Done.

(** All the calls, one after the other. *)
Fixpoint exec {A} (c : code A) : io A :=
  match c with
  | Done a => mret a
  | Act m k => b ← m; exec (k b)
  end.

(** storage/storage.h's [write_file] and the functions that end in it. *)
Fixpoint append_code (path buffer : bytes) : code unit :=
  match buffer with
  | [] => mret tt
  | byte :: rest => act (append_bytes path [byte]);; append_code path rest
  end.
Definition write_code (path buffer : bytes) : code unit :=
  act (open_trunc path);;
  append_code path buffer.

Definition save_chain_code (chain : list CBlock) (path : bytes) : code unit :=
  write_code path (serialize_chain chain).
Definition save_mempool_code (mempool : list Transaction) (path : bytes) : code unit :=
  let buffer := write_var_int32 [] (u32 (size_of mempool)) in
  let buffer := write_list Transaction_Serialize buffer mempool in
  write_code path buffer.

Section Mutex.
Context `{HashFns, Secp256k1}.
Context (mine_fuel : nat).

(** ** The critical sections *)

Definition accept_code (n : node) (chain : list CBlock) (tx : Transaction) : code unit :=
  let utxo_set := build_utxo_set chain in
  fee ← act (lift (tx_fee tx utxo_set));
  if decide (fee < 0) then mret tt
  else
    mempool ← act (load_mempool_or_empty (mempool_file (chain_path_ n)));
    if decide (size_of mempool >= MAX_MEMPOOL_SIZE) then mret tt
    else save_mempool_code (mempool ++ [tx]) (mempool_file (chain_path_ n)).

Definition mining_code (n : node) (chain : list CBlock) : code (list CBlock) :=
  let utxo_set := build_utxo_set chain in
  mempool ← act (load_mempool_or_empty (mempool_file (chain_path_ n)));
  '(extra_txs, total_fees) ← act (lift (select_mempool mempool utxo_set [] 0));
  tip ← act (back chain);
  now ← act time_now;
  new_block ← act (lift (build_next_block mine_fuel now (extract_headers chain) (CBlock_GetHash tip)
                           (address_ (wallet_ n)) total_fees extra_txs));
  let chain := chain ++ [new_block] in
  save_chain_code chain (chain_path_ n);;
  save_mempool_code [] (mempool_file (chain_path_ n));;
  mret chain.

Definition extend_code (n : node) (chain : list CBlock) (received_block : CBlock)
    : code (bool * list CBlock) :=
  '(extended, chain) ← act (lift (try_extend_chain chain received_block));
  if extended : bool then save_chain_code chain (chain_path_ n);; mret (true, chain)
  else mret (false, chain).
Definition reorg_code (n : node) (chain peer_chain : list CBlock) : code (list CBlock) :=
  '(switched, chain) ← act (lift (try_reorg chain peer_chain));
  if switched : bool then save_chain_code chain (chain_path_ n);; mret chain
  else mret chain.

Definition announce_code (chain : list CBlock) (sock : Z) : code unit :=
  tip ← act (back chain);
  act (Peer_Send sock command.INV (CBlock_GetHash tip));;
  mret tt.
Definition send_tip_code (chain : list CBlock) (sock : Z) : code unit :=
  tip ← act (back chain);
  act (Peer_Send sock command.BLOCK (CBlock_Serialize tip));;
  mret tt.
Definition send_chain_code (chain : list CBlock) (sock : Z) : code unit :=
  act (Peer_Send sock command.CHAIN (serialize_chain chain));;
  mret tt.

(** A section ends with the new chain, as [run_section] does. *)
Definition section_code (n : node) (chain : list CBlock) (s : section) : code (bool * list CBlock) :=
  match s with
  | SAnnounce sock => announce_code chain sock;; mret (true, chain)
  | SSendTip sock => send_tip_code chain sock;; mret (true, chain)
  | SSendChain sock => send_chain_code chain sock;; mret (true, chain)
  | SAccept tx => accept_code n chain tx;; mret (true, chain)
  | SMine => chain ← mining_code n chain; mret (true, chain)
  | SExtend blk => extend_code n chain blk
  | SReorg peer_chain => chain ← reorg_code n chain peer_chain; mret (true, chain)
  end.

(** ** The process *)

(** A thread, or one in a critical section: what is left of the section, and how the
    thread goes on after it. *)
Inductive slot :=
| Ready (t : thread unit)
| Holding (c : code (bool * list CBlock)) (k : bool -> thread unit).

(** [mutex_] is true when a thread holds it. *)
Inductive fine_machine :=
| FLive (chain : list CBlock) (w : world) (mutex_ : bool) (slots : list slot)
| FTerminated (w : world).

(** What a thread does outside the mutex: [outside t w t' w' new] if its next call leads
    from [w] to [w'], and starts the threads [new]. *)
Inductive outside : thread unit -> world -> thread unit -> world -> list (thread unit) -> Prop :=
| outside_tau t u w : observe t = TauF u -> outside t w u w []
| outside_call t A (m : io A) k a w w' :
    observe t = VisF (Unlocked m) k -> m w = (Ok a, w') -> outside t w (k a) w' []
| outside_spawn t sock k w :
    observe t = VisF (Spawn sock) k -> outside t w (k tt) w [HandleConnection sock].

(** One thread makes one call.  [lock_guard] waits for the mutex, and releases it at the
    end of the section.  An exception that leaves a thread terminates the process, and so
    does a signal.  A thread whose call blocks takes no turn, and keeps the mutex if it has
    it. *)
Inductive fine_turn (n : node) : fine_machine -> fine_machine -> Prop :=
| fine_outside chain w mutex_ before t t' new after w' :
    outside t w t' w' new ->
    fine_turn n (FLive chain w mutex_ (before ++ Ready t :: after))
                (FLive chain w' mutex_ (before ++ Ready t' :: after ++ (Ready <$> new)))
| fine_throw chain w mutex_ before t after A (m : io A) k e w' :
    observe t = VisF (Unlocked m) k -> m w = (Throw e, w') ->
    fine_turn n (FLive chain w mutex_ (before ++ Ready t :: after)) (FTerminated w')
| fine_killed chain w mutex_ before t after A (m : io A) k w' :
    observe t = VisF (Unlocked m) k -> m w = (Diverge, w') -> killed w' = true ->
    fine_turn n (FLive chain w mutex_ (before ++ Ready t :: after)) (FTerminated w')
| fine_lock chain w before t after s k :
    observe t = VisF (Locked s) k ->
    fine_turn n (FLive chain w false (before ++ Ready t :: after))
                (FLive chain w true (before ++ Holding (section_code n chain s) k :: after))
| fine_act chain w mutex_ before after A (m : io A) c k a w' :
    m w = (Ok a, w') ->
    fine_turn n (FLive chain w mutex_ (before ++ Holding (Act m c) k :: after))
                (FLive chain w' mutex_ (before ++ Holding (c a) k :: after))
| fine_act_throw chain w mutex_ before after A (m : io A) c k e w' :
    m w = (Throw e, w') ->
    fine_turn n (FLive chain w mutex_ (before ++ Holding (Act m c) k :: after)) (FTerminated w')
| fine_act_killed chain w mutex_ before after A (m : io A) c k w' :
    m w = (Diverge, w') -> killed w' = true ->
    fine_turn n (FLive chain w mutex_ (before ++ Holding (Act m c) k :: after)) (FTerminated w')
| fine_unlock chain w mutex_ before after b chain' k :
    fine_turn n (FLive chain w mutex_ (before ++ Holding (Done (b, chain')) k :: after))
                (FLive chain' w false (before ++ Ready (k b) :: after)).

(** The threads that hold the mutex. *)
Definition is_holding (x : slot) : bool := match x with Holding _ _ => true | Ready _ => false end.
Definition holders (slots : list slot) : nat := length (List.filter is_holding slots).

End Mutex.
