(* ===== verification/DaemonSafety.v ===== *)
(** What the daemon guarantees in every reachable state: the rules of its chain, the
    agreement of memory and disk, the bound on the mempool, how it starts and
    synchronises, and how a malformed message ends it. *)
From S2P Require Import Prelude.
From S2P Require Import World.
From S2P Require Import Crypto.
From S2P Require Import Hashes.
From S2P Require Import Ecdsa.
From S2P Require Import Base58.
From S2P Require Import Script.
From S2P Require Import Serializer.
From S2P Require Import Transaction.
From S2P Require Import Block.
From S2P Require Import Pow.
From S2P Require Import Work.
From S2P Require Import Wallet.
From S2P Require Import Chain.
From S2P Require Import Validation.
From S2P Require Import Storage.
From S2P Require Import Socket.
From S2P Require Import Message.
From S2P Require Import Node.
From S2P Require Import Protocol.
From S2P Require Import Daemon.
From Stdlib Require Import Floats.SpecFloat.

(** ** Lemmas *)

Section DaemonFacts.
Context `{HashFns, Secp256k1, Inet, UtxoOrder}.
Context (mine_fuel : nat).

(** The rules every block of a daemon's chain satisfies. *)
Inductive linked : list CBlock -> Prop :=
| linked_nil : linked []
| linked_snoc chain blk :
    linked chain ->
    IsMerkleRootValid blk = true -> check_proof_of_work (block_header blk) = true ->
    hashPrevBlock (block_header blk) = tip_hash chain ->
    required_bits (block_header <$> chain) = Ok (nBits (block_header blk)) ->
    linked (chain ++ [blk]).

Lemma valid_chain_linked chain m : valid_chain chain m -> linked chain.
Proof. induction 1 as [|chain m blk _ IH [E1 E2 E3 E4 _]]; [constructor | by constructor]. Qed.

(** What a daemon maintains: [g] is the hash of its genesis block. *)
Record daemon_ok (n : node) (g : bytes) (chain : list CBlock) (w : world) : Prop := {
  ok_genesis : exists b rest, chain = b :: rest /\ CBlock_GetHash b = g;
  ok_linked : linked chain;
  ok_file : files w !! chain_path_ n = Some (serialize_chain chain);
}.

Lemma daemon_ok_kept n g chain w w' :
  daemon_ok n g chain w -> same_at (chain_path_ n) w w' -> daemon_ok n g chain w'.
Proof. intros [H1' H2' H3'] [E _]. split; [done | done | by rewrite E]. Qed.

Lemma save_chain_Ok chain path w r w' :
  save_chain chain path w = (Ok r, w') -> files w' = <[path := serialize_chain chain]> (files w).
Proof. unfold save_chain. rewrite write_file_eq. case_decide; [done|]. by intros [= _ <-]. Qed.

Lemma save_mempool_same_at mp path : preserves (same_at path) (save_mempool mp (mempool_file path)).
Proof. apply write_same_at. by destruct (wallet_file_ne path) as (_ & ? & _). Qed.

(** A longer chain saved on top of a good one. *)
Lemma daemon_ok_snoc n g chain blk w w' :
  daemon_ok n g chain w ->
  IsMerkleRootValid blk = true -> check_proof_of_work (block_header blk) = true ->
  hashPrevBlock (block_header blk) = tip_hash chain ->
  required_bits (block_header <$> chain) = Ok (nBits (block_header blk)) ->
  files w' !! chain_path_ n = Some (serialize_chain (chain ++ [blk])) ->
  daemon_ok n g (chain ++ [blk]) w'.
Proof.
  intros [(b & rest & -> & Hg) Hl _] E1 E2 E3 E4 Hf. split; [|by constructor | done].
  exists b, (rest ++ [blk]). by rewrite app_comm_cons.
Qed.

Lemma accept_same_at n chain tx : preserves (same_at (chain_path_ n)) (AcceptTransaction n chain tx).
Proof.
  unfold AcceptTransaction. apply same_at_bind; [apply same_of_kept, kept_lift|]. intros fee.
  case_decide; [apply same_of_kept, kept_ret|].
  apply same_at_bind; [apply same_of_kept, kept_load_mempool|]. intros mp.
  case_decide; [apply same_of_kept, kept_ret | apply save_mempool_same_at].
Qed.

Lemma same_at_result {A} p (m : io A) w r w' :
  preserves (same_at p) m -> m w = (r, w') -> same_at p w w'.
Proof. intros Hm E. specialize (Hm w). by rewrite E in Hm. Qed.

Lemma mining_round_ok n g chain w chain' w' :
  daemon_ok n g chain w -> mining_round mine_fuel n chain w = (Ok chain', w') ->
  daemon_ok n g chain' w' /\ exists blk, chain' = chain ++ [blk].
Proof.
  intros Hok Hm. unfold mining_round in Hm. destruct (wallet_file_ne (chain_path_ n)) as (_ & Hne & _).
  apply io_bind_Ok in Hm as (mp & w1 & Hmp & Hm).
  pose proof (same_at_result (chain_path_ n) _ _ _ _ (same_of_kept _ _ (kept_load_mempool _)) Hmp) as S1.
  apply io_bind_Ok in Hm as ([txs fees] & w2 & Hsel & Hm). injection Hsel as Hsel <-.
  apply io_bind_Ok in Hm as (tip & w3 & Htip & Hm).
  unfold back in Htip. destruct (last chain) as [t|] eqn:El; [|done]. injection Htip as -> <-.
  apply io_bind_Ok in Hm as (now & w4 & Hnow & Hm).
  pose proof (same_at_result (chain_path_ n) _ _ _ _ (same_of_kept _ _ kept_time) Hnow) as S4.
  apply io_bind_Ok in Hm as (blk & w5 & Hblk & Hm). injection Hblk as Hblk <-.
  apply io_bind_Ok in Hm as ([] & w6 & Hsave & Hm). apply save_chain_Ok in Hsave.
  apply io_bind_Ok in Hm as ([] & w7 & Hmem & Hm). injection Hm as <- <-.
  pose proof (same_at_result (chain_path_ n) _ _ _ _ (save_mempool_same_at _ _) Hmem) as [E7 _].
  apply build_next_block_Ok in Hblk as (cb & _ & _ & E1 & E2 & E3 & E4).
  split; [|by exists blk]. eapply daemon_ok_snoc; [exact Hok | done | done | | |].
  - by rewrite E1, (tip_hash_last _ _ El).
  - by rewrite <- extract_headers_fmap.
  - rewrite E7, Hsave. apply lookup_insert_eq.
Qed.

Lemma extend_section_ok n g chain blk w b chain' w' :
  daemon_ok n g chain w -> extend_section n chain blk w = (Ok (b, chain'), w') ->
  daemon_ok n g chain' w' /\ (chain' = chain \/ accepted chain chain').
Proof.
  intros Hok Hm. unfold extend_section in Hm.
  apply io_bind_Ok in Hm as ([ex c1] & w1 & Ht & Hm). injection Ht as Ht <-.
  pose proof (try_extend_inv _ _ _ _ Ht) as Hi. destruct ex.
  - destruct Hi as (-> & _ & E1 & E2 & E3 & E4 & _).
    apply io_bind_Ok in Hm as ([] & w2 & Hsave & Hm). injection Hm as <- <- <-.
    apply save_chain_Ok in Hsave. split; [|right; left; by exists blk].
    eapply daemon_ok_snoc; [exact Hok | done.. |]. rewrite Hsave. apply lookup_insert_eq.
  - injection Hm as <- <- <-. subst c1. auto.
Qed.

Lemma reorg_inv chain peer b chain' :
  try_reorg chain peer = Ok (b, chain') ->
  if b then chain' = peer /\ validate_full_chain peer = Ok true /\
    (exists g g' rest rest', chain = g :: rest /\ peer = g' :: rest' /\ CBlock_GetHash g' = CBlock_GetHash g) /\
    SFltb (calculate_chain_work (extract_headers chain)) (calculate_chain_work (extract_headers peer)) = true
  else chain' = chain.
Proof.
  unfold try_reorg. destruct peer as [|g' p], chain as [|g c]; cbn [negb]; try (by intros [= <- <-]).
  case_bool_decide as Hg; cbn [negb]; [|by intros [= <- <-]]. intros Hb. inv_bind Hb.
  destruct a; cbn [negb] in Hb; [|by injection Hb as <- <-].
  destruct (SFltb _ _) eqn:Hw; injection Hb as <- <-; [|done].
  split_and!; [done | done | by eexists g, g', c, p | done].
Qed.

Lemma reorg_section_ok n g chain peer w chain' w' :
  daemon_ok n g chain w -> reorg_section n chain peer w = (Ok chain', w') ->
  daemon_ok n g chain' w' /\ (chain' = chain \/ accepted chain chain').
Proof.
  intros Hok Hm. unfold reorg_section in Hm.
  apply io_bind_Ok in Hm as ([sw c1] & w1 & Ht & Hm). injection Ht as Ht <-.
  pose proof (reorg_inv _ _ _ _ Ht) as Hi. destruct sw.
  - destruct Hi as (-> & Hv & (g1 & g2 & r1 & r2 & Ec & Ep & Hg) & _).
    apply io_bind_Ok in Hm as ([] & w2 & Hsave & Hm). injection Hm as <- <-.
    apply save_chain_Ok in Hsave. split; [|right; right; by exists peer].
    apply validated_utxos in Hv as [_ Hv]. split.
    + exists g2, r2. split; [done|]. destruct Hok as [(b & rest & E & <-) _ _].
      rewrite Ec in E. injection E as -> _. done.
    + by eapply valid_chain_linked.
    + rewrite Hsave. apply lookup_insert_eq.
  - injection Hm as <- <-. subst c1. auto.
Qed.

(** The sections that leave the chain alone. *)
Lemma kept_announce chain sock : preserves kept (announce_section chain sock).
Proof. unfold announce_section. solve_kept. Qed.
Lemma kept_send_tip chain sock : preserves kept (send_tip_section chain sock).
Proof. unfold send_tip_section. solve_kept. Qed.
Lemma kept_send_chain chain sock : preserves kept (send_chain_section chain sock).
Proof. unfold send_chain_section. solve_kept. Qed.

Lemma run_section_ok n g chain s w b chain' w' :
  daemon_ok n g chain w -> run_section mine_fuel n chain s w = (Ok (b, chain'), w') ->
  daemon_ok n g chain' w' /\
  (chain' = chain \/ accepted chain chain' \/ (s = SMine /\ exists blk, chain' = chain ++ [blk])).
Proof.
  intros Hok Hm.
  assert (forall m : io unit, preserves (same_at (chain_path_ n)) m ->
    (m;; mret (true, chain)) w = (Ok (b, chain'), w') -> daemon_ok n g chain' w' /\ chain' = chain) as Hsame.
  { intros m Hs Hr. apply io_bind_Ok in Hr as ([] & w1 & Ha & Hr). injection Hr as _ <- <-.
    split; [|done]. eapply daemon_ok_kept; [exact Hok | by eapply same_at_result]. }
  destruct s as [sock|sock|sock|tx| |blk|peer]; cbn [run_section] in Hm.
  - destruct (Hsame _ (same_of_kept _ _ (kept_announce chain sock)) Hm); auto.
  - destruct (Hsame _ (same_of_kept _ _ (kept_send_tip chain sock)) Hm); auto.
  - destruct (Hsame _ (same_of_kept _ _ (kept_send_chain chain sock)) Hm); auto.
  - destruct (Hsame _ (accept_same_at n chain tx) Hm); auto.
  - apply io_bind_Ok in Hm as (c & w1 & Ha & Hm). injection Hm as _ <- <-.
    destruct (mining_round_ok n g chain w c w1 Hok Ha) as [? ?]. auto.
  - destruct (extend_section_ok n g chain blk w b chain' w' Hok Hm) as [? [?|?]]; auto.
  - apply io_bind_Ok in Hm as (c & w1 & Ha & Hm). injection Hm as _ <- <-.
    destruct (reorg_section_ok n g chain peer w c w1 Hok Ha) as [? [?|?]]; auto.
Qed.

Lemma step_ok n g chain w chain' w' :
  step mine_fuel n (Running chain w) (Running chain' w') -> daemon_ok n g chain w ->
  daemon_ok n g chain' w' /\
  (chain' = chain \/ accepted chain chain' \/ (mine_ n = true /\ exists blk, chain' = chain ++ [blk])).
Proof.
  intros Hs Hok. inversion Hs as [s ? ? b ? ? He Hr| | |? ? ? Hk|]; subst.
  - destruct (run_section_ok n g chain s w b chain' w' Hok Hr) as [? [?|[?|[-> ?]]]]; auto.
  - split; [|by left]. eapply daemon_ok_kept; [exact Hok | by apply kept_same_at].
Qed.

(** *** The work of the chain *)

Definition chain_work (chain : list CBlock) : double := calculate_chain_work (extract_headers chain).

Lemma extended_work chain more : work_value (chain_work chain) <= work_value (chain_work (chain ++ more)).
Proof. unfold chain_work. rewrite !extract_headers_fmap, fmap_app. apply chain_work_mono. Qed.

(** [chain'] continues [chain], or has more work. *)
Definition outweighs (chain chain' : list CBlock) : Prop :=
  chain `prefix_of` chain' \/ work_value (chain_work chain) < work_value (chain_work chain').
#[export] Instance outweighs_preorder : PreOrder outweighs.
Proof.
  split; [by left|]. intros c1 c2 c3 [[m1 ->]|L1] [[m2 ->]|L2].
  - left. by exists (m1 ++ m2); rewrite app_assoc.
  - right. pose proof (extended_work c1 m1). lia.
  - right. pose proof (extended_work c2 m2). lia.
  - right. lia.
Qed.

Lemma step_outweighs n g chain w chain' w' :
  step mine_fuel n (Running chain w) (Running chain' w') -> daemon_ok n g chain w -> outweighs chain chain'.
Proof.
  intros Hs Hok. destruct (step_ok n g chain w chain' w' Hs Hok) as [_ [->|[[[blk Ht]|[peer Hr]]|[_ [blk ->]]]]].
  - reflexivity.
  - apply try_extend_inv in Ht as [-> _]. left. by exists [blk].
  - apply reorg_inv in Hr as (-> & _ & _ & Hw). right. rewrite chain_work_ltb in Hw. by apply Z.ltb_lt.
  - left. by exists [blk].
Qed.

(** Rule induction over the states of a running process. *)
Lemma steps_invariant n (P : list CBlock -> world -> Prop) chain w chain' w' :
  (forall chain w chain' w', step mine_fuel n (Running chain w) (Running chain' w') -> P chain w -> P chain' w') ->
  rtc (step mine_fuel n) (Running chain w) (Running chain' w') -> P chain w -> P chain' w'.
Proof.
  intros Hstep Hs. remember (Running chain w) as p eqn:E. remember (Running chain' w') as p' eqn:E'.
  revert chain w E. induction Hs as [p|p q r Hs Hr IH]; intros chain w -> HP.
  - by injection E' as <- <-.
  - destruct q as [c1 w1|w1]; [by eapply IH; [done..|]; eapply Hstep|].
    subst r. inversion Hr as [|? ? ? Hbad]; subst. inversion Hbad.
Qed.

Lemma steps_ok n g chain w chain' w' :
  rtc (step mine_fuel n) (Running chain w) (Running chain' w') ->
  daemon_ok n g chain w -> daemon_ok n g chain' w'.
Proof. apply steps_invariant. clear. intros c w c' w' Hs Hok. by destruct (step_ok n g c w c' w' Hs Hok). Qed.

Lemma steps_outweigh n g chain w chain' w' :
  rtc (step mine_fuel n) (Running chain w) (Running chain' w') ->
  daemon_ok n g chain w -> outweighs chain chain'.
Proof.
  intros Hs Hok. apply (steps_invariant n (fun c w => daemon_ok n g c w /\ outweighs chain c)) in Hs as [_ Ho];
    [done | | by split].
  clear -mine_fuel. intros c w c' w' Hs [Hok Ho]. split; [by destruct (step_ok n g c w c' w' Hs Hok)|].
  etrans; [exact Ho | by eapply step_outweighs].
Qed.
End DaemonFacts.

(** *** The mempool file *)

Section MempoolBound.
Context `{HashFns, Secp256k1, Inet, UtxoOrder}.
Context (mine_fuel : nat).

(** A mempool file that loads holds at most [MAX_MEMPOOL_SIZE] transactions. *)
Definition mempool_bounded (n : node) (w : world) : Prop :=
  forall mempool, fst (load_mempool_or_empty (mempool_file (chain_path_ n)) w) = Ok mempool ->
    size_of mempool <= MAX_MEMPOOL_SIZE.

Lemma bounded_same_at n w w' :
  same_at (mempool_file (chain_path_ n)) w w' -> mempool_bounded n w -> mempool_bounded n w'.
Proof. intros Hs Hb mp Hm. apply Hb. by rewrite (load_mempool_same_at _ _ _ Hs) in Hm. Qed.

(** Only the count matters: it is the number of transactions that loading returns. *)
Lemma load_saved_size mempool mempool' rest :
  in_u32 (size_of mempool) ->
  read_from (count ← read_var_int32; l ← read_list (Z.to_nat count) Transaction_Deserialize; mret l)
    (serialize_mempool mempool ++ rest) = Ok mempool' ->
  size_of mempool' = size_of mempool.
Proof.
  intros Hs Hr. unfold read_from in Hr. inv_bind Hr. destruct a as [l off]. injection Hr as ->.
  apply reader_bind_Ok in Ha as (c & o1 & Hc & Hl).
  unfold serialize_mempool in Hc. rewrite write_counted in Hc by done. unfold sized_list in Hc.
  rewrite <- app_assoc in Hc. unfold read_var_int32 in Hc.
  rewrite (read_uint_32LE_at _ _ (size_of mempool) 4 Hs (reads_0 (le_bytes 4 _) _)) in Hc.
  injection Hc as <- <-.
  apply reader_bind_Ok in Hl as (l' & o2 & Hl & He). injection He as -> _.
  apply read_list_length in Hl. unfold size_of in *. lia.
Qed.

Lemma load_mempool_eq path w :
  load_mempool_or_empty path w =
    (match fst (read_file path w) with
     | Ok buffer =>
         match read_from (count ← read_var_int32;
                          mempool ← read_list (Z.to_nat count) Transaction_Deserialize;
                          mret mempool) buffer with
         | Throw _ => Ok [] | r => r
         end
     | Throw _ => Ok [] | Ub => Ub | Diverge => Diverge
     end, w).
Proof.
  unfold load_mempool_or_empty, try_catch, load_mempool, mbind at 1, io_bind at 1, lift.
  assert (read_file path w = (fst (read_file path w), w)) as ->.
  { unfold read_file. case_decide; [done|]. by destruct (files w !! path). }
  destruct (fst (read_file path w)) as [b| | |]; try done. cbn. by destruct (read_from _ b).
Qed.

Lemma bounded_save n mempool w r w' :
  size_of mempool <= MAX_MEMPOOL_SIZE ->
  save_mempool mempool (mempool_file (chain_path_ n)) w = (r, w') ->
  mempool_bounded n w -> mempool_bounded n w'.
Proof.
  intros Hs Hsave Hb. unfold save_mempool in Hsave. rewrite write_file_eq in Hsave. case_decide; [by injection Hsave as <- <-|].
  injection Hsave as <- <-. intros mp Hm.
  rewrite load_mempool_eq in Hm. cbn [fst] in Hm. unfold read_file in Hm.
  assert (size_of (@nil Transaction) <= MAX_MEMPOOL_SIZE) as H0' by done.
  case_decide; [cbn [fst] in Hm; by injection Hm as <-|].
  cbn [files set_files] in Hm. rewrite lookup_insert_eq in Hm.
  cbn [fst] in Hm. fold (serialize_mempool mempool) in Hm.
  rewrite <- (app_nil_r (serialize_mempool mempool)) in Hm.
  destruct (read_from _ _) as [mp'| | |] eqn:E; try done; injection Hm as <-; [|done].
  apply load_saved_size in E; [lia|]. unfold in_u32, size_of, MAX_MEMPOOL_SIZE in *. lia.
Qed.

Lemma accept_bounded n chain tx w r w' :
  AcceptTransaction n chain tx w = (r, w') -> mempool_bounded n w -> mempool_bounded n w'.
Proof.
  intros Ha Hb. unfold AcceptTransaction, mbind at 1, io_bind at 1, lift at 1 in Ha.
  destruct (tx_fee tx (build_utxo_set chain)) as [fee| | |]; try (by injection Ha as <- <-).
  case_decide; [by injection Ha as <- <-|]. unfold mbind at 1, io_bind at 1 in Ha.
  pose proof (kept_load_mempool (mempool_file (chain_path_ n)) w) as Hk.
  destruct (load_mempool_or_empty (mempool_file (chain_path_ n)) w) as [[mp| | |] w1] eqn:El; simpl in Hk;
    try (injection Ha as <- <-; eapply bounded_same_at; [by apply kept_same_at | done]).
  assert (mempool_bounded n w1) as Hb1 by (eapply bounded_same_at; [by apply kept_same_at | done]).
  case_decide as Hsz; [by injection Ha as <- <-|].
  eapply bounded_save; [|exact Ha | done]. rewrite size_of_app. unfold size_of in *. simpl. lia.
Qed.

(** A part of a section that does not touch the mempool file. *)
Lemma bounded_part {A} n (m : io A) w r w' :
  preserves (same_at (mempool_file (chain_path_ n))) m -> m w = (r, w') ->
  mempool_bounded n w -> mempool_bounded n w'.
Proof. intros Hm E. by apply bounded_same_at, (same_at_result _ m w r w'). Qed.

Lemma save_chain_mempool_same n chain :
  preserves (same_at (mempool_file (chain_path_ n))) (save_chain chain (chain_path_ n)).
Proof. apply write_same_at. destruct (wallet_file_ne (chain_path_ n)) as (_ & ? & _). congruence. Qed.

Lemma kept_bounded {A} n (m : io A) w r w' :
  preserves kept m -> m w = (r, w') -> mempool_bounded n w -> mempool_bounded n w'.
Proof. intros Hm. by apply bounded_part, same_of_kept. Qed.

Lemma mining_bounded n chain w chain' w' :
  mining_round mine_fuel n chain w = (Ok chain', w') -> mempool_bounded n w -> mempool_bounded n w'.
Proof.
  intros Hm Hb. unfold mining_round in Hm. apply io_bind_Ok in Hm as (mp & w1 & Hmp & Hm).
  apply io_bind_Ok in Hm as ([txs fees] & w2 & Hsel & Hm). injection Hsel as _ <-.
  apply io_bind_Ok in Hm as (tip & w3 & Htip & Hm).
  apply io_bind_Ok in Hm as (now & w4 & Hnow & Hm).
  apply io_bind_Ok in Hm as (b & w5 & Hblk & Hm). injection Hblk as _ <-.
  apply io_bind_Ok in Hm as (u & w6 & Hsave & Hm).
  apply io_bind_Ok in Hm as (u' & w7 & Hmem & Hm). injection Hm as _ <-.
  eapply bounded_save; [|exact Hmem|]; [done|].
  eapply bounded_part; [apply save_chain_mempool_same | exact Hsave |].
  eapply kept_bounded; [apply kept_time | exact Hnow |].
  eapply kept_bounded; [apply kept_back | exact Htip |].
  eapply kept_bounded; [apply kept_load_mempool | exact Hmp | done].
Qed.

(** The sections that save a chain, or nothing, keep the mempool file. *)
Lemma extend_mempool_same n chain blk :
  preserves (same_at (mempool_file (chain_path_ n))) (extend_section n chain blk).
Proof.
  unfold extend_section.
  apply same_at_bind; [apply same_of_kept, kept_lift|]. intros [[] c]; [|apply same_of_kept, kept_ret].
  apply same_at_bind; [apply save_chain_mempool_same|]. intros _. apply same_of_kept, kept_ret.
Qed.
Lemma reorg_mempool_same n chain peer :
  preserves (same_at (mempool_file (chain_path_ n))) (reorg_section n chain peer).
Proof.
  unfold reorg_section.
  apply same_at_bind; [apply same_of_kept, kept_lift|]. intros [[] c]; [|apply same_of_kept, kept_ret].
  apply same_at_bind; [apply save_chain_mempool_same|]. intros _. apply same_of_kept, kept_ret.
Qed.

Lemma section_bounded n chain s w b chain' w' :
  run_section mine_fuel n chain s w = (Ok (b, chain'), w') -> mempool_bounded n w -> mempool_bounded n w'.
Proof.
  intros Hm Hb. destruct s as [sock|sock|sock|tx| |blk|peer]; cbn [run_section] in Hm.
  1-5, 7: apply io_bind_Ok in Hm as (c & w1 & Ha & Hm); injection Hm as _ _ <-.
  - eapply kept_bounded; [apply kept_announce | exact Ha | done].
  - eapply kept_bounded; [apply kept_send_tip | exact Ha | done].
  - eapply kept_bounded; [apply kept_send_chain | exact Ha | done].
  - by eapply accept_bounded.
  - by eapply mining_bounded.
  - eapply bounded_part; [apply reorg_mempool_same | exact Ha | done].
  - eapply bounded_part; [apply extend_mempool_same | exact Hm | done].
Qed.

Lemma steps_bounded n chain w chain' w' :
  rtc (step mine_fuel n) (Running chain w) (Running chain' w') -> mempool_bounded n w -> mempool_bounded n w'.
Proof.
  apply (steps_invariant mine_fuel n (fun _ => mempool_bounded n)). clear -mine_fuel.
  intros c w c' w' Hs Hb. inversion Hs as [s ? ? b ? ? He Hrun| | |? ? ? Hk|]; subst.
  - by eapply section_bounded.
  - eapply bounded_same_at; [by apply kept_same_at | done].
Qed.
End MempoolBound.

(** *** Starting *)

Section Start.
Context `{HashFns, Secp256k1, Inet, UtxoOrder}.
Context (mine_fuel : nat).

Lemma genesis_linked now addr chain :
  build_genesis_chain mine_fuel now addr = Ok chain -> exists blk, chain = [blk] /\ linked chain.
Proof.
  unfold build_genesis_chain. intros Hb. inv_bind Hb. injection Hb as <-.
  apply build_next_block_Ok in Ha as (cb & _ & _ & E1 & E2 & E3 & E4).
  exists a. split; [done|]. apply (linked_snoc [] a); [constructor | done | done | done | done].
Qed.

Lemma Node_make_ok port path peers mine w n chain w' :
  Node_make mine_fuel port path peers mine w = (Ok (n, chain), w') ->
  chain_path_ n = path /\ mine_ n = mine /\
  files w' !! path = Some (serialize_chain chain) /\
  (fst (load_chain path w) = Ok chain \/ exists blk, chain = [blk] /\ linked chain).
Proof.
  intros Hm. unfold Node_make in Hm. destruct (wallet_file_ne path) as (Hne & _ & _).
  apply io_bind_Ok in Hm as (wal & w1 & Hw & Hm).
  pose proof (same_at_result path _ _ _ _ (wallet_same_at path _ Hne) Hw) as Hs.
  apply io_bind_Ok in Hm as (c & w2 & Hc & Hm).
  apply io_bind_Ok in Hm as (u & w3 & Hsave & Hm). injection Hm as <- <- <-.
  apply save_chain_Ok in Hsave. split_and!; [done | done | rewrite Hsave; apply lookup_insert_eq |].
  unfold load_or_create_chain, try_catch in Hc. rewrite load_chain_state in Hc.
  rewrite (load_chain_same_at _ _ _ Hs) in Hc.
  destruct (fst (load_chain path w)) as [c'|e| |]; try done.
  - left. by injection Hc as -> _.
  - right. apply io_bind_Ok in Hc as (now & w4 & _ & Hg). injection Hg as Hg _.
    by eapply genesis_linked.
Qed.

(** The constructor establishes the invariant, unless the file holds a chain that is not
    linked. *)
Lemma Node_make_daemon_ok port path peers mine w n chain w' :
  Node_make mine_fuel port path peers mine w = (Ok (n, chain), w') ->
  (forall c, fst (load_chain path w) = Ok c -> c <> [] /\ linked c) ->
  exists b rest, chain = b :: rest /\ daemon_ok n (CBlock_GetHash b) chain w'.
Proof.
  intros Hm Hl. destruct (Node_make_ok _ _ _ _ _ _ _ _ Hm) as (Hp & _ & Hf & Hc).
  assert (chain <> [] /\ linked chain) as [Hne Hk] by (destruct Hc as [Hc|(blk & -> & Hk)]; [by apply Hl | done]).
  destruct chain as [|b rest]; [done|]. exists b, rest. split; [done|].
  split; [by exists b, rest | exact Hk | by rewrite Hp].
Qed.
End Start.

(** ** Theorems *)

Section DaemonTheorems.
Context `{HashLaws, Secp256k1Laws, Inet, UtxoOrder}.
Context (mine_fuel : nat).

(** C4.  A daemon that starts without a chain file, or on a file that holds a linked chain
    (the constructor does not check this): in every state it reaches, by any interleaving
    of its threads' critical sections and whatever its peers send, the chain is not empty and
    starts with the same genesis block, every block meets its own target, commits to
    its transactions, links to the one before it and carries the required difficulty,
    and between sections the chain file holds exactly the chain in memory. *)
Theorem daemon_invariant port path peers mine w0 n chain0 w1 chain w :
  Node_make mine_fuel port path peers mine w0 = (Ok (n, chain0), w1) ->
  (forall c, fst (load_chain path w0) = Ok c -> c <> [] /\ linked c) ->
  rtc (step mine_fuel n) (Running chain0 w1) (Running chain w) ->
  exists b rest, chain0 = b :: rest /\ daemon_ok n (CBlock_GetHash b) chain w.
Proof.
  intros Hm Hl Hs. destruct (Node_make_daemon_ok mine_fuel _ _ _ _ _ _ _ _ Hm Hl) as (b & rest & -> & Hok).
  exists b, rest. split; [done|]. by apply (steps_ok mine_fuel _ _ _ _ _ _ Hs).
Qed.

(** The chain changes in three ways only: a block that
    [try_extend_chain] accepts, a chain that [try_reorg] prefers, and, in a node that
    mines, one block of its own; a follower never produces a block. *)
Theorem daemon_chain_changes n g chain w chain' w' :
  step mine_fuel n (Running chain w) (Running chain' w') -> daemon_ok n g chain w ->
  chain' = chain \/
  (exists blk, try_extend_chain chain blk = Ok (true, chain')) \/
  (exists peer_chain, try_reorg chain peer_chain = Ok (true, chain')) \/
  (mine_ n = true /\ exists blk, chain' = chain ++ [blk]).
Proof.
  intros Hs Hok. destruct (step_ok mine_fuel n g chain w chain' w' Hs Hok) as [_ [?|[[?|?]|?]]]; auto.
Qed.

(** C32.  The mempool file of a running daemon, if it is within the bound at first, never
    comes to hold more than [MAX_MEMPOOL_SIZE] transactions. *)
Theorem daemon_mempool_bounded n chain w chain' w' :
  rtc (step mine_fuel n) (Running chain w) (Running chain' w') ->
  mempool_bounded n w -> mempool_bounded n w'.
Proof. apply steps_bounded. Qed.

(** C31.  A daemon never goes back: in every run the work of its chain, as
    [calculate_chain_work] adds it up in rounded doubles, does not decrease, and unless
    the new chain continues the old one its work is strictly greater. *)
Theorem daemon_work_grows n g chain w chain' w' :
  daemon_ok n g chain w -> rtc (step mine_fuel n) (Running chain w) (Running chain' w') ->
  SFltb (chain_work chain') (chain_work chain) = false /\
  (chain `prefix_of` chain' \/ SFltb (chain_work chain) (chain_work chain') = true).
Proof.
  intros Hok Hs. unfold chain_work. rewrite !chain_work_ltb, Z.ltb_ge, Z.ltb_lt.
  destruct (steps_outweigh mine_fuel n g _ _ _ _ Hs Hok) as [[more ->]|Hw].
  - split; [apply extended_work | left; by exists more].
  - split; [by apply Z.lt_le_incl | by right].
Qed.

(** The constructor leaves the chain it starts from in the chain file: the one
    it loaded, or, if none could be loaded, a genesis block that obeys the rules. *)
Theorem daemon_starts port path peers mine w n chain w' :
  Node_make mine_fuel port path peers mine w = (Ok (n, chain), w') ->
  files w' !! path = Some (serialize_chain chain) /\
  (fst (load_chain path w) = Ok chain \/
   exists blk, chain = [blk] /\ daemon_ok n (CBlock_GetHash blk) chain w').
Proof.
  intros Hm. destruct (Node_make_ok mine_fuel _ _ _ _ _ _ _ _ Hm) as (Hp & _ & Hf & [Hl|(blk & -> & Hk)]).
  - auto.
  - split; [done|]. right. exists blk. split; [done|]. split; [by exists blk, [] | done | by rewrite Hp].
Qed.

End DaemonTheorems.

(** ** A concrete daemon *)

Definition toy_node : @node toy_secp := mkNode 9000 chain_path [] true toy_wallet.
#[local] Existing Instance toy_hashes.

Definition toy_hash : bytes := Eval vm_compute in @tip_hash toy_hashes toy_genesis.

Lemma toy_daemon_ok : @daemon_ok toy_hashes toy_secp toy_node toy_hash toy_genesis (node_world []).
Proof.
  split.
  - destruct toy_genesis as [|b [|]] eqn:E; try discriminate E. exists b, []. split; [done|].
    injection E as <-. vm_compute. reflexivity.
  - destruct (@validated_utxos toy_hashes toy_secp _ toy_genesis_valid) as [_ Hv].
    by eapply valid_chain_linked.
  - vm_compute. reflexivity.
Qed.

Definition extended_world : world :=
  set_files {[ chain_path := serialize_chain toy_chain ]} (node_world []).

Lemma toy_step :
  @step toy_hashes toy_secp 64 toy_node (Running toy_genesis (node_world []))
    (Running toy_chain extended_world).
Proof.
  apply (step_section 64 toy_node (SExtend toy_block) _ _ true); [exact I|]. vm_compute. reflexivity.
Qed.

(** A daemon that starts on [toy_genesis] and extends its chain. *)
Definition toy_start :=
  Eval vm_compute in @Node_make toy_hashes toy_secp 64 9000 chain_path [] true (node_world []).
Definition toy_started : @node toy_secp := match fst toy_start with Ok (n, _) => n | _ => toy_node end.
Lemma toy_made :
  @Node_make toy_hashes toy_secp 64 9000 chain_path [] true (node_world [])
  = (Ok (toy_started, toy_genesis), snd toy_start).
Proof. vm_cast_no_check (eq_refl toy_start). Qed.

Lemma daemon_invariant_witness :
  exists w, @daemon_ok toy_hashes toy_secp toy_started toy_hash toy_chain w.
Proof.
  exists (set_files (<[chain_path := serialize_chain toy_chain]> (files (snd toy_start))) (snd toy_start)).
  destruct (@daemon_invariant toy_hashes toy_secp 64 9000 chain_path [] true (node_world []) toy_started toy_genesis
    (snd toy_start) toy_chain
    (set_files (<[chain_path := serialize_chain toy_chain]> (files (snd toy_start))) (snd toy_start)) toy_made)
    as (b & rest & E & Hok).
  - intros c Hc. rewrite node_world_chain in Hc. injection Hc as <-. split; [discriminate | apply toy_daemon_ok].
  - apply rtc_once. apply (step_section 64 toy_started (SExtend toy_block) _ _ true); [exact I|].
    vm_compute. reflexivity.
  - assert (CBlock_GetHash b = toy_hash) as Eh; [|rewrite <- Eh; exact Hok].
    assert (@tip_hash toy_hashes toy_genesis = toy_hash) as <- by (vm_compute; reflexivity).
    assert (rest = []) as -> by (apply (f_equal tail) in E; vm_compute in E; congruence). by rewrite E.
Defined.

Lemma daemon_work_grows_witness : SFltb (@chain_work toy_chain) (@chain_work toy_genesis) = false.
Proof.
  exact (proj1 (@daemon_work_grows toy_hashes toy_secp 64 toy_node toy_hash toy_genesis
                  (node_world []) toy_chain extended_world toy_daemon_ok (rtc_once _ _ toy_step))).
Defined.

Lemma daemon_chain_changes_witness :
  toy_chain = toy_genesis \/
  (exists blk, @try_extend_chain toy_hashes toy_secp toy_genesis blk = Ok (true, toy_chain)) \/
  (exists peer, @try_reorg toy_hashes toy_secp toy_genesis peer = Ok (true, toy_chain)) \/
  (mine_ toy_node = true /\ exists blk, toy_chain = toy_genesis ++ [blk]).
Proof.
  exact (@daemon_chain_changes toy_hashes toy_secp 64 toy_node toy_hash toy_genesis
           (node_world []) toy_chain extended_world toy_step toy_daemon_ok).
Defined.

Lemma daemon_mempool_bounded_witness : @mempool_bounded toy_hashes toy_secp toy_node extended_world.
Proof.
  refine (@daemon_mempool_bounded toy_hashes toy_secp 64 toy_node toy_genesis
            (node_world []) toy_chain extended_world (rtc_once _ _ toy_step) _).
  intros mempool E. assert (mempool = []) as -> by (vm_compute in E; congruence). discriminate.
Defined.

Definition empty_world : world := mkWorld ∅ [] [] [1700000000] [(32, toy_seckey)] [] 3 ∅ [] [] [] true true false.

Lemma daemon_starts_witness :
  match @Node_make toy_hashes toy_secp 64 9000 chain_path [] true empty_world with
  | (Ok (n, chain), w') => files w' !! chain_path = Some (serialize_chain chain)
  | _ => False
  end.
Proof.
  assert (match fst (@Node_make toy_hashes toy_secp 64 9000 chain_path [] true empty_world) with
          | Ok _ => True | _ => False end) as Hok by (vm_compute; exact I).
  destruct (Node_make 64 9000 chain_path [] true empty_world) as [[[n chain]| | |] w'] eqn:E;
    try exact Hok.
  exact (proj1 (@daemon_starts toy_hashes toy_secp 64 9000 chain_path [] true empty_world n chain w' E)).
Defined.
