(* ===== verification/Durability.v ===== *)
(** A node can be restarted: the blocks and transactions it writes are ones its loaders
    read back, in every critical section of the daemon. *)
From S2P Require Import Prelude.
From S2P Require Import World.
From S2P Require Import Crypto.
From S2P Require Import Hashes.
From S2P Require Import Base58.
From S2P Require Import Script.
From S2P Require Import Serializer.
From S2P Require Import Transaction.
From S2P Require Import Block.
From S2P Require Import Pow.
From S2P Require Import Wallet.
From S2P Require Import Chain.
From S2P Require Import Validation.
From S2P Require Import Storage.
From S2P Require Import Message.
From S2P Require Import Node.
From S2P Require Import Protocol.
From S2P Require Import Daemon.
From S2P Require Import DaemonSafety.

(** ** Lemmas *)

Lemma retarget_range bits span target v : retarget bits span target = Ok v -> in_u32 v.
Proof.
  unfold retarget. intros Hr. inv_bind Hr. destruct a as [m e]. inv_bind Hr. injection Hr as <-.
  set (x := Z.land a 0x007FFFFF). assert (u32 x = x) as Hx.
  { unfold x. rewrite u32_land, <- Z.land_assoc. reflexivity. }
  rewrite <- Hx, <- u32_lor. apply u32_range.
Qed.

Lemma required_bits_range headers bits :
  Forall (fun h => in_u32 (nBits h)) headers -> required_bits headers = Ok bits -> in_u32 bits.
Proof.
  intros Hh Hr. unfold required_bits in Hr. destruct headers as [|h0 hs]; [by injection Hr as <-|].
  unfold get_next_work_required in Hr. destruct (last (h0 :: hs)) as [tip|] eqn:E; [|done].
  repeat case_decide; try done.
  - injection Hr as <-. apply last_Some_elem_of in E. by eapply (proj1 (Forall_forall _ _)) in Hh.
  - destruct (_ !! _); [|done]. by apply retarget_range in Hr.
Qed.

Section Built.
Context `{HashLaws, Secp256k1}.

Definition hash_like (h : bytes) : Prop := length h = 32%nat /\ bytes_ok h.

Lemma double_hash_like m : hash_like (hash_double_sha256 m).
Proof. split; [apply hash_double_sha256_length | apply hash_double_sha256_ok]. Qed.

Lemma merkle_root_like l : l <> [] -> Forall hash_like l -> hash_like (merkle_root l).
Proof.
  remember (length l) as n eqn:Hn. revert l Hn.
  induction n as [n IH] using lt_wf_ind. intros l -> Hne Hl.
  destruct (decide (1 < length l)%nat) as [Hlt|Hle].
  - rewrite merkle_root_step by lia. pose proof (next_layer_shorter l Hlt)  as Hs.
    apply (IH (length (next_layer l))); [lia | done | |].
    + intros E. rewrite E in Hs. cbn [length] in Hs. lia.
    + unfold next_layer. apply Forall_fmap, Forall_forall. intros i _. apply double_hash_like.
  - destruct l as [|a [|? ?]]; [done | | simpl in Hle; lia]. by apply Forall_cons in Hl as [? _].
Qed.

Lemma Transaction_hash_like tx : Transaction_wf tx -> hash_like (tx_hash tx).
Proof. intros [_ ->]. apply double_hash_like. Qed.

Lemma coinbase_wf addr height fees cb :
  length addr = 20%nat -> bytes_ok addr -> build_coinbase_tx addr height fees = Ok cb -> Transaction_wf cb.
Proof.
  intros Hl Hok Hb. unfold build_coinbase_tx in Hb. inv_bind Hb. injection Hb as <-.
  apply add_i64_Ok in Ha as [-> Hr]. apply set_tx_hash_wf. split; [done|]. split_and!; try done.
  - repeat constructor; try done; cbn [prevout txid out_n scriptSig]; try apply u8_range.
  - apply Forall_singleton. split; [exact Hr|]. cbn [scriptPubKey]. split; [by apply build_p2pkh_ok|].
    unfold in_u32, size_of. rewrite build_p2pkh_length, Hl. lia.
Qed.

(** A block this program mines is one it can serialize. *)
Lemma built_block_wf fuel now headers prev addr fees txs blk :
  build_next_block fuel now headers prev addr fees txs = Ok blk ->
  hash_like prev -> length addr = 20%nat -> bytes_ok addr ->
  Forall (fun h => in_u32 (nBits h)) headers ->
  Forall Transaction_wf txs -> in_u32 (size_of txs + 1) ->
  CBlock_wf blk.
Proof.
  intros Hb Hp Hal Haok Hbits Htxs Hn. unfold build_next_block in Hb.
  inv_bind Hb. inv_bind Hb. inv_bind Hb. injection Hb as <-.
  apply required_bits_range in Ha; [|done]. apply coinbase_wf in Ha0; [|done..].
  apply mine_block_iter in Ha1 as (p & Hpr & -> & _); [|apply u32_range].
  assert (Forall Transaction_wf (a0 :: txs)) as Hall by (by constructor).
  assert (hash_like (merkle_root (tx_hash <$> a0 :: txs))) as Hroot.
  { apply merkle_root_like; [done|]. apply Forall_fmap. eapply Forall_impl; [exact Hall|].
    apply Transaction_hash_like. }
  unfold CBlock_wf, CBlockHeader_wf, in_u64, in_u32 in *.
  split; [|split; [exact Hall | unfold size_of in *; cbn [app length vtx]; lia]].
  cbn. split; [done|]. split; [exact Hp|]. split; [exact Hroot|].
  split; [split; [apply Z.div_pos; lia | apply Z.div_lt_upper_bound; lia]|]. split; [exact Ha|].
  apply Z.mod_pos_bound. lia.
Qed.

Lemma genesis_wf fuel now addr chain :
  build_genesis_chain fuel now addr = Ok chain -> length addr = 20%nat -> bytes_ok addr -> chain_wf chain.
Proof.
  unfold build_genesis_chain. intros Hb Hl Hok. inv_bind Hb. injection Hb as <-.
  apply built_block_wf in Ha; try done; [by split; [apply Forall_singleton|]|].
  split; [done | by apply Forall_replicate].
Qed.

(** The genesis chain obeys the consensus rules. *)
Lemma genesis_valid fuel now addr chain :
  build_genesis_chain fuel now addr = Ok chain -> validate_full_chain chain = Ok true.
Proof.
  unfold build_genesis_chain. intros Hb. inv_bind Hb. injection Hb as <-.
  assert (valid_block [] ∅ a) as Hv.
  { eapply (mined_valid_block fuel now [] ∅ addr [] [] 0); [constructor | done | exact Ha |].
    intros cb _. by split. }
  apply validate_full_chain_valid. split; [done|]. exists (apply_block ∅ a).
  apply (valid_snoc [] ∅ a); [constructor | exact Hv].
Qed.
End Built.

(** Selecting from the mempool does not invent transactions. *)
Lemma select_mempool_length `{HashFns, Secp256k1} mempool m sel acc txs fees :
  select_mempool mempool m sel acc = Ok (txs, fees) ->
  (length txs <= length sel + length mempool)%nat.
Proof.
  revert m sel acc. induction mempool as [|tx mempool IH]; intros m sel acc; cbn [select_mempool].
  - intros [= <- _]. lia.
  - intros Hb. inv_bind Hb. case_decide.
    + inv_bind Hb. apply IH in Hb. rewrite length_app in Hb. cbn [length] in *. lia.
    + apply IH in Hb. cbn [length]. lia.
Qed.

(** ** The daemon's files *)

Section Durable.
Context `{HashLaws, Secp256k1, Inet, UtxoOrder}.
Context (mine_fuel : nat) (n : node).
Context (wallet_good : Wallet_ok (wallet_ n)).

(** What the network can put into a section: blocks, chains and transactions that were
    deserialized. *)
Definition section_ok (s : section) : Prop :=
  match s with
  | SAccept tx => Transaction_wf tx
  | SExtend blk => CBlock_wf blk
  | SReorg peer_chain => chain_wf peer_chain
  | _ => True
  end.

Inductive net_step : list CBlock * world -> list CBlock * world -> Prop :=
| net_section s chain w b chain' w' :
    enabled n s -> section_ok s -> run_section mine_fuel n chain s w = (Ok (b, chain'), w') ->
    net_step (chain, w) (chain', w')
| net_outside chain w w' : kept w w' -> net_step (chain, w) (chain, w').

(** The mempool file holds bytes. *)
Definition mempool_bytes (w : world) : Prop :=
  forall buffer, files w !! mempool_file (chain_path_ n) = Some buffer -> bytes_ok buffer.
Record durable (chain : list CBlock) (w : world) : Prop := {
  du_chain : Forall CBlock_wf chain;
  du_mempool : mempool_bytes w;
  du_bound : mempool_bounded n w;
}.

Lemma net_step_step p p' :
  net_step p p' -> step mine_fuel n (Running (fst p) (snd p)) (Running (fst p') (snd p')).
Proof. intros [s chain w b chain' w' He _ Hr|chain w w' Hk]; [by eapply step_section | by constructor]. Qed.

Lemma mempool_bytes_same w w' :
  same_at (mempool_file (chain_path_ n)) w w' -> mempool_bytes w -> mempool_bytes w'.
Proof. intros [E _] Hb buffer. rewrite E. apply Hb. Qed.

Lemma mempool_bytes_part {A} (m : io A) w r w' :
  preserves (same_at (mempool_file (chain_path_ n))) m -> m w = (r, w') ->
  mempool_bytes w -> mempool_bytes w'.
Proof. intros Hm E. by apply mempool_bytes_same, (same_at_result _ m w r w'). Qed.

Lemma load_mempool_wf w mempool :
  mempool_bytes w -> fst (load_mempool_or_empty (mempool_file (chain_path_ n)) w) = Ok mempool ->
  Forall Transaction_wf mempool.
Proof.
  intros Hb Hl. rewrite load_mempool_eq in Hl. cbn [fst] in Hl. unfold read_file in Hl.
  case_decide; [cbn [fst] in Hl; by injection Hl as <-|].
  destruct (files w !! _) as [buffer|] eqn:E; cbn [fst] in Hl; [|by injection Hl as <-].
  destruct (read_from _ buffer) as [mp| | |] eqn:Er; try done; injection Hl as <-; [|done].
  apply (read_from_Ok _ _ _ _ _ (counted_parses _ _ _ Transaction_parses) (Hb _ E)) in Er as [[Hw _] _].
  done.
Qed.

Lemma serialize_mempool_ok mempool :
  Forall Transaction_wf mempool -> in_u32 (size_of mempool) -> bytes_ok (serialize_mempool mempool).
Proof.
  intros Hw Hs. unfold serialize_mempool. rewrite write_counted by done.
  unfold sized_list. apply Forall_app. split; [auto with siliqua|].
  eapply concat_ok; [|exact Hw]. intros tx [? _]. by apply Transaction_ser_ok.
Qed.

Lemma save_mempool_bytes mempool w r w' :
  Forall Transaction_wf mempool -> size_of mempool <= MAX_MEMPOOL_SIZE ->
  save_mempool mempool (mempool_file (chain_path_ n)) w = (r, w') -> mempool_bytes w -> mempool_bytes w'.
Proof.
  intros Hw Hs Hsave Hb. unfold save_mempool in Hsave. rewrite write_file_eq in Hsave.
  case_decide; [by injection Hsave as <- <-|]. injection Hsave as <- <-. intros buffer Hl.
  cbn [files set_files] in Hl. rewrite lookup_insert_eq in Hl. injection Hl as <-.
  apply serialize_mempool_ok; [exact Hw|]. unfold in_u32, size_of, MAX_MEMPOOL_SIZE in *. lia.
Qed.

Lemma accept_bytes chain tx w r w' :
  Transaction_wf tx -> AcceptTransaction n chain tx w = (r, w') -> mempool_bytes w -> mempool_bytes w'.
Proof.
  intros Htx Ha Hb. unfold AcceptTransaction, mbind at 1, io_bind at 1, lift at 1 in Ha.
  destruct (tx_fee tx (build_utxo_set chain)) as [fee| | |]; try (by injection Ha as <- <-).
  case_decide; [by injection Ha as <- <-|]. unfold mbind at 1, io_bind at 1 in Ha.
  pose proof (kept_load_mempool (mempool_file (chain_path_ n)) w) as Hk.
  pose proof (load_mempool_wf w) as Hwf.
  destruct (load_mempool_or_empty (mempool_file (chain_path_ n)) w) as [[mp| | |] w1] eqn:El; simpl in Hk;
    try (injection Ha as <- <-; eapply mempool_bytes_same; [by apply kept_same_at | done]).
  assert (mempool_bytes w1) as Hb1 by (eapply mempool_bytes_same; [by apply kept_same_at | done]).
  case_decide as Hsz; [by injection Ha as <- <-|].
  eapply save_mempool_bytes; [| |exact Ha | done].
  - apply Forall_app. split; [by apply Hwf | by apply Forall_singleton].
  - rewrite size_of_app. unfold size_of in *. simpl. lia.
Qed.

Lemma wallet_address : length (address_ (wallet_ n)) = 20%nat /\ bytes_ok (address_ (wallet_ n)).
Proof. destruct wallet_good as (_ & _ & ->). split; [apply ripemd160_length | apply ripemd160_ok]. Qed.

Lemma tip_hash_like chain : hash_like (tip_hash chain).
Proof.
  unfold tip_hash. destruct (last chain); [apply double_hash_like|].
  split; [done | by apply Forall_replicate].
Qed.

(** The block of a mining round. *)
Lemma mined_block_wf chain mempool txs fees tip now blk :
  Forall CBlock_wf chain -> Forall Transaction_wf mempool -> size_of mempool <= MAX_MEMPOOL_SIZE ->
  last chain = Some tip -> select_mempool mempool (build_utxo_set chain) [] 0 = Ok (txs, fees) ->
  build_next_block mine_fuel now (extract_headers chain) (CBlock_GetHash tip) (address_ (wallet_ n)) fees txs
  = Ok blk ->
  CBlock_wf blk.
Proof.
  intros Hc Hmpw Hmps El Hsel Hblk. destruct wallet_address as [Hal Haok].
  pose proof (select_mempool_length _ _ _ _ _ _ Hsel) as Hlen. cbn [length] in Hlen.
  apply select_mempool_accepted in Hsel as (new & Hnew & _ & Hin). cbn [app] in Hnew. subst new.
  eapply built_block_wf; [exact Hblk | | done | done | | |].
  - pose proof (tip_hash_like chain) as Ht. by rewrite (tip_hash_last _ _ El) in Ht.
  - rewrite extract_headers_fmap. apply Forall_fmap. eapply Forall_impl; [exact Hc|].
    intros b (Hh & _). apply Hh.
  - apply Forall_forall. intros tx Htx. eapply (proj1 (Forall_forall _ _)); [exact Hmpw | by apply Hin].
  - unfold in_u32, size_of, MAX_MEMPOOL_SIZE in *. lia.
Qed.

Lemma mining_durable chain w chain' w' :
  mining_round mine_fuel n chain w = (Ok chain', w') -> durable chain w ->
  Forall CBlock_wf chain' /\ mempool_bytes w'.
Proof.
  intros Hm [Hc Hb Hbd]. unfold mining_round in Hm.
  apply io_bind_Ok in Hm as (mp & w1 & Hmp & Hm).
  assert (Forall Transaction_wf mp) as Hmpw by (eapply load_mempool_wf; [exact Hb | by rewrite Hmp]).
  assert (size_of mp <= MAX_MEMPOOL_SIZE) as Hmps by (apply Hbd; by rewrite Hmp).
  apply io_bind_Ok in Hm as ([txs fees] & w2 & Hsel & Hm). injection Hsel as Hsel <-.
  apply io_bind_Ok in Hm as (tip & w3 & Htip & Hm).
  unfold back in Htip. destruct (last chain) as [t|] eqn:El; [|done]. injection Htip as -> <-.
  apply io_bind_Ok in Hm as (now & w4 & Hnow & Hm).
  apply io_bind_Ok in Hm as (blk & w5 & Hblk & Hm). injection Hblk as Hblk <-.
  apply io_bind_Ok in Hm as (u & w6 & Hsave & Hm).
  apply io_bind_Ok in Hm as (u' & w7 & Hmem & Hm). injection Hm as <- <-.
  split.
  - apply Forall_app. split; [done|]. apply Forall_singleton. by eapply mined_block_wf.
  - eapply save_mempool_bytes; [| |exact Hmem|]; [constructor | done |].
    eapply mempool_bytes_part; [apply save_chain_mempool_same | exact Hsave |].
    eapply mempool_bytes_part; [apply same_of_kept, kept_time | exact Hnow |].
    eapply mempool_bytes_part; [apply same_of_kept, kept_load_mempool | exact Hmp | done].
Qed.

Lemma extend_durable chain blk w b chain' w' :
  CBlock_wf blk -> extend_section n chain blk w = (Ok (b, chain'), w') -> durable chain w ->
  Forall CBlock_wf chain'.
Proof.
  intros Hw Ha [Hc _ _]. unfold extend_section in Ha.
  apply io_bind_Ok in Ha as ([ex c2] & w2 & Ht & Ha). injection Ht as Ht <-.
  pose proof (try_extend_inv _ _ _ _ Ht) as Hi. destruct ex.
  - destruct Hi as (-> & _). apply io_bind_Ok in Ha as (u & w3 & _ & Ha). injection Ha as _ <- _.
    apply Forall_app. by split; [|apply Forall_singleton].
  - injection Ha as _ <- _. by subst c2.
Qed.

Lemma reorg_durable chain peer w chain' w' :
  chain_wf peer -> reorg_section n chain peer w = (Ok chain', w') -> durable chain w ->
  Forall CBlock_wf chain'.
Proof.
  intros [Hp _] Ha [Hc _ _]. unfold reorg_section in Ha.
  apply io_bind_Ok in Ha as ([sw c1] & w1 & Ht & Ha). injection Ht as Ht <-.
  pose proof (reorg_inv _ _ _ _ Ht) as Hi. destruct sw.
  - destruct Hi as (-> & _). apply io_bind_Ok in Ha as (u & w3 & _ & Ha). by injection Ha as <- _.
  - injection Ha as <- _. by subst c1.
Qed.

Lemma section_durable chain s w b chain' w' :
  section_ok s -> run_section mine_fuel n chain s w = (Ok (b, chain'), w') -> durable chain w ->
  durable chain' w'.
Proof.
  intros Hs Hm Hd. pose proof (section_bounded mine_fuel n chain s w b chain' w' Hm (du_bound _ _ Hd)) as Hbd.
  enough (Forall CBlock_wf chain' /\ mempool_bytes w') as [? ?] by (by split).
  assert (forall m : io unit, (m;; mret (true, chain)) w = (Ok (b, chain'), w') ->
    (forall u w1, m w = (Ok u, w1) -> mempool_bytes w1) -> Forall CBlock_wf chain' /\ mempool_bytes w') as Hsame.
  { intros m Hr Hmb. apply io_bind_Ok in Hr as (u & w1 & Ha & Hr). injection Hr as _ <- <-.
    split; [apply Hd | by eapply Hmb]. }
  assert (forall A (m : io A) r w1, preserves kept m -> m w = (r, w1) -> mempool_bytes w1) as Hk.
  { intros A m r w1 Hp E. eapply mempool_bytes_part; [by apply same_of_kept | exact E | apply Hd]. }
  destruct s as [sock|sock|sock|tx| |blk|peer]; cbn [run_section section_ok] in Hm, Hs.
  - apply (Hsame _ Hm). intros u w1. apply Hk, kept_announce.
  - apply (Hsame _ Hm). intros u w1. apply Hk, kept_send_tip.
  - apply (Hsame _ Hm). intros u w1. apply Hk, kept_send_chain.
  - apply (Hsame _ Hm). intros u w1 E. by eapply accept_bytes; [| |apply Hd].
  - apply io_bind_Ok in Hm as (c & w1 & Ha & Hm). injection Hm as _ <- <-. by eapply mining_durable.
  - split; [by eapply extend_durable|].
    eapply mempool_bytes_part; [apply extend_mempool_same | exact Hm | apply Hd].
  - apply io_bind_Ok in Hm as (c & w1 & Ha & Hm). injection Hm as _ <- <-. split; [by eapply reorg_durable|].
    eapply mempool_bytes_part; [apply reorg_mempool_same | exact Ha | apply Hd].
Qed.

Lemma net_steps_durable p p' :
  rtc net_step p p' -> durable (fst p) (snd p) -> durable (fst p') (snd p').
Proof.
  induction 1 as [p|p q r Hs _ IH]; [done|]. intros Hd. apply IH.
  destruct Hs as [s chain w b chain' w' He Hok Hr|chain w w' Hk]; cbn [fst snd] in *.
  - by eapply section_durable.
  - destruct Hd as [Hc Hm Hb]. split; [done | |].
    + eapply mempool_bytes_same; [by apply kept_same_at | done].
    + eapply bounded_same_at; [by apply kept_same_at | done].
Qed.

Lemma net_steps_steps p p' :
  rtc net_step p p' -> rtc (step mine_fuel n) (Running (fst p) (snd p)) (Running (fst p') (snd p')).
Proof.
  induction 1 as [p|p q r Hs _ IH]; [by constructor|].
  eapply rtc_l; [by apply net_step_step | exact IH].
Qed.

(** A daemon can be stopped at any moment and started again: whatever was
    mined, received or reorganised, and in whatever order, loading the chain file gives
    exactly the chain in memory, as long as the file can be read and the chain has
    fewer than 2^32 blocks. *)
Theorem daemon_restart g chain w chain' w' :
  rtc net_step (chain, w) (chain', w') ->
  daemon_ok n g chain w -> durable chain w ->
  in_u32 (size_of chain') -> chain_path_ n ∉ unreadable w' ->
  load_chain (chain_path_ n) w' = (Ok chain', w').
Proof.
  intros Hs Hok Hd Hsize Hread.
  pose proof (net_steps_durable _ _ Hs Hd) as [Hc _ _].
  pose proof (steps_ok mine_fuel n g _ _ _ _ (net_steps_steps _ _ Hs) Hok) as [_ _ Hf].
  cbn [fst snd] in *. rewrite load_chain_state. f_equal. unfold load_chain.
  erewrite io_bind_eq; [|by apply read_file_Ok]. unfold lift. cbn [fst].
  apply deserialize_serialize. by split.
Qed.
End Durable.

#[local] Existing Instance toy_hashes.

(** ** A concrete run *)

Lemma daemon_restart_witness :
  @load_chain toy_hashes chain_path extended_world = (Ok toy_chain, extended_world).
Proof.
  refine (@daemon_restart toy_hashes toy_hash_laws toy_secp 64
            toy_node _ toy_hash toy_genesis (node_world []) toy_chain extended_world _ toy_daemon_ok _ _ _).
  - split_and!; vm_compute; reflexivity.
  - apply rtc_once. eapply (net_section _ _ (SExtend toy_block) _ _ true); [exact I | |].
    + apply (bool_decide_unpack _). vm_compute. reflexivity.
    + vm_compute. reflexivity.
  - split.
    + apply (bool_decide_unpack _). vm_compute. reflexivity.
    + intros buffer E. vm_compute in E. discriminate.
    + intros mempool E. assert (mempool = []) as -> by (vm_compute in E; congruence). discriminate.
  - vm_compute. split; [discriminate | reflexivity].
  - apply (bool_decide_unpack _). vm_compute. reflexivity.
Defined.
