(* ===== verification/ThreadSafety.v ===== *)
(** The threads of the daemon implement the abstract process of Daemon.v and
    Durability.v: whatever a peer sends, they enter their critical sections only with
    well-formed values, and touch no file outside them.  So every run of the pool of
    threads is a run of the abstract process, and inherits its theorems. *)
From S2P Require Import Prelude.
From S2P Require Import World.
From S2P Require Import Crypto.
From S2P Require Import Hashes.
From S2P Require Import Serializer.
From S2P Require Import Transaction.
From S2P Require Import Block.
From S2P Require Import Pow.
From S2P Require Import Wallet.
From S2P Require Import Chain.
From S2P Require Import Validation.
From S2P Require Import Storage.
From S2P Require Import Socket.
From S2P Require Import Message.
From S2P Require Import Node.
From S2P Require Import Protocol.
From S2P Require Import Daemon.
From S2P Require Import DaemonSafety.
From S2P Require Import Durability.
From S2P Require Import Wire.
From S2P Require Import Threads.
From S2P Require Import Frame.
From ITree Require Core.ITreeDefinition.
From Paco Require Import paco.
Import Core.ITreeDefinition.

(** ** Safe threads *)

Section Safe.
Context `{HashLaws, Secp256k1, Inet, UtxoOrder}.
Context (n : node).

(** [safe P t]: as long as the wire carries bytes, everything [t] does outside the
    mutex is on the network only and keeps the wire typed, every critical section it enters
    has well-formed values and is enabled, and it can only return a value in [P].
    Coinductive, because threads run forever. *)
Definition safeF {A} (P : A -> Prop) (r : thread A -> Prop) (t : itree' event A) : Prop :=
  match t with
  | RetF a => P a
  | TauF u => r u
  | VisF e k =>
      match e in event X return (X -> thread A) -> Prop with
      | Unlocked m => fun k =>
          net_only m /\ preserves wired m /\
          (forall w b w', wire_ok w -> m w = (Ok b, w') -> r (k b))
      | Locked s => fun k => enabled n s /\ section_ok s /\ (forall b, r (k b))
      | Spawn _ => fun k => r (k tt)
      end k
  end.
Definition safe_gen {A} (P : A -> Prop) (r : thread A -> Prop) (t : thread A) : Prop :=
  safeF P r (observe t).

Lemma safeF_mon {A} (P : A -> Prop) (r r' : thread A -> Prop) t :
  (forall u, r u -> r' u) -> safeF P r t -> safeF P r' t.
Proof.
  intros Hr. destruct t as [a|u|X e k]; cbn [safeF]; [done | apply Hr |].
  destruct e; [intros (? & ? & ?) | intros (? & ? & ?) | intros ?]; eauto 10.
Qed.
Lemma safe_gen_mon {A} (P : A -> Prop) : monotone1 (safe_gen P).
Proof. intros t r r' Hs Hr. by eapply safeF_mon. Qed.
Hint Resolve safe_gen_mon : paco.

Definition safe {A} (P : A -> Prop) (t : thread A) : Prop := paco1 (safe_gen P) bot1 t.

Lemma safe_unfold {A} (P : A -> Prop) t : safe P t -> safeF P (safe P) (observe t).
Proof. intros Hs. punfold Hs. eapply safeF_mon; [|exact Hs]. intros u [Hu|[]]. exact Hu. Qed.
Lemma safe_fold {A} (P : A -> Prop) t : safeF P (safe P) (observe t) -> safe P t.
Proof. intros Hs. pfold. eapply safeF_mon; [|exact Hs]. intros u Hu. by left. Qed.

(** Safe up to [r]: a proof by coinduction may use what is already safe. *)
Lemma safeF_upto {A} (P : A -> Prop) (r : thread A -> Prop) t :
  safe P t -> safeF P (upaco1 (safe_gen P) r) (observe t).
Proof.
  intros Hs. apply safe_unfold in Hs. eapply safeF_mon; [|exact Hs].
  intros u Hu. left. eapply paco1_mon; [exact Hu | done].
Qed.

Lemma observe_bind {A B} (t : thread A) (k : A -> thread B) :
  observe (ITree.bind t k) =
    match observe t with
    | RetF a => observe (k a)
    | TauF u => TauF (ITree.bind u k)
    | VisF e h => VisF e (fun x => ITree.bind (h x) k)
    end.
Proof. unfold observe at 1, ITree.bind at 1. cbn. by destruct (observe t). Qed.

Lemma safe_mret {A} (P : A -> Prop) a : P a -> safe P (mret a).
Proof. intros HP. by apply safe_fold. Qed.

Lemma safe_bind {A B} (P : A -> Prop) (Q : B -> Prop) (t : thread A) (k : A -> thread B) :
  safe P t -> (forall a, P a -> safe Q (k a)) -> safe Q (t ≫= k).
Proof.
  intros Ht Hk. revert t Ht. pcofix CIH. intros t Ht. pfold. unfold safe_gen, mbind, thread_bind.
  rewrite observe_bind. apply safe_unfold in Ht. destruct (observe t) as [a|u|X e h]; cbn [safeF] in *.
  - by apply safeF_upto, Hk.
  - right. by apply CIH.
  - destruct e.
    + destruct Ht as (Hm & Hw & Hh). split_and!; [done..|]. intros w b w' Hok E. right. by eapply CIH, Hh.
    + destruct Ht as (He & Hs & Hh). split_and!; [done..|]. intros b. right. by apply CIH, Hh.
    + right. by apply CIH.
Qed.

(** A loop is safe if its body keeps an invariant. *)
Lemma safe_iter {A I} (Inv : I -> Prop) (P : A -> Prop) (body : I -> thread (I + A)) i :
  (forall i, Inv i -> safe (fun x => match x with inl i => Inv i | inr a => P a end) (body i)) ->
  Inv i -> safe P (ITree.iter body i).
Proof.
  intros Hb Hi.
  set (k := fun lr : I + A => match lr with inl l => Tau (ITree.iter body l) | inr a => Ret a end).
  set (Q := fun x : I + A => match x with inl i => Inv i | inr a => P a end) in *.
  assert (forall j, observe (ITree.iter body j) = observe (ITree.bind (body j) k)) as Hiter by done.
  assert (forall u t, observe u = observe (ITree.bind t k) -> safe Q t -> safe P u) as Hgen.
  2: { eapply (Hgen _ (body i)); [apply Hiter | by apply Hb]. }
  pcofix CIH. intros u t Eu Ht. pfold. unfold safe_gen. rewrite Eu, observe_bind. clear u Eu.
  apply safe_unfold in Ht. destruct (observe t) as [[j|a]|u|X e h]; cbn [safeF k observe _observe] in *.
  - right. eapply CIH; [apply Hiter | by apply Hb].
  - done.
  - right. by eapply CIH.
  - destruct e.
    + destruct Ht as (Hm & Hw & Hh). split_and!; [done..|]. intros w b w' Hok E. right.
      eapply CIH; [reflexivity | by eapply Hh].
    + destruct Ht as (He & Hs & Hh). split_and!; [done..|]. intros b. right.
      eapply CIH; [reflexivity | by apply Hh].
    + right. by eapply CIH.
Qed.

Lemma safe_forever P body : safe (fun _ => True) body -> safe P (forever body).
Proof.
  intros Hb. unfold forever. apply (safe_iter (fun _ => True)); [|done]. intros _ _.
  eapply safe_bind; [exact Hb|]. intros _ _. by apply safe_mret.
Qed.

(** Actions: [P] holds of what [m] returns on a typed wire. *)
Lemma safe_act {A} (P : A -> Prop) (m : io A) :
  net_only m -> preserves wired m ->
  (forall w a w', wire_ok w -> m w = (Ok a, w') -> P a) -> safe P (unlocked m).
Proof.
  intros Hk Hw HP. apply safe_fold. split_and!; [done..|]. intros w b w' Hok E.
  apply safe_mret. by eapply HP.
Qed.
Lemma safe_section s : enabled n s -> section_ok s -> safe (fun _ => True) (locked s).
Proof. intros He Hs. apply safe_fold. split_and!; [done..|]. intros b. by apply safe_mret. Qed.
Lemma safe_new sock : safe (fun _ => True) (spawn sock).
Proof. apply safe_fold. by apply safe_mret. Qed.

Lemma safe_weaken {A} (P Q : A -> Prop) t : (forall a, P a -> Q a) -> safe P t -> safe Q t.
Proof.
  intros HPQ Ht. revert t Ht. pcofix CIH. intros t Ht. pfold. unfold safe_gen. apply safe_unfold in Ht.
  destruct (observe t) as [a|u|X e h]; cbn [safeF] in *; [auto | auto |].
  destruct e; [destruct Ht as (? & ? & ?) | destruct Ht as (? & ? & ?) |]; eauto 10.
Qed.

(** ** The threads *)

Definition any {A} (_ : A) : Prop := True.
(** What an accepted message guarantees. *)
Definition typed (r : bool * Message) : Prop := fst r = true -> bytes_ok (msg_payload (snd r)).

Lemma safe_receive sock msg : safe typed (unlocked (Peer_Receive sock msg)).
Proof.
  apply safe_act; [apply net_receive | apply wired_receive |].
  intros w [ok m] w' Hw E Hok. cbn [fst snd] in *. subst ok. by eapply received_bytes.
Qed.
Lemma safe_await sock msg cmd : safe typed (await sock msg cmd).
Proof.
  eapply safe_bind; [apply safe_receive|]. intros [ok m] Ht. apply safe_mret. intros E. cbn [fst snd] in *.
  apply andb_true_iff in E as [-> _]. by apply Ht.
Qed.
Lemma safe_send sock cmd payload : safe any (send_to sock cmd payload).
Proof. apply safe_act; [apply net_send | apply wired_send | done]. Qed.

(** Deserializing outside the mutex. *)
Lemma safe_lift {A} (P : A -> Prop) (r : result A) : (forall a, r = Ok a -> P a) -> safe P (unlocked (lift r)).
Proof.
  intros HP. apply safe_act; [apply net_lift | apply wired_lift |]. intros w a w' _ [= E _]. by apply HP.
Qed.

Lemma closing_safe sock body : safe any body -> safe any (closing sock body).
Proof.
  intros Hb. eapply safe_bind; [exact Hb|]. intros _ _. apply safe_act; [apply net_close | apply wired_close | done].
Qed.

(** [if (!ok) return;] *)
Lemma safe_unless ok (t : thread unit) : (ok = true -> safe any t) -> safe any (if negb ok then mret tt else t).
Proof. intros Ht. destruct ok; [by apply Ht | by apply safe_mret]. Qed.

Lemma connection_round_safe sock msg : safe any (connection_round sock msg).
Proof.
  unfold connection_round. eapply safe_bind; [apply safe_receive|]. intros [ok m] Hm. cbn [typed fst snd] in Hm.
  assert (forall s, enabled n s -> section_ok s -> safe any (locked s;; mret (inl m : Message + unit))) as Hs.
  { intros s He Hok. eapply safe_bind; [by apply safe_section|]. intros _ _. by apply safe_mret. }
  destruct ok; cbn [negb]; [|by apply safe_mret]. specialize (Hm eq_refl).
  case_decide; [by apply Hs|]. case_decide; [by apply Hs|]. case_decide; [|by apply safe_mret].
  eapply (safe_bind Transaction_wf); [|by intros tx Htx; apply Hs].
  apply safe_lift. intros tx E. by apply (read_from_Ok _ _ _ _ _ Transaction_parses Hm) in E as [? _].
Qed.

Lemma HandleConnection_safe sock : safe any (HandleConnection sock).
Proof.
  apply closing_safe. unfold serve_connection.
  eapply safe_bind; [apply safe_await|]. intros [ok1 m1] _. apply safe_unless. intros _.
  eapply safe_bind; [apply safe_send|]. intros _ _.
  eapply safe_bind; [apply safe_await|]. intros [ok2 m2] _. apply safe_unless. intros _.
  eapply safe_bind; [apply safe_send|]. intros _ _.
  eapply safe_bind; [by apply safe_section|]. intros _ _.
  apply (safe_iter any); [|done]. intros m _.
  eapply safe_weaken; [|apply connection_round_safe]. by intros [].
Qed.

Lemma poll_block_safe sock blk msg : CBlock_wf blk -> safe any (poll_block sock blk msg).
Proof.
  intros Hb. unfold poll_block. eapply safe_bind; [by apply safe_section|]. intros [] _; [by apply safe_mret|].
  destruct (_ || _); [by apply safe_mret|].
  eapply safe_bind; [apply safe_send|]. intros _ _.
  eapply safe_bind; [apply safe_await|]. intros [ok m] Hm. apply safe_unless. intros ->.
  cbn [typed fst snd] in Hm. specialize (Hm eq_refl).
  eapply (safe_bind chain_wf); [apply safe_lift; intros c E; by apply (deserialize_chain_Ok _ _ Hm) in E as [? _]|].
  intros c Hc. eapply safe_bind; [by apply safe_section|]. intros _ _. by apply safe_mret.
Qed.

Lemma poll_talk_safe sock : safe any (poll_talk sock).
Proof.
  unfold poll_talk. eapply safe_bind; [apply safe_send|]. intros _ _.
  eapply safe_bind; [apply safe_await|]. intros [ok1 m1] _. apply safe_unless. intros _.
  eapply safe_bind; [apply safe_send|]. intros _ _.
  eapply safe_bind; [apply safe_await|]. intros [ok2 m2] _. apply safe_unless. intros _.
  eapply safe_bind; [apply safe_await|]. intros [ok3 m3] _. apply safe_unless. intros _.
  eapply safe_bind; [apply safe_send|]. intros _ _.
  eapply safe_bind; [apply safe_await|]. intros [ok4 m4] Hm. apply safe_unless. intros ->.
  cbn [typed fst snd] in Hm. specialize (Hm eq_refl).
  eapply (safe_bind CBlock_wf); [|by intros blk; apply poll_block_safe].
  apply safe_lift. intros blk E. by apply (read_from_Ok _ _ _ _ _ CBlock_parses Hm) in E as [? _].
Qed.

Lemma PollPeer_safe addr : safe any (PollPeer addr).
Proof.
  unfold PollPeer. eapply (safe_bind any).
  - apply safe_act; [apply net_connect_opt | | done].
    apply wired_try; [|apply wired_ret]. apply wired_bind; [apply wired_connect|]. intros sock. apply wired_ret.
  - intros [sock|] _; [|by apply safe_mret]. apply closing_safe, poll_talk_safe.
Qed.

Lemma poll_peers_safe peers : safe any (poll_peers peers).
Proof.
  induction peers as [|addr peers IH]; [by apply safe_mret|].
  eapply safe_bind; [apply PollPeer_safe | done].
Qed.

Lemma Run_safe : Forall (safe any) (Run n).
Proof.
  unfold Run. apply Forall_cons. split; [|apply Forall_app; split; [|apply Forall_singleton]].
  - unfold AcceptLoop. eapply (safe_bind any); [apply safe_act; [apply net_listener | apply wired_listener | done]|].
    intros l _. apply safe_forever.
    eapply (safe_bind any); [apply safe_act; [apply net_accept | apply wired_accept | done]|].
    intros sock _. apply safe_new.
  - destruct (mine_ n) eqn:E; [|constructor]. apply Forall_singleton, safe_forever.
    eapply safe_bind; [by apply safe_section|]. intros _ _. by apply safe_mret.
  - apply safe_forever, poll_peers_safe.
Qed.
End Safe.

(** ** The pool *)

Section Pool.
Context `{HashLaws, Secp256k1, Inet, UtxoOrder}.
Context (mine_fuel : nat) (n : node).

(** A turn of a safe pool is a step of the abstract process, or none. *)
Lemma turn_refines chain w ts chain' w' ts' :
  turn mine_fuel n (Live chain w ts) (Live chain' w' ts') ->
  wire_ok w -> Forall (safe n any) ts ->
  rtc (net_step mine_fuel n) (chain, w) (chain', w') /\ wire_ok w' /\ Forall (safe n any) ts'.
Proof.
  intros Ht Hw Hts. inversion Ht as
    [? ? before t u after E|? ? before t after A m k a ? E Hm| | |
     ? ? before t after s k b ? ? E Hm| | |? ? before t after sock k E]; subst;
    apply Forall_app in Hts as [Hb Hts]; apply Forall_cons in Hts as [Hs Ha];
    apply safe_unfold in Hs; rewrite E in Hs; cbn [safeF] in Hs.
  - split; [constructor|]. split; [done|]. apply Forall_app. by split; [|constructor].
  - destruct Hs as (Hk & Hwd & Hs). pose proof (net_kept _ Hk w) as Hkw. pose proof (Hwd w Hw) as Hw'.
    rewrite Hm in Hkw, Hw'. split; [by apply rtc_once, net_outside|]. split; [done|].
    apply Forall_app. split; [done|]. constructor; [exact (Hs _ _ _ Hw Hm) | done].
  - destruct Hs as (He & Hok & Hs). pose proof (wired_run_section mine_fuel n chain s w Hw) as Hw'.
    rewrite Hm in Hw'. split; [by eapply rtc_once, net_section|]. split; [done|].
    apply Forall_app. split; [done|]. by constructor.
  - split; [constructor|]. split; [done|]. apply Forall_app. split; [done|].
    constructor; [done|]. apply Forall_app. split; [done|]. apply Forall_singleton, HandleConnection_safe.
Qed.

Lemma turns_refine c c' :
  rtc (turn mine_fuel n) c c' ->
  forall chain w ts chain' w' ts', c = Live chain w ts -> c' = Live chain' w' ts' ->
  wire_ok w -> Forall (safe n any) ts ->
  rtc (net_step mine_fuel n) (chain, w) (chain', w') /\ wire_ok w' /\ Forall (safe n any) ts'.
Proof.
  induction 1 as [c|c d e Hs Hr IH]; intros chain w ts chain' w' ts' -> E Hw Hts.
  - injection E as <- <- <-. split; [constructor | done].
  - destruct d as [c1 w1 ts1|w1].
    + destruct (turn_refines _ _ _ _ _ _ Hs Hw Hts) as (H1' & Hw1 & Hts1).
      destruct (IH _ _ _ _ _ _ eq_refl E Hw1 Hts1) as (H2' & Hw' & Hts').
      split; [by etransitivity | done].
    + subst e. inversion Hr as [|? ? ? Hbad]; subst. inversion Hbad.
Qed.
End Pool.

(** ** The lifetime of a node, from its constructor on *)

(** A file holds bytes. *)
Definition bytes_at (p : bytes) (w : world) : Prop :=
  forall buffer, files w !! p = Some buffer -> bytes_ok buffer.
Lemma bytes_same p w w' : same_at p w w' -> bytes_at p w -> bytes_at p w'.
Proof. intros [E _] Hb buffer. rewrite E. apply Hb. Qed.

Lemma wired_random : preserves wired getrandom32.
Proof. intros w [Ho Hn]. unfold getrandom32. destruct (entropy w); by split. Qed.
#[export] Hint Resolve wired_random : wired.

Section Lifetime.
Context `{HashLaws, Secp256k1Laws, Inet, UtxoOrder}.
Context (mine_fuel : nat).

(** A critical section writes the chain file and the mempool file and no other. *)
Lemma section_same_at n chain s p :
  p <> chain_path_ n -> p <> mempool_file (chain_path_ n) ->
  preserves (same_at p) (run_section mine_fuel n chain s).
Proof.
  intros Hp Hm.
  assert (forall A (m : io A), preserves kept m -> preserves (same_at p) m) as Hk by (intros; by apply same_of_kept).
  assert (forall c, preserves (same_at p) (save_chain c (chain_path_ n))) as Hsc by (intros; by apply write_same_at).
  assert (forall mp, preserves (same_at p) (save_mempool mp (mempool_file (chain_path_ n)))) as Hsm
    by (intros; by apply write_same_at).
  destruct s as [sock|sock|sock|tx| |blk|peer]; cbn [run_section].
  - apply same_at_bind; intros; apply Hk; [apply kept_announce | apply kept_ret].
  - apply same_at_bind; intros; apply Hk; [apply kept_send_tip | apply kept_ret].
  - apply same_at_bind; intros; apply Hk; [apply kept_send_chain | apply kept_ret].
  - apply same_at_bind; [|intros; apply Hk, kept_ret]. unfold AcceptTransaction.
    apply same_at_bind; [apply Hk, kept_lift|]. intros fee. case_decide; [apply Hk, kept_ret|].
    apply same_at_bind; [apply Hk, kept_load_mempool|]. intros mp. case_decide; [apply Hk, kept_ret | apply Hsm].
  - apply same_at_bind; [|intros; apply Hk, kept_ret]. unfold mining_round.
    apply same_at_bind; [apply Hk, kept_load_mempool|]. intros mp.
    apply same_at_bind; [apply Hk, kept_lift|]. intros [txs fees].
    apply same_at_bind; [apply Hk, kept_back|]. intros tip.
    apply same_at_bind; [apply Hk, kept_time|]. intros now.
    apply same_at_bind; [apply Hk, kept_lift|]. intros blk.
    apply same_at_bind; [apply Hsc|]. intros _.
    apply same_at_bind; [apply Hsm|]. intros _. apply Hk, kept_ret.
  - unfold extend_section. apply same_at_bind; [apply Hk, kept_lift|]. intros [[] c]; [|apply Hk, kept_ret].
    apply same_at_bind; [apply Hsc|]. intros _. apply Hk, kept_ret.
  - apply same_at_bind; [|intros; apply Hk, kept_ret].
    unfold reorg_section. apply same_at_bind; [apply Hk, kept_lift|]. intros [[] c]; [|apply Hk, kept_ret].
    apply same_at_bind; [apply Hsc|]. intros _. apply Hk, kept_ret.
Qed.

(** After a section the chain file holds the new chain. *)
Definition file_ok (n : node) (chain : list CBlock) (w : world) : Prop :=
  files w !! chain_path_ n = Some (serialize_chain chain).

Lemma file_ok_same n chain w w' : same_at (chain_path_ n) w w' -> file_ok n chain w -> file_ok n chain w'.
Proof. intros [E _]. unfold file_ok. by rewrite E. Qed.

Lemma section_file n chain s w b chain' w' :
  run_section mine_fuel n chain s w = (Ok (b, chain'), w') -> file_ok n chain w -> file_ok n chain' w'.
Proof.
  intros Hm Hf.
  assert (forall c w1 u w2, save_chain c (chain_path_ n) w1 = (Ok u, w2) -> file_ok n c w2) as Hsave.
  { intros c w1 u w2 E. unfold file_ok. rewrite (save_chain_Ok _ _ _ _ _ E). apply lookup_insert_eq. }
  assert (forall m : io unit, preserves (same_at (chain_path_ n)) m ->
    (m;; mret (true, chain)) w = (Ok (b, chain'), w') -> file_ok n chain' w') as Hsame.
  { intros m Hs Hr. apply io_bind_Ok in Hr as ([] & w1 & Ha & Hr). injection Hr as _ <- <-.
    eapply file_ok_same; [by eapply same_at_result | done]. }
  destruct s as [sock|sock|sock|tx| |blk|peer]; cbn [run_section] in Hm.
  - by apply (Hsame _ (same_of_kept _ _ (kept_announce chain sock))).
  - by apply (Hsame _ (same_of_kept _ _ (kept_send_tip chain sock))).
  - by apply (Hsame _ (same_of_kept _ _ (kept_send_chain chain sock))).
  - by apply (Hsame _ (accept_same_at n chain tx)).
  - apply io_bind_Ok in Hm as (c & w1 & Ha & Hm). injection Hm as _ <- <-. unfold mining_round in Ha.
    apply io_bind_Ok in Ha as (mp & w2 & _ & Ha). apply io_bind_Ok in Ha as ([txs fees] & w3 & _ & Ha).
    apply io_bind_Ok in Ha as (tip & w4 & _ & Ha). apply io_bind_Ok in Ha as (now & w5 & _ & Ha).
    apply io_bind_Ok in Ha as (blk & w6 & _ & Ha). apply io_bind_Ok in Ha as (u & w7 & Hs & Ha).
    apply io_bind_Ok in Ha as (u' & w8 & Hmem & Ha). injection Ha as <- <-.
    eapply file_ok_same; [eapply same_at_result; [apply save_mempool_same_at | exact Hmem] | by eapply Hsave].
  - unfold extend_section in Hm. apply io_bind_Ok in Hm as ([ex c] & w1 & Ht & Hm). injection Ht as Ht <-.
    pose proof (try_extend_inv _ _ _ _ Ht) as Hi. destruct ex.
    + apply io_bind_Ok in Hm as (u & w2 & Hs & Hm). injection Hm as _ <- <-. by eapply Hsave.
    + injection Hm as _ <- <-. by subst c.
  - apply io_bind_Ok in Hm as (c & w1 & Ha & Hm). injection Hm as _ <- <-. unfold reorg_section in Ha.
    apply io_bind_Ok in Ha as ([sw c1] & w2 & Ht & Ha). injection Ht as Ht <-.
    pose proof (reorg_inv _ _ _ _ Ht) as Hi. destruct sw.
    + apply io_bind_Ok in Ha as (u & w3 & Hs & Ha). injection Ha as <- <-. by eapply Hsave.
    + injection Ha as <- <-. by subst c1.
Qed.

Lemma net_steps_file n p p' :
  rtc (net_step mine_fuel n) p p' -> file_ok n (fst p) (snd p) -> file_ok n (fst p') (snd p').
Proof.
  induction 1 as [p|p q r Hs _ IH]; [done|]. intros Hf. apply IH.
  destruct Hs as [s chain w b chain' w' _ _ Hr|chain w w' Hk]; cbn [fst snd] in *.
  - by eapply section_file.
  - eapply file_ok_same; [by apply kept_same_at | done].
Qed.

Lemma net_steps_same n q p p' :
  rtc (net_step mine_fuel n) p p' -> q <> chain_path_ n -> q <> mempool_file (chain_path_ n) ->
  same_at q (snd p) (snd p').
Proof.
  intros Hs Hq Hm. induction Hs as [p|p r r' Hs _ IH]; [apply same_at_refl|].
  eapply same_at_trans; [|exact IH].
  destruct Hs as [s chain w b chain' w' _ _ Hr|chain w w' Hk]; cbn [fst snd].
  - by eapply same_at_result; [apply section_same_at|].
  - by apply kept_same_at.
Qed.

(** *** The constructor *)

Lemma created_wallet_ok path w wal w' : load_or_create_wallet path w = (Ok wal, w') -> Wallet_ok wal.
Proof.
  intros Hl. unfold load_or_create_wallet, try_catch in Hl.
  match type of Hl with context [match ?m with _ => _ end] => destruct m as [[wal1|e| |] w1] eqn:E end;
    try done.
  - injection Hl as -> ->. apply io_bind_Ok in E as (buffer & w2 & _ & E).
    case_decide; [done|]. injection E as E _. by apply Wallet_FromSeckey_ok in E as [? _].
  - apply io_bind_Ok in Hl as (wal1 & w2 & Hn & Hl). apply io_bind_Ok in Hl as (u & w3 & _ & Hl).
    injection Hl as -> _. unfold new_wallet in Hn. apply io_bind_Ok in Hn as (rnd & w4 & _ & Hn).
    injection Hn as Hn _. by apply Wallet_make_ok in Hn as [? _].
Qed.

Lemma wired_Node_make port path peers mine :
  preserves wired (Node_make mine_fuel port path peers mine).
Proof.
  assert (forall b, preserves wired (read_file b)) by apply wired_read.
  unfold Node_make, load_or_create_wallet, new_wallet, load_or_create_chain, load_chain, save_chain, throw.
  repeat first
    [ solve [eauto with wired] | progress intros | apply wired_bind | apply wired_try | case_decide ].
Qed.

(** A loaded chain has well-formed blocks, because they were deserialized from bytes; a
    new one because the program built them. *)
Lemma loaded_chain_wf path w chain w' addr :
  bytes_at path w -> length addr = 20%nat -> bytes_ok addr ->
  load_or_create_chain mine_fuel path addr w = (Ok chain, w') -> chain_wf chain.
Proof.
  intros Hd Hl Ha Hc. unfold load_or_create_chain, try_catch in Hc. rewrite load_chain_state in Hc.
  destruct (fst (load_chain path w)) as [c|e| |] eqn:E; try done.
  - injection Hc as -> _. unfold load_chain, mbind, io_bind, lift, read_file in E. case_decide; [done|].
    destruct (files w !! path) as [buffer|] eqn:Ef; [|done]. cbn [fst] in E.
    apply (deserialize_chain_Ok buffer chain (Hd _ Ef)) in E as [? _]. done.
  - apply io_bind_Ok in Hc as (now & w1 & _ & Hc). injection Hc as Hc _. by eapply genesis_wf.
Qed.

(** What a node has when its constructor returns. *)
Record started (n : node) (chain : list CBlock) (w : world) : Prop := {
  st_wallet : Wallet_ok (wallet_ n);
  st_file : file_ok n chain w;
  st_durable : durable n chain w;
  st_wire : wire_ok w;
}.

Lemma Node_make_started port path peers mine w n chain w' :
  Node_make mine_fuel port path peers mine w = (Ok (n, chain), w') ->
  wire_ok w -> bytes_at path w -> bytes_at (mempool_file path) w -> mempool_bounded n w ->
  chain_path_ n = path /\ started n chain w'.
Proof.
  intros Hm Hw Hd Hdm Hb. pose proof (wired_Node_make port path peers mine w Hw) as Hw'. rewrite Hm in Hw'.
  destruct (wallet_file_ne path) as (Hne1 & Hne2 & Hne3). unfold Node_make in Hm.
  apply io_bind_Ok in Hm as (wal & w1 & Hwal & Hm).
  apply io_bind_Ok in Hm as (c & w2 & Hc & Hm). apply io_bind_Ok in Hm as (u & w3 & Hsave & Hm).
  injection Hm as <- <- <-. pose proof (created_wallet_ok _ _ _ _ Hwal) as Hwok.
  assert (length (address_ wal) = 20%nat /\ bytes_ok (address_ wal)) as [Hal Haok].
  { destruct Hwok as (_ & _ & ->). split; [apply ripemd160_length | apply ripemd160_ok]. }
  assert (same_at path w w1) as Sp
    by (eapply same_at_result; [by apply (wallet_same_at _ (wallet_file path)) | exact Hwal]).
  assert (same_at (mempool_file path) w w3) as Sm.
  { eapply same_at_trans; [eapply same_at_result; [by apply (wallet_same_at _ (wallet_file path)) | exact Hwal]|].
    eapply same_at_trans; [|eapply same_at_result; [by apply (write_same_at _ path), not_eq_sym | exact Hsave]].
    pose proof (kept_load_chain mine_fuel path (address_ wal) w1) as K. rewrite Hc in K.
    by apply kept_same_at. }
  apply loaded_chain_wf in Hc as [Hcw _]; [|by eapply bytes_same | done..].
  split; [done|]. split; [done | | | done].
  - unfold file_ok. rewrite (save_chain_Ok _ _ _ _ _ Hsave). apply lookup_insert_eq.
  - split; [done | |].
    + by eapply (bytes_same (mempool_file path)).
    + eapply bounded_same_at; [exact Sm | exact Hb].
Qed.

(** Everything a started node reaches. *)
Lemma started_turns n chain w chain' w' ts :
  started n chain w -> rtc (turn mine_fuel n) (Live chain w (Run n)) (Live chain' w' ts) ->
  rtc (net_step mine_fuel n) (chain, w) (chain', w') /\ started n chain' w'.
Proof.
  intros [Hwal Hf Hd Hw] Hs.
  destruct (turns_refine mine_fuel n _ _ Hs _ _ _ _ _ _ eq_refl eq_refl Hw (Run_safe n)) as (Hn & Hw' & _).
  split; [done|]. split; [done | | | done].
  - exact (net_steps_file n _ _ Hn Hf).
  - exact (net_steps_durable mine_fuel n Hwal _ _ Hn Hd).
Qed.

(** A node that is constructed on a chain file finds that chain, and leaves it there. *)
Lemma restarted_from path chain w port peers mine n2 chain2 w2 :
  files w !! path = Some (serialize_chain chain) -> chain_wf chain -> path ∉ unreadable w ->
  Node_make mine_fuel port path peers mine w = (Ok (n2, chain2), w2) ->
  chain2 = chain /\ chain_path_ n2 = path /\ file_ok n2 chain w2.
Proof.
  intros Hf Hwf Hr Hm. destruct (wallet_file_ne path) as (Hne & _ & _).
  unfold Node_make in Hm. apply io_bind_Ok in Hm as (wal & w3 & Hwal & Hm).
  apply io_bind_Ok in Hm as (c & w4 & Hc & Hm). apply io_bind_Ok in Hm as (u & w5 & Hsave & Hm).
  injection Hm as <- -> <-.
  pose proof (same_at_result path _ _ _ _ (wallet_same_at path _ Hne) Hwal) as Hs.
  unfold load_or_create_chain, try_catch in Hc. rewrite load_chain_state in Hc.
  assert (fst (load_chain path w3) = Ok chain) as El.
  { rewrite (load_chain_same_at _ _ _ Hs). unfold load_chain.
    erewrite io_bind_eq; [|by apply read_file_Ok]. by apply deserialize_serialize. }
  rewrite El in Hc. injection Hc as -> _. split_and!; [done..|]. unfold file_ok.
  rewrite (save_chain_Ok _ _ _ _ _ Hsave). apply lookup_insert_eq.
Qed.
Lemma restarted_chain n chain w port peers mine n2 chain2 w2 :
  started n chain w -> in_u32 (size_of chain) -> chain_path_ n ∉ unreadable w ->
  Node_make mine_fuel port (chain_path_ n) peers mine w = (Ok (n2, chain2), w2) -> chain2 = chain.
Proof. intros [_ Hf Hd _] Hsz Hr Hm. eapply restarted_from in Hm as [? _]; [done | exact Hf | | done]. by split; [apply Hd|]. Qed.

Lemma restarted_wallet path n chain w0 w w' port0 peers0 mine0 port peers mine n2 chain2 w2 ts chain' :
  accessible (wallet_file path) w0 -> Forall (fun r => length (snd r) = 32%nat) (entropy w0) ->
  Node_make mine_fuel port0 path peers0 mine0 w0 = (Ok (n, chain), w) -> started n chain w ->
  rtc (turn mine_fuel n) (Live chain w (Run n)) (Live chain' w' ts) ->
  Node_make mine_fuel port path peers mine w' = (Ok (n2, chain2), w2) -> wallet_ n2 = wallet_ n.
Proof.
  intros Hacc He Hm Hst Hs Hm2. destruct (started_turns _ _ _ _ _ _ Hst Hs) as [Hn _].
  destruct (wallet_file_ne path) as (Hne1 & Hne2 & Hne3). unfold Node_make in Hm, Hm2.
  apply io_bind_Ok in Hm as (wal & w1 & Hwal & Hm). apply io_bind_Ok in Hm as (c & w3 & Hc & Hm).
  apply io_bind_Ok in Hm as (u & w4 & Hsave & Hm). injection Hm as <- <- <-. cbn [wallet_ chain_path_] in *.
  pose proof (net_steps_same _ (wallet_file path) _ _ Hn (not_eq_sym Hne1) (not_eq_sym Hne3)) as Sn.
  cbn [snd] in Sn.
  apply io_bind_Ok in Hm2 as (wal2 & w5 & Hwal2 & Hm2).
  apply io_bind_Ok in Hm2 as (c2 & w6 & _ & Hm2). apply io_bind_Ok in Hm2 as (u2 & w7 & _ & Hm2).
  injection Hm2 as <- _ _. cbn [wallet_].
  destruct (created_wallet_stored _ _ _ _ Hacc He Hwal) as (Hok & Hsz & Hr & Hf).
  assert (same_at (wallet_file path) w1 w') as S.
  { pose proof (kept_load_chain mine_fuel path (address_ wal) w1) as K. rewrite Hc in K.
    eapply same_at_trans; [by apply kept_same_at|].
    eapply same_at_trans; [|exact Sn]. eapply same_at_result; [|exact Hsave].
    by apply (write_same_at _ path), not_eq_sym. }
  destruct S as (Ef & _ & Er). rewrite load_wallet_file with (wal := wal) in Hwal2.
  - by injection Hwal2.
  - by rewrite Er.
  - by rewrite Ef.
  - done.
  - done.
Qed.
End Lifetime.

(** ** Theorems *)

Section LifetimeTheorems.
Context `{HashLaws, Secp256k1Laws, Inet, UtxoOrder}.
Context (mine_fuel : nat).

(** C7.  The threads implement the abstract daemon: whatever bytes the peers send
    and however the threads [Run] starts (and those [AcceptLoop] starts) take turns, the
    chain and the files change by the critical sections of [step] only, each entered
    with blocks, chains and transactions that were deserialized and are well formed, and
    the mining section only in a node that mines. *)
Theorem threads_refine n chain w chain' w' ts :
  wire_ok w -> rtc (turn mine_fuel n) (Live chain w (Run n)) (Live chain' w' ts) ->
  rtc (net_step mine_fuel n) (chain, w) (chain', w') /\
  rtc (step mine_fuel n) (Running chain w) (Running chain' w').
Proof.
  intros Hw Hs.
  destruct (turns_refine mine_fuel n _ _ Hs _ _ _ _ _ _ eq_refl eq_refl Hw (Run_safe n)) as (Hn & _).
  split; [done|]. exact (net_steps_steps mine_fuel n _ _ Hn).
Qed.

(** C12.  The types of the node's state: from the constructor on, when the disk and the
    wire hold bytes and the mempool file is within its bound at first, in every reachable
    state every block of the chain is well
    formed (hashes of 32 bytes, integers in their ranges, the computed transaction
    hashes), the mempool file loads as well-formed transactions, at most
    [MAX_MEMPOOL_SIZE] of them, and the wire still holds bytes. *)
Theorem daemon_types port path peers mine w0 n chain w chain' w' ts mempool :
  Node_make mine_fuel port path peers mine w0 = (Ok (n, chain), w) ->
  wire_ok w0 -> bytes_at path w0 -> bytes_at (mempool_file path) w0 -> mempool_bounded n w0 ->
  rtc (turn mine_fuel n) (Live chain w (Run n)) (Live chain' w' ts) ->
  Forall CBlock_wf chain' /\ wire_ok w' /\
  (fst (load_mempool_or_empty (mempool_file path) w') = Ok mempool ->
   Forall Transaction_wf mempool /\ size_of mempool <= MAX_MEMPOOL_SIZE).
Proof.
  intros Hm Hw Hp Hmp Hb Hs.
  destruct (Node_make_started mine_fuel _ _ _ _ _ _ _ _ Hm Hw Hp Hmp Hb) as [<- Hst].
  destruct (started_turns mine_fuel _ _ _ _ _ _ Hst Hs) as [_ [_ _ Hd Hw']].
  split; [apply Hd|]. split; [done|]. intros Hl. split.
  - eapply load_mempool_wf; [apply Hd | exact Hl].
  - by apply (du_bound _ _ _ Hd).
Qed.

(** C10.  A node can be stopped between critical sections and started again, with other
    peers, on another port, mining or not: if the constructor succeeds on the files the
    stopped node left, the new node has exactly the chain and the wallet of the old one.  (The
    chain file must be readable, the wallet file accessible and the mempool within its
    bound when the node was first started, and the chain must have fewer than 2^32 blocks.
    For a stop inside a section see Atomicity.v.) *)
Theorem restart_resumes port path peers mine w0 n chain w chain' w' ts port2 peers2 mine2 n2 chain2 w2 :
  Node_make mine_fuel port path peers mine w0 = (Ok (n, chain), w) ->
  wire_ok w0 -> bytes_at path w0 -> bytes_at (mempool_file path) w0 -> mempool_bounded n w0 ->
  accessible (wallet_file path) w0 -> Forall (fun r => length (snd r) = 32%nat) (entropy w0) ->
  rtc (turn mine_fuel n) (Live chain w (Run n)) (Live chain' w' ts) ->
  path ∉ unreadable w' -> in_u32 (size_of chain') ->
  Node_make mine_fuel port2 path peers2 mine2 w' = (Ok (n2, chain2), w2) ->
  chain2 = chain' /\ wallet_ n2 = wallet_ n.
Proof.
  intros Hm Hw Hp Hmp Hb Hacc He Hs Hr Hsz Hm2.
  destruct (Node_make_started mine_fuel _ _ _ _ _ _ _ _ Hm Hw Hp Hmp Hb) as [Hpath Hst].
  destruct (started_turns mine_fuel _ _ _ _ _ _ Hst Hs) as [_ Hst'].
  split; [|by eapply restarted_wallet].
  rewrite <- Hpath in Hr, Hm2. by eapply restarted_chain.
Qed.
End LifetimeTheorems.

(** ** A concrete node: it starts, mines a block, and is started again *)

#[local] Existing Instance toy_hashes.
#[local] Existing Instance toy_inet.

Definition first_start :=
  Eval vm_compute in @Node_make toy_hashes toy_secp 64 9000 chain_path [] true empty_world.
Definition first_node : @node toy_secp :=
  match fst first_start with Ok (n, _) => n | _ => toy_node end.
Definition first_chain : list CBlock := match fst first_start with Ok (_, c) => c | _ => [] end.
Definition first_mined :=
  Eval vm_compute in @run_section toy_hashes toy_secp 64 first_node first_chain SMine (snd first_start).
Definition mined_chain : list CBlock := match fst first_mined with Ok (_, c) => c | _ => [] end.
Definition second_start :=
  Eval vm_compute in @Node_make toy_hashes toy_secp 64 9001 chain_path [] false (snd first_mined).
Definition second_node : @node toy_secp :=
  match fst second_start with Ok (n, _) => n | _ => toy_node end.

Lemma first_made :
  @Node_make toy_hashes toy_secp 64 9000 chain_path [] true empty_world
  = (Ok (first_node, first_chain), snd first_start).
Proof. vm_cast_no_check (eq_refl first_start). Qed.

Lemma first_mining :
  @run_section toy_hashes toy_secp 64 first_node first_chain SMine (snd first_start)
  = (Ok (true, mined_chain), snd first_mined).
Proof. vm_cast_no_check (eq_refl (Ok (true, mined_chain), snd first_mined)). Qed.
Lemma second_made :
  exists chain w,
    @Node_make toy_hashes toy_secp 64 9001 chain_path [] false (snd first_mined) = (Ok (second_node, chain), w).
Proof.
  exists (match fst second_start with Ok (_, c) => c | _ => [] end), (snd second_start).
  vm_cast_no_check (eq_refl second_start).
Qed.

(** The hypotheses of the theorems at this start. *)
Lemma first_world_ok :
  wire_ok empty_world /\ bytes_at chain_path empty_world /\ bytes_at (mempool_file chain_path) empty_world /\
  @mempool_bounded toy_hashes toy_secp first_node empty_world /\
  accessible (wallet_file chain_path) empty_world /\
  Forall (fun r => length (snd r) = 32%nat) (entropy empty_world).
Proof.
  split_and!.
  - split; [apply map_Forall_empty | constructor].
  - intros buffer E. discriminate E.
  - intros buffer E. discriminate E.
  - intros mempool E. assert (mempool = []) as -> by (vm_compute in E; congruence). discriminate.
  - split; apply not_elem_of_nil.
  - by repeat constructor.
Qed.

Lemma mining_turn :
  exists ts,
    @turn toy_hashes toy_secp 64 first_node
      (Live first_chain (snd first_start) (Run first_node)) (Live mined_chain (snd first_mined) ts).
Proof.
  eexists.
  eapply (turn_locked 64 first_node first_chain (snd first_start) [AcceptLoop first_node]
            MiningLoop [PeerPollLoop first_node] SMine);
    [unfold MiningLoop, forever, observe, ITree.iter; cbn; reflexivity|].
  exact first_mining.
Qed.

Lemma threads_refine_witness :
  rtc (@net_step toy_hashes toy_secp 64 first_node) (first_chain, snd first_start) (mined_chain, snd first_mined) /\
  rtc (@step toy_hashes toy_secp 64 first_node)
    (Running first_chain (snd first_start)) (Running mined_chain (snd first_mined)).
Proof.
  destruct first_world_ok as (A1 & _).
  pose proof (@wired_Node_make toy_hashes toy_secp 64 9000 chain_path [] true empty_world A1) as Hw.
  rewrite first_made in Hw. cbn [snd] in Hw. destruct mining_turn as [ts Ht].
  exact (@threads_refine toy_hashes toy_secp toy_inet 64 first_node first_chain
           (snd first_start) mined_chain (snd first_mined) ts Hw (rtc_once _ _ Ht)).
Defined.

Lemma daemon_types_witness :
  Forall CBlock_wf mined_chain /\ wire_ok (snd first_mined) /\
  (fst (load_mempool_or_empty (mempool_file chain_path) (snd first_mined)) = Ok [] ->
   Forall Transaction_wf [] /\ size_of (@nil Transaction) <= MAX_MEMPOOL_SIZE).
Proof.
  destruct first_world_ok as (A1 & A2 & A3 & A4 & _). destruct mining_turn as [ts Ht].
  exact (@daemon_types toy_hashes toy_hash_laws toy_secp toy_inet 64 9000 chain_path [] true
           empty_world first_node first_chain (snd first_start) mined_chain (snd first_mined) ts []
           first_made A1 A2 A3 A4 (rtc_once _ _ Ht)).
Defined.

Lemma restart_resumes_witness :
  exists chain2, chain2 = mined_chain /\ wallet_ second_node = wallet_ first_node.
Proof.
  destruct first_world_ok as (A1 & A2 & A3 & A4 & A5 & A6). destruct mining_turn as [ts Ht].
  destruct second_made as (chain2 & w2 & Hm2). exists chain2.
  refine (@restart_resumes toy_hashes toy_hash_laws toy_secp toy_secp_laws toy_inet 64 9000 chain_path [] true
           empty_world first_node first_chain (snd first_start) mined_chain (snd first_mined) ts
           9001 [] false second_node chain2 w2 first_made A1 A2 A3 A4 A5 A6 (rtc_once _ _ Ht) _ _ Hm2).
  - apply (bool_decide_unpack _). vm_compute. reflexivity.
  - vm_compute. split; [discriminate | reflexivity].
Defined.
