(* ===== verification/Atomicity.v ===== *)
(** The mutex makes the critical sections atomic: a run of the process with its mutex and
    with calls of different threads interleaved (Mutex.v) ends where a run by whole
    sections does (Threads.v).  And what a crash leaves: the chain file that a process
    leaves behind, wherever it stopped, is one that a new process resumes from. *)
From S2P Require Import Prelude.
From S2P Require Import World.
From S2P Require Import Crypto.
From S2P Require Import Serializer.
From S2P Require Import Transaction.
From S2P Require Import Block.
From S2P Require Import Pow.
From S2P Require Import Work.
From S2P Require Import Wallet.
From S2P Require Import Chain.
From S2P Require Import Validation.
From S2P Require Import Storage.
From S2P Require Import Socket.
From S2P Require Import Message.
From S2P Require Import Node.
From S2P Require Import Protocol.
From S2P Require Import Daemon.
From S2P Require Import Wire.
From S2P Require Import Threads.
From S2P Require Import Frame.
From S2P Require Import Mutex.
From S2P Require Import DaemonSafety.
From S2P Require Import Durability.
From S2P Require Import ThreadSafety.
From ITree Require Core.ITreeDefinition.
From Stdlib Require Import Floats.SpecFloat.
Import Core.ITreeDefinition.

(** ** Code *)

Lemma exec_seq {A B} (c : code A) (f : A -> code B) w : exec (c ≫= f) w = (exec c ≫= fun a => exec (f a)) w.
Proof.
  revert w. induction c as [a|X m k IH]; intros w; [done|].
  change (exec (Act m k ≫= f)) with (b ← m; exec (k b ≫= f)). cbn [exec].
  unfold mbind, io_bind in *. destruct (m w) as [[b| | |] w1]; [apply IH | done..].
Qed.

(** Every call is on the machine. *)
Fixpoint disk_code {A} (c : code A) : Prop :=
  match c with
  | Done _ => True
  | Act m k => disk_only m /\ forall b, disk_code (k b)
  end.
Lemma disk_code_seq {A B} (c : code A) (f : A -> code B) :
  disk_code c -> (forall a, disk_code (f a)) -> disk_code (c ≫= f).
Proof. intros Hc Hf. induction c as [a|X m k IH]; [apply Hf|]. destruct Hc as [Hm Hk]. split; [done | auto]. Qed.
Lemma disk_exec {A} (c : code A) : disk_code c -> disk_only (exec c).
Proof.
  induction c as [a|X m k IH]; intros Hc; [apply disk_ret|]. destruct Hc as [Hm Hk].
  apply disk_bind; [exact Hm | auto].
Qed.

(** [Q] holds at the start, and after every call. *)
Fixpoint always {A} (Q : world -> Prop) (c : code A) (w : world) : Prop :=
  Q w /\
  match c with
  | Done _ => True
  | Act m k => Q (snd (m w)) /\ forall a w', m w = (Ok a, w') -> always Q (k a) w'
  end.

(** [Q] says nothing of the network. *)
Definition disk_prop (Q : world -> Prop) : Prop := forall w v, Q w -> Q (blend w v).

Lemma always_start {A} Q (c : code A) w : always Q c w -> Q w.
Proof. destruct c; cbn [always]; tauto. Qed.

Lemma always_blend {A} Q (c : code A) w v :
  disk_prop Q -> disk_code c -> always Q c w -> always Q c (blend w v).
Proof.
  intros HQ. revert w. induction c as [a|X m k IH]; intros w; cbn [always disk_code].
  - intros _ [H1 _]. by split; [apply HQ|].
  - intros [Hm Hk] (H1 & H2 & H3). pose proof (Hm v w) as E. cbn beta in E.
    destruct (m w) as [r w1]. rewrite E. cbn [snd] in *.
    split; [by apply HQ|]. split; [by apply HQ|]. intros a w' E2. injection E2 as -> <-.
    apply IH; [apply Hk | by apply H3].
Qed.

(** A section that only sends: some pure steps, then one call on the network. *)
Fixpoint net_code (chain : list CBlock) (c : code (bool * list CBlock)) : Prop :=
  match c with
  | Done _ => False
  | Act m k =>
      (exists r, (forall w, m w = (r, w)) /\ forall a, r = Ok a -> net_code chain (k a)) \/
      (net_only m /\ forall a, k a = Done (true, chain))
  end.

(** [exec] step by step. *)
Lemma exec_last {A} (m : io A) w : exec (act m) w = m w.
Proof. cbn [act exec]. unfold mbind, io_bind. by destruct (m w) as [[b| | |] w1]. Qed.
Lemma exec_then {A B} (c : code A) (f : A -> code B) (m : io A) (g : A -> io B) :
  (forall w, exec c w = m w) -> (forall a w, exec (f a) w = g a w) ->
  forall w, exec (c ≫= f) w = (m ≫= g) w.
Proof.
  intros Hc Hf w. rewrite exec_seq. unfold mbind, io_bind. rewrite Hc.
  destruct (m w) as [[a| | |] w1]; [apply Hf | done..].
Qed.
Lemma exec_call {A B} (m : io A) (f : A -> code B) (g : A -> io B) :
  (forall a w, exec (f a) w = g a w) -> forall w, exec (act m ≫= f) w = (m ≫= g) w.
Proof. apply exec_then, exec_last. Qed.

(** A file that is written byte by byte is written. *)
Lemma exec_append path buffer old w :
  files w !! path = Some old ->
  exec (append_code path buffer) w = (Ok tt, set_files (<[path := old ++ buffer]> (files w)) w).
Proof.
  revert old w. induction buffer as [|b rest IH]; intros old w Hf.
  - cbn [append_code exec]. rewrite app_nil_r, insert_id by done. by destruct w.
  - cbn [append_code]. rewrite (exec_call (append_bytes path [b]) _ (fun _ => exec (append_code path rest))) by done.
    unfold mbind, io_bind, append_bytes. rewrite Hf. cbn [default].
    rewrite (IH (old ++ [b])) by apply lookup_insert_eq. cbn [files set_files].
    by rewrite insert_insert_eq, <- app_assoc.
Qed.
Lemma exec_write path buffer w : exec (write_code path buffer) w = write_file path buffer w.
Proof.
  unfold write_code. rewrite (exec_call (open_trunc path) _ (fun _ => exec (append_code path buffer))) by done.
  rewrite write_file_eq. unfold mbind, io_bind, open_trunc. case_decide; [done|].
  rewrite (exec_append _ _ []) by apply lookup_insert_eq. cbn [files set_files app]. by rewrite insert_insert_eq.
Qed.
Lemma exec_save {B} path buffer (f : unit -> code B) (g : unit -> io B) :
  (forall a w, exec (f a) w = g a w) ->
  forall w, exec (write_code path buffer ≫= f) w = (write_file path buffer ≫= g) w.
Proof. apply exec_then. intros w. apply exec_write. Qed.

(** Follows the calls of a section. *)
Ltac follow := repeat first
  [ reflexivity | progress intros | apply exec_write | apply exec_save
  | apply exec_last | apply exec_call | case_decide
  | match goal with
    | |- exec (if ?x then _ else _) _ = _ => destruct x
    | |- exec (match ?x with (_, _) => _ end) _ = _ => destruct x
    end ].

Section Sections.
Context `{HashFns, Secp256k1}.
Context (mine_fuel : nat) (n : node).

(** The calls of a section are the section. *)
Lemma exec_section chain s w : exec (section_code mine_fuel n chain s) w = run_section mine_fuel n chain s w.
Proof.
  revert w. destruct s as [sock|sock|sock|tx| |blk|peer]; cbn [section_code run_section];
    try (apply exec_then; [|done]).
  - unfold announce_code, announce_section. follow.
  - unfold send_tip_code, send_tip_section. follow.
  - unfold send_chain_code, send_chain_section. follow.
  - unfold accept_code, AcceptTransaction. follow.
  - unfold mining_code, mining_round. follow.
  - unfold extend_code, extend_section. follow.
  - unfold reorg_code, reorg_section. follow.
Qed.

(** The sections that send, and the others. *)
Definition sends (s : section) : bool :=
  match s with SAnnounce _ | SSendTip _ | SSendChain _ => true | _ => false end.

Lemma section_net chain s : sends s = true -> net_code chain (section_code mine_fuel n chain s).
Proof.
  assert (forall f : CBlock -> code (bool * list CBlock), (forall tip, net_code chain (f tip)) ->
    net_code chain (act (back chain) ≫= f)) as Hback.
  { intros f Hf. left. unfold back. destruct (last chain) as [tip|]; [exists (Ok tip) | exists Ub];
      (split; [done|]); intros a Ha; [apply Hf | done]. }
  destruct s as [sock|sock|sock|tx| |blk|peer]; try done; intros _.
  - apply Hback. intros tip. right. split; [apply net_send | done].
  - apply Hback. intros tip. right. split; [apply net_send | done].
  - right. split; [apply net_send | done].
Qed.

Lemma disk_back chain : disk_only (back chain).
Proof. unfold back. destruct (last chain); [apply disk_ret | apply disk_lift]. Qed.
Lemma disk_load_mempool path : disk_only (load_mempool_or_empty path).
Proof. unfold load_mempool_or_empty, load_mempool. solve_frame. Qed.
#[local] Hint Resolve disk_back disk_load_mempool : frame.

Lemma disk_act {A B} (m : io A) (f : A -> code B) :
  disk_only m -> (forall a, disk_code (f a)) -> disk_code (act m ≫= f).
Proof. intros Hm Hf. by split. Qed.
Lemma disk_write_code path buffer : disk_code (write_code path buffer).
Proof.
  apply disk_act; [apply disk_open_trunc|]. intros _. induction buffer as [|b rest IH]; [done|].
  apply disk_act; [apply disk_append | done].
Qed.
Lemma disk_save_code {B} path buffer (f : unit -> code B) :
  (forall a, disk_code (f a)) -> disk_code (write_code path buffer ≫= f).
Proof. apply disk_code_seq, disk_write_code. Qed.

Lemma section_disk chain s : sends s = false -> disk_code (section_code mine_fuel n chain s).
Proof.
  destruct s as [sock|sock|sock|tx| |blk|peer]; try done; intros _; cbn [section_code];
    try (apply disk_code_seq; [|done]); unfold accept_code, mining_code, extend_code, reorg_code;
    repeat first
      [ done | progress intros | apply disk_write_code | apply disk_save_code
      | apply disk_act; [solve [eauto with frame]|] | case_decide
      | match goal with
        | |- disk_code (if ?x then _ else _) => destruct x
        | |- disk_code (match ?x with (_, _) => _ end) => destruct x
        end ].
Qed.
Lemma disk_section chain s : sends s = false -> disk_only (run_section mine_fuel n chain s).
Proof. intros Hs v w. rewrite <- !exec_section. apply (disk_exec _ (section_disk chain s Hs) v). Qed.
End Sections.

(** ** The simulation *)

Section Simulation.
Context `{HashLaws, Secp256k1, Inet, UtxoOrder}.
Context (mine_fuel : nat) (n : node).

Definition pool (before : list (thread unit)) (x : slot) (after : list (thread unit)) : list slot :=
  (Ready <$> before) ++ x :: (Ready <$> after).

(** A section on the machine is taken by the coarse process when it ends; until then the
    coarse process is where the section began, on the network of now.  A section that
    sends is taken when it sends. *)
Inductive related : fine_machine -> machine -> Prop :=
| related_free chain w ts : related (FLive chain w false (Ready <$> ts)) (Live chain w ts)
| related_disk chain w wc before t s k c after :
    observe t = VisF (Locked s) k -> sends s = false -> wc = blend wc w ->
    disk_code c -> exec c w = run_section mine_fuel n chain s wc ->
    (forall Q, disk_prop Q -> always Q (section_code mine_fuel n chain s) wc -> always Q c w) ->
    related (FLive chain w true (pool before (Holding c k) after)) (Live chain wc (before ++ t :: after))
| related_net chain w before t s k c after :
    observe t = VisF (Locked s) k -> net_code chain c ->
    (forall v, exec c v = run_section mine_fuel n chain s v) ->
    related (FLive chain w true (pool before (Holding c k) after)) (Live chain w (before ++ t :: after))
| related_sent chain w before k after :
    related (FLive chain w true (pool before (Holding (Done (true, chain)) k) after))
            (Live chain w (before ++ k true :: after)).

(** Where a thread of a pool is. *)
Lemma ready_split b t a ts :
  b ++ Ready t :: a = Ready <$> ts ->
  exists b' a', ts = b' ++ t :: a' /\ b = Ready <$> b' /\ a = Ready <$> a'.
Proof.
  intros E. symmetry in E. apply fmap_app_inv in E as (b' & r & -> & E & ->).
  symmetry in E. apply fmap_cons_inv in E as (t' & a' & [= ->] & -> & ->). by exists b', a'.
Qed.
Lemma ready_not_holding b c k a ts : b ++ Holding c k :: a <> Ready <$> ts.
Proof.
  intros E. symmetry in E. apply fmap_app_inv in E as (b' & r & _ & E & _).
  symmetry in E. by apply fmap_cons_inv in E as (t' & a' & ? & _).
Qed.
Lemma pool_ready b t a before c k after :
  b ++ Ready t :: a = pool before (Holding c k) after ->
  (exists b1 b2, before = b1 ++ t :: b2 /\ b = Ready <$> b1 /\ a = pool b2 (Holding c k) after) \/
  (exists a1 a2, after = a1 ++ t :: a2 /\ b = pool before (Holding c k) a1 /\ a = Ready <$> a2).
Proof.
  unfold pool. revert b. induction before as [|x before IH]; intros b E.
  - destruct b as [|y b]; [done|]. injection E as -> E.
    destruct (ready_split _ _ _ _ E) as (a1 & a2 & -> & -> & ->). right. by exists a1, a2.
  - destruct b as [|y b].
    + injection E as -> ->. left. by exists [], before.
    + injection E as -> E. destruct (IH b E) as [(b1 & b2 & -> & -> & ->)|(a1 & a2 & -> & -> & ->)].
      * left. by exists (x :: b1), b2.
      * right. by exists a1, a2.
Qed.
Lemma pool_holding b c k a before c' k' after :
  b ++ Holding c k :: a = pool before (Holding c' k') after ->
  b = Ready <$> before /\ Holding c k = Holding c' k' /\ a = Ready <$> after.
Proof.
  unfold pool. revert b. induction before as [|x before IH]; intros b E.
  - destruct b as [|y b]; [by injection E as -> -> ->|]. injection E as _ E. by apply ready_not_holding in E.
  - destruct b as [|y b]; [done|]. injection E as -> E. by destruct (IH b E) as (-> & ? & ->).
Qed.

(** What a safe thread does outside the mutex is on the network, and the coarse process
    can do it too. *)
Lemma outside_blend t w t' w' new wc :
  safe n any t -> outside t w t' w' new -> outside t (blend wc w) t' (blend wc w') new /\ w' = blend w w'.
Proof.
  intros Hs Ho. apply safe_unfold in Hs. destruct Ho as [t u w E|t A m k a w w' E Em|t sock k w E].
  - split; [by constructor | by rewrite blend_self].
  - rewrite E in Hs. destruct Hs as (Hm & _ & _). split.
    + eapply (outside_call _ _ m); [exact E|]. pose proof (Hm wc w) as Hb. by rewrite Em in Hb.
    + specialize (Hm w w). rewrite blend_self, Em in Hm. by injection Hm.
  - split; [by econstructor | by rewrite blend_self].
Qed.
Lemma outside_turn chain w before t after t' w' new :
  outside t w t' w' new ->
  turn mine_fuel n (Live chain w (before ++ t :: after)) (Live chain w' (before ++ t' :: after ++ new)).
Proof.
  destruct 1 as [t u w E|t A m k a w w' E Em|t sock k w E].
  - rewrite app_nil_r. by constructor.
  - rewrite app_nil_r. by eapply (turn_unlocked _ _ _ _ _ _ _ _ m).
  - by apply turn_spawn.
Qed.

(** The same, of a thread that stands before or after the one in the section. *)
Lemma pool_outside chain w wc b t a t' w' new before c k u after :
  b ++ Ready t :: a = pool before (Holding c k) after -> Forall (safe n any) (before ++ u :: after) ->
  outside t w t' w' new ->
  w' = blend w w' /\
  exists before' after',
    b ++ Ready t' :: a ++ (Ready <$> new) = pool before' (Holding c k) after' /\
    forall x, turn mine_fuel n (Live chain (blend wc w) (before ++ x :: after))
                (Live chain (blend wc w') (before' ++ x :: after')).
Proof.
  intros E Hs Ho. apply Forall_app in Hs as [Hb Ha]. apply Forall_cons in Ha as [_ Ha].
  destruct (pool_ready _ _ _ _ _ _ _ E) as [(b1 & b2 & -> & -> & ->)|(a1 & a2 & -> & -> & ->)].
  - apply Forall_app in Hb as [_ Hb]. apply Forall_cons in Hb as [Ht _].
    destruct (outside_blend t w t' w' new wc Ht Ho) as [Ho' Hw]. split; [exact Hw|].
    exists (b1 ++ t' :: b2), (after ++ new). unfold pool. rewrite !fmap_app, fmap_cons, <- !app_assoc.
    split; [done|]. intros x. pose proof (outside_turn chain _ b1 t (b2 ++ x :: after) _ _ _ Ho') as Hturn.
    rewrite <- (app_assoc b2) in Hturn. rewrite <- (app_assoc b1 (t :: b2)), <- (app_assoc b1 (t' :: b2)).
    exact Hturn.
  - apply Forall_app in Ha as [_ Ha]. apply Forall_cons in Ha as [Ht _].
    destruct (outside_blend t w t' w' new wc Ht Ho) as [Ho' Hw]. split; [exact Hw|].
    exists before, (a1 ++ t' :: a2 ++ new). unfold pool. rewrite !fmap_app, !fmap_cons, fmap_app, <- !app_assoc.
    split; [done|]. intros x. pose proof (outside_turn chain _ (before ++ x :: a1) t a2 _ _ _ Ho') as Hturn.
    rewrite <- !(app_assoc before) in Hturn. exact Hturn.
Qed.

Lemma step_outside chain w mutex_ b t a t' w' new c :
  related (FLive chain w mutex_ (b ++ Ready t :: a)) c ->
  match c with Live _ w ts => Forall (safe n any) ts | _ => False end ->
  outside t w t' w' new ->
  exists c', turn mine_fuel n c c' /\ related (FLive chain w' mutex_ (b ++ Ready t' :: a ++ (Ready <$> new))) c'.
Proof.
  intros Hr Hs Ho. remember (FLive chain w mutex_ (b ++ Ready t :: a)) as f eqn:Ef.
  destruct Hr as [chain1 w1 ts|chain1 w1 wc before u s k x after El Hsend Hwc Hd He Ha
                 |chain1 w1 before u s k x after El Hn He|chain1 w1 before k after];
    injection Ef as -> -> <- Ef.
  - symmetry in Ef. destruct (ready_split _ _ _ _ Ef) as (b' & a' & -> & -> & ->).
    exists (Live chain w' (b' ++ t' :: a' ++ new)). split; [by apply outside_turn|].
    rewrite <- fmap_app, <- fmap_cons, <- fmap_app. constructor.
  - symmetry in Ef. destruct (pool_outside chain w wc _ _ _ _ _ _ _ _ _ u _ Ef Hs Ho) as (Hw & before' & after' & -> & Ht).
    exists (Live chain (blend wc w') (before' ++ u :: after')). split; [rewrite Hwc; apply Ht|].
    eapply related_disk; [exact El | exact Hsend | done | exact Hd | |].
    + rewrite Hw. rewrite (disk_exec _ Hd w' w), (disk_section mine_fuel n chain s Hsend w' wc), He. done.
    + intros Q HQ Halw. rewrite Hw. apply always_blend; [exact HQ | exact Hd|]. apply Ha; [exact HQ|].
      rewrite Hwc. rewrite <- (blend_blend_l wc w' w). apply always_blend; [exact HQ | by apply section_disk | exact Halw].
  - symmetry in Ef. destruct (pool_outside chain w w _ _ _ _ _ _ _ _ _ u _ Ef Hs Ho) as (Hw & before' & after' & -> & Ht).
    specialize (Ht u). rewrite blend_self, <- Hw in Ht. eexists. split; [exact Ht|]. by eapply related_net.
  - symmetry in Ef. destruct (pool_outside chain w w _ _ _ _ _ _ _ _ _ (k true) _ Ef Hs Ho) as (Hw & before' & after' & -> & Ht).
    specialize (Ht (k true)). rewrite blend_self, <- Hw in Ht. eexists. split; [exact Ht|]. apply related_sent.
Qed.

(** A thread enters a section. *)
Lemma step_lock chain w b t a s k c :
  related (FLive chain w false (b ++ Ready t :: a)) c -> observe t = VisF (Locked s) k ->
  related (FLive chain w true (b ++ Holding (section_code mine_fuel n chain s) k :: a)) c.
Proof.
  intros Hr E. remember (FLive chain w false (b ++ Ready t :: a)) as f eqn:Ef.
  destruct Hr as [chain1 w1 ts| | |]; [injection Ef as -> -> Ef | done..].
  symmetry in Ef. destruct (ready_split _ _ _ _ Ef) as (b' & a' & -> & -> & ->).
  destruct (sends s) eqn:Es.
  - eapply related_net; [exact E | by apply section_net |]. intros v. apply exec_section.
  - eapply related_disk; [exact E | exact Es | by rewrite blend_self | by apply section_disk | apply exec_section | done].
Qed.

(** The thread in the section makes a call. *)
Lemma step_act chain w mutex_ b a A (m : io A) x k r w' c :
  related (FLive chain w mutex_ (b ++ Holding (Act m x) k :: a)) c -> m w = (Ok r, w') ->
  exists c', rtc (turn mine_fuel n) c c' /\ related (FLive chain w' mutex_ (b ++ Holding (x r) k :: a)) c'.
Proof.
  intros Hr Em. remember (FLive chain w mutex_ (b ++ Holding (Act m x) k :: a)) as f eqn:Ef.
  destruct Hr as [chain1 w1 ts|chain1 w1 wc before u s k1 y after El Hsend Hwc Hd He Ha
                 |chain1 w1 before u s k1 y after El Hn He|chain1 w1 before k1 after];
    injection Ef as -> -> <- Ef; symmetry in Ef.
  - by apply ready_not_holding in Ef.
  - apply pool_holding in Ef as (-> & Ex & ->). injection Ex as <- <-. destruct Hd as [Hm Hx].
    eexists. split; [constructor|]. eapply related_disk; [exact El | exact Hsend | | apply Hx | |].
    + specialize (Hm w w). cbn beta in Hm. rewrite blend_self, Em in Hm. injection Hm as Hm.
      rewrite Hm, blend_blend_r. exact Hwc.
    + rewrite <- He. cbn [exec]. by rewrite (io_bind_eq _ _ _ _ _ Em).
    + intros Q HQ Hq. specialize (Ha Q HQ Hq). cbn [always] in Ha. destruct Ha as (_ & _ & Ha). by apply Ha.
  - apply pool_holding in Ef as (-> & Ex & ->). injection Ex as <- <-. destruct Hn as [(r0 & Hp & Hn)|[Hm Hx]].
    + rewrite Hp in Em. injection Em as -> ->. eexists. split; [constructor|].
      eapply related_net; [exact El | by apply Hn |]. intros v. rewrite <- He. cbn [exec].
      by rewrite (io_bind_eq _ _ _ _ _ (Hp v)).
    + rewrite Hx. eexists. split; [|apply related_sent]. apply rtc_once. eapply turn_locked; [exact El|].
      rewrite <- He. cbn [exec]. rewrite (io_bind_eq _ _ _ _ _ Em), Hx. done.
  - apply pool_holding in Ef as (_ & Ex & _). injection Ex as Ex _. done.
Qed.

(** The thread in the section leaves it. *)
Lemma step_unlock chain w mutex_ b a r chain' k c :
  related (FLive chain w mutex_ (b ++ Holding (Done (r, chain')) k :: a)) c ->
  exists c', rtc (turn mine_fuel n) c c' /\ related (FLive chain' w false (b ++ Ready (k r) :: a)) c'.
Proof.
  intros Hr. remember (FLive chain w mutex_ (b ++ Holding (Done (r, chain')) k :: a)) as f eqn:Ef.
  destruct Hr as [chain1 w1 ts|chain1 w1 wc before u s k1 y after El Hsend Hwc Hd He Ha
                 |chain1 w1 before u s k1 y after El Hn He|chain1 w1 before k1 after];
    injection Ef as -> -> <- Ef; symmetry in Ef.
  - by apply ready_not_holding in Ef.
  - apply pool_holding in Ef as (-> & Ex & ->). injection Ex as <- <-.
    eexists (Live chain' w (before ++ k r :: after)). split.
    + apply rtc_once. eapply turn_locked; [exact El|]. by rewrite <- He.
    + rewrite <- fmap_cons, <- fmap_app. constructor.
  - apply pool_holding in Ef as (-> & Ex & ->). injection Ex as <- <-. done.
  - apply pool_holding in Ef as (-> & Ex & ->). injection Ex as -> -> <-.
    eexists. split; [constructor|]. rewrite <- fmap_cons, <- fmap_app. constructor.
Qed.
End Simulation.

(** ** What is on disk in the middle of a section *)

Section Crash.
Context `{HashLaws, Secp256k1Laws, Inet, UtxoOrder}.
Context (mine_fuel : nat) (n : node) (g : bytes).

(** A chain that may be saved: a chain of the network, well formed and linked, that
    continues [chain] or outweighs it. *)
Definition savable (chain c : list CBlock) : Prop :=
  chain_wf c /\ linked c /\ (exists b rest, c = b :: rest /\ CBlock_GetHash b = g) /\ outweighs chain c.
(** The chain file holds such a chain, or only the beginning of one. *)
Definition resumable (chain : list CBlock) (w : world) : Prop :=
  exists c, files w !! chain_path_ n = Some (serialize_chain c) /\ savable chain c.
Definition torn (chain : list CBlock) (w : world) : Prop :=
  exists c head rest, savable chain c /\ serialize_chain c = head ++ rest /\ rest <> [] /\
    files w !! chain_path_ n = Some head.
Definition recoverable (chain : list CBlock) (w : world) : Prop := resumable chain w \/ torn chain w.

Lemma recoverable_disk chain : disk_prop (recoverable chain).
Proof. by intros w v. Qed.
Lemma resumable_same chain w w' : same_at (chain_path_ n) w w' -> resumable chain w -> resumable chain w'.
Proof. intros [E _] (c & Hf & Hc). exists c. by rewrite E. Qed.
Lemma resumable_ok chain w :
  daemon_ok n g chain w -> durable n chain w -> in_u32 (size_of chain + 1) -> resumable chain w.
Proof.
  intros Hok Hd Hsz. exists chain. split; [apply Hok|]. split_and!; [| apply Hok | apply Hok | reflexivity].
  split; [apply Hd|]. unfold in_u32, size_of in *. lia.
Qed.

Lemma always_call {A B} Q (m : io A) (f : A -> code B) w :
  Q w -> Q (snd (m w)) -> (forall a w', m w = (Ok a, w') -> always Q (f a) w') -> always Q (act m ≫= f) w.
Proof. intros H1' H2' H3'. split_and!; [exact H1' | exact H2' | exact H3']. Qed.
Lemma always_seq {A B} Q (c : code A) (f : A -> code B) w :
  always Q c w -> (forall a w', Q w' -> always Q (f a) w') -> always Q (c ≫= f) w.
Proof.
  intros Hc Hf. revert w Hc. induction c as [a|X m k IH]; intros w Hc.
  - apply Hf. by eapply always_start.
  - destruct Hc as (Hq & Hm & Hk). split_and!; [exact Hq | exact Hm |]. intros b w' E. apply IH. by apply Hk.
Qed.
Lemma always_last {A} Q (c : code A) w : always Q (c ≫= Done) w -> always Q c w.
Proof.
  revert w. induction c as [a|X m k IH]; intros w Hc; [done|].
  destruct Hc as (Hq & Hm & Hk). split_and!; [exact Hq | exact Hm |]. intros b w' E. apply IH. by apply Hk.
Qed.
Lemma always_done {A} chain (a : A) w : resumable chain w -> always (recoverable chain) (Done a) w.
Proof. intros Hq. split; [by left | done]. Qed.

(** A call that does not touch the chain file. *)
Lemma always_same {A B} chain (m : io A) (f : A -> code B) w :
  preserves (same_at (chain_path_ n)) m -> resumable chain w ->
  (forall a w', m w = (Ok a, w') -> same_at (chain_path_ n) w w' -> resumable chain w' ->
     always (recoverable chain) (f a) w') ->
  always (recoverable chain) (act m ≫= f) w.
Proof.
  intros Hm Hq Hf. apply always_call; [by left | left; by eapply resumable_same; [apply Hm|]|]. intros a w' E.
  pose proof (same_at_result _ _ _ _ _ Hm E) as Hs. apply Hf; [exact E | exact Hs | by eapply resumable_same].
Qed.

(** Another file is written. *)
Lemma open_same_at p path : path <> p -> preserves (same_at p) (open_trunc path).
Proof.
  intros Hne w. unfold open_trunc. case_decide; [done|].
  split; [cbn [snd files set_files]; by rewrite lookup_insert_ne | done].
Qed.
Lemma append_same_at p path data : path <> p -> preserves (same_at p) (append_bytes path data).
Proof. intros Hne w. split; [cbn [append_bytes snd files set_files]; by rewrite lookup_insert_ne | done]. Qed.
Lemma always_other {B} chain path buffer (f : unit -> code B) w :
  path <> chain_path_ n -> resumable chain w ->
  (forall w', resumable chain w' -> always (recoverable chain) (f tt) w') ->
  always (recoverable chain) (write_code path buffer ≫= f) w.
Proof.
  intros Hne Hq Hf. apply always_same; [by apply open_same_at | exact Hq |]. intros [] w1 _ _ Hq1. clear w Hq.
  revert w1 Hq1. induction buffer as [|b rest IH]; intros w Hq; [by apply Hf|].
  apply always_same; [by apply append_same_at | exact Hq |]. intros [] w1 _ _. apply IH.
Qed.

(** The chain file is written. *)
Lemma always_append {B} chain c head buffer (f : unit -> code B) w :
  savable chain c -> serialize_chain c = head ++ buffer -> files w !! chain_path_ n = Some head ->
  (forall w', resumable chain w' -> always (recoverable chain) (f tt) w') ->
  always (recoverable chain) (append_code (chain_path_ n) buffer ≫= f) w.
Proof.
  intros Hs. revert head w. induction buffer as [|b rest IH]; intros head w E Hf Hk.
  - rewrite app_nil_r in E. apply Hk. exists c. by rewrite E.
  - assert (serialize_chain c = (head ++ [b]) ++ rest) as E' by (by rewrite <- app_assoc).
    assert (forall w1, files w1 !! chain_path_ n = Some (head ++ [b]) ->
      always (recoverable chain) (append_code (chain_path_ n) rest ≫= f) w1) as Hnext by eauto.
    assert (files (snd (append_bytes (chain_path_ n) [b] w)) !! chain_path_ n = Some (head ++ [b])) as Hf'.
    { unfold append_bytes. rewrite Hf. apply lookup_insert_eq. }
    apply always_call.
    + right. by exists c, head, (b :: rest).
    + by apply (always_start _ _ _ (Hnext _ Hf')).
    + intros [] w1 Em. apply Hnext. by rewrite Em in Hf'.
Qed.
Lemma always_save {B} chain c (f : unit -> code B) w :
  savable chain c -> resumable chain w ->
  (forall w', resumable chain w' -> always (recoverable chain) (f tt) w') ->
  always (recoverable chain) (save_chain_code c (chain_path_ n) ≫= f) w.
Proof.
  intros Hs Hq Hf.
  assert (forall w1, files w1 !! chain_path_ n = Some [] ->
    always (recoverable chain) (append_code (chain_path_ n) (serialize_chain c) ≫= f) w1) as Hnext.
  { intros w1 E. by apply (always_append chain c []). }
  assert (chain_path_ n ∉ unwritable w ->
    files (snd (open_trunc (chain_path_ n) w)) !! chain_path_ n = Some []) as Ho.
  { intros Hw. unfold open_trunc. rewrite decide_False by done. apply lookup_insert_eq. }
  apply always_call; [by left | |].
  - destruct (decide (chain_path_ n ∈ unwritable w)) as [Hw|Hw].
    + left. unfold open_trunc. by rewrite decide_True.
    + apply (always_start _ _ _ (Hnext _ (Ho Hw))).
  - intros [] w1 Em. apply Hnext. unfold open_trunc in *. case_decide; [done|]. rewrite <- (Ho ltac:(done)).
    by rewrite Em.
Qed.

Lemma savable_snoc chain w blk :
  daemon_ok n g chain w -> Forall CBlock_wf chain -> in_u32 (size_of chain + 1) -> CBlock_wf blk ->
  IsMerkleRootValid blk = true -> check_proof_of_work (block_header blk) = true ->
  hashPrevBlock (block_header blk) = tip_hash chain ->
  required_bits (block_header <$> chain) = Ok (nBits (block_header blk)) ->
  savable chain (chain ++ [blk]).
Proof.
  intros Hok Hc Hsz Hb E1 E2 E3 E4. split_and!.
  - split; [apply Forall_app; by split; [|apply Forall_singleton]|]. by rewrite size_of_app.
  - constructor; try done. apply Hok.
  - destruct Hok as [(b & rest & -> & Hg) _ _]. by exists b, (rest ++ [blk]).
  - left. by exists [blk].
Qed.

Lemma kept_same {A} (m : io A) : preserves kept m -> preserves (same_at (chain_path_ n)) m.
Proof. apply same_of_kept. Qed.
#[local] Hint Resolve kept_same kept_lift kept_load_mempool kept_back kept_time : frame.
Lemma mempool_ne : mempool_file (chain_path_ n) <> chain_path_ n.
Proof. by destruct (wallet_file_ne (chain_path_ n)) as (_ & ? & _). Qed.

Lemma accept_always chain tx w :
  resumable chain w -> always (recoverable chain) (accept_code n chain tx) w.
Proof.
  intros Hq. unfold accept_code.
  apply always_same; [auto with frame | exact Hq |]. intros fee w1 _ _ Hq1.
  case_decide; [by apply always_done|].
  apply always_same; [auto with frame | exact Hq1 |]. intros mp w2 _ _ Hq2.
  case_decide; [by apply always_done|].
  apply always_last, always_other; [apply mempool_ne | exact Hq2 |]. intros w3 Hq3. by apply always_done.
Qed.

Lemma mining_always chain w :
  Wallet_ok (wallet_ n) -> daemon_ok n g chain w -> durable n chain w -> in_u32 (size_of chain + 1) ->
  always (recoverable chain) (mining_code mine_fuel n chain) w.
Proof.
  intros Hwal Hok Hd Hsz. pose proof (du_chain _ _ _ Hd) as Hc.
  assert (resumable chain w) as Hq by (by apply resumable_ok). unfold mining_code.
  apply always_same; [auto with frame | exact Hq |]. intros mp w1 Emp _ Hq1.
  apply always_same; [auto with frame | exact Hq1 |]. intros [txs fees] w2 Esel _ Hq2.
  apply always_same; [auto with frame | exact Hq2 |]. intros tip w3 Etip _ Hq3.
  apply always_same; [auto with frame | exact Hq3 |]. intros now w4 _ _ Hq4.
  apply always_same; [auto with frame | exact Hq4 |]. intros blk w5 Eblk _ Hq5.
  injection Esel as Esel _. injection Eblk as Eblk _.
  unfold back in Etip. destruct (last chain) as [t|] eqn:El; [|done]. injection Etip as -> _.
  assert (CBlock_wf blk) as Hb.
  { eapply mined_block_wf; [exact Hwal | exact Hc | | | exact El | exact Esel | exact Eblk].
    - eapply load_mempool_wf; [apply Hd | by rewrite Emp].
    - apply (du_bound _ _ _ Hd). by rewrite Emp. }
  apply build_next_block_Ok in Eblk as (cb & _ & _ & E1 & E2 & E3 & E4).
  apply always_save; [|exact Hq5|].
  - eapply savable_snoc; try done.
    + by rewrite E1, (tip_hash_last _ _ El).
    + by rewrite <- extract_headers_fmap.
  - intros w6 Hq6. apply always_other; [apply mempool_ne | exact Hq6 |].
    intros w7 Hq7. by apply always_done.
Qed.

Lemma reorg_always chain peer w :
  chain_wf peer -> daemon_ok n g chain w -> resumable chain w ->
  always (recoverable chain) (reorg_code n chain peer) w.
Proof.
  intros Hwf Hok Hq. unfold reorg_code.
  apply always_same; [auto with frame | exact Hq |]. intros [sw c1] w1 Et _ Hq1. injection Et as Et _.
  pose proof (reorg_inv _ _ _ _ Et) as Hi. destruct sw; [|by apply always_done].
  destruct Hi as (-> & Hv & (g1 & g2 & r1 & r2 & Ec & Ep & Hg) & Hw).
  apply always_save; [|exact Hq1 | intros w2 Hq2; by apply always_done].
  split_and!; [exact Hwf | | |].
  - apply validated_utxos in Hv as [_ Hv]. by eapply valid_chain_linked.
  - exists g2, r2. split; [exact Ep|]. destruct Hok as [(b & rest & E & <-) _ _].
    rewrite Ec in E. injection E as -> _. exact Hg.
  - right. rewrite chain_work_ltb in Hw. by apply Z.ltb_lt.
Qed.

Lemma section_always chain s w :
  Wallet_ok (wallet_ n) -> sends s = false -> section_ok s -> daemon_ok n g chain w -> durable n chain w ->
  in_u32 (size_of chain + 1) ->
  always (recoverable chain) (section_code mine_fuel n chain s) w.
Proof.
  intros Hwal Hs Hsec Hok Hd Hsz. assert (resumable chain w) as Hq by (by apply resumable_ok).
  destruct s as [sock|sock|sock|tx| |blk|peer]; try done; cbn [section_code section_ok] in *.
  - apply always_seq; [by apply accept_always | by split].
  - apply always_seq; [by apply mining_always | by split].
  - apply always_same; [auto with frame | exact Hq |]. intros [ex c1] w1 Et _ Hq1. injection Et as Et _.
    pose proof (try_extend_inv _ _ _ _ Et) as Hi. destruct ex; [|by apply always_done].
    destruct Hi as (-> & _ & E1 & E2 & E3 & E4 & _).
    apply always_save; [|exact Hq1 | intros w2 Hq2; by apply always_done].
    eapply savable_snoc; try done. apply Hd.
  - apply always_seq; [by apply reorg_always | by split].
Qed.
End Crash.

(** ** Runs *)

Section Runs.
Context `{HashLaws, Secp256k1, Inet, UtxoOrder}.
Context (mine_fuel : nat) (n : node).

(** A turn of the fine process is matched by turns of the coarse one. *)
Lemma fine_turn_matched chain w mutex_ slots chain' w' mutex' slots' c :
  fine_turn mine_fuel n (FLive chain w mutex_ slots) (FLive chain' w' mutex' slots') ->
  related mine_fuel n (FLive chain w mutex_ slots) c ->
  match c with Live _ _ ts => Forall (safe n any) ts | _ => False end ->
  exists c', rtc (turn mine_fuel n) c c' /\ related mine_fuel n (FLive chain' w' mutex' slots') c'.
Proof.
  intros Ht Hr Hs. inversion Ht as
    [? ? ? b t t' new a ? Ho| | |? ? b t a s k E|? ? ? b a A m x k r ? Em| | |? ? ? b a r ? k]; subst.
  - destruct (step_outside _ _ _ _ _ _ _ _ _ _ _ _ Hr Hs Ho) as (c' & Hc & Hr'). exists c'.
    split; [by apply rtc_once | exact Hr'].
  - exists c. split; [constructor | by eapply step_lock].
  - by eapply step_act.
  - by eapply step_unlock.
Qed.

Lemma related_live f c : related mine_fuel n f c -> exists chain w ts, c = Live chain w ts.
Proof. destruct 1; by eexists _, _, _. Qed.

Lemma fine_turns_matched f f' :
  rtc (fine_turn mine_fuel n) f f' ->
  forall chain' w' mutex' slots', f' = FLive chain' w' mutex' slots' ->
  forall chain w ts, related mine_fuel n f (Live chain w ts) -> wire_ok w -> Forall (safe n any) ts ->
  exists chainc wc tsc, rtc (turn mine_fuel n) (Live chain w ts) (Live chainc wc tsc) /\
    related mine_fuel n f' (Live chainc wc tsc) /\ Forall (safe n any) tsc.
Proof.
  induction 1 as [f|f h f' Hs Hr IH]; intros chain' w' mutex' slots' E chain w ts Hrel Hw Hts.
  - exists chain, w, ts. split; [constructor | done].
  - destruct f as [c0 w0 m0 s0|w0]; [|inversion Hs].
    destruct h as [c1 w1 m1 s1|w1]; [|subst f'; inversion Hr as [|? ? ? Hbad]; inversion Hbad].
    destruct (fine_turn_matched _ _ _ _ _ _ _ _ _ Hs Hrel Hts) as (c' & Hc & Hrel').
    destruct (related_live _ _ Hrel') as (chain1 & w1' & ts1 & ->).
    destruct (turns_refine mine_fuel n _ _ Hc _ _ _ _ _ _ eq_refl eq_refl Hw Hts) as (_ & Hw1 & Hts1).
    destruct (IH _ _ _ _ E _ _ _ Hrel' Hw1 Hts1) as (chain2 & w2 & ts2 & Hc2 & Hrel2 & Hts2).
    exists chain2, w2, ts2. split; [by etrans | done].
Qed.

(** Conversely, a turn of the coarse process is turns of the fine one. *)
Lemma exec_turns chain w before c k after r w' :
  exec c w = (Ok r, w') ->
  rtc (fine_turn mine_fuel n) (FLive chain w true (before ++ Holding c k :: after))
    (FLive chain w' true (before ++ Holding (Done r) k :: after)).
Proof.
  revert w. induction c as [a|X m x IH]; intros w E.
  - injection E as -> ->. constructor.
  - cbn [exec] in E. apply io_bind_Ok in E as (b & w1 & Em & E).
    eapply rtc_l; [by eapply (fine_act _ _ _ _ _ _ _ _ m) | by apply IH].
Qed.

Lemma turn_fine chain w ts chain' w' ts' :
  turn mine_fuel n (Live chain w ts) (Live chain' w' ts') ->
  rtc (fine_turn mine_fuel n) (FLive chain w false (Ready <$> ts)) (FLive chain' w' false (Ready <$> ts')).
Proof.
  intros Ht.
  assert (forall before t after t' w' new, outside t w t' w' new ->
    rtc (fine_turn mine_fuel n) (FLive chain w false (Ready <$> (before ++ t :: after)))
      (FLive chain w' false (Ready <$> (before ++ t' :: after ++ new)))) as Hout.
  { intros before t after t' w1 new Ho. rewrite !fmap_app, !fmap_cons, fmap_app.
    apply rtc_once. by apply fine_outside. }
  inversion Ht as
    [? ? before t u after E|? ? before t after A m k a ? E Hm| | |
     ? ? before t after s k b ? ? E Hm| | |? ? before t after sock k E]; subst.
  - rewrite <- (app_nil_r after) at 2. apply Hout. by constructor.
  - rewrite <- (app_nil_r after) at 2. apply Hout. by eapply (outside_call _ _ m).
  - rewrite !fmap_app, !fmap_cons. eapply rtc_l; [by eapply fine_lock|].
    eapply rtc_r; [|apply fine_unlock]. apply exec_turns. by rewrite exec_section.
  - apply Hout. by apply outside_spawn.
Qed.

Lemma turns_fine c c' :
  rtc (turn mine_fuel n) c c' ->
  forall chain w ts chain' w' ts', c = Live chain w ts -> c' = Live chain' w' ts' ->
  rtc (fine_turn mine_fuel n) (FLive chain w false (Ready <$> ts)) (FLive chain' w' false (Ready <$> ts')).
Proof.
  induction 1 as [c|c d e Hs Hr IH]; intros chain w ts chain' w' ts' -> E.
  - injection E as <- <- <-. constructor.
  - destruct d as [c1 w1 ts1|w1].
    + etrans; [by apply turn_fine | by eapply IH].
    + subst e. inversion Hr as [|? ? ? Hbad]; subst. inversion Hbad.
Qed.

Lemma holders_ready ts : holders (Ready <$> ts) = 0%nat.
Proof. unfold holders. by induction ts. Qed.
Lemma holders_pool before c k after : holders (pool before (Holding c k) after) = 1%nat.
Proof.
  unfold holders, pool. rewrite List.filter_app, length_app. cbn [List.filter is_holding length].
  pose proof (holders_ready before) as Hb. pose proof (holders_ready after) as Ha. unfold holders in *. lia.
Qed.

(** An action on the network leaves the disk alone. *)
Lemma net_resumable `{!Secp256k1Laws} g chain {A} (m : io A) w r w' :
  net_only m -> m w = (r, w') -> resumable n g chain w -> resumable n g chain w'.
Proof.
  intros Hm E. apply resumable_same, kept_same_at. pose proof (net_kept m Hm w) as Hk. by rewrite E in Hk.
Qed.

Lemma net_same `{!Secp256k1Laws} g chain {A} (m : io A) w r w' mutex_ :
  net_only m -> m w = (r, w') ->
  resumable n g chain w \/ mutex_ = true /\ torn n g chain w ->
  resumable n g chain w' \/ mutex_ = true /\ torn n g chain w'.
Proof.
  intros Hm E. pose proof (net_kept m Hm w) as Hk. rewrite E in Hk. cbn [snd] in Hk.
  destruct (kept_same_at (chain_path_ n) _ _ Hk) as [Hf _].
  intros [Hq|[Hmu Ht]]; [left; by eapply net_resumable | right]. split; [done|].
  destruct Ht as (c & head & rest & Hc). exists c, head, rest. by rewrite Hf.
Qed.

(** A thread that is not in a section is one of the coarse process. *)
Lemma pool_safe b t a before c k u after :
  b ++ Ready t :: a = pool before (Holding c k) after -> Forall (safe n any) (before ++ u :: after) -> safe n any t.
Proof.
  intros E Hs. apply Forall_app in Hs as [Hb Ha]. apply Forall_cons in Ha as [_ Ha].
  destruct (pool_ready _ _ _ _ _ _ _ E) as [(b1 & b2 & -> & _)|(a1 & a2 & -> & _)].
  - apply Forall_app in Hb as [_ Hb]. by apply Forall_cons in Hb as [? _].
  - apply Forall_app in Ha as [_ Ha]. by apply Forall_cons in Ha as [? _].
Qed.
Lemma related_safe chain w mutex_ b t a chainc wc ts :
  related mine_fuel n (FLive chain w mutex_ (b ++ Ready t :: a)) (Live chainc wc ts) ->
  Forall (safe n any) ts -> safe n any t.
Proof.
  intros Hr Hs. remember (FLive chain w mutex_ (b ++ Ready t :: a)) as f eqn:Ef.
  remember (Live chainc wc ts) as d eqn:Ed.
  destruct Hr; injection Ed as -> -> <-; injection Ef as -> -> <- Ef; symmetry in Ef;
    try (by eapply pool_safe).
  destruct (ready_split _ _ _ _ Ef) as (b' & a' & -> & _ & _).
  apply Forall_app in Hs as [_ Hs]. by apply Forall_cons in Hs as [? _].
Qed.

(** What is on disk at any moment: when no section is under way, a chain that may be saved;
    in a section perhaps only the beginning of one. *)
Lemma related_resumable `{!Secp256k1Laws} g chain w mutex_ slots chainc wc ts :
  related mine_fuel n (FLive chain w mutex_ slots) (Live chainc wc ts) -> Forall (safe n any) ts ->
  Wallet_ok (wallet_ n) -> daemon_ok n g chainc wc -> durable n chainc wc -> in_u32 (size_of chain + 1) ->
  chainc = chain /\ (resumable n g chain w \/ mutex_ = true /\ torn n g chain w) /\
  forall b A (m : io A) c k a, slots = b ++ Holding (Act m c) k :: a ->
    resumable n g chain (snd (m w)) \/ mutex_ = true /\ torn n g chain (snd (m w)).
Proof.
  intros Hr Hs Hwal Hok Hd Hsz.
  assert (chainc = chain) as ->.
  { remember (FLive chain w mutex_ slots) as f eqn:Ef. remember (Live chainc wc ts) as d eqn:Ed.
    destruct Hr; injection Ed as -> _ _; injection Ef as -> _ _ _; done. }
  split; [done|].
  assert (resumable n g chain wc) as Hq by (by apply resumable_ok).
  remember (FLive chain w mutex_ slots) as f eqn:Ef. remember (Live chain wc ts) as d eqn:Ed.
  destruct Hr as [chain1 w1 ts1|chain1 w1 wc1 before u s k1 y after El Hsend Hwc Hdc He Ha
                 |chain1 w1 before u s k1 y after El Hn He|chain1 w1 before k1 after];
    injection Ed as -> -> <-; injection Ef as -> <- <-.
  - split; [by left|]. intros b A m c k a E. symmetry in E. by apply ready_not_holding in E.
  - assert (forall v, recoverable n g chain v -> resumable n g chain v \/ true = true /\ torn n g chain v) as Hrec.
    { intros v [Hv|Hv]; auto. }
    assert (always (recoverable n g chain) y w) as Halw.
    { apply Ha; [apply recoverable_disk|]. apply Forall_app in Hs as [_ Hs]. apply Forall_cons in Hs as [Hu _].
      apply safe_unfold in Hu. rewrite El in Hu. destruct Hu as (_ & Hsec & _). by apply section_always. }
    split; [by eapply Hrec, always_start|]. intros b A m c k a E. symmetry in E.
    apply pool_holding in E as (_ & E & _). injection E as <- _. apply Hrec, Halw.
  - split; [by left|]. intros b A m c k a E. symmetry in E. apply pool_holding in E as (_ & E & _).
    left. injection E as <- _. destruct Hn as [(r & Hp & _)|[Hm _]]; [by rewrite Hp|].
    destruct (m w) as [r w2] eqn:E. by eapply net_resumable.
  - split; [by left|]. intros b A m c k a E. symmetry in E. apply pool_holding in E as (_ & E & _).
    by injection E as E _.
Qed.
End Runs.

(** ** Theorems *)

Section AtomicityTheorems.
Context `{HashLaws, Secp256k1, Inet, UtxoOrder}.
Context (mine_fuel : nat).

Lemma ready_inj (ts ts' : list (thread unit)) : Ready <$> ts = Ready <$> ts' -> ts = ts'.
Proof. apply list_fmap_eq_inj. by intros t t' [= ->]. Qed.

Lemma run_matched n chain w chain' w' mutex_ slots :
  wire_ok w ->
  rtc (fine_turn mine_fuel n) (FLive chain w false (Ready <$> Run n)) (FLive chain' w' mutex_ slots) ->
  exists chainc wc ts, rtc (turn mine_fuel n) (Live chain w (Run n)) (Live chainc wc ts) /\
    related mine_fuel n (FLive chain' w' mutex_ slots) (Live chainc wc ts) /\ Forall (safe n any) ts.
Proof.
  intros Hw Hs. eapply (fine_turns_matched mine_fuel n _ _ Hs _ _ _ _ eq_refl); [constructor | exact Hw | apply Run_safe].
Qed.

(** C8.  The mutex does what it is for: however the calls of the threads [Run] starts
    are interleaved, inside and outside of critical sections, at most one thread is in a
    section, exactly when the mutex is held; the chain is always one that a run by whole
    sections has; and the states without a section under way are exactly the states that
    runs by whole sections reach, with the same chain, files, sockets and threads. *)
Theorem sections_atomic n chain w chain' w' mutex_ slots :
  wire_ok w ->
  (rtc (fine_turn mine_fuel n) (FLive chain w false (Ready <$> Run n)) (FLive chain' w' mutex_ slots) ->
   holders slots = (if mutex_ then 1 else 0)%nat /\
   exists wc ts, rtc (turn mine_fuel n) (Live chain w (Run n)) (Live chain' wc ts)) /\
  (forall ts,
   rtc (fine_turn mine_fuel n) (FLive chain w false (Ready <$> Run n)) (FLive chain' w' false (Ready <$> ts)) <->
   rtc (turn mine_fuel n) (Live chain w (Run n)) (Live chain' w' ts)).
Proof.
  intros Hw. split.
  - intros Hs. destruct (run_matched n _ _ _ _ _ _ Hw Hs) as (chainc & wc & ts & Hc & Hr & _).
    inversion Hr; subst; (split; [first [apply holders_ready | apply holders_pool]|]); by eexists _, _.
  - intros ts. split; [|intros Hs; by eapply turns_fine].
    intros Hs. destruct (run_matched n _ _ _ _ _ _ Hw Hs) as (chainc & wc & tsc & Hc & Hr & _).
    inversion Hr as [? ? ? E1 E2| | |]; subst. assert (tsc = ts) as -> by (by apply ready_inj). exact Hc.
Qed.

(** The beginning of a chain file does not load, and a node that starts on it makes a
    new chain. *)
Lemma torn_load c head rest path w :
  chain_wf c -> serialize_chain c = head ++ rest -> rest <> [] -> files w !! path = Some head ->
  forall c', fst (load_chain path w) <> Ok c'.
Proof.
  intros Hwf E Hne Hf c' Hl. unfold load_chain, mbind, io_bind, read_file in Hl. case_decide; [done|].
  rewrite Hf in Hl. cbn [lift fst] in Hl.
  pose proof (serialize_chain_ok _ Hwf) as Hb. pose proof (deserialize_serialize _ Hwf) as Hd.
  assert (bytes_ok head) as Hbh by (rewrite E in Hb; by apply Forall_app in Hb as [? _]).
  apply (deserialize_chain_Ok head c' Hbh) in Hl as [Hwf' (rest' & Eh)].
  assert (deserialize_chain (serialize_chain c) = Ok c') as Hd'.
  { apply deserialize_chain_Ok; [exact Hb|]. split; [exact Hwf'|]. exists (rest' ++ rest). by rewrite E, Eh, app_assoc. }
  rewrite Hd in Hd'. injection Hd' as ->. apply (f_equal length) in E, Eh. rewrite !length_app in *.
  destruct rest; [done|]. cbn [length] in *. lia.
Qed.
Lemma torn_restart c head rest port path peers mine w n2 chain2 w3 :
  chain_wf c -> serialize_chain c = head ++ rest -> rest <> [] -> files w !! path = Some head ->
  Node_make mine_fuel port path peers mine w = (Ok (n2, chain2), w3) ->
  exists blk, chain2 = [blk] /\ daemon_ok n2 (CBlock_GetHash blk) [blk] w3.
Proof.
  intros Hwf E Hne Hf Hm. destruct (Node_make_ok mine_fuel _ _ _ _ _ _ _ _ Hm) as (Hp & _ & Hf2 & [Hl|(blk & -> & Hk)]).
  - by apply (torn_load c head rest path w) in Hl.
  - exists blk. split; [done|]. split; [by exists blk, [] | exact Hk | by rewrite Hp].
Qed.

(** C11.  A node can be killed at any moment, in the middle of a critical section and of
    the write of a file too, or die of an exception or a signal.  A new node that starts
    on the chain file it leaves goes on with a linked chain of the same genesis that
    continues the chain the old node had in memory, or has more work - unless the process
    stopped while a thread that holds the mutex was saving a chain, with only a beginning
    of it in the file: the file is truncated before it is written, and then the new node
    starts on a new genesis block.  (The file must be readable and the chain have fewer
    than 2^32 - 1 blocks.) *)
Theorem crash_recovers `{!Secp256k1Laws} n g chain w chain1 w1 mutex_ slots w2 port peers mine n2 chain2 w3 :
  started n chain w -> daemon_ok n g chain w ->
  rtc (fine_turn mine_fuel n) (FLive chain w false (Ready <$> Run n)) (FLive chain1 w1 mutex_ slots) ->
  w2 = w1 \/ fine_turn mine_fuel n (FLive chain1 w1 mutex_ slots) (FTerminated w2) ->
  in_u32 (size_of chain1 + 1) -> chain_path_ n ∉ unreadable w2 ->
  Node_make mine_fuel port (chain_path_ n) peers mine w2 = (Ok (n2, chain2), w3) ->
  (daemon_ok n2 g chain2 w3 /\
   (chain1 `prefix_of` chain2 \/ SFltb (chain_work chain1) (chain_work chain2) = true)) \/
  (mutex_ = true /\
   (exists c head rest,
      (chain1 `prefix_of` c \/ SFltb (chain_work chain1) (chain_work c) = true) /\
      serialize_chain c = head ++ rest /\ rest <> [] /\ files w2 !! chain_path_ n = Some head) /\
   exists blk, chain2 = [blk] /\ daemon_ok n2 (CBlock_GetHash blk) [blk] w3).
Proof.
  intros Hst Hok Hs Hend Hsz Hread Hm. pose proof (st_wire _ _ _ Hst) as Hw.
  destruct (run_matched n _ _ _ _ _ _ Hw Hs) as (chainc & wc & ts & Hc & Hr & Hts).
  destruct (started_turns mine_fuel _ _ _ _ _ _ Hst Hc) as [Hn Hst'].
  pose proof (steps_ok mine_fuel n g _ _ _ _ (net_steps_steps mine_fuel n _ _ Hn) Hok) as Hok'. cbn [fst snd] in Hok'.
  destruct (related_resumable mine_fuel n g _ _ _ _ _ _ _ Hr Hts (st_wallet _ _ _ Hst) Hok' (st_durable _ _ _ Hst') Hsz)
    as (-> & Hq & Hact).
  assert (resumable n g chain1 w2 \/ mutex_ = true /\ torn n g chain1 w2)
    as [(c & Hf & Hcw & Hl & Hg & Ho)|(Hmu & c & head & rest & (Hcw & _ & _ & Ho) & E & Hne & Hf)].
  { destruct Hend as [->|Hend]; [exact Hq|].
    assert (forall b t a A (m : io A) k r, slots = b ++ Ready t :: a -> observe t = VisF (Unlocked m) k ->
      m w1 = (r, w2) -> resumable n g chain1 w2 \/ mutex_ = true /\ torn n g chain1 w2) as Hout.
    { intros b t a A m k r -> E Em. pose proof (related_safe mine_fuel n _ _ _ _ _ _ _ _ _ Hr Hts) as Ht.
      apply safe_unfold in Ht. rewrite E in Ht. destruct Ht as (Hm' & _ & _).
      apply (net_same n g chain1 m w1 r w2 mutex_ Hm' Em Hq). }
    inversion Hend as [|? ? ? b t a A m k e ? E Em|? ? ? b t a A m k ? E Em| |
                       |? ? ? b a A m c k e ? Em|? ? ? b a A m c k ? Em|]; subst;
      first [by eapply Hout | specialize (Hact _ _ _ _ _ _ eq_refl); by rewrite Em in Hact]. }
  - left. destruct (restarted_from mine_fuel _ _ _ _ _ _ _ _ _ Hf Hcw Hread Hm) as (-> & Hp & Hf2).
    split; [by split|]. unfold chain_work. rewrite chain_work_ltb, Z.ltb_lt. exact Ho.
  - right. split; [exact Hmu|]. split; [|by eapply torn_restart].
    exists c, head, rest. unfold chain_work. rewrite chain_work_ltb, Z.ltb_lt. tauto.
Qed.

(** The loss happens: from a thread that is about to save a chain, whatever the chain,
    the process reaches a moment after which only a new genesis block is left. *)
Theorem crash_loses n chain w before c f k after :
  chain_wf c -> chain_path_ n ∉ unwritable w ->
  exists slots w1,
    rtc (fine_turn mine_fuel n)
      (FLive chain w true (before ++ Holding (save_chain_code c (chain_path_ n) ≫= f) k :: after))
      (FLive chain w1 true slots) /\
    forall port peers mine n2 chain2 w3,
      Node_make mine_fuel port (chain_path_ n) peers mine w1 = (Ok (n2, chain2), w3) ->
      exists blk, chain2 = [blk] /\ daemon_ok n2 (CBlock_GetHash blk) [blk] w3.
Proof.
  intros Hwf Hw. eexists _, (set_files (<[chain_path_ n := []]> (files w)) w). split.
  - apply rtc_once. apply (fine_act mine_fuel n chain w true before after _ (open_trunc (chain_path_ n)) _ _ tt).
    unfold open_trunc. by rewrite decide_False by done.
  - intros port peers mine n2 chain2 w3. apply (torn_restart c [] (serialize_chain c)); [done | done | |apply lookup_insert_eq].
    rewrite serialize_chain_eq by apply Hwf. done.
Qed.
End AtomicityTheorems.

(** ** A concrete crash: the node of ThreadSafety.v is killed between the two files that
    its mining section writes *)

#[local] Existing Instances toy_hashes toy_hash_laws toy_secp toy_secp_laws.
#[local] Existing Instance toy_inet.

(** The first [k] calls of a section. *)
Fixpoint partly {A} (k : nat) (c : code A) (w : world) : option (code A * world) :=
  match k, c with
  | O, _ => Some (c, w)
  | S k, Act m x => match m w with (Ok a, w') => partly k (x a) w' | _ => None end
  | S _, Done _ => None
  end.
Lemma partly_turns `{HashFns, Secp256k1} fuel n chain w before k c h after c' w' :
  partly k c w = Some (c', w') ->
  rtc (fine_turn fuel n) (FLive chain w true (before ++ Holding c h :: after))
    (FLive chain w' true (before ++ Holding c' h :: after)).
Proof.
  revert c w. induction k as [|k IH]; intros c w E; [injection E as -> ->; constructor|].
  destruct c as [a|X m x]; [done|]. cbn [partly] in E. destruct (m w) as [[b| | |] w1] eqn:Em; try done.
  eapply rtc_l; [by eapply (fine_act _ _ _ _ _ _ _ _ m) | by apply IH].
Qed.

(** The mining section's calls before it saves, the calls that write the chain file, and
    where the process is after them. *)
Definition saving_calls : nat := 5.
Definition writing_calls : nat := Eval vm_compute in 1 + length (serialize_chain mined_chain).
Definition after_calls (k : nat) : option world :=
  snd <$> partly k (@section_code toy_hashes toy_secp 64 first_node first_chain SMine) (snd first_start).
Definition dead_world : world := Eval vm_compute in
  default empty_world (after_calls (saving_calls + writing_calls)).
Definition revived := Eval vm_compute in @Node_make toy_hashes toy_secp 64 9001 chain_path [] false dead_world.
Definition first_hash : bytes := Eval vm_compute in @tip_hash toy_hashes first_chain.

Lemma mining_calls k w :
  after_calls k = Some w ->
  exists slots,
    rtc (@fine_turn toy_hashes toy_secp 64 first_node)
      (FLive first_chain (snd first_start) false (Ready <$> Run first_node))
      (FLive first_chain w true slots).
Proof.
  unfold after_calls. destruct (partly k _ _) as [[c w']|] eqn:E; [|done]. intros [= ->].
  eexists. eapply rtc_l.
  - eapply (fine_lock 64 first_node first_chain (snd first_start) [Ready (AcceptLoop first_node)]
             MiningLoop [Ready (PeerPollLoop first_node)] SMine).
    unfold MiningLoop, forever, observe, ITree.iter. cbn. reflexivity.
  - eapply (partly_turns 64 first_node first_chain _ [Ready (AcceptLoop first_node)] k _ _
              [Ready (PeerPollLoop first_node)]). exact E.
Qed.
Lemma dead_after : after_calls (saving_calls + writing_calls) = Some dead_world.
Proof. vm_cast_no_check (eq_refl (Some dead_world)). Qed.

Lemma first_started :
  started first_node first_chain (snd first_start) /\
  daemon_ok first_node first_hash first_chain (snd first_start).
Proof.
  destruct first_world_ok as (A1 & A2 & A3 & A4 & _).
  destruct (Node_make_started 64 _ _ _ _ _ _ _ _ first_made A1 A2 A3 A4) as [_ Hst]. split; [exact Hst|].
  destruct (Node_make_ok 64 _ _ _ _ _ _ _ _ first_made) as (_ & _ & Hf & [Hl|(blk & E & Hk)]).
  - vm_compute in Hl. discriminate Hl.
  - split; [|exact Hk | exact Hf]. exists blk, []. split; [exact E|].
    assert (tip_hash first_chain = first_hash) as <- by (vm_compute; reflexivity). by rewrite E.
Qed.

Lemma sections_atomic_witness :
  exists ts,
    rtc (@fine_turn toy_hashes toy_secp 64 first_node)
      (FLive first_chain (snd first_start) false (Ready <$> Run first_node))
      (FLive mined_chain (snd first_mined) false (Ready <$> ts)).
Proof.
  destruct first_started as [Hst _]. destruct mining_turn as [ts Ht]. exists ts.
  exact (proj2 (proj2 (@sections_atomic toy_hashes toy_secp toy_inet 64 first_node first_chain
           (snd first_start) mined_chain (snd first_mined) false [] (st_wire _ _ _ Hst)) ts) (rtc_once _ _ Ht)).
Defined.

Definition revived_node : @node toy_secp := match fst revived with Ok (n, _) => n | _ => toy_node end.
Definition revived_chain : list CBlock := match fst revived with Ok (_, c) => c | _ => [] end.

Lemma revived_made :
  @Node_make toy_hashes toy_secp 64 9001 (chain_path_ first_node) [] false dead_world
  = (Ok (revived_node, revived_chain), snd revived).
Proof. vm_cast_no_check (eq_refl revived). Qed.

(** The new node goes on from the block that the dead one had written and not announced. *)
Lemma crash_recovers_witness :
  daemon_ok revived_node first_hash revived_chain (snd revived) /\
  size_of first_chain = 1 /\ size_of revived_chain = 2.
Proof.
  destruct first_started as [Hst Hok]. destruct (mining_calls _ _ dead_after) as [slots Hrun].
  split; [|split; vm_compute; reflexivity].
  destruct (@crash_recovers toy_hashes toy_hash_laws toy_secp toy_inet 64 toy_secp_laws
    first_node first_hash first_chain (snd first_start) first_chain dead_world true slots dead_world
    9001 [] false revived_node revived_chain (snd revived) Hst Hok Hrun (or_introl eq_refl)) as [[Hr _]|(_ & _ & blk & E & _)].
  - vm_compute. split; [discriminate | reflexivity].
  - apply (bool_decide_unpack _). vm_compute. reflexivity.
  - exact revived_made.
  - exact Hr.
  - apply (f_equal length) in E. vm_compute in E. discriminate E.
Defined.

(** Killed a byte earlier, it loses its genesis block too. *)
Definition torn_world : world := Eval vm_compute in
  default empty_world (after_calls (saving_calls + writing_calls - 1)).
Definition restarted := Eval vm_compute in @Node_make toy_hashes toy_secp 64 9001 chain_path [] false torn_world.
Example genesis_lost :
  (exists slots,
    rtc (@fine_turn toy_hashes toy_secp 64 first_node)
      (FLive first_chain (snd first_start) false (Ready <$> Run first_node))
      (FLive first_chain torn_world true slots)) /\
  match fst restarted with Ok (_, c) => size_of c = 1 /\ c <> first_chain | _ => False end.
Proof.
  split; [apply (mining_calls (saving_calls + writing_calls - 1)); vm_cast_no_check (eq_refl (Some torn_world))|].
  vm_compute. split; [reflexivity | discriminate].
Qed.
