(* ===== verification/Sync.v ===== *)
(** Two daemons: a thread of one node that polls another, and the thread of the other
    node that serves it.  What one sends is what the other receives, and the poll brings
    the first node to the second one's chain; and how a malformed message ends a node. *)
From S2P Require Import Prelude.
From S2P Require Import World.
From S2P Require Import Crypto.
From S2P Require Import Hashes.
From S2P Require Import Serializer.
From S2P Require Import Transaction.
From S2P Require Import Block.
From S2P Require Import Pow.
From S2P Require Import Wallet.
From S2P Require Import Chain.
From S2P Require Import Validation.
From S2P Require Import Storage.
From S2P Require Import Socket.
From S2P Require Import Message.
From S2P Require Import Node.
From S2P Require Import Protocol.
From S2P Require Import Daemon.
From S2P Require Import DaemonSafety.
From S2P Require Import Durability.
From S2P Require Import Wire.
From S2P Require Import Threads.
From S2P Require Import Frame.
From S2P Require Import ThreadSafety.
From ITree Require Core.ITreeDefinition.
From Stdlib Require Import Floats.SpecFloat.
Import Core.ITreeDefinition.

(** ** A thread that takes all the turns *)

Section Alone.
Context `{HashFns, Secp256k1}.
Context (mine_fuel : nat) (n : node).

(** [alone t chain w a chain' w']: with no turn of another thread in between, [t] returns
    [a] and leaves [chain'] and [w']. *)
Inductive alone {A} : thread A -> list CBlock -> world -> A -> list CBlock -> world -> Prop :=
| alone_ret t chain w a : observe t = RetF a -> alone t chain w a chain w
| alone_tau t u chain w a chain' w' :
    observe t = TauF u -> alone u chain w a chain' w' -> alone t chain w a chain' w'
| alone_unlocked t B (m : io B) k chain w b w1 a chain' w' :
    observe t = VisF (Unlocked m) k -> m w = (Ok b, w1) ->
    alone (k b) chain w1 a chain' w' -> alone t chain w a chain' w'
| alone_locked t s k chain w b chain1 w1 a chain' w' :
    observe t = VisF (Locked s) k -> run_section mine_fuel n chain s w = (Ok (b, chain1), w1) ->
    alone (k b) chain1 w1 a chain' w' -> alone t chain w a chain' w'.

(** [dies t chain w w']: alone, [t] ends with an exception, in the world [w']. *)
Inductive dies {A} : thread A -> list CBlock -> world -> world -> Prop :=
| dies_unlocked t B (m : io B) k chain w e w' :
    observe t = VisF (Unlocked m) k -> m w = (Throw e, w') -> dies t chain w w'
| dies_tau t u chain w w' : observe t = TauF u -> dies u chain w w' -> dies t chain w w'
| dies_later t B (m : io B) k chain w b w1 w' :
    observe t = VisF (Unlocked m) k -> m w = (Ok b, w1) -> dies (k b) chain w1 w' -> dies t chain w w'
| dies_after t s k chain w b chain1 w1 w' :
    observe t = VisF (Locked s) k -> run_section mine_fuel n chain s w = (Ok (b, chain1), w1) ->
    dies (k b) chain1 w1 w' -> dies t chain w w'.

Lemma alone_bind {A B} (t : thread A) (k : A -> thread B) chain w a chain1 w1 b chain' w' :
  alone t chain w a chain1 w1 -> alone (k a) chain1 w1 b chain' w' ->
  alone (t ≫= k) chain w b chain' w'.
Proof.
  intros Ht Hk. induction Ht as [t chain w a E|t u chain w a c2 w2 E _ IH
    |t X m h chain w x w3 a c2 w2 E Em _ IH|t s h chain w x c3 w3 a c2 w2 E Em _ IH].
  - inversion Hk; subst;
      [eapply alone_ret | eapply alone_tau | eapply alone_unlocked | eapply alone_locked];
      try eassumption; unfold mbind, thread_bind; rewrite observe_bind, E; eassumption.
  - eapply alone_tau; [unfold mbind, thread_bind; by rewrite observe_bind, E | by apply IH].
  - eapply (alone_unlocked _ _ m); [unfold mbind, thread_bind; by rewrite observe_bind, E | exact Em | by apply IH].
  - eapply alone_locked; [unfold mbind, thread_bind; by rewrite observe_bind, E | exact Em | by apply IH].
Qed.

Lemma dies_bind {A B} (t : thread A) (k : A -> thread B) chain w w' :
  dies t chain w w' -> dies (t ≫= k) chain w w'.
Proof.
  induction 1 as [t X m h chain w e w' E Em|t u chain w w' E _ IH|t X m h chain w x w3 w' E Em _ IH
    |t s h chain w x c3 w3 w' E Em _ IH].
  - eapply (dies_unlocked _ _ m); [|exact Em]. unfold mbind, thread_bind. by rewrite observe_bind, E.
  - eapply dies_tau; [unfold mbind, thread_bind; by rewrite observe_bind, E | exact IH].
  - eapply (dies_later _ _ m); [unfold mbind, thread_bind; by rewrite observe_bind, E | exact Em | exact IH].
  - eapply dies_after; [unfold mbind, thread_bind; by rewrite observe_bind, E | exact Em | exact IH].
Qed.

Lemma alone_then_dies {A B} (t : thread A) (k : A -> thread B) chain w a chain1 w1 w' :
  alone t chain w a chain1 w1 -> dies (k a) chain1 w1 w' -> dies (t ≫= k) chain w w'.
Proof.
  intros Ht Hk. induction Ht as [t chain w a E|t u chain w a c2 w2 E _ IH
    |t X m h chain w x w3 a c2 w2 E Em _ IH|t s h chain w x c3 w3 a c2 w2 E Em _ IH].
  - inversion Hk; subst;
      [eapply dies_unlocked | eapply dies_tau | eapply dies_later | eapply dies_after];
      try eassumption; unfold mbind, thread_bind; rewrite observe_bind, E; eassumption.
  - eapply dies_tau; [unfold mbind, thread_bind; by rewrite observe_bind, E | by apply IH].
  - eapply (dies_later _ _ m); [unfold mbind, thread_bind; by rewrite observe_bind, E | exact Em | by apply IH].
  - eapply dies_after; [unfold mbind, thread_bind; by rewrite observe_bind, E | exact Em | by apply IH].
Qed.

(** [leads t chain w u chain1 w1]: alone, [t] gets to [u] with [chain1] and [w1]. *)
Definition leads {A} (t : thread A) chain w (u : thread A) chain1 w1 : Prop :=
  (forall a chain' w', alone u chain1 w1 a chain' w' -> alone t chain w a chain' w') /\
  (forall w', dies u chain1 w1 w' -> dies t chain w w').
Lemma leads_refl {A} (t : thread A) chain w : leads t chain w t chain w.
Proof. split; auto. Qed.
Lemma leads_bind {A B} (t : thread A) (k : A -> thread B) chain w a chain1 w1 u chain2 w2 :
  alone t chain w a chain1 w1 -> leads (k a) chain1 w1 u chain2 w2 ->
  leads (t ≫= k) chain w u chain2 w2.
Proof.
  intros Ht [Ha Hd]. split.
  - intros b chain' w' Hu. eapply alone_bind; [exact Ht | by apply Ha].
  - intros w' Hu. eapply alone_then_dies; [exact Ht | by apply Hd].
Qed.

Lemma alone_act {A} (m : io A) chain w a w' : m w = (Ok a, w') -> alone (unlocked m) chain w a chain w'.
Proof. intros E. eapply (alone_unlocked _ _ m); [done | exact E |]. by apply alone_ret. Qed.
Lemma alone_section s chain w b chain' w' :
  run_section mine_fuel n chain s w = (Ok (b, chain'), w') -> alone (locked s) chain w b chain' w'.
Proof. intros E. eapply alone_locked; [done | exact E |]. by apply alone_ret. Qed.
Lemma alone_mret {A} (a : A) chain w : alone (mret a) chain w a chain w.
Proof. by apply alone_ret. Qed.
Lemma dies_act {A} (m : io A) chain w e w' : m w = (Throw e, w') -> dies (unlocked m) chain w w'.
Proof. intros E. by eapply (dies_unlocked _ _ m). Qed.

(** One pass of a loop. *)
Lemma observe_iter {A I} (body : I -> thread (I + A)) i :
  observe (ITree.iter body i) = observe (ITree.bind (body i)
    (fun lr => match lr with inl l => Tau (ITree.iter body l) | inr a => Ret a end)).
Proof. done. Qed.

Lemma alone_observe {A} (t u : thread A) chain w a chain' w' :
  observe t = observe u -> alone u chain w a chain' w' -> alone t chain w a chain' w'.
Proof.
  intros E Hu. inversion Hu; subst;
    [eapply alone_ret | eapply alone_tau | eapply alone_unlocked | eapply alone_locked];
    try eassumption; rewrite E; eassumption.
Qed.
Lemma dies_observe {A} (t u : thread A) chain w w' :
  observe t = observe u -> dies u chain w w' -> dies t chain w w'.
Proof.
  intros E Hu. inversion Hu; subst;
    [eapply dies_unlocked | eapply dies_tau | eapply dies_later | eapply dies_after];
    try eassumption; rewrite E; eassumption.
Qed.

Lemma alone_again {A I} (body : I -> thread (I + A)) i j chain w chain1 w1 a chain' w' :
  alone (body i) chain w (inl j) chain1 w1 -> alone (ITree.iter body j) chain1 w1 a chain' w' ->
  alone (ITree.iter body i) chain w a chain' w'.
Proof.
  intros Hb Hi. eapply alone_observe; [apply observe_iter|].
  eapply (alone_bind _ _ _ _ _ _ _ _ _ _ Hb). by eapply alone_tau.
Qed.
Lemma alone_leave {A I} (body : I -> thread (I + A)) i chain w a chain' w' :
  alone (body i) chain w (inr a) chain' w' -> alone (ITree.iter body i) chain w a chain' w'.
Proof.
  intros Hb. eapply alone_observe; [apply observe_iter|].
  eapply (alone_bind _ _ _ _ _ _ _ _ _ _ Hb). by eapply alone_ret.
Qed.
Lemma dies_in_round {A I} (body : I -> thread (I + A)) i chain w w' :
  dies (body i) chain w w' -> dies (ITree.iter body i : thread A) chain w w'.
Proof. intros Hb. eapply dies_observe; [apply observe_iter|]. by apply dies_bind. Qed.

(** In a pool of threads, whatever the others are. *)
Lemma alone_returns {A} (t : thread A) chain w a chain' w' before (f : thread A -> thread unit) after :
  (forall t u, observe t = TauF u -> observe (f t) = TauF (f u)) ->
  (forall t B (e : event B) k, observe t = VisF e k -> observe (f t) = VisF e (fun b => f (k b))) ->
  alone t chain w a chain' w' ->
  exists u : thread A, observe u = RetF a /\
    rtc (turn mine_fuel n) (Live chain w (before ++ f t :: after)) (Live chain' w' (before ++ f u :: after)).
Proof.
  intros Hf Hv Ht. induction Ht as [t chain w a E|t u chain w a c2 w2 E _ IH
    |t X m h chain w x w3 a c2 w2 E Em _ IH|t s h chain w x c3 w3 a c2 w2 E Em _ IH].
  - by exists t.
  - destruct IH as (v & Ev & Hs). exists v. split; [done|]. eapply rtc_l; [|exact Hs]. by apply turn_tau, Hf.
  - destruct IH as (v & Ev & Hs). exists v. split; [done|]. eapply rtc_l; [|exact Hs].
    eapply (turn_unlocked _ _ _ _ _ _ _ _ m (fun x => f (h x))); [by apply Hv | exact Em].
  - destruct IH as (v & Ev & Hs). exists v. split; [done|]. eapply rtc_l; [|exact Hs].
    eapply (turn_locked _ _ _ _ _ _ _ _ (fun x => f (h x))); [by apply Hv | exact Em].
Qed.

(** ... with the rest of the thread, [k], after it. *)
Lemma alone_turns {A} (t : thread A) (k : A -> thread unit) chain w a chain' w' before after :
  alone t chain w a chain' w' ->
  exists u, observe u = observe (k a) /\
    rtc (turn mine_fuel n) (Live chain w (before ++ ITree.bind t k :: after))
                           (Live chain' w' (before ++ u :: after)).
Proof.
  intros Ht. destruct (alone_returns t chain w a chain' w' before (fun t => ITree.bind t k) after) as (u & E & Hs).
  - intros u v E. by rewrite observe_bind, E.
  - intros u B e h E. by rewrite observe_bind, E.
  - done.
  - exists (ITree.bind u k). split; [by rewrite observe_bind, E | done].
Qed.

Lemma dies_turns (t : thread unit) chain w w' before after :
  dies t chain w w' ->
  rtc (turn mine_fuel n) (Live chain w (before ++ t :: after)) (Terminated w').
Proof.
  induction 1 as [t X m h chain w e w' E Em|t u chain w w' E _ IH|t X m h chain w x w3 w' E Em _ IH
    |t s h chain w x c3 w3 w' E Em _ IH].
  - apply rtc_once. by eapply (turn_unlocked_throw _ _ _ _ _ _ _ _ m).
  - eapply rtc_l; [by apply turn_tau | exact IH].
  - eapply rtc_l; [by eapply (turn_unlocked _ _ _ _ _ _ _ _ m) | exact IH].
  - eapply rtc_l; [by eapply turn_locked | exact IH].
Qed.
End Alone.

(** ** The conversation *)

Section Talk.
Context `{HashLaws, Secp256k1, Inet, UtxoOrder}.
Context (mine_fuel : nat) (n : node).

(** Whether the other end leaves the connection open, and silent, after what it sends. *)
Context (silent : bool).
(** An open stream that still holds [bs] for this side, on which this side has sent
    [out], and whose other end takes what is sent. *)
Definition talks (sock : Z) (w : world) (bs out : bytes) : Prop :=
  exists c, sockets w !! sock = Some c /\ stream (incoming c) = bs /\ outgoing c = out /\
    flows c /\ idle c = silent.

Lemma send_talks sock cmd payload w bs out :
  talks sock w bs out ->
  exists w', Peer_Send sock cmd payload w = (Ok true, w') /\
    talks sock w' bs (out ++ message_buffer cmd payload) /\ still w w'.
Proof.
  intros (c & Hc & Hs & Ho & Hr & Hid). unfold Peer_Send. rewrite Hc. unfold send_message, send_all.
  destruct (send_loop_spec _ c (message_buffer cmd payload) (le_n _)) as (sent & r & c' & E & [Ho' _ Hi Hid' _ Hok Hroom _]).
  destruct (Hroom Hr) as [-> Hr']. rewrite E. eexists. split; [done|]. split; [|done].
  exists c'. rewrite Ho', (Hok eq_refl), Ho, Hi, Hid'. split_and!; [apply lookup_insert_eq | done..].
Qed.

Lemma receive_talks sock msg cmd payload rest w out :
  command_ok cmd -> size_of payload <= MAX_PAYLOAD_SIZE ->
  talks sock w (message_buffer cmd payload ++ rest) out ->
  exists w', Peer_Receive sock msg w = (Ok (true, mkMessage cmd payload), w') /\
    talks sock w' rest out /\ still w w'.
Proof.
  intros (Hl & Hz & Hb) Hp (c & Hc & Hs & Ho & Hrm & Hid).
  destruct (receive_frame cmd payload c rest msg Hl Hz Hb Hp Hs) as (c' & E & Hr & Ho' & Hrm' & Hid').
  unfold Peer_Receive. rewrite Hc, E. eexists. split; [done|]. split; [|done].
  exists c'. unfold flows. rewrite Hr, Ho', Hrm', Hid'. split_and!; [apply lookup_insert_eq | done..].
Qed.

(** When the other end has closed the connection nothing is received; what was sent stays
    sent. *)
Lemma receive_end sock msg w out :
  silent = false -> talks sock w [] out ->
  exists m w' c', Peer_Receive sock msg w = (Ok (false, m), w') /\
    sockets w' !! sock = Some c' /\ outgoing c' = out /\ still w w'.
Proof.
  intros Hsil (c & Hc & Hs & Ho & _ & Hid). unfold Peer_Receive. rewrite Hc.
  destruct (receive_message_spec c msg) as (r & m & c' & -> & Ho' & _ & _ & Hr & Hok); [by rewrite Hs|].
  destruct Hr as [[ok ->]|[_ Hid']]; [|congruence]. destruct ok.
  - destruct (Hok eq_refl) as (used & Hu & E). apply message_bytes_length in Hu. rewrite Hs in E.
    apply (f_equal length) in E. rewrite length_app in E. simpl in E. lia.
  - eexists m, _, c'. split; [done|]. split; [apply lookup_insert_eq|]. split; [by rewrite Ho' | done].
Qed.

Lemma alone_await sock msg cmd payload rest w out chain :
  command_ok cmd -> size_of payload <= MAX_PAYLOAD_SIZE ->
  talks sock w (message_buffer cmd payload ++ rest) out ->
  exists w', alone mine_fuel n (await sock msg cmd) chain w (true, mkMessage cmd payload) chain w' /\
    talks sock w' rest out /\ still w w'.
Proof.
  intros Hc Hp Ht. destruct (receive_talks sock msg cmd payload rest w out Hc Hp Ht) as (w' & E & Ht' & Hk).
  exists w'. split; [|done]. eapply alone_bind; [apply alone_act, E|]. cbn.
  rewrite bool_decide_true by done. apply alone_mret.
Qed.
Lemma alone_send sock cmd payload w bs out chain :
  talks sock w bs out ->
  exists w', alone mine_fuel n (send_to sock cmd payload) chain w true chain w' /\
    talks sock w' bs (out ++ message_buffer cmd payload) /\ still w w'.
Proof.
  intros Ht. destruct (send_talks sock cmd payload w bs out Ht) as (w' & E & Ht' & Hk).
  exists w'. split; [by apply alone_act | done].
Qed.

(** The sections of the serving thread send one message each. *)
Lemma section_sends s sock cmd payload chain w bs out :
  run_section mine_fuel n chain s = ((Peer_Send sock cmd payload;; mret tt);; mret (true, chain)) ->
  talks sock w bs out ->
  exists w', alone mine_fuel n (locked s) chain w true chain w' /\
    talks sock w' bs (out ++ message_buffer cmd payload) /\ still w w'.
Proof.
  intros Hr Ht. destruct (send_talks sock cmd payload w bs out Ht) as (w' & E & Ht' & Hk).
  exists w'. split; [|done]. apply alone_section. rewrite Hr.
  rewrite (io_bind_eq _ _ w tt w'); [done|]. by rewrite (io_bind_eq _ _ _ _ _ E).
Qed.

(** Closing a socket records what was sent on it. *)
Lemma alone_close sock c chain w :
  sockets w !! sock = Some c ->
  exists w', alone mine_fuel n (unlocked (close_socket sock)) chain w tt chain w' /\ still w w' /\
    exists l, closed w' = (sock, c) :: l.
Proof.
  intros Hc. exists (close_fd sock w). split; [by apply alone_act|]. split; [apply still_close|].
  unfold close_fd. rewrite Hc. by eexists.
Qed.

Lemma command_ok_true cmd : bool_decide (command_ok cmd) = true -> command_ok cmd.
Proof. apply bool_decide_eq_true. Qed.

(** *** The bytes of a synchronisation *)

(** What the polling node sends, with GETBLOCKS if it asks for the [full] chain, ... *)
Definition client_bytes (tip : CBlock) (full : bool) : bytes :=
  message_buffer command.VERSION build_version_payload ++ message_buffer command.VERACK []
  ++ message_buffer command.GETDATA (CBlock_GetHash tip)
  ++ (if full then message_buffer command.GETBLOCKS [] else []).
(** ... and what the polled one answers. *)
Definition server_bytes (chain : list CBlock) (tip : CBlock) (full : bool) : bytes :=
  message_buffer command.VERSION build_version_payload ++ message_buffer command.VERACK []
  ++ message_buffer command.INV (CBlock_GetHash tip)
  ++ message_buffer command.BLOCK (CBlock_Serialize tip)
  ++ (if full then message_buffer command.CHAIN (serialize_chain chain) else []).

Lemma hash_payload tip : size_of (CBlock_GetHash tip) <= MAX_PAYLOAD_SIZE.
Proof. unfold size_of, CBlock_GetHash, CBlockHeader_GetHash, hash_double_sha256. by rewrite sha256_length. Qed.

(** The passes of the serving loop. *)
Lemma alone_getdata sock m tip payload rest chain w out :
  last chain = Some tip -> size_of payload <= MAX_PAYLOAD_SIZE ->
  talks sock w (message_buffer command.GETDATA payload ++ rest) out ->
  exists m' w', alone mine_fuel n (connection_round sock m) chain w (inl m') chain w' /\
    talks sock w' rest (out ++ message_buffer command.BLOCK (CBlock_Serialize tip)) /\ still w w'.
Proof.
  intros Hl Hp Ht.
  destruct (receive_talks sock m command.GETDATA payload rest w out (command_ok_true command.GETDATA eq_refl) Hp Ht)
    as (w1 & E1 & T1 & K1).
  destruct (section_sends (SSendTip sock) sock command.BLOCK (CBlock_Serialize tip) chain w1 rest out)
    as (w2 & A2 & T2 & K2); [|done|].
  { cbn [run_section]. unfold send_tip_section, back. by rewrite Hl. }
  eexists _, w2. split; [|split; [exact T2 | solve_still]].
  eapply alone_bind; [apply alone_act, E1|]. cbn [negb]. rewrite decide_True by done.
  eapply alone_bind; [exact A2|]. apply alone_mret.
Qed.
Lemma alone_getblocks sock m rest chain w out :
  talks sock w (message_buffer command.GETBLOCKS [] ++ rest) out ->
  exists m' w', alone mine_fuel n (connection_round sock m) chain w (inl m') chain w' /\
    talks sock w' rest (out ++ message_buffer command.CHAIN (serialize_chain chain)) /\ still w w'.
Proof.
  intros Ht.
  destruct (receive_talks sock m command.GETBLOCKS [] rest w out (command_ok_true command.GETBLOCKS eq_refl)) as (w1 & E1 & T1 & K1);
    [done | done|].
  destruct (section_sends (SSendChain sock) sock command.CHAIN (serialize_chain chain) chain w1 rest out)
    as (w2 & A2 & T2 & K2); [done | done|].
  eexists _, w2. split; [|split; [exact T2 | solve_still]].
  eapply alone_bind; [apply alone_act, E1|]. cbn [negb msg_command].
  rewrite decide_False by done. rewrite decide_True by done.
  eapply alone_bind; [exact A2|]. apply alone_mret.
Qed.
Lemma alone_hangup sock m chain w out :
  silent = false -> talks sock w [] out ->
  exists w' c', alone mine_fuel n (ITree.iter (connection_round sock) m) chain w tt chain w' /\
    sockets w' !! sock = Some c' /\ outgoing c' = out /\ still w w'.
Proof.
  intros Hsil Ht. destruct (receive_end sock m w out Hsil Ht) as (m' & w' & c' & E & Hc & Ho & Hk).
  exists w', c'. split; [|done]. apply alone_leave. eapply alone_bind; [apply alone_act, E|]. apply alone_mret.
Qed.

(** The loop of the serving thread. *)
Lemma alone_serves sock m tip (full : bool) chain w out :
  silent = false -> last chain = Some tip ->
  talks sock w (message_buffer command.GETDATA (CBlock_GetHash tip)
                ++ (if full then message_buffer command.GETBLOCKS [] else [])) out ->
  exists w' c', alone mine_fuel n (ITree.iter (connection_round sock) m) chain w tt chain w' /\
    sockets w' !! sock = Some c' /\ still w w' /\
    outgoing c' = out ++ message_buffer command.BLOCK (CBlock_Serialize tip)
      ++ (if full then message_buffer command.CHAIN (serialize_chain chain) else []).
Proof.
  intros Hsil Hl Ht.
  destruct (alone_getdata sock m tip _ _ chain w out Hl (hash_payload tip) Ht) as (m1 & w1 & A1 & T1 & K1).
  destruct full.
  - rewrite <- (app_nil_r (message_buffer command.GETBLOCKS [])) in T1.
    destruct (alone_getblocks sock m1 [] chain w1 _ T1) as (m2 & w2 & A2 & T2 & K2).
    destruct (alone_hangup sock m2 chain w2 _ Hsil T2) as (w' & c' & A3 & Hc & Ho & K3).
    exists w', c'. split; [eapply alone_again; [exact A1|]; eapply alone_again; [exact A2 | exact A3]|].
    split; [done|]. split; [solve_still|]. by rewrite Ho, app_assoc.
  - destruct (alone_hangup sock m1 chain w1 _ Hsil T1) as (w' & c' & A3 & Hc & Ho & K3).
    exists w', c'. split; [eapply alone_again; [exact A1 | exact A3]|].
    split; [done|]. split; [solve_still|]. by rewrite Ho, app_nil_r.
Qed.

(** The serving thread up to its loop. *)
Lemma connection_greets sock tip rest chain w :
  last chain = Some tip ->
  talks sock w (message_buffer command.VERSION build_version_payload
    ++ message_buffer command.VERACK [] ++ rest) [] ->
  exists m w1, talks sock w1 rest (message_buffer command.VERSION build_version_payload
      ++ message_buffer command.VERACK [] ++ message_buffer command.INV (CBlock_GetHash tip)) /\
    still w w1 /\
    leads mine_fuel n (serve_connection sock) chain w (ITree.iter (connection_round sock) m) chain w1.
Proof.
  intros Hl Ht.
  destruct (alone_await sock Message_default command.VERSION build_version_payload _ w [] chain
              (command_ok_true command.VERSION eq_refl) ltac:(done) Ht) as (w1 & A1 & T1 & K1).
  destruct (alone_send sock command.VERSION build_version_payload w1 _ _ chain T1) as (w2 & A2 & T2 & K2).
  destruct (alone_await sock (mkMessage command.VERSION build_version_payload) command.VERACK [] _ w2 _ chain
              (command_ok_true command.VERACK eq_refl) ltac:(done) T2) as (w3 & A3 & T3 & K3).
  destruct (alone_send sock command.VERACK [] w3 _ _ chain T3) as (w4 & A4 & T4 & K4).
  assert (run_section mine_fuel n chain (SAnnounce sock)
    = ((Peer_Send sock command.INV (CBlock_GetHash tip);; mret tt);; mret (true, chain))) as Er.
  { cbn [run_section]. unfold announce_section, back. by rewrite Hl. }
  destruct (section_sends (SAnnounce sock) sock command.INV (CBlock_GetHash tip) chain w4 _ _ Er T4)
    as (w5 & A5 & T5 & K5).
  rewrite <- !app_assoc, app_nil_l in T5.
  exists (mkMessage command.VERACK []), w5. split; [done|].
  split; [solve_still|].
  eapply leads_bind; [exact A1|]. cbn [negb]. eapply leads_bind; [exact A2|].
  eapply leads_bind; [exact A3|]. cbn [negb]. eapply leads_bind; [exact A4|].
  eapply leads_bind; [exact A5|]. apply leads_refl.
Qed.

(** The whole thread that serves a poll. *)
Lemma connection_serves sock tip (full : bool) chain w :
  silent = false -> last chain = Some tip -> talks sock w (client_bytes tip full) [] ->
  exists w' c' l, alone mine_fuel n (HandleConnection sock) chain w tt chain w' /\ still w w' /\
    closed w' = (sock, c') :: l /\ outgoing c' = server_bytes chain tip full.
Proof.
  intros Hsil Hl Ht.
  destruct (connection_greets sock tip _ chain w Hl Ht) as (m & w1 & T1 & K1 & [Hgreet _]).
  destruct (alone_serves sock m tip full chain w1 _ Hsil Hl T1) as (w2 & c' & A2 & Hc & K2 & Ho).
  destruct (alone_close sock c' chain w2 Hc) as (w3 & A3 & K3 & l & Hcl).
  exists w3, c', l. split; [|split; [solve_still|]].
  - eapply alone_bind; [apply Hgreet, A2 | exact A3].
  - split; [done|]. rewrite Ho. unfold server_bytes. by rewrite <- !app_assoc.
Qed.

(** *** The polling side *)

(** Up to the answer to GETDATA. *)
Lemma poll_fetches sock chainB tip (full : bool) chain w :
  CBlock_wf tip -> size_of (CBlock_Serialize tip) <= MAX_PAYLOAD_SIZE ->
  talks sock w (server_bytes chainB tip full) [] ->
  exists w1 msg,
    talks sock w1 (if full then message_buffer command.CHAIN (serialize_chain chainB) else [])
      (client_bytes tip false) /\ still w w1 /\
    leads mine_fuel n (poll_talk sock) chain w (poll_block sock tip msg) chain w1.
Proof.
  intros Hwf Hsz Ht. unfold server_bytes in Ht.
  destruct (alone_send sock command.VERSION build_version_payload w _ _ chain Ht) as (w1 & A1 & T1 & K1).
  destruct (alone_await sock Message_default command.VERSION build_version_payload _ w1 _ chain
              (command_ok_true command.VERSION eq_refl) ltac:(done) T1) as (w2 & A2 & T2 & K2).
  destruct (alone_send sock command.VERACK [] w2 _ _ chain T2) as (w3 & A3 & T3 & K3).
  destruct (alone_await sock (mkMessage command.VERSION build_version_payload) command.VERACK [] _ w3 _ chain
              (command_ok_true command.VERACK eq_refl) ltac:(done) T3) as (w4 & A4 & T4 & K4).
  destruct (alone_await sock (mkMessage command.VERACK []) command.INV (CBlock_GetHash tip) _ w4 _ chain
              (command_ok_true command.INV eq_refl) (hash_payload tip) T4) as (w5 & A5 & T5 & K5).
  destruct (alone_send sock command.GETDATA (CBlock_GetHash tip) w5 _ _ chain T5) as (w6 & A6 & T6 & K6).
  destruct (alone_await sock (mkMessage command.INV (CBlock_GetHash tip)) command.BLOCK (CBlock_Serialize tip)
              _ w6 _ chain (command_ok_true command.BLOCK eq_refl) Hsz T6) as (w7 & A7 & T7 & K7).
  exists w7, (mkMessage command.BLOCK (CBlock_Serialize tip)). split; [|split].
  - unfold client_bytes. rewrite <- !app_assoc, app_nil_l in T7. by rewrite app_nil_r.
  - solve_still.
  - eapply leads_bind; [exact A1|]. eapply leads_bind; [exact A2|]. cbn [negb].
    eapply leads_bind; [exact A3|]. eapply leads_bind; [exact A4|]. cbn [negb].
    eapply leads_bind; [exact A5|]. cbn [negb msg_payload]. eapply leads_bind; [exact A6|].
    eapply leads_bind; [exact A7|]. cbn [negb msg_payload].
    assert (read_from CBlock_Deserialize (CBlock_Serialize tip) = Ok tip) as E.
    { apply (read_from_Ok _ _ _ _ _ CBlock_parses); [by apply CBlock_ser_ok|].
      split; [done|]. exists []. by rewrite app_nil_r. }
    eapply leads_bind; [apply alone_act; unfold lift; by rewrite E | apply leads_refl].
Qed.

(** The block extends our chain. *)
Lemma poll_extends sock tip msg chain chain1 w out :
  try_extend_chain chain tip = Ok (true, chain1) -> chain_path_ n ∉ unwritable w ->
  talks sock w [] out ->
  exists w' c, alone mine_fuel n (poll_block sock tip msg) chain w tt chain1 w' /\
    sockets w' !! sock = Some c /\ outgoing c = out /\
    files w' = <[chain_path_ n := serialize_chain chain1]> (files w).
Proof.
  intros He Hu (c & Hc & _ & Ho & _).
  exists (set_files (<[chain_path_ n := serialize_chain chain1]> (files w)) w), c. split; [|done].
  eapply alone_bind; [eapply alone_section|].
  - cbn [run_section]. unfold extend_section. rewrite He. unfold mbind, io_bind, lift, save_chain.
    by rewrite write_file_Ok by done.
  - apply alone_mret.
Qed.

(** It does not, but the peer's chain is preferred. *)
Lemma poll_reorgs sock tip msg chain chainB w out :
  try_extend_chain chain tip = Ok (false, chain) -> try_reorg chain chainB = Ok (true, chainB) ->
  IsMerkleRootValid tip = true -> check_proof_of_work (block_header tip) = true ->
  chain_wf chainB -> size_of (serialize_chain chainB) <= MAX_PAYLOAD_SIZE ->
  chain_path_ n ∉ unwritable w ->
  talks sock w (message_buffer command.CHAIN (serialize_chain chainB)) out ->
  exists w' c, alone mine_fuel n (poll_block sock tip msg) chain w tt chainB w' /\
    sockets w' !! sock = Some c /\ outgoing c = out ++ message_buffer command.GETBLOCKS [] /\
    files w' = <[chain_path_ n := serialize_chain chainB]> (files w).
Proof.
  intros He Hr Hmr Hpow Hwf Hsz Hu Ht.
  destruct (alone_send sock command.GETBLOCKS [] w _ _ chain Ht) as (w1 & A1 & T1 & K1).
  rewrite <- (app_nil_r (message_buffer command.CHAIN _)) in T1.
  destruct (alone_await sock msg command.CHAIN (serialize_chain chainB) [] w1 _ chain
              (command_ok_true command.CHAIN eq_refl) Hsz T1) as (w2 & A2 & (c & Hc & _ & Ho & _) & K2).
  destruct (still_kept _ _ (still_trans _ _ _ K1 K2)) as (Ef & Eu & _).
  exists (set_files (<[chain_path_ n := serialize_chain chainB]> (files w2)) w2), c.
  split; [|split_and!; [done | done | cbn [files set_files]; by rewrite Ef]].
  eapply alone_bind; [eapply alone_section|].
  { cbn [run_section]. unfold extend_section. rewrite He. reflexivity. }
  cbn match. rewrite Hmr, Hpow. cbn [negb orb].
  eapply alone_bind; [exact A1|]. eapply alone_bind; [exact A2|]. cbn [negb msg_payload].
  eapply alone_bind; [apply alone_act; unfold lift; by rewrite (deserialize_serialize chainB Hwf)|].
  eapply alone_bind; [eapply alone_section|apply alone_mret].
  cbn [run_section]. unfold reorg_section. rewrite Hr. unfold mbind, io_bind, lift, save_chain.
  by rewrite write_file_Ok by (by rewrite Eu).
Qed.

(** The thread that polls, from the connection to the closed socket. *)
Lemma poll_peer_talks addr ip c os' chain chain' w sent after :
  inet_pton (peer_host addr) = Some ip -> os w = Succeeds :: Connects c :: os' -> fresh_fd w ->
  outgoing c = [] -> flows c -> idle c = silent ->
  (forall w1, kept w w1 -> talks (next_fd w) w1 (stream (incoming c)) [] ->
     exists w2 c2, alone mine_fuel n (poll_talk (next_fd w)) chain w1 tt chain' w2 /\
       sockets w2 !! next_fd w = Some c2 /\ outgoing c2 = sent /\ files w2 = after) ->
  exists w' c' l, alone mine_fuel n (PollPeer addr) chain w tt chain' w' /\
    closed w' = (next_fd w, c') :: l /\ outgoing c' = sent /\ files w' = after.
Proof.
  intros Hi Ho Hf Hout Hroom Hid Htalk.
  destruct (connect_to_succeeds (peer_host addr) (peer_port addr) w ip c os' Hi Ho Hf) as (w1 & E1 & Hs1 & Hk1).
  destruct (Htalk w1 Hk1) as (w2 & c2 & A2 & Hc2 & Hsent & Hfiles); [by exists c|].
  destruct (alone_close (next_fd w) c2 chain' w2 Hc2) as (w3 & A3 & Ef%still_kept & l & Hl).
  exists w3, c2, l. split; [|by rewrite (proj1 Ef)].
  eapply alone_bind.
  - apply alone_act. unfold connect_opt, try_catch. by rewrite (io_bind_eq _ _ _ _ _ E1).
  - cbn match. eapply alone_bind; [exact A2 | exact A3].
Qed.

(** Whatever the polled node's tip is to the polling one, its poll ends on it. *)
Lemma poll_talks sock chainA chainB tip extends chainA' w :
  validate_full_chain chainB = Ok true -> chain_wf chainB -> last chainB = Some tip ->
  hd_error (CBlock_GetHash <$> chainA) = hd_error (CBlock_GetHash <$> chainB) ->
  SFltb (calculate_chain_work (extract_headers chainA))
        (calculate_chain_work (extract_headers chainB)) = true ->
  try_extend_chain chainA tip = Ok (extends, chainA') -> chain_path_ n ∉ unwritable w ->
  size_of (CBlock_Serialize tip) <= MAX_PAYLOAD_SIZE ->
  size_of (serialize_chain chainB) <= MAX_PAYLOAD_SIZE ->
  talks sock w (server_bytes chainB tip (negb extends)) [] ->
  let chain' := if extends then chainA ++ [tip] else chainB in
  exists w' c, alone mine_fuel n (poll_talk sock) chainA w tt chain' w' /\
    sockets w' !! sock = Some c /\ outgoing c = client_bytes tip (negb extends) /\
    files w' = <[chain_path_ n := serialize_chain chain']> (files w).
Proof.
  intros Hv Hwf Hl Hg Hwork Hext Hu Hsz HszB Ht chain'. destruct (id Hwf) as [Hblocks _].
  assert (CBlock_wf tip /\ IsMerkleRootValid tip = true /\ check_proof_of_work (block_header tip) = true)
    as (Hb & Hmr & Hpow).
  { apply last_Some in Hl as [l ->]. apply validate_full_chain_valid in Hv as [_ [m Hm]].
    apply valid_chain_snoc_inv in Hm as (m' & _ & [E1 E2 _ _ _] & _).
    apply Forall_app in Hblocks as [_ Hb]. apply Forall_cons in Hb as [Hb _]. done. }
  destruct (poll_fetches sock chainB tip (negb extends) chainA w Hb Hsz Ht) as (w1 & msg & T1 & (Ef & Eu & _)%still_kept & [Hpoll _]).
  rewrite <- Eu in Hu. pose proof (try_extend_inv _ _ _ _ Hext) as Hi. subst chain'. destruct extends; cbn [negb] in *.
  - destruct Hi as (-> & _).
    destruct (poll_extends sock tip msg chainA _ w1 _ Hext Hu T1) as (w2 & c & A2 & Hc & Ho & Hf).
    exists w2, c. split; [by apply Hpoll|]. by rewrite <- Ef.
  - subst chainA'.
    assert (try_reorg chainA chainB = Ok (true, chainB)) as Hr.
    { destruct chainA as [|a chainA]; [done|]. destruct chainB as [|b chainB]; [done|].
      unfold try_reorg. rewrite Hv. injection Hg as ->. rewrite bool_decide_true by done. cbn [negb mbind result_bind].
      by rewrite Hwork. }
    destruct (poll_reorgs sock tip msg chainA chainB w1 _ Hext Hr Hmr Hpow Hwf HszB Hu T1)
      as (w2 & c & A2 & Hc & Ho & Hf).
    exists w2, c. split; [by apply Hpoll|]. split; [done|]. split; [|by rewrite <- Ef].
    rewrite Ho. unfold client_bytes. by rewrite app_nil_r, <- !app_assoc.
Qed.
End Talk.

(** ** Theorems *)

Section SyncTheorems.
Context `{HashLaws, Secp256k1, Inet, UtxoOrder}.

(** C9.  Two nodes of one network synchronise: [nodeA] polls [nodeB], whose chain is
    valid, begins with the same block, has more work and fits in a message, as its tip
    does.  If the chain file can be written and the connection delivers to each what the
    other sends, in pieces of any sizes, then in
    some turns of the two processes, which may have any other threads, [nodeA] comes to
    have [nodeB]'s tip as its tip, by appending it when it extends its chain and by
    taking over the whole chain otherwise; its chain file is the new chain, [nodeB] is as
    it was, and both have closed the connection.  The bytes recorded on the closed
    sockets are those the other side was assumed to receive. *)
Theorem poll_syncs fuelA nodeA chainA wA cA addr ip os' beforeA afterA kA
    fuelB nodeB chainB wB cB sock beforeB afterB tip extends chainA1 :
  validate_full_chain chainB = Ok true -> chain_wf chainB -> last chainB = Some tip ->
  hd_error (CBlock_GetHash <$> chainA) = hd_error (CBlock_GetHash <$> chainB) ->
  SFltb (calculate_chain_work (extract_headers chainA))
        (calculate_chain_work (extract_headers chainB)) = true ->
  try_extend_chain chainA tip = Ok (extends, chainA1) -> chain_path_ nodeA ∉ unwritable wA ->
  size_of (CBlock_Serialize tip) <= MAX_PAYLOAD_SIZE ->
  size_of (serialize_chain chainB) <= MAX_PAYLOAD_SIZE ->
  inet_pton (peer_host addr) = Some ip -> os wA = Succeeds :: Connects cA :: os' -> fresh_fd wA ->
  outgoing cA = [] -> flows cA ->
  talks false sock wB (stream (incoming cB)) [] ->
  stream (incoming cA) = server_bytes chainB tip (negb extends) ->
  stream (incoming cB) = client_bytes tip (negb extends) ->
  let chain' := if extends then chainA ++ [tip] else chainB in
  exists wA' cA' lA uA wB' cB' lB uB,
    observe uA = observe (kA tt) /\ observe uB = RetF tt /\
    rtc (turn fuelA nodeA) (Live chainA wA (beforeA ++ (PollPeer addr ≫= kA) :: afterA))
                           (Live chain' wA' (beforeA ++ uA :: afterA)) /\
    rtc (turn fuelB nodeB) (Live chainB wB (beforeB ++ HandleConnection sock :: afterB))
                           (Live chainB wB' (beforeB ++ uB :: afterB)) /\
    last chain' = Some tip /\
    files wA' = <[chain_path_ nodeA := serialize_chain chain']> (files wA) /\ files wB' = files wB /\
    closed wA' = (next_fd wA, cA') :: lA /\ outgoing cA' = stream (incoming cB) /\
    closed wB' = (sock, cB') :: lB /\ outgoing cB' = stream (incoming cA).
Proof.
  intros Hv Hwf Hl Hg Hwork Hext Hu Hsz HszB Hi Ho Hf Hout Hroom Ht HsA HsB chain'. rewrite HsB in Ht |- *. rewrite HsA.
  destruct (poll_peer_talks fuelA nodeA (idle cA) addr ip cA os' chainA chain' wA (client_bytes tip (negb extends))
              (<[chain_path_ nodeA := serialize_chain chain']> (files wA)) Hi Ho Hf Hout Hroom eq_refl)
    as (wA' & cA' & lA & AA & HcA & HoA & HfA).
  { intros w1 (Ef & Eu & _) T1. rewrite HsA in T1. rewrite <- Eu in Hu.
    destruct (poll_talks fuelA nodeA _ _ chainA chainB tip extends chainA1 w1 Hv Hwf Hl Hg Hwork Hext Hu Hsz HszB T1)
      as (w2 & c2 & A2 & Hc2 & Ho2 & Hf2).
    exists w2, c2. by rewrite <- Ef. }
  destruct (connection_serves fuelB nodeB false sock tip (negb extends) chainB wB eq_refl Hl Ht)
    as (wB' & cB' & lB & AB & (EfB & _)%still_kept & HcB & HoB).
  destruct (alone_turns fuelA nodeA _ kA _ _ _ _ _ beforeA afterA AA) as (uA & EuA & TA).
  destruct (alone_returns fuelB nodeB _ _ _ _ _ _ beforeB (fun t => t) afterB ltac:(done) ltac:(done) AB)
    as (uB & EuB & TB).
  exists wA', cA', lA, uA, wB', cB', lB, uB. split_and!; try done.
  unfold chain'. destruct extends; [apply last_snoc | done].
Qed.

(** C40.  A peer can stop the daemon: after the handshake, a TX message with an
    empty payload makes [Transaction::Deserialize] throw in the thread that runs
    [HandleConnection], where nothing catches the exception; whatever the other threads
    are, the process can then reach its end, with the files it had.  It does not matter
    what the peer does next. *)
Theorem malformed_tx_kills fuel n chain tip silent sock w rest before after :
  last chain = Some tip ->
  talks silent sock w (message_buffer command.VERSION build_version_payload
    ++ message_buffer command.VERACK [] ++ message_buffer command.TX [] ++ rest) [] ->
  exists w', rtc (turn fuel n) (Live chain w (before ++ HandleConnection sock :: after)) (Terminated w') /\
    kept w w'.
Proof.
  intros Hl Ht.
  destruct (connection_greets fuel n silent sock tip _ chain w Hl Ht) as (m & w1 & T1 & K1 & [_ Hgreet]).
  destruct (receive_talks silent sock m command.TX [] rest w1 _ (command_ok_true command.TX eq_refl) ltac:(done) T1)
    as (w2 & E2 & _ & K2).
  exists w2. split; [|by eapply still_kept, still_trans]. apply dies_turns, dies_bind, Hgreet.
  apply dies_in_round. eapply alone_then_dies; [apply alone_act, E2|]. cbn [negb msg_command msg_payload].
  rewrite decide_False by done. rewrite decide_False by done. rewrite decide_True by done.
  apply dies_bind. by apply (dies_act _ _ _ _ _ out_of_range).
Qed.
End SyncTheorems.

(** ** A concrete poll: a node that has the genesis block polls one that has the next *)

#[local] Existing Instance toy_hashes.
#[local] Existing Instance toy_inet.

Definition served : conn :=
  mkConn [take 100 (@server_bytes toy_hashes toy_chain toy_block false);
          drop 100 (@server_bytes toy_hashes toy_chain toy_block false)] [] [7; 1000] false.
Definition polled : conn := toy_conn (@client_bytes toy_hashes toy_block false).
Definition client_world : world := node_world [Succeeds; Connects served].
Definition server_world (c : conn) : world :=
  set_files {[ chain_path := serialize_chain toy_chain ]} (set_sockets {[ 5 := c ]} (node_world [])).

Lemma poll_syncs_witness :
  exists wA' cA' lA uA,
    rtc (@turn toy_hashes toy_secp 64 toy_node)
      (Live toy_genesis client_world ([] ++ (PollPeer (mkPeerAddress (str "127.0.0.1") 9000) ≫= mret) :: []))
      (Live toy_chain wA' ([] ++ uA :: [])) /\
    closed wA' = (next_fd client_world, cA') :: lA /\ outgoing cA' = stream (incoming polled).
Proof.
  assert (@chain_wf toy_hashes toy_chain) as A1
    by (apply (bool_decide_unpack _); vm_compute; reflexivity).
  assert (chain_path_ toy_node ∉ unwritable client_world) as A2
    by (apply (bool_decide_unpack _); vm_compute; reflexivity).
  assert (size_of (CBlock_Serialize toy_block) <= MAX_PAYLOAD_SIZE) as A3 by (vm_compute; discriminate).
  assert (size_of (serialize_chain toy_chain) <= MAX_PAYLOAD_SIZE) as A4 by (vm_compute; discriminate).
  assert (fresh_fd client_world) as A5 by (split; [reflexivity | discriminate]).
  assert (@try_extend_chain toy_hashes toy_secp toy_genesis toy_block = Ok (true, toy_chain)) as A6
    by (vm_compute; reflexivity).
  assert (talks false 5 (server_world polled) (stream (incoming polled)) []) as A7
    by (exists polled; split_and!; [reflexivity | reflexivity | reflexivity | by repeat constructor | reflexivity]).
  assert (flows served) as A8 by (by repeat constructor; lia).
  destruct (@poll_syncs toy_hashes toy_hash_laws toy_secp toy_inet 64 toy_node toy_genesis client_world served
    (mkPeerAddress (str "127.0.0.1") 9000) 0 [] [] [] mret
    64 toy_node toy_chain (server_world polled) polled 5 [] [] toy_block true toy_chain
    toy_chain_valid A1 eq_refl ltac:(vm_compute; reflexivity) ltac:(vm_compute; reflexivity) A6 A2 A3 A4
    eq_refl eq_refl A5 eq_refl A8 A7 ltac:(vm_compute; reflexivity) ltac:(vm_compute; reflexivity))
    as (wA' & cA' & lA & uA & wB' & cB' & lB & uB & _ & _ & TA & _ & _ & _ & _ & HcA & HoA & _).
  exists wA', cA', lA, uA. exact (conj TA (conj HcA HoA)).
Defined.

Lemma malformed_tx_kills_witness :
  let c := toy_conn (@message_buffer toy_hashes command.VERSION build_version_payload
             ++ @message_buffer toy_hashes command.VERACK [] ++ @message_buffer toy_hashes command.TX [] ++ [1]) in
  exists w', rtc (@turn toy_hashes toy_secp 64 toy_node)
    (Live toy_chain (server_world c) ([] ++ HandleConnection 5 :: [MiningLoop])) (Terminated w').
Proof.
  intros c.
  assert (talks false 5 (server_world c) (stream (incoming c)) []) as A1
    by (exists c; split_and!; [reflexivity | reflexivity | reflexivity | by repeat constructor | reflexivity]).
  assert (stream (incoming c) = @message_buffer toy_hashes command.VERSION build_version_payload
            ++ @message_buffer toy_hashes command.VERACK [] ++ @message_buffer toy_hashes command.TX [] ++ [1]) as E
    by (vm_compute; reflexivity).
  rewrite E in A1. destruct (@malformed_tx_kills toy_hashes toy_hash_laws toy_secp 64 toy_node toy_chain toy_block false 5
              (server_world c) [1] [] [MiningLoop] eq_refl A1) as (w' & T & _).
  exists w'. exact T.
Defined.
