(* ===== verification/Payment.v ===== *)
(** A payment from the wallet to the chain: a transaction that a wallet signs is sent to a
    node, waits in its mempool, is mined, and is the recipient's.  And the payments that
    the fee check lets through and should not. *)
From S2P Require Import Prelude.
From S2P Require Import World.
From S2P Require Import Crypto.
From S2P Require Import Base58.
From S2P Require Import Script.
From S2P Require Import Serializer.
From S2P Require Import Transaction.
From S2P Require Import Block.
From S2P Require Import Pow.
From S2P Require Import Wallet.
From S2P Require Import Chain.
From S2P Require Import Validation.
From S2P Require Import Storage.
From S2P Require Import Socket.
From S2P Require Import Message.
From S2P Require Import Node.
From S2P Require Import Protocol.
From S2P Require Import Daemon.
From S2P Require Import DaemonSafety.
From S2P Require Import Durability.
From S2P Require Import Wire.
From S2P Require Import Threads.
From S2P Require Import Frame.
From S2P Require Import Sync.
From ITree Require Core.ITreeDefinition.
Import Core.ITreeDefinition.

(** ** The output of a transaction in the UTXO set *)

(** No transaction of [txs] but [tx] has its hash, and none spends an output of [tx]. *)
Definition hash_unused (tx : Transaction) (txs : list Transaction) : Prop :=
  Forall (fun tx' => (tx_hash tx' = tx_hash tx -> tx' = tx) /\
                     Forall (fun i => txid (prevout i) <> tx_hash tx) (vin tx')) txs.
#[export] Instance hash_unused_dec tx txs : Decision (hash_unused tx txs).
Proof. unfold hash_unused. apply _. Defined.

Section Outputs.
Implicit Types (m : UtxoSet) (l : list (COutPoint * CTxOut)) (k : COutPoint).

Definition emplace_all m l : UtxoSet := fold_left (fun m e => emplace m (fst e) (snd e)) l m.

Lemma emplace_lookup m j k o :
  emplace m j o !! k = match m !! k with Some x => Some x | None => if decide (j = k) then Some o else None end.
Proof.
  unfold emplace. destruct (m !! j) eqn:Ej.
  - case_decide as Hd; [subst; by rewrite Ej | by destruct (m !! k)].
  - case_decide as Hd; [subst; by rewrite Ej, lookup_insert_eq|].
    rewrite lookup_insert_ne by done. by destruct (m !! k).
Qed.
Lemma emplace_all_present m l k o : m !! k = Some o -> emplace_all m l !! k = Some o.
Proof.
  revert m. induction l as [|e l IH]; intros m Hk; [done|]. apply IH. by rewrite emplace_lookup, Hk.
Qed.
Lemma emplace_all_other m l k : k ∉ l.*1 -> emplace_all m l !! k = m !! k.
Proof.
  revert m. induction l as [|[j o] l IH]; intros m Hk; [done|].
  rewrite fmap_cons, not_elem_of_cons in Hk. destruct Hk as [Hne Hk]. unfold emplace_all. cbn [fold_left fst snd].
  fold (emplace_all (emplace m j o) l). rewrite IH, emplace_lookup, decide_False by (done || congruence).
  by destruct (m !! k).
Qed.
Lemma emplace_all_new m l k o :
  NoDup l.*1 -> (k, o) ∈ l -> m !! k = None -> emplace_all m l !! k = Some o.
Proof.
  revert m. induction l as [|[j p] l IH]; intros m Hn Hin Hk; [set_solver|].
  rewrite fmap_cons, NoDup_cons in Hn. destruct Hn as [Hj Hn].
  unfold emplace_all. cbn [fold_left fst snd]. fold (emplace_all (emplace m j p) l).
  apply elem_of_cons in Hin as [[= <- <-]|Hin].
  - apply emplace_all_present. by rewrite emplace_lookup, Hk, decide_True.
  - apply IH; [done | done|]. rewrite emplace_lookup, Hk, decide_False; [done|].
    intros ->. apply Hj. apply list_elem_of_fmap. by exists (k, o).
Qed.

Lemma created_lookup tx i out : vout tx !! i = Some out -> (mkCOutPoint (tx_hash tx) (Z.of_nat i), out) ∈ created tx.
Proof.
  intros Hi. apply list_elem_of_lookup. exists i. unfold created. by rewrite list_lookup_imap, Hi.
Qed.

Lemma created_other tx k : txid k <> tx_hash tx -> k ∉ (created tx).*1.
Proof.
  rewrite created_keys. intros Hne Hin. apply list_elem_of_fmap in Hin as (i & -> & _). by apply Hne.
Qed.

Lemma emplaced_output tx i out txs m :
  let k := mkCOutPoint (tx_hash tx) (Z.of_nat i) in
  vout tx !! i = Some out -> hash_unused tx txs -> m !! k = None \/ m !! k = Some out ->
  (tx ∈ txs \/ m !! k = Some out) -> fold_left emplace_outputs txs m !! k = Some out.
Proof.
  intros k Hi Hu. revert m. induction Hu as [|tx' txs [Hh _] Hu IH]; intros m Hm Hin; cbn [fold_left].
  - destruct Hin as [Hin|Hk]; [set_solver | exact Hk].
  - change (emplace_outputs m tx') with (emplace_all m (created tx')).
    destruct (decide (tx' = tx)) as [->|Hne].
    + assert (emplace_all m (created tx) !! k = Some out) as Hk; [|by apply IH; right].
      destruct Hm as [Hm|Hm]; [|by apply emplace_all_present].
      apply emplace_all_new; [apply created_NoDup | by apply created_lookup | exact Hm].
    + assert (emplace_all m (created tx') !! k = m !! k) as E.
      { apply emplace_all_other, created_other. cbn [txid k]. intros Ht. by apply Hne, Hh. }
      apply IH; rewrite E; [exact Hm|]. destruct Hin as [Hin|Hk]; [left; set_solver | by right].
Qed.

Lemma erased_other tx k txs m :
  txid k = tx_hash tx -> hash_unused tx txs -> fold_left erase_inputs txs m !! k = m !! k.
Proof.
  intros Hk Hu. revert m. induction Hu as [|tx' txs [_ Hi] Hu IH]; intros m; cbn [fold_left]; [done|].
  rewrite IH. clear IH Hu. unfold erase_inputs. revert m.
  induction Hi as [|j ins Hj _ IH]; intros m; cbn [fold_left]; [done|].
  rewrite IH, lookup_delete_ne; [done|]. intros <-. by apply Hj.
Qed.

(** An output that only [tx] creates and nothing spends is in the set. *)
Lemma unspent_output chain tx i out :
  tx ∈ chain_txs chain -> vout tx !! i = Some out -> hash_unused tx (chain_txs chain) ->
  build_utxo_set chain !! mkCOutPoint (tx_hash tx) (Z.of_nat i) = Some out.
Proof.
  intros Hin Hi Hu. unfold build_utxo_set. rewrite !fold_blocks, (erased_other tx) by done.
  apply emplaced_output; [done | done | by left | by left].
Qed.
End Outputs.

(** ** From the wire to the mempool, and from there to the chain *)

Section Settle.
Context `{HashLaws, Secp256k1, Inet, UtxoOrder}.
Context (mine_fuel : nat) (n : node).
Let pool_file : bytes := mempool_file (chain_path_ n).

Lemma accept_queues chain tx fee mempool w :
  tx_fee tx (build_utxo_set chain) = Ok fee -> 0 <= fee ->
  fst (load_mempool_or_empty pool_file w) = Ok mempool -> size_of mempool < MAX_MEMPOOL_SIZE ->
  pool_file ∉ unwritable w ->
  AcceptTransaction n chain tx w
  = (Ok tt, set_files (<[pool_file := serialize_mempool (mempool ++ [tx])]> (files w)) w).
Proof.
  intros Hf Hp Hm Hs Hu. unfold AcceptTransaction, mbind at 1, io_bind at 1, lift at 1. rewrite Hf.
  rewrite decide_False by lia. fold pool_file. rewrite load_mempool_eq in Hm. cbn [fst] in Hm.
  unfold mbind at 1, io_bind at 1. rewrite load_mempool_eq, Hm, decide_False by lia.
  unfold save_mempool. by rewrite write_file_Ok.
Qed.

(** The serving thread, when it receives a transaction. *)
Lemma alone_tx sock m tx fee mempool rest chain w out :
  Transaction_wf tx -> size_of (Transaction_Serialize tx) <= MAX_PAYLOAD_SIZE ->
  tx_fee tx (build_utxo_set chain) = Ok fee -> 0 <= fee ->
  fst (load_mempool_or_empty pool_file w) = Ok mempool -> size_of mempool < MAX_MEMPOOL_SIZE ->
  pool_file ∉ unwritable w ->
  talks false sock w (message_buffer command.TX (Transaction_Serialize tx) ++ rest) out ->
  exists m' w1, alone mine_fuel n (connection_round sock m) chain w (inl m') chain
      (set_files (<[pool_file := serialize_mempool (mempool ++ [tx])]> (files w)) w1) /\
    talks false sock w1 rest out /\ still w w1.
Proof.
  intros Hwf Hsz Hf Hp Hm Hs Hu Ht.
  destruct (receive_talks false sock m command.TX _ rest w out (command_ok_true command.TX eq_refl) Hsz Ht)
    as (w1 & E1 & T1 & K1). pose proof (still_kept _ _ K1) as K1'.
  rewrite <- (load_mempool_same_at _ w w1) in Hm by (by apply kept_same_at).
  rewrite <- (proj1 (proj2 K1')) in Hu. pose proof (accept_queues chain tx fee mempool w1 Hf Hp Hm Hs Hu) as Ha.
  rewrite (proj1 K1') in Ha. eexists _, w1. split; [|split; [exact T1 | exact K1]].
  eapply alone_bind; [apply alone_act, E1|]. cbn [negb msg_command msg_payload].
  rewrite decide_False by done. rewrite decide_False by done. rewrite decide_True by done.
  assert (read_from Transaction_Deserialize (Transaction_Serialize tx) = Ok tx) as E.
  { apply (read_from_Ok _ _ _ _ _ Transaction_parses); [apply Transaction_ser_ok, Hwf|].
    split; [done|]. exists []. by rewrite app_nil_r. }
  eapply alone_bind; [apply alone_act; unfold lift; by rewrite E|].
  eapply alone_bind; [|apply alone_mret].
  apply (alone_section _ _ _ _ _ true). cbn [run_section]. by rewrite (io_bind_eq _ _ _ _ _ Ha).
Qed.

Lemma talks_files sock f w bs out : talks false sock w bs out -> talks false sock (set_files f w) bs out.
Proof. done. Qed.
Lemma still_files f w w' : still w w' -> still (set_files f w) (set_files f w').
Proof. unfold still. intros E. by rewrite E. Qed.

(** The whole connection of a peer that sends one transaction. *)
Definition tx_sender_bytes (tx : Transaction) : bytes :=
  message_buffer command.VERSION build_version_payload ++ message_buffer command.VERACK []
  ++ message_buffer command.TX (Transaction_Serialize tx).

Lemma connection_queues sock tip tx fee mempool chain w :
  last chain = Some tip -> Transaction_wf tx -> size_of (Transaction_Serialize tx) <= MAX_PAYLOAD_SIZE ->
  tx_fee tx (build_utxo_set chain) = Ok fee -> 0 <= fee ->
  fst (load_mempool_or_empty pool_file w) = Ok mempool -> size_of mempool < MAX_MEMPOOL_SIZE ->
  pool_file ∉ unwritable w -> talks false sock w (tx_sender_bytes tx) [] ->
  exists w', alone mine_fuel n (HandleConnection sock) chain w tt chain w' /\
    still (set_files (<[pool_file := serialize_mempool (mempool ++ [tx])]> (files w)) w) w'.
Proof.
  intros Hl Hwf Hsz Hf Hp Hm Hs Hu Ht.
  destruct (connection_greets mine_fuel n false sock tip _ chain w Hl Ht) as (m & w1 & T1 & K1 & [Hgreet _]).
  pose proof (still_kept _ _ K1) as K1'. rewrite <- (app_nil_r (message_buffer command.TX _)) in T1.
  rewrite <- (load_mempool_same_at _ w w1) in Hm by (by apply kept_same_at).
  rewrite <- (proj1 (proj2 K1')) in Hu.
  destruct (alone_tx sock m tx fee mempool [] chain w1 _ Hwf Hsz Hf Hp Hm Hs Hu T1) as (m2 & w2 & A2 & T2 & K2).
  rewrite (proj1 K1') in A2. set (f := <[pool_file := _]> (files w)) in *.
  destruct (alone_hangup mine_fuel n false sock m2 chain (set_files f w2) _ eq_refl (talks_files _ f _ _ _ T2))
    as (w3 & c3 & A3 & Hc & _ & K3).
  destruct (alone_close mine_fuel n sock c3 chain w3 Hc) as (w4 & A4 & K4 & _).
  exists w4. split.
  - eapply alone_bind; [|exact A4]. apply Hgreet. eapply alone_again; [exact A2 | exact A3].
  - pose proof (still_files f _ _ K1). pose proof (still_files f _ _ K2). solve_still.
Qed.

(** What was saved is loaded. *)
Lemma load_saved_mempool mempool w :
  Forall Transaction_wf mempool -> in_u32 (size_of mempool) -> pool_file ∉ unreadable w ->
  files w !! pool_file = Some (serialize_mempool mempool) ->
  fst (load_mempool_or_empty pool_file w) = Ok mempool.
Proof.
  intros Hw Hs Hr Hf. rewrite load_mempool_eq. cbn [fst]. rewrite (read_file_Ok _ _ _ Hr Hf). cbn [fst].
  pose proof (serialize_mempool_ok mempool Hw Hs) as Hb.
  rewrite (proj2 (read_from_Ok _ _ _ _ mempool (counted_parses _ _ _ Transaction_parses) Hb)); [done|].
  split; [by split|]. exists []. rewrite app_nil_r. by apply write_counted.
Qed.

Lemma fee_in_range tx m fee : validate_and_get_fee tx m = Ok fee -> in_i64 fee.
Proof.
  unfold validate_and_get_fee. destruct (vin tx) as [|i ins]; [by intros [= <-]|]. intros Hv.
  inv_bind Hv. destruct a as [t|]; [|by injection Hv as <-]. inv_bind Hv.
  case_decide; [by injection Hv as <- | by apply sub_i64_Ok in Hv as [_ ?]].
Qed.

(** The miner, when one transaction waits. *)
Lemma mining_settles chain tip tx fee blk now clk w :
  last chain = Some tip -> validate_and_get_fee tx (build_utxo_set chain) = Ok fee ->
  0 <= fee -> fst (load_mempool_or_empty pool_file w) = Ok [tx] ->
  clock w = now :: clk ->
  build_next_block mine_fuel now (extract_headers chain) (tip_hash chain) (address_ (wallet_ n)) fee [tx] = Ok blk ->
  chain_path_ n ∉ unwritable w -> pool_file ∉ unwritable w ->
  run_section mine_fuel n chain SMine w
  = (Ok (true, chain ++ [blk]),
     set_files (<[pool_file := serialize_mempool []]> (<[chain_path_ n := serialize_chain (chain ++ [blk])]> (files w)))
       (set_clock clk w)).
Proof.
  intros Hl Hv Hp Hm Ht Hb Hu Hu2. rewrite (tip_hash_last _ _ Hl) in Hb. cbn [run_section]. unfold mining_round.
  fold pool_file. rewrite load_mempool_eq in Hm. cbn [fst] in Hm.
  unfold mbind, io_bind, lift at 1. rewrite load_mempool_eq, Hm. cbn [select_mempool]. rewrite Hv.
  cbn [mbind result_bind]. rewrite decide_True by lia.
  rewrite add_i64_in by (rewrite Z.add_0_l; by eapply fee_in_range). cbn [mbind result_bind app].
  rewrite Z.add_0_l. unfold back. rewrite Hl. unfold mret at 1, io_ret at 1. unfold time_now. rewrite Ht.
  unfold lift at 1. rewrite Hb. unfold save_chain. rewrite write_file_Ok by done.
  unfold save_mempool. by rewrite write_file_Ok by done.
Qed.

(** The mined block extends the chain of every node that has this chain. *)
Lemma settled_extends chain tip tx fee blk now addr :
  last chain = Some tip -> IsCoinbase tx = false ->
  validate_and_get_fee tx (build_utxo_set chain) = Ok fee -> 0 <= fee ->
  build_next_block mine_fuel now (extract_headers chain) (tip_hash chain) addr fee [tx] = Ok blk ->
  try_extend_chain chain blk = Ok (true, chain ++ [blk]) /\ exists cb, vtx blk = [cb; tx].
Proof.
  intros Hl Hc Hv Hp (cb & Hcb & Ev & E1 & E2 & E3 & E4)%build_next_block_Ok.
  split; [|by exists cb]. destruct (coinbase_is_coinbase _ _ _ _ Hcb) as (C1 & C2 & C3 & _).
  rewrite extract_headers_fmap in *.
  apply (try_extend_intro chain blk cb [tx] fee); try done.
  - intros ->. done.
  - rewrite Ev. cbn [total_tx_fees]. rewrite C1, Hc, Hv. cbn [mbind result_bind].
    rewrite decide_False by lia. by rewrite add_i64_in by (rewrite Z.add_0_l; by eapply fee_in_range).
  - rewrite C2. unfold size_of. by rewrite length_fmap.
Qed.

(** The two threads, one after the other. *)
Lemma tx_settles chain tip tx fee blk now clk w sock before middle after :
  last chain = Some tip -> Transaction_wf tx -> size_of (Transaction_Serialize tx) <= MAX_PAYLOAD_SIZE ->
  IsCoinbase tx = false -> validate_and_get_fee tx (build_utxo_set chain) = Ok fee -> 0 <= fee ->
  fst (load_mempool_or_empty pool_file w) = Ok [] -> clock w = now :: clk ->
  chain_path_ n ∉ unwritable w -> accessible pool_file w -> talks false sock w (tx_sender_bytes tx) [] ->
  build_next_block mine_fuel now (extract_headers chain) (tip_hash chain) (address_ (wallet_ n)) fee [tx] = Ok blk ->
  exists w' uS uM, observe uS = RetF tt /\
    rtc (turn mine_fuel n) (Live chain w (before ++ HandleConnection sock :: middle ++ MiningLoop :: after))
                           (Live (chain ++ [blk]) w' (before ++ uS :: middle ++ uM :: after)) /\
    files w' !! chain_path_ n = Some (serialize_chain (chain ++ [blk])) /\
    files w' !! pool_file = Some (serialize_mempool []).
Proof.
  intros Hl Hwf Hsz Hcb Hv Hp Hm Hclk Hu [Hu2 Hr2] Ht Hb.
  assert (tx_fee tx (build_utxo_set chain) = Ok fee) as Htf by (unfold tx_fee; by rewrite Hcb).
  destruct (connection_queues sock tip tx fee [] chain w Hl Hwf Hsz Htf Hp Hm ltac:(done) Hu2 Ht) as (w1 & A1 & K1).
  pose proof (still_kept _ _ K1) as (Ef & Eu & Er). pose proof (still_clock _ _ K1) as Eclk.
  cbn [set_files files unwritable unreadable clock app] in Ef, Eu, Er, Eclk.
  assert (fst (load_mempool_or_empty pool_file w1) = Ok [tx]) as Hm1.
  { apply load_saved_mempool; [by constructor | done | by rewrite Er|]. by rewrite Ef, lookup_insert_eq. }
  destruct (alone_returns mine_fuel n _ _ _ _ _ _ before (fun t => t) (middle ++ MiningLoop :: after)
              ltac:(done) ltac:(done) A1) as (uS & EuS & T1).
  pose proof (mining_settles chain tip tx fee blk now clk w1 Hl Hv Hp Hm1
    ltac:(by rewrite Eclk) Hb ltac:(by rewrite Eu) ltac:(by rewrite Eu)) as Hmine.
  destruct (wallet_file_ne (chain_path_ n)) as (_ & Hne & _).
  eexists _, uS, _. split; [exact EuS|]. split; [eapply rtc_r; [exact T1|]|].
  { rewrite !(app_comm_cons middle), !(app_assoc before).
    eapply (turn_locked mine_fuel n _ _ (before ++ uS :: middle) MiningLoop after SMine); [|exact Hmine].
    unfold MiningLoop, forever, observe, ITree.iter. cbn. reflexivity. }
  cbn [files set_files]. split; [|by rewrite lookup_insert_eq].
  by rewrite lookup_insert_ne, lookup_insert_eq by (by intros E; apply Hne).
Qed.
End Settle.

(** ** What the holder of a key can sign *)

Section Signing.
Context `{HashLaws, Secp256k1Laws, UtxoOrderLaws}.

(** A transaction with any inputs and any outputs, signed as [CreateTransaction] signs. *)
Definition sign_payment (w : Wallet) (inputs : list COutPoint) (outputs : list CTxOut) : result Transaction :=
  let tx := Transaction_make 1 ((fun outpoint => mkCTxIn outpoint [] 0xFFFFFFFF) <$> inputs) outputs 0 in
  script_sig ← Sign w tx;
  Ok (set_tx_hash (set_script_sigs script_sig tx)).

(** Inputs are counted as often as they are listed, and outputs with their signs. *)
Lemma signed_fee w m taken outs :
  Wallet_ok w -> taken <> [] ->
  (forall e, e ∈ taken -> m !! fst e = Some (snd e) /\
     scriptPubKey (snd e) = build_p2pkh_script_pubkey (address_ w) /\ COutPoint_IsNull (fst e) = false) ->
  Forall (fun e => 0 <= nValue (snd e)) taken -> total_value taken < 2 ^ 63 ->
  exists tx, sign_payment w taken.*1 outs = Ok tx /\ (prevout <$> vin tx) = taken.*1 /\ vout tx = outs /\
    tx_fee tx m = (paid ← sum_outputs outs;
                   if decide (paid > total_value taken) then Ok (-1) else sub_i64 (total_value taken) paid).
Proof.
  intros Hw Hne Hown Hpos Htot. unfold sign_payment.
  set (tx0 := Transaction_make 1 _ outs 0).
  destruct (Sign_unlocks w tx0 Hw) as (s & -> & _ & _ & Hev). cbn [mbind result_bind].
  set (tx := set_tx_hash (set_script_sigs s tx0)). exists tx.
  assert ((prevout <$> vin tx) = taken.*1) as Hp by (simpl; rewrite <- !list_fmap_compose; done).
  split; [done|]. split; [exact Hp|]. split; [done|].
  destruct (vin tx) as [|inp ins] eqn:Ei; [by destruct taken|].
  assert (IsCoinbase tx = false) as Hcb.
  { unfold IsCoinbase. rewrite Ei. destruct taken as [|e0 taken]; [done|].
    rewrite !fmap_cons in Hp. injection Hp as -> _. destruct (Hown e0) as (_ & _ & ->); [set_solver | done]. }
  unfold tx_fee. rewrite Hcb. unfold validate_and_get_fee. rewrite Ei.
  rewrite (sum_inputs_owned tx m (build_p2pkh_script_pubkey (address_ w)) (inp :: ins) taken 0 0); try done.
  - intros e He. destruct (Hown e He) as (? & ? & _). done.
  - intros j Hj. rewrite <- Ei in Hj. simpl (0 + j)%nat. unfold verify_transaction_signature.
    destruct (vin tx !! j) as [i|] eqn:Ej; [|apply lookup_ge_None_1 in Ej; lia].
    simpl in Ej. apply list_lookup_fmap_Some in Ej as (i0 & -> & _). cbn [scriptSig].
    rewrite <- Hev. f_equal. apply GetHash_fields; try done. simpl.
    rewrite <- !list_fmap_compose. apply list_fmap_ext. by intros.
Qed.
End Signing.

(** ** Theorems *)

Section PaymentTheorems.
Context `{HashLaws, Secp256k1Laws, Inet, UtxoOrderLaws}.

(** C13.  A payment arrives.  A wallet makes a transaction from its own outputs and a
    peer sends it to a node that mines, has the same chain and an empty mempool.  The
    transaction's fee is the requested one, and less than the dust threshold above it.  If
    the next block can be mined and the files can be written, then in some turns of the process, whatever its other threads are, the serving thread
    puts the transaction in the mempool and ends, and the mining thread puts it in a block
    that every node with this chain appends; the new chain is on disk, the mempool file is
    empty, and in the set of unspent outputs the recipient has exactly the amount (no
    other transaction may have this one's hash or name it in an input). *)
Theorem payment_settles fuel n chain tip w sock wal recipient amount fee tx now clk before middle after :
  let utxos := build_utxo_set chain in
  let mine := utxo_order (filter_utxos_by_address utxos (address_ wal)) in
  let pool_file := mempool_file (chain_path_ n) in
  last chain = Some tip ->
  Wallet_ok wal -> map_Forall (fun k _ => COutPoint_IsNull k = false) utxos ->
  0 < amount -> 0 <= fee ->
  Forall (fun e => 0 <= nValue (snd e)) mine -> total_value mine < 2 ^ 63 ->
  CreateTransaction wal mine recipient amount fee = Ok tx ->
  Transaction_wf tx -> size_of (Transaction_Serialize tx) <= MAX_PAYLOAD_SIZE ->
  talks false sock w (tx_sender_bytes tx) [] ->
  fst (load_mempool_or_empty pool_file w) = Ok [] -> clock w = now :: clk ->
  chain_path_ n ∉ unwritable w -> accessible pool_file w ->
  exists f, tx_fee tx utxos = Ok f /\ fee <= f < fee + DUST_THRESHOLD /\
  forall blk,
    build_next_block fuel now (extract_headers chain) (tip_hash chain) (address_ (wallet_ n)) f [tx] = Ok blk ->
    hash_unused tx (chain_txs (chain ++ [blk])) ->
    exists w' uS uM, observe uS = RetF tt /\
      rtc (turn fuel n) (Live chain w (before ++ HandleConnection sock :: middle ++ MiningLoop :: after))
                        (Live (chain ++ [blk]) w' (before ++ uS :: middle ++ uM :: after)) /\
      try_extend_chain chain blk = Ok (true, chain ++ [blk]) /\
      files w' !! chain_path_ n = Some (serialize_chain (chain ++ [blk])) /\
      files w' !! pool_file = Some (serialize_mempool []) /\
      build_utxo_set (chain ++ [blk]) !! mkCOutPoint (tx_hash tx) 0
      = Some (mkCTxOut amount (build_p2pkh_script_pubkey recipient)).
Proof.
  intros utxos mine pool_file Hl Hwal Hnull Ha Hfee Hpos Htot Hc Hwf Hsz Ht Hm Hclk Hu Hu2.
  destruct (created_payment_accepted wal utxos recipient amount fee tx Hwal Hnull Ha Hfee Hpos Htot Hc)
    as (Hcb & f & Hv & Hf).
  exists f. split; [unfold tx_fee; by rewrite Hcb|]. split; [exact Hf|]. intros blk Hb Hunused.
  destruct (settled_extends fuel chain tip tx f blk now _ Hl Hcb Hv ltac:(lia) Hb) as (Hext & cb & Evtx).
  destruct (tx_settles fuel n chain tip tx f blk now clk w sock before middle after Hl Hwf Hsz Hcb Hv ltac:(lia)
              Hm Hclk Hu Hu2 Ht Hb) as (w' & uS & uM & EuS & T & Hf1 & Hf2).
  exists w', uS, uM. split_and!; try done.
  apply (unspent_output _ _ 0); [| |exact Hunused].
  - rewrite chain_txs_snoc, Evtx. set_solver.
  - destruct (CreateTransaction_payment _ _ _ _ _ _ Hwal Hc) as (taken & rest & _ & _ & _ & _ & Hout & _).
    cbn zeta in Hout. by rewrite Hout.
Qed.

(** C35.  What the fee check lets through.  Whoever owns an unspent output of [v]
    satoshi can sign a transaction that names it twice and pays up to twice [v], or one that
    pays [v] and any amount more, with an output of minus that amount: the check accepts
    both, with no fee or a positive one.  With outputs of 2^63 - 1 and 1 the sum in the
    check overflows, which is undefined. *)
Theorem unsound_payments w m k out recipient :
  Wallet_ok w -> m !! k = Some out -> COutPoint_IsNull k = false ->
  scriptPubKey out = build_p2pkh_script_pubkey (address_ w) ->
  let v := nValue out in
  let pay amount := mkCTxOut amount (build_p2pkh_script_pubkey recipient) in
  0 < v -> 2 * v < 2 ^ 63 ->
  (forall paid, 0 <= paid <= 2 * v ->
     exists tx, sign_payment w [k; k] [pay paid] = Ok tx /\ tx_fee tx m = Ok (2 * v - paid)) /\
  (forall more, 0 <= more -> v + more < 2 ^ 63 ->
     exists tx, sign_payment w [k] [pay (v + more); pay (- more)] = Ok tx /\ tx_fee tx m = Ok 0) /\
  (exists tx, sign_payment w [k] [pay (2 ^ 63 - 1); pay 1] = Ok tx /\ tx_fee tx m = Ub).
Proof.
  intros Hw Hk Hn Hs v pay Hv Hv2.
  assert (forall taken outs, taken <> [] -> (forall e, e ∈ taken -> e = (k, out)) -> total_value taken < 2 ^ 63 ->
    exists tx, sign_payment w taken.*1 outs = Ok tx /\
      tx_fee tx m = (paid ← sum_outputs outs;
                     if decide (paid > total_value taken) then Ok (-1) else sub_i64 (total_value taken) paid)) as Hsign.
  { intros taken outs Hne Hall Ht.
    destruct (signed_fee w m taken outs Hw Hne) as (tx & E & _ & _ & Ef); [| |done|by exists tx].
    - intros e He. by rewrite (Hall e He).
    - apply Forall_forall. intros e He. rewrite (Hall e He). cbn [snd]. fold v. lia. }
  assert (total_value [(k, out)] = v /\ total_value [(k, out); (k, out)] = 2 * v) as [T1 T2]
    by (unfold total_value; cbn [fold_right snd]; fold v; lia).
  split_and!.
  - intros paid Hp. destruct (Hsign [(k, out); (k, out)] [pay paid]) as (tx & E & Ef); [done | set_solver | lia|].
    exists tx. split; [exact E|]. rewrite Ef, T2. unfold sum_outputs. cbn [for_each nValue pay].
    rewrite add_i64_in by (unfold in_i64; lia). cbn [mbind result_bind]. rewrite decide_False by lia.
    by rewrite sub_i64_in by (unfold in_i64; lia).
  - intros more Hm Hm2. destruct (Hsign [(k, out)] [pay (v + more); pay (- more)]) as (tx & E & Ef);
      [done | set_solver | lia|].
    exists tx. split; [exact E|]. rewrite Ef, T1. unfold sum_outputs. cbn [for_each nValue pay].
    rewrite add_i64_in by (unfold in_i64; lia). cbn [mbind result_bind].
    rewrite add_i64_in by (unfold in_i64; lia). cbn [mbind result_bind]. rewrite decide_False by lia.
    rewrite sub_i64_in by (unfold in_i64; lia). f_equal. lia.
  - destruct (Hsign [(k, out)] [pay (2 ^ 63 - 1); pay 1]) as (tx & E & Ef); [done | set_solver | lia|].
    exists tx. split; [exact E|]. by rewrite Ef.
Qed.
End PaymentTheorems.

(** ** A concrete payment: [toy_tx] is sent to a node that has the genesis block *)

#[local] Existing Instances toy_hashes toy_inet.

Definition pay_world : world :=
  set_sockets {[ 5 := toy_conn (@tx_sender_bytes toy_hashes toy_tx) ]} (node_world []).
Definition paid_block : CBlock := Eval vm_compute in
  res_get (mkCBlock (mkCBlockHeader 0 [] [] 0 0 0) [])
    (@build_next_block toy_hashes 64 1700000060 (extract_headers toy_genesis)
       (@tip_hash toy_hashes toy_genesis) (address_ toy_wallet) DEFAULT_FEE [toy_tx]).

Lemma payment_settles_witness :
  exists w' uS uM,
    rtc (@turn toy_hashes toy_secp 64 toy_node)
      (Live toy_genesis pay_world ([] ++ HandleConnection 5 :: [] ++ MiningLoop :: []))
      (Live (toy_genesis ++ [paid_block]) w' ([] ++ uS :: [] ++ uM :: [])) /\
    build_utxo_set (toy_genesis ++ [paid_block]) !! mkCOutPoint (tx_hash toy_tx) 0
    = Some (mkCTxOut 5000 (build_p2pkh_script_pubkey toy_dest)).
Proof.
  destruct (last toy_genesis) as [tip|] eqn:El; [|vm_compute in El; discriminate].
  assert (@talks false 5 pay_world (@tx_sender_bytes toy_hashes toy_tx) []) as Ht.
  { exists (toy_conn (@tx_sender_bytes toy_hashes toy_tx)).
    split_and!; [reflexivity | vm_compute; reflexivity | reflexivity | by repeat constructor | reflexivity]. }
  destruct (@payment_settles toy_hashes toy_hash_laws toy_secp toy_secp_laws toy_order toy_order_laws
    64 toy_node toy_genesis tip pay_world 5 toy_wallet toy_dest 5000 DEFAULT_FEE toy_tx 1700000060 [] [] [] []
    El toy_wallet_ok) as (f & Hf & _ & Hrun).
  - apply (bool_decide_unpack _). vm_compute. reflexivity.
  - reflexivity.
  - discriminate.
  - apply (bool_decide_unpack _). vm_compute. reflexivity.
  - vm_compute. reflexivity.
  - vm_compute. reflexivity.
  - apply (bool_decide_unpack _). vm_compute. reflexivity.
  - vm_compute. discriminate.
  - exact Ht.
  - vm_compute. reflexivity.
  - reflexivity.
  - apply (bool_decide_unpack _). vm_compute. reflexivity.
  - apply (bool_decide_unpack _). vm_compute. reflexivity.
  - assert (@tx_fee toy_hashes toy_secp toy_tx (build_utxo_set toy_genesis) = Ok DEFAULT_FEE) as E
      by (vm_compute; reflexivity).
    rewrite E in Hf. injection Hf as <-.
    destruct (Hrun paid_block) as (w' & uS & uM & _ & T & _ & _ & _ & Hu).
    + vm_compute. reflexivity.
    + apply (bool_decide_unpack _). vm_compute. reflexivity.
    + exists w', uS, uM. exact (conj T Hu).
Defined.

(** The genesis reward, spent twice over by its owner. *)
Definition first_coin : COutPoint * CTxOut := Eval vm_compute in
  default (COutPoint_default, mkCTxOut 0 []) (head (map_to_list (build_utxo_set toy_genesis))).

Lemma unsound_payments_witness :
  nValue (snd first_coin) = 5000000000 /\
  exists tx,
    @sign_payment toy_hashes toy_secp toy_wallet [fst first_coin; fst first_coin]
      [mkCTxOut 10000000000 (build_p2pkh_script_pubkey toy_dest)] = Ok tx /\
    @tx_fee toy_hashes toy_secp tx (build_utxo_set toy_genesis) = Ok 0.
Proof.
  split; [reflexivity|].
  refine (proj1 (@unsound_payments toy_hashes toy_hash_laws toy_secp toy_secp_laws toy_order toy_order_laws
    toy_wallet (build_utxo_set toy_genesis) (fst first_coin) (snd first_coin) toy_dest
    toy_wallet_ok _ _ _ _ _) 10000000000 _).
  - vm_compute. reflexivity.
  - vm_compute. reflexivity.
  - vm_compute. reflexivity.
  - reflexivity.
  - reflexivity.
  - split; [discriminate | reflexivity].
Defined.

(** A block with such a payment is valid from scratch, and its chain's unspent outputs are
    worth a block reward more than all rewards together. *)
Definition doubling_tx : Transaction := Eval vm_compute in
  res_get toy_tx (@sign_payment toy_hashes toy_secp toy_wallet [fst first_coin; fst first_coin]
    [mkCTxOut 10000000000 (build_p2pkh_script_pubkey toy_dest)]).
Definition doubling_chain : list CBlock := Eval vm_compute in
  toy_genesis ++ [res_get paid_block
    (@build_next_block toy_hashes 64 1700000060 (extract_headers toy_genesis)
       (@tip_hash toy_hashes toy_genesis) (address_ toy_wallet) 0 [doubling_tx])].
Example doubling_chain_valid :
  @validate_full_chain toy_hashes toy_secp doubling_chain = Ok true /\
  total_utxo (build_utxo_set doubling_chain) = subsidy 2 + 5000000000.
Proof. split; vm_compute; reflexivity. Qed.
