(* ===== verification/Main.v ===== *)
(** src/Siliqua.cpp: the command line, its validation, the dispatch to the commands, the
    demonstration mode and the exit codes.  What is printed can fail: [std::println] throws
    then, and outside of [main]'s handler that ends the process. *)
From S2P Require Import Prelude.
From S2P Require Import World.
From S2P Require Import Utils.
From S2P Require Import Crypto.
From S2P Require Import Hashes.
From S2P Require Import Ecdsa.
From S2P Require Import Base58.
From S2P Require Import Script.
From S2P Require Import Serializer.
From S2P Require Import Transaction.
From S2P Require Import Block.
From S2P Require Import Pow.
From S2P Require Import Wallet.
From S2P Require Import Chain.
From S2P Require Import Validation.
From S2P Require Import Storage.
From S2P Require Import Socket.
From S2P Require Import Message.
From S2P Require Import Node.
From S2P Require Import Protocol.
From S2P Require Import Daemon.
From S2P Require Import Threads.
From S2P Require Import DaemonSafety.
From S2P Require Import Durability.
From stdpp Require Import pretty.
#[local] Open Scope Z_scope.

Definition EXIT_FAILURE : Z := 1.
Definition EXIT_RUNTIME_ERROR : Z := 1.
Definition EXIT_USAGE_ERROR : Z := 2.
Definition UNLIMITED : Z := 2 ^ 64 - 1.

(** ** The commands *)

Record CommandSpec := mkCommandSpec {
  flag : bytes;
  min_args : Z;
  max_args : Z;
  usage : bytes;
  summary : bytes;
}.

Definition kCommands : list CommandSpec := [
  mkCommandSpec (str "--seed") 1 1 (str "--seed <chain_path>")
    (str "mine a fresh genesis-only chain and save it");
  mkCommandSpec (str "--listen") 1 2 (str "--listen <port> [chain_path]")
    (str "mine one block, serve it to one peer");
  mkCommandSpec (str "--connect") 2 3 (str "--connect <host> <port> [chain_path]")
    (str "fetch a block from a peer and append it if valid");
  mkCommandSpec (str "--address") 1 1 (str "--address <chain_path>")
    (str "print this node's wallet address (Base58Check)");
  mkCommandSpec (str "--balance") 1 1 (str "--balance <chain_path>")
    (str "print this node's spendable UTXOs and total");
  mkCommandSpec (str "--send") 5 5 (str "--send <host> <port> <chain_path> <recipient_address> <amount>")
    (str "sign a payment and send it to a peer's mempool");
  mkCommandSpec (str "--receive-tx") 2 2 (str "--receive-tx <port> <chain_path>")
    (str "accept one transaction from a peer into the mempool");
  mkCommandSpec (str "--daemon") 2 UNLIMITED (str "--daemon <port> <chain_path> [host:port ...] [--no-mine]")
    (str "run a persistent node (mines + syncs; --no-mine = follower)")
].

Definition find_command (f : bytes) : option CommandSpec :=
  head (filter (fun command => flag command = f) kCommands).

(** [{:<66}]: padded with spaces on the right. *)
Definition pad_right (n : nat) (s : bytes) : bytes := s ++ replicate (n - length s) 32.
Definition usage_text : list bytes :=
  [str "Siliqua - Bitcoin-like blockchain node." ++ [10];
   str "Usage: Siliqua <command> [arguments]" ++ [10]]
  ++ ((fun command => str "  " ++ pad_right 66 (usage command) ++ str " " ++ summary command) <$> kCommands)
  ++ [[10] ++ str "  --help, -h                                                         show this help";
      [10] ++ str "Without any arguments the program runs a demonstration mode (hashing, keypair,";
      str "signature, address, sample transactions; writes utxo.dat to the current folder).";
      str "Exit codes: 0 success, 1 runtime error, 2 invalid command line."].
(** [std::println(out, ...)], line by line. *)
Fixpoint print_lines (to_stdout : bool) (lines : list bytes) : io unit :=
  match lines with
  | [] => mret tt
  | line :: rest =>
      (if to_stdout then print_line line else print_error);;
      print_lines to_stdout rest
  end.
Definition print_usage (to_stdout : bool) : io unit := print_lines to_stdout usage_text.

(** ** Numbers: [std::stoll] and [std::stoi]

    Leading white space, an optional sign, decimal digits; the number of characters
    used; [invalid_argument] without digits, [out_of_range] when it does not fit. *)
Definition isspace (c : Z) : bool := (c =? 32) || ((9 <=? c) && (c <=? 13)).
Definition isdigit (c : Z) : bool := (48 <=? c) && (c <=? 57).

Fixpoint skip_spaces (text : bytes) : nat * bytes :=
  match text with
  | c :: rest => if isspace c then let '(n, r) := skip_spaces rest in (S n, r) else (O, text)
  | [] => (O, [])
  end.
Fixpoint read_digits (text : bytes) (used : nat) (value : Z) : nat * Z :=
  match text with
  | c :: rest => if isdigit c then read_digits rest (S used) (value * 10 + (c - 48)) else (used, value)
  | [] => (used, value)
  end.

(** The value and [used], for an integer type of range [in_range]. *)
Definition sto (in_range : Z -> bool) (text : bytes) : result (Z * Z) :=
  let '(spaces, text) := skip_spaces text in
  let '(sign_chars, negative, text) :=
    match text with
    | 43 :: rest => (1%nat, false, rest)
    | 45 :: rest => (1%nat, true, rest)
    | _ => (O, false, text)
    end in
  let '(digits, magnitude) := read_digits text O 0 in
  if decide (digits = O) then Throw invalid_argument
  else
    let value := if negative then - magnitude else magnitude in
    if in_range value then Ok (value, Z.of_nat (spaces + sign_chars + digits)) else Throw out_of_range.
Definition stoll : bytes -> result (Z * Z) := sto (fun v => bool_decide (in_i64 v)).
Definition stoi : bytes -> result (Z * Z) := sto (fun v => bool_decide (in_i32 v)).

Definition parse_port (text : bytes) : option Z :=
  match stoll text with
  | Ok (value, used) =>
      if decide (used <> size_of text \/ value < 1 \/ value > 65535) then None else Some (u16 value)
  | _ => None
  end.

Definition parse_amount (text : bytes) : option Z :=
  match stoll text with
  | Ok (value, used) =>
      if decide (used <> size_of text \/ value <= 0) then None else Some value
  | _ => None
  end.

Section Main.
Context `{HashFns, Secp256k1, Inet, UtxoOrder}.
Context (mine_fuel serve_fuel : nat).

(** How [main] ends: with an exit status, or in [Node::Run], which does not return: the
    process is then [Live chain w (Run n)] of Threads.v. *)
Inductive ending :=
| Exit (status : Z)
| InRun (n : node) (chain : list CBlock).

(** ** Validation of the command line *)

(** [args[i]]: the guards before each use make the index valid. *)
Definition arg (args : list bytes) (i : nat) : bytes := default [] (args !! i).

Definition flag_in (f : bytes) (flags : list string) : bool := bool_decide (f ∈ str <$> flags).

Definition check_arguments (args : list bytes) : io Z :=
  let f := arg args 0 in
  if flag_in f ["--help"; "-h"]%string then print_usage true;; mret 0
  else
    match find_command f with
    | None => print_error;; print_usage false;; mret EXIT_USAGE_ERROR
    | Some spec =>
        let given := size_of args - 1 in
        let invalid := print_error;; mret EXIT_USAGE_ERROR in
        if decide (given < min_args spec \/ given > max_args spec) then print_error;; mret EXIT_USAGE_ERROR
        else if flag_in f ["--listen"; "--receive-tx"; "--daemon"]%string
                && bool_decide (parse_port (arg args 1) = None) then invalid
        else if flag_in f ["--connect"; "--send"]%string
                && bool_decide (parse_port (arg args 2) = None) then invalid
        else if bool_decide (f = str "--send") then
          match decode_address (arg args 4) with
          | Throw _ => invalid
          | Ub => lift Ub
          | Diverge => lift Diverge
          | Ok _ =>
              if decide (parse_amount (arg args 5) = None) then invalid else mret (-1)
          end
        else mret (-1)
    end.

(** ** Dispatch *)

(** The decimal text of an integer, as [std::format] prints it. *)
Definition dec (z : Z) : bytes := str (pretty z).

(** [static_cast<uint16_t>(std::stoi(text))]. *)
Definition port_of (text : bytes) : result Z := '(v, _) ← stoi text; Ok (u16 v).

(** [s.find(':')]. *)
Fixpoint find_char (c : Z) (s : bytes) : option nat :=
  match s with
  | [] => None
  | x :: s => if decide (x = c) then Some O else option_map S (find_char c s)
  end.

(** The loop over the arguments after the chain path of [--daemon]. *)
Fixpoint daemon_args (args : list bytes) (peers : list PeerAddress) (mine : bool)
    : list PeerAddress * bool :=
  match args with
  | [] => (peers, mine)
  | a :: args =>
      if decide (a = str "--no-mine") then daemon_args args peers false
      else
        match find_char 58 a with
        | None => daemon_args args peers mine
        | Some colon =>
            match parse_port (drop (colon + 1) a) with
            | Some port =>
                if decide (colon = O) then daemon_args args peers mine
                else daemon_args args (peers ++ [mkPeerAddress (take colon a) port]) mine
            | None => daemon_args args peers mine
            end
        end
  end.

(** [total += txout.nValue] over the owned outputs. *)
Definition sum_owned (entries : list (COutPoint * CTxOut)) : result Z :=
  for_each (fun total e => add_i64 total (nValue (snd e))) 0 entries.

Definition read_line : io bytes := fun w =>
  match stdin w with
  | [] => (Ok [], w)
  | l :: rest => (Ok l, set_stdin rest w)
  end.

(** The demonstration mode: the end of [run]. *)
Definition demonstration : io ending :=
  print_line (str "No command given: running the demonstration mode (see --help for the node commands).");;
  print_text (str "Enter new string: ");;
  input ← read_line;
  print_line ([10] ++ str "Message: " ++ input ++ str "." ++ [10] ++ str "Message hash: "
              ++ crypto.hash_sha256_string input ++ str "." ++ [10]);;
  print_line (str "Message: " ++ input ++ str "." ++ [10] ++ str "Message double hash: "
              ++ crypto.hash_double_sha256_string input ++ str "." ++ [10]);;
  rnd ← getrandom32;
  match generate_keypair rnd with
  | None => mret (Exit EXIT_FAILURE)
  | Some k =>
      match generate_sign input (seckey k) with
      | None => mret (Exit EXIT_FAILURE)
      | Some (serialized_signature, _, input_hash) =>
          if negb (verify_sign serialized_signature (compressed_pubkey k) input_hash) then mret (Exit EXIT_FAILURE)
          else
            match create_address_from_pubkey (compressed_pubkey k) with
            | None => mret (Exit EXIT_FAILURE)
            | Some _ =>
                let outs := [mkCTxOut 100000 [0xAA; 0xBB]] in
                let coinbaseIn := mkCTxIn COutPoint_default [0] 0xFFFFFFFF in
                let coinbaseTx := set_tx_hash (Transaction_make 1 [coinbaseIn] outs 0) in
                let utxos := emplace ∅ (mkCOutPoint (tx_hash coinbaseTx) 0) (mkCTxOut 100000 [0xAA; 0xBB]) in
                save_utxo_set (utxo_order utxos) (str "utxo.dat");;
                load_utxo_set (str "utxo.dat");;
                mret (Exit 0)
            end
      end
  end.

Definition run (args : list bytes) : io ending :=
  let n := length args in
  let f := arg args 0 in
  if (2 <=? n)%nat && bool_decide (f = str "--seed") then
    now ← time_now;
    chain ← lift (build_genesis_chain mine_fuel now (replicate ADDRESS_SIZE 0));
    save_chain chain (arg args 1);;
    mret (Exit 0)
  else if (2 <=? n)%nat && bool_decide (f = str "--listen") then
    port ← lift (port_of (arg args 1));
    let chain_path := if (3 <=? n)%nat then arg args 2 else str "chain.dat" in
    run_listener mine_fuel serve_fuel port chain_path;;
    mret (Exit 0)
  else if (3 <=? n)%nat && bool_decide (f = str "--connect") then
    port ← lift (port_of (arg args 2));
    let chain_path := if (4 <=? n)%nat then arg args 3 else str "chain.dat" in
    run_connector (arg args 1) port chain_path;;
    mret (Exit 0)
  else if (2 <=? n)%nat && bool_decide (f = str "--address") then
    w ← load_or_create_wallet (wallet_file (arg args 1));
    print_line (encode_address (address_ w));;
    mret (Exit 0)
  else if (2 <=? n)%nat && bool_decide (f = str "--balance") then
    w ← load_or_create_wallet (wallet_file (arg args 1));
    chain ← load_chain (arg args 1);
    let owned := filter_utxos_by_address (build_utxo_set chain) (address_ w) in
    total ← lift (sum_owned (utxo_order owned));
    print_line (dec (Z.of_nat (size owned)) ++ str " UTXO(s), " ++ dec total ++ str " satoshi total.");;
    mret (Exit 0)
  else if (6 <=? n)%nat && bool_decide (f = str "--send") then
    port ← lift (port_of (arg args 2));
    recipient ← lift (decode_address (arg args 4));
    '(amount, _) ← lift (stoll (arg args 5));
    run_send_tx (arg args 1) port (arg args 3) recipient amount;;
    mret (Exit 0)
  else if (3 <=? n)%nat && bool_decide (f = str "--receive-tx") then
    port ← lift (port_of (arg args 1));
    run_receive_tx port (arg args 2);;
    mret (Exit 0)
  else if (3 <=? n)%nat && bool_decide (f = str "--daemon") then
    port ← lift (port_of (arg args 1));
    let '(peers, mine) := daemon_args (drop 3 args) [] true in
    '(n, chain) ← Node_make mine_fuel port (arg args 2) peers mine;
    mret (InRun n chain)
  else demonstration.

(** [args] without the program name. *)
Definition main (args : list bytes) : io ending :=
  status ← (match args with [] => mret (-1) | _ => check_arguments args end);
  if decide (0 <= status) then mret (Exit status)
  else try_catch (run args) (print_error;; mret (Exit EXIT_RUNTIME_ERROR)).

End Main.

(** ** Lemmas *)

(** The texts [std::stoll] reads in full: white space, a sign, digits. *)
Definition decimal (digits : bytes) : Z := fold_left (fun value c => value * 10 + (c - 48)) digits 0.
Definition number_text (text : bytes) (v : Z) : Prop :=
  exists spaces sign digits,
    text = spaces ++ sign ++ digits /\ Forall (fun c => isspace c = true) spaces /\
    (sign = [] \/ sign = [43] \/ sign = [45]) /\
    digits <> [] /\ Forall (fun c => isdigit c = true) digits /\
    v = (if decide (sign = [45]) then - decimal digits else decimal digits).

Lemma skip_spaces_spec text n rest :
  skip_spaces text = (n, rest) ->
  exists spaces, text = spaces ++ rest /\ length spaces = n /\ Forall (fun c => isspace c = true) spaces.
Proof.
  revert n rest. induction text as [|c text IH]; intros n rest E; cbn [skip_spaces] in E.
  - injection E as <- <-. by exists [].
  - destruct (isspace c) eqn:Ec; [|injection E as <- <-; by exists []].
    destruct (skip_spaces text) as [m r] eqn:Em. injection E as <- <-.
    destruct (IH m r eq_refl) as (sp & -> & <- & Hf). exists (c :: sp).
    split_and!; [done | done | by constructor].
Qed.

Lemma skip_spaces_app spaces rest :
  Forall (fun c => isspace c = true) spaces ->
  (forall c, head rest = Some c -> isspace c = false) ->
  skip_spaces (spaces ++ rest) = (length spaces, rest).
Proof.
  intros Hs Hr. induction Hs as [|c sp Hc _ IH]; cbn [app skip_spaces].
  - destruct rest as [|c rest]; [done|]. cbn [skip_spaces]. by rewrite (Hr c eq_refl).
  - by rewrite Hc, IH.
Qed.

Lemma read_digits_spec text used value :
  exists digits rest, text = digits ++ rest /\ Forall (fun c => isdigit c = true) digits /\
    read_digits text used value
    = ((used + length digits)%nat, fold_left (fun value c => value * 10 + (c - 48)) digits value).
Proof.
  revert used value. induction text as [|c text IH]; intros used value; cbn [read_digits].
  - exists [], []. by rewrite Nat.add_0_r.
  - destruct (isdigit c) eqn:Ec.
    + destruct (IH (S used) (value * 10 + (c - 48))) as (ds & r & -> & Hf & ->).
      exists (c :: ds), r. split_and!; [done | by constructor |]. cbn [length fold_left].
      f_equal. lia.
    + exists [], (c :: text). by rewrite Nat.add_0_r.
Qed.

Lemma read_digits_all digits used value :
  Forall (fun c => isdigit c = true) digits ->
  read_digits digits used value
  = ((used + length digits)%nat, fold_left (fun value c => value * 10 + (c - 48)) digits value).
Proof.
  intros Hd. revert used value. induction Hd as [|c ds Hc _ IH]; intros used value; cbn [read_digits].
  - by rewrite Nat.add_0_r.
  - rewrite Hc, IH. cbn [length fold_left]. f_equal. lia.
Qed.

Lemma isdigit_not_space c : isdigit c = true -> isspace c = false /\ c <> 43 /\ c <> 45.
Proof. unfold isdigit, isspace. intros Hc. split; [apply not_true_iff_false; intros Hs|]; lia. Qed.

(** The optional sign. *)
Lemma sign_cases (text : bytes) :
  exists sign rest, text = sign ++ rest /\ (sign = [] \/ sign = [43] \/ sign = [45]) /\
    (sign = [] -> forall c, head rest = Some c -> c <> 43 /\ c <> 45) /\
    (match text with
     | 43 :: rest => (1%nat, false, rest)
     | 45 :: rest => (1%nat, true, rest)
     | _ => (O, false, text)
     end) = (length sign, bool_decide (sign = [45]), rest).
Proof.
  destruct text as [|c text]; [by exists [], []; auto|].
  destruct (decide (c = 43)) as [->|N1]; [exists [43], text; by auto|].
  destruct (decide (c = 45)) as [->|N2]; [exists [45], text; by auto|].
  exists [], (c :: text). split_and!; [done | by left | intros _ c' [= <-]; by auto |].
  repeat (case_match; try done); congruence.
Qed.

Lemma sto_whole in_range text v :
  sto in_range text = Ok (v, size_of text) <-> number_text text v /\ in_range v = true.
Proof.
  unfold sto. split.
  - destruct (skip_spaces text) as [n t1] eqn:E1.
    destruct (skip_spaces_spec _ _ _ E1) as (spaces & -> & <- & Hs).
    destruct (sign_cases t1) as (sign & t2 & -> & Hsign & _ & ->).
    destruct (read_digits_spec t2 O 0) as (digits & rest & -> & Hd & ->). cbn [Nat.add].
    destruct (decide (length digits = O)) as [|Hne]; [done|].
    match goal with |- context [in_range ?x] => destruct (in_range x) eqn:Hr; [|done] end.
    unfold size_of. intros [= <- Hlen]. rewrite !length_app in Hlen.
    destruct rest as [|c rest]; [|cbn [length] in Hlen; lia]. rewrite app_nil_r.
    split; [|done]. exists spaces, sign, digits. split_and!; try done; [by intros ->|].
    unfold decimal. case_bool_decide; case_decide; done.
  - intros [(spaces & sign & digits & -> & Hs & Hsign & Hne & Hd & ->) Hr].
    assert (forall c, head digits = Some c -> isdigit c = true) as Hhead.
    { destruct digits; [done|]. intros c [= <-]. by inversion Hd. }
    rewrite skip_spaces_app; [| done |].
    2: { intros c Hc. destruct Hsign as [-> | [-> | ->]]; [|by injection Hc as <-|by injection Hc as <-].
         by apply isdigit_not_space, Hhead. }
    destruct (sign_cases (sign ++ digits)) as (sign' & digits' & Heq & Hsign' & Hfirst & ->).
    assert (sign' = sign /\ digits' = digits) as [-> ->].
    { destruct digits as [|c ds]; [done|].
      destruct (isdigit_not_space c (Hhead c eq_refl)) as (_ & N1 & N2).
      destruct Hsign as [-> | [-> | ->]], Hsign' as [-> | [-> | ->]]; simplify_eq/=; try done;
        destruct (Hfirst eq_refl _ eq_refl); done. }
    rewrite read_digits_all by done. cbn [Nat.add].
    destruct (decide (length digits = O)) as [Hz|_]; [by destruct digits|].
    replace (if bool_decide (sign = [45]) then _ else _)
      with (if decide (sign = [45]) then - decimal digits else decimal digits)
      by (unfold decimal; case_bool_decide; case_decide; done).
    rewrite Hr. unfold size_of. rewrite !length_app. do 2 f_equal. lia.
Qed.

Lemma parse_port_Some text p :
  parse_port text = Some p <-> number_text text p /\ 1 <= p <= 65535.
Proof.
  unfold parse_port, stoll. split.
  - destruct (sto _ text) as [[v used]| | |] eqn:E; try done.
    case_decide as Hd; [done|]. intros [= <-].
    assert (used = size_of text /\ 1 <= v <= 65535) as [-> Hv] by lia.
    apply sto_whole in E as [Hn _]. unfold u16. by rewrite Z.mod_small by lia.
  - intros [Hn Hp].
    assert (sto (fun v => bool_decide (in_i64 v)) text = Ok (p, size_of text)) as ->.
    { apply sto_whole. split; [done|]. apply bool_decide_eq_true. unfold in_i64. lia. }
    rewrite decide_False by lia. unfold u16. by rewrite Z.mod_small by lia.
Qed.

Lemma parse_amount_Some text v :
  parse_amount text = Some v <-> number_text text v /\ 0 < v < 2 ^ 63.
Proof.
  unfold parse_amount, stoll. split.
  - destruct (sto _ text) as [[a used]| | |] eqn:E; try done.
    case_decide as Hd; [done|]. intros [= <-].
    assert (used = size_of text /\ 0 < a) as [-> Hv] by lia.
    apply sto_whole in E as [Hn Hr%bool_decide_eq_true]. unfold in_i64 in Hr. split; [done | lia].
  - intros [Hn Hp].
    assert (sto (fun v => bool_decide (in_i64 v)) text = Ok (v, size_of text)) as ->.
    { apply sto_whole. split; [done|]. apply bool_decide_eq_true. unfold in_i64. lia. }
    by rewrite decide_False by lia.
Qed.

(** What [run] converts again has been validated. *)
Lemma port_of_valid text p : parse_port text = Some p -> port_of text = Ok p.
Proof.
  intros Hp. apply parse_port_Some in Hp as [Hn Hp]. unfold port_of, stoi.
  assert (sto (fun v => bool_decide (in_i32 v)) text = Ok (p, size_of text)) as ->.
  { apply sto_whole. split; [done|]. apply bool_decide_eq_true. unfold in_i32. lia. }
  cbn. unfold u16. by rewrite Z.mod_small by lia.
Qed.

Lemma stoll_valid text v : parse_amount text = Some v -> stoll text = Ok (v, size_of text).
Proof.
  intros Hp. apply parse_amount_Some in Hp as [Hn Hp]. apply sto_whole. split; [done|].
  apply bool_decide_eq_true. unfold in_i64. lia.
Qed.

(** Membership of a closed list of flags, decided. *)
Ltac eval_flags :=
  repeat match goal with
  | |- context [flag_in (str ?f) ?l] =>
      let b := eval vm_compute in (flag_in (str f) l) in
      replace (flag_in (str f) l) with b by (vm_compute; reflexivity)
  | |- context [find_command (str ?f)] =>
      let c := eval vm_compute in (head (filter (fun k => bool_decide (flag k = str f)) kCommands)) in
      replace (find_command (str f)) with c by (vm_compute; reflexivity)
  | |- context [bool_decide (str ?f = str ?g)] =>
      let b := eval vm_compute in (bool_decide (str f = str g)) in
      replace (bool_decide (str f = str g)) with b by (vm_compute; reflexivity)
  end.

Section MainFacts.
Context `{HashFns, Secp256k1, Inet, UtxoOrder}.
Context (mine_fuel serve_fuel : nat).

(** The end of [run]: a status of 0 or 1, or the node's own loop. *)
Definition ends_in (m : io ending) (ok : ending -> Prop) : Prop :=
  forall w, match fst (m w) with Ok e => ok e | _ => True end.
Definition run_ending (args : list bytes) (e : ending) : Prop :=
  match e with
  | Exit s => s = 0 \/ s = 1
  | InRun _ _ => arg args 0 = str "--daemon"
  end.

Lemma ends_ret e (ok : ending -> Prop) : ok e -> ends_in (mret e) ok.
Proof. by intros ? w. Qed.
Lemma ends_bind {A} (m : io A) k ok : (forall a, ends_in (k a) ok) -> ends_in (m ≫= k) ok.
Proof.
  intros Hk w. unfold mbind, io_bind. destruct (m w) as [[a| | |] w1]; try done. apply Hk.
Qed.
Lemma run_ends args : ends_in (run mine_fuel serve_fuel args) (run_ending args).
Proof.
  unfold run, demonstration.
  repeat first [ apply ends_bind; intros ? | apply ends_ret; unfold run_ending, EXIT_FAILURE; lia
               | case_match ].
  apply ends_ret. match goal with E : _ && _ = true |- _ => by apply andb_true_iff in E as [_ ?%bool_decide_eq_true] end.
Qed.

(** What the console can answer. *)
Lemma print_error_then {A} (a : A) w :
  (print_error;; mret a) w = if stderr_ok w then (Ok a, w) else (Throw system_error, w).
Proof. unfold mbind, io_bind, print_error. by destruct (stderr_ok w). Qed.
Lemma print_lines_error lines w : stderr_ok w = true -> print_lines false lines w = (Ok tt, w).
Proof.
  intros Hw. induction lines as [|l lines IH]; [done|]. cbn [print_lines].
  unfold mbind, io_bind at 1, print_error. by rewrite Hw.
Qed.
Lemma print_lines_out lines w :
  match print_lines true lines w with
  | (Ok _, _) => True
  | (Throw e, w') => e = system_error /\ stdout_ok w' = false
  | _ => False
  end.
Proof.
  revert w. induction lines as [|l lines IH]; intros w; [done|]. cbn [print_lines].
  unfold mbind, io_bind at 1, print_line, print_text at 1. destruct (stdout_ok w) eqn:E; [apply IH | done].
Qed.

(** The grammar of the command line. *)
Definition is_port (text : bytes) : Prop := exists p, number_text text p /\ 1 <= p <= 65535.
Definition is_amount (text : bytes) : Prop := exists v, number_text text v /\ 0 < v < 2 ^ 63.
Inductive valid_command : list bytes -> Prop :=
| valid_seed path : valid_command [str "--seed"; path]
| valid_listen port rest :
    is_port port -> (length rest <= 1)%nat -> valid_command (str "--listen" :: port :: rest)
| valid_connect host port rest :
    is_port port -> (length rest <= 1)%nat -> valid_command (str "--connect" :: host :: port :: rest)
| valid_address path : valid_command [str "--address"; path]
| valid_balance path : valid_command [str "--balance"; path]
| valid_send host port path recipient amount :
    is_port port -> is_ok (decode_address recipient) = true -> is_amount amount ->
    valid_command [str "--send"; host; port; path; recipient; amount]
| valid_receive port path : is_port port -> valid_command [str "--receive-tx"; port; path]
| valid_daemon port path rest : is_port port -> valid_command (str "--daemon" :: port :: path :: rest).

Lemma parse_port_is_port text : parse_port text <> None <-> is_port text.
Proof.
  unfold is_port. split.
  - intros Hp. destruct (parse_port text) as [p|] eqn:E; [|done]. exists p. by apply parse_port_Some.
  - intros [p Hp%parse_port_Some]. by rewrite Hp.
Qed.
Lemma parse_amount_is_amount text : parse_amount text <> None <-> is_amount text.
Proof.
  unfold is_amount. split.
  - intros Hp. destruct (parse_amount text) as [v|] eqn:E; [|done]. exists v. by apply parse_amount_Some.
  - intros [v Hv%parse_amount_Some]. by rewrite Hv.
Qed.

Definition flags : list bytes := flag <$> kCommands.
Lemma find_command_None f : f ∉ flags -> find_command f = None.
Proof.
  intros Hf. unfold find_command. destruct (filter _ kCommands) as [|c l] eqn:E; [done|]. exfalso.
  assert (c ∈ filter (fun command => flag command = f) kCommands) as Hc by (rewrite E; by left).
  apply list_elem_of_filter in Hc as [<- Hc]. apply Hf. by apply list_elem_of_fmap_2.
Qed.

(** What [check_arguments] answers: the command line is valid, or it is refused, which
    fails when the message cannot be printed; in all cases nothing has happened. *)
Definition refused {A} (answer : A) (w : world) : result A * world :=
  if stderr_ok w then (Ok answer, w) else (Throw system_error, w).
Definition verdict (args : list bytes) (w : world) (r : result Z * world) : Prop :=
  (valid_command args /\ r = (Ok (-1), w)) \/ (~ valid_command args /\ r = refused EXIT_USAGE_ERROR w).

Lemma verdict_unknown args w :
  arg args 0 ∉ flags -> arg args 0 <> str "--help" -> arg args 0 <> str "-h" ->
  verdict args w (check_arguments args w).
Proof.
  intros Hf Hh1 Hh2. right. split.
  - intros Hv. apply Hf. destruct Hv; apply (bool_decide_unpack _); vm_compute; reflexivity.
  - unfold check_arguments. rewrite find_command_None by done.
    unfold flag_in. rewrite bool_decide_false.
    { unfold refused, mbind, io_bind, print_error. destruct (stderr_ok w) eqn:E; [|done].
      unfold print_usage. by rewrite print_lines_error. }
    intros Hin. apply list_elem_of_fmap in Hin as (x & Hx & Hin).
    apply elem_of_cons in Hin as [->|Hin]; [done|]. apply list_elem_of_singleton in Hin as ->. done.
Qed.

(** The number of arguments of a known flag, and then its arguments. *)
Ltac split_count :=
  unfold check_arguments, arg; cbn [list_lookup lookup default from_option]; unfold id; eval_flags;
  cbn [min_args max_args negb andb orb];
  destruct (decide _) as [Hd|Hd];
  [ right; split; [intros Hv; inversion Hv; subst; unfold size_of, UNLIMITED in Hd;
            repeat match goal with h : context [length (_ :: _)] |- _ => progress cbn [length] in h end; lia | apply print_error_then]
  | unfold size_of, UNLIMITED in Hd; cbn [length] in Hd ].
Ltac refuse_by H :=
  right; split; [intros Hv; inversion Hv; subst; by apply H | apply print_error_then].
Ltac split_port text :=
  let Hp := fresh "Hp" in
  cbn [lookup list_lookup default from_option]; unfold id;
  destruct (decide (parse_port text = None)) as [Hp|Hp%parse_port_is_port];
  [ rewrite (bool_decide_true _ Hp); cbn [andb];
    right; split; [intros Hv; inversion Hv; subst; by apply (parse_port_is_port text) in Hp | apply print_error_then]
  | rewrite (bool_decide_false (parse_port text = None)) by (by apply parse_port_is_port); cbn [andb] ].

Lemma verdict_known f args w :
  f ∈ flags -> size_of args < 2 ^ 64 ->
  verdict (f :: args) w (check_arguments (f :: args) w).
Proof.
  intros Hf Hsize. unfold size_of in Hsize.
  change flags with [str "--seed"; str "--listen"; str "--connect"; str "--address"; str "--balance";
                     str "--send"; str "--receive-tx"; str "--daemon"] in Hf.
  rewrite !elem_of_cons in Hf. destruct_or! Hf; [subst f..|by apply not_elem_of_nil in Hf].
  - split_count. destruct args as [|p [|? ?]]; cbn [length] in Hd; [lia | left; split; [constructor | done] | lia].
  - split_count. destruct args as [|port rest]; cbn [length] in Hd; [lia|]. split_port port.
    left. split; [constructor; [done | lia] | done].
  - split_count. destruct args as [|host [|port rest]]; cbn [length] in Hd; [lia.. |]. split_port port.
    left. split; [constructor; [done | lia] | done].
  - split_count. destruct args as [|p [|? ?]]; cbn [length] in Hd; [lia | left; split; [constructor | done] | lia].
  - split_count. destruct args as [|p [|? ?]]; cbn [length] in Hd; [lia | left; split; [constructor | done] | lia].
  - split_count.
    destruct args as [|host [|port [|path [|recipient [|amount [|? ?]]]]]]; cbn [length] in Hd; [lia.. | | lia].
    split_port port. cbn [lookup list_lookup default from_option]; unfold id.
    destruct (decode_address recipient) as [addr|e| |] eqn:Ea.
    + destruct (decide _) as [Hn|Hn%parse_amount_is_amount].
      * right. split; [|apply print_error_then]. intros Hv. inversion Hv; subst.
        by apply (parse_amount_is_amount amount) in Hn.
      * left. split; [|done]. constructor; [done | by rewrite Ea | done].
    + right. split; [|apply print_error_then]. intros Hv. inversion Hv; subst. by rewrite Ea in *.
    + by destruct (decode_address_defined recipient) as [? _].
    + by destruct (decode_address_defined recipient) as [_ ?].
  - split_count. destruct args as [|port [|path [|? ?]]]; cbn [length] in Hd; [lia.. | | lia].
    split_port port. left. split; [by constructor | done].
  - split_count. destruct args as [|port [|path rest]]; cbn [length] in Hd; [lia.. |].
    split_port port. left. split; [by constructor | done].
Qed.

Lemma verdict_any f args w :
  f <> str "--help" -> f <> str "-h" -> size_of args < 2 ^ 64 ->
  verdict (f :: args) w (check_arguments (f :: args) w).
Proof.
  intros N1 N2 Hs. destruct (decide (f ∈ flags)); [by apply verdict_known | by apply verdict_unknown].
Qed.

End MainFacts.

(** ** Theorems *)

Section MainTheorems.
Context `{HashLaws, Secp256k1, Inet, UtxoOrder}.
Context (mine_fuel serve_fuel : nat).

(** A port argument is accepted exactly when the whole text reads as a number
    from 1 to 65535, and an amount when it reads as a positive 64-bit number; leading
    white space and a plus sign are part of what reads as a number. *)
Theorem parse_port_amount text :
  (forall p, parse_port text = Some p <-> number_text text p /\ 1 <= p <= 65535) /\
  (forall v, parse_amount text = Some v <-> number_text text v /\ 0 < v < 2 ^ 63).
Proof. split; intros; [apply parse_port_Some | apply parse_amount_Some]. Qed.

(** C38.  The command line is checked before anything is done: a command line
    that the grammar allows is passed on; any other one, apart from the help flags, is
    refused with the usage status, or ends the process when the message to standard error
    cannot be printed; and none touches a file, a socket or the clock. *)
Theorem check_arguments_correct f args w :
  f <> str "--help" -> f <> str "-h" -> size_of args < 2 ^ 64 ->
  (valid_command (f :: args) -> check_arguments (f :: args) w = (Ok (-1), w)) /\
  (~ valid_command (f :: args) ->
   main mine_fuel serve_fuel (f :: args) w
   = if stderr_ok w then (Ok (Exit EXIT_USAGE_ERROR), w) else (Throw system_error, w)).
Proof.
  intros N1 N2 Hs. destruct (verdict_any f args w N1 N2 Hs) as [[Hv E]|[Hv E]]; split; intros Hc; try done.
  unfold main. unfold refused in E. destruct (stderr_ok w).
  - by rewrite (io_bind_eq _ _ _ _ _ E).
  - by rewrite (io_bind_throw _ _ _ _ _ E).
Qed.

(** An accepted [--daemon] constructs the node that its arguments name, and runs it. *)
Lemma daemon_runs port path rest p w :
  number_text port p -> 1 <= p <= 65535 ->
  run mine_fuel serve_fuel (str "--daemon" :: port :: path :: rest) w
  = (let '(peers, mine) := daemon_args rest [] true in
     '(n, chain) ← Node_make mine_fuel p path peers mine;
     mret (InRun n chain)) w.
Proof.
  intros Hn Hp. unfold run, arg. cbn [length lookup list_lookup default from_option drop]. unfold id. eval_flags.
  cbn [Nat.leb andb]. rewrite !andb_false_r. cbn [andb].
  rewrite (port_of_valid port p) by (apply parse_port_Some; by split). reflexivity.
Qed.

(** C39.  How the process ends.  When [main] returns, it is with one of the three
    documented statuses, and the usage status means that nothing has been done.  It is in
    [Node::Run] only for an accepted [--daemon], with the node that the arguments name:
    from there the process is [Live chain w (Run n)] of Threads.v.  The only exception
    that leaves it is that of a failed write to a console.  (Otherwise the run is one that
    does not end, is killed by a signal, or has undefined behaviour.) *)
Theorem main_exit_status args w :
  size_of args < 2 ^ 64 ->
  match main mine_fuel serve_fuel args w with
  | (Ok (Exit s), w') => s = 0 \/ s = EXIT_RUNTIME_ERROR \/ (s = EXIT_USAGE_ERROR /\ w' = w)
  | (Ok (InRun n chain), w') =>
      exists port p path rest,
        args = str "--daemon" :: port :: path :: rest /\ number_text port p /\ 1 <= p <= 65535 /\
        let '(peers, mine) := daemon_args rest [] true in
        Node_make mine_fuel p path peers mine w = (Ok (n, chain), w')
  | (Throw e, w') => e = system_error /\ (stdout_ok w' = false \/ stderr_ok w' = false)
  | (Ub, _) | (Diverge, _) => True
  end.
Proof.
  intros Hs. unfold main.
  assert (match try_catch (run mine_fuel serve_fuel args) (print_error;; mret (Exit EXIT_RUNTIME_ERROR)) w with
          | (Ok (Exit s), _) => s = 0 \/ s = EXIT_RUNTIME_ERROR
          | (Ok (InRun n chain), w') =>
              arg args 0 = str "--daemon" /\ run mine_fuel serve_fuel args w = (Ok (InRun n chain), w')
          | (Throw e, w') => e = system_error /\ (stdout_ok w' = false \/ stderr_ok w' = false)
          | _ => True end) as Hrun.
  { unfold try_catch. pose proof (run_ends mine_fuel serve_fuel args w) as Hst.
    destruct (run mine_fuel serve_fuel args w) as [[[s|n chain]| | |] w']; cbn in *; auto.
    rewrite print_error_then. destruct (stderr_ok w') eqn:E; auto. }
  destruct args as [|f args].
  - rewrite (io_bind_eq (mret (-1)) _ w (-1) w eq_refl). rewrite decide_False by lia.
    destruct (try_catch _ _ w) as [[[s|n chain]| | |] w']; try done; [|by destruct Hrun].
    destruct Hrun as [-> | ->]; auto.
  - assert (size_of args < 2 ^ 64) as Hs' by (rewrite size_of_cons in Hs; lia).
    assert (f = str "--help" \/ f = str "-h" ->
      check_arguments (f :: args) = (print_usage true;; mret 0)) as Hhelp.
    { intros Hf. unfold check_arguments. unfold arg at 1. cbn [lookup list_lookup default from_option]. unfold id.
      assert (flag_in f ["--help"; "-h"]%string = true) as ->; [|done].
      destruct Hf as [-> | ->]; vm_compute; reflexivity. }
    destruct (decide (f = str "--help" \/ f = str "-h")) as [Hf|Hf].
    + rewrite (Hhelp Hf). unfold mbind, io_bind, print_usage. pose proof (print_lines_out usage_text w) as Hp.
      destruct (print_lines true usage_text w) as [[u|e| |] w']; try done; [by left|]. destruct Hp as [-> ?]. by auto.
    + destruct (verdict_any f args w ltac:(tauto) ltac:(tauto) Hs') as [[Hv E]|[_ E]].
      * rewrite (io_bind_eq _ _ _ _ _ E). rewrite decide_False by lia.
        destruct (try_catch _ _ w) as [[[s|n chain]| | |] w']; try done; [destruct Hrun as [-> | ->]; auto|].
        destruct Hrun as [Ef Hr]. unfold arg in Ef. cbn in Ef. subst f.
        inversion Hv as [| | | | | | |port path rest (p & Hn & Hp)]; subst.
        exists port, p, path, rest. split_and!; try done; try lia. rewrite (daemon_runs _ _ _ _ _ Hn Hp) in Hr.
        destruct (daemon_args rest [] true) as [peers mine].
        apply io_bind_Ok in Hr as ([n' c'] & w1 & Hm & Hr). injection Hr as <- <- <-. exact Hm.
      * unfold refused in E. destruct (stderr_ok w) eqn:Ew.
        -- rewrite (io_bind_eq _ _ _ _ _ E). cbn. right. by right.
        -- rewrite (io_bind_throw _ _ _ _ _ E). by auto.
Qed.

(** The arguments of an accepted [--send] reach the wallet as the user
    wrote them: the port, the recipient and the amount that [run] converts again are
    those the check accepted, so no conversion fails after it. *)
Theorem send_command_runs host port path recipient amount w :
  valid_command [str "--send"; host; port; path; recipient; amount] ->
  exists p to v, number_text port p /\ 1 <= p <= 65535 /\ decode_address recipient = Ok to /\
    number_text amount v /\ 0 < v < 2 ^ 63 /\
    main mine_fuel serve_fuel [str "--send"; host; port; path; recipient; amount] w
    = try_catch (run_send_tx host p path to v;; mret (Exit 0)) (print_error;; mret (Exit EXIT_RUNTIME_ERROR)) w.
Proof.
  intros Hv.
  assert (str "--send" <> str "--help" /\ str "--send" <> str "-h") as [N1 N2]
    by (apply (bool_decide_unpack _); vm_compute; reflexivity).
  destruct (verdict_any (str "--send") [host; port; path; recipient; amount] w N1 N2 ltac:(done))
    as [[_ E]|[Hn _]]; [|done].
  inversion Hv as [| | | | |h po pa re am Hport Haddr Hamount| |]; subst.
  destruct Hport as (p & Hp & Hpr), Hamount as (v & Ha & Har).
  destruct (decode_address recipient) as [to| | |] eqn:Et; try done.
  exists p, to, v. split_and!; try done; try lia.
  unfold main. rewrite (io_bind_eq _ _ _ _ _ E). rewrite decide_False by lia.
  unfold run, arg. cbn [length lookup list_lookup default from_option]. unfold id. eval_flags.
  cbn [Nat.leb andb].
  rewrite (port_of_valid port p) by (apply parse_port_Some; by split).
  rewrite (stoll_valid amount v) by (apply parse_amount_Some; by split).
  rewrite Et. reflexivity.
Qed.

(** [--seed] writes a chain that starts a node: when it reports success, the
    file holds a genesis chain that obeys the consensus rules and loads back, and
    otherwise no file has changed. *)
Theorem seed_creates_chain path w s w' :
  main mine_fuel serve_fuel [str "--seed"; path] w = (Ok (Exit s), w') ->
  (s = EXIT_RUNTIME_ERROR /\ files w' = files w) \/
  (s = 0 /\ exists chain, files w' = <[path := serialize_chain chain]> (files w) /\
     validate_full_chain chain = Ok true /\
     (path ∉ unreadable w' -> load_chain path w' = (Ok chain, w'))).
Proof.
  assert (str "--seed" <> str "--help" /\ str "--seed" <> str "-h") as [N1 N2]
    by (apply (bool_decide_unpack _); vm_compute; reflexivity).
  destruct (verdict_any (str "--seed") [path] w N1 N2 ltac:(done)) as [[_ E]|[Hn _]]; [|by destruct Hn; constructor].
  unfold main. rewrite (io_bind_eq _ _ _ _ _ E). rewrite decide_False by lia.
  unfold run, arg. cbn [length lookup list_lookup default from_option]. unfold id. eval_flags.
  cbn [Nat.leb andb]. unfold try_catch.
  destruct ((now ← time_now; _) w) as [[s1|e| |] w1] eqn:Em; try done.
  - apply io_bind_Ok in Em as (now & w2 & Hnow & Em).
    pose proof (kept_time w) as Hk. rewrite Hnow in Hk. cbn [snd] in Hk.
    apply io_bind_Ok in Em as (chain & w3 & Hc & Em). injection Hc as Hc <-.
    apply io_bind_Ok in Em as (u & w4 & Hsave & Em). injection Em as <- <-.
    intros [= <- <-]. right. split; [done|]. exists chain.
    pose proof Hsave as Hf. apply save_chain_Ok in Hf. destruct Hk as (Hk & _ & _).
    rewrite Hk in Hf. split; [done|]. split; [by eapply genesis_valid|]. intros Hr.
    rewrite load_chain_state. f_equal. unfold load_chain.
    erewrite io_bind_eq; [|apply read_file_Ok; [done | rewrite Hf; apply lookup_insert_eq]].
    unfold lift. cbn [fst]. apply deserialize_serialize. eapply genesis_wf; [exact Hc | done |].
    apply (bool_decide_unpack _). reflexivity.
  - rewrite print_error_then. destruct (stderr_ok w1); [|done]. intros [= <- <-]. left. split; [done|].
    pose proof (kept_time w) as (Hk & _ & _). unfold mbind at 1, io_bind at 1 in Em.
    destruct (time_now w) as [[now|e'| |] w2]; cbn [snd] in Hk; try done; [|by injection Em as _ <-].
    unfold mbind at 1, io_bind at 1, lift in Em.
    destruct (build_genesis_chain mine_fuel now _) as [chain| | |]; try done; [|by injection Em as _ <-].
    unfold mbind, io_bind, save_chain in Em. rewrite write_file_eq in Em. case_decide; [|done]. by injection Em as _ <-.
Qed.
End MainTheorems.

#[local] Existing Instance toy_hashes.

(** ** Concrete command lines *)

Lemma check_arguments_correct_witness :
  @main toy_hashes toy_secp toy_inet toy_order 64 8 [str "--listen"; str "9000x"] empty_world
  = (Ok (Exit EXIT_USAGE_ERROR), empty_world) /\
  @check_arguments toy_hashes [str "--listen"; str "9000"] empty_world = (Ok (-1), empty_world).
Proof.
  assert (str "--listen" <> str "--help" /\ str "--listen" <> str "-h") as [N1 N2]
    by (apply (bool_decide_unpack _); vm_compute; reflexivity).
  split.
  - refine (proj2 (@check_arguments_correct toy_hashes toy_secp toy_inet toy_order 64 8 (str "--listen")
                     [str "9000x"] empty_world N1 N2 eq_refl) _).
    intros Hv. assert (parse_port (str "9000x") <> None) as Hp
      by (apply parse_port_is_port; inversion Hv; assumption).
    apply Hp. vm_compute. reflexivity.
  - refine (proj1 (@check_arguments_correct toy_hashes toy_secp toy_inet toy_order 64 8 (str "--listen")
                     [str "9000"] empty_world N1 N2 eq_refl) _).
    apply (@valid_listen toy_hashes); [|vm_compute; lia].
    apply parse_port_is_port. vm_compute. discriminate.
Defined.

Definition daemon_line : list bytes :=
  [str "--daemon"; str "9001"; chain_path; str "127.0.0.1:9000"; str "--no-mine"].
Lemma main_exit_status_witness :
  match @main toy_hashes toy_secp toy_inet toy_order 64 8 daemon_line empty_world with
  | (Ok (InRun n chain), w') =>
      @Node_make toy_hashes toy_secp 64 9001 chain_path [mkPeerAddress (str "127.0.0.1") 9000] false empty_world
      = (Ok (n, chain), w')
  | _ => False
  end.
Proof.
  pose proof (@main_exit_status toy_hashes toy_secp toy_inet toy_order 64 8 daemon_line empty_world eq_refl) as Hm.
  assert (match fst (@main toy_hashes toy_secp toy_inet toy_order 64 8 daemon_line empty_world) with
          | Ok (InRun _ _) => True | _ => False end) as E by (vm_compute; exact I).
  destruct (main _ _ _ _) as [[[s|n chain]| | |] w']; try done.
  destruct Hm as (port & p & path & rest & El & Hn & Hp & Hmake).
  unfold daemon_line in El. injection El as <- <- <-.
  assert (p = 9001) as ->.
  { assert (parse_port (str "9001") = Some p) as Ep by (apply parse_port_Some; by split).
    vm_compute in Ep. by injection Ep as <-. }
  exact Hmake.
Defined.

Definition toy_send : list bytes :=
  [str "--send"; str "127.0.0.1"; str "9000"; chain_path; @encode_address toy_hashes toy_dest; str "5000"].
Lemma send_command_runs_witness :
  exists p to v, number_text (str "9000") p /\ number_text (str "5000") v /\
    @main toy_hashes toy_secp toy_inet toy_order 64 8 toy_send empty_world
    = try_catch (@run_send_tx toy_hashes toy_secp toy_inet toy_order (str "127.0.0.1") p chain_path to v;; mret (Exit 0))
        (print_error;; mret (Exit EXIT_RUNTIME_ERROR)) empty_world.
Proof.
  destruct (@send_command_runs toy_hashes toy_secp toy_inet toy_order 64 8 (str "127.0.0.1") (str "9000")
              chain_path (@encode_address toy_hashes toy_dest) (str "5000") empty_world)
    as (p & to & v & Hp & _ & _ & Hv & _ & E).
  - apply (@valid_send toy_hashes).
    + apply parse_port_is_port. vm_compute. discriminate.
    + vm_compute. reflexivity.
    + apply parse_amount_is_amount. vm_compute. discriminate.
  - exists p, to, v. split; [exact Hp|]. split; [exact Hv | exact E].
Defined.

Lemma seed_creates_chain_witness :
  exists chain w', @main toy_hashes toy_secp toy_inet toy_order 64 8 [str "--seed"; chain_path] empty_world
    = (Ok (Exit 0), w') /\ @validate_full_chain toy_hashes toy_secp chain = Ok true /\
    files w' !! chain_path = Some (serialize_chain chain).
Proof.
  assert (fst (@main toy_hashes toy_secp toy_inet toy_order 64 8 [str "--seed"; chain_path] empty_world) = Ok (Exit 0)) as E
    by (vm_compute; reflexivity).
  destruct (main _ _ _ _) as [r w'] eqn:Em. cbn [fst] in E. subst r.
  destruct (@seed_creates_chain toy_hashes toy_hash_laws toy_secp toy_inet toy_order 64 8 chain_path
              empty_world 0 w' Em) as [[Hbad _]|[_ (chain & Hf & Hv & _)]]; [discriminate|].
  exists chain, w'. split; [reflexivity|]. split; [exact Hv|]. rewrite Hf. apply lookup_insert_eq.
Defined.

(** The comment of [parse_port] says that the whole string is parsed; a leading blank
    and a plus sign are nevertheless accepted. *)
Example parse_port_lenient : parse_port (str " +9000") = Some 9000.
Proof. vm_compute. reflexivity. Qed.
